(* ===== verification/_CoqProject ===== *)
-Q . S2P
Prelude.v
Containers.v
Base.v
Codec.v
Fabric.v
Digest.v
Lifecycle.v
Constraint.v
Candidate.v
Evaluation.v
Ordering.v
ConstraintSet.v
Evaluator.v
EvaluatorSpec.v
EvaluatorCorrect.v
BatchCorrect.v
Authority.v
Invalidation.v
Persistence.v
Store.v
Coordinator.v
CoordinatorInvariant.v
CoordinatorSystem.v
CoordinatorCorrect.v
Exact.v
Protocol.v
ProtocolCorrect.v
Snapshot.v
SnapshotCorrect.v
Messages.v
Net.v
Loopback.v
Server.v
ServerCorrect.v
Threads.v
ThreadsCorrect.v
Worker.v
WorkerCorrect.v
HostProcess.v
HostCorrect.v
