(* ===== verification/Prelude.v ===== *)
(** * Constraint Routing Fabric: a verification development

    The Constraint Routing Fabric answers one question: which of the candidate paths a
    planner proposes satisfy a published set of constraints, on which evidence, and
    whether that answer still holds. Publishers declare constraint sets; a coordinator
    evaluates candidate populations against them in two phases, keeps the results with
    the evidence they consulted, invalidates exactly the results a change touches, and
    stores its state durably; workers reach it over a framed loopback protocol. This
    library models that program from its C++ sources (under [src/], headers under
    [include/constraint_routing_fabric/]) as executable functions and proves what makes
    it correct. The files keep the names of the code; each opens with what it holds.

    ** Parts, files and sources

    - [Prelude], [Containers]: tactics, comparisons, sorting, binary search; ordered maps.
    - [Base] (status, identity, limits, version): results, identities and generations,
      enumerations, the limits and their validation.
    - [Codec] (codec): the byte writer and the reader with its sticky failure; [Exact]:
      what a decoder accepts, used where a format is shown to be exact.
    - [Digest] (digest): streaming SHA-256, CRC-32C, the semantic hasher.
    - [Lifecycle] (lifecycle, time): the transition table and the clamped clock.
    - [Constraint], [Candidate], [Evaluation], [Ordering], [ConstraintSet] (the files of
      the same names): the data, their validation, canonical forms, orders, digests and
      encodings; contradiction detection and finalization of a set.
    - [Evaluator] (evaluator): the eighteen constraint checks, the stages of an evaluation
      and the batch; [EvaluatorSpec] states what they should compute without their order
      of work, [EvaluatorCorrect] and [BatchCorrect] prove it.
    - [Authority] (authority): epochs, registrations, permanent fencing, authorization and
      replay de-duplication. [Invalidation] (invalidation): watermarks and the two-way
      index from dependency keys to evaluations.
    - [Persistence] (persistence): the envelope and the durable state; [Store]: the store
      file, its atomic replacement, ownership and quarantine.
    - [Coordinator] (coordinator): every operation, as a function on a world of the
      coordinator's memory and the disk. [CoordinatorInvariant] holds what an operation
      keeps and commits, [CoordinatorSystem] runs of requests in any order, with other
      requests between the phases of an evaluation, [CoordinatorCorrect] the theorems.
    - [Protocol], [ProtocolCorrect] (protocol): frames, the assembler of a byte stream, the
      payloads. [Snapshot], [SnapshotCorrect] (snapshot, and the two snapshot queries of
      coordinator). [Messages] (messages): the reports.
    - [Net] (net): sending a whole buffer and receiving; [Loopback] (net): the socket
      runtime, connecting, binding, accepting, moving and closing. [Server],
      [ServerCorrect] (server): a connection, from its first frame to the fence of its
      boot. [Threads], [ThreadsCorrect] (server): the server as a process — [start], the
      loop that accepts, a thread per connection, [stop] — in every interleaving.
    - [Worker], [WorkerCorrect] (worker): the client and its round trips. [Fabric]
      (fabric, source_of_truth): version text and names. [HostProcess], [HostCorrect]
      (crf_host, with the fixtures of crf_fixture): the command line and the coordinator
      and worker processes, with what they print.

    ** How the state corresponds

    A [std::uint64_t] is a [Z] whose wrap-around is written with [wrap]; generations stop
    at their ceiling and fail instead of wrapping. A [Result] is a sum, a [Status] a result
    of [unit]. A writer is a function on the bytes so far, a reader an option and the
    reader's new state. [Coordinator.Impl] has the fields of the class of that name; an
    operation is a function from a world to a result and a world, and the bind of
    operations keeps the world on a failure, as an early return does. [Server.Host] is what
    the thread of a connection sees, [Worker.WorkerClient] the fields of the client. The
    mutex of the coordinator is the atomicity of a request.

    In [Threads] a thread is a program, local computation between actions on what the
    threads share; an action is a call on the coordinator under its mutex, an atomic
    operation of a counter, or a section under the mutex of the server. An evaluation is
    two actions. [Server] is the same code with nothing between its actions, and
    [ThreadsCorrect] proves the two agree. A call that blocks is a turn that does not come,
    so liveness is stated for fair runs, in which every blocking call returns in the end.

    ** What the theorems show

    - Every reachable coordinator is well formed, its published data are in the store
      before they are visible, mutations are all or nothing and denied requests inert, an
      evaluation overtaken by a change never commits, a change invalidates exactly the
      results that depend on it, generations never go back, live authority is within the
      grants, and a restart recovers data and fences, but no authority.
    - The evaluator refines its specification: a candidate is admissible exactly when every
      gate and mandatory constraint admits it; its explanation is bounded and the outcome
      follows the precedence of the reasons; a batch is evaluated once per path.
    - Encodings are exact: the frame, the envelope, the payloads and reports are read back,
      and the frame and the envelope from no other bytes; the assembler recovers a stream
      however it is cut, within its bound.
    - A connection is a run of the coordinator under the identity its session registered,
      whatever its bytes; frames outside a session change nothing; every frame is
      answered with what the coordinator says to its request, unless the answer is larger
      than a frame; a lost session is revoked. A client's wait ends whatever the peer sends,
      its remote queries agree with the local ones, and its attempts are distinct.
    - The same holds of all connections at once: however the threads interleave, the
      server is a run of the coordinator's system and a frame acts under its session's
      identity; a thread alone is a connection of [Server]; stopping completes. No handle
      is lost and none has two owners. Two theorems show faults: the limit of the sessions
      bounds nothing, and any two hellos that overlap between the two steps of the session
      counter share a session.
    - A worker process gets in exactly when the coordinator registers its publisher, and
      never with a fenced boot; it ends with one verdict whatever its peer sends, and the
      numbers of its command line are read back.

    ** Parameters, bounds and fuel

    [Store.FileSystem], [Net.Sockets] and [Loopback.SocketCalls] are classes of the system
    calls, with their documented behaviour in [FileSystemLaws], [SocketLaws] and
    [HandleLaws]; [MemoryDisk], [MemorySocket] and [Kernel] are instances, used by the
    witnesses. [ReliableSockets] is a connection that does not fail. Clock readings, the
    salt of boot identities and the readings of the stop flag are arguments; one reading
    serves a whole call of the coordinator where the source reads the clock again, as
    [open] does for each boot it fences. Loops that are not structural have fuel, and a theorem
    that it is enough: the SHA-256 and CRC loops run over their input; [pop_loop] takes a
    frame of at least 96 bytes a round; [send_loop] a byte a round; [await_loop] a byte of
    a buffer bounded by [max_frame_assembly_bytes] a round; [trim_history] a record a
    round. The rounds of a connection follow the list of stop flags it reads.

    ** Not modelled

    The Windows branches. Data races: the threads vector that [run] extends while [stop]
    goes through it is one list here, and every action is taken as sequentially
    consistent. Cross-process effects of a lock beyond the one process of [FileSystem]; the
    signal a broken connection raises. The phase hook of the tests, plain accessors, and the
    tests, benchmarks and examples, which call the library and assert or print what comes
    back. *)

From Stdlib Require Import ZArith Lia Bool.
From stdpp Require Import base list numbers strings gmap sorting.

Open Scope Z_scope.

Create HintDb crf.

(** ** Tactics *)

(** Turn boolean connectives of the context into propositional ones. *)
Ltac bool_hyps :=
  repeat match goal with
  | H : andb _ _ = true |- _ => apply andb_true_iff in H; destruct H
  | H : orb _ _ = false |- _ => apply orb_false_iff in H; destruct H
  | H : negb _ = true |- _ => apply negb_true_iff in H
  | H : negb _ = false |- _ => apply negb_false_iff in H
  end.

(** Split on the scrutinee of the first [if] or [match] of a hypothesis. *)
Ltac case_in H :=
  match type of H with
  | context [match ?x with _ => _ end] => destruct x eqn:?
  end.

(** Walk down a chain of guarded early returns in [H] until it is closed or
    straight-line. *)
Ltac guards H := repeat (case_in H; try discriminate H).

(** Case split on every boolean scrutinee of the goal, then arithmetic. *)
Ltac ifs_lia :=
  repeat match goal with
  | |- context [if ?b then _ else _] => destruct b eqn:?
  | H : context [if ?b then _ else _] |- _ => destruct b eqn:?
  end; try lia.

(** Arithmetic below beta-redexes left by relations given as functions. *)
Ltac blia := cbv beta in *; lia.

(** ** Options and lists *)

Lemma list_forallb_Forall {A} (p : A → bool) (l : list A) :
  forallb p l = true ↔ Forall (λ x, p x = true) l.
Proof.
  induction l as [|x l IH]; simpl; [split; auto|].
  rewrite andb_true_iff, IH, Forall_cons. done.
Qed.

Lemma list_existsb_Exists {A} (p : A → bool) (l : list A) :
  existsb p l = true ↔ ∃ x, x ∈ l ∧ p x = true.
Proof.
  induction l as [|x l IH]; simpl.
  - split; [done|]. intros (x & Hx & _). by apply elem_of_nil in Hx.
  - rewrite orb_true_iff, IH. split.
    + intros [H|(y & Hy & Hp)]; [exists x|exists y]; split; auto; set_solver.
    + intros (y & Hy & Hp). apply elem_of_cons in Hy as [->|Hy]; eauto.
Qed.

Lemma list_existsb_false {A} (p : A → bool) (l : list A) :
  existsb p l = false ↔ ∀ x, x ∈ l → p x = false.
Proof.
  split.
  - intros H x Hx. destruct (p x) eqn:E; [|done].
    assert (existsb p l = true) by (apply list_existsb_Exists; eauto). congruence.
  - intros H. destruct (existsb p l) eqn:E; [|done].
    apply list_existsb_Exists in E as (x & Hx & Hp). rewrite H in Hp; done.
Qed.

Lemma StronglySorted_sublist {A} (R : A → A → Prop) l k :
  StronglySorted R k → l `sublist_of` k → StronglySorted R l.
Proof.
  intros Hk Hl. induction Hl as [|x l k Hl IH|x l k Hl IH]; [done| |];
    apply StronglySorted_inv in Hk as [Hk Hx]; [|by apply IH].
  constructor; [by apply IH|]. rewrite Forall_forall in *. intros y Hy. apply Hx.
  eapply elem_of_submseteq; [exact Hy|by apply sublist_submseteq].
Qed.

(** ** Three-way comparisons

    The code compares with functions that return a negative, zero or positive
    [int]; one line [if (a.x != b.x) return a.x < b.x ? -1 : 1;] of such a
    function is [cmp_step]. *)

Definition cmp_step (x y rest : Z) : Z :=
  if negb (x =? y) then (if x <? y then -1 else 1) else rest.

(** The laws of a three-way comparison: it is antisymmetric and transitive,
    hence total. Sorting is stated against this interface only. *)
Class CmpOrder {A : Type} (cmp : A → A → Z) : Prop := {
  cmp_sym : ∀ a b, cmp b a = - cmp a b;
  cmp_trans : ∀ a b c, cmp a b <= 0 → cmp b c <= 0 → cmp a c <= 0
}.
Arguments cmp_sym {A} cmp {_} a b.
Arguments cmp_trans {A} cmp {_} a b c.

Section cmp_facts.
Context {A : Type} (cmp : A → A → Z) `{!CmpOrder cmp}.

Lemma cmp_refl a : cmp a a = 0.
Proof. pose proof (cmp_sym cmp a a). lia. Qed.

Lemma cmp_total a b : cmp a b <= 0 ∨ cmp b a <= 0.
Proof. rewrite (cmp_sym cmp a b). lia. Qed.

Lemma cmp_lt_le_trans a b c : cmp a b < 0 → cmp b c <= 0 → cmp a c < 0.
Proof.
  intros Hab Hbc. destruct (decide (cmp a c < 0)) as [|Hac]; [done|].
  assert (cmp c a <= 0) by (rewrite (cmp_sym cmp a c); lia).
  pose proof (cmp_trans cmp b c a Hbc H). rewrite (cmp_sym cmp a b) in H0. lia.
Qed.

Lemma cmp_le_lt_trans a b c : cmp a b <= 0 → cmp b c < 0 → cmp a c < 0.
Proof.
  intros Hab Hbc. destruct (decide (cmp a c < 0)) as [|Hac]; [done|].
  assert (cmp c a <= 0) by (rewrite (cmp_sym cmp a c); lia).
  pose proof (cmp_trans cmp c a b H Hab). rewrite (cmp_sym cmp b c) in H0. lia.
Qed.

Lemma cmp_eq_trans a b c : cmp a b = 0 → cmp b c = 0 → cmp a c = 0.
Proof.
  intros Hab Hbc. pose proof (cmp_trans cmp a b c). pose proof (cmp_trans cmp c b a).
  rewrite (cmp_sym cmp b c), (cmp_sym cmp a b), (cmp_sym cmp a c) in H0. lia.
Qed.
End cmp_facts.

#[export] Instance cmp_const : ∀ A : Type, CmpOrder (λ _ _ : A, 0).
Proof. split; lia. Qed.

#[export] Instance cmp_step_order {A} (f : A → Z) (c : A → A → Z) :
  CmpOrder c → CmpOrder (λ a b, cmp_step (f a) (f b) (c a b)).
Proof.
  intros Hc. split; unfold cmp_step.
  - intros a b. rewrite (cmp_sym c a b). ifs_lia.
  - intros a b d. pose proof (cmp_trans c a b d). ifs_lia.
Qed.

Lemma cmp_on {A B} (f : A → B) (c : B → B → Z) :
  CmpOrder c → CmpOrder (λ a b, c (f a) (f b)).
Proof.
  intros Hc. split; intros *; [apply (cmp_sym c)|apply (cmp_trans c)].
Qed.

Lemma cmp_order_ext {A} (c1 c2 : A → A → Z) :
  (∀ a b, c1 a b = c2 a b) → CmpOrder c2 → CmpOrder c1.
Proof.
  intros E Hc. split; intros *; rewrite !E; [apply (cmp_sym c2)|apply (cmp_trans c2)].
Qed.

Definition cmp_then (x rest : Z) : Z := if x =? 0 then rest else x.

#[export] Instance cmp_then_order {A} (c1 c2 : A → A → Z) :
  CmpOrder c1 → CmpOrder c2 → CmpOrder (λ a b, cmp_then (c1 a b) (c2 a b)).
Proof.
  intros H1 H2. split; unfold cmp_then.
  - intros a b. rewrite (cmp_sym c1 a b), (cmp_sym c2 a b). ifs_lia.
  - intros a b d.
    pose proof (cmp_trans c2 a b d).
    pose proof (cmp_lt_le_trans c1 a b d). pose proof (cmp_le_lt_trans c1 a b d).
    pose proof (cmp_eq_trans c1 a b d). ifs_lia.
Qed.

(** Lexicographic comparison of two vectors, the shorter first on a tie of the
    shared prefix. *)
Fixpoint cmp_list {A} (c : A → A → Z) (a b : list A) : Z :=
  match a, b with
  | [], [] => 0
  | [], _ :: _ => -1
  | _ :: _, [] => 1
  | x :: a', y :: b' => cmp_then (c x y) (cmp_list c a' b')
  end.

#[export] Instance cmp_list_order {A} (c : A → A → Z) :
  CmpOrder c → CmpOrder (cmp_list c).
Proof.
  intros Hc. split.
  - induction a as [|x a IH]; destruct b as [|y b]; simpl; try done.
    rewrite IH. unfold cmp_then. rewrite (cmp_sym c x y). ifs_lia.
  - induction a as [|x a IH]; destruct b as [|y b], c0 as [|z c0]; simpl; try lia.
    unfold cmp_then. specialize (IH b c0).
    pose proof (cmp_lt_le_trans c x y z). pose proof (cmp_le_lt_trans c x y z).
    pose proof (cmp_eq_trans c x y z). ifs_lia.
Qed.

Lemma cmp_list_eq {A} (c : A → A → Z) :
  (∀ x y, c x y = 0 → x = y) → ∀ a b, cmp_list c a b = 0 → a = b.
Proof.
  intros Hc. induction a as [|x a IH]; destruct b as [|y b]; simpl; try done.
  unfold cmp_then. intros H. destruct (c x y =? 0) eqn:E; [|lia].
  f_equal; auto. apply Hc. lia.
Qed.

(** ** Sorted vectors *)

Section sorted.
Context {A : Type} (cmp : A → A → Z) `{!CmpOrder cmp}.

(** A sorted list is determined by its elements when only equal elements
    compare equal. *)
Lemma sorted_perm_eq l1 l2 :
  StronglySorted (λ a b, cmp a b <= 0) l1 →
  StronglySorted (λ a b, cmp a b <= 0) l2 →
  (∀ a b, a ∈ l1 → b ∈ l1 → cmp a b = 0 → a = b) →
  l1 ≡ₚ l2 → l1 = l2.
Proof.
  intros H1. revert l2. induction H1 as [|x l1 Hl1 IH Hx]; intros l2 H2 Heq Hp.
  { by apply Permutation_nil_l in Hp. }
  destruct H2 as [|y l2 Hl2 Hy].
  { symmetry in Hp. by apply Permutation_nil_cons in Hp. }
  rewrite Forall_forall in Hx, Hy.
  assert (x = y) as ->.
  { assert (x ∈ y :: l2) as Hxin by (rewrite <- Hp; set_solver).
    assert (y ∈ x :: l1) as Hyin by (rewrite Hp; set_solver).
    apply Heq; [set_solver|done|].
    apply elem_of_cons in Hxin as [->|Hxin]; [apply cmp_refl; done|].
    apply elem_of_cons in Hyin as [->|Hyin]; [apply cmp_refl; done|].
    pose proof (Hx _ Hyin). pose proof (Hy _ Hxin). rewrite (cmp_sym cmp x y) in H0. lia. }
  f_equal. apply IH; [done|set_solver|]. by apply Permutation_cons_inv in Hp.
Qed.

Lemma strictly_sorted_weaken l :
  StronglySorted (λ a b, cmp a b < 0) l → StronglySorted (λ a b, cmp a b <= 0) l.
Proof.
  induction 1 as [|x l Hl IH Hx]; constructor; [done|].
  eapply Forall_impl; [exact Hx|]. intros z. simpl. lia.
Qed.

Lemma strictly_sorted_NoDup l : StronglySorted (λ a b, cmp a b < 0) l → NoDup l.
Proof.
  induction 1 as [|x l Hl IH Hx]; constructor; [|done].
  intros Hin. rewrite Forall_forall in Hx. specialize (Hx x Hin).
  rewrite cmp_refl in Hx by done. blia.
Qed.

End sorted.

(** ** [std::stable_sort] *)

Fixpoint insert_by {A} (less : A → A → bool) (x : A) (l : list A) : list A :=
  match l with
  | [] => [x]
  | y :: l' => if less y x then y :: insert_by less x l' else x :: y :: l'
  end.

Definition stable_sort {A} (less : A → A → bool) (l : list A) : list A :=
  foldr (insert_by less) [] l.

Section stable_sort.
Context {A : Type} (less : A → A → bool) (cmp : A → A → Z).
Context (Hless : ∀ a b, less a b = (cmp a b <? 0)).

Lemma insert_by_perm x l : insert_by less x l ≡ₚ x :: l.
Proof.
  induction l as [|y l IH]; simpl; [done|]. destruct (less y x); [|done].
  rewrite IH. constructor.
Qed.

Lemma stable_sort_perm l : stable_sort less l ≡ₚ l.
Proof.
  induction l as [|x l IH]; simpl; [done|]. by rewrite insert_by_perm, IH.
Qed.

Lemma stable_sort_elem x l : x ∈ stable_sort less l ↔ x ∈ l.
Proof. by rewrite stable_sort_perm. Qed.

Lemma stable_sort_length l : length (stable_sort less l) = length l.
Proof. apply Permutation_length, stable_sort_perm. Qed.

Lemma insert_by_head x l :
  Forall (λ y, cmp x y <= 0) l → (∀ a b, cmp b a = - cmp a b) →
  insert_by less x l = x :: l.
Proof.
  intros Hl Hs. destruct Hl as [|y l Hy Hl]; [done|]. simpl.
  rewrite Hless, (Hs x y). destruct (- cmp x y <? 0) eqn:E; [lia|done].
Qed.

Context `{!CmpOrder cmp}.

Lemma insert_by_sorted x l :
  StronglySorted (λ a b, cmp a b <= 0) l →
  StronglySorted (λ a b, cmp a b <= 0) (insert_by less x l).
Proof.
  induction 1 as [|y l Hl IH Hy]; simpl; [repeat constructor|].
  rewrite Hless. destruct (cmp y x <? 0) eqn:E.
  - constructor; [done|]. rewrite insert_by_perm.
    constructor; [lia|done].
  - assert (cmp x y <= 0) by (rewrite (cmp_sym cmp y x); lia).
    repeat constructor; auto.
    eapply Forall_impl; [exact Hy|]. intros z Hz. by eapply cmp_trans.
Qed.

Lemma stable_sort_sorted l : StronglySorted (λ a b, cmp a b <= 0) (stable_sort less l).
Proof. induction l; simpl; [constructor|]. by apply insert_by_sorted. Qed.

Lemma stable_sort_id l :
  StronglySorted (λ a b, cmp a b <= 0) l → stable_sort less l = l.
Proof.
  induction 1 as [|x l Hl IH Hx]; simpl; [done|]. rewrite IH.
  apply insert_by_head; [done|]. apply (cmp_sym cmp).
Qed.

Lemma stable_sort_perm_eq l1 l2 :
  (∀ a b, a ∈ l1 → b ∈ l1 → cmp a b = 0 → a = b) →
  l1 ≡ₚ l2 → stable_sort less l1 = stable_sort less l2.
Proof.
  intros Heq Hp. apply (sorted_perm_eq cmp); try apply stable_sort_sorted.
  - intros a b. rewrite !stable_sort_elem. apply Heq.
  - by rewrite !stable_sort_perm.
Qed.

(** Stability: elements that compare equal keep their relative order. *)
Lemma insert_by_stable z x l :
  StronglySorted (λ a b, cmp a b <= 0) l →
  filter (λ y, cmp z y = 0) (insert_by less x l) = filter (λ y, cmp z y = 0) (x :: l).
Proof.
  induction 1 as [|y l Hl IH Hy]; simpl; [done|].
  rewrite Hless. destruct (cmp y x <? 0) eqn:E; [|done].
  rewrite !filter_cons, IH, filter_cons.
  destruct (decide (cmp z y = 0)) as [Hzy|], (decide (cmp z x = 0)) as [Hzx|]; try done.
  assert (cmp y x = 0); [|lia].
  eapply cmp_eq_trans; [done| |exact Hzx]. rewrite (cmp_sym cmp z y). lia.
Qed.

Lemma stable_sort_stable z l :
  filter (λ y, cmp z y = 0) (stable_sort less l) = filter (λ y, cmp z y = 0) l.
Proof.
  induction l as [|x l IH]; [done|]. change (stable_sort less (x :: l))
    with (insert_by less x (stable_sort less l)).
  rewrite insert_by_stable by apply stable_sort_sorted.
  rewrite !filter_cons, IH. done.
Qed.
End stable_sort.

(** Sorting commutes with a map that preserves the comparison. *)
Lemma stable_sort_map {A B} (f : A → B) (less1 : A → A → bool) (less2 : B → B → bool) l :
  (∀ a b, less1 a b = less2 (f a) (f b)) →
  map f (stable_sort less1 l) = stable_sort less2 (map f l).
Proof.
  intros Hless. induction l as [|x l IH]; [done|].
  change (stable_sort less1 (x :: l)) with (insert_by less1 x (stable_sort less1 l)).
  cbn [map stable_sort foldr]. change (foldr (insert_by less2) [] (map f l))
    with (stable_sort less2 (map f l)). rewrite <- IH. clear IH.
  induction (stable_sort less1 l) as [|y k IH]; simpl; [done|].
  rewrite Hless. destruct (less2 (f y) (f x)); simpl; [by rewrite IH|done].
Qed.

Lemma filter_bool_perm {A} (p : A → bool) l k :
  l ≡ₚ k → List.filter p l ≡ₚ List.filter p k.
Proof.
  induction 1 as [|x l k _ IH|x y l|l1 l2 l3 _ IH1 _ IH2]; simpl; try done.
  - destruct (p x); [by constructor|done].
  - destruct (p x), (p y); try done. constructor.
  - by rewrite IH1.
Qed.

(** ** Strictly ascending vectors, [std::unique], [std::lower_bound] *)

(** The index loop [if (!(values[i - 1] < values[i])) return false;]. *)
Fixpoint sorted_unique {A} (less : A → A → bool) (l : list A) : bool :=
  match l with
  | x :: ((y :: _) as l') => less x y && sorted_unique less l'
  | _ => true
  end.

(** [std::unique] followed by [erase]: the first of each run of equals stays. *)
Fixpoint unique_by {A} (eqb : A → A → bool) (l : list A) : list A :=
  match l with
  | [] => []
  | x :: l' =>
      match unique_by eqb l' with
      | z :: r => if eqb x z then x :: r else x :: z :: r
      | [] => [x]
      end
  end.

Fixpoint lower_bound {A} (before : A → bool) (l : list A) : list A :=
  match l with
  | [] => []
  | x :: l' => if before x then lower_bound before l' else l
  end.

Definition binary_search (x : Z) (l : list Z) : bool :=
  match lower_bound (λ y, y <? x) l with
  | y :: _ => negb (x <? y)
  | [] => false
  end.

(** [std::lower_bound] on a key, then the equality test on what it found. *)
Definition find_key {A} (key : A → Z) (wanted : Z) (l : list A) : option A :=
  match lower_bound (λ r, key r <? wanted) l with
  | r :: _ => if key r =? wanted then Some r else None
  | [] => None
  end.

Section sorted_unique.
Context {A : Type} (less : A → A → bool) (cmp : A → A → Z) `{!CmpOrder cmp}.
Context (Hless : ∀ a b, less a b = (cmp a b <? 0)).

Lemma sorted_unique_spec l :
  sorted_unique less l = true ↔ StronglySorted (λ a b, cmp a b < 0) l.
Proof.
  induction l as [|x l IH]; [split; constructor|].
  destruct l as [|y l]; [split; repeat constructor|].
  change (sorted_unique less (x :: y :: l)) with (less x y && sorted_unique less (y :: l)).
  rewrite andb_true_iff, IH, Hless. split.
  - intros [Hxy Hs]. constructor; [done|]. inversion Hs as [|? ? Hs' Hy]; subst.
    constructor; [blia|]. eapply Forall_impl; [exact Hy|]. intros z Hz.
    apply (cmp_lt_le_trans cmp x y z); blia.
  - intros Hs. inversion Hs as [|? ? Hs' Hx]; subst. split; [|done].
    apply Forall_cons in Hx as [Hx _]. blia.
Qed.

Lemma stable_sort_strict_id l :
  StronglySorted (λ a b, cmp a b < 0) l → stable_sort less l = l.
Proof. intros H. apply (stable_sort_id less cmp Hless), (strictly_sorted_weaken cmp), H. Qed.

Context (eqb : A → A → bool) (Heqb : ∀ a b, eqb a b = true ↔ a = b).
Context (Heq : ∀ a b, cmp a b = 0 → a = b).

Lemma unique_by_elem x l : x ∈ unique_by eqb l ↔ x ∈ l.
Proof.
  induction l as [|y l IH]; [done|].
  rewrite (elem_of_cons l), <- IH. cbn [unique_by]. clear IH.
  destruct (unique_by eqb l) as [|w r]; [by rewrite elem_of_cons|].
  destruct (eqb y w) eqn:E; [apply Heqb in E as ->|];
    rewrite !elem_of_cons; tauto.
Qed.

Lemma unique_by_sorted l :
  StronglySorted (λ a b, cmp a b <= 0) l →
  StronglySorted (λ a b, cmp a b < 0) (unique_by eqb l).
Proof.
  induction 1 as [|x l Hl IH Hx]; [constructor|]. cbn [unique_by].
  assert (∀ z, z ∈ unique_by eqb l → cmp x z <= 0) as Hall.
  { intros z Hz. rewrite Forall_forall in Hx. apply Hx.
    by rewrite unique_by_elem in Hz. }
  destruct (unique_by eqb l) as [|w r]; [repeat constructor|].
  inversion IH as [|? ? Hr Hw]; subst.
  destruct (eqb x w) eqn:E; [apply Heqb in E as ->; done|].
  assert (cmp x w < 0) as Hlt.
  { pose proof (Hall w (list_elem_of_here w r)).
    assert (cmp x w ≠ 0); [|blia]. intros H0.
    apply Heq, Heqb in H0. congruence. }
  constructor; [done|]. constructor; [done|].
  eapply Forall_impl; [exact Hw|]. intros z Hz.
  apply (cmp_lt_le_trans cmp x w z); blia.
Qed.

Lemma unique_by_id l :
  StronglySorted (λ a b, cmp a b < 0) l → unique_by eqb l = l.
Proof.
  induction 1 as [|x l Hl IH Hx]; [done|]. cbn [unique_by]. rewrite IH.
  destruct l as [|y l]; [done|]. destruct (eqb x y) eqn:E; [|done].
  apply Heqb in E as ->. apply Forall_cons in Hx as [Hx _].
  rewrite cmp_refl in Hx by done. blia.
Qed.

(** Two strictly sorted vectors with the same elements are the same vector. *)
Lemma strictly_sorted_ext l1 l2 :
  StronglySorted (λ a b, cmp a b < 0) l1 → StronglySorted (λ a b, cmp a b < 0) l2 →
  (∀ x, x ∈ l1 ↔ x ∈ l2) → l1 = l2.
Proof.
  intros H1 H2 Hext.
  apply (sorted_perm_eq cmp); try by apply (strictly_sorted_weaken cmp).
  - intros. by apply Heq.
  - apply NoDup_Permutation; try by apply (strictly_sorted_NoDup cmp). done.
Qed.
End sorted_unique.

Section lower_bound.
Context {A : Type} (key : A → Z).

Lemma find_key_Some wanted l r :
  find_key key wanted l = Some r → r ∈ l ∧ key r = wanted.
Proof.
  unfold find_key. induction l as [|x l IH]; simpl; [done|].
  destruct (key x <? wanted) eqn:E.
  - intros H. destruct (IH H) as [Hin Hk]. split; [set_solver|done].
  - destruct (key x =? wanted) eqn:E2; [|done]. intros [= ->]. split; [set_solver|blia].
Qed.

Lemma find_key_None wanted l :
  StronglySorted (λ a b, key a <= key b) l →
  find_key key wanted l = None → ∀ r, r ∈ l → key r ≠ wanted.
Proof.
  unfold find_key. induction 1 as [|x l Hl IH Hx]; simpl; [set_solver|].
  destruct (key x <? wanted) eqn:E.
  - intros H r Hr. apply elem_of_cons in Hr as [->|Hr]; [blia|]. by apply IH.
  - destruct (key x =? wanted) eqn:E2; [done|]. intros _ r Hr.
    apply elem_of_cons in Hr as [->|Hr]; [blia|].
    rewrite Forall_forall in Hx. specialize (Hx r Hr). simpl in Hx. blia.
Qed.

Lemma find_key_first wanted l r :
  find_key key wanted l = Some r →
  ∃ l1 l2, l = l1 ++ r :: l2 ∧ Forall (λ x, key x < wanted) l1.
Proof.
  unfold find_key. induction l as [|x l IH]; simpl; [done|].
  destruct (key x <? wanted) eqn:E.
  - intros H. destruct (IH H) as (l1 & l2 & -> & Hl1).
    exists (x :: l1), l2. split; [done|]. constructor; [blia|done].
  - destruct (key x =? wanted) eqn:E2; [|done]. intros [= ->]. by exists [], l.
Qed.
End lower_bound.

Definition cmp_Z (a b : Z) : Z := cmp_step a b 0.

#[export] Instance cmp_Z_order : CmpOrder cmp_Z.
Proof. apply (cmp_step_order (λ x, x) (λ _ _, 0)), cmp_const. Qed.

Lemma cmp_Z_eq a b : cmp_Z a b = 0 → a = b.
Proof. unfold cmp_Z, cmp_step. ifs_lia. Qed.

Lemma cmp_Z_lt a b : (a <? b) = (cmp_Z a b <? 0).
Proof. unfold cmp_Z, cmp_step. ifs_lia. Qed.

Lemma sorted_unique_Z l : sorted_unique Z.ltb l = true ↔ StronglySorted Z.lt l.
Proof.
  rewrite (sorted_unique_spec _ cmp_Z cmp_Z_lt).
  split; induction 1 as [|x l Hl IH Hx]; constructor; auto;
    (eapply Forall_impl; [exact Hx|]); intros y; pose proof (cmp_Z_lt x y); simpl; blia.
Qed.

Lemma binary_search_spec x l :
  sorted_unique Z.ltb l = true → binary_search x l = true ↔ x ∈ l.
Proof.
  rewrite sorted_unique_Z. unfold binary_search.
  induction 1 as [|y l Hl IH Hy]; simpl; [set_solver|].
  destruct (y <? x) eqn:E.
  - rewrite IH. set_unfold. naive_solver lia.
  - split.
    + intros H. assert (x = y) by (destruct (x <? y) eqn:?; simpl in H; blia). set_solver.
    + intros Hin. apply elem_of_cons in Hin as [->|Hin]; [by rewrite E|].
      rewrite Forall_forall in Hy. specialize (Hy x Hin). blia.
Qed.
