(* ===== verification/Containers.v ===== *)
(** [std::map] and [std::set]: a finite map or set and the ascending order in which
    the code iterates over it. *)

From Stdlib Require Import ZArith Lia Bool.
From stdpp Require Import base list numbers gmap sets sorting.
From S2P Require Import Prelude.

Open Scope list_scope.
Open Scope Z_scope.

(** The elements of a set and the entries of a map, in ascending order. *)
Definition ascending {A} `{Countable A} (less : A → A → bool) (X : gset A) : list A :=
  stable_sort less (elements X).

Definition entries {K A} `{Countable K} (less : K → K → bool) (m : gmap K A) : list (K * A) :=
  stable_sort (λ a b, less a.1 b.1) (map_to_list m).

(** The order of the keys: what [operator<] of the key type promises. *)
Class KeyOrder {K : Type} (less : K → K → bool) (cmp : K → K → Z) : Prop := {
  key_cmp_order : CmpOrder cmp;
  key_less : ∀ a b, less a b = (cmp a b <? 0);
  key_eq : ∀ a b, cmp a b = 0 → a = b
}.

#[export] Instance Z_key_order : KeyOrder Z.ltb cmp_Z.
Proof.
  split; [unfold cmp_Z; refine (cmp_step_order (λ x, x) _ _)|apply cmp_Z_lt|apply cmp_Z_eq].
Qed.

Section ordered.
Context {K : Type} `{Countable K} (less : K → K → bool) (cmp : K → K → Z).
Context `{!KeyOrder less cmp}.

#[local] Instance key_order_cmp : CmpOrder cmp := key_cmp_order (less := less).

Lemma strict_of_sorted {A} (f : A → K) (l : list A) :
  NoDup (map f l) → StronglySorted (λ a b, cmp (f a) (f b) <= 0) l →
  StronglySorted (λ a b, cmp (f a) (f b) < 0) l.
Proof.
  intros Hnd Hs. induction Hs as [|x l _ IH Hx]; constructor.
  - apply IH. by apply NoDup_cons in Hnd as [_ Hnd].
  - apply Forall_forall. intros y Hy. rewrite Forall_forall in Hx. specialize (Hx y Hy).
    cbv beta in Hx. destruct (decide (cmp (f x) (f y) = 0)) as [E|]; [|lia].
    apply (key_eq (less := less)) in E. apply NoDup_cons in Hnd as [Hnin _].
    destruct Hnin. apply list_elem_of_fmap. by exists y.
Qed.

Lemma ascending_elem (X : gset K) x : x ∈ ascending less X ↔ x ∈ X.
Proof. unfold ascending. by rewrite stable_sort_elem, elem_of_elements. Qed.

Lemma ascending_sorted (X : gset K) : StronglySorted (λ a b, cmp a b < 0) (ascending less X).
Proof.
  apply (strict_of_sorted (λ x, x)).
  - rewrite map_id. unfold ascending. rewrite (stable_sort_perm less). apply NoDup_elements.
  - apply (stable_sort_sorted less cmp key_less).
Qed.

Lemma ascending_length (X : gset K) : length (ascending less X) = base.size X.
Proof. unfold ascending. by rewrite stable_sort_length. Qed.

Lemma entries_elem {A} (m : gmap K A) k x : (k, x) ∈ entries less m ↔ m !! k = Some x.
Proof. unfold entries. by rewrite stable_sort_elem, elem_of_map_to_list. Qed.

Lemma entries_sorted {A} (m : gmap K A) :
  StronglySorted (λ a b, cmp a.1 b.1 < 0) (entries less m).
Proof.
  apply (strict_of_sorted fst).
  - unfold entries. rewrite (Permutation_map fst (stable_sort_perm _ _)). apply NoDup_fst_map_to_list.
  - assert (CmpOrder (λ a b : K * A, cmp a.1 b.1)) by (apply (cmp_on fst cmp); apply _).
    apply (stable_sort_sorted (λ a b : K * A, less a.1 b.1) (λ a b, cmp a.1 b.1)
      (λ a b, key_less a.1 b.1)).
Qed.

Lemma entries_length {A} (m : gmap K A) : length (entries less m) = base.size m.
Proof. unfold entries. by rewrite stable_sort_length, length_map_to_list. Qed.

Lemma entries_to_map {A} (m : gmap K A) : list_to_map (entries less m) = m.
Proof.
  rewrite <- (list_to_map_to_list m) at 2. apply list_to_map_proper.
  - unfold entries. rewrite (Permutation_map fst (stable_sort_perm _ _)). apply NoDup_fst_map_to_list.
  - apply stable_sort_perm.
Qed.
End ordered.

(** ** What the entries of a vector own *)

(** The values present among [l]. *)
Definition somes {A} : list (option A) → list A := omap (λ x, x).

Lemma somes_app {A} (l1 l2 : list (option A)) : somes (l1 ++ l2) = somes l1 ++ somes l2.
Proof. apply omap_app. Qed.

Lemma somes_lookup {A} (l : list (option A)) i x :
  l !! i = Some x → somes l ≡ₚ option_list x ++ somes (delete i l).
Proof.
  intros Hi. rewrite <- (take_drop_middle _ _ _ Hi) at 1. rewrite delete_take_drop, !somes_app.
  destruct x as [a|]; [|done].
  change (somes (take i l) ++ a :: somes (drop (S i) l) ≡ₚ a :: somes (take i l) ++ somes (drop (S i) l)).
  by rewrite Permutation_middle.
Qed.

Lemma somes_insert {A} (l : list (option A)) i x :
  (i < length l)%nat → somes (<[i:=x]> l) ≡ₚ option_list x ++ somes (delete i l).
Proof.
  intros Hi. rewrite (somes_lookup _ i x) by (by apply list_lookup_insert_eq).
  by rewrite !delete_take_drop, take_insert_ge, drop_insert_lt by lia.
Qed.
