(* ===== verification/Base.v ===== *)
(** Status plumbing, identities, generations, machine integers and resource
    limits: [status.hpp], [identity.hpp], [limits.hpp], [limits.cpp],
    [version.hpp]. *)

From Stdlib Require Import ZArith Lia Bool.
From stdpp Require Import base list numbers strings sets pretty.
From S2P Require Import Prelude.

Open Scope string_scope.
Open Scope list_scope.
Open Scope Z_scope.

(** ** Machine integers

    An unsigned [w]-bit integer is a [Z] of the range [0 <= z < 2 ^ w], a signed
    one a [Z] of [- 2 ^ (w - 1) <= z < 2 ^ (w - 1)]. *)

Definition wrap (w z : Z) : Z := z mod 2 ^ w.
Definition fits (w z : Z) : Prop := 0 <= z < 2 ^ w.
Definition fits_i64 (z : Z) : Prop := - 2 ^ 63 <= z < 2 ^ 63.

(** [static_cast<std::uint64_t>] of a signed value and back. *)
Definition u64_of_i64 (z : Z) : Z := wrap 64 z.
Definition i64_of_u64 (z : Z) : Z := if z <? 2 ^ 63 then z else z - 2 ^ 64.

Lemma wrap_fits w z : 0 <= w → fits w (wrap w z).
Proof. intros. unfold fits, wrap. apply Z.mod_pos_bound. lia. Qed.

Lemma wrap_small w z : fits w z → wrap w z = z.
Proof. apply Z.mod_small. Qed.

Lemma i64_u64 z : fits_i64 z → i64_of_u64 (u64_of_i64 z) = z.
Proof.
  unfold fits_i64, i64_of_u64, u64_of_i64, wrap. intros H.
  destruct (decide (0 <= z)).
  - rewrite Z.mod_small by lia. destruct (z <? 2 ^ 63) eqn:?; lia.
  - replace (z mod 2 ^ 64) with (z + 2 ^ 64).
    + destruct (z + 2 ^ 64 <? 2 ^ 63) eqn:?; lia.
    + symmetry. rewrite <- (Z_mod_plus_full z 1 (2 ^ 64)), Z.mul_1_l.
      apply Z.mod_small. lia.
Qed.

(** ** Enumerations

    An [enum class] is an inductive type with its numeric values: [code] is the
    cast to the underlying integer, [of_code] the cast back of a value the
    caller has range-checked. Comparisons of enumerators compare codes, as the
    language does. *)

Class Enum (A : Type) := {
  code : A → Z;
  of_code : Z → A;
  of_code_code : ∀ x, of_code (code x) = x
}.

Definition eeqb {A} `{Enum A} (x y : A) : bool := code x =? code y.

Lemma code_inj {A} `{Enum A} (x y : A) : code x = code y → x = y.
Proof. intros H'. rewrite <- (of_code_code x), <- (of_code_code y). by f_equal. Qed.

Lemma eeqb_eq {A} `{Enum A} (x y : A) : eeqb x y = true ↔ x = y.
Proof.
  unfold eeqb. rewrite Z.eqb_eq. split; [apply code_inj|by intros ->].
Qed.

Lemma eeqb_neq {A} `{Enum A} (x y : A) : eeqb x y = false ↔ x ≠ y.
Proof. rewrite <- eeqb_eq. destruct (eeqb x y); naive_solver. Qed.

Lemma eeqb_refl {A} `{Enum A} (x : A) : eeqb x x = true.
Proof. by apply eeqb_eq. Qed.

#[export] Hint Rewrite @eeqb_eq @eeqb_neq @eeqb_refl : crf.

(** ** [status.hpp] *)

Module ErrorCode.
Inductive t :=
  | Ok | InvalidArgument | Malformed | ResourceLimit | ContradictoryConstraintSet
  | DuplicateIdentity | UnknownConstraintKind | InvalidNumericBound
  | ImpossibleGeneration | NotFound | Unauthorized | Fenced | EpochMismatch
  | StaleGeneration | IdempotentReplay | MutationAttemptConflict
  | PersistenceUnavailable | PersistenceCorrupt | DurableWriteFailed
  | IntegrityMismatch | UnsupportedVersion | Truncated | TrailingBytes
  | TransportFailure | ProtocolViolation | NotSupported | Internal.

Definition to_code (x : t) : Z :=
  match x with
  | Ok => 0 | InvalidArgument => 1 | Malformed => 2 | ResourceLimit => 3
  | ContradictoryConstraintSet => 4 | DuplicateIdentity => 5
  | UnknownConstraintKind => 6 | InvalidNumericBound => 7
  | ImpossibleGeneration => 8 | NotFound => 9 | Unauthorized => 10 | Fenced => 11
  | EpochMismatch => 12 | StaleGeneration => 13 | IdempotentReplay => 14
  | MutationAttemptConflict => 15 | PersistenceUnavailable => 16
  | PersistenceCorrupt => 17 | DurableWriteFailed => 18 | IntegrityMismatch => 19
  | UnsupportedVersion => 20 | Truncated => 21 | TrailingBytes => 22
  | TransportFailure => 23 | ProtocolViolation => 24 | NotSupported => 25
  | Internal => 26
  end.

Definition from_code (z : Z) : t :=
  match z with
  | 1 => InvalidArgument | 2 => Malformed | 3 => ResourceLimit
  | 4 => ContradictoryConstraintSet | 5 => DuplicateIdentity
  | 6 => UnknownConstraintKind | 7 => InvalidNumericBound
  | 8 => ImpossibleGeneration | 9 => NotFound | 10 => Unauthorized | 11 => Fenced
  | 12 => EpochMismatch | 13 => StaleGeneration | 14 => IdempotentReplay
  | 15 => MutationAttemptConflict | 16 => PersistenceUnavailable
  | 17 => PersistenceCorrupt | 18 => DurableWriteFailed | 19 => IntegrityMismatch
  | 20 => UnsupportedVersion | 21 => Truncated | 22 => TrailingBytes
  | 23 => TransportFailure | 24 => ProtocolViolation | 25 => NotSupported
  | 26 => Internal | _ => Ok
  end.
End ErrorCode.

#[export] Instance ErrorCode_enum : Enum ErrorCode.t.
Proof.
  refine {| code := ErrorCode.to_code; of_code := ErrorCode.from_code |}.
  by intros [].
Defined.

(** [Result<T>]; a [Status] is a result with no payload. *)
Inductive Result (T : Type) :=
  | Success (value : T)
  | Failure (error : ErrorCode.t) (detail : string).
Arguments Success {T} value.
Arguments Failure {T} error detail.

Abbreviation Status := (Result unit).

Definition success : Status := Success ().

Definition ok {T} (r : Result T) : bool :=
  match r with Success _ => true | Failure _ _ => false end.

Definition error_code {T} (r : Result T) : ErrorCode.t :=
  match r with Success _ => ErrorCode.Ok | Failure c _ => c end.

Definition detail {T} (r : Result T) : string :=
  match r with Success _ => "" | Failure _ d => d end.

(** Early return of the failure of a [Status]; [let+ x := r in k] continues
    with the payload. *)
Definition rbind {A B} (r : Result A) (k : A → Result B) : Result B :=
  match r with Success v => k v | Failure c d => Failure c d end.

Notation "'let+' x ':=' r 'in' k" := (rbind r (λ x, k))
  (at level 200, x name, r at level 100, k at level 200, right associativity).

Lemma rbind_Success {A B} (r : Result A) (k : A → Result B) v :
  rbind r k = Success v ↔ ∃ x, r = Success x ∧ k x = Success v.
Proof. destruct r; simpl; naive_solver. Qed.

(** A guarded early return and a propagated status, as propositions. *)
Lemma ok_if {T} (b : bool) c d (k : Result T) :
  ok (if b then Failure c d else k) = true ↔ b = false ∧ ok k = true.
Proof. destruct b; simpl; naive_solver. Qed.

Lemma ok_rbind {T} (r : Status) (k : () → Result T) :
  ok (rbind r k) = true ↔ ok r = true ∧ ok (k ()) = true.
Proof. destruct r as [[]|]; simpl; naive_solver. Qed.

Lemma ok_Success {T} (r : Result T) : ok r = true ↔ ∃ v, r = Success v.
Proof. destruct r; simpl; naive_solver. Qed.

Lemma ok_status (r : Status) : ok r = true ↔ r = success.
Proof. destruct r as [[]|]; simpl; naive_solver. Qed.

(** ** [identity.hpp] *)

(** [StrongId] and [Generation] wrap a 64-bit integer; zero is the invalid
    value. *)
Definition is_valid (value : Z) : bool := negb (value =? 0).

Definition kMaxGeneration : Z := (2 ^ 64 - 1) / 2.

Definition is_representable (value : Z) : bool :=
  negb (value =? 0) && (value <=? kMaxGeneration).

(** [Generation::next]: [None] when the ceiling is reached. *)
Definition next (value : Z) : option Z :=
  if kMaxGeneration <=? value then None else Some (value + 1).

Lemma is_valid_true v : is_valid v = true ↔ v ≠ 0.
Proof. unfold is_valid. rewrite negb_true_iff. lia. Qed.

Lemma is_valid_false v : is_valid v = false ↔ v = 0.
Proof. unfold is_valid. rewrite negb_false_iff. lia. Qed.

Lemma is_representable_true v :
  0 <= v → is_representable v = true ↔ 0 < v < 2 ^ 63.
Proof.
  unfold is_representable, kMaxGeneration. change ((2 ^ 64 - 1) / 2) with (2 ^ 63 - 1).
  rewrite andb_true_iff, negb_true_iff. lia.
Qed.

Lemma next_spec v v' :
  next v = Some v' ↔ v < kMaxGeneration ∧ v' = v + 1.
Proof. unfold next. destruct (kMaxGeneration <=? v) eqn:?; naive_solver lia. Qed.

(** [std::to_string] of an unsigned integer. *)
Definition decimal (value : Z) : string := pretty (Z.to_N value).

(** [render] of an identifier and of a generation: [snprintf] into 48 bytes. *)
Definition render_id (prefix : string) (value : Z) : string :=
  String.substring 0 47 (prefix ++ ":" ++ decimal value).
Definition render_generation (prefix : string) (value : Z) : string :=
  String.substring 0 47 (prefix ++ "#" ++ decimal value).

(** ** [version.hpp] *)

Definition kPersistenceFormatVersion : Z := 1.
Definition kProtocolVersion : Z := 1.
Definition kWireMagic : Z := 0x46465243.
Definition kStoreMagic : string := "CRFSTORE".

(** ** [limits.hpp] and [limits.cpp] *)

Record Limits := mkLimits {
  max_constraint_sets : Z;
  max_constraints_per_set : Z;
  max_entity_refs_per_constraint : Z;
  max_failed_constraints_per_evaluation : Z;
  max_candidates_per_evaluation : Z;
  max_nodes_per_candidate : Z;
  max_links_per_candidate : Z;
  max_capabilities_per_entity : Z;
  max_domains_per_entity : Z;
  max_localities_per_entity : Z;
  max_policies_per_candidate : Z;
  max_explanation_reasons : Z;
  max_batch_size : Z;
  max_publishers : Z;
  max_sessions : Z;
  max_frame_bytes : Z;
  max_frame_assembly_bytes : Z;
  max_persistence_record_bytes : Z;
  max_evaluations_retained : Z;
  max_fenced_boots : Z;
  max_mutation_attempts : Z;
  max_name_bytes : Z;
  max_detail_bytes : Z;
  max_decoded_count : Z
}.

(** [Limits{}]. *)
Definition default_limits : Limits :=
  mkLimits 64 256 16 256 64 64 64 32 16 8 32 64 64 32 32 (2 ^ 20) (2 ^ 22)
    (2 ^ 24) 1024 256 256 128 512 (2 ^ 24).

Definition kAbsoluteMaxLimit : Z := 2 ^ 27.

(** [check]: [None] when the limit is acceptable, else the text put in [why]. *)
Definition check_limit (value : Z) (name : string) : option string :=
  if value =? 0 then Some ("limit " ++ name ++ " must be greater than zero")%string
  else if kAbsoluteMaxLimit <? value then
    Some ("limit " ++ name ++ " exceeds the absolute maximum")%string
  else None.

Definition limit_entries (l : Limits) : list (string * Z) :=
  [ ("max_constraint_sets", max_constraint_sets l);
    ("max_constraints_per_set", max_constraints_per_set l);
    ("max_entity_refs_per_constraint", max_entity_refs_per_constraint l);
    ("max_failed_constraints_per_evaluation", max_failed_constraints_per_evaluation l);
    ("max_candidates_per_evaluation", max_candidates_per_evaluation l);
    ("max_nodes_per_candidate", max_nodes_per_candidate l);
    ("max_links_per_candidate", max_links_per_candidate l);
    ("max_capabilities_per_entity", max_capabilities_per_entity l);
    ("max_domains_per_entity", max_domains_per_entity l);
    ("max_localities_per_entity", max_localities_per_entity l);
    ("max_policies_per_candidate", max_policies_per_candidate l);
    ("max_explanation_reasons", max_explanation_reasons l);
    ("max_batch_size", max_batch_size l);
    ("max_publishers", max_publishers l);
    ("max_sessions", max_sessions l);
    ("max_frame_bytes", max_frame_bytes l);
    ("max_frame_assembly_bytes", max_frame_assembly_bytes l);
    ("max_persistence_record_bytes", max_persistence_record_bytes l);
    ("max_evaluations_retained", max_evaluations_retained l);
    ("max_fenced_boots", max_fenced_boots l);
    ("max_mutation_attempts", max_mutation_attempts l);
    ("max_name_bytes", max_name_bytes l);
    ("max_detail_bytes", max_detail_bytes l) ].

Fixpoint check_limits_from (entries : list (string * Z)) : option string :=
  match entries with
  | [] => None
  | (name, value) :: rest =>
      match check_limit value name with
      | Some why => Some why
      | None => check_limits_from rest
      end
  end.

(** [None] when the limit set is valid, else the text put in [why]. The
    comparison of [max_batch_size] with [max_candidates_per_evaluation] has an
    empty body in the code. *)
Definition validate_limits (l : Limits) : option string :=
  match check_limits_from (limit_entries l) with
  | Some why => Some why
  | None =>
      if (max_decoded_count l =? 0) || (kAbsoluteMaxLimit <? max_decoded_count l) then
        Some "limit max_decoded_count is out of range"
      else if max_frame_assembly_bytes l <? max_frame_bytes l then
        Some "max_frame_assembly_bytes must be at least max_frame_bytes"
      else if max_nodes_per_candidate l <? 2 then
        Some "max_nodes_per_candidate must allow at least a two-node path"
      else if max_explanation_reasons l <? 4 then
        Some "max_explanation_reasons must allow at least four reasons"
      else if max_persistence_record_bytes l <? 1024 then
        Some "max_persistence_record_bytes must allow at least one kilobyte"
      else None
  end.

Definition limits_ok (l : Limits) : bool :=
  match validate_limits l with None => true | Some _ => false end.

Lemma check_limits_from_None entries :
  check_limits_from entries = None ↔
  Forall (λ e, e.2 ≠ 0 ∧ e.2 <= kAbsoluteMaxLimit) entries.
Proof.
  induction entries as [|[n v] es IH]; simpl; [split; constructor|].
  rewrite Forall_cons, <- IH. unfold check_limit.
  destruct (v =? 0) eqn:?, (kAbsoluteMaxLimit <? v) eqn:?; naive_solver lia.
Qed.

Lemma limits_ok_entries l :
  limits_ok l = true → Forall (λ e, e.2 ≠ 0 ∧ e.2 <= kAbsoluteMaxLimit) (limit_entries l).
Proof.
  unfold limits_ok, validate_limits.
  destruct (check_limits_from (limit_entries l)) eqn:E; [done|]. intros _.
  by apply check_limits_from_None.
Qed.

(** The [i]-th limit of a validated set is below the absolute maximum. *)
Lemma limits_ok_entry l i e :
  limits_ok l = true → limit_entries l !! i = Some e → e.2 <= 2 ^ 27.
Proof.
  intros H He. apply (Forall_lookup_1 _ _ _ _ (limits_ok_entries l H)) in He as [_ He]. done.
Qed.

(** Every value a validated limit set holds is usable as a bound: the four
    limits the evaluator divides its work by are positive. *)
Lemma limits_ok_facts l :
  limits_ok l = true →
  max_explanation_reasons l >= 4 ∧ max_failed_constraints_per_evaluation l ≠ 0 ∧
  max_nodes_per_candidate l >= 2 ∧ max_persistence_record_bytes l >= 1024 ∧
  max_frame_bytes l <= max_frame_assembly_bytes l.
Proof.
  unfold limits_ok, validate_limits.
  destruct (check_limits_from (limit_entries l)) eqn:E; [done|].
  apply check_limits_from_None in E.
  pose proof (Forall_lookup_1 _ _ 3%nat _ E eq_refl) as [Hfailed _]. clear E.
  destruct (_ || _); [done|].
  destruct (_ <? _) eqn:E1; [done|]. destruct (_ <? 2) eqn:E2; [done|].
  destruct (_ <? 4) eqn:E3; [done|]. destruct (_ <? 1024) eqn:E4; [done|].
  intros _. split_and!; [lia|exact Hfailed|lia..].
Qed.
