(* ===== verification/Codec.v ===== *)
(** The canonical little-endian encoding: [ByteWriter] and [ByteReader] of
    [codec.hpp] and [codec.cpp].

    A writer is the buffer it has accumulated; a writing function is a
    transformer of buffers. A reader is the span, the position and the sticky
    [ok_] flag; a reading function is a state transformer that returns [None]
    when the code returns [false]. *)

From Stdlib Require Import ZArith Lia Bool Strings.Byte.
From stdpp Require Import base list numbers strings sets.
From S2P Require Import Prelude Base.

Open Scope string_scope.
Open Scope list_scope.
Open Scope Z_scope.

(** ** Bytes *)

Definition byte_of_Z (z : Z) : byte :=
  match Byte.of_N (Z.to_N (z mod 256)) with Some b => b | None => x00 end.

(** [std::to_integer<std::uint8_t>]. *)
Definition to_integer (b : byte) : Z := Z.of_N (Byte.to_N b).

Definition bytes_of_string (s : string) : list byte := String.list_byte_of_string s.
Definition string_of_bytes (bs : list byte) : string := String.string_of_list_byte bs.

Definition size {A} (l : list A) : Z := Z.of_nat (length l).

(** ** [ByteWriter] *)

Definition ByteWriter : Type := list byte.
Definition writing : Type := ByteWriter → ByteWriter.

(** Two statements on the same writer, one after the other. *)
Definition seqw (f g : writing) : writing := λ w, g (f w).
Notation "f ;;> g" := (seqw f g) (at level 65, right associativity).

Definition put_nothing : writing := λ w, w.

Definition put_raw (data : list byte) : writing := λ w, w ++ data.

Definition put_u8 (value : Z) : writing := λ w, w ++ [byte_of_Z value].

Definition put_u16 (value : Z) : writing :=
  put_u8 (Z.land value 0xff) ;;> put_u8 (Z.land (Z.shiftr value 8) 0xff).

(** [for (const auto& x : xs) f(x);] *)
Definition put_each {A} (f : A → writing) (xs : list A) : writing :=
  λ w, fold_left (λ w x, f x w) xs w.

Definition put_u32 (value : Z) : writing :=
  put_each (λ index, put_u8 (Z.land (Z.shiftr value (index * 8)) 0xff)) [0; 1; 2; 3].

Definition put_u64 (value : Z) : writing :=
  put_each (λ index, put_u8 (Z.land (Z.shiftr value (index * 8)) 0xff))
    [0; 1; 2; 3; 4; 5; 6; 7].

Definition put_i64 (value : Z) : writing := put_u64 (u64_of_i64 value).

Definition put_bool (value : bool) : writing := put_u8 (if value then 1 else 0).

Definition put_bytes (data : list byte) : writing :=
  put_u32 (wrap 32 (size data)) ;;> put_raw data.

Definition put_string (text : string) : writing :=
  put_u32 (wrap 32 (size (bytes_of_string text))) ;;> put_raw (bytes_of_string text).

(** ** [ByteReader] *)

Record ByteReader := mkReader {
  data : list byte;
  position : Z;
  ok_ : bool
}.

Definition open_reader (bs : list byte) : ByteReader := mkReader bs 0 true.

Definition at_end (r : ByteReader) : bool := position r =? size (data r).

Definition remaining (r : ByteReader) : Z :=
  if ok_ r then size (data r) - position r else 0.

Definition rest (r : ByteReader) : list byte :=
  if negb (ok_ r) || (size (data r) <? position r) then []
  else drop (Z.to_nat (position r)) (data r).

Definition reader (A : Type) : Type := ByteReader → option A * ByteReader.

#[export] Instance reader_ret : MRet reader := λ A a r, (Some a, r).

#[export] Instance reader_bind : MBind reader := λ A B k m r,
  match m r with
  | (Some a, r') => k a r'
  | (None, r') => (None, r')
  end.

(** [return false;] without touching the reader. *)
Definition return_false {A} : reader A := λ r, (None, r).

(** [reader.fail(); return false;] *)
Definition fail {A} : reader A := λ r, (None, mkReader (data r) (position r) false).

(** [if (cond) { reader.fail(); return false; }] *)
Definition fail_if (cond : bool) : reader unit := if cond then fail else mret ().

Definition ensure (count : Z) : reader unit := λ r,
  if negb (ok_ r) then (None, r)
  else if size (data r) - position r <? count then
    (None, mkReader (data r) (position r) false)
  else (Some (), r).

(** The [count] bytes at the position, and the position after them. *)
Definition take_bytes (count : Z) : reader (list byte) := λ r,
  (Some (take (Z.to_nat count) (drop (Z.to_nat (position r)) (data r))),
   mkReader (data r) (position r + count) (ok_ r)).

(** [value |= byte(index) << (index * 8)] for ascending [index]. *)
Fixpoint assemble (index : Z) (value : Z) (bs : list byte) : Z :=
  match bs with
  | [] => value
  | b :: bs' =>
      assemble (index + 1) (Z.lor value (Z.shiftl (to_integer b) (index * 8))) bs'
  end.

Definition u8 : reader Z :=
  _ ← ensure 1; bs ← take_bytes 1; mret (assemble 0 0 bs).
Definition u16 : reader Z :=
  _ ← ensure 2; bs ← take_bytes 2; mret (assemble 0 0 bs).
Definition u32 : reader Z :=
  _ ← ensure 4; bs ← take_bytes 4; mret (assemble 0 0 bs).
Definition u64 : reader Z :=
  _ ← ensure 8; bs ← take_bytes 8; mret (assemble 0 0 bs).
Definition i64 : reader Z := raw ← u64; mret (i64_of_u64 raw).

Definition boolean : reader bool :=
  raw ← u8; _ ← fail_if (1 <? raw); mret (raw =? 1).

Definition bounded_length (max_len : Z) : reader Z :=
  length ← u32; _ ← fail_if (max_len <? length); mret length.

(** Reads exactly [count] bytes with no length prefix. *)
Definition raw (count : Z) : reader (list byte) :=
  _ ← ensure count; take_bytes count.

Definition bytes : reader (list byte) :=
  length ← u32; _ ← ensure length; take_bytes length.

Definition read_string : reader string :=
  length ← u32; _ ← ensure length; bs ← take_bytes length; mret (string_of_bytes bs).

(** [for (i = 0; i < count; ++i) { T x; if (!f(x)) return false; push_back(x); }] *)
Fixpoint read_each_nat {A} (f : reader A) (count : nat) : reader (list A) :=
  match count with
  | O => mret []
  | S count' => x ← f; xs ← read_each_nat f count'; mret (x :: xs)
  end.
Definition read_each {A} (f : reader A) (count : Z) : reader (list A) :=
  read_each_nat f (Z.to_nat count).

(** ** Lemmas: bytes *)

Lemma to_integer_bound b : 0 <= to_integer b < 256.
Proof. unfold to_integer. pose proof (Byte.to_N_bounded b). lia. Qed.

Lemma byte_of_Z_to_integer b : byte_of_Z (to_integer b) = b.
Proof.
  unfold byte_of_Z. rewrite Z.mod_small by apply to_integer_bound.
  unfold to_integer. rewrite N2Z.id, Byte.of_to_N. done.
Qed.

Lemma to_integer_byte_of_Z z : to_integer (byte_of_Z z) = z mod 256.
Proof.
  unfold byte_of_Z, to_integer. pose proof (Z.mod_pos_bound z 256 ltac:(lia)).
  destruct (Byte.of_N _) as [b|] eqn:E.
  - apply Byte.to_of_N in E. rewrite E. lia.
  - apply Byte.of_N_None_iff in E. lia.
Qed.

Lemma byte_of_Z_mod z : byte_of_Z (z mod 256) = byte_of_Z z.
Proof. unfold byte_of_Z. by rewrite Z.mod_mod. Qed.

Lemma byte_of_Z_land z : byte_of_Z (Z.land z 0xff) = byte_of_Z z.
Proof.
  rewrite <- (byte_of_Z_mod z). change 0xff with (Z.ones 8). by rewrite Z.land_ones.
Qed.

Lemma string_of_bytes_of_string s : string_of_bytes (bytes_of_string s) = s.
Proof. apply String.string_of_list_byte_of_string. Qed.

Lemma bytes_of_string_of_bytes bs : bytes_of_string (string_of_bytes bs) = bs.
Proof. apply String.list_byte_of_string_of_list_byte. Qed.

(** The little-endian bytes of a value and the value of little-endian bytes. *)
Fixpoint le_bytes (n : nat) (v : Z) : list byte :=
  match n with
  | O => []
  | S n' => byte_of_Z v :: le_bytes n' (Z.shiftr v 8)
  end.

Fixpoint le_val (bs : list byte) : Z :=
  match bs with
  | [] => 0
  | b :: bs' => to_integer b + 256 * le_val bs'
  end.

Lemma le_bytes_length n v : length (le_bytes n v) = n.
Proof. revert v. induction n; intros v; simpl; auto. Qed.

Lemma le_val_nonneg bs : 0 <= le_val bs.
Proof. induction bs as [|b bs IH]; simpl; [lia|]. pose proof (to_integer_bound b). lia. Qed.

Lemma le_val_bytes n v : fits (8 * Z.of_nat n) v → le_val (le_bytes n v) = v.
Proof.
  unfold fits. revert v. induction n as [|n IH]; intros v H.
  { simpl in *. lia. }
  cbn [le_bytes le_val]. rewrite to_integer_byte_of_Z, IH.
  - rewrite Z.shiftr_div_pow2 by lia. change (2 ^ 8) with 256.
    pose proof (Z.div_mod v 256). lia.
  - rewrite Z.shiftr_div_pow2 by lia.
    replace (8 * Z.of_nat (S n)) with (8 * Z.of_nat n + 8) in H by lia.
    rewrite Z.pow_add_r in H by lia. change (2 ^ 8) with 256 in *. split.
    + apply Z.div_pos; lia.
    + apply Z.div_lt_upper_bound; lia.
Qed.

Lemma lor_disjoint a r k : 0 <= k → 0 <= a < 2 ^ k → Z.lor a (Z.shiftl r k) = a + r * 2 ^ k.
Proof.
  intros Hk Ha. rewrite <- Z.shiftl_mul_pow2 by lia. rewrite <- Z.add_lor_land.
  assert (Z.land a (Z.shiftl r k) = 0) as ->; [|lia].
  apply Z.bits_inj'. intros i Hi. rewrite Z.land_spec, Z.bits_0.
  destruct (decide (i < k)).
  - rewrite Z.shiftl_spec_low by lia. apply andb_false_r.
  - destruct (decide (a = 0)) as [->|]; [by rewrite Z.bits_0|].
    rewrite Z.bits_above_log2, andb_false_l; [done|lia|].
    assert (Z.log2 a < k); [|lia]. apply Z.log2_lt_pow2; lia.
Qed.

Lemma assemble_spec bs i v :
  0 <= i → 0 <= v < 2 ^ (i * 8) → assemble i v bs = v + le_val bs * 2 ^ (i * 8).
Proof.
  revert i v. induction bs as [|b bs IH]; intros i v Hi Hv; cbn [assemble le_val]; [lia|].
  rewrite lor_disjoint by lia. pose proof (to_integer_bound b).
  rewrite IH; [|lia|].
  - replace ((i + 1) * 8) with (i * 8 + 8) by lia. rewrite Z.pow_add_r by lia.
    change (2 ^ 8) with 256. lia.
  - replace ((i + 1) * 8) with (i * 8 + 8) by lia. rewrite Z.pow_add_r by lia.
    change (2 ^ 8) with 256. nia.
Qed.

Lemma assemble_le_val bs : assemble 0 0 bs = le_val bs.
Proof. rewrite assemble_spec; simpl; lia. Qed.

(** ** Lemmas: writers append *)

(** A writing function only appends, and what it appends does not depend on
    the buffer. *)
Class Appends (f : writing) : Prop := appends : ∀ w, f w = w ++ f [].

#[export] Typeclasses Opaque put_nothing put_raw put_u8 put_u16 put_u32 put_u64
  put_i64 put_bool put_bytes put_string put_each seqw.
#[export] Hint Mode Appends ! : typeclass_instances.

#[export] Instance appends_nothing : Appends put_nothing.
Proof. intros w. by rewrite app_nil_r. Qed.
#[export] Instance appends_raw bs : Appends (put_raw bs).
Proof. done. Qed.
#[export] Instance appends_u8 v : Appends (put_u8 v).
Proof. done. Qed.
#[export] Instance appends_seq f g : Appends f → Appends g → Appends (f ;;> g).
Proof.
  intros Hf Hg w. unfold seqw. rewrite Hg, Hf, (Hg (f [])). by rewrite app_assoc.
Qed.

#[export] Instance appends_each {A} (f : A → writing) xs :
  (∀ x, Appends (f x)) → Appends (put_each f xs).
Proof.
  intros Hf. unfold put_each. induction xs as [|x xs IH]; intros w; simpl.
  { by rewrite app_nil_r. }
  rewrite IH, (IH (f x [])), (Hf x w). by rewrite app_assoc.
Qed.

#[export] Instance appends_if (b : bool) f g :
  Appends f → Appends g → Appends (if b then f else g).
Proof. by destruct b. Qed.

#[export] Instance appends_u16 v : Appends (put_u16 v).
Proof. unfold put_u16. apply _. Qed.
#[export] Instance appends_u32 v : Appends (put_u32 v).
Proof. unfold put_u32. apply _. Qed.
#[export] Instance appends_u64 v : Appends (put_u64 v).
Proof. unfold put_u64. apply _. Qed.
#[export] Instance appends_i64 v : Appends (put_i64 v).
Proof. unfold put_i64. apply _. Qed.
#[export] Instance appends_bool v : Appends (put_bool v).
Proof. unfold put_bool. apply _. Qed.
#[export] Instance appends_bytes v : Appends (put_bytes v).
Proof. unfold put_bytes. apply _. Qed.
#[export] Instance appends_string v : Appends (put_string v).
Proof. unfold put_string. apply _. Qed.

Lemma seqw_nil f g `{!Appends g} : (f ;;> g) [] = f [] ++ g [].
Proof. apply (appends (f := g)). Qed.

Lemma put_each_cons {A} (f : A → writing) `{!∀ x, Appends (f x)} x xs :
  put_each f (x :: xs) [] = f x [] ++ put_each f xs [].
Proof.
  change (put_each f xs (f x []) = f x [] ++ put_each f xs []).
  by rewrite (appends (f := put_each f xs)).
Qed.

Lemma put_u8_bytes v : put_u8 v [] = le_bytes 1 v.
Proof. done. Qed.
Lemma put_u16_bytes v : put_u16 v [] = le_bytes 2 v.
Proof.
  unfold put_u16, seqw, put_u8. simpl. by rewrite !byte_of_Z_land.
Qed.
Lemma put_u32_bytes v : put_u32 v [] = le_bytes 4 v.
Proof.
  unfold put_u32, put_each, put_u8. simpl. rewrite !byte_of_Z_land.
  by rewrite !Z.shiftr_shiftr by lia.
Qed.
Lemma put_u64_bytes v : put_u64 v [] = le_bytes 8 v.
Proof.
  unfold put_u64, put_each, put_u8. simpl. rewrite !byte_of_Z_land.
  by rewrite !Z.shiftr_shiftr by lia.
Qed.

(** ** Lemmas: reading back what was written *)

(** [reads m bs a]: wherever the bytes [bs] stand in a buffer, a healthy reader
    positioned at them that runs [m] succeeds with [a] and stands right after
    them. *)
Definition reads {A} (m : reader A) (bs : list byte) (a : A) : Prop :=
  ∀ pre post,
    m (mkReader (pre ++ bs ++ post) (size pre) true) =
    (Some a, mkReader (pre ++ bs ++ post) (size pre + size bs) true).

Lemma size_app {A} (l k : list A) : size (l ++ k) = size l + size k.
Proof. unfold size. rewrite length_app. lia. Qed.

Lemma size_nonneg {A} (l : list A) : 0 <= size l.
Proof. unfold size. lia. Qed.

Lemma reads_ret {A} (a : A) : reads (mret a) [] a.
Proof. intros pre post. unfold mret, reader_ret. by rewrite Z.add_0_r. Qed.

Lemma reads_bind {A B} (m : reader A) (k : A → reader B) bs1 bs2 a b :
  reads m bs1 a → reads (k a) bs2 b → reads (m ≫= k) (bs1 ++ bs2) b.
Proof.
  intros Hm Hk pre post. unfold mbind, reader_bind.
  rewrite <- app_assoc, (Hm pre (bs2 ++ post)).
  pose proof (Hk (pre ++ bs1) post) as H. rewrite <- app_assoc in H.
  rewrite size_app in H. rewrite H. rewrite size_app. do 2 f_equal. lia.
Qed.

(** The statement form of [reads_bind] for a writer that ends with [g]. *)
Lemma reads_seq {A B} (m : reader A) (k : A → reader B) f g `{!Appends g} a b :
  reads m (f []) a → reads (k a) (g []) b → reads (m ≫= k) ((f ;;> g) []) b.
Proof. intros. rewrite (seqw_nil f g). by eapply reads_bind. Qed.

Lemma reads_then_ret {A B} (m : reader A) (h : A → reader B) bs a b :
  reads m bs a → reads (h a) [] b → reads (m ≫= h) bs b.
Proof. intros. rewrite <- (app_nil_r bs). by eapply reads_bind. Qed.

(** One field: the next statement of the writer against the next read. *)
Ltac read_field := eapply reads_seq; [apply _|..|cbv beta].
(** The last field before the checks. *)
Ltac read_last := eapply reads_then_ret; [|cbv beta].

Lemma reads_guard {B} (cond : bool) (k : () → reader B) bs b :
  cond = false → reads (k ()) bs b → reads (fail_if cond ≫= k) bs b.
Proof. intros -> H. apply (reads_bind _ _ [] _ ()); [apply reads_ret|done]. Qed.

Lemma reads_ensure_take {B} n (k : list byte → reader B) bs c :
  n = size bs → reads (k bs) [] c →
  reads (_ ← ensure n; take_bytes n ≫= k) bs c.
Proof.
  intros -> Hk. pose proof (size_nonneg bs).
  intros pre post. unfold mbind, reader_bind, ensure, take_bytes. cbn [ok_ negb data position].
  rewrite !size_app. pose proof (size_nonneg post).
  destruct (_ <? _) eqn:E; [lia|]. cbn [data position ok_].
  assert (take (Z.to_nat (size bs)) (drop (Z.to_nat (size pre)) (pre ++ bs ++ post)) = bs) as ->.
  { unfold size. rewrite !Nat2Z.id, drop_app_length, take_app_length. done. }
  specialize (Hk (pre ++ bs) post). rewrite <- app_assoc in Hk. simpl in Hk.
  rewrite size_app in Hk. rewrite Hk. do 2 f_equal. unfold size. simpl. lia.
Qed.

Lemma reads_fixed n v :
  fits (8 * Z.of_nat n) v →
  reads (_ ← ensure (Z.of_nat n); bs ← take_bytes (Z.of_nat n); mret (assemble 0 0 bs))
    (le_bytes n v) v.
Proof.
  intros H. apply reads_ensure_take; [unfold size; by rewrite le_bytes_length|].
  rewrite assemble_le_val, le_val_bytes by done. apply reads_ret.
Qed.

Lemma reads_u8 v : fits 8 v → reads u8 (put_u8 v []) v.
Proof. apply (reads_fixed 1). Qed.
Lemma reads_u16 v : fits 16 v → reads u16 (put_u16 v []) v.
Proof. rewrite put_u16_bytes. apply (reads_fixed 2). Qed.
Lemma reads_u32 v : fits 32 v → reads u32 (put_u32 v []) v.
Proof. rewrite put_u32_bytes. apply (reads_fixed 4). Qed.
Lemma reads_u64 v : fits 64 v → reads u64 (put_u64 v []) v.
Proof. rewrite put_u64_bytes. apply (reads_fixed 8). Qed.

Lemma reads_i64 v : fits_i64 v → reads i64 (put_i64 v []) v.
Proof.
  intros H. unfold i64, put_i64. eapply reads_then_ret.
  - apply reads_u64. by apply wrap_fits.
  - rewrite i64_u64 by done. apply reads_ret.
Qed.

Lemma reads_bool v : reads boolean (put_bool v []) v.
Proof.
  unfold boolean, put_bool. eapply reads_then_ret.
  - apply reads_u8. by destruct v.
  - apply reads_guard; [by destruct v|]. destruct v; apply reads_ret.
Qed.

Lemma reads_bounded_length max v :
  fits 32 v → v <= max → reads (bounded_length max) (put_u32 v []) v.
Proof.
  intros Hv Hm. unfold bounded_length. eapply reads_then_ret; [by apply reads_u32|].
  apply reads_guard; [lia|]. apply reads_ret.
Qed.

Lemma reads_raw bs : reads (raw (size bs)) bs bs.
Proof.
  intros pre post.
  pose proof (reads_ensure_take (size bs) (λ b, mret b) bs bs eq_refl (reads_ret bs) pre post) as H.
  unfold raw. unfold mbind, reader_bind in *. destruct (ensure _ _) as [[|] r]; done.
Qed.

Lemma put_bytes_reads {B} (k : list byte → reader B) bs c :
  size bs < 2 ^ 32 → reads (k bs) [] c →
  reads (n ← u32; _ ← ensure n; take_bytes n ≫= k) (put_bytes bs []) c.
Proof.
  intros Hs Hk. unfold put_bytes. eapply reads_seq.
  - apply _.
  - apply reads_u32, wrap_fits. lia.
  - apply reads_ensure_take; [|done]. apply wrap_small. split; [apply size_nonneg|done].
Qed.

Lemma reads_bytes bs : size bs < 2 ^ 32 → reads bytes (put_bytes bs []) bs.
Proof.
  intros Hs pre post.
  pose proof (put_bytes_reads (λ b, mret b) bs bs Hs (reads_ret bs) pre post) as H.
  unfold bytes. unfold mbind, reader_bind in *. destruct (u32 _) as [[|] r]; [|done].
  destruct (ensure _ _) as [[|] r']; done.
Qed.

Lemma reads_string s :
  size (bytes_of_string s) < 2 ^ 32 → reads read_string (put_string s []) s.
Proof.
  intros Hs. apply (put_bytes_reads (λ b, mret (string_of_bytes b))); [done|].
  rewrite string_of_bytes_of_string. apply reads_ret.
Qed.

(** A counted sequence: each element read back, the whole sequence read back. *)
Lemma reads_each {A} (f : A → writing) (m : reader A) xs `{!∀ x, Appends (f x)} :
  (∀ x, x ∈ xs → reads m (f x []) x) →
  reads (read_each m (size xs)) (put_each f xs []) xs.
Proof.
  unfold read_each, size. rewrite Nat2Z.id.
  induction xs as [|x xs IH]; intros Hm; [apply reads_ret|].
  rewrite put_each_cons by done. cbn [length read_each_nat].
  eapply reads_bind; [apply Hm; set_solver|].
  eapply reads_then_ret; [apply IH; set_solver|]. apply reads_ret.
Qed.

(** A decoder run on exactly the bytes of a writer consumes them all. *)
Lemma reads_run {A} (m : reader A) bs a :
  reads m bs a → m (open_reader bs) = (Some a, mkReader bs (size bs) true).
Proof. intros H. pose proof (H [] []) as E. simpl in E. by rewrite app_nil_r in E. Qed.

(** ** Lemmas: readers are safe *)

(** Whatever the input, a reading function keeps the span, never moves
    backwards, never leaves the span, and never revives a failed reader; it
    leaves a healthy reader healthy when it succeeds. *)
Definition in_span (r : ByteReader) : Prop := 0 <= position r <= size (data r).

Record safe_step {A} (r : ByteReader) (res : option A * ByteReader) : Prop := {
  step_data : data (res.2) = data r;
  step_position : position r <= position (res.2) <= size (data r);
  step_failed : ok_ r = false → ok_ (res.2) = false;
  step_healthy : is_Some (res.1) → ok_ r = true → ok_ (res.2) = true
}.

Class Safe {A} (m : reader A) : Prop := safe : ∀ r, in_span r → safe_step r (m r).
#[export] Hint Mode Safe - ! : typeclass_instances.

Ltac unsafe_reader :=
  intros r Hr; unfold in_span, mret, reader_ret, return_false, fail in *;
  split; cbn [fst snd data position ok_]; try done; try (by intros []); try lia.

#[export] Instance safe_ret {A} (a : A) : Safe (mret a).
Proof. unsafe_reader. Qed.
#[export] Instance safe_return_false {A} : Safe (@return_false A).
Proof. unsafe_reader. Qed.
#[export] Instance safe_fail {A} : Safe (@fail A).
Proof. unsafe_reader. Qed.
#[export] Instance safe_fail_if b : Safe (fail_if b).
Proof. destruct b; unfold fail_if; apply _. Qed.
#[export] Instance safe_if {A} (b : bool) (m1 m2 : reader A) :
  Safe m1 → Safe m2 → Safe (if b then m1 else m2).
Proof. by destruct b. Qed.
#[export] Instance safe_ensure n : Safe (ensure n).
Proof.
  intros r Hr. unfold ensure, in_span in *.
  destruct (ok_ r) eqn:E, (_ <? n); simpl; split; simpl; try done; try lia;
    try congruence; by intros [].
Qed.

Lemma safe_bind_result {A B} (m : reader A) (k : A → reader B) :
  Safe m → (∀ r a r', m r = (Some a, r') → Safe (k a)) → Safe (m ≫= k).
Proof.
  intros Hm Hk r Hr. unfold mbind, reader_bind.
  destruct (m r) as [[a|] r'] eqn:E; pose proof (Hm r Hr) as H1; rewrite E in H1.
  - destruct H1 as [Hd Hp Hf Hh]. simpl in *.
    assert (in_span r') as Hr' by (unfold in_span in *; rewrite Hd; lia).
    destruct (Hk _ _ _ E r' Hr') as [Hd' Hp' Hf' Hh']. split.
    + congruence.
    + rewrite Hd in Hp'. lia.
    + auto.
    + intros. apply Hh'; auto.
  - destruct H1 as [Hd Hp Hf Hh]. split; simpl in *; done.
Qed.

#[export] Instance safe_bind {A B} (m : reader A) (k : A → reader B) :
  Safe m → (∀ a, Safe (k a)) → Safe (m ≫= k).
Proof. intros Hm Hk. apply safe_bind_result; auto. Qed.

Lemma safe_ensure_take {A} n (k : list byte → reader A) :
  0 <= n → (∀ bs, Safe (k bs)) → Safe (_ ← ensure n; take_bytes n ≫= k).
Proof.
  intros Hn Hk r Hr. unfold mbind, reader_bind, ensure, take_bytes.
  destruct (ok_ r) eqn:Eok; simpl.
  2: { split; simpl; try done; unfold in_span in *; try lia. }
  destruct (_ <? n) eqn:E; simpl.
  { split; simpl; try done; unfold in_span in *; try lia. }
  unfold in_span in *. set (bs := take _ _).
  assert (in_span (mkReader (data r) (position r + n) true)) as Hr'
    by (unfold in_span; simpl; lia).
  destruct (Hk bs _ Hr') as [Hd Hp Hf Hh]. rewrite Eok. simpl in *. split.
  - by rewrite Hd.
  - simpl in *. lia.
  - congruence.
  - intros Hs _. by apply Hh.
Qed.

Lemma u32_result r v r' : u32 r = (Some v, r') → 0 <= v.
Proof.
  unfold u32, mbind, reader_bind. destruct (ensure 4 r) as [[[]|] r1]; [|done].
  unfold take_bytes, mret, reader_ret. intros [= <- _].
  rewrite assemble_le_val. apply le_val_nonneg.
Qed.

#[export] Instance safe_u8 : Safe u8.
Proof. apply safe_ensure_take; [lia|apply _]. Qed.
#[export] Instance safe_u16 : Safe u16.
Proof. apply safe_ensure_take; [lia|apply _]. Qed.
#[export] Instance safe_u32 : Safe u32.
Proof. apply safe_ensure_take; [lia|apply _]. Qed.
#[export] Instance safe_u64 : Safe u64.
Proof. apply safe_ensure_take; [lia|apply _]. Qed.
#[export] Instance safe_i64 : Safe i64.
Proof. unfold i64. apply _. Qed.
#[export] Instance safe_boolean : Safe boolean.
Proof. unfold boolean. apply _. Qed.
#[export] Instance safe_bounded_length n : Safe (bounded_length n).
Proof. unfold bounded_length. apply _. Qed.
#[export] Instance safe_string : Safe read_string.
Proof.
  apply safe_bind_result; [apply _|]. intros r v r' H%u32_result.
  apply safe_ensure_take; [done|apply _].
Qed.

Lemma take_bytes_ret n r : take_bytes n r = (take_bytes n ≫= mret) r.
Proof. done. Qed.

Lemma safe_raw n : 0 <= n → Safe (raw n).
Proof.
  intros Hn r Hr. pose proof (safe_ensure_take n mret Hn _ r Hr) as H.
  unfold raw, mbind, reader_bind in *. by destruct (ensure n r) as [[]].
Qed.

#[export] Instance safe_bytes : Safe bytes.
Proof.
  apply safe_bind_result; [apply _|]. intros r v r' H%u32_result. by apply safe_raw.
Qed.

#[export] Instance safe_each {A} (m : reader A) n : Safe m → Safe (read_each m n).
Proof.
  intros Hm. unfold read_each. induction (Z.to_nat n); simpl; apply _.
Qed.

(** A failed reader makes every primitive fail. *)
Lemma ensure_failed {A} n (k : () → reader A) r :
  ok_ r = false → (ensure n ≫= k) r = (None, r).
Proof. intros H. unfold mbind, reader_bind, ensure. by rewrite H. Qed.

(** What is read back determines what was written. *)
Lemma reads_inj {A} (m : reader A) bs a b : reads m bs a → reads m bs b → a = b.
Proof. intros Ha Hb. pose proof (Ha [] []) as E. rewrite (Hb [] []) in E. by injection E. Qed.

(** ** What a successful read guarantees *)

(** Whatever the bytes, a value [m] returns satisfies [P]. *)
Definition yields {A} (m : reader A) (P : A → Prop) : Prop :=
  ∀ r a, (m r).1 = Some a → P a.

Lemma yields_bind {A B} (m : reader A) (k : A → reader B) (Q : A → Prop) P :
  yields m Q → (∀ a, Q a → yields (k a) P) → yields (m ≫= k) P.
Proof.
  intros Hm Hk r b. unfold mbind, reader_bind. specialize (Hm r).
  destruct (m r) as [[a|] r']; simpl in *; [|done]. by apply Hk, Hm.
Qed.

Lemma yields_any {A} (m : reader A) : yields m (λ _, True).
Proof. done. Qed.

Lemma yields_skip {A B} (m : reader A) (k : A → reader B) P :
  (∀ a, yields (k a) P) → yields (m ≫= k) P.
Proof. intros Hk. eapply yields_bind; [apply yields_any|auto]. Qed.

Lemma yields_guard {A} (b : bool) (k : () → reader A) P :
  (b = false → yields (k ()) P) → yields (fail_if b ≫= k) P.
Proof. intros Hk. destruct b; [done|]. by apply Hk. Qed.

Lemma yields_ret {A} (a : A) (P : A → Prop) : P a → yields (mret a) P.
Proof. by intros HP r b [= <-]. Qed.

Lemma yields_weaken {A} (m : reader A) (P Q : A → Prop) :
  yields m P → (∀ a, P a → Q a) → yields m Q.
Proof. intros Hm HPQ r a Ha. by eapply HPQ, Hm. Qed.

Lemma yields_each {A} (m : reader A) n P :
  yields m P → yields (read_each m n) (λ l, Forall P l ∧ length l = Z.to_nat n).
Proof.
  intros Hm. unfold read_each. induction (Z.to_nat n) as [|k IH]; simpl; [by apply yields_ret|].
  eapply yields_bind; [exact Hm|]. intros a Ha. eapply yields_bind; [exact IH|].
  intros l [Hl <-]. by apply yields_ret; repeat constructor.
Qed.

Lemma yields_bounded_length max : yields (bounded_length max) (λ n, 0 <= n <= max).
Proof.
  unfold bounded_length. apply (yields_bind _ _ (λ n, 0 <= n)).
  { intros r n Hn. destruct (u32 r) as [x r'] eqn:E. simpl in Hn. subst x. by eapply u32_result. }
  intros n Hn. apply yields_guard. intros H. apply yields_ret. lia.
Qed.

(** Skips to the next guard. *)
Ltac yields_step :=
  first [apply yields_guard; intro|apply yields_skip; intro].

(** A decoder run on any bytes stays inside them, and what it returns is [P]. *)
Definition sound_decoder {A} (m : reader A) (P : A → Prop) : Prop :=
  ∀ bs, let res := m (open_reader bs) in
    data (res.2) = bs ∧ 0 <= position (res.2) <= size bs ∧
    match res.1 with Some a => P a ∧ ok_ (res.2) = true | None => True end.

Lemma sound_decoder_intro {A} (m : reader A) P : Safe m → yields m P → sound_decoder m P.
Proof.
  intros Hs Hy bs res. subst res.
  destruct (Hs (open_reader bs)) as [Hd Hp _ Hh].
  { unfold in_span; simpl. unfold size. lia. }
  specialize (Hy (open_reader bs)).
  destruct (m (open_reader bs)) as [[a|] r]; cbn [fst snd open_reader data position ok_] in *;
    split_and!; try done; try lia; auto.
Qed.
