(* ===== verification/Fabric.v ===== *)
(** Version text and the boundary with the rest of the fabric, [fabric.cpp],
    [version.hpp] and [source_of_truth.hpp]. The name of the compiler is an argument. *)

From Stdlib Require Import ZArith Bool.
From stdpp Require Import base list numbers strings.
From S2P Require Import Prelude Base Codec.

Open Scope string_scope.
Open Scope list_scope.
Open Scope Z_scope.

Definition kVersionMajor : Z := 1.
Definition kVersionMinor : Z := 0.
Definition kVersionPatch : Z := 0.
Definition kVersionString : string := "1.0.0".
Definition kProductName : string := "Constraint Routing Fabric".

Definition version_string : string := (kProductName ++ " " ++ kVersionString)%string.

(** The compiler and its version; [None] for another one. *)
Definition build_string (toolchain : option (string * string)) : string :=
  (version_string ++
   match toolchain with
   | Some (name, version) => " [" ++ name ++ " " ++ version ++ "]"
   | None => " [unknown toolchain]"
   end)%string.

Definition error_name (code : ErrorCode.t) : string :=
  match code with
  | ErrorCode.Ok => "Ok"
  | ErrorCode.InvalidArgument => "InvalidArgument"
  | ErrorCode.Malformed => "Malformed"
  | ErrorCode.ResourceLimit => "ResourceLimit"
  | ErrorCode.ContradictoryConstraintSet => "ContradictoryConstraintSet"
  | ErrorCode.DuplicateIdentity => "DuplicateIdentity"
  | ErrorCode.UnknownConstraintKind => "UnknownConstraintKind"
  | ErrorCode.InvalidNumericBound => "InvalidNumericBound"
  | ErrorCode.ImpossibleGeneration => "ImpossibleGeneration"
  | ErrorCode.NotFound => "NotFound"
  | ErrorCode.Unauthorized => "Unauthorized"
  | ErrorCode.Fenced => "Fenced"
  | ErrorCode.EpochMismatch => "EpochMismatch"
  | ErrorCode.StaleGeneration => "StaleGeneration"
  | ErrorCode.IdempotentReplay => "IdempotentReplay"
  | ErrorCode.MutationAttemptConflict => "MutationAttemptConflict"
  | ErrorCode.PersistenceUnavailable => "PersistenceUnavailable"
  | ErrorCode.PersistenceCorrupt => "PersistenceCorrupt"
  | ErrorCode.DurableWriteFailed => "DurableWriteFailed"
  | ErrorCode.IntegrityMismatch => "IntegrityMismatch"
  | ErrorCode.UnsupportedVersion => "UnsupportedVersion"
  | ErrorCode.Truncated => "Truncated"
  | ErrorCode.TrailingBytes => "TrailingBytes"
  | ErrorCode.TransportFailure => "TransportFailure"
  | ErrorCode.ProtocolViolation => "ProtocolViolation"
  | ErrorCode.NotSupported => "NotSupported"
  | ErrorCode.Internal => "Internal"
  end.

Module UpstreamAuthority.
Inductive t :=
  | Unset | IdentityRegistry | TopologyAuthority | LinkStateAuthority | PortConfigurationAuthority
  | FabricCapabilityRegistry | FailureDomainAuthority | FabricEpochIssuer | PathPlanner
  | PathAuthority | PolicyRegistry | RouteFabric | PathDiversityFabric.

Definition to_string (x : t) : string :=
  match x with
  | Unset => "Unset"
  | IdentityRegistry => "IdentityRegistry"
  | TopologyAuthority => "TopologyAuthority"
  | LinkStateAuthority => "LinkStateAuthority"
  | PortConfigurationAuthority => "PortConfigurationAuthority"
  | FabricCapabilityRegistry => "FabricCapabilityRegistry"
  | FailureDomainAuthority => "FailureDomainAuthority"
  | FabricEpochIssuer => "FabricEpochIssuer"
  | PathPlanner => "PathPlanner"
  | PathAuthority => "PathAuthority"
  | PolicyRegistry => "PolicyRegistry"
  | RouteFabric => "RouteFabric"
  | PathDiversityFabric => "PathDiversityFabric"
  end.
End UpstreamAuthority.

Module NotOwned.
Inductive t :=
  | IdentityTruth | TopologyTruth | LinkState | PortConfiguration | CapabilityTruth
  | FailureDomainTruth | FabricEpochIssuance | CandidatePathDiscovery | PathLegality
  | RouteLifecycle | EqualCostMultipath | AdaptiveRouting | RouteConvergence | PathDiversity
  | TrafficEngineering | BandwidthReservation | CongestionMeasurement | PhysicalForwarding.

Definition to_string (x : t) : string :=
  match x with
  | IdentityTruth => "IdentityTruth"
  | TopologyTruth => "TopologyTruth"
  | LinkState => "LinkState"
  | PortConfiguration => "PortConfiguration"
  | CapabilityTruth => "CapabilityTruth"
  | FailureDomainTruth => "FailureDomainTruth"
  | FabricEpochIssuance => "FabricEpochIssuance"
  | CandidatePathDiscovery => "CandidatePathDiscovery"
  | PathLegality => "PathLegality"
  | RouteLifecycle => "RouteLifecycle"
  | EqualCostMultipath => "EqualCostMultipath"
  | AdaptiveRouting => "AdaptiveRouting"
  | RouteConvergence => "RouteConvergence"
  | PathDiversity => "PathDiversity"
  | TrafficEngineering => "TrafficEngineering"
  | BandwidthReservation => "BandwidthReservation"
  | CongestionMeasurement => "CongestionMeasurement"
  | PhysicalForwarding => "PhysicalForwarding"
  end.

(** Every capability of the enumeration is owned by another component. *)
Definition is_not_owned (x : t) : bool :=
  match x with
  | IdentityTruth | TopologyTruth | LinkState | PortConfiguration | CapabilityTruth
  | FailureDomainTruth | FabricEpochIssuance | CandidatePathDiscovery | PathLegality
  | RouteLifecycle | EqualCostMultipath | AdaptiveRouting | RouteConvergence | PathDiversity
  | TrafficEngineering | BandwidthReservation | CongestionMeasurement | PhysicalForwarding => true
  end.
End NotOwned.

(** A report names its error: no two codes print alike. *)
Lemma error_name_inj (a b : ErrorCode.t) : error_name a = error_name b → a = b.
Proof. by destruct a, b. Qed.

Lemma capability_name_inj (a b : NotOwned.t) : NotOwned.to_string a = NotOwned.to_string b → a = b.
Proof. by destruct a, b. Qed.
