(* ===== verification/Digest.v ===== *)
(** Digests and integrity checks, [digest.hpp] and [digest.cpp]: 256-bit digests
    and their hexadecimal form, streaming SHA-256, CRC-32C and the semantic
    hasher that feeds them. *)

From Stdlib Require Import ZArith Lia Bool Strings.Byte Ascii String.
From stdpp Require Import base list numbers strings sets.
From S2P Require Import Prelude Base Codec.

Open Scope string_scope.
Open Scope list_scope.
Open Scope Z_scope.

(** ** [Digest256] *)

(** [std::array<std::byte, 32>]. *)
Definition Digest256 : Type := list byte.
Definition kSize : Z := 32.
Definition zero_digest : Digest256 := repeat x00 32.

Fixpoint bytes_eqb (a b : list byte) : bool :=
  match a, b with
  | [], [] => true
  | x :: a', y :: b' => Byte.eqb x y && bytes_eqb a' b'
  | _, _ => false
  end.

(** [operator==] and [operator<] of the array. *)
Definition digest_eqb (a b : Digest256) : bool := bytes_eqb a b.
Definition digest_ltb (a b : Digest256) : bool :=
  cmp_list cmp_Z (map to_integer a) (map to_integer b) <? 0.

Definition is_zero (d : Digest256) : bool := forallb (λ value, Byte.eqb value x00) d.

Definition kHex : list ascii := list_ascii_of_string "0123456789abcdef".

Definition hex_char (digit : Z) : ascii := nth (Z.to_nat digit) kHex "0"%char.

Fixpoint to_hex (d : Digest256) : string :=
  match d with
  | [] => ""
  | value :: rest =>
      let raw := to_integer value in
      String (hex_char (Z.land (Z.shiftr raw 4) 0x0f))
        (String (hex_char (Z.land raw 0x0f)) (to_hex rest))
  end.

Definition char_code (c : ascii) : Z := Z.of_N (N_of_ascii c).

Definition hex_digit (character : ascii) : option Z :=
  let c := char_code character in
  if (char_code "0" <=? c) && (c <=? char_code "9") then Some (c - char_code "0")
  else if (char_code "a" <=? c) && (c <=? char_code "f") then
    Some (c - char_code "a" + 10)
  else if (char_code "A" <=? c) && (c <=? char_code "F") then
    Some (c - char_code "A" + 10)
  else None.

(** The loop over [kSize] pairs of characters. *)
Fixpoint parse_hex (count : nat) (text : string) : option (list byte) :=
  match count, text with
  | O, _ => Some []
  | S count', String c1 (String c2 rest) =>
      d1 ← hex_digit c1;
      d2 ← hex_digit c2;
      let value := Z.lor (Z.shiftl (Z.lor (Z.shiftl 0 4) d1) 4) d2 in
      bs ← parse_hex count' rest;
      Some (byte_of_Z value :: bs)
  | _, _ => None
  end.

Definition from_hex (text : string) : option Digest256 :=
  if negb (Z.of_nat (String.length text) =? kSize * 2) then None
  else parse_hex 32 text.

Definition leading_u64 (d : Digest256) : Z :=
  fold_left (λ value b, Z.lor (Z.shiftl value 8) (to_integer b)) (take 8 d) 0.

(** ** SHA-256 *)

Definition kRoundConstants : list Z :=
  [
    1116352408; 1899447441; 3049323471; 3921009573;   (* 0x428a2f98 0x71374491 0xb5c0fbcf 0xe9b5dba5 *)
    961987163; 1508970993; 2453635748; 2870763221;   (* 0x3956c25b 0x59f111f1 0x923f82a4 0xab1c5ed5 *)
    3624381080; 310598401; 607225278; 1426881987;   (* 0xd807aa98 0x12835b01 0x243185be 0x550c7dc3 *)
    1925078388; 2162078206; 2614888103; 3248222580;   (* 0x72be5d74 0x80deb1fe 0x9bdc06a7 0xc19bf174 *)
    3835390401; 4022224774; 264347078; 604807628;   (* 0xe49b69c1 0xefbe4786 0x0fc19dc6 0x240ca1cc *)
    770255983; 1249150122; 1555081692; 1996064986;   (* 0x2de92c6f 0x4a7484aa 0x5cb0a9dc 0x76f988da *)
    2554220882; 2821834349; 2952996808; 3210313671;   (* 0x983e5152 0xa831c66d 0xb00327c8 0xbf597fc7 *)
    3336571891; 3584528711; 113926993; 338241895;   (* 0xc6e00bf3 0xd5a79147 0x06ca6351 0x14292967 *)
    666307205; 773529912; 1294757372; 1396182291;   (* 0x27b70a85 0x2e1b2138 0x4d2c6dfc 0x53380d13 *)
    1695183700; 1986661051; 2177026350; 2456956037;   (* 0x650a7354 0x766a0abb 0x81c2c92e 0x92722c85 *)
    2730485921; 2820302411; 3259730800; 3345764771;   (* 0xa2bfe8a1 0xa81a664b 0xc24b8b70 0xc76c51a3 *)
    3516065817; 3600352804; 4094571909; 275423344;   (* 0xd192e819 0xd6990624 0xf40e3585 0x106aa070 *)
    430227734; 506948616; 659060556; 883997877;   (* 0x19a4c116 0x1e376c08 0x2748774c 0x34b0bcb5 *)
    958139571; 1322822218; 1537002063; 1747873779;   (* 0x391c0cb3 0x4ed8aa4a 0x5b9cca4f 0x682e6ff3 *)
    1955562222; 2024104815; 2227730452; 2361852424;   (* 0x748f82ee 0x78a5636f 0x84c87814 0x8cc70208 *)
    2428436474; 2756734187; 3204031479; 3329325298   (* 0x90befffa 0xa4506ceb 0xbef9a3f7 0xc67178f2 *)
  ].

(** 32-bit addition, complement and rotation. *)
Definition add32 (x y : Z) : Z := Z.land (x + y) 0xffffffff.
Definition not32 (x : Z) : Z := Z.lxor x 0xffffffff.
Definition shl32 (x n : Z) : Z := Z.land (Z.shiftl x n) 0xffffffff.

Definition rotate_right (value count : Z) : Z :=
  let amount := Z.land count 31 in
  Z.lor (Z.shiftr value amount) (shl32 value (Z.land (32 - amount) 31)).

Definition read_big_endian_u32 (data : list byte) : Z :=
  match data with
  | b0 :: b1 :: b2 :: b3 :: _ =>
      Z.lor (Z.lor (Z.lor (Z.shiftl (to_integer b0) 24) (Z.shiftl (to_integer b1) 16))
        (Z.shiftl (to_integer b2) 8)) (to_integer b3)
  | _ => 0
  end.

Definition write_big_endian_u32 (value : Z) : list byte :=
  [ byte_of_Z (Z.land (Z.shiftr value 24) 0xff); byte_of_Z (Z.land (Z.shiftr value 16) 0xff);
    byte_of_Z (Z.land (Z.shiftr value 8) 0xff); byte_of_Z (Z.land value 0xff) ].

(** The message schedule: the sixteen words of the block, then each word from
    the ones before it. *)
Definition schedule_word (schedule : list Z) (index : nat) : Z :=
  let at_ k := nth (index - k) schedule 0 in
  let s0 := Z.lxor (Z.lxor (rotate_right (at_ 15%nat) 7) (rotate_right (at_ 15%nat) 18))
              (Z.shiftr (at_ 15%nat) 3) in
  let s1 := Z.lxor (Z.lxor (rotate_right (at_ 2%nat) 17) (rotate_right (at_ 2%nat) 19))
              (Z.shiftr (at_ 2%nat) 10) in
  add32 (add32 (add32 (at_ 16%nat) s0) (at_ 7%nat)) s1.

Definition message_schedule (block : list byte) : list Z :=
  fold_left (λ schedule index, schedule ++ [schedule_word schedule index]) (seq 16 48)
    (map (λ index, read_big_endian_u32 (drop (index * 4) block)) (seq 0 16)).

Record Working := mkWorking { wa : Z; wb : Z; wc : Z; wd : Z; we : Z; wf : Z; wg : Z; wh : Z }.

Definition sha_round (w : Working) (constant word : Z) : Working :=
  let '(mkWorking a b c d e f g h) := w in
  let s1 := Z.lxor (Z.lxor (rotate_right e 6) (rotate_right e 11)) (rotate_right e 25) in
  let choose := Z.lxor (Z.land e f) (Z.land (not32 e) g) in
  let temp1 := add32 (add32 (add32 (add32 h s1) choose) constant) word in
  let s0 := Z.lxor (Z.lxor (rotate_right a 2) (rotate_right a 13)) (rotate_right a 22) in
  let majority := Z.lxor (Z.lxor (Z.land a b) (Z.land a c)) (Z.land b c) in
  let temp2 := add32 s0 majority in
  mkWorking (add32 temp1 temp2) a b c (add32 d temp1) e f g.

Definition compress (state : Working) (block : list byte) : Working :=
  let schedule := message_schedule block in
  let w := fold_left (λ w kw, sha_round w kw.1 kw.2)
             (combine kRoundConstants schedule) state in
  mkWorking (add32 (wa state) (wa w)) (add32 (wb state) (wb w)) (add32 (wc state) (wc w))
    (add32 (wd state) (wd w)) (add32 (we state) (we w)) (add32 (wf state) (wf w))
    (add32 (wg state) (wg w)) (add32 (wh state) (wh w)).

Definition initial_state : Working :=
  mkWorking 0x6a09e667 0xbb67ae85 0x3c6ef372 0xa54ff53a
            0x510e527f 0x9b05688c 0x1f83d9ab 0x5be0cd19.

(** The streaming hasher. [buffer_used_] indexes the 64-byte [buffer_]. *)
Record Sha256 := mkSha {
  state_ : Working;
  buffer_ : list byte;
  total_bytes_ : Z;
  buffer_used_ : nat
}.

Definition reset : Sha256 := mkSha initial_state (repeat x00 64) 0 0.

(** [buffer_[buffer_used_++] = data[offset++]] until [data] is exhausted. *)
Fixpoint copy_bytes (buffer : list byte) (used : nat) (data : list byte) : list byte * nat :=
  match data with
  | [] => (buffer, used)
  | b :: data' => copy_bytes (<[used:=b]> buffer) (S used) data'
  end.

(** [while (data.size() - offset >= 64)]; every round drops 64 bytes, so the
    length of [data] is fuel enough. *)
Fixpoint compress_blocks (fuel : nat) (state : Working) (data : list byte)
    : Working * list byte :=
  match fuel with
  | O => (state, data)
  | S fuel' =>
      if (64 <=? length data)%nat
      then compress_blocks fuel' (compress state (take 64 data)) (drop 64 data)
      else (state, data)
  end.

(** [update]'s first part: top up a partially filled buffer and compress it
    when it is full. Returns the state, the buffer, its use and the data left. *)
Definition fill_buffer (h : Sha256) (data : list byte)
    : Working * list byte * nat * list byte :=
  if (buffer_used_ h =? 0)%nat then (state_ h, buffer_ h, 0%nat, data)
  else
    let needed := (64 - buffer_used_ h)%nat in
    let taken := if (length data <? needed)%nat then length data else needed in
    let '(buffer, used) := copy_bytes (buffer_ h) (buffer_used_ h) (take taken data) in
    if (used =? 64)%nat then (compress (state_ h) buffer, buffer, 0%nat, drop taken data)
    else (state_ h, buffer, used, drop taken data).

Definition update (h : Sha256) (data : list byte) : Sha256 :=
  let total := wrap 64 (total_bytes_ h + size data) in
  let '(state, buffer, used, data) := fill_buffer h data in
  let '(state, data) := compress_blocks (length data) state data in
  let '(buffer, used) := copy_bytes buffer used data in
  mkSha state buffer total used.

(** [while (buffer_used_ != 56) update(zero);] at most 63 rounds. *)
Fixpoint pad_zeros (fuel : nat) (h : Sha256) : Sha256 :=
  match fuel with
  | O => h
  | S fuel' => if (buffer_used_ h =? 56)%nat then h else pad_zeros fuel' (update h [x00])
  end.

Definition length_bytes (bit_length : Z) : list byte :=
  map (λ index, byte_of_Z (Z.land (Z.shiftr bit_length ((7 - index) * 8)) 0xff))
    [0; 1; 2; 3; 4; 5; 6; 7].

Definition output_bytes (s : Working) : Digest256 :=
  concat (map write_big_endian_u32 [wa s; wb s; wc s; wd s; we s; wf s; wg s; wh s]).

Definition finish (h : Sha256) : Digest256 :=
  let bit_length := wrap 64 (total_bytes_ h * 8) in
  let h := update h [x80] in
  let h := pad_zeros 64 h in
  let h := update h (length_bytes bit_length) in
  output_bytes (state_ h).

(** ** CRC-32C *)

Definition crc_poly : Z := 0x82f63b78.

Definition crc_bit (value : Z) : Z :=
  if negb (Z.land value 1 =? 0) then Z.lxor (Z.shiftr value 1) crc_poly
  else Z.shiftr value 1.

Definition crc_entry (index : Z) : Z :=
  let bounded := Z.land index 0xff in
  Nat.iter 8 crc_bit bounded.

Definition crc32c_table : list Z := map crc_entry (seqZ 0 256).

Definition crc_update (crc : Z) (value : byte) : Z :=
  Z.lxor (nth (Z.to_nat (Z.land (Z.lxor crc (to_integer value)) 0xff)) crc32c_table 0)
    (Z.shiftr crc 8).

Definition crc32c (data : list byte) : Z :=
  Z.lxor (fold_left crc_update data 0xffffffff) 0xffffffff.

(** ** [SemanticHasher]

    A feeder is the sequence of [sha_.update] calls it makes. *)

Definition hashing : Type := list (list byte).

Definition hash_uint (indices : list Z) (value : Z) : hashing :=
  [ map (λ index, byte_of_Z (Z.land (Z.shiftr value (index * 8)) 0xff)) indices ].

Definition hash_u8 (value : Z) : hashing := [ [byte_of_Z value] ].
Definition hash_u16 (value : Z) : hashing := hash_uint [0; 1] value.
Definition hash_u32 (value : Z) : hashing := hash_uint [0; 1; 2; 3] value.
Definition hash_u64 (value : Z) : hashing := hash_uint [0; 1; 2; 3; 4; 5; 6; 7] value.
Definition hash_i64 (value : Z) : hashing := hash_u64 (u64_of_i64 value).
Definition hash_bool (value : bool) : hashing := hash_u8 (if value then 1 else 0).
Definition hash_bytes (data : list byte) : hashing := hash_u64 (size data) ++ [data].
Definition hash_string (text : string) : hashing := hash_bytes (bytes_of_string text).
Definition hash_digest (digest : Digest256) : hashing := [digest].

(** [for (const auto& x : xs) f(hasher, x);] *)
Definition hash_each {A} (f : A → hashing) (xs : list A) : hashing := concat (map f xs).

Definition run_hasher (feed : hashing) : Digest256 := finish (fold_left update feed reset).

(** [digest_of(domain, feed)]. *)
Definition digest_of (domain : string) (feed : hashing) : Digest256 :=
  run_hasher (hash_string domain ++ feed).

(** ** Specifications *)

(** SHA-256 of a whole message, FIPS 180-4: pad to a multiple of the block
    size, then compress the blocks in order. *)
Fixpoint hash_blocks (n : nat) (state : Working) (msg : list byte) : Working :=
  match n with
  | O => state
  | S n' => hash_blocks n' (compress state (take 64 msg)) (drop 64 msg)
  end.

Definition sha256_padding (len : Z) : list byte :=
  x80 :: repeat x00 (Z.to_nat ((55 - len) mod 64)) ++ length_bytes (wrap 64 (len * 8)).

Definition sha256 (msg : list byte) : Digest256 :=
  let padded := msg ++ sha256_padding (size msg) in
  output_bytes (hash_blocks (length padded / 64) initial_state padded).

(** CRC-32C one bit at a time. *)
Definition crc_bitwise_byte (crc : Z) (value : byte) : Z :=
  Nat.iter 8 crc_bit (Z.lxor crc (to_integer value)).

Definition crc32c_bitwise (data : list byte) : Z :=
  Z.lxor (fold_left crc_bitwise_byte data 0xffffffff) 0xffffffff.

(** ** Lemmas: hexadecimal *)

Lemma byte_cases (P : byte → Prop) :
  (∀ n, (n < 256)%nat → P (byte_of_Z (Z.of_nat n))) → ∀ b, P b.
Proof.
  intros H b. pose proof (to_integer_bound b).
  rewrite <- (byte_of_Z_to_integer b).
  replace (to_integer b) with (Z.of_nat (Z.to_nat (to_integer b))) by lia. apply H. lia.
Qed.

Lemma hex_digits_of_byte b :
  hex_digit (hex_char (Z.land (Z.shiftr (to_integer b) 4) 0x0f)) =
    Some (Z.land (Z.shiftr (to_integer b) 4) 0x0f) ∧
  hex_digit (hex_char (Z.land (to_integer b) 0x0f)) = Some (Z.land (to_integer b) 0x0f) ∧
  byte_of_Z (Z.lor (Z.shiftl (Z.lor (Z.shiftl 0 4)
    (Z.land (Z.shiftr (to_integer b) 4) 0x0f)) 4) (Z.land (to_integer b) 0x0f)) = b.
Proof. destruct b; vm_compute; done. Qed.

Lemma to_hex_length d : String.length (to_hex d) = (2 * length d)%nat.
Proof. induction d as [|b d IH]; simpl; [done|]. rewrite IH. lia. Qed.

Lemma parse_hex_to_hex d : parse_hex (length d) (to_hex d) = Some d.
Proof.
  induction d as [|b d IH]; [done|]. cbn [length to_hex parse_hex].
  destruct (hex_digits_of_byte b) as (H1 & H2 & H3).
  rewrite H1. cbn [mbind option_bind]. rewrite H2. cbn [mbind option_bind].
  rewrite IH. cbn [mbind option_bind]. by rewrite H3.
Qed.

Lemma bytes_eqb_eq a b : bytes_eqb a b = true ↔ a = b.
Proof.
  revert b. induction a as [|x a IH]; destruct b as [|y b]; simpl; try done.
  rewrite andb_true_iff, IH. split.
  - intros [H ->]. f_equal. by apply Byte.byte_dec_bl in H.
  - intros [= -> ->]. split; [by apply Byte.byte_dec_lb|done].
Qed.

Lemma digest_eqb_eq a b : digest_eqb a b = true ↔ a = b.
Proof. apply bytes_eqb_eq. Qed.

Lemma digest_eqb_refl a : digest_eqb a a = true.
Proof. by apply digest_eqb_eq. Qed.

(** ** Lemmas: SHA-256 streaming *)

Lemma hash_blocks_app n m state a b :
  length a = (64 * n)%nat →
  hash_blocks (n + m) state (a ++ b) = hash_blocks m (hash_blocks n state a) b.
Proof.
  revert state a. induction n as [|n IH]; intros state a Ha.
  { destruct a; [done|]. simpl in Ha. lia. }
  cbn [hash_blocks Nat.add]. rewrite take_app_le, drop_app_le by lia.
  apply IH. rewrite length_drop. lia.
Qed.

Lemma copy_bytes_spec data buffer used :
  (used + length data <= length buffer)%nat →
  copy_bytes buffer used data =
  (take used buffer ++ data ++ drop (used + length data) buffer, (used + length data)%nat).
Proof.
  revert buffer used. induction data as [|b data IH]; intros buffer used H; simpl in *.
  { rewrite Nat.add_0_r. by rewrite take_drop. }
  rewrite IH by (rewrite length_insert; lia). f_equal; [|lia].
  rewrite drop_insert_lt by lia.
  rewrite (take_S_r _ _ b) by (apply list_lookup_insert_eq; lia).
  rewrite take_insert_ge by lia.
  rewrite <- app_assoc. simpl. do 4 f_equal. lia.
Qed.

(** The hasher has absorbed the message [msg]: whole blocks compressed, the
    rest in the buffer. *)
Record absorbed (h : Sha256) (msg : list byte) : Prop := {
  absorbed_total : total_bytes_ h = wrap 64 (size msg);
  absorbed_buffer : length (buffer_ h) = 64%nat;
  absorbed_used : (buffer_used_ h < 64)%nat;
  absorbed_blocks : ∃ n full, msg = full ++ take (buffer_used_ h) (buffer_ h) ∧
    length full = (64 * n)%nat ∧ state_ h = hash_blocks n initial_state full
}.

Lemma absorbed_reset : absorbed reset [].
Proof. split; simpl; [done|done|lia|]. exists 0%nat, []. done. Qed.

Lemma absorbed_used_mod h msg :
  absorbed h msg → buffer_used_ h = (length msg mod 64)%nat.
Proof.
  intros [_ Hb Hu (n & full & -> & Hf & _)].
  rewrite length_app, length_take, Hf, Nat.min_l by lia.
  rewrite (Nat.mul_comm 64), (Nat.add_comm), Nat.Div0.mod_add, Nat.mod_small by lia. done.
Qed.

Lemma compress_blocks_spec fuel state data :
  (length data <= fuel)%nat →
  ∃ n full tail, data = full ++ tail ∧ length full = (64 * n)%nat ∧ (length tail < 64)%nat ∧
    compress_blocks fuel state data = (hash_blocks n state full, tail).
Proof.
  revert state data. induction fuel as [|fuel IH]; intros state data Hl; cbn [compress_blocks].
  { destruct data; [|simpl in Hl; lia]. exists 0%nat, [], []. split_and!; simpl; [done|done|lia|done]. }
  destruct (64 <=? length data)%nat eqn:E.
  - apply Nat.leb_le in E.
    destruct (IH (compress state (take 64 data)) (drop 64 data)) as (n & full & tail & Hd & Hf & Ht & Hc).
    { rewrite length_drop. lia. }
    assert (length (take 64 data) = 64%nat) as H64 by (rewrite length_take; lia).
    exists (S n), (take 64 data ++ full), tail. rewrite length_app. split_and!; [|lia|done|].
    + rewrite <- app_assoc, <- Hd. by rewrite take_drop.
    + rewrite Hc. cbn [hash_blocks]. rewrite take_app_le, drop_app_le by lia.
      rewrite (take_ge (take 64 data)), (drop_ge (take 64 data)) by lia. done.
  - apply Nat.leb_gt in E. exists 0%nat, [], data. done.
Qed.

Lemma fill_buffer_spec h msg data :
  absorbed h msg →
  ∃ state buffer used rest n full,
    fill_buffer h data = (state, buffer, used, rest) ∧
    msg ++ data = full ++ take used buffer ++ rest ∧ length full = (64 * n)%nat ∧
    state = hash_blocks n initial_state full ∧ length buffer = 64%nat ∧
    (used < 64)%nat ∧ (used = 0%nat ∨ rest = []).
Proof.
  intros [Ht Hb Hu (n & full & Hm & Hf & Hs)]. unfold fill_buffer.
  set (part := take (buffer_used_ h) (buffer_ h)) in *.
  assert (length part = buffer_used_ h) as Hpart by (unfold part; rewrite length_take; lia).
  destruct (buffer_used_ h =? 0)%nat eqn:E0.
  { apply Nat.eqb_eq in E0. exists (state_ h), (buffer_ h), 0%nat, data, n, full.
    split_and!; auto; [|lia]. rewrite Hm. destruct part; [|simpl in *; lia].
    by rewrite app_nil_r. }
  apply Nat.eqb_neq in E0. cbv zeta.
  set (taken := if (length data <? _)%nat then _ else _).
  assert (taken <= length data ∧ buffer_used_ h + taken <= 64 ∧
          (taken = length data ∨ buffer_used_ h + taken = 64))%nat as (Hk1 & Hk2 & Hk3).
  { unfold taken. destruct (length data <? _)%nat eqn:El;
      [apply Nat.ltb_lt in El|apply Nat.ltb_ge in El]; lia. }
  assert (length (take taken data) = taken) as Hlt by (rewrite length_take; lia).
  rewrite copy_bytes_spec by lia. rewrite Hlt. fold part.
  destruct (buffer_used_ h + taken =? 64)%nat eqn:E64;
    [apply Nat.eqb_eq in E64|apply Nat.eqb_neq in E64].
  - rewrite (drop_ge (buffer_ h)), app_nil_r by lia.
    eexists _, _, 0%nat, (drop taken data), (n + 1)%nat, (full ++ part ++ take taken data).
    split_and!; [reflexivity|..]; try (rewrite ?length_app, ?Hlt, ?Hpart; lia); auto.
    + rewrite Hm. simpl. rewrite <- !app_assoc. by rewrite take_drop.
    + rewrite (hash_blocks_app n 1) by done. rewrite Hs. cbn [hash_blocks].
      rewrite (take_ge (part ++ _)); [done|rewrite length_app; lia].
  - eexists _, _, _, (drop taken data), n, full. split_and!; [reflexivity|..];
      try (rewrite ?length_app, ?Hlt, ?Hpart, ?length_drop; lia); auto.
    + rewrite Hm. rewrite (app_assoc part), (take_app_length' (part ++ _)).
      * rewrite <- !app_assoc. by rewrite take_drop.
      * rewrite length_app. lia.
    + right. apply drop_ge. lia.
Qed.

(** One [update] absorbs its data. *)
Lemma update_absorbed h msg data :
  absorbed h msg → absorbed (update h data) (msg ++ data).
Proof.
  intros Habs. destruct (fill_buffer_spec h msg data Habs)
    as (state & buffer & used & rest & n' & full' & E & Hm' & Hf' & Hs' & Hb' & Hu' & Hor).
  destruct Habs as [Ht _ _ _]. unfold update. rewrite E. cbv zeta. clear E.
  destruct (compress_blocks_spec (length rest) state rest (le_n _))
    as (m & blocks & tail & Hrest & Hblocks & Htail & ->).
  assert (used + length tail <= 63)%nat as Hfit.
  { destruct Hor as [->| ->]; [lia|]. symmetry in Hrest. apply app_eq_nil in Hrest as [_ ->].
    simpl. lia. }
  rewrite copy_bytes_spec by lia.
  assert (length (take used buffer) = used) as Hlu by (rewrite length_take; lia).
  split; simpl; [|rewrite !length_app, length_drop; lia|lia|].
  { rewrite Ht, size_app. unfold wrap. apply Zplus_mod_idemp_l. }
  exists (n' + m)%nat, (full' ++ blocks). split_and!.
  - rewrite (app_assoc (take used buffer)),
      (take_app_length' (take used buffer ++ tail)) by (rewrite length_app; lia).
    rewrite Hm', Hrest. destruct Hor as [->| ->].
    + by rewrite <- !app_assoc.
    + symmetry in Hrest. apply app_eq_nil in Hrest as [-> ->]. by rewrite !app_nil_r.
  - rewrite length_app. lia.
  - rewrite (hash_blocks_app n' m) by done. by rewrite Hs'.
Qed.

Lemma updates_absorbed chunks h msg :
  absorbed h msg → absorbed (fold_left update chunks h) (msg ++ concat chunks).
Proof.
  revert h msg. induction chunks as [|c cs IH]; intros h msg H; simpl.
  { by rewrite app_nil_r. }
  rewrite app_assoc. apply IH, update_absorbed, H.
Qed.

(** The padding loop stops at the first length that is 56 modulo 64. *)
Lemma pad_zeros_absorbed k fuel h msg :
  absorbed h msg → (k < fuel)%nat → ((length msg + k) mod 64 = 56)%nat →
  (∀ j, (j < k)%nat → ((length msg + j) mod 64 ≠ 56)%nat) →
  absorbed (pad_zeros fuel h) (msg ++ repeat x00 k).
Proof.
  revert fuel h msg. induction k as [|k IH]; intros fuel h msg Habs Hk H56 Hj;
    (destruct fuel as [|fuel]; [lia|]); cbn [pad_zeros];
    rewrite (absorbed_used_mod h msg) by done.
  - rewrite Nat.add_0_r in H56. rewrite H56. simpl. by rewrite app_nil_r.
  - pose proof (Hj 0%nat ltac:(lia)) as H0. rewrite Nat.add_0_r in H0.
    apply Nat.eqb_neq in H0 as ->. cbn [repeat].
    replace (msg ++ x00 :: repeat x00 k) with ((msg ++ [x00]) ++ repeat x00 k)
      by by rewrite <- app_assoc.
    apply IH; [by apply update_absorbed|lia|..]; rewrite length_app; simpl.
    + by replace (length msg + 1 + k)%nat with (length msg + S k)%nat by lia.
    + intros j Hlt. replace (length msg + 1 + j)%nat with (length msg + S j)%nat by lia.
      apply Hj. lia.
Qed.

Lemma padding_count len :
  let k := Z.to_nat ((55 - Z.of_nat len) mod 64) in
  (k < 64 ∧ (len + 1 + k) mod 64 = 56 ∧ ∀ j, j < k → (len + 1 + j) mod 64 ≠ 56)%nat.
Proof.
  intros k. pose proof (Z.mod_pos_bound (55 - Z.of_nat len) 64 ltac:(lia)).
  assert (∃ q, 55 - Z.of_nat len = 64 * q + Z.of_nat k) as [q Hq].
  { exists ((55 - Z.of_nat len) / 64). unfold k. rewrite Z2Nat.id by lia.
    apply Z.div_mod. lia. }
  split_and!; [unfold k; lia|..].
  - apply Nat2Z.inj. rewrite Nat2Z.inj_mod. symmetry.
    apply (Z.mod_unique _ _ (- q)); lia.
  - intros j Hj E. apply (f_equal Z.of_nat) in E. rewrite Nat2Z.inj_mod in E.
    pose proof (Z.div_mod (Z.of_nat (len + 1 + j)) 64 ltac:(lia)). lia.
Qed.

(** Finishing a hasher that absorbed [msg] gives SHA-256 of [msg]. *)
Lemma finish_absorbed h msg : absorbed h msg → finish h = sha256 msg.
Proof.
  intros Habs. unfold finish, sha256, sha256_padding. cbv zeta.
  assert (wrap 64 (total_bytes_ h * 8) = wrap 64 (size msg * 8)) as ->.
  { rewrite (absorbed_total h msg) by done. unfold wrap. apply Zmult_mod_idemp_l. }
  set (len8 := length_bytes _). set (k := Z.to_nat _).
  pose proof (padding_count (length msg)) as (Hk & H56 & Hj).
  change (Z.to_nat ((55 - Z.of_nat (length msg)) mod 64)) with k in *.
  assert (absorbed (update (pad_zeros 64 (update h [x80])) len8)
            (((msg ++ [x80]) ++ repeat x00 k) ++ len8)) as Hfin.
  { apply update_absorbed, pad_zeros_absorbed; [by apply update_absorbed|done|..];
      rewrite length_app; [done|]. exact Hj. }
  rewrite <- !app_assoc in Hfin. cbn [app] in Hfin. set (padded := msg ++ _) in *.
  assert (∃ b, length padded = 64 * b)%nat as [b Hb].
  { unfold padded. rewrite length_app. cbn [length]. rewrite length_app, repeat_length.
    change (length len8) with 8%nat.
    exists ((length msg + 1 + k) / 64 + 1)%nat.
    pose proof (Nat.div_mod_eq (length msg + 1 + k) 64). lia. }
  pose proof (absorbed_used_mod _ _ Hfin) as Hused.
  rewrite Hb, (Nat.mul_comm 64), Nat.Div0.mod_mul in Hused.
  destruct Hfin as [_ _ _ (n & full & Hp & Hf & Hst)]. rewrite Hst.
  rewrite Hused, take_0, app_nil_r in Hp. rewrite <- Hp in Hf |- *.
  rewrite Hf, (Nat.mul_comm 64), Nat.div_mul by lia. done.
Qed.

(** The semantic hasher: the digest of a sequence of calls is SHA-256 of the
    bytes they feed, so how the bytes are cut into calls is irrelevant. *)
Lemma run_hasher_sha256 feed : run_hasher feed = sha256 (concat feed).
Proof.
  unfold run_hasher. apply finish_absorbed.
  apply (updates_absorbed feed reset []), absorbed_reset.
Qed.

Lemma digest_of_sha256 domain feed :
  digest_of domain feed = sha256 (concat (hash_string domain) ++ concat feed).
Proof. unfold digest_of. by rewrite run_hasher_sha256, concat_app. Qed.

(** Digests are compared, never unfolded, by the proofs of the other files. *)
#[global] Opaque digest_of.

(** ** Lemmas: CRC-32C *)

Lemma crc_bit_odd x : crc_bit x = Z.lxor (Z.shiftr x 1) (if Z.odd x then crc_poly else 0).
Proof.
  unfold crc_bit. change 1 with (Z.ones 1) at 1. rewrite Z.land_ones by lia.
  change (2 ^ 1) with 2. rewrite Zmod_odd. destruct (Z.odd x); simpl; [done|].
  by rewrite Z.lxor_0_r.
Qed.

(** The shift register is linear over exclusive or. *)
Lemma crc_bit_lxor x y : crc_bit (Z.lxor x y) = Z.lxor (crc_bit x) (crc_bit y).
Proof.
  rewrite !crc_bit_odd, Z.shiftr_lxor.
  assert (Z.odd (Z.lxor x y) = xorb (Z.odd x) (Z.odd y)) as ->.
  { rewrite <- !Z.bit0_odd. apply Z.lxor_spec. }
  apply Z.bits_inj'. intros n Hn. rewrite !Z.lxor_spec.
  destruct (Z.odd x), (Z.odd y); cbn [xorb]; rewrite ?Z.bits_0;
    by destruct (Z.testbit (Z.shiftr x 1) n), (Z.testbit (Z.shiftr y 1) n),
      (Z.testbit crc_poly n).
Qed.

Lemma crc_iter_lxor n x y :
  Nat.iter n crc_bit (Z.lxor x y) = Z.lxor (Nat.iter n crc_bit x) (Nat.iter n crc_bit y).
Proof. induction n as [|n IH]; simpl; [done|]. by rewrite IH, crc_bit_lxor. Qed.

Lemma crc_iter_shiftl n x : Nat.iter n crc_bit (Z.shiftl x (Z.of_nat n)) = x.
Proof.
  revert x. induction n as [|n IH]; intros x; [simpl; apply Z.shiftl_0_r|].
  cbn [Nat.iter nat_rect].
  replace (Z.shiftl x (Z.of_nat (S n))) with (Z.shiftl (Z.shiftl x 1) (Z.of_nat n))
    by (rewrite Z.shiftl_shiftl by lia; f_equal; lia).
  change (crc_bit (Nat.iter n crc_bit (Z.shiftl (Z.shiftl x 1) (Z.of_nat n))) = x).
  rewrite IH, crc_bit_odd, Z.shiftr_shiftl_l by lia.
  assert (Z.odd (Z.shiftl x 1) = false) as ->.
  { rewrite <- Z.bit0_odd. by apply Z.shiftl_spec_low. }
  rewrite Z.lxor_0_r. apply Z.shiftl_0_r.
Qed.

Lemma split_low8 x : x = Z.lxor (Z.land x 0xff) (Z.shiftl (Z.shiftr x 8) 8).
Proof.
  apply Z.bits_inj'. intros n Hn. rewrite Z.lxor_spec, Z.land_spec.
  change 0xff with (Z.ones 8). destruct (decide (n < 8)).
  - rewrite Z.ones_spec_low, Z.shiftl_spec_low by lia.
    by rewrite andb_true_r, xorb_false_r.
  - rewrite Z.ones_spec_high, Z.shiftl_spec_high, Z.shiftr_spec by lia.
    rewrite andb_false_r, xorb_false_l. f_equal. lia.
Qed.

Lemma crc_table_lookup i :
  0 <= i < 256 → nth (Z.to_nat i) crc32c_table 0 = crc_entry i.
Proof.
  intros Hi. unfold crc32c_table.
  apply nth_lookup_Some. rewrite list_lookup_fmap.
  assert ((seqZ 0 256) !! Z.to_nat i = Some i) as ->; [|done].
  apply lookup_seqZ. lia.
Qed.

Lemma crc_update_bitwise crc b : crc_update crc b = crc_bitwise_byte crc b.
Proof.
  unfold crc_update, crc_bitwise_byte. pose proof (to_integer_bound b) as Hb.
  set (x := Z.lxor crc (to_integer b)).
  assert (0 <= Z.land x 0xff < 256) as Hx.
  { change 0xff with (Z.ones 8). rewrite Z.land_ones by lia. apply Z.mod_pos_bound. lia. }
  rewrite crc_table_lookup by done. unfold crc_entry.
  assert (Z.land (Z.land x 0xff) 0xff = Z.land x 0xff) as ->.
  { by rewrite <- Z.land_assoc. }
  rewrite (split_low8 x) at 2. rewrite crc_iter_lxor. f_equal.
  rewrite (crc_iter_shiftl 8). unfold x. rewrite Z.shiftr_lxor.
  assert (Z.shiftr (to_integer b) 8 = 0) as ->.
  { rewrite Z.shiftr_div_pow2 by lia. apply Z.div_small. change (2 ^ 8) with 256. lia. }
  by rewrite Z.lxor_0_r.
Qed.

(** ** Lemmas: hashed fields are written fields *)

Lemma hash_u8_bytes v : concat (hash_u8 v) = put_u8 v [].
Proof. done. Qed.
Lemma hash_u16_bytes v : concat (hash_u16 v) = put_u16 v [].
Proof. unfold hash_u16, hash_uint, put_u16, put_u8, seqw. simpl. by rewrite Z.shiftr_0_r. Qed.
Lemma hash_u32_bytes v : concat (hash_u32 v) = put_u32 v [].
Proof. done. Qed.
Lemma hash_u64_bytes v : concat (hash_u64 v) = put_u64 v [].
Proof. done. Qed.
Lemma hash_i64_bytes v : concat (hash_i64 v) = put_i64 v [].
Proof. done. Qed.
Lemma hash_bool_bytes v : concat (hash_bool v) = put_bool v [].
Proof. done. Qed.

Lemma hash_each_bytes {A} (f : A → hashing) (g : A → writing) xs `{!∀ x, Appends (g x)} :
  (∀ x, concat (f x) = g x []) → concat (hash_each f xs) = put_each g xs [].
Proof.
  intros Hfg. unfold hash_each. induction xs as [|x xs IH]; [done|].
  rewrite put_each_cons by done. cbn [map concat]. by rewrite concat_app, IH, Hfg.
Qed.

#[export] Hint Rewrite hash_u8_bytes hash_u16_bytes hash_u32_bytes hash_u64_bytes
  hash_i64_bytes hash_bool_bytes @concat_app : hashed.

(** ** Properties *)

(** SHA-256 streaming is correct: however a message is cut into [update]
    calls, the padding loop of [finish] terminates and the digest is SHA-256 of
    the concatenated message. *)
Theorem sha256_streaming (chunks : list (list byte)) :
  finish (fold_left update chunks reset) = sha256 (concat chunks).
Proof.
  apply finish_absorbed, (updates_absorbed chunks reset []), absorbed_reset.
Qed.

(** The table-driven CRC-32C computes, for every input, the bit-at-a-time
    remainder of the reflected Castagnoli polynomial. *)
Theorem crc32c_table_driven (data : list byte) : crc32c data = crc32c_bitwise data.
Proof.
  unfold crc32c, crc32c_bitwise. f_equal. generalize 0xffffffff as crc.
  induction data as [|b data IH]; intros crc; simpl; [done|].
  rewrite crc_update_bitwise. apply IH.
Qed.

(** A digest is recovered from its hexadecimal text. *)
Theorem hex_roundtrip (d : Digest256) : size d = kSize → from_hex (to_hex d) = Some d.
Proof.
  unfold size, kSize. intros H. assert (length d = 32%nat) as Hl by lia.
  unfold from_hex. rewrite to_hex_length, Hl. simpl negb. cbn iota.
  rewrite <- Hl. apply parse_hex_to_hex.
Qed.

(** The published test vectors. *)
Example sha256_empty :
  to_hex (run_hasher []) = "e3b0c44298fc1c149afbf4c8996fb92427ae41e4649b934ca495991b7852b855".
Proof. by vm_compute. Qed.

Example sha256_abc :
  to_hex (run_hasher [bytes_of_string "a"; bytes_of_string "bc"]) =
  "ba7816bf8f01cfea414140de5dae2223b00361a396177a9cb410ff61f20015ad".
Proof. by vm_compute. Qed.

Example sha256_two_blocks :
  to_hex (run_hasher
    [bytes_of_string "abcdbcdecdefdefgefghfghighijhijkijkljklmklmnlmnomnopnopq"]) =
  "248d6a61d20638b8e5c026930c3e6039a33ce45964ff2167f6ecedd419db06c1".
Proof. by vm_compute. Qed.

Example crc32c_check_value : crc32c (bytes_of_string "123456789") = 0xe3069283.
Proof. by vm_compute. Qed.

Lemma hex_roundtrip_witness :
  size (output_bytes initial_state) = kSize ∧
  from_hex (to_hex (output_bytes initial_state)) = Some (output_bytes initial_state).
Proof. split; [reflexivity|apply hex_roundtrip; reflexivity]. Defined.
