(* ===== verification/Lifecycle.v ===== *)
(** The constraint-set lifecycle, [lifecycle.hpp] and [lifecycle.cpp], and the
    logical clocks of [time.hpp] and [time.cpp]. *)

From Stdlib Require Import ZArith Lia Bool.
From stdpp Require Import base list numbers strings sets relations.
From S2P Require Import Prelude Base.

Open Scope string_scope.
Open Scope list_scope.
Open Scope Z_scope.

(** ** States, events and the transition function *)

Module ConstraintSetState.
Inductive t :=
  | Declared | Active | Suspended | RevalidationRequired | Revoked | Superseded | Retired.

Definition to_code (x : t) : Z :=
  match x with
  | Declared => 1 | Active => 2 | Suspended => 3 | RevalidationRequired => 4
  | Revoked => 5 | Superseded => 6 | Retired => 7
  end.

Definition from_code (z : Z) : t :=
  match z with
  | 2 => Active | 3 => Suspended | 4 => RevalidationRequired | 5 => Revoked
  | 6 => Superseded | 7 => Retired | _ => Declared
  end.

Definition to_string (x : t) : string :=
  match x with
  | Declared => "Declared" | Active => "Active" | Suspended => "Suspended"
  | RevalidationRequired => "RevalidationRequired" | Revoked => "Revoked"
  | Superseded => "Superseded" | Retired => "Retired"
  end.
End ConstraintSetState.

#[export] Instance ConstraintSetState_enum : Enum ConstraintSetState.t.
Proof.
  refine {| code := ConstraintSetState.to_code; of_code := ConstraintSetState.from_code |}.
  by intros [].
Defined.
#[export] Instance ConstraintSetState_dec : EqDecision ConstraintSetState.t.
Proof. solve_decision. Defined.

Module LifecycleEvent.
Inductive t :=
  | Activate | Suspend | Resume | RequireRevalidation | Revalidated | Revoke
  | Supersede | Retire | Reinstate.

Definition to_code (x : t) : Z :=
  match x with
  | Activate => 1 | Suspend => 2 | Resume => 3 | RequireRevalidation => 4
  | Revalidated => 5 | Revoke => 6 | Supersede => 7 | Retire => 8 | Reinstate => 9
  end.

Definition from_code (z : Z) : t :=
  match z with
  | 2 => Suspend | 3 => Resume | 4 => RequireRevalidation | 5 => Revalidated
  | 6 => Revoke | 7 => Supersede | 8 => Retire | 9 => Reinstate | _ => Activate
  end.

Definition to_string (x : t) : string :=
  match x with
  | Activate => "Activate" | Suspend => "Suspend" | Resume => "Resume"
  | RequireRevalidation => "RequireRevalidation" | Revalidated => "Revalidated"
  | Revoke => "Revoke" | Supersede => "Supersede" | Retire => "Retire"
  | Reinstate => "Reinstate"
  end.
End LifecycleEvent.

#[export] Instance LifecycleEvent_enum : Enum LifecycleEvent.t.
Proof.
  refine {| code := LifecycleEvent.to_code; of_code := LifecycleEvent.from_code |}.
  by intros [].
Defined.

Record TransitionOutcome := mkOutcome {
  accepted : bool;
  next_state : ConstraintSetState.t;
  rejection : string
}.

Definition accept (next : ConstraintSetState.t) : TransitionOutcome := mkOutcome true next "".
Definition reject (reason : string) : TransitionOutcome :=
  mkOutcome false ConstraintSetState.Declared reason.

Definition apply_lifecycle_event (state : ConstraintSetState.t) (event : LifecycleEvent.t)
    : TransitionOutcome :=
  match state with
  | ConstraintSetState.Declared =>
      match event with
      | LifecycleEvent.Activate => accept ConstraintSetState.Active
      | LifecycleEvent.Revoke => accept ConstraintSetState.Revoked
      | LifecycleEvent.Supersede => accept ConstraintSetState.Superseded
      | LifecycleEvent.Retire => accept ConstraintSetState.Retired
      | _ => reject "declared set accepts only Activate, Revoke, Supersede or Retire"
      end
  | ConstraintSetState.Active =>
      match event with
      | LifecycleEvent.Suspend => accept ConstraintSetState.Suspended
      | LifecycleEvent.RequireRevalidation => accept ConstraintSetState.RevalidationRequired
      | LifecycleEvent.Revoke => accept ConstraintSetState.Revoked
      | LifecycleEvent.Supersede => accept ConstraintSetState.Superseded
      | LifecycleEvent.Retire => accept ConstraintSetState.Retired
      | _ => reject "active set accepts only Suspend, RequireRevalidation, Revoke, Supersede or Retire"
      end
  | ConstraintSetState.Suspended =>
      match event with
      | LifecycleEvent.Resume => accept ConstraintSetState.Active
      | LifecycleEvent.RequireRevalidation => accept ConstraintSetState.RevalidationRequired
      | LifecycleEvent.Revoke => accept ConstraintSetState.Revoked
      | LifecycleEvent.Supersede => accept ConstraintSetState.Superseded
      | LifecycleEvent.Retire => accept ConstraintSetState.Retired
      | _ => reject "suspended set accepts only Resume, RequireRevalidation, Revoke, Supersede or Retire"
      end
  | ConstraintSetState.RevalidationRequired =>
      match event with
      | LifecycleEvent.Revalidated => accept ConstraintSetState.Active
      | LifecycleEvent.Suspend => accept ConstraintSetState.Suspended
      | LifecycleEvent.Revoke => accept ConstraintSetState.Revoked
      | LifecycleEvent.Supersede => accept ConstraintSetState.Superseded
      | LifecycleEvent.Retire => accept ConstraintSetState.Retired
      | _ => reject "revalidation-required set accepts only Revalidated, Suspend, Revoke, Supersede or Retire"
      end
  | ConstraintSetState.Revoked =>
      match event with
      | LifecycleEvent.Retire => accept ConstraintSetState.Retired
      | LifecycleEvent.Supersede => accept ConstraintSetState.Superseded
      | LifecycleEvent.Reinstate => accept ConstraintSetState.RevalidationRequired
      | _ => reject "revoked set accepts only Reinstate, Supersede or Retire"
      end
  | ConstraintSetState.Superseded =>
      match event with
      | LifecycleEvent.Retire => accept ConstraintSetState.Retired
      | _ => reject "superseded set accepts only Retire"
      end
  | ConstraintSetState.Retired => reject "retired set is terminal"
  end.

Definition admits_admissibility (state : ConstraintSetState.t) : bool :=
  eeqb state ConstraintSetState.Active.

(** ** Clocks *)

(** [SteadyClock]: [origin_] and [last_]; the platform counter is an argument. *)
Record SteadyClock := mkSteady { origin_ : Z; last_ : Z }.

Definition SteadyClock_new (monotonic_milliseconds : Z) : SteadyClock :=
  mkSteady monotonic_milliseconds monotonic_milliseconds.

Definition SteadyClock_now_ticks (now : Z) (c : SteadyClock) : Z * SteadyClock :=
  let last := if last_ c <? now then now else last_ c in
  (last, mkSteady (origin_ c) last).

(** ** Runs of the lifecycle *)

(** One accepted event; a rejected one changes nothing. *)
Inductive lifecycle_step : ConstraintSetState.t → ConstraintSetState.t → Prop :=
  | step_event s e :
      accepted (apply_lifecycle_event s e) = true →
      lifecycle_step s (next_state (apply_lifecycle_event s e)).

(** How much further a set can go: every state that cannot come back ranks
    below every state that can reach it. *)
Definition finality (s : ConstraintSetState.t) : Z :=
  match s with
  | ConstraintSetState.Retired => 0
  | ConstraintSetState.Superseded => 1
  | ConstraintSetState.Declared => 3
  | _ => 2
  end.

Lemma lifecycle_step_finality s s' :
  lifecycle_step s s' → finality s' <= finality s ∧
  (finality s' < finality s ∨ finality s = 2).
Proof.
  intros [s0 e H]. destruct s0, e; try discriminate H;
  cbv [finality next_state apply_lifecycle_event accept]; lia.
Qed.

Lemma lifecycle_run_finality s s' : rtc lifecycle_step s s' → finality s' <= finality s.
Proof.
  induction 1 as [s|s1 s2 s3 H1 _ IH]; [lia|].
  apply lifecycle_step_finality in H1. lia.
Qed.

(** The end of the lifecycle is final: a retired set accepts no event, a
    superseded one only ever reaches Superseded or Retired, and no run comes
    back to Declared once it has left it. *)
Theorem lifecycle_terminal :
  (∀ e, accepted (apply_lifecycle_event ConstraintSetState.Retired e) = false) ∧
  (∀ s, rtc lifecycle_step ConstraintSetState.Superseded s →
        s = ConstraintSetState.Superseded ∨ s = ConstraintSetState.Retired) ∧
  (∀ s s', lifecycle_step s s' →
        ¬ rtc lifecycle_step s' ConstraintSetState.Declared).
Proof.
  split_and!.
  - by intros [].
  - intros s H%lifecycle_run_finality. destruct s; cbv [finality] in H; auto; lia.
  - intros s s' Hstep Hrun. apply lifecycle_run_finality in Hrun.
    destruct Hstep as [s0 e He]. destruct s0, e; try discriminate He;
      cbv [finality next_state apply_lifecycle_event accept] in Hrun; lia.
Qed.

(** Reinstatement never restores admissibility directly: the first step of
    any run that leads a revoked set back to a state that admits admissibility
    goes to RevalidationRequired. *)
Theorem lifecycle_revoked_revalidates s1 s :
  lifecycle_step ConstraintSetState.Revoked s1 → rtc lifecycle_step s1 s →
  admits_admissibility s = true →
  s1 = ConstraintSetState.RevalidationRequired.
Proof.
  intros H1 Hrun Hs. unfold admits_admissibility in Hs. apply eeqb_eq in Hs as ->.
  apply lifecycle_run_finality in Hrun.
  inversion H1 as [s0 e He]; subst. destruct e; try discriminate He;
    cbv [finality next_state apply_lifecycle_event accept] in *; lia || done.
Qed.

Lemma lifecycle_revoked_revalidates_witness :
  lifecycle_step ConstraintSetState.Revoked ConstraintSetState.RevalidationRequired ∧
  ConstraintSetState.RevalidationRequired = ConstraintSetState.RevalidationRequired.
Proof.
  assert (lifecycle_step ConstraintSetState.Revoked ConstraintSetState.RevalidationRequired) as H
    by apply (step_event ConstraintSetState.Revoked LifecycleEvent.Reinstate eq_refl).
  split; [exact H|].
  apply (lifecycle_revoked_revalidates _ ConstraintSetState.Active H); [|reflexivity].
  eapply rtc_l; [|apply rtc_refl].
  apply (step_event ConstraintSetState.RevalidationRequired LifecycleEvent.Revalidated eq_refl).
Defined.

(** Successive readings of the process clock never decrease, whatever the
    platform counter does. *)
Lemma SteadyClock_monotone now now' c :
  let '(t1, c1) := SteadyClock_now_ticks now c in
  t1 <= (SteadyClock_now_ticks now' c1).1.
Proof. unfold SteadyClock_now_ticks. simpl. ifs_lia. Qed.
