(* ===== verification/Constraint.v ===== *)
(** The typed constraint model, [constraint.hpp] and [constraint.cpp]: the
    constraint record, its structural validation, the canonical order, the
    evidence families of a kind, and the canonical encodings. *)

From Stdlib Require Import ZArith Lia Bool Strings.Byte.
From stdpp Require Import base list numbers strings sets sorting.
From S2P Require Import Prelude Base Codec Digest.

Open Scope string_scope.
Open Scope list_scope.
Open Scope Z_scope.

(** ** Enumerations *)

Module ConstraintKind.
Inductive t :=
  | Unset | MaxLatency | MinBandwidthCapability | RequiredNode | ForbiddenNode
  | RequiredLink | ForbiddenLink | RequiredTier | ForbiddenTier | RequiredSite
  | ForbiddenSite | LocalityScope | IsolationClass | RequiredCapability
  | ForbiddenCapability | RequiredFailureDomainRelation
  | ForbiddenFailureDomainRelation | AdministrativePolicy | MaxHopCount.

Definition to_code (x : t) : Z :=
  match x with
  | Unset => 0 | MaxLatency => 1 | MinBandwidthCapability => 2 | RequiredNode => 3
  | ForbiddenNode => 4 | RequiredLink => 5 | ForbiddenLink => 6 | RequiredTier => 7
  | ForbiddenTier => 8 | RequiredSite => 9 | ForbiddenSite => 10
  | LocalityScope => 11 | IsolationClass => 12 | RequiredCapability => 13
  | ForbiddenCapability => 14 | RequiredFailureDomainRelation => 15
  | ForbiddenFailureDomainRelation => 16 | AdministrativePolicy => 17
  | MaxHopCount => 18
  end.

Definition from_code (z : Z) : t :=
  match z with
  | 1 => MaxLatency | 2 => MinBandwidthCapability | 3 => RequiredNode
  | 4 => ForbiddenNode | 5 => RequiredLink | 6 => ForbiddenLink | 7 => RequiredTier
  | 8 => ForbiddenTier | 9 => RequiredSite | 10 => ForbiddenSite
  | 11 => LocalityScope | 12 => IsolationClass | 13 => RequiredCapability
  | 14 => ForbiddenCapability | 15 => RequiredFailureDomainRelation
  | 16 => ForbiddenFailureDomainRelation | 17 => AdministrativePolicy
  | 18 => MaxHopCount | _ => Unset
  end.

Definition to_string (x : t) : string :=
  match x with
  | Unset => "Unset" | MaxLatency => "MaxLatency"
  | MinBandwidthCapability => "MinBandwidthCapability"
  | RequiredNode => "RequiredNode" | ForbiddenNode => "ForbiddenNode"
  | RequiredLink => "RequiredLink" | ForbiddenLink => "ForbiddenLink"
  | RequiredTier => "RequiredTier" | ForbiddenTier => "ForbiddenTier"
  | RequiredSite => "RequiredSite" | ForbiddenSite => "ForbiddenSite"
  | LocalityScope => "LocalityScope" | IsolationClass => "IsolationClass"
  | RequiredCapability => "RequiredCapability"
  | ForbiddenCapability => "ForbiddenCapability"
  | RequiredFailureDomainRelation => "RequiredFailureDomainRelation"
  | ForbiddenFailureDomainRelation => "ForbiddenFailureDomainRelation"
  | AdministrativePolicy => "AdministrativePolicy" | MaxHopCount => "MaxHopCount"
  end.
End ConstraintKind.

#[export] Instance ConstraintKind_enum : Enum ConstraintKind.t.
Proof.
  refine {| code := ConstraintKind.to_code; of_code := ConstraintKind.from_code |}.
  by intros [].
Defined.

Module ConstraintScope.
Inductive t :=
  | Mandatory | Preference.

Definition to_code (x : t) : Z :=
  match x with
  | Mandatory => 1 | Preference => 2
  end.

Definition from_code (z : Z) : t :=
  match z with
  | 2 => Preference | _ => Mandatory
  end.

Definition to_string (x : t) : string :=
  match x with
  | Mandatory => "Mandatory" | Preference => "Preference"
  end.
End ConstraintScope.

#[export] Instance ConstraintScope_enum : Enum ConstraintScope.t.
Proof.
  refine {| code := ConstraintScope.to_code; of_code := ConstraintScope.from_code |}.
  by intros [].
Defined.

Module LatencySource.
Inductive t :=
  | Unset | PlannerCost | ObservedLatency.

Definition to_code (x : t) : Z :=
  match x with
  | Unset => 0 | PlannerCost => 1 | ObservedLatency => 2
  end.

Definition from_code (z : Z) : t :=
  match z with
  | 1 => PlannerCost | 2 => ObservedLatency | _ => Unset
  end.

Definition to_string (x : t) : string :=
  match x with
  | Unset => "Unset" | PlannerCost => "PlannerCost"
  | ObservedLatency => "ObservedLatency"
  end.
End LatencySource.

#[export] Instance LatencySource_enum : Enum LatencySource.t.
Proof.
  refine {| code := LatencySource.to_code; of_code := LatencySource.from_code |}.
  by intros [].
Defined.

Module DomainKind.
Inductive t :=
  | Unset | Node | Rack | Site | PowerZone | CoolingZone | Plane | FailureDomain.

Definition to_code (x : t) : Z :=
  match x with
  | Unset => 0 | Node => 1 | Rack => 2 | Site => 3 | PowerZone => 4
  | CoolingZone => 5 | Plane => 6 | FailureDomain => 7
  end.

Definition from_code (z : Z) : t :=
  match z with
  | 1 => Node | 2 => Rack | 3 => Site | 4 => PowerZone | 5 => CoolingZone
  | 6 => Plane | 7 => FailureDomain | _ => Unset
  end.

Definition to_string (x : t) : string :=
  match x with
  | Unset => "Unset" | Node => "Node" | Rack => "Rack" | Site => "Site"
  | PowerZone => "PowerZone" | CoolingZone => "CoolingZone" | Plane => "Plane"
  | FailureDomain => "FailureDomain"
  end.
End DomainKind.

#[export] Instance DomainKind_enum : Enum DomainKind.t.
Proof.
  refine {| code := DomainKind.to_code; of_code := DomainKind.from_code |}.
  by intros [].
Defined.

Module DomainRelation.
Inductive t :=
  | Unset | Distinct | Shared.

Definition to_code (x : t) : Z :=
  match x with
  | Unset => 0 | Distinct => 1 | Shared => 2
  end.

Definition from_code (z : Z) : t :=
  match z with
  | 1 => Distinct | 2 => Shared | _ => Unset
  end.

Definition to_string (x : t) : string :=
  match x with
  | Unset => "Unset" | Distinct => "Distinct" | Shared => "Shared"
  end.
End DomainRelation.

#[export] Instance DomainRelation_enum : Enum DomainRelation.t.
Proof.
  refine {| code := DomainRelation.to_code; of_code := DomainRelation.from_code |}.
  by intros [].
Defined.

Module UnknownPolicy.
Inductive t :=
  | FailClosed | PermitUnknownNegative.

Definition to_code (x : t) : Z :=
  match x with
  | FailClosed => 1 | PermitUnknownNegative => 2
  end.

Definition from_code (z : Z) : t :=
  match z with
  | 2 => PermitUnknownNegative | _ => FailClosed
  end.

Definition to_string (x : t) : string :=
  match x with
  | FailClosed => "FailClosed" | PermitUnknownNegative => "PermitUnknownNegative"
  end.
End UnknownPolicy.

#[export] Instance UnknownPolicy_enum : Enum UnknownPolicy.t.
Proof.
  refine {| code := UnknownPolicy.to_code; of_code := UnknownPolicy.from_code |}.
  by intros [].
Defined.

Module EvidenceProvenance.
Inductive t :=
  | None | FabricCapabilityRegistry | FabricTopologyAuthority
  | FabricLinkStateAuthority | FabricFailureDomainAuthority | FabricPolicyRegistry
  | PlannerModel | SyntheticFixture | OperatorDeclaration.

Definition to_code (x : t) : Z :=
  match x with
  | None => 0 | FabricCapabilityRegistry => 1 | FabricTopologyAuthority => 2
  | FabricLinkStateAuthority => 3 | FabricFailureDomainAuthority => 4
  | FabricPolicyRegistry => 5 | PlannerModel => 6 | SyntheticFixture => 7
  | OperatorDeclaration => 8
  end.

Definition from_code (z : Z) : t :=
  match z with
  | 1 => FabricCapabilityRegistry | 2 => FabricTopologyAuthority
  | 3 => FabricLinkStateAuthority | 4 => FabricFailureDomainAuthority
  | 5 => FabricPolicyRegistry | 6 => PlannerModel | 7 => SyntheticFixture
  | 8 => OperatorDeclaration | _ => None
  end.

Definition to_string (x : t) : string :=
  match x with
  | None => "None" | FabricCapabilityRegistry => "FabricCapabilityRegistry"
  | FabricTopologyAuthority => "FabricTopologyAuthority"
  | FabricLinkStateAuthority => "FabricLinkStateAuthority"
  | FabricFailureDomainAuthority => "FabricFailureDomainAuthority"
  | FabricPolicyRegistry => "FabricPolicyRegistry" | PlannerModel => "PlannerModel"
  | SyntheticFixture => "SyntheticFixture"
  | OperatorDeclaration => "OperatorDeclaration"
  end.
End EvidenceProvenance.

#[export] Instance EvidenceProvenance_enum : Enum EvidenceProvenance.t.
Proof.
  refine {| code := EvidenceProvenance.to_code; of_code := EvidenceProvenance.from_code |}.
  by intros [].
Defined.

Module CapabilityModel.
Inductive t :=
  | None | DeclaredCapabilityRegistry | SyntheticFixture.

Definition to_code (x : t) : Z :=
  match x with
  | None => 0 | DeclaredCapabilityRegistry => 1 | SyntheticFixture => 2
  end.

Definition from_code (z : Z) : t :=
  match z with
  | 1 => DeclaredCapabilityRegistry | 2 => SyntheticFixture | _ => None
  end.

Definition to_string (x : t) : string :=
  match x with
  | None => "None" | DeclaredCapabilityRegistry => "DeclaredCapabilityRegistry"
  | SyntheticFixture => "SyntheticFixture"
  end.
End CapabilityModel.

#[export] Instance CapabilityModel_enum : Enum CapabilityModel.t.
Proof.
  refine {| code := CapabilityModel.to_code; of_code := CapabilityModel.from_code |}.
  by intros [].
Defined.

Module PlannerCostModel.
Inductive t :=
  | None | HopCountUnits | ModelledLatencyMicros | AdministrativeMetric.

Definition to_code (x : t) : Z :=
  match x with
  | None => 0 | HopCountUnits => 1 | ModelledLatencyMicros => 2
  | AdministrativeMetric => 3
  end.

Definition from_code (z : Z) : t :=
  match z with
  | 1 => HopCountUnits | 2 => ModelledLatencyMicros | 3 => AdministrativeMetric
  | _ => None
  end.

Definition to_string (x : t) : string :=
  match x with
  | None => "None" | HopCountUnits => "HopCountUnits"
  | ModelledLatencyMicros => "ModelledLatencyMicros"
  | AdministrativeMetric => "AdministrativeMetric"
  end.
End PlannerCostModel.

#[export] Instance PlannerCostModel_enum : Enum PlannerCostModel.t.
Proof.
  refine {| code := PlannerCostModel.to_code; of_code := PlannerCostModel.from_code |}.
  by intros [].
Defined.

Module EvidenceFamily.
Inductive t :=
  | None | ConstraintSet | Topology | LinkState | Capability | FailureDomain | Policy
  | Planner | PathAuthority.

Definition to_code (x : t) : Z :=
  match x with
  | None => 0 | ConstraintSet => 1 | Topology => 2 | LinkState => 3 | Capability => 4
  | FailureDomain => 5 | Policy => 6 | Planner => 7 | PathAuthority => 8
  end.

Definition from_code (z : Z) : t :=
  match z with
  | 1 => ConstraintSet | 2 => Topology | 3 => LinkState | 4 => Capability
  | 5 => FailureDomain | 6 => Policy | 7 => Planner | 8 => PathAuthority | _ => None
  end.

Definition to_string (x : t) : string :=
  match x with
  | None => "None" | ConstraintSet => "ConstraintSet" | Topology => "Topology"
  | LinkState => "LinkState" | Capability => "Capability"
  | FailureDomain => "FailureDomain" | Policy => "Policy" | Planner => "Planner"
  | PathAuthority => "PathAuthority"
  end.
End EvidenceFamily.

#[export] Instance EvidenceFamily_enum : Enum EvidenceFamily.t.
Proof.
  refine {| code := EvidenceFamily.to_code; of_code := EvidenceFamily.from_code |}.
  by intros [].
Defined.

Definition EvidenceFamilyMask : Type := Z.

Definition family_bit (family : EvidenceFamily.t) : EvidenceFamilyMask :=
  Z.shiftl 1 (code family).

(** ** The constraint record

    Strong identifiers and generations are 64-bit integers, vectors are lists. *)

Record Constraint := mkConstraint {
  id : Z;
  generation : Z;
  kind : ConstraintKind.t;
  scope : ConstraintScope.t;
  unknown_policy : UnknownPolicy.t;
  bound : Z;
  latency_source : LatencySource.t;
  domain_kind : DomainKind.t;
  domain_relation : DomainRelation.t;
  locality_domain : Z;
  isolation_class : Z;
  nodes : list Z;
  links : list Z;
  tiers : list Z;
  sites : list Z;
  capabilities : list Z;
  policies : list Z;
  preference_rank : Z;
  preference_weight : Z
}.

Definition kMaxFixedPointBound : Z := 2 ^ 62.

(** ** Validation *)

Definition all_valid (values : list Z) : bool := forallb is_valid values.

Definition list_within {A} (values : list A) (max_size : Z) : bool := size values <=? max_size.

Definition empty {A} (values : list A) : bool :=
  match values with [] => true | _ :: _ => false end.

Definition any_entity_list (value : Constraint) : bool :=
  negb (empty (nodes value)) || negb (empty (links value)) || negb (empty (tiers value)) ||
  negb (empty (sites value)) || negb (empty (capabilities value)) ||
  negb (empty (policies value)).

Definition malformed (detail : string) : Status := Failure ErrorCode.Malformed detail.
Definition invalid (detail : string) : Status := Failure ErrorCode.InvalidArgument detail.

Definition is_forbidden_kind (kind : ConstraintKind.t) : bool :=
  eeqb kind ConstraintKind.ForbiddenNode || eeqb kind ConstraintKind.ForbiddenLink ||
  eeqb kind ConstraintKind.ForbiddenTier || eeqb kind ConstraintKind.ForbiddenSite ||
  eeqb kind ConstraintKind.ForbiddenCapability ||
  eeqb kind ConstraintKind.ForbiddenFailureDomainRelation.

Definition is_positive_requirement (kind : ConstraintKind.t) : bool :=
  eeqb kind ConstraintKind.RequiredNode || eeqb kind ConstraintKind.RequiredLink ||
  eeqb kind ConstraintKind.RequiredTier || eeqb kind ConstraintKind.RequiredSite ||
  eeqb kind ConstraintKind.RequiredCapability ||
  eeqb kind ConstraintKind.RequiredFailureDomainRelation ||
  eeqb kind ConstraintKind.LocalityScope || eeqb kind ConstraintKind.IsolationClass ||
  eeqb kind ConstraintKind.AdministrativePolicy || eeqb kind ConstraintKind.MaxLatency ||
  eeqb kind ConstraintKind.MinBandwidthCapability || eeqb kind ConstraintKind.MaxHopCount.

(** The [switch] over kinds of [validate_constraint]. *)
Definition validate_payload (c : Constraint) : Status :=
  let no_relation := eeqb (domain_relation c) DomainRelation.Unset in
  let no_domain_kind := eeqb (domain_kind c) DomainKind.Unset in
  let no_latency := eeqb (latency_source c) LatencySource.Unset in
  match kind c with
  | ConstraintKind.MaxLatency =>
      if negb (eeqb (latency_source c) LatencySource.PlannerCost) &&
         negb (eeqb (latency_source c) LatencySource.ObservedLatency) then
        malformed "MaxLatency requires an explicit latency source"
      else if (bound c <=? 0) || (kMaxFixedPointBound <? bound c) then
        Failure ErrorCode.InvalidNumericBound "MaxLatency bound must be a positive fixed-point value"
      else if any_entity_list c || negb no_domain_kind || negb no_relation ||
              is_valid (locality_domain c) || is_valid (isolation_class c) then
        malformed "MaxLatency must not carry unrelated payload"
      else success
  | ConstraintKind.MinBandwidthCapability =>
      if (bound c <=? 0) || (kMaxFixedPointBound <? bound c) then
        Failure ErrorCode.InvalidNumericBound
          "MinBandwidthCapability bound must be a positive bits-per-second value"
      else if any_entity_list c || negb no_latency || negb no_domain_kind || negb no_relation ||
              is_valid (locality_domain c) || is_valid (isolation_class c) then
        malformed "MinBandwidthCapability must not carry unrelated payload"
      else success
  | ConstraintKind.MaxHopCount =>
      if (bound c <=? 0) || (65535 <? bound c) then
        Failure ErrorCode.InvalidNumericBound "MaxHopCount bound must be within 1..65535"
      else if any_entity_list c || negb no_latency || negb no_domain_kind || negb no_relation ||
              is_valid (locality_domain c) || is_valid (isolation_class c) then
        malformed "MaxHopCount must not carry unrelated payload"
      else success
  | ConstraintKind.RequiredNode | ConstraintKind.ForbiddenNode =>
      if empty (nodes c) || negb (empty (links c)) || negb (empty (tiers c)) ||
         negb (empty (sites c)) || negb (empty (capabilities c)) || negb (empty (policies c)) then
        malformed "node constraint requires a node list and nothing else"
      else success
  | ConstraintKind.RequiredLink | ConstraintKind.ForbiddenLink =>
      if empty (links c) || negb (empty (nodes c)) || negb (empty (tiers c)) ||
         negb (empty (sites c)) || negb (empty (capabilities c)) || negb (empty (policies c)) then
        malformed "link constraint requires a link list and nothing else"
      else success
  | ConstraintKind.RequiredTier | ConstraintKind.ForbiddenTier =>
      if empty (tiers c) || negb (empty (nodes c)) || negb (empty (links c)) ||
         negb (empty (sites c)) || negb (empty (capabilities c)) || negb (empty (policies c)) then
        malformed "tier constraint requires a tier list and nothing else"
      else success
  | ConstraintKind.RequiredSite | ConstraintKind.ForbiddenSite =>
      if empty (sites c) || negb (empty (nodes c)) || negb (empty (links c)) ||
         negb (empty (tiers c)) || negb (empty (capabilities c)) || negb (empty (policies c)) then
        malformed "site constraint requires a site list and nothing else"
      else success
  | ConstraintKind.LocalityScope =>
      let locality_kind :=
        eeqb (domain_kind c) DomainKind.Rack || eeqb (domain_kind c) DomainKind.Site ||
        eeqb (domain_kind c) DomainKind.PowerZone || eeqb (domain_kind c) DomainKind.CoolingZone ||
        eeqb (domain_kind c) DomainKind.Plane in
      if negb locality_kind || negb (is_valid (locality_domain c)) then
        malformed "LocalityScope requires an authoritative locality domain and kind"
      else if any_entity_list c || negb (bound c =? 0) || negb no_relation ||
              is_valid (isolation_class c) || negb no_latency then
        malformed "LocalityScope must not carry unrelated payload"
      else success
  | ConstraintKind.IsolationClass =>
      if negb (is_valid (isolation_class c)) then
        malformed "IsolationClass requires an authoritative isolation class identity"
      else if any_entity_list c || negb (bound c =? 0) || negb no_domain_kind ||
              negb no_relation || is_valid (locality_domain c) || negb no_latency then
        malformed "IsolationClass must not carry unrelated payload"
      else success
  | ConstraintKind.RequiredCapability | ConstraintKind.ForbiddenCapability =>
      if empty (capabilities c) || negb (empty (nodes c)) || negb (empty (links c)) ||
         negb (empty (tiers c)) || negb (empty (sites c)) || negb (empty (policies c)) then
        malformed "capability constraint requires a capability list and nothing else"
      else success
  | ConstraintKind.RequiredFailureDomainRelation =>
      if no_domain_kind || negb (eeqb (domain_relation c) DomainRelation.Distinct) then
        malformed "RequiredFailureDomainRelation requires a domain kind and the Distinct relation"
      else if (bound c <? 1) || (kMaxFixedPointBound <? bound c) then
        Failure ErrorCode.InvalidNumericBound "failure-domain relation count must be at least one"
      else if any_entity_list c || is_valid (locality_domain c) ||
              is_valid (isolation_class c) || negb no_latency then
        malformed "failure-domain relation must not carry unrelated payload"
      else success
  | ConstraintKind.ForbiddenFailureDomainRelation =>
      if no_domain_kind then malformed "ForbiddenFailureDomainRelation requires a domain kind"
      else
        let+ _ :=
          if eeqb (domain_relation c) DomainRelation.Shared then
            if negb (bound c =? 0) then
              malformed "a forbidden shared relation does not take a count"
            else success
          else if eeqb (domain_relation c) DomainRelation.Distinct then
            if bound c <? 1 then
              Failure ErrorCode.InvalidNumericBound
                "a forbidden distinct relation requires a count of at least one"
            else success
          else malformed "ForbiddenFailureDomainRelation requires an explicit relation" in
        if any_entity_list c || is_valid (locality_domain c) ||
           is_valid (isolation_class c) || negb no_latency then
          malformed "failure-domain relation must not carry unrelated payload"
        else success
  | ConstraintKind.AdministrativePolicy =>
      if empty (policies c) || negb (empty (nodes c)) || negb (empty (links c)) ||
         negb (empty (tiers c)) || negb (empty (sites c)) || negb (empty (capabilities c)) then
        malformed "policy constraint requires a policy list and nothing else"
      else success
  | ConstraintKind.Unset =>
      Failure ErrorCode.UnknownConstraintKind "constraint kind is not a known kind"
  end.

Definition validate_constraint (c : Constraint) (limits : Limits) : Status :=
  let max_refs := max_entity_refs_per_constraint limits in
  if negb (is_valid (id c)) then invalid "constraint id must be non-zero"
  else if negb (is_valid (generation c)) then invalid "constraint generation must be non-zero"
  else if eeqb (kind c) ConstraintKind.Unset || (18 <? code (kind c)) then
    Failure ErrorCode.UnknownConstraintKind "constraint kind is not a known kind"
  else if negb (eeqb (scope c) ConstraintScope.Mandatory) &&
          negb (eeqb (scope c) ConstraintScope.Preference) then
    malformed "constraint scope is not a known scope"
  else if negb (eeqb (unknown_policy c) UnknownPolicy.FailClosed) &&
          negb (eeqb (unknown_policy c) UnknownPolicy.PermitUnknownNegative) then
    malformed "unknown-evidence policy is not a known policy"
  else if eeqb (unknown_policy c) UnknownPolicy.PermitUnknownNegative &&
          is_positive_requirement (kind c) then
    invalid "unknown evidence can never be permitted to satisfy a positive requirement"
  else if negb (list_within (nodes c) max_refs) || negb (list_within (links c) max_refs) ||
          negb (list_within (tiers c) max_refs) || negb (list_within (sites c) max_refs) ||
          negb (list_within (capabilities c) max_refs) ||
          negb (list_within (policies c) max_refs) then
    Failure ErrorCode.ResourceLimit "constraint entity reference list exceeds the limit"
  else if negb (all_valid (nodes c)) || negb (all_valid (links c)) ||
          negb (all_valid (tiers c)) || negb (all_valid (sites c)) ||
          negb (all_valid (capabilities c)) || negb (all_valid (policies c)) then
    invalid "constraint entity reference must be non-zero"
  else if eeqb (scope c) ConstraintScope.Mandatory &&
          (negb (preference_rank c =? 0) || negb (preference_weight c =? 0)) then
    malformed "mandatory constraint must not carry preference metadata"
  else if negb (eeqb (scope c) ConstraintScope.Mandatory) &&
          ((preference_weight c =? 0) || (1000 <? preference_weight c)) then
    Failure ErrorCode.InvalidNumericBound "preference weight must be within 1..1000"
  else validate_payload c.

(** ** Equality and canonical order *)

Fixpoint list_eqb (a b : list Z) : bool :=
  match a, b with
  | [], [] => true
  | x :: a', y :: b' => (x =? y) && list_eqb a' b'
  | _, _ => false
  end.

Definition equivalent_payload (a b : Constraint) : bool :=
  eeqb (kind a) (kind b) && eeqb (scope a) (scope b) &&
  eeqb (unknown_policy a) (unknown_policy b) && (bound a =? bound b) &&
  eeqb (latency_source a) (latency_source b) && eeqb (domain_kind a) (domain_kind b) &&
  eeqb (domain_relation a) (domain_relation b) && (locality_domain a =? locality_domain b) &&
  (isolation_class a =? isolation_class b) && list_eqb (nodes a) (nodes b) &&
  list_eqb (links a) (links b) && list_eqb (tiers a) (tiers b) &&
  list_eqb (sites a) (sites b) && list_eqb (capabilities a) (capabilities b) &&
  list_eqb (policies a) (policies b) && (preference_rank a =? preference_rank b) &&
  (preference_weight a =? preference_weight b).

(** [operator==] of [Constraint]. *)
Definition constraint_eqb (a b : Constraint) : bool :=
  (id a =? id b) && (generation a =? generation b) && equivalent_payload a b.

Definition semantically_equal (a b : Constraint) : bool := constraint_eqb a b.

Definition compare_lists (a b : list Z) : Z := cmp_list cmp_Z a b.

Definition compare_payload (a b : Constraint) : Z :=
  cmp_step (code (kind a)) (code (kind b)) (
  cmp_step (code (scope a)) (code (scope b)) (
  cmp_step (bound a) (bound b) (
  cmp_step (code (latency_source a)) (code (latency_source b)) (
  cmp_step (code (domain_kind a)) (code (domain_kind b)) (
  cmp_step (code (domain_relation a)) (code (domain_relation b)) (
  cmp_step (locality_domain a) (locality_domain b) (
  cmp_step (isolation_class a) (isolation_class b) (
  cmp_step (code (unknown_policy a)) (code (unknown_policy b)) (
  cmp_step (preference_rank a) (preference_rank b) (
  cmp_step (preference_weight a) (preference_weight b) (
  cmp_then (compare_lists (nodes a) (nodes b)) (
  cmp_then (compare_lists (links a) (links b)) (
  cmp_then (compare_lists (tiers a) (tiers b)) (
  cmp_then (compare_lists (sites a) (sites b)) (
  cmp_then (compare_lists (capabilities a) (capabilities b)) (
  compare_lists (policies a) (policies b))))))))))))))))).

Definition canonical_less (a b : Constraint) : bool :=
  let payload := compare_payload a b in
  if negb (payload =? 0) then payload <? 0
  else if negb (id a =? id b) then id a <? id b
  else generation a <? generation b.

(** ** Evidence families *)

Definition evidence_families (kind : ConstraintKind.t) : EvidenceFamilyMask :=
  match kind with
  | ConstraintKind.MaxLatency =>
      Z.lor (family_bit EvidenceFamily.Planner) (family_bit EvidenceFamily.LinkState)
  | ConstraintKind.MinBandwidthCapability | ConstraintKind.RequiredCapability
  | ConstraintKind.ForbiddenCapability => family_bit EvidenceFamily.Capability
  | ConstraintKind.RequiredNode | ConstraintKind.ForbiddenNode
  | ConstraintKind.RequiredLink | ConstraintKind.ForbiddenLink
  | ConstraintKind.RequiredTier | ConstraintKind.ForbiddenTier
  | ConstraintKind.RequiredSite | ConstraintKind.ForbiddenSite
  | ConstraintKind.LocalityScope => family_bit EvidenceFamily.Topology
  | ConstraintKind.IsolationClass | ConstraintKind.RequiredFailureDomainRelation
  | ConstraintKind.ForbiddenFailureDomainRelation => family_bit EvidenceFamily.FailureDomain
  | ConstraintKind.AdministrativePolicy => family_bit EvidenceFamily.Policy
  | ConstraintKind.MaxHopCount => family_bit EvidenceFamily.Planner
  | ConstraintKind.Unset => 0
  end.

(** ** Encodings *)

Definition write_list (values : list Z) : writing :=
  put_u32 (wrap 32 (size values)) ;;> put_each put_u64 values.

Definition read_list (max_size : Z) : reader (list Z) :=
  count ← bounded_length max_size;
  read_each (raw ← u64; _ ← fail_if (raw =? 0); mret raw) count.

Definition feed_list (values : list Z) : hashing :=
  hash_u32 (wrap 32 (size values)) ++ hash_each hash_u64 values.

Definition write_constraint_payload (c : Constraint) : writing :=
  put_u16 (code (kind c)) ;;> put_u8 (code (scope c)) ;;> put_u8 (code (unknown_policy c)) ;;>
  put_i64 (bound c) ;;> put_u8 (code (latency_source c)) ;;> put_u8 (code (domain_kind c)) ;;>
  put_u8 (code (domain_relation c)) ;;> put_u64 (locality_domain c) ;;>
  put_u64 (isolation_class c) ;;> put_u32 (preference_rank c) ;;>
  put_u32 (preference_weight c) ;;> write_list (nodes c) ;;> write_list (links c) ;;>
  write_list (tiers c) ;;> write_list (sites c) ;;> write_list (capabilities c) ;;>
  write_list (policies c).

Definition encode_constraint_payload (c : Constraint) : list byte :=
  write_constraint_payload c [].

Definition feed_digest (c : Constraint) : hashing :=
  hash_u64 (id c) ++ hash_u64 (generation c) ++ hash_u16 (code (kind c)) ++
  hash_u8 (code (scope c)) ++ hash_u8 (code (unknown_policy c)) ++ hash_i64 (bound c) ++
  hash_u8 (code (latency_source c)) ++ hash_u8 (code (domain_kind c)) ++
  hash_u8 (code (domain_relation c)) ++ hash_u64 (locality_domain c) ++
  hash_u64 (isolation_class c) ++ hash_u32 (preference_rank c) ++
  hash_u32 (preference_weight c) ++ feed_list (nodes c) ++ feed_list (links c) ++
  feed_list (tiers c) ++ feed_list (sites c) ++ feed_list (capabilities c) ++
  feed_list (policies c).

Definition encode_constraint (c : Constraint) : writing :=
  put_u64 (id c) ;;> put_u64 (generation c) ;;> put_u16 (code (kind c)) ;;>
  put_u8 (code (scope c)) ;;> put_u8 (code (unknown_policy c)) ;;> put_i64 (bound c) ;;>
  put_u8 (code (latency_source c)) ;;> put_u8 (code (domain_kind c)) ;;>
  put_u8 (code (domain_relation c)) ;;> put_u8 0 ;;> put_u64 (locality_domain c) ;;>
  put_u64 (isolation_class c) ;;> put_u32 (preference_rank c) ;;>
  put_u32 (preference_weight c) ;;> write_list (nodes c) ;;> write_list (links c) ;;>
  write_list (tiers c) ;;> write_list (sites c) ;;> write_list (capabilities c) ;;>
  write_list (policies c).

Definition enum_in_range (raw maximum : Z) : bool := (1 <=? raw) && (raw <=? maximum).

Definition canonical_lists (c : Constraint) : bool :=
  sorted_unique Z.ltb (nodes c) && sorted_unique Z.ltb (links c) &&
  sorted_unique Z.ltb (tiers c) && sorted_unique Z.ltb (sites c) &&
  sorted_unique Z.ltb (capabilities c) && sorted_unique Z.ltb (policies c).

Definition decode_constraint (limits : Limits) : reader Constraint :=
  let max_refs := max_entity_refs_per_constraint limits in
  id_raw ← u64; generation_raw ← u64; kind_raw ← u16; scope_raw ← u8; unknown_raw ← u8;
  bound ← i64; latency_raw ← u8; domain_kind_raw ← u8; relation_raw ← u8; reserved ← u8;
  locality_raw ← u64; isolation_raw ← u64; rank_raw ← u32; weight_raw ← u32;
  _ ← fail_if ((id_raw =? 0) || negb (is_representable generation_raw) ||
               negb (reserved =? 0) || negb (enum_in_range kind_raw 18) ||
               negb (enum_in_range scope_raw 2) || negb (enum_in_range unknown_raw 2) ||
               (2 <? latency_raw) || (7 <? domain_kind_raw) || (2 <? relation_raw));
  nodes ← read_list max_refs; links ← read_list max_refs; tiers ← read_list max_refs;
  sites ← read_list max_refs; capabilities ← read_list max_refs; policies ← read_list max_refs;
  let out := mkConstraint id_raw generation_raw (of_code kind_raw) (of_code scope_raw)
    (of_code unknown_raw) bound (of_code latency_raw) (of_code domain_kind_raw)
    (of_code relation_raw) locality_raw isolation_raw nodes links tiers sites capabilities
    policies rank_raw weight_raw in
  _ ← fail_if (negb (canonical_lists out));
  _ ← fail_if (negb (ok (validate_constraint out limits)));
  mret out.

(** ** Lemmas: equality and order *)

Lemma list_eqb_eq a b : list_eqb a b = true ↔ a = b.
Proof.
  revert b. induction a as [|x a IH]; destruct b as [|y b]; simpl; try done.
  rewrite andb_true_iff, IH, Z.eqb_eq. naive_solver.
Qed.

#[export] Instance compare_payload_order : CmpOrder compare_payload.
Proof.
  unfold compare_payload.
  refine (cmp_step_order (λ c, code (kind c)) _ _).
  refine (cmp_step_order (λ c, code (scope c)) _ _).
  refine (cmp_step_order bound _ _).
  refine (cmp_step_order (λ c, code (latency_source c)) _ _).
  refine (cmp_step_order (λ c, code (domain_kind c)) _ _).
  refine (cmp_step_order (λ c, code (domain_relation c)) _ _).
  refine (cmp_step_order locality_domain _ _).
  refine (cmp_step_order isolation_class _ _).
  refine (cmp_step_order (λ c, code (unknown_policy c)) _ _).
  refine (cmp_step_order preference_rank _ _).
  refine (cmp_step_order preference_weight _ _).
  assert (∀ f : Constraint → list Z, CmpOrder (λ a b, compare_lists (f a) (f b))) as Hl.
  { intros f. apply (cmp_on f (cmp_list cmp_Z)). apply _. }
  do 5 (refine (cmp_then_order _ _ (Hl _) _)).
Qed.

Lemma cmp_step_zero x y rest : cmp_step x y rest = 0 ↔ x = y ∧ rest = 0.
Proof. unfold cmp_step. destruct (x =? y) eqn:?, (x <? y) eqn:?; simpl; lia. Qed.

Lemma cmp_then_zero x rest : cmp_then x rest = 0 ↔ x = 0 ∧ rest = 0.
Proof. unfold cmp_then. ifs_lia. Qed.

Lemma compare_lists_zero a b : compare_lists a b = 0 ↔ a = b.
Proof.
  split; [apply cmp_list_eq, cmp_Z_eq|]. intros ->. apply (cmp_refl (cmp_list cmp_Z)).
Qed.

(** The payload fields of two constraints agree. *)
Lemma compare_payload_zero a b :
  compare_payload a b = 0 ↔ equivalent_payload a b = true.
Proof.
  unfold compare_payload, equivalent_payload.
  rewrite !cmp_step_zero, !cmp_then_zero, !compare_lists_zero, !andb_true_iff.
  rewrite !eeqb_eq, !Z.eqb_eq, !list_eqb_eq.
  split; intros H; decompose [and] H; split_and!; try done; try by apply code_inj.
  all: congruence.
Qed.

Lemma equivalent_payload_eq a b :
  equivalent_payload a b = true → id a = id b → generation a = generation b → a = b.
Proof.
  unfold equivalent_payload. rewrite !andb_true_iff, !eeqb_eq, !Z.eqb_eq, !list_eqb_eq.
  destruct a, b; simpl. intros H; decompose [and] H. intros. by f_equal.
Qed.

Lemma equivalent_payload_refl a : equivalent_payload a a = true.
Proof. apply compare_payload_zero, cmp_refl, _. Qed.

Lemma constraint_eqb_eq a b : constraint_eqb a b = true ↔ a = b.
Proof.
  unfold constraint_eqb. rewrite !andb_true_iff, !Z.eqb_eq. split.
  - intros [[H1 H2] H3]. by apply equivalent_payload_eq.
  - intros ->. split_and!; try done. apply equivalent_payload_refl.
Qed.

(** The canonical order as a three-way comparison. *)
Definition canonical_cmp (a b : Constraint) : Z :=
  cmp_then (compare_payload a b)
    (cmp_step (id a) (id b) (cmp_step (generation a) (generation b) 0)).

#[export] Instance canonical_cmp_order : CmpOrder canonical_cmp.
Proof.
  refine (cmp_then_order _ _ _ _).
Qed.

Lemma canonical_less_cmp a b : canonical_less a b = (canonical_cmp a b <? 0).
Proof.
  unfold canonical_less, canonical_cmp, cmp_then, cmp_step. cbv zeta.
  destruct (compare_payload a b =? 0) eqn:E; simpl; [|done]. ifs_lia.
Qed.

Lemma canonical_cmp_eq a b : canonical_cmp a b = 0 → a = b.
Proof.
  unfold canonical_cmp. rewrite cmp_then_zero, !cmp_step_zero, compare_payload_zero.
  intros (H1 & H2 & H3 & _). by apply equivalent_payload_eq.
Qed.

(** ** Lemmas: validation *)

Definition valid (limits : Limits) (c : Constraint) : Prop :=
  ok (validate_constraint c limits) = true.

(** What the chain of early returns before the [switch] leaves true. *)
Lemma validate_constraint_payload limits c :
  valid limits c →
  ok (validate_payload c) = true ∧ id c ≠ 0 ∧ generation c ≠ 0 ∧
  kind c ≠ ConstraintKind.Unset ∧
  (is_positive_requirement (kind c) = true → unknown_policy c = UnknownPolicy.FailClosed) ∧
  (scope c = ConstraintScope.Mandatory → preference_rank c = 0 ∧ preference_weight c = 0) ∧
  (scope c = ConstraintScope.Preference → 0 < preference_weight c ∨ preference_weight c < 0).
Proof.
  unfold valid, validate_constraint. cbv zeta. intros H.
  repeat match type of H with
  | context [if ?b then _ else _] => destruct b eqn:?; [discriminate H|]
  end.
  bool_hyps. autorewrite with crf in *.
  repeat match goal with Hv : is_valid _ = true |- _ => apply is_valid_true in Hv end.
  split_and!; try done.
  - intros Hp. destruct (unknown_policy c); [done|].
    by rewrite Hp in *.
  - intros Hs. rewrite Hs in *. simpl in *. lia.
  - intros Hs. rewrite Hs in *. simpl in *. lia.
Qed.

(** ** Lemmas: encodings *)

#[export] Instance appends_write_list l : Appends (write_list l).
Proof. unfold write_list. apply _. Qed.
#[export] Typeclasses Opaque write_list.
#[export] Instance appends_write_constraint_payload c : Appends (write_constraint_payload c).
Proof. unfold write_constraint_payload. apply _. Qed.
#[export] Instance appends_encode_constraint c : Appends (encode_constraint c).
Proof. unfold encode_constraint. apply _. Qed.
#[export] Typeclasses Opaque write_constraint_payload encode_constraint.

Lemma fits_le w1 w2 v : 0 <= w1 <= w2 → fits w1 v → fits w2 v.
Proof.
  unfold fits. intros Hw [? H]. split; [done|].
  pose proof (Z.pow_le_mono_r 2 w1 w2). lia.
Qed.

(** The values a vector of identifiers can hold. *)
Definition ids_fit (l : list Z) : Prop := Forall (fits 64) l ∧ fits 32 (size l).

Lemma reads_list max l :
  ids_fit l → all_valid l = true ∧ size l <= max → reads (read_list max) (write_list l []) l.
Proof.
  intros [Hf Hs] [Hv Hm]. unfold read_list, write_list.
  rewrite (wrap_small 32) by done. read_field; [by apply reads_bounded_length|].
  apply reads_each; [apply _|]. intros x Hx.
  apply list_forallb_Forall in Hv. rewrite Forall_forall in Hf, Hv.
  read_last; [by apply reads_u64, Hf|]. apply reads_guard; [|apply reads_ret].
  specialize (Hv x Hx). by apply is_valid_true, Z.eqb_neq in Hv.
Qed.

#[export] Instance safe_read_list max : Safe (read_list max).
Proof. unfold read_list. apply _. Qed.

(** Every field holds a value of its C++ type. *)
Record machine_constraint (c : Constraint) : Prop := {
  mc_id : fits 64 (id c);
  mc_generation : fits 64 (generation c);
  mc_bound : fits_i64 (bound c);
  mc_locality : fits 64 (locality_domain c);
  mc_isolation : fits 64 (isolation_class c);
  mc_rank : fits 32 (preference_rank c);
  mc_weight : fits 32 (preference_weight c);
  mc_nodes : ids_fit (nodes c);
  mc_links : ids_fit (links c);
  mc_tiers : ids_fit (tiers c);
  mc_sites : ids_fit (sites c);
  mc_capabilities : ids_fit (capabilities c);
  mc_policies : ids_fit (policies c)
}.

Lemma validate_constraint_lists limits c :
  valid limits c →
  Forall (λ l, all_valid l = true ∧ size l <= max_entity_refs_per_constraint limits)
    [nodes c; links c; tiers c; sites c; capabilities c; policies c].
Proof.
  unfold valid, validate_constraint. cbv zeta. intros H.
  repeat match type of H with
  | context [if ?b then _ else _] => destruct b eqn:?; [discriminate H|]
  end.
  clear H. bool_hyps. unfold list_within in *. autorewrite with crf in *.
  repeat constructor; try done; lia.
Qed.

Lemma kind_code_range k : 0 <= code (A := ConstraintKind.t) k <= 18.
Proof. destruct k; vm_compute; split; discriminate. Qed.

Lemma reads_code8 {A} `{Enum A} (x : A) : fits 8 (code x) → reads u8 (put_u8 (code x) []) (code x).
Proof. apply reads_u8. Qed.

Lemma enum_decoded c :
  kind c ≠ ConstraintKind.Unset →
  enum_in_range (code (kind c)) 18 = true ∧ enum_in_range (code (scope c)) 2 = true ∧
  enum_in_range (code (unknown_policy c)) 2 = true ∧ (2 <? code (latency_source c)) = false ∧
  (7 <? code (domain_kind c)) = false ∧ (2 <? code (domain_relation c)) = false.
Proof.
  intros Hk. split_and!.
  - by destruct (kind c).
  - by destruct (scope c).
  - by destruct (unknown_policy c).
  - by destruct (latency_source c).
  - by destruct (domain_kind c).
  - by destruct (domain_relation c).
Qed.

Lemma reads_constraint limits c :
  machine_constraint c → is_representable (generation c) = true →
  canonical_lists c = true → valid limits c →
  reads (decode_constraint limits) (encode_constraint c []) c.
Proof.
  intros [] Hg Hc Hv. unfold decode_constraint, encode_constraint. cbv zeta.
  destruct (validate_constraint_payload limits c Hv) as (_ & Hid & _ & Hk & _).
  pose proof (validate_constraint_lists limits c Hv) as Hl.
  rewrite !Forall_cons in Hl. destruct Hl as (Hn & Hli & Ht & Hs & Hca & Hp & _).
  destruct (enum_decoded c Hk) as (Ek & Es & Eu & El & Ed & Er).
  read_field; [by apply reads_u64|]. read_field; [by apply reads_u64|].
  read_field; [apply reads_u16; by destruct (kind c)|].
  read_field; [apply reads_u8; by destruct (scope c)|].
  read_field; [apply reads_u8; by destruct (unknown_policy c)|].
  read_field; [by apply reads_i64|].
  read_field; [apply reads_u8; by destruct (latency_source c)|].
  read_field; [apply reads_u8; by destruct (domain_kind c)|].
  read_field; [apply reads_u8; by destruct (domain_relation c)|].
  read_field; [apply reads_u8; done|].
  read_field; [by apply reads_u64|]. read_field; [by apply reads_u64|].
  read_field; [by apply reads_u32|]. read_field; [by apply reads_u32|].
  apply reads_guard.
  { rewrite Ek, Es, Eu, El, Ed, Er, Hg. apply Z.eqb_neq in Hid as ->. done. }
  do 5 (read_field; [by apply reads_list|]).
  read_last; [by apply reads_list|].
  rewrite !of_code_code.
  destruct c; simpl in *.
  apply reads_guard; [by rewrite Hc|]. apply reads_guard; [|apply reads_ret].
  unfold valid in Hv. by rewrite Hv.
Qed.

#[export] Instance safe_decode_constraint limits : Safe (decode_constraint limits).
Proof. unfold decode_constraint. apply _. Qed.

(** ** Lemmas: the encoded payload determines the constraint *)

Lemma feed_list_bytes l : concat (feed_list l) = write_list l [].
Proof.
  unfold feed_list, write_list. rewrite seqw_nil by apply _. autorewrite with hashed.
  f_equal. apply hash_each_bytes; [apply _|]. apply hash_u64_bytes.
Qed.
#[export] Hint Rewrite feed_list_bytes : hashed.

Lemma feed_digest_bytes c :
  concat (feed_digest c) =
  put_u64 (id c) [] ++ put_u64 (generation c) [] ++ encode_constraint_payload c.
Proof.
  unfold feed_digest, encode_constraint_payload, write_constraint_payload.
  autorewrite with hashed. rewrite !seqw_nil by apply _. done.
Qed.

(** The parser of a payload, used only to state that nothing is lost. *)
Definition parse_list : reader (list Z) := count ← u32; read_each u64 count.

Definition parse_payload (id generation : Z) : reader Constraint :=
  kind_raw ← u16; scope_raw ← u8; unknown_raw ← u8; bound ← i64; latency_raw ← u8;
  domain_kind_raw ← u8; relation_raw ← u8; locality_raw ← u64; isolation_raw ← u64;
  rank_raw ← u32; weight_raw ← u32; nodes ← parse_list; links ← parse_list;
  tiers ← parse_list; sites ← parse_list; capabilities ← parse_list; policies ← parse_list;
  mret (mkConstraint id generation (of_code kind_raw) (of_code scope_raw)
    (of_code unknown_raw) bound (of_code latency_raw) (of_code domain_kind_raw)
    (of_code relation_raw) locality_raw isolation_raw nodes links tiers sites capabilities
    policies rank_raw weight_raw).

Lemma reads_parse_list l : ids_fit l → reads parse_list (write_list l []) l.
Proof.
  intros [Hf Hs]. unfold parse_list, write_list. rewrite (wrap_small 32) by done.
  read_field; [by apply reads_u32|]. apply reads_each; [apply _|].
  intros x Hx. apply reads_u64. rewrite Forall_forall in Hf. by apply Hf.
Qed.

Definition with_identity (i g : Z) (c : Constraint) : Constraint :=
  mkConstraint i g (kind c) (scope c) (unknown_policy c) (bound c) (latency_source c)
    (domain_kind c) (domain_relation c) (locality_domain c) (isolation_class c) (nodes c)
    (links c) (tiers c) (sites c) (capabilities c) (policies c) (preference_rank c)
    (preference_weight c).

Lemma reads_payload i g c :
  machine_constraint c →
  reads (parse_payload i g) (encode_constraint_payload c) (with_identity i g c).
Proof.
  intros []. unfold parse_payload, encode_constraint_payload, write_constraint_payload.
  read_field; [apply reads_u16; by destruct (kind c)|].
  read_field; [apply reads_u8; by destruct (scope c)|].
  read_field; [apply reads_u8; by destruct (unknown_policy c)|].
  read_field; [by apply reads_i64|].
  read_field; [apply reads_u8; by destruct (latency_source c)|].
  read_field; [apply reads_u8; by destruct (domain_kind c)|].
  read_field; [apply reads_u8; by destruct (domain_relation c)|].
  do 2 (read_field; [by apply reads_u64|]). do 2 (read_field; [by apply reads_u32|]).
  do 5 (read_field; [by apply reads_parse_list|]).
  read_last; [by apply reads_parse_list|]. rewrite !of_code_code. apply reads_ret.
Qed.

Lemma encode_constraint_payload_inj a b :
  machine_constraint a → machine_constraint b →
  encode_constraint_payload a = encode_constraint_payload b → equivalent_payload a b = true.
Proof.
  intros Ha Hb E. pose proof (reads_payload 1 1 a Ha) as Ra. rewrite E in Ra.
  pose proof (reads_inj _ _ _ _ Ra (reads_payload 1 1 b Hb)) as Eab.
  assert (∀ c, equivalent_payload c (with_identity 1 1 c) = true) as Hw
    by (intros c; exact (equivalent_payload_refl c)).
  apply compare_payload_zero. apply (cmp_eq_trans _ _ (with_identity 1 1 a)).
  { apply compare_payload_zero, Hw. }
  rewrite Eab, (cmp_sym _ b). pose proof (Hw b) as H. apply compare_payload_zero in H. lia.
Qed.

Lemma le_put_u64_inj x y bs cs :
  fits 64 x → fits 64 y → put_u64 x [] ++ bs = put_u64 y [] ++ cs → x = y ∧ bs = cs.
Proof.
  intros Hx Hy E. rewrite !put_u64_bytes in E.
  apply app_inj_1 in E as [E ->]; [|by rewrite !le_bytes_length]. split; [|done].
  rewrite <- (le_val_bytes 8 x), <- (le_val_bytes 8 y) by done. by rewrite E.
Qed.

Lemma feed_digest_inj a b :
  machine_constraint a → machine_constraint b →
  concat (feed_digest a) = concat (feed_digest b) → a = b.
Proof.
  intros Ha Hb. rewrite !feed_digest_bytes. intros E.
  apply le_put_u64_inj in E as [Hid E]; [|apply Ha|apply Hb].
  apply le_put_u64_inj in E as [Hg E]; [|apply Ha|apply Hb].
  apply equivalent_payload_eq; [by apply encode_constraint_payload_inj|done|done].
Qed.
