(* ===== verification/Candidate.v ===== *)
(** Candidate paths and the authoritative evidence they carry, [candidate.hpp]
    and [candidate.cpp]: structural validation, canonicalization, the bottleneck
    bandwidth, the candidate digest and the wire encoding.

    The code's reference structs come in two shapes. [LocalityRef] and
    [FailureDomainRef] are a domain kind with a domain identity; [CapabilityRef],
    [PolicyAttestation] and [IsolationAttestation] are an identity with the
    generation that established it. Each shape is one record here. *)

From Stdlib Require Import ZArith Lia Bool Strings.Byte.
From stdpp Require Import base list numbers strings sets sorting.
From S2P Require Import Prelude Base Codec Digest Constraint.

Open Scope string_scope.
Open Scope list_scope.
Open Scope Z_scope.

(** ** Data *)

Module PathAuthorityVerdict.
Inductive t :=
  | NotEvaluated | Legal | Rejected.

Definition to_code (x : t) : Z :=
  match x with
  | NotEvaluated => 0 | Legal => 1 | Rejected => 2
  end.

Definition from_code (z : Z) : t :=
  match z with
  | 1 => Legal | 2 => Rejected | _ => NotEvaluated
  end.
End PathAuthorityVerdict.

#[export] Instance PathAuthorityVerdict_enum : Enum PathAuthorityVerdict.t.
Proof.
  refine {| code := PathAuthorityVerdict.to_code; of_code := PathAuthorityVerdict.from_code |}.
  by intros [].
Defined.

Record DomainRef := mkDomainRef { ref_kind : DomainKind.t; ref_domain : Z }.
Abbreviation LocalityRef := DomainRef.
Abbreviation FailureDomainRef := DomainRef.

Record GenerationRef := mkGenerationRef { ref_identity : Z; ref_generation : Z }.
Abbreviation CapabilityRef := GenerationRef.
Abbreviation PolicyAttestation := GenerationRef.
Abbreviation IsolationAttestation := GenerationRef.

(** [operator==] and [operator<] of the two shapes. *)
Definition domain_ref_eqb (a b : DomainRef) : bool :=
  eeqb (ref_kind a) (ref_kind b) && (ref_domain a =? ref_domain b).
Definition domain_ref_less (a b : DomainRef) : bool :=
  if negb (eeqb (ref_kind a) (ref_kind b)) then code (ref_kind a) <? code (ref_kind b)
  else ref_domain a <? ref_domain b.
Definition generation_ref_eqb (a b : GenerationRef) : bool :=
  (ref_identity a =? ref_identity b) && (ref_generation a =? ref_generation b).
Definition generation_ref_less (a b : GenerationRef) : bool :=
  if negb (ref_identity a =? ref_identity b) then ref_identity a <? ref_identity b
  else ref_generation a <? ref_generation b.

Record LatencyEvidence := mkLatency {
  source : LatencySource.t;
  latency_provenance : EvidenceProvenance.t;
  micros : Z;
  latency_planner_generation : Z;
  observed_generation : Z;
  latency_observed_tick : Z
}.

Record BandwidthCapabilityEvidence := mkBandwidth {
  model : CapabilityModel.t;
  bandwidth_provenance : EvidenceProvenance.t;
  bits_per_second : Z;
  bandwidth_generation : Z;
  bandwidth_observed_tick : Z
}.

Record NodeFact := mkNode {
  node : Z;
  tier : Z;
  site : Z;
  localities : list LocalityRef;
  node_domains : list FailureDomainRef;
  node_capabilities : list CapabilityRef;
  node_isolation : list IsolationAttestation
}.

Record LinkFact := mkLink {
  link : Z;
  endpoint_a : Z;
  endpoint_b : Z;
  bandwidth : BandwidthCapabilityEvidence;
  link_domains : list FailureDomainRef;
  link_capabilities : list CapabilityRef;
  link_isolation : list IsolationAttestation
}.

Record EvidenceGenerationSet := mkEvidence {
  topology : Z;
  link_state : Z;
  capability : Z;
  failure_domain : Z;
  policy : Z;
  planner : Z;
  path_authority : Z;
  consulted : EvidenceFamilyMask;
  captured_tick : Z
}.

Record EvidenceRequirements := mkRequirements {
  req_topology : Z;
  req_link_state : Z;
  req_capability : Z;
  req_failure_domain : Z;
  req_policy : Z;
  req_planner : Z;
  req_path_authority : Z;
  max_evidence_age_ticks : Z
}.

Record CandidatePath := mkCandidate {
  path : Z;
  authority_generation : Z;
  authority_verdict : PathAuthorityVerdict.t;
  planner_generation : Z;
  has_planner_rank : bool;
  planner_rank : Z;
  has_planner_cost : bool;
  planner_cost : Z;
  cost_model : PlannerCostModel.t;
  hop_count : Z;
  path_nodes : list NodeFact;
  path_links : list LinkFact;
  latency : LatencyEvidence;
  path_policies : list PolicyAttestation;
  evidence : EvidenceGenerationSet
}.

(** [operator==] of the evidence records; the ticks are not compared. *)
Definition latency_eqb (a b : LatencyEvidence) : bool :=
  eeqb (source a) (source b) && eeqb (latency_provenance a) (latency_provenance b) &&
  (micros a =? micros b) &&
  (latency_planner_generation a =? latency_planner_generation b) &&
  (observed_generation a =? observed_generation b).

Definition bandwidth_eqb (a b : BandwidthCapabilityEvidence) : bool :=
  eeqb (model a) (model b) && eeqb (bandwidth_provenance a) (bandwidth_provenance b) &&
  (bits_per_second a =? bits_per_second b) &&
  (bandwidth_generation a =? bandwidth_generation b).

Definition evidence_eqb (a b : EvidenceGenerationSet) : bool :=
  (topology a =? topology b) && (link_state a =? link_state b) &&
  (capability a =? capability b) && (failure_domain a =? failure_domain b) &&
  (policy a =? policy b) && (planner a =? planner b) &&
  (path_authority a =? path_authority b) && (consulted a =? consulted b).

(** ** Validation *)

Definition same_endpoints (l : LinkFact) (a b : Z) : bool :=
  ((endpoint_a l =? a) && (endpoint_b l =? b)) ||
  ((endpoint_a l =? b) && (endpoint_b l =? a)).

Definition domain_refs_valid (refs : list DomainRef) : bool :=
  forallb (λ ref, negb (eeqb (ref_kind ref) DomainKind.Unset || negb (is_valid (ref_domain ref))))
    refs.

(** The loop over nodes; [seen] holds the identities before this index. *)
Fixpoint validate_nodes (limits : Limits) (seen : list Z) (ns : list NodeFact) : Status :=
  match ns with
  | [] => success
  | n :: rest =>
      if negb (is_valid (node n)) then
        Failure ErrorCode.InvalidArgument "candidate node identity must be non-zero"
      else if existsb (λ previous, previous =? node n) seen then
        malformed "candidate traversal repeats a node identity"
      else if (max_localities_per_entity limits <? size (localities n)) ||
              (max_domains_per_entity limits <? size (node_domains n)) ||
              (max_capabilities_per_entity limits <? size (node_capabilities n)) then
        Failure ErrorCode.ResourceLimit "node evidence exceeds the configured limit"
      else if negb (sorted_unique domain_ref_less (localities n)) ||
              negb (sorted_unique domain_ref_less (node_domains n)) ||
              negb (sorted_unique generation_ref_less (node_capabilities n)) ||
              negb (sorted_unique generation_ref_less (node_isolation n)) then
        malformed "node evidence vectors are not canonical"
      else if negb (domain_refs_valid (localities n)) then
        malformed "locality membership must carry an authoritative kind and identity"
      else if negb (domain_refs_valid (node_domains n)) then
        malformed "failure-domain membership must carry an authoritative kind and identity"
      else validate_nodes limits (seen ++ [node n]) rest
  end.

(** The loop over links, with the consecutive nodes at the same index. *)
Fixpoint validate_links (limits : Limits) (ns : list NodeFact) (ls : list LinkFact)
    {struct ls} : Status :=
  match ls, ns with
  | [], _ => success
  | l :: ls', n1 :: ((n2 :: _) as ns') =>
      if negb (is_valid (link l)) then
        Failure ErrorCode.InvalidArgument "candidate link identity must be non-zero"
      else if negb (same_endpoints l (node n1) (node n2)) then
        malformed "candidate link endpoints do not match the consecutive nodes"
      else if (max_domains_per_entity limits <? size (link_domains l)) ||
              (max_capabilities_per_entity limits <? size (link_capabilities l)) then
        Failure ErrorCode.ResourceLimit "link evidence exceeds the configured limit"
      else if negb (sorted_unique domain_ref_less (link_domains l)) ||
              negb (sorted_unique generation_ref_less (link_capabilities l)) ||
              negb (sorted_unique generation_ref_less (link_isolation l)) then
        malformed "link evidence vectors are not canonical"
      else if negb (eeqb (model (bandwidth l)) CapabilityModel.None) &&
              ((bits_per_second (bandwidth l) <? 0) ||
               negb (is_valid (bandwidth_generation (bandwidth l)))) then
        malformed "link bandwidth capability evidence is not well formed"
      else validate_links limits ns' ls'
  | _ :: _, _ => success (* not reached: the counts were compared before *)
  end.

Definition validate_latency (c : CandidatePath) : Status :=
  let l := latency c in
  if eeqb (source l) LatencySource.Unset then success
  else if (micros l <? 0) || (kMaxFixedPointBound <? micros l) then
    Failure ErrorCode.InvalidNumericBound "candidate latency evidence is out of range"
  else if eeqb (source l) LatencySource.PlannerCost &&
          negb (is_valid (latency_planner_generation l)) then
    malformed "modelled latency must bind an exact planner generation"
  else if eeqb (source l) LatencySource.ObservedLatency &&
          negb (is_valid (observed_generation l)) then
    malformed "observed latency must bind an exact evidence generation"
  else if eeqb (source l) LatencySource.PlannerCost &&
          negb (latency_planner_generation l =? planner (evidence c)) then
    malformed "modelled latency generation disagrees with the candidate evidence binding"
  else if eeqb (source l) LatencySource.ObservedLatency &&
          negb (observed_generation l =? link_state (evidence c)) then
    malformed "observed latency generation disagrees with the candidate evidence binding"
  else success.

Definition validate_candidate (c : CandidatePath) (limits : Limits) : Status :=
  if negb (is_valid (path c)) then
    Failure ErrorCode.InvalidArgument "candidate path identity must be non-zero"
  else if negb (is_valid (authority_generation c)) then
    Failure ErrorCode.InvalidArgument "candidate must carry an exact Path Authority generation"
  else if negb (path_authority (evidence c) =? authority_generation c) then
    malformed "candidate evidence binding disagrees with its Path Authority generation"
  else if size (path_nodes c) <? 2 then
    malformed "candidate must contain at least two nodes"
  else if max_nodes_per_candidate limits <? size (path_nodes c) then
    Failure ErrorCode.ResourceLimit "candidate node count exceeds the limit"
  else if negb (size (path_links c) =? size (path_nodes c) - 1) then
    malformed "candidate link count must be exactly one less than its node count"
  else if max_links_per_candidate limits <? size (path_links c) then
    Failure ErrorCode.ResourceLimit "candidate link count exceeds the limit"
  else if negb (hop_count c =? size (path_links c)) then
    malformed "candidate hop count must equal its link count"
  else if max_policies_per_candidate limits <? size (path_policies c) then
    Failure ErrorCode.ResourceLimit "candidate policy attestations exceed the limit"
  else
    let+ _ := validate_nodes limits [] (path_nodes c) in
    let+ _ := validate_links limits (path_nodes c) (path_links c) in
    let+ _ := validate_latency c in
    if has_planner_cost c && eeqb (cost_model c) PlannerCostModel.None then
      malformed "a planner cost must declare its cost model"
    else if negb (has_planner_cost c) && negb (eeqb (cost_model c) PlannerCostModel.None) then
      malformed "a cost model without a planner cost is ambiguous"
    else if negb (sorted_unique generation_ref_less (path_policies c)) then
      malformed "candidate policy attestations are not canonical"
    else success.

(** ** Canonicalization *)

Definition sort_domain_refs (refs : list DomainRef) : list DomainRef :=
  unique_by domain_ref_eqb (stable_sort domain_ref_less refs).
Definition sort_generation_refs (refs : list GenerationRef) : list GenerationRef :=
  unique_by generation_ref_eqb (stable_sort generation_ref_less refs).

(** The loop of [canonicalize_refs]; [back] is [canonical.back()]. *)
Fixpoint merge_refs (what : string) (back : option GenerationRef) (values : list GenerationRef)
    : Result (list GenerationRef) :=
  match values with
  | [] => Success []
  | value :: rest =>
      match back with
      | Some b =>
          if generation_ref_eqb b value then merge_refs what back rest
          else if ref_identity b =? ref_identity value then
            Failure ErrorCode.Malformed
              ("contradictory " ++ what ++ " evidence: same identity, different generation")
          else let+ canonical := merge_refs what (Some value) rest in
               Success (value :: canonical)
      | None =>
          let+ canonical := merge_refs what (Some value) rest in Success (value :: canonical)
      end
  end.

Definition canonicalize_refs (values : list GenerationRef) (what : string)
    : Result (list GenerationRef) :=
  merge_refs what None (stable_sort generation_ref_less values).

Definition canonicalize_node (limits : Limits) (n : NodeFact) : Result NodeFact :=
  if max_localities_per_entity limits <? size (localities n) then
    Failure ErrorCode.ResourceLimit "node locality membership exceeds the limit"
  else if max_domains_per_entity limits <? size (node_domains n) then
    Failure ErrorCode.ResourceLimit "node failure-domain membership exceeds the limit"
  else if max_capabilities_per_entity limits <? size (node_capabilities n) then
    Failure ErrorCode.ResourceLimit "node capability evidence exceeds the limit"
  else
    let+ capabilities := canonicalize_refs (node_capabilities n) "capability" in
    Success (mkNode (node n) (tier n) (site n) (sort_domain_refs (localities n))
      (sort_domain_refs (node_domains n)) capabilities
      (sort_generation_refs (node_isolation n))).

Definition canonicalize_link (limits : Limits) (l : LinkFact) : Result LinkFact :=
  if max_domains_per_entity limits <? size (link_domains l) then
    Failure ErrorCode.ResourceLimit "link failure-domain membership exceeds the limit"
  else if max_capabilities_per_entity limits <? size (link_capabilities l) then
    Failure ErrorCode.ResourceLimit "link capability evidence exceeds the limit"
  else
    let+ capabilities := canonicalize_refs (link_capabilities l) "capability" in
    Success (mkLink (link l) (endpoint_a l) (endpoint_b l) (bandwidth l)
      (sort_domain_refs (link_domains l)) capabilities
      (sort_generation_refs (link_isolation l))).

(** [for (T& x : xs) { status = f(x); if (!status.ok()) return status; }] *)
Fixpoint update_each {A} (f : A → Result A) (xs : list A) : Result (list A) :=
  match xs with
  | [] => Success []
  | x :: rest => let+ y := f x in let+ ys := update_each f rest in Success (y :: ys)
  end.

(** The candidate after canonicalization, or the status; what a failed call
    leaves in its argument is not used by any caller. *)
Definition canonicalize_candidate (c : CandidatePath) (limits : Limits) : Result CandidatePath :=
  if negb (is_valid (path c)) || negb (is_valid (authority_generation c)) then
    Failure ErrorCode.InvalidArgument "candidate identity must be non-zero"
  else if (size (path_nodes c) <? 2) || (max_nodes_per_candidate limits <? size (path_nodes c)) then
    Failure ErrorCode.ResourceLimit "candidate node count is out of range"
  else if negb (size (path_links c) + 1 =? size (path_nodes c)) ||
          (max_links_per_candidate limits <? size (path_links c)) then
    Failure ErrorCode.Malformed "candidate links must exactly connect its consecutive nodes"
  else
    let+ nodes := update_each (canonicalize_node limits) (path_nodes c) in
    let+ links := update_each (canonicalize_link limits) (path_links c) in
    let+ policies := canonicalize_refs (path_policies c) "policy" in
    let canonical := mkCandidate (path c) (authority_generation c) (authority_verdict c)
      (planner_generation c) (has_planner_rank c) (planner_rank c) (has_planner_cost c)
      (planner_cost c) (cost_model c) (wrap 32 (size (path_links c))) nodes links (latency c)
      policies (evidence c) in
    let+ _ := validate_candidate canonical limits in
    Success canonical.

(** ** Bottleneck bandwidth *)

(** The loop over links: [first] and [bottleneck] are the loop variables. *)
Fixpoint bottleneck_loop (required : Z) (first : bool) (bottleneck : Z) (ls : list LinkFact)
    : option Z :=
  match ls with
  | [] => Some bottleneck
  | l :: rest =>
      let b := bandwidth l in
      if eeqb (model b) CapabilityModel.None || negb (bandwidth_generation b =? required) then None
      else if bits_per_second b <? 0 then None
      else
        bottleneck_loop required false
          (if first || (bits_per_second b <? bottleneck) then bits_per_second b else bottleneck) rest
  end.

Definition path_bandwidth_capability (c : CandidatePath) (required : Z) : option Z :=
  if empty (path_links c) || negb (is_valid required) then None
  else bottleneck_loop required true 0 (path_links c).

(** ** Digest *)

Definition feed_domain (ref : DomainRef) : hashing :=
  hash_u8 (code (ref_kind ref)) ++ hash_u64 (ref_domain ref).
Definition feed_generation_ref (ref : GenerationRef) : hashing :=
  hash_u64 (ref_identity ref) ++ hash_u64 (ref_generation ref).

(** [put_u32(size)] then every element. *)
Definition hash_counted {A} (f : A → hashing) (xs : list A) : hashing :=
  hash_u32 (wrap 32 (size xs)) ++ hash_each f xs.

Definition feed_evidence (e : EvidenceGenerationSet) : hashing :=
  hash_u64 (topology e) ++ hash_u64 (link_state e) ++ hash_u64 (capability e) ++
  hash_u64 (failure_domain e) ++ hash_u64 (policy e) ++ hash_u64 (planner e) ++
  hash_u64 (path_authority e) ++ hash_u32 (consulted e).

Definition feed_node (n : NodeFact) : hashing :=
  hash_u64 (node n) ++ hash_u64 (tier n) ++ hash_u64 (site n) ++
  hash_counted feed_domain (localities n) ++ hash_counted feed_domain (node_domains n) ++
  hash_counted feed_generation_ref (node_capabilities n) ++
  hash_counted feed_generation_ref (node_isolation n).

Definition feed_link (l : LinkFact) : hashing :=
  hash_u64 (link l) ++ hash_u64 (endpoint_a l) ++ hash_u64 (endpoint_b l) ++
  hash_u8 (code (model (bandwidth l))) ++ hash_u8 (code (bandwidth_provenance (bandwidth l))) ++
  hash_i64 (bits_per_second (bandwidth l)) ++ hash_u64 (bandwidth_generation (bandwidth l)) ++
  hash_counted feed_domain (link_domains l) ++
  hash_counted feed_generation_ref (link_capabilities l) ++
  hash_counted feed_generation_ref (link_isolation l).

Definition feed_candidate (c : CandidatePath) : hashing :=
  hash_u64 (path c) ++ hash_u64 (authority_generation c) ++
  hash_u8 (code (authority_verdict c)) ++ hash_u64 (planner_generation c) ++
  hash_bool (has_planner_rank c) ++ hash_u32 (planner_rank c) ++
  hash_bool (has_planner_cost c) ++ hash_i64 (planner_cost c) ++
  hash_u8 (code (cost_model c)) ++ hash_u32 (hop_count c) ++
  hash_counted feed_node (path_nodes c) ++ hash_counted feed_link (path_links c) ++
  hash_u8 (code (source (latency c))) ++ hash_u8 (code (latency_provenance (latency c))) ++
  hash_i64 (micros (latency c)) ++ hash_u64 (latency_planner_generation (latency c)) ++
  hash_u64 (observed_generation (latency c)) ++
  hash_counted feed_generation_ref (path_policies c) ++ feed_evidence (evidence c).

Definition candidate_digest (c : CandidatePath) : Digest256 :=
  digest_of "crf.candidate.v1" (feed_candidate c).

(** ** Orders *)

Definition candidate_canonical_less (a b : CandidatePath) : bool := path a <? path b.

Definition compare_node_sequences (a b : CandidatePath) : Z :=
  cmp_list cmp_Z (map node (path_nodes a)) (map node (path_nodes b)).

(** ** Wire encoding *)

(** [put_u32(size)] then every element; [bounded_length] then every element. *)
Definition write_counted {A} (f : A → writing) (xs : list A) : writing :=
  put_u32 (wrap 32 (size xs)) ;;> put_each f xs.
Definition read_counted {A} (f : reader A) (max : Z) : reader (list A) :=
  count ← bounded_length max; read_each f count.

(** [put_u8(0); put_u16(0); put_u32(0)]. *)
Definition write_domain (ref : DomainRef) : writing :=
  put_u8 (code (ref_kind ref)) ;;> put_u8 0 ;;> put_u16 0 ;;> put_u32 0 ;;>
  put_u64 (ref_domain ref).

(** A zero domain makes the function return [false] without failing the reader. *)
Definition read_domain : reader DomainRef :=
  kind ← u8; padding ← u8; padding16 ← u16; padding32 ← u32; domain ← u64;
  _ ← fail_if (negb (padding =? 0) || negb (padding16 =? 0) || negb (padding32 =? 0) ||
               (kind =? 0) || (7 <? kind));
  if negb (domain =? 0) then mret (mkDomainRef (of_code kind) domain) else return_false.

Definition write_generation_ref (ref : GenerationRef) : writing :=
  put_u64 (ref_identity ref) ;;> put_u64 (ref_generation ref).

Definition read_generation_ref : reader GenerationRef :=
  identity ← u64; generation ← u64;
  _ ← fail_if ((identity =? 0) || negb (is_representable generation));
  mret (mkGenerationRef identity generation).

Definition write_node (n : NodeFact) : writing :=
  put_u64 (node n) ;;> put_u64 (tier n) ;;> put_u64 (site n) ;;>
  write_counted write_domain (localities n) ;;> write_counted write_domain (node_domains n) ;;>
  write_counted write_generation_ref (node_capabilities n) ;;>
  write_counted write_generation_ref (node_isolation n).

Definition write_link (l : LinkFact) : writing :=
  put_u64 (link l) ;;> put_u64 (endpoint_a l) ;;> put_u64 (endpoint_b l) ;;>
  put_u8 (code (model (bandwidth l))) ;;> put_u8 (code (bandwidth_provenance (bandwidth l))) ;;>
  put_u16 0 ;;> put_u32 0 ;;> put_i64 (bits_per_second (bandwidth l)) ;;>
  put_u64 (bandwidth_generation (bandwidth l)) ;;>
  put_u64 (bandwidth_observed_tick (bandwidth l)) ;;>
  write_counted write_domain (link_domains l) ;;>
  write_counted write_generation_ref (link_capabilities l) ;;>
  write_counted write_generation_ref (link_isolation l).

Definition encode_candidate (c : CandidatePath) : writing :=
  put_u64 (path c) ;;> put_u64 (authority_generation c) ;;>
  put_u8 (code (authority_verdict c)) ;;> put_u8 0 ;;> put_u16 0 ;;> put_u32 0 ;;>
  put_u64 (planner_generation c) ;;> put_bool (has_planner_rank c) ;;>
  put_u32 (planner_rank c) ;;> put_bool (has_planner_cost c) ;;> put_i64 (planner_cost c) ;;>
  put_u8 (code (cost_model c)) ;;> put_u8 0 ;;> put_u16 0 ;;> put_u32 (hop_count c) ;;>
  write_counted write_node (path_nodes c) ;;> write_counted write_link (path_links c) ;;>
  put_u8 (code (source (latency c))) ;;> put_u8 (code (latency_provenance (latency c))) ;;>
  put_u16 0 ;;> put_u32 0 ;;> put_i64 (micros (latency c)) ;;>
  put_u64 (latency_planner_generation (latency c)) ;;>
  put_u64 (observed_generation (latency c)) ;;> put_u64 (latency_observed_tick (latency c)) ;;>
  write_counted write_generation_ref (path_policies c) ;;>
  put_u64 (topology (evidence c)) ;;> put_u64 (link_state (evidence c)) ;;>
  put_u64 (capability (evidence c)) ;;> put_u64 (failure_domain (evidence c)) ;;>
  put_u64 (policy (evidence c)) ;;> put_u64 (planner (evidence c)) ;;>
  put_u64 (path_authority (evidence c)) ;;> put_u32 (consulted (evidence c)) ;;>
  put_u64 (captured_tick (evidence c)).

Definition read_generation_field : reader Z :=
  raw ← u64;
  if raw =? 0 then mret 0
  else (_ ← fail_if (negb (is_representable raw)); mret raw).

Definition read_node (limits : Limits) : reader NodeFact :=
  node_id ← u64; tier ← u64; site ← u64;
  _ ← fail_if (node_id =? 0);
  localities ← read_counted read_domain (max_localities_per_entity limits);
  domains ← read_counted read_domain (max_domains_per_entity limits);
  capabilities ← read_counted read_generation_ref (max_capabilities_per_entity limits);
  isolation ← read_counted read_generation_ref (max_capabilities_per_entity limits);
  mret (mkNode node_id tier site localities domains capabilities isolation).

Definition read_link (limits : Limits) : reader LinkFact :=
  link_id ← u64; endpoint_a ← u64; endpoint_b ← u64; model ← u8; provenance ← u8;
  padding16 ← u16; padding32 ← u32;
  _ ← fail_if ((link_id =? 0) || (endpoint_a =? 0) || (endpoint_b =? 0) || (2 <? model) ||
               (8 <? provenance) || negb (padding16 =? 0) || negb (padding32 =? 0));
  bits ← i64; generation ← read_generation_field; observed_tick ← u64;
  domains ← read_counted read_domain (max_domains_per_entity limits);
  capabilities ← read_counted read_generation_ref (max_capabilities_per_entity limits);
  isolation ← read_counted read_generation_ref (max_capabilities_per_entity limits);
  mret (mkLink link_id endpoint_a endpoint_b
    (mkBandwidth (of_code model) (of_code provenance) bits generation observed_tick)
    domains capabilities isolation).

Definition read_latency : reader LatencyEvidence :=
  latency_source ← u8; latency_provenance ← u8; padding16 ← u16; padding32 ← u32;
  _ ← fail_if ((2 <? latency_source) || (8 <? latency_provenance) || negb (padding16 =? 0) ||
               negb (padding32 =? 0));
  micros ← i64; planner_generation ← read_generation_field;
  observed_generation ← read_generation_field; observed_tick ← u64;
  mret (mkLatency (of_code latency_source) (of_code latency_provenance) micros
    planner_generation observed_generation observed_tick).

Definition read_evidence : reader EvidenceGenerationSet :=
  topology ← read_generation_field; link_state ← read_generation_field;
  capability ← read_generation_field; failure_domain ← read_generation_field;
  policy ← read_generation_field; planner ← read_generation_field;
  path_authority ← read_generation_field; consulted ← u32; captured_tick ← u64;
  mret (mkEvidence topology link_state capability failure_domain policy planner path_authority
    consulted captured_tick).

(** [if (!reader.ok()) return false;] *)
Definition require_ok : reader unit := λ r, if negb (ok_ r) then (None, r) else (Some (), r).

Definition decode_candidate (limits : Limits) : reader CandidatePath :=
  path ← u64; authority_generation ← u64; verdict ← u8; padding8 ← u8; padding16 ← u16;
  padding32 ← u32;
  _ ← fail_if ((path =? 0) || negb (is_representable authority_generation) || (2 <? verdict) ||
               negb (padding8 =? 0) || negb (padding16 =? 0) || negb (padding32 =? 0));
  planner_generation ← read_generation_field; has_planner_rank ← boolean; planner_rank ← u32;
  has_planner_cost ← boolean; planner_cost ← i64;
  cost_model ← u8; cost_padding8 ← u8; cost_padding16 ← u16; hop_count ← u32;
  _ ← fail_if ((3 <? cost_model) || negb (cost_padding8 =? 0) || negb (cost_padding16 =? 0));
  nodes ← read_counted (read_node limits) (max_nodes_per_candidate limits);
  links ← read_counted (read_link limits) (max_links_per_candidate limits);
  latency ← read_latency;
  policies ← read_counted read_generation_ref (max_policies_per_candidate limits);
  evidence ← read_evidence;
  _ ← require_ok;
  let out := mkCandidate path authority_generation (of_code verdict) planner_generation
    has_planner_rank planner_rank has_planner_cost planner_cost (of_code cost_model) hop_count
    nodes links latency policies evidence in
  _ ← fail_if (negb (ok (validate_candidate out limits)));
  mret out.

(** ** Lemmas: the orders of references *)

Definition domain_ref_cmp (a b : DomainRef) : Z :=
  cmp_step (code (ref_kind a)) (code (ref_kind b)) (cmp_step (ref_domain a) (ref_domain b) 0).
Definition generation_ref_cmp (a b : GenerationRef) : Z :=
  cmp_step (ref_identity a) (ref_identity b)
    (cmp_step (ref_generation a) (ref_generation b) 0).

#[export] Instance domain_ref_cmp_order : CmpOrder domain_ref_cmp.
Proof. refine (cmp_step_order (λ r, code (ref_kind r)) _ _). Qed.
#[export] Instance generation_ref_cmp_order : CmpOrder generation_ref_cmp.
Proof. refine (cmp_step_order ref_identity _ _). Qed.

Lemma domain_ref_less_cmp a b : domain_ref_less a b = (domain_ref_cmp a b <? 0).
Proof. unfold domain_ref_less, domain_ref_cmp, cmp_step, eeqb. ifs_lia. Qed.
Lemma generation_ref_less_cmp a b : generation_ref_less a b = (generation_ref_cmp a b <? 0).
Proof. unfold generation_ref_less, generation_ref_cmp, cmp_step. ifs_lia. Qed.

Lemma domain_ref_cmp_eq a b : domain_ref_cmp a b = 0 → a = b.
Proof.
  unfold domain_ref_cmp. rewrite !cmp_step_zero. intros (H1 & H2 & _).
  apply code_inj in H1. destruct a, b; simpl in *; congruence.
Qed.
Lemma generation_ref_cmp_eq a b : generation_ref_cmp a b = 0 → a = b.
Proof.
  unfold generation_ref_cmp. rewrite !cmp_step_zero. intros (H1 & H2 & _).
  destruct a, b; simpl in *; congruence.
Qed.

Lemma domain_ref_eqb_eq a b : domain_ref_eqb a b = true ↔ a = b.
Proof.
  unfold domain_ref_eqb. rewrite andb_true_iff, eeqb_eq, Z.eqb_eq.
  destruct a, b; simpl; naive_solver.
Qed.
Lemma generation_ref_eqb_eq a b : generation_ref_eqb a b = true ↔ a = b.
Proof.
  unfold generation_ref_eqb. rewrite andb_true_iff, !Z.eqb_eq.
  destruct a, b; simpl; naive_solver.
Qed.

(** ** Lemmas: canonical vectors *)

Lemma sort_domain_refs_elem x l : x ∈ sort_domain_refs l ↔ x ∈ l.
Proof.
  unfold sort_domain_refs. rewrite (unique_by_elem _ domain_ref_eqb_eq). apply stable_sort_elem.
Qed.

Lemma sort_domain_refs_sorted l :
  sorted_unique domain_ref_less (sort_domain_refs l) = true.
Proof.
  apply (sorted_unique_spec _ domain_ref_cmp domain_ref_less_cmp).
  apply (unique_by_sorted domain_ref_cmp _ domain_ref_eqb_eq domain_ref_cmp_eq).
  apply (stable_sort_sorted _ domain_ref_cmp domain_ref_less_cmp).
Qed.

Lemma sort_domain_refs_id l :
  sorted_unique domain_ref_less l = true → sort_domain_refs l = l.
Proof.
  intros H. apply (sorted_unique_spec _ domain_ref_cmp domain_ref_less_cmp) in H.
  unfold sort_domain_refs.
  rewrite (stable_sort_strict_id _ domain_ref_cmp domain_ref_less_cmp) by done.
  by apply (unique_by_id domain_ref_cmp _ domain_ref_eqb_eq).
Qed.

Lemma sort_domain_refs_perm l1 l2 : l1 ≡ₚ l2 → sort_domain_refs l1 = sort_domain_refs l2.
Proof.
  intros Hp. unfold sort_domain_refs. f_equal.
  apply (stable_sort_perm_eq _ domain_ref_cmp domain_ref_less_cmp); [|done].
  intros. by apply domain_ref_cmp_eq.
Qed.

Lemma sort_generation_refs_sorted l :
  sorted_unique generation_ref_less (sort_generation_refs l) = true.
Proof.
  apply (sorted_unique_spec _ generation_ref_cmp generation_ref_less_cmp).
  apply (unique_by_sorted generation_ref_cmp _ generation_ref_eqb_eq generation_ref_cmp_eq).
  apply (stable_sort_sorted _ generation_ref_cmp generation_ref_less_cmp).
Qed.

Lemma sort_generation_refs_id l :
  sorted_unique generation_ref_less l = true → sort_generation_refs l = l.
Proof.
  intros H. apply (sorted_unique_spec _ generation_ref_cmp generation_ref_less_cmp) in H.
  unfold sort_generation_refs.
  rewrite (stable_sort_strict_id _ generation_ref_cmp generation_ref_less_cmp) by done.
  by apply (unique_by_id generation_ref_cmp _ generation_ref_eqb_eq).
Qed.

Lemma generation_refs_sort_perm l1 l2 :
  l1 ≡ₚ l2 → stable_sort generation_ref_less l1 = stable_sort generation_ref_less l2.
Proof.
  intros Hp. apply (stable_sort_perm_eq _ generation_ref_cmp generation_ref_less_cmp); [|done].
  intros. by apply generation_ref_cmp_eq.
Qed.

Lemma sort_generation_refs_perm l1 l2 :
  l1 ≡ₚ l2 → sort_generation_refs l1 = sort_generation_refs l2.
Proof. intros Hp. unfold sort_generation_refs. f_equal. by apply generation_refs_sort_perm. Qed.

Lemma unique_by_length {A} (eqb : A → A → bool) l : (length (unique_by eqb l) <= length l)%nat.
Proof.
  induction l as [|x l IH]; simpl; [lia|].
  destruct (unique_by eqb l) as [|z r]; simpl in *; [lia|]. destruct (eqb x z); simpl; lia.
Qed.

Lemma sort_domain_refs_size l : size (sort_domain_refs l) <= size l.
Proof.
  unfold size, sort_domain_refs. pose proof (unique_by_length domain_ref_eqb
    (stable_sort domain_ref_less l)). rewrite stable_sort_length in *. lia.
Qed.

(** One generation per identity, identities ascending. *)
Definition strict_refs (l : list GenerationRef) : Prop :=
  StronglySorted (λ a b, ref_identity a < ref_identity b) l.

Lemma generation_ref_cmp_le a b :
  generation_ref_cmp a b <= 0 → ref_identity a <= ref_identity b.
Proof. unfold generation_ref_cmp, cmp_step. ifs_lia. Qed.
Lemma generation_ref_cmp_lt a b :
  ref_identity a < ref_identity b → generation_ref_cmp a b < 0.
Proof. unfold generation_ref_cmp, cmp_step. ifs_lia. Qed.

Lemma strict_refs_sorted l : strict_refs l → StronglySorted (λ a b, generation_ref_cmp a b < 0) l.
Proof.
  induction 1 as [|x l Hl IH Hx]; constructor; [done|].
  eapply Forall_impl; [exact Hx|]. intros y. apply generation_ref_cmp_lt.
Qed.

Lemma merge_refs_spec what vs : ∀ back out,
  StronglySorted (λ a b, generation_ref_cmp a b <= 0) vs →
  (∀ b, back = Some b → Forall (λ v, generation_ref_cmp b v <= 0) vs) →
  merge_refs what back vs = Success out →
  strict_refs out ∧ (∀ b, back = Some b → Forall (λ x, ref_identity b < ref_identity x) out) ∧
  (∀ x, (x ∈ out ∨ back = Some x) ↔ (x ∈ vs ∨ back = Some x)) ∧
  (length out <= length vs)%nat.
Proof.
  induction vs as [|v vs IH]; intros back out Hs Hb; cbn [merge_refs].
  { intros [= <-]. split_and!; [constructor|constructor|done|done]. }
  inversion Hs as [|? ? Hs' Hv]; subst.
  assert (∀ out', merge_refs what (Some v) vs = Success out' → out = v :: out' →
    (∀ b, back = Some b → ref_identity b < ref_identity v) →
    strict_refs out ∧ (∀ b, back = Some b → Forall (λ x, ref_identity b < ref_identity x) out) ∧
    (∀ x, (x ∈ out ∨ back = Some x) ↔ (x ∈ v :: vs ∨ back = Some x)) ∧
    (length out <= length (v :: vs))%nat) as Hpush.
  { intros out' E -> Hlt.
    destruct (IH (Some v) out') as (H1 & H2 & H3 & H4); [done|by intros ? [= <-]|done|].
    specialize (H2 v eq_refl). split_and!.
    - by constructor.
    - intros b Hbb. specialize (Hlt b Hbb). constructor; [done|].
      eapply Forall_impl; [exact H2|]. simpl. lia.
    - intros x. specialize (H3 x). rewrite !elem_of_cons. naive_solver.
    - simpl. lia. }
  destruct back as [b|]; [|intros H; apply rbind_Success in H as (o & E & [= <-]); by eapply Hpush].
  specialize (Hb b eq_refl). apply Forall_cons in Hb as [Hbv Hb].
  destruct (generation_ref_eqb b v) eqn:Eq.
  { apply generation_ref_eqb_eq in Eq as ->. intros E.
    destruct (IH (Some v) out) as (H1 & H2 & H3 & H4); [done|by intros ? [= <-]|done|].
    split_and!; try done.
    - intros x. rewrite elem_of_cons, H3. naive_solver.
    - simpl. lia. }
  destruct (ref_identity b =? ref_identity v) eqn:Ei; [done|].
  intros H. apply rbind_Success in H as (o & E & [= <-]). eapply Hpush; [done|done|].
  intros ? [= <-]. apply generation_ref_cmp_le in Hbv. lia.
Qed.

Lemma canonicalize_refs_spec what l out :
  canonicalize_refs l what = Success out →
  strict_refs out ∧ (∀ x, x ∈ out ↔ x ∈ l) ∧ size out <= size l.
Proof.
  intros E. unfold canonicalize_refs in E.
  destruct (merge_refs_spec what (stable_sort generation_ref_less l) None out) as (H1 & _ & H3 & H4);
    [|done|done|].
  - apply (stable_sort_sorted _ generation_ref_cmp generation_ref_less_cmp).
  - split_and!; [done| |].
    + intros x. rewrite <- (stable_sort_elem generation_ref_less x l). naive_solver.
    + unfold size. rewrite stable_sort_length in H4. lia.
Qed.

Lemma merge_refs_strict what back l :
  strict_refs l → (∀ b, back = Some b → Forall (λ x, ref_identity b < ref_identity x) l) →
  merge_refs what back l = Success l.
Proof.
  revert back. induction l as [|v l IH]; intros back Hs Hb; [done|]. cbn [merge_refs].
  inversion Hs as [|? ? Hs' Hv]; subst.
  assert (merge_refs what (Some v) l = Success l) as -> by (apply IH; [done|by intros ? [= <-]]).
  destruct back as [b|]; [|done]. specialize (Hb b eq_refl). apply Forall_cons in Hb as [Hb _].
  unfold generation_ref_eqb. destruct (ref_identity b =? ref_identity v) eqn:E; [lia|]. done.
Qed.

Lemma canonicalize_refs_id what l : strict_refs l → canonicalize_refs l what = Success l.
Proof.
  intros H. unfold canonicalize_refs.
  rewrite (stable_sort_strict_id _ generation_ref_cmp generation_ref_less_cmp)
    by by apply strict_refs_sorted.
  by apply merge_refs_strict.
Qed.

(** ** Lemmas: what validation establishes *)

Definition refs_ok (refs : list DomainRef) : Prop :=
  sorted_unique domain_ref_less refs = true ∧
  Forall (λ r, ref_kind r ≠ DomainKind.Unset ∧ ref_domain r ≠ 0) refs.

Record node_ok (limits : Limits) (n : NodeFact) : Prop := {
  node_ok_id : node n ≠ 0;
  node_ok_sizes : size (localities n) <= max_localities_per_entity limits ∧
    size (node_domains n) <= max_domains_per_entity limits ∧
    size (node_capabilities n) <= max_capabilities_per_entity limits;
  node_ok_localities : refs_ok (localities n);
  node_ok_domains : refs_ok (node_domains n);
  node_ok_capabilities : sorted_unique generation_ref_less (node_capabilities n) = true;
  node_ok_isolation : sorted_unique generation_ref_less (node_isolation n) = true
}.

Record link_ok (limits : Limits) (l : LinkFact) : Prop := {
  link_ok_id : link l ≠ 0;
  link_ok_sizes : size (link_domains l) <= max_domains_per_entity limits ∧
    size (link_capabilities l) <= max_capabilities_per_entity limits;
  link_ok_domains : sorted_unique domain_ref_less (link_domains l) = true;
  link_ok_capabilities : sorted_unique generation_ref_less (link_capabilities l) = true;
  link_ok_isolation : sorted_unique generation_ref_less (link_isolation l) = true;
  link_ok_bandwidth : model (bandwidth l) ≠ CapabilityModel.None →
    0 <= bits_per_second (bandwidth l) ∧ bandwidth_generation (bandwidth l) ≠ 0
}.

(** The links join the consecutive nodes, in either orientation. *)
Fixpoint joined (ns : list NodeFact) (ls : list LinkFact) {struct ls} : Prop :=
  match ls, ns with
  | [], _ => True
  | l :: ls', n1 :: ((n2 :: _) as ns') =>
      ((endpoint_a l = node n1 ∧ endpoint_b l = node n2) ∨
       (endpoint_a l = node n2 ∧ endpoint_b l = node n1)) ∧ joined ns' ls'
  | _ :: _, _ => False
  end.

Definition latency_ok (c : CandidatePath) : Prop :=
  source (latency c) ≠ LatencySource.Unset →
  0 <= micros (latency c) <= kMaxFixedPointBound ∧
  (source (latency c) = LatencySource.PlannerCost →
    latency_planner_generation (latency c) ≠ 0 ∧
    latency_planner_generation (latency c) = planner (evidence c)) ∧
  (source (latency c) = LatencySource.ObservedLatency →
    observed_generation (latency c) ≠ 0 ∧
    observed_generation (latency c) = link_state (evidence c)).

(** A well-formed candidate: a simple path of at least two nodes whose links
    join its consecutive nodes, with canonical evidence. *)
Record well_formed (limits : Limits) (c : CandidatePath) : Prop := {
  wf_path : path c ≠ 0;
  wf_authority : authority_generation c ≠ 0 ∧
    path_authority (evidence c) = authority_generation c;
  wf_nodes_size : 2 <= size (path_nodes c) <= max_nodes_per_candidate limits;
  wf_links_size : size (path_links c) = size (path_nodes c) - 1 ∧
    size (path_links c) <= max_links_per_candidate limits;
  wf_hop_count : hop_count c = size (path_links c);
  wf_nodes : Forall (node_ok limits) (path_nodes c);
  wf_simple : NoDup (map node (path_nodes c));
  wf_links : Forall (link_ok limits) (path_links c);
  wf_joined : joined (path_nodes c) (path_links c);
  wf_latency : latency_ok c;
  wf_cost : has_planner_cost c = true ↔ cost_model c ≠ PlannerCostModel.None;
  wf_policies : sorted_unique generation_ref_less (path_policies c) = true ∧
    size (path_policies c) <= max_policies_per_candidate limits
}.

Lemma domain_refs_valid_spec refs :
  domain_refs_valid refs = true ↔
  Forall (λ r, ref_kind r ≠ DomainKind.Unset ∧ ref_domain r ≠ 0) refs.
Proof.
  unfold domain_refs_valid. rewrite list_forallb_Forall.
  apply Forall_iff. intros r. cbv beta.
  rewrite negb_true_iff, orb_false_iff, negb_false_iff, eeqb_neq, is_valid_true. done.
Qed.

Lemma validate_nodes_spec limits ns : ∀ seen,
  ok (validate_nodes limits seen ns) = true ↔
  Forall (node_ok limits) ns ∧ NoDup (map node ns) ∧ (∀ n, n ∈ ns → node n ∉ seen).
Proof.
  induction ns as [|n ns IH]; intros seen; cbn [validate_nodes].
  { split; [intros _; split_and!; [constructor|constructor|set_solver]|done]. }
  unfold malformed. rewrite !ok_if, IH, !orb_false_iff, !negb_false_iff, !domain_refs_valid_spec,
    list_existsb_false, is_valid_true, !Z.ltb_ge.
  rewrite Forall_cons. cbn [map]. rewrite NoDup_cons. split.
  - intros (Hid & Hseen & (Hs1 & Hs2) & Hc & Hl & Hd & Hns & Hnd & Hrest).
    decompose [and] Hc. decompose [and] Hs1. split_and!; try done.
    + intros Hin. apply list_elem_of_fmap in Hin as (m & Hm & Hin). apply (Hrest m Hin). set_solver.
    + intros m [->|Hm]%elem_of_cons; [|specialize (Hrest m Hm); set_solver].
      intros Hin. specialize (Hseen _ Hin). lia.
  - intros ([[H1 (H2 & H3 & H4) [H5 H5'] [H6 H6'] H7 H8] Hns] & [Hnin Hnd] & Hseen).
    split_and!; try done.
    + intros m Hm. specialize (Hseen n (list_elem_of_here _ _)). apply Z.eqb_neq. by intros ->.
    + intros m Hm. rewrite elem_of_app, list_elem_of_singleton. intros [Hin|E].
      * apply (Hseen m); [by apply list_elem_of_further|done].
      * apply Hnin. rewrite <- E. by apply list_elem_of_fmap_2.
Qed.

Lemma validate_links_spec limits ls : ∀ ns,
  length ns = S (length ls) →
  ok (validate_links limits ns ls) = true ↔ Forall (link_ok limits) ls ∧ joined ns ls.
Proof.
  induction ls as [|l ls IH]; intros ns Hlen; cbn [validate_links joined].
  { rewrite Forall_nil. done. }
  destruct ns as [|n1 [|n2 ns]]; [done|done|].
  unfold malformed. rewrite !ok_if, IH by (simpl in *; lia).
  rewrite !orb_false_iff, !negb_false_iff, is_valid_true, !Z.ltb_ge, Forall_cons, andb_false_iff,
    negb_false_iff, orb_false_iff, negb_false_iff, is_valid_true, eeqb_eq, Z.ltb_ge.
  unfold same_endpoints. rewrite orb_true_iff, !andb_true_iff, !Z.eqb_eq. split.
  - intros (Hid & Hj & Hs & ((Hd & Hc) & Hi) & Hb & Hls & Hjs). split_and!; try done.
    split; try done. intros Hm. destruct Hb as [|[Hb1 Hb2]]; done.
  - intros ([[H1 [H2 H2'] H3 H4 H5 H6] Hls] & Hj & Hjs). split_and!; try done.
    destruct (decide (code (model (bandwidth l)) = code CapabilityModel.None)) as [E|E].
    + left. by apply code_inj.
    + right. apply H6. congruence.
Qed.

Lemma validate_latency_spec c : ok (validate_latency c) = true ↔ latency_ok c.
Proof.
  unfold validate_latency, latency_ok, malformed. cbv zeta.
  destruct (eeqb (source (latency c)) LatencySource.Unset) eqn:E.
  { apply eeqb_eq in E. rewrite E. split; done. }
  apply eeqb_neq in E.
  rewrite !ok_if, !orb_false_iff, !Z.ltb_ge, !andb_false_iff, !eeqb_neq, !negb_false_iff,
    !is_valid_true, !Z.eqb_eq. split.
  - intros (H1 & H2 & H3 & H4 & H5 & _) _. split_and!; [lia..| |];
      intros Hs; rewrite Hs in *; naive_solver.
  - intros H. specialize (H E) as (H1 & H2 & H3).
    split_and!; try lia; destruct (source (latency c)); naive_solver.
Qed.

Lemma validate_candidate_wf c limits :
  ok (validate_candidate c limits) = true ↔ well_formed limits c.
Proof.
  unfold validate_candidate, malformed.
  rewrite !ok_if, !ok_rbind, !ok_if, validate_latency_spec, validate_nodes_spec.
  rewrite !negb_false_iff, !is_valid_true, !Z.ltb_ge, !Z.eqb_eq, !andb_false_iff,
    !negb_false_iff, eeqb_eq, eeqb_neq. split.
  - intros (H1 & H2 & H3 & H4 & H5 & H6 & H7 & H8 & H9 & (H10 & H11 & _) & H12 & H13 & H14 & H15 & H16 & _).
    apply validate_links_spec in H12 as [H12 H12']; [|unfold size in *; lia].
    split; try done; try lia. destruct (has_planner_cost c); naive_solver.
  - intros [H1 [H2 H3] [H4 H5] [H6 H7] H8 H9 H10 H11 H12 H13 H14 [H15 H16]].
    split_and!; try done; try lia.
    + set_solver.
    + apply validate_links_spec; [unfold size in *; lia|done].
    + destruct (has_planner_cost c); [right|by left]. by apply H14.
    + destruct (has_planner_cost c); [by left|right].
      destruct (decide (code (cost_model c) = code PlannerCostModel.None)) as [E|E].
      * by apply code_inj.
      * assert (false = true); [|done]. apply H14. congruence.
Qed.

(** ** Lemmas: canonicalization *)

Lemma update_each_Forall2 {A} (f : A → Result A) xs ys :
  update_each f xs = Success ys → Forall2 (λ x y, f x = Success y) xs ys.
Proof.
  revert ys. induction xs as [|x xs IH]; simpl; intros ys.
  { intros [= <-]. constructor. }
  intros H. apply rbind_Success in H as (y & Hy & H).
  apply rbind_Success in H as (ys' & Hys & [= <-]). constructor; auto.
Qed.

Lemma update_each_id {A} (f : A → Result A) xs :
  Forall (λ x, f x = Success x) xs → update_each f xs = Success xs.
Proof. induction 1 as [|x xs Hx _ IH]; simpl; [done|]. by rewrite Hx, IH. Qed.

Lemma update_each_ext {A} (f : A → Result A) (R : A → A → Prop) xs ys :
  (∀ x y, R x y → f x = f y) → Forall2 R xs ys → update_each f xs = update_each f ys.
Proof.
  intros Hf. induction 1 as [|x y xs ys Hxy _ IH]; simpl; [done|]. by rewrite (Hf x y), IH.
Qed.

Definition canonical_node (limits : Limits) (n : NodeFact) : Prop :=
  canonicalize_node limits n = Success n.
Definition canonical_link (limits : Limits) (l : LinkFact) : Prop :=
  canonicalize_link limits l = Success l.

(** What canonicalization keeps of a node and of a link. *)
Definition same_node (n m : NodeFact) : Prop :=
  node n = node m ∧ tier n = tier m ∧ site n = site m ∧
  (∀ x, x ∈ localities n ↔ x ∈ localities m) ∧ (∀ x, x ∈ node_domains n ↔ x ∈ node_domains m) ∧
  (∀ x, x ∈ node_capabilities n ↔ x ∈ node_capabilities m).
Definition same_link (l k : LinkFact) : Prop :=
  link l = link k ∧ endpoint_a l = endpoint_a k ∧ endpoint_b l = endpoint_b k ∧
  bandwidth l = bandwidth k ∧ (∀ x, x ∈ link_domains l ↔ x ∈ link_domains k) ∧
  (∀ x, x ∈ link_capabilities l ↔ x ∈ link_capabilities k).

Lemma canonicalize_node_spec limits n m :
  canonicalize_node limits n = Success m → same_node n m ∧ canonical_node limits m.
Proof.
  unfold canonicalize_node. intros H.
  destruct (_ <? _) eqn:E1; [done|]. destruct (_ <? size (node_domains n)) eqn:E2; [done|].
  destruct (_ <? size (node_capabilities n)) eqn:E3; [done|].
  apply rbind_Success in H as (cs & Hcs & [= <-]).
  destruct (canonicalize_refs_spec _ _ _ Hcs) as (Hs & He & Hz). split.
  - unfold same_node; simpl. split_and!; try done; intros x; by rewrite ?sort_domain_refs_elem, ?He.
  - unfold canonical_node, canonicalize_node. simpl.
    pose proof (sort_domain_refs_size (localities n)).
    pose proof (sort_domain_refs_size (node_domains n)).
    repeat (case_match; [lia|]).
    rewrite canonicalize_refs_id by done. simpl.
    by rewrite (sort_domain_refs_id (sort_domain_refs (localities n))),
      (sort_domain_refs_id (sort_domain_refs (node_domains n))),
      (sort_generation_refs_id (sort_generation_refs _))
      by (apply sort_domain_refs_sorted || apply sort_generation_refs_sorted).
Qed.

Lemma canonicalize_link_spec limits l k :
  canonicalize_link limits l = Success k → same_link l k ∧ canonical_link limits k.
Proof.
  unfold canonicalize_link. intros H.
  destruct (_ <? _) eqn:E1; [done|]. destruct (_ <? size (link_capabilities l)) eqn:E2; [done|].
  apply rbind_Success in H as (cs & Hcs & [= <-]).
  destruct (canonicalize_refs_spec _ _ _ Hcs) as (Hs & He & Hz). split.
  - unfold same_link; simpl. split_and!; try done; intros x; by rewrite ?sort_domain_refs_elem, ?He.
  - unfold canonical_link, canonicalize_link. simpl.
    pose proof (sort_domain_refs_size (link_domains l)).
    repeat (case_match; [lia|]).
    rewrite canonicalize_refs_id by done. simpl.
    by rewrite (sort_domain_refs_id (sort_domain_refs _)),
      (sort_generation_refs_id (sort_generation_refs _))
      by (apply sort_domain_refs_sorted || apply sort_generation_refs_sorted).
Qed.

(** What canonicalization keeps of a candidate. *)
Definition same_candidate (c d : CandidatePath) : Prop :=
  path c = path d ∧ authority_generation c = authority_generation d ∧
  authority_verdict c = authority_verdict d ∧ planner_generation c = planner_generation d ∧
  has_planner_rank c = has_planner_rank d ∧ planner_rank c = planner_rank d ∧
  has_planner_cost c = has_planner_cost d ∧ planner_cost c = planner_cost d ∧
  cost_model c = cost_model d ∧ latency c = latency d ∧ evidence c = evidence d ∧
  Forall2 same_node (path_nodes c) (path_nodes d) ∧
  Forall2 same_link (path_links c) (path_links d) ∧
  (∀ x, x ∈ path_policies c ↔ x ∈ path_policies d).

Lemma canonicalize_candidate_facts c limits d :
  canonicalize_candidate c limits = Success d →
  same_candidate c d ∧ ok (validate_candidate d limits) = true ∧
  Forall (canonical_node limits) (path_nodes d) ∧
  Forall (canonical_link limits) (path_links d) ∧ strict_refs (path_policies d) ∧
  hop_count d = wrap 32 (size (path_links d)) ∧
  path d ≠ 0 ∧ authority_generation d ≠ 0 ∧
  2 <= size (path_nodes d) <= max_nodes_per_candidate limits ∧
  size (path_links d) + 1 = size (path_nodes d) ∧
  size (path_links d) <= max_links_per_candidate limits.
Proof.
  unfold canonicalize_candidate. intros H.
  destruct (_ || _) eqn:E1; [done|]. destruct (_ || _) eqn:E2 in H; [done|].
  destruct (_ || _) eqn:E3 in H; [done|].
  apply rbind_Success in H as (ns & Hns & H). apply rbind_Success in H as (ls & Hls & H).
  apply rbind_Success in H as (ps & Hps & H). cbv zeta in H.
  apply rbind_Success in H as ([] & Hv & [= <-]).
  apply update_each_Forall2 in Hns. apply update_each_Forall2 in Hls.
  destruct (canonicalize_refs_spec _ _ _ Hps) as (Hs & He & _).
  assert (size ns = size (path_nodes c)) as Hnsz
    by (unfold size; by rewrite (Forall2_length _ _ _ Hns)).
  assert (size ls = size (path_links c)) as Hlsz
    by (unfold size; by rewrite (Forall2_length _ _ _ Hls)).
  bool_hyps. rewrite !is_valid_true in *. simpl. rewrite Hnsz, Hlsz.
  split_and!; try done; try lia.
  - unfold same_candidate; simpl. split_and!; try done.
    + eapply Forall2_impl; [exact Hns|]. intros n m Hnm.
      by apply (canonicalize_node_spec limits) in Hnm as [? _].
    + eapply Forall2_impl; [exact Hls|]. intros n m Hnm.
      by apply (canonicalize_link_spec limits) in Hnm as [? _].
  - by rewrite Hv.
  - clear -Hns. induction Hns as [|n m ns ms Hnm _ IH]; constructor; [|done].
    by apply canonicalize_node_spec in Hnm as [_ ?].
  - clear -Hls. induction Hls as [|n m ns ms Hnm _ IH]; constructor; [|done].
    by apply canonicalize_link_spec in Hnm as [_ ?].
Qed.

Lemma canonicalize_candidate_id c limits :
  ok (validate_candidate c limits) = true → Forall (canonical_node limits) (path_nodes c) →
  Forall (canonical_link limits) (path_links c) → strict_refs (path_policies c) →
  hop_count c = wrap 32 (size (path_links c)) → canonicalize_candidate c limits = Success c.
Proof.
  intros Hv Hn Hl Hp Hh. pose proof Hv as Hwf. apply validate_candidate_wf in Hwf.
  destruct Hwf as [H1 [H2 _] H4 [H6 H7] _ _ _ _ _ _ _ _].
  unfold canonicalize_candidate.
  apply is_valid_true in H1 as ->. apply is_valid_true in H2 as ->. simpl.
  do 2 (case_match; [lia|]).
  rewrite (update_each_id (canonicalize_node limits)) by exact Hn.
  rewrite (update_each_id (canonicalize_link limits)) by exact Hl.
  rewrite canonicalize_refs_id by done. cbn [rbind]. rewrite <- Hh.
  destruct c; simpl in *. apply ok_status in Hv. by rewrite Hv.
Qed.

(** The same candidate with its evidence vectors in another order. *)
Definition node_perm (n m : NodeFact) : Prop :=
  node n = node m ∧ tier n = tier m ∧ site n = site m ∧ localities n ≡ₚ localities m ∧
  node_domains n ≡ₚ node_domains m ∧ node_capabilities n ≡ₚ node_capabilities m ∧
  node_isolation n ≡ₚ node_isolation m.
Definition link_perm (l k : LinkFact) : Prop :=
  link l = link k ∧ endpoint_a l = endpoint_a k ∧ endpoint_b l = endpoint_b k ∧
  bandwidth l = bandwidth k ∧ link_domains l ≡ₚ link_domains k ∧
  link_capabilities l ≡ₚ link_capabilities k ∧ link_isolation l ≡ₚ link_isolation k.
Definition candidate_perm (c d : CandidatePath) : Prop :=
  path c = path d ∧ authority_generation c = authority_generation d ∧
  authority_verdict c = authority_verdict d ∧ planner_generation c = planner_generation d ∧
  has_planner_rank c = has_planner_rank d ∧ planner_rank c = planner_rank d ∧
  has_planner_cost c = has_planner_cost d ∧ planner_cost c = planner_cost d ∧
  cost_model c = cost_model d ∧ latency c = latency d ∧ evidence c = evidence d ∧
  Forall2 node_perm (path_nodes c) (path_nodes d) ∧
  Forall2 link_perm (path_links c) (path_links d) ∧ path_policies c ≡ₚ path_policies d.

Lemma size_perm {A} (l k : list A) : l ≡ₚ k → size l = size k.
Proof. intros H. unfold size. by rewrite (Permutation_length H). Qed.

Lemma canonicalize_node_perm limits n m :
  node_perm n m → canonicalize_node limits n = canonicalize_node limits m.
Proof.
  intros (H1 & H2 & H3 & H4 & H5 & H6 & H7). unfold canonicalize_node, canonicalize_refs.
  rewrite H1, H2, H3, (size_perm _ _ H4), (size_perm _ _ H5), (size_perm _ _ H6).
  by rewrite (sort_domain_refs_perm _ _ H4), (sort_domain_refs_perm _ _ H5),
    (generation_refs_sort_perm _ _ H6), (sort_generation_refs_perm _ _ H7).
Qed.

Lemma canonicalize_link_perm limits l k :
  link_perm l k → canonicalize_link limits l = canonicalize_link limits k.
Proof.
  intros (H1 & H2 & H3 & H4 & H5 & H6 & H7). unfold canonicalize_link, canonicalize_refs.
  rewrite H1, H2, H3, H4, (size_perm _ _ H5), (size_perm _ _ H6).
  by rewrite (sort_domain_refs_perm _ _ H5),
    (generation_refs_sort_perm _ _ H6), (sort_generation_refs_perm _ _ H7).
Qed.

(** ** Lemmas: bottleneck bandwidth *)

(** Evidence usable for the required generation. *)
Definition usable_bandwidth (required : Z) (l : LinkFact) : Prop :=
  model (bandwidth l) ≠ CapabilityModel.None ∧ bandwidth_generation (bandwidth l) = required ∧
  0 <= bits_per_second (bandwidth l).

Lemma bottleneck_loop_spec required ls : ∀ first b r,
  bottleneck_loop required first b ls = Some r ↔
  Forall (usable_bandwidth required) ls ∧
  r = fold_left Z.min (map (λ l, bits_per_second (bandwidth l)) (if first then tail ls else ls))
        (if first then match ls with l :: _ => bits_per_second (bandwidth l) | [] => b end else b).
Proof.
  induction ls as [|l ls IH]; intros first b r; cbn [bottleneck_loop].
  { rewrite Forall_nil. destruct first; simpl; naive_solver. }
  rewrite Forall_cons. unfold usable_bandwidth at 1.
  destruct (_ || _) eqn:E1.
  { split; [done|]. intros [[(H1 & H2 & H3) _] _].
    apply eeqb_neq in H1. rewrite H1 in E1. simpl in E1. lia. }
  apply orb_false_iff in E1 as [E1 E2]. apply eeqb_neq in E1. apply negb_false_iff in E2.
  destruct (_ <? 0) eqn:E3; [split; [done|lia]|].
  rewrite IH. destruct first; simpl.
  - split; [intros [H ->]|intros [[_ H] ->]]; split_and!; try done; lia.
  - assert ((if bits_per_second (bandwidth l) <? b then bits_per_second (bandwidth l) else b) =
      Z.min b (bits_per_second (bandwidth l))) as -> by ifs_lia.
    split; [intros [H ->]|intros [[_ H] ->]]; split_and!; try done; lia.
Qed.

Lemma fold_min_spec xs : ∀ b,
  let r := fold_left Z.min xs b in
  r <= b ∧ Forall (λ x, r <= x) xs ∧ (r = b ∨ r ∈ xs).
Proof.
  induction xs as [|x xs IH]; intros b; simpl; [split_and!; [lia|constructor|by left]|].
  destruct (IH (Z.min b x)) as (H1 & H2 & H3). split_and!; [lia|constructor; [lia|done]|].
  destruct H3 as [->|H3]; [|right; set_solver].
  destruct (Z.min_spec b x) as [[_ ->]|[_ ->]]; [by left|right; set_solver].
Qed.

(** The bandwidth capability of a path is the least of its links', and only
    exists when every link has usable evidence. *)
Lemma path_bandwidth_capability_spec c required r :
  path_bandwidth_capability c required = Some r ↔
  path_links c ≠ [] ∧ required ≠ 0 ∧ Forall (usable_bandwidth required) (path_links c) ∧
  r ∈ map (λ l, bits_per_second (bandwidth l)) (path_links c) ∧
  Forall (λ l, r <= bits_per_second (bandwidth l)) (path_links c).
Proof.
  unfold path_bandwidth_capability. destruct (path_links c) as [|l ls] eqn:El; [naive_solver|].
  simpl empty. rewrite orb_false_l. destruct (negb (is_valid required)) eqn:Ev.
  { apply negb_true_iff, is_valid_false in Ev. split; [done|]. naive_solver. }
  apply negb_false_iff, is_valid_true in Ev. rewrite bottleneck_loop_spec. cbn [tail].
  pose proof (fold_min_spec (map (λ l, bits_per_second (bandwidth l)) ls)
    (bits_per_second (bandwidth l))) as (H1 & H2 & H3).
  set (m := fold_left _ _ _) in *. rewrite Forall_map in H2. split.
  - intros [Hu ->]. split_and!; try done.
    + simpl. destruct H3 as [->|H3]; set_solver.
    + by constructor.
  - intros (_ & _ & Hu & Hin & Hmin). split; [done|]. apply Forall_cons in Hmin as [Hl Hmin].
    assert (m <= r).
    { simpl in Hin. apply elem_of_cons in Hin as [->|Hin]; [done|].
      apply list_elem_of_fmap in Hin as (k & -> & Hk). rewrite Forall_forall in H2.
      by apply H2. }
    assert (r <= m); [|lia]. destruct H3 as [->|H3]; [done|].
    apply list_elem_of_fmap in H3 as (k & -> & Hk). rewrite Forall_forall in Hmin. by apply Hmin.
Qed.

(** ** Lemmas: wire encoding *)

#[export] Typeclasses Opaque write_counted write_domain write_generation_ref write_node
  write_link encode_candidate.

#[export] Instance appends_write_counted {A} (f : A → writing) xs :
  (∀ x, Appends (f x)) → Appends (write_counted f xs).
Proof. intros. unfold write_counted. apply _. Qed.
#[export] Instance appends_write_domain r : Appends (write_domain r).
Proof. unfold write_domain. apply _. Qed.
#[export] Instance appends_write_generation_ref r : Appends (write_generation_ref r).
Proof. unfold write_generation_ref. apply _. Qed.
#[export] Instance appends_write_node n : Appends (write_node n).
Proof. unfold write_node. apply _. Qed.
#[export] Instance appends_write_link l : Appends (write_link l).
Proof. unfold write_link. apply _. Qed.
#[export] Instance appends_encode_candidate c : Appends (encode_candidate c).
Proof. unfold encode_candidate. apply _. Qed.

#[export] Instance safe_read_counted {A} (m : reader A) max : Safe m → Safe (read_counted m max).
Proof. intros. unfold read_counted. apply _. Qed.
#[export] Instance safe_read_domain : Safe read_domain.
Proof. unfold read_domain. apply _. Qed.
#[export] Instance safe_read_generation_ref : Safe read_generation_ref.
Proof. unfold read_generation_ref. apply _. Qed.
#[export] Instance safe_read_generation_field : Safe read_generation_field.
Proof. unfold read_generation_field. apply _. Qed.
#[export] Instance safe_read_node limits : Safe (read_node limits).
Proof. unfold read_node. apply _. Qed.
#[export] Instance safe_read_link limits : Safe (read_link limits).
Proof. unfold read_link. apply _. Qed.
#[export] Instance safe_read_latency : Safe read_latency.
Proof. unfold read_latency. apply _. Qed.
#[export] Instance safe_read_evidence : Safe read_evidence.
Proof. unfold read_evidence. apply _. Qed.
#[export] Instance safe_require_ok : Safe require_ok.
Proof.
  intros r Hr. unfold require_ok, in_span in *.
  destruct (ok_ r) eqn:E; split; simpl; try done; try lia; congruence.
Qed.
#[export] Instance safe_decode_candidate limits : Safe (decode_candidate limits).
Proof. unfold decode_candidate. apply _. Qed.

Lemma reads_counted {A} (f : A → writing) (m : reader A) max xs `{!∀ x, Appends (f x)} :
  fits 32 (size xs) → size xs <= max → (∀ x, x ∈ xs → reads m (f x []) x) →
  reads (read_counted m max) (write_counted f xs []) xs.
Proof.
  intros Hf Hm Hx. unfold read_counted, write_counted. rewrite (wrap_small 32) by done.
  read_field; [by apply reads_bounded_length|]. by apply reads_each.
Qed.

(** A generation field is zero or representable. *)
Definition generation_field (v : Z) : Prop := 0 <= v < 2 ^ 63.

Definition domain_wire (r : DomainRef) : Prop :=
  fits 64 (ref_domain r) ∧ ref_kind r ≠ DomainKind.Unset ∧ ref_domain r ≠ 0.
Definition generation_wire (r : GenerationRef) : Prop :=
  fits 64 (ref_identity r) ∧ ref_identity r ≠ 0 ∧ generation_field (ref_generation r) ∧
  ref_generation r ≠ 0.

Lemma generation_field_fits v : generation_field v → fits 64 v.
Proof. unfold generation_field, fits. lia. Qed.

Lemma reads_generation_field v :
  generation_field v → reads read_generation_field (put_u64 v []) v.
Proof.
  intros Hv. unfold read_generation_field.
  read_last; [by apply reads_u64, generation_field_fits|].
  destruct (v =? 0) eqn:E; [apply Z.eqb_eq in E as ->; apply reads_ret|].
  apply reads_guard; [|apply reads_ret]. apply negb_false_iff.
  unfold generation_field in *. rewrite is_representable_true; lia.
Qed.

Lemma reads_domain r : domain_wire r → reads read_domain (write_domain r []) r.
Proof.
  intros (Hf & Hk & Hd). unfold read_domain, write_domain.
  read_field; [apply reads_u8; by destruct (ref_kind r)|].
  read_field; [by apply reads_u8|]. read_field; [by apply reads_u16|].
  read_field; [by apply reads_u32|]. read_last; [by apply reads_u64|].
  apply reads_guard; [by destruct (ref_kind r)|].
  apply Z.eqb_neq in Hd as ->. rewrite of_code_code. destruct r. apply reads_ret.
Qed.

Lemma reads_generation_ref r :
  generation_wire r → reads read_generation_ref (write_generation_ref r []) r.
Proof.
  intros (Hf & Hi & Hg & Hz). unfold read_generation_ref, write_generation_ref.
  read_field; [by apply reads_u64|]. read_last; [by apply reads_u64, generation_field_fits|].
  apply reads_guard; [|destruct r; apply reads_ret].
  apply orb_false_iff. split; [lia|]. apply negb_false_iff.
  unfold generation_field in *. rewrite is_representable_true; lia.
Qed.

(** Every field of a node, link or candidate holds a value its reader accepts. *)
Record wire_node (limits : Limits) (n : NodeFact) : Prop := {
  wn_ids : fits 64 (node n) ∧ fits 64 (tier n) ∧ fits 64 (site n);
  wn_domains : Forall (λ r, fits 64 (ref_domain r)) (localities n ++ node_domains n);
  wn_refs : Forall generation_wire (node_capabilities n ++ node_isolation n);
  wn_isolation : size (node_isolation n) <= max_capabilities_per_entity limits
}.

Record wire_link (limits : Limits) (l : LinkFact) : Prop := {
  wl_ids : fits 64 (link l) ∧ fits 64 (endpoint_a l) ∧ fits 64 (endpoint_b l) ∧
    endpoint_a l ≠ 0 ∧ endpoint_b l ≠ 0;
  wl_bandwidth : fits_i64 (bits_per_second (bandwidth l)) ∧
    generation_field (bandwidth_generation (bandwidth l)) ∧
    fits 64 (bandwidth_observed_tick (bandwidth l));
  wl_domains : Forall domain_wire (link_domains l);
  wl_refs : Forall generation_wire (link_capabilities l ++ link_isolation l);
  wl_isolation : size (link_isolation l) <= max_capabilities_per_entity limits
}.

Record wire_latency (l : LatencyEvidence) : Prop := {
  wt_micros : fits_i64 (micros l);
  wt_generations : generation_field (latency_planner_generation l) ∧
    generation_field (observed_generation l);
  wt_tick : fits 64 (latency_observed_tick l)
}.

Record wire_evidence (e : EvidenceGenerationSet) : Prop := {
  we_topology : generation_field (topology e);
  we_link_state : generation_field (link_state e);
  we_capability : generation_field (capability e);
  we_failure_domain : generation_field (failure_domain e);
  we_policy : generation_field (policy e);
  we_planner : generation_field (planner e);
  we_path_authority : generation_field (path_authority e);
  we_consulted : fits 32 (consulted e);
  we_tick : fits 64 (captured_tick e)
}.

Record wire_candidate (limits : Limits) (c : CandidatePath) : Prop := {
  wc_path : fits 64 (path c);
  wc_authority : generation_field (authority_generation c);
  wc_planner_generation : generation_field (planner_generation c);
  wc_planner_rank : fits 32 (planner_rank c);
  wc_planner_cost : fits_i64 (planner_cost c);
  wc_nodes : Forall (wire_node limits) (path_nodes c);
  wc_links : Forall (wire_link limits) (path_links c);
  wc_latency : wire_latency (latency c);
  wc_policies : Forall generation_wire (path_policies c);
  wc_evidence : wire_evidence (evidence c)
}.

Lemma size_fits32 {A} (l : list A) max : size l <= max → max <= 2 ^ 27 → fits 32 (size l).
Proof. intros. pose proof (size_nonneg l). unfold fits. lia. Qed.

Section wire.
Context (limits : Limits) (Hlimits : limits_ok limits = true).

Lemma reads_node n :
  node_ok limits n → wire_node limits n → reads (read_node limits) (write_node n []) n.
Proof.
  intros [Hid (Hs1 & Hs2 & Hs3) [_ Hl] [_ Hd] _ _] [(Hn & Ht & Hsi) Hw Hr Hi].
  pose proof (limits_ok_entry limits 7 _ Hlimits eq_refl) as Lc.
  pose proof (limits_ok_entry limits 8 _ Hlimits eq_refl) as Ld.
  pose proof (limits_ok_entry limits 9 _ Hlimits eq_refl) as Ll. cbn [snd] in *.
  apply Forall_app in Hw as [Hw1 Hw2]. apply Forall_app in Hr as [Hr1 Hr2].
  rewrite Forall_forall in Hl, Hd, Hw1, Hw2. rewrite Forall_forall in Hr1, Hr2.
  unfold read_node, write_node.
  do 3 (read_field; [by apply reads_u64|]). apply reads_guard; [lia|].
  read_field; [apply reads_counted; [apply _|by eapply size_fits32|done|]|].
  { intros x Hx. apply reads_domain. split; [by apply Hw1|by apply Hl]. }
  read_field; [apply reads_counted; [apply _|by eapply size_fits32|done|]|].
  { intros x Hx. apply reads_domain. split; [by apply Hw2|by apply Hd]. }
  read_field; [apply reads_counted; [apply _|by eapply size_fits32|done|]|].
  { intros x Hx. by apply reads_generation_ref, Hr1. }
  read_last; [apply reads_counted; [apply _|by eapply size_fits32|done|]|].
  { intros x Hx. by apply reads_generation_ref, Hr2. }
  destruct n. apply reads_ret.
Qed.

Lemma reads_link l :
  link_ok limits l → wire_link limits l → reads (read_link limits) (write_link l []) l.
Proof.
  intros [Hid (Hs1 & Hs2) _ _ _ _] [(Hl & Ha & Hb & Ha0 & Hb0) (Hbits & Hgen & Htick) Hw Hr Hi].
  pose proof (limits_ok_entry limits 7 _ Hlimits eq_refl) as Lc.
  pose proof (limits_ok_entry limits 8 _ Hlimits eq_refl) as Ld. cbn [snd] in *.
  apply Forall_app in Hr as [Hr1 Hr2]. rewrite Forall_forall in Hw. rewrite Forall_forall in Hr1, Hr2.
  unfold read_link, write_link.
  do 3 (read_field; [by apply reads_u64|]).
  read_field; [apply reads_u8; by destruct (model (bandwidth l))|].
  read_field; [apply reads_u8; by destruct (bandwidth_provenance (bandwidth l))|].
  read_field; [by apply reads_u16|]. read_field; [by apply reads_u32|]. apply reads_guard.
  { apply Z.eqb_neq in Hid as ->, Ha0 as ->, Hb0 as ->.
    by destruct (model (bandwidth l)), (bandwidth_provenance (bandwidth l)). }
  read_field; [by apply reads_i64|]. read_field; [by apply reads_generation_field|].
  read_field; [by apply reads_u64|].
  read_field; [apply reads_counted; [apply _|by eapply size_fits32|done|]|].
  { intros x Hx. by apply reads_domain, Hw. }
  read_field; [apply reads_counted; [apply _|by eapply size_fits32|done|]|].
  { intros x Hx. by apply reads_generation_ref, Hr1. }
  read_last; [apply reads_counted; [apply _|by eapply size_fits32|done|]|].
  { intros x Hx. by apply reads_generation_ref, Hr2. }
  rewrite !of_code_code. destruct l as [? ? ? [] ? ? ?]. apply reads_ret.
Qed.

(** The candidate's latency fields followed by the rest of the record. *)
Lemma reads_latency {B} l (k : LatencyEvidence → reader B) g b `{!Appends g} :
  wire_latency l → reads (k l) (g []) b →
  reads (read_latency ≫= k)
    ((put_u8 (code (source l)) ;;> put_u8 (code (latency_provenance l)) ;;> put_u16 0 ;;>
      put_u32 0 ;;> put_i64 (micros l) ;;> put_u64 (latency_planner_generation l) ;;>
      put_u64 (observed_generation l) ;;> put_u64 (latency_observed_tick l) ;;> g) []) b.
Proof.
  intros [Hm [Hp Ho] Ht] Hk. rewrite !seqw_nil by apply _. rewrite !app_assoc.
  eapply reads_bind; [|exact Hk]. rewrite <- !app_assoc. rewrite <- !seqw_nil by apply _.
  unfold read_latency.
  read_field; [apply reads_u8; by destruct (source l)|].
  read_field; [apply reads_u8; by destruct (latency_provenance l)|].
  read_field; [by apply reads_u16|]. read_field; [by apply reads_u32|]. apply reads_guard.
  { by destruct (source l), (latency_provenance l). }
  read_field; [by apply reads_i64|]. do 2 (read_field; [by apply reads_generation_field|]).
  read_last; [by apply reads_u64|]. rewrite !of_code_code. destruct l. apply reads_ret.
Qed.

Lemma reads_evidence e :
  wire_evidence e →
  reads read_evidence
    ((put_u64 (topology e) ;;> put_u64 (link_state e) ;;> put_u64 (capability e) ;;>
      put_u64 (failure_domain e) ;;> put_u64 (policy e) ;;> put_u64 (planner e) ;;>
      put_u64 (path_authority e) ;;> put_u32 (consulted e) ;;> put_u64 (captured_tick e)) []) e.
Proof.
  intros []. unfold read_evidence. do 7 (read_field; [by apply reads_generation_field|]).
  read_field; [by apply reads_u32|]. read_last; [by apply reads_u64|].
  destruct e. apply reads_ret.
Qed.

Lemma reads_require_ok {B} (k : () → reader B) bs b :
  reads (k ()) bs b → reads (require_ok ≫= k) bs b.
Proof. intros Hk pre post. apply Hk. Qed.

Lemma reads_candidate c :
  ok (validate_candidate c limits) = true → wire_candidate limits c →
  reads (decode_candidate limits) (encode_candidate c []) c.
Proof.
  intros Hv [Hpa Hau Hpg Hpr Hpc Hwn Hwl Hwt Hwp Hwe].
  pose proof Hv as Hwf. apply validate_candidate_wf in Hwf.
  destruct Hwf as [H1 [H2 _] [_ H3] [H4 H5] H6 H7 _ H8 _ _ _ [_ H9]].
  pose proof (limits_ok_entry limits 5 _ Hlimits eq_refl) as Ln.
  pose proof (limits_ok_entry limits 6 _ Hlimits eq_refl) as Ll.
  pose proof (limits_ok_entry limits 10 _ Hlimits eq_refl) as Lp. cbn [snd] in *.
  rewrite Forall_forall in Hwn, H7. rewrite Forall_forall in Hwl, H8.
  rewrite Forall_forall in Hwp.
  unfold decode_candidate, encode_candidate.
  read_field; [by apply reads_u64|]. read_field; [by apply reads_u64, generation_field_fits|].
  read_field; [apply reads_u8; by destruct (authority_verdict c)|].
  read_field; [by apply reads_u8|]. read_field; [by apply reads_u16|].
  read_field; [by apply reads_u32|]. apply reads_guard.
  { assert (is_representable (authority_generation c) = true) as ->.
    { unfold generation_field in Hau. rewrite is_representable_true; lia. }
    apply Z.eqb_neq in H1 as ->. by destruct (authority_verdict c). }
  read_field; [by apply reads_generation_field|]. read_field; [apply reads_bool|].
  read_field; [by apply reads_u32|]. read_field; [apply reads_bool|].
  read_field; [by apply reads_i64|].
  read_field; [apply reads_u8; by destruct (cost_model c)|]. read_field; [by apply reads_u8|].
  read_field; [by apply reads_u16|].
  read_field; [apply reads_u32; rewrite H6; by eapply size_fits32|].
  apply reads_guard; [by destruct (cost_model c)|].
  read_field; [apply reads_counted; [apply _|by eapply size_fits32|done|]|].
  { intros x Hx. apply reads_node; [by apply H7|by apply Hwn]. }
  read_field; [apply reads_counted; [apply _|by eapply size_fits32|done|]|].
  { intros x Hx. apply reads_link; [by apply H8|by apply Hwl]. }
  apply reads_latency; [apply _|done|].
  read_field; [apply reads_counted; [apply _|by eapply size_fits32|done|]|].
  { intros x Hx. by apply reads_generation_ref, Hwp. }
  read_last; [by apply reads_evidence|]. apply reads_require_ok. cbv zeta.
  rewrite !of_code_code. destruct c; simpl in *.
  apply reads_guard; [by rewrite Hv|]. apply reads_ret.
Qed.
End wire.

(** ** Lemmas: the digest stream determines the candidate up to its ticks *)

(** The candidate with every tick erased: what the digest covers. *)
Definition erase_link_tick (l : LinkFact) : LinkFact :=
  let b := bandwidth l in
  mkLink (link l) (endpoint_a l) (endpoint_b l)
    (mkBandwidth (model b) (bandwidth_provenance b) (bits_per_second b) (bandwidth_generation b) 0)
    (link_domains l) (link_capabilities l) (link_isolation l).
Definition erase_ticks (c : CandidatePath) : CandidatePath :=
  let t := latency c in
  let e := evidence c in
  mkCandidate (path c) (authority_generation c) (authority_verdict c) (planner_generation c)
    (has_planner_rank c) (planner_rank c) (has_planner_cost c) (planner_cost c) (cost_model c)
    (hop_count c) (path_nodes c) (map erase_link_tick (path_links c))
    (mkLatency (source t) (latency_provenance t) (micros t) (latency_planner_generation t)
      (observed_generation t) 0) (path_policies c)
    (mkEvidence (topology e) (link_state e) (capability e) (failure_domain e) (policy e)
      (planner e) (path_authority e) (consulted e) 0).

Definition parse_counted {A} (m : reader A) : reader (list A) := count ← u32; read_each m count.
Definition parse_domain : reader DomainRef :=
  kind ← u8; domain ← u64; mret (mkDomainRef (of_code kind) domain).
Definition parse_generation_ref : reader GenerationRef :=
  identity ← u64; generation ← u64; mret (mkGenerationRef identity generation).

Definition parse_node : reader NodeFact :=
  node ← u64; tier ← u64; site ← u64; localities ← parse_counted parse_domain;
  domains ← parse_counted parse_domain; capabilities ← parse_counted parse_generation_ref;
  isolation ← parse_counted parse_generation_ref;
  mret (mkNode node tier site localities domains capabilities isolation).

Definition parse_link : reader LinkFact :=
  link ← u64; a ← u64; b ← u64; model ← u8; provenance ← u8; bits ← i64; generation ← u64;
  domains ← parse_counted parse_domain; capabilities ← parse_counted parse_generation_ref;
  isolation ← parse_counted parse_generation_ref;
  mret (mkLink link a b (mkBandwidth (of_code model) (of_code provenance) bits generation 0)
    domains capabilities isolation).

Definition parse_candidate : reader CandidatePath :=
  path ← u64; authority ← u64; verdict ← u8; planner_generation ← u64; has_rank ← boolean;
  rank ← u32; has_cost ← boolean; cost ← i64; cost_model ← u8; hops ← u32;
  nodes ← parse_counted parse_node; links ← parse_counted parse_link;
  source ← u8; provenance ← u8; micros ← i64; lp ← u64; lo ← u64;
  policies ← parse_counted parse_generation_ref;
  e1 ← u64; e2 ← u64; e3 ← u64; e4 ← u64; e5 ← u64; e6 ← u64; e7 ← u64; consulted ← u32;
  mret (mkCandidate path authority (of_code verdict) planner_generation has_rank rank has_cost
    cost (of_code cost_model) hops nodes links
    (mkLatency (of_code source) (of_code provenance) micros lp lo 0) policies
    (mkEvidence e1 e2 e3 e4 e5 e6 e7 consulted 0)).

Ltac hash_field := eapply reads_bind; [|cbv beta].

Lemma reads_hash_counted {A B} (f : A → hashing) (h : A → B) (m : reader B) xs :
  fits 32 (size xs) → (∀ x, x ∈ xs → reads m (concat (f x)) (h x)) →
  reads (parse_counted m) (concat (hash_counted f xs)) (map h xs).
Proof.
  intros Hf Hx. unfold parse_counted, hash_counted. autorewrite with hashed.
  rewrite (wrap_small 32) by done. hash_field; [by apply reads_u32|].
  unfold read_each, size, hash_each. rewrite Nat2Z.id. clear Hf.
  induction xs as [|x xs IH]; [apply reads_ret|]. cbn [map concat length read_each_nat].
  rewrite concat_app. hash_field; [apply Hx; set_solver|].
  eapply reads_then_ret; [apply IH; set_solver|]. apply reads_ret.
Qed.

Lemma reads_hash_list {A} (f : A → hashing) (m : reader A) xs :
  fits 32 (size xs) → (∀ x, x ∈ xs → reads m (concat (f x)) x) →
  reads (parse_counted m) (concat (hash_counted f xs)) xs.
Proof.
  intros Hf Hx. pose proof (reads_hash_counted f (λ x, x) m xs Hf Hx) as H.
  by rewrite map_id in H.
Qed.

Lemma reads_hash_domain r : fits 64 (ref_domain r) → reads parse_domain (concat (feed_domain r)) r.
Proof.
  intros Hf. unfold parse_domain, feed_domain. autorewrite with hashed.
  hash_field; [apply reads_u8; by destruct (ref_kind r)|].
  read_last; [by apply reads_u64|]. rewrite of_code_code. destruct r. apply reads_ret.
Qed.

Lemma reads_hash_generation_ref r :
  generation_wire r → reads parse_generation_ref (concat (feed_generation_ref r)) r.
Proof.
  intros (Hi & _ & Hg & _). unfold parse_generation_ref, feed_generation_ref.
  autorewrite with hashed. hash_field; [by apply reads_u64|].
  read_last; [by apply reads_u64, generation_field_fits|]. destruct r. apply reads_ret.
Qed.

Section digest_stream.
Context (limits : Limits) (Hlimits : limits_ok limits = true).

Ltac hash_refs :=
  apply reads_hash_list; [by eapply size_fits32|]; intros x Hx;
  first [apply reads_hash_generation_ref|apply reads_hash_domain]; set_solver.

Lemma reads_hash_node n :
  node_ok limits n → wire_node limits n → reads parse_node (concat (feed_node n)) n.
Proof.
  intros [_ (Hs1 & Hs2 & Hs3) _ _ _ _] [(Hn & Ht & Hsi) Hw Hr Hi].
  pose proof (limits_ok_entry limits 7 _ Hlimits eq_refl) as Lc.
  pose proof (limits_ok_entry limits 8 _ Hlimits eq_refl) as Ld.
  pose proof (limits_ok_entry limits 9 _ Hlimits eq_refl) as Ll. cbn [snd] in *.
  rewrite Forall_forall in Hw. rewrite Forall_forall in Hr.
  unfold parse_node, feed_node. autorewrite with hashed.
  do 3 (hash_field; [by apply reads_u64|]).
  do 3 (hash_field; [hash_refs|]). read_last; [hash_refs|]. destruct n. apply reads_ret.
Qed.

Lemma reads_hash_link l :
  link_ok limits l → wire_link limits l →
  reads parse_link (concat (feed_link l)) (erase_link_tick l).
Proof.
  intros [_ (Hs1 & Hs2) _ _ _ _] [(Hl & Ha & Hb & _) (Hbits & Hgen & _) Hw Hr Hi].
  pose proof (limits_ok_entry limits 7 _ Hlimits eq_refl) as Lc.
  pose proof (limits_ok_entry limits 8 _ Hlimits eq_refl) as Ld. cbn [snd] in *.
  rewrite Forall_forall in Hw. rewrite Forall_forall in Hr.
  assert (∀ x, x ∈ link_domains l → fits 64 (ref_domain x)) as Hw'
    by (intros x Hx; by apply Hw).
  unfold parse_link, feed_link. autorewrite with hashed.
  do 3 (hash_field; [by apply reads_u64|]).
  hash_field; [apply reads_u8; by destruct (model (bandwidth l))|].
  hash_field; [apply reads_u8; by destruct (bandwidth_provenance (bandwidth l))|].
  hash_field; [by apply reads_i64|].
  hash_field; [by apply reads_u64, generation_field_fits|].
  do 2 (hash_field; [hash_refs|]). read_last; [hash_refs|].
  rewrite !of_code_code. apply reads_ret.
Qed.

Lemma reads_hash_candidate c :
  ok (validate_candidate c limits) = true → wire_candidate limits c →
  reads parse_candidate (concat (feed_candidate c)) (erase_ticks c).
Proof.
  intros Hv [Hpa Hau Hpg Hpr Hpc Hwn Hwl [Hm [Hlp Hlo] _] Hwp []].
  pose proof Hv as Hwf. apply validate_candidate_wf in Hwf.
  destruct Hwf as [H1 [H2 _] [_ H3] [H4 H5] H6 H7 _ H8 _ _ _ [_ H9]].
  pose proof (limits_ok_entry limits 5 _ Hlimits eq_refl) as Ln.
  pose proof (limits_ok_entry limits 6 _ Hlimits eq_refl) as Ll.
  pose proof (limits_ok_entry limits 10 _ Hlimits eq_refl) as Lp. cbn [snd] in *.
  rewrite Forall_forall in Hwn, H7. rewrite Forall_forall in Hwl, H8.
  rewrite Forall_forall in Hwp.
  unfold parse_candidate, feed_candidate, feed_evidence. autorewrite with hashed.
  hash_field; [by apply reads_u64|]. hash_field; [by apply reads_u64, generation_field_fits|].
  hash_field; [apply reads_u8; by destruct (authority_verdict c)|].
  hash_field; [by apply reads_u64, generation_field_fits|].
  hash_field; [apply reads_bool|]. hash_field; [by apply reads_u32|].
  hash_field; [apply reads_bool|]. hash_field; [by apply reads_i64|].
  hash_field; [apply reads_u8; by destruct (cost_model c)|].
  hash_field; [apply reads_u32; rewrite H6; by eapply size_fits32|].
  hash_field; [apply reads_hash_list; [by eapply size_fits32|]|].
  { intros x Hx. apply reads_hash_node; [by apply H7|by apply Hwn]. }
  hash_field; [apply (reads_hash_counted _ erase_link_tick); [by eapply size_fits32|]|].
  { intros x Hx. apply reads_hash_link; [by apply H8|by apply Hwl]. }
  hash_field; [apply reads_u8; by destruct (source (latency c))|].
  hash_field; [apply reads_u8; by destruct (latency_provenance (latency c))|].
  hash_field; [by apply reads_i64|].
  do 2 (hash_field; [by apply reads_u64, generation_field_fits|]).
  hash_field; [hash_refs|].
  do 7 (hash_field; [by apply reads_u64, generation_field_fits|]).
  read_last; [by apply reads_u32|]. rewrite !of_code_code. apply reads_ret.
Qed.
End digest_stream.

Lemma decode_candidate_yields limits :
  yields (decode_candidate limits) (λ c, ok (validate_candidate c limits) = true).
Proof.
  unfold decode_candidate. repeat yields_step. apply yields_ret. by apply negb_false_iff.
Qed.

(** ** Properties *)

(** Structural validation accepts exactly the well-formed candidates: simple
    paths of at least two nodes whose links join the consecutive nodes, within
    the limits, with canonical evidence vectors and consistent latency and cost
    bindings. *)
Theorem validate_candidate_spec limits c :
  ok (validate_candidate c limits) = true ↔ well_formed limits c.
Proof. apply validate_candidate_wf. Qed.

(** A canonicalized candidate is well formed, is the same path with the same
    evidence, and is left unchanged by canonicalizing it again. *)
Theorem canonicalize_candidate_correct limits c d :
  canonicalize_candidate c limits = Success d →
  well_formed limits d ∧ same_candidate c d ∧ canonicalize_candidate d limits = Success d.
Proof.
  intros H. apply canonicalize_candidate_facts in H
    as (H1 & H2 & H3 & H4 & H5 & H6 & _). split_and!.
  - by apply validate_candidate_wf.
  - done.
  - by apply canonicalize_candidate_id.
Qed.

(** The order in which evidence entries arrive is never observable: two
    candidates that differ only in the order of their evidence vectors (and in
    the ignored hop count) canonicalize to the same outcome, failures
    included. *)
Theorem canonicalize_candidate_order limits c d :
  candidate_perm c d → canonicalize_candidate c limits = canonicalize_candidate d limits.
Proof.
  intros (H1 & H2 & H3 & H4 & H5 & H6 & H7 & H8 & H9 & H10 & H11 & H12 & H13 & H14).
  unfold canonicalize_candidate.
  assert (size (path_nodes c) = size (path_nodes d)) as ->
    by (unfold size; by rewrite (Forall2_length _ _ _ H12)).
  assert (size (path_links c) = size (path_links d)) as ->
    by (unfold size; by rewrite (Forall2_length _ _ _ H13)).
  rewrite (update_each_ext _ _ _ _ (canonicalize_node_perm limits) H12).
  rewrite (update_each_ext _ _ _ _ (canonicalize_link_perm limits) H13).
  unfold canonicalize_refs. rewrite (generation_refs_sort_perm _ _ H14).
  by rewrite H1, H2, H3, H4, H5, H6, H7, H8, H9, H10, H11.
Qed.

(** The bandwidth capability of a path is the least capability of its links,
    and it exists exactly when the path has links, the required generation is
    valid and every link carries evidence at exactly that generation. *)
Theorem path_bandwidth_is_bottleneck c required r :
  path_bandwidth_capability c required = Some r ↔
  path_links c ≠ [] ∧ required ≠ 0 ∧ Forall (usable_bandwidth required) (path_links c) ∧
  r ∈ map (λ l, bits_per_second (bandwidth l)) (path_links c) ∧
  Forall (λ l, r <= bits_per_second (bandwidth l)) (path_links c).
Proof. apply path_bandwidth_capability_spec. Qed.

(** A valid candidate is read back from its encoding, whatever follows it
    in the buffer, and the decoder stops right after it. *)
Theorem candidate_roundtrip limits c :
  limits_ok limits = true → ok (validate_candidate c limits) = true → wire_candidate limits c →
  ∀ post, decode_candidate limits (open_reader (encode_candidate c [] ++ post)) =
    (Some c, mkReader (encode_candidate c [] ++ post) (size (encode_candidate c [])) true).
Proof.
  intros Hl Hv Hw post. apply (reads_candidate limits Hl c Hv Hw [] post).
Qed.

(** The candidate digest ignores the ticks and nothing else: two valid
    candidates with the same digest input agree on every field but the ticks. *)
Theorem candidate_digest_input limits a b :
  limits_ok limits = true →
  ok (validate_candidate a limits) = true → wire_candidate limits a →
  ok (validate_candidate b limits) = true → wire_candidate limits b →
  candidate_digest a = sha256 (concat (hash_string "crf.candidate.v1") ++ concat (feed_candidate a)) ∧
  (concat (feed_candidate a) = concat (feed_candidate b) ↔ erase_ticks a = erase_ticks b).
Proof.
  intros Hl Ha Wa Hb Wb. split; [unfold candidate_digest; by rewrite digest_of_sha256|]. split.
  - intros E. pose proof (reads_hash_candidate limits Hl a Ha Wa) as Ra. rewrite E in Ra.
    apply (reads_inj _ _ _ _ Ra (reads_hash_candidate limits Hl b Hb Wb)).
  - assert (∀ c, feed_candidate c = feed_candidate (erase_ticks c)) as He.
    { intros c. unfold feed_candidate. cbn [erase_ticks path_links].
      assert (hash_counted feed_link (map erase_link_tick (path_links c)) =
              hash_counted feed_link (path_links c)) as ->; [|done].
      unfold hash_counted, hash_each, size. by rewrite length_map, map_map. }
    intros E. rewrite (He a), (He b), E. done.
Qed.

(** ** Witnesses *)

Definition sample_node (id : Z) : NodeFact :=
  mkNode id 1 1 [mkDomainRef DomainKind.Rack 1; mkDomainRef DomainKind.Site 1]
    [mkDomainRef DomainKind.PowerZone id; mkDomainRef DomainKind.FailureDomain id]
    [mkGenerationRef 5 1; mkGenerationRef 6 1] [mkGenerationRef 1 1].
Definition sample_link (id a b : Z) (tick : Z) : LinkFact :=
  mkLink id a b
    (mkBandwidth CapabilityModel.DeclaredCapabilityRegistry
      EvidenceProvenance.FabricCapabilityRegistry 400000000000 1 tick)
    [mkDomainRef DomainKind.FailureDomain id] [mkGenerationRef 5 1] [mkGenerationRef 1 1].
Definition sample_evidence (tick : Z) : EvidenceGenerationSet := mkEvidence 1 1 1 1 1 1 1 0 tick.
Definition sample_candidate (id : Z) (tick : Z) : CandidatePath :=
  mkCandidate id 1 PathAuthorityVerdict.Legal 1 true 1 true 10 PlannerCostModel.HopCountUnits 2
    [sample_node 10; sample_node 20; sample_node 30]
    [sample_link 1 10 20 tick; sample_link 2 30 20 tick]
    (mkLatency LatencySource.PlannerCost EvidenceProvenance.PlannerModel 500 1 0 tick)
    [mkGenerationRef 9 1] (sample_evidence tick).

(** The same candidate, its policies and the evidence of its nodes reversed. *)
Definition reverse_node (n : NodeFact) : NodeFact :=
  mkNode (node n) (tier n) (site n) (rev (localities n)) (rev (node_domains n))
    (rev (node_capabilities n)) (rev (node_isolation n)).
Definition reversed_candidate (c : CandidatePath) : CandidatePath :=
  mkCandidate (path c) (authority_generation c) (authority_verdict c) (planner_generation c)
    (has_planner_rank c) (planner_rank c) (has_planner_cost c) (planner_cost c) (cost_model c) 0
    (map reverse_node (path_nodes c)) (path_links c) (latency c) (rev (path_policies c))
    (evidence c).

Lemma reversed_candidate_perm c : candidate_perm c (reversed_candidate c).
Proof.
  unfold candidate_perm; simpl. split_and!; try done.
  - induction (path_nodes c) as [|n ns IH]; constructor; [|done].
    unfold node_perm; simpl. split_and!; try done; apply Permutation_rev.
  - induction (path_links c) as [|l ls IH]; constructor; [|done].
    unfold link_perm. split_and!; done.
  - apply Permutation_rev.
Qed.

Lemma sample_candidate_wire tick :
  0 <= tick < 2 ^ 64 → wire_candidate default_limits (sample_candidate 1 tick).
Proof.
  intros Ht. unfold sample_candidate, sample_node, sample_link, sample_evidence.
  repeat (constructor || split); cbn;
    unfold fits, fits_i64, generation_field, domain_wire, generation_wire, size in *; cbn; try lia;
    try done.
  all: repeat split; cbn; unfold fits, generation_field; try lia; done.
Qed.

Lemma canonicalize_candidate_correct_witness :
  well_formed default_limits (sample_candidate 1 7).
Proof.
  apply (canonicalize_candidate_correct default_limits
    (reversed_candidate (sample_candidate 1 7))). vm_compute. reflexivity.
Defined.

Lemma canonicalize_candidate_order_witness :
  canonicalize_candidate (sample_candidate 1 7) default_limits = Success (sample_candidate 1 7) ∧
  canonicalize_candidate (reversed_candidate (sample_candidate 1 7)) default_limits =
    Success (sample_candidate 1 7).
Proof.
  split; [vm_compute; reflexivity|].
  rewrite <- (canonicalize_candidate_order default_limits _ _
    (reversed_candidate_perm (sample_candidate 1 7))).
  vm_compute. reflexivity.
Defined.

Lemma candidate_roundtrip_witness :
  decode_candidate default_limits
    (open_reader (encode_candidate (sample_candidate 1 7) [] ++ [x00])) =
  (Some (sample_candidate 1 7),
   mkReader (encode_candidate (sample_candidate 1 7) [] ++ [x00])
     (size (encode_candidate (sample_candidate 1 7) [])) true).
Proof.
  apply (candidate_roundtrip default_limits (sample_candidate 1 7)).
  - reflexivity.
  - vm_compute. reflexivity.
  - apply sample_candidate_wire. lia.
Defined.

Lemma candidate_digest_input_witness :
  concat (feed_candidate (sample_candidate 1 7)) = concat (feed_candidate (sample_candidate 1 9)).
Proof.
  apply (candidate_digest_input default_limits (sample_candidate 1 7) (sample_candidate 1 9)).
  - reflexivity.
  - vm_compute. reflexivity.
  - apply sample_candidate_wire. lia.
  - vm_compute. reflexivity.
  - apply sample_candidate_wire. lia.
  - vm_compute. reflexivity.
Defined.
