(* ===== verification/Evaluation.v ===== *)
(** Outcomes, reasons and evaluation records, [evaluation.hpp] and
    [evaluation.cpp]: the reason taxonomy and its total order, the evaluation
    record with its digest, identity and encoding, and the route-fabric handoff. *)

From Stdlib Require Import ZArith Lia Bool Strings.Byte.
From stdpp Require Import base list numbers strings sets sorting.
From S2P Require Import Prelude Base Codec Digest Constraint Candidate.

Open Scope string_scope.
Open Scope list_scope.
Open Scope Z_scope.

(** ** Enumerations *)

Module Outcome.
Inductive t :=
  | Admissible | AdmissibleWithPreferences | HardConstraintFailed
  | UnknownRequiredEvidence | StalePathAuthority | StaleConstraintSet | StaleEvidence
  | RevalidationRequired | Unauthorized | ResourceLimit | Malformed.

Definition to_code (x : t) : Z :=
  match x with
  | Admissible => 0 | AdmissibleWithPreferences => 1 | HardConstraintFailed => 2
  | UnknownRequiredEvidence => 3 | StalePathAuthority => 4 | StaleConstraintSet => 5
  | StaleEvidence => 6 | RevalidationRequired => 7 | Unauthorized => 8
  | ResourceLimit => 9 | Malformed => 10
  end.

Definition from_code (z : Z) : t :=
  match z with
  | 1 => AdmissibleWithPreferences | 2 => HardConstraintFailed
  | 3 => UnknownRequiredEvidence | 4 => StalePathAuthority | 5 => StaleConstraintSet
  | 6 => StaleEvidence | 7 => RevalidationRequired | 8 => Unauthorized
  | 9 => ResourceLimit | 10 => Malformed | _ => Admissible
  end.

Definition to_string (x : t) : string :=
  match x with
  | Admissible => "ADMISSIBLE"
  | AdmissibleWithPreferences => "ADMISSIBLE_WITH_PREFERENCES"
  | HardConstraintFailed => "HARD_CONSTRAINT_FAILED"
  | UnknownRequiredEvidence => "UNKNOWN_REQUIRED_EVIDENCE"
  | StalePathAuthority => "STALE_PATH_AUTHORITY"
  | StaleConstraintSet => "STALE_CONSTRAINT_SET" | StaleEvidence => "STALE_EVIDENCE"
  | RevalidationRequired => "REVALIDATION_REQUIRED" | Unauthorized => "UNAUTHORIZED"
  | ResourceLimit => "RESOURCE_LIMIT" | Malformed => "MALFORMED"
  end.
End Outcome.

#[export] Instance Outcome_enum : Enum Outcome.t.
Proof.
  refine {| code := Outcome.to_code; of_code := Outcome.from_code |}.
  by intros [].
Defined.

Module ReasonClass.
Inductive t :=
  | ResourceAdmission | WireDecode | CallerIdentity | EpochBootScope
  | ConstraintSetLifecycle | PathAuthority | EvidenceCurrentness
  | MandatoryConstraint | Preference.

Definition to_code (x : t) : Z :=
  match x with
  | ResourceAdmission => 0 | WireDecode => 1 | CallerIdentity => 2
  | EpochBootScope => 3 | ConstraintSetLifecycle => 4 | PathAuthority => 5
  | EvidenceCurrentness => 6 | MandatoryConstraint => 7 | Preference => 8
  end.

Definition from_code (z : Z) : t :=
  match z with
  | 1 => WireDecode | 2 => CallerIdentity | 3 => EpochBootScope
  | 4 => ConstraintSetLifecycle | 5 => PathAuthority | 6 => EvidenceCurrentness
  | 7 => MandatoryConstraint | 8 => Preference | _ => ResourceAdmission
  end.

Definition to_string (x : t) : string :=
  match x with
  | ResourceAdmission => "ResourceAdmission" | WireDecode => "WireDecode"
  | CallerIdentity => "CallerIdentity" | EpochBootScope => "EpochBootScope"
  | ConstraintSetLifecycle => "ConstraintSetLifecycle"
  | PathAuthority => "PathAuthority" | EvidenceCurrentness => "EvidenceCurrentness"
  | MandatoryConstraint => "MandatoryConstraint" | Preference => "Preference"
  end.
End ReasonClass.

#[export] Instance ReasonClass_enum : Enum ReasonClass.t.
Proof.
  refine {| code := ReasonClass.to_code; of_code := ReasonClass.from_code |}.
  by intros [].
Defined.

(** The decoder casts any 16-bit value whose class matches to a [ReasonCode];
    [Raw] holds a value that is no named enumerator. *)
Module ReasonCode.
Inductive t :=
  | None | ResourceLimitExceeded | BatchTooLarge | TooManyConstraints
  | TooManyCandidates | TooManyEntityRefs | ExplanationTruncated
  | HistoryLimitReached | MalformedFrame | UnsupportedProtocolVersion
  | UnknownMessageId | TrailingBytes | OversizedVector | IntegrityMismatch
  | MalformedConstraint | MalformedCandidate | UnsupportedVersion | UnknownPublisher
  | PublisherNotRegistered | SessionFenced | ScopeNotAuthorized
  | MissingAuthorityContext | MutationAttemptConflict | StaleCoordinatorEpoch
  | FutureCoordinatorEpoch | FencedWorkerBoot | UnknownWorkerBoot | WorkerBootReused
  | ConstraintSetNotFound | ConstraintSetNotActive | ConstraintSetSuspended
  | ConstraintSetRevalidationRequired | ConstraintSetRevoked
  | ConstraintSetSuperseded | ConstraintSetRetired | StaleConstraintSetGeneration
  | ContradictoryConstraintSet | PathAuthorityNotEvaluated | PathNotLegal
  | StalePathAuthority | PathAuthorityGenerationMissing | StaleTopologyEvidence
  | StaleLinkStateEvidence | StaleCapabilityEvidence | StaleFailureDomainEvidence
  | StalePolicyEvidence | StalePlannerEvidence | EvidenceAgeExceeded
  | EvidenceNotBound | PlannerCostModelMismatch | UnknownRequiredEvidence
  | MaxLatencyExceeded | LatencyEvidenceUnavailable | MinBandwidthCapabilityNotMet
  | BandwidthCapabilityUnavailable | RequiredNodeAbsent | ForbiddenNodePresent
  | RequiredLinkAbsent | ForbiddenLinkPresent | RequiredTierNotMet
  | ForbiddenTierPresent | RequiredSiteNotMet | ForbiddenSitePresent
  | LocalityScopeViolated | IsolationClassNotProven | RequiredCapabilityMissing
  | ForbiddenCapabilityPresent | RequiredFailureDomainRelationNotMet
  | ForbiddenFailureDomainRelationMet | AdministrativePolicyNotSatisfied
  | MaxHopCountExceeded | TierEvidenceUnavailable | SiteEvidenceUnavailable
  | LocalityEvidenceUnavailable | IsolationEvidenceUnavailable
  | CapabilityEvidenceUnavailable | FailureDomainEvidenceUnavailable
  | PolicyEvidenceUnavailable | Raw (raw : Z).

Definition to_code (x : t) : Z :=
  match x with
  | None => 0 | ResourceLimitExceeded => 100 | BatchTooLarge => 101
  | TooManyConstraints => 102 | TooManyCandidates => 103 | TooManyEntityRefs => 104
  | ExplanationTruncated => 105 | HistoryLimitReached => 106 | MalformedFrame => 200
  | UnsupportedProtocolVersion => 201 | UnknownMessageId => 202
  | TrailingBytes => 203 | OversizedVector => 204 | IntegrityMismatch => 205
  | MalformedConstraint => 206 | MalformedCandidate => 207
  | UnsupportedVersion => 208 | UnknownPublisher => 300
  | PublisherNotRegistered => 301 | SessionFenced => 302 | ScopeNotAuthorized => 303
  | MissingAuthorityContext => 304 | MutationAttemptConflict => 305
  | StaleCoordinatorEpoch => 400 | FutureCoordinatorEpoch => 401
  | FencedWorkerBoot => 402 | UnknownWorkerBoot => 403 | WorkerBootReused => 404
  | ConstraintSetNotFound => 500 | ConstraintSetNotActive => 501
  | ConstraintSetSuspended => 502 | ConstraintSetRevalidationRequired => 503
  | ConstraintSetRevoked => 504 | ConstraintSetSuperseded => 505
  | ConstraintSetRetired => 506 | StaleConstraintSetGeneration => 507
  | ContradictoryConstraintSet => 508 | PathAuthorityNotEvaluated => 600
  | PathNotLegal => 601 | StalePathAuthority => 602
  | PathAuthorityGenerationMissing => 603 | StaleTopologyEvidence => 700
  | StaleLinkStateEvidence => 701 | StaleCapabilityEvidence => 702
  | StaleFailureDomainEvidence => 703 | StalePolicyEvidence => 704
  | StalePlannerEvidence => 705 | EvidenceAgeExceeded => 706
  | EvidenceNotBound => 707 | PlannerCostModelMismatch => 708
  | UnknownRequiredEvidence => 709 | MaxLatencyExceeded => 800
  | LatencyEvidenceUnavailable => 801 | MinBandwidthCapabilityNotMet => 802
  | BandwidthCapabilityUnavailable => 803 | RequiredNodeAbsent => 804
  | ForbiddenNodePresent => 805 | RequiredLinkAbsent => 806
  | ForbiddenLinkPresent => 807 | RequiredTierNotMet => 808
  | ForbiddenTierPresent => 809 | RequiredSiteNotMet => 810
  | ForbiddenSitePresent => 811 | LocalityScopeViolated => 812
  | IsolationClassNotProven => 813 | RequiredCapabilityMissing => 814
  | ForbiddenCapabilityPresent => 815 | RequiredFailureDomainRelationNotMet => 816
  | ForbiddenFailureDomainRelationMet => 817
  | AdministrativePolicyNotSatisfied => 818 | MaxHopCountExceeded => 819
  | TierEvidenceUnavailable => 820 | SiteEvidenceUnavailable => 821
  | LocalityEvidenceUnavailable => 822 | IsolationEvidenceUnavailable => 823
  | CapabilityEvidenceUnavailable => 824 | FailureDomainEvidenceUnavailable => 825
  | PolicyEvidenceUnavailable => 826 | Raw z => z
  end.

Definition from_code (z : Z) : t :=
  match z with
  | 0 => None | 100 => ResourceLimitExceeded | 101 => BatchTooLarge
  | 102 => TooManyConstraints | 103 => TooManyCandidates | 104 => TooManyEntityRefs
  | 105 => ExplanationTruncated | 106 => HistoryLimitReached | 200 => MalformedFrame
  | 201 => UnsupportedProtocolVersion | 202 => UnknownMessageId
  | 203 => TrailingBytes | 204 => OversizedVector | 205 => IntegrityMismatch
  | 206 => MalformedConstraint | 207 => MalformedCandidate
  | 208 => UnsupportedVersion | 300 => UnknownPublisher
  | 301 => PublisherNotRegistered | 302 => SessionFenced | 303 => ScopeNotAuthorized
  | 304 => MissingAuthorityContext | 305 => MutationAttemptConflict
  | 400 => StaleCoordinatorEpoch | 401 => FutureCoordinatorEpoch
  | 402 => FencedWorkerBoot | 403 => UnknownWorkerBoot | 404 => WorkerBootReused
  | 500 => ConstraintSetNotFound | 501 => ConstraintSetNotActive
  | 502 => ConstraintSetSuspended | 503 => ConstraintSetRevalidationRequired
  | 504 => ConstraintSetRevoked | 505 => ConstraintSetSuperseded
  | 506 => ConstraintSetRetired | 507 => StaleConstraintSetGeneration
  | 508 => ContradictoryConstraintSet | 600 => PathAuthorityNotEvaluated
  | 601 => PathNotLegal | 602 => StalePathAuthority
  | 603 => PathAuthorityGenerationMissing | 700 => StaleTopologyEvidence
  | 701 => StaleLinkStateEvidence | 702 => StaleCapabilityEvidence
  | 703 => StaleFailureDomainEvidence | 704 => StalePolicyEvidence
  | 705 => StalePlannerEvidence | 706 => EvidenceAgeExceeded
  | 707 => EvidenceNotBound | 708 => PlannerCostModelMismatch
  | 709 => UnknownRequiredEvidence | 800 => MaxLatencyExceeded
  | 801 => LatencyEvidenceUnavailable | 802 => MinBandwidthCapabilityNotMet
  | 803 => BandwidthCapabilityUnavailable | 804 => RequiredNodeAbsent
  | 805 => ForbiddenNodePresent | 806 => RequiredLinkAbsent
  | 807 => ForbiddenLinkPresent | 808 => RequiredTierNotMet
  | 809 => ForbiddenTierPresent | 810 => RequiredSiteNotMet
  | 811 => ForbiddenSitePresent | 812 => LocalityScopeViolated
  | 813 => IsolationClassNotProven | 814 => RequiredCapabilityMissing
  | 815 => ForbiddenCapabilityPresent | 816 => RequiredFailureDomainRelationNotMet
  | 817 => ForbiddenFailureDomainRelationMet
  | 818 => AdministrativePolicyNotSatisfied | 819 => MaxHopCountExceeded
  | 820 => TierEvidenceUnavailable | 821 => SiteEvidenceUnavailable
  | 822 => LocalityEvidenceUnavailable | 823 => IsolationEvidenceUnavailable
  | 824 => CapabilityEvidenceUnavailable | 825 => FailureDomainEvidenceUnavailable
  | 826 => PolicyEvidenceUnavailable | _ => Raw z
  end.

Definition to_string (x : t) : string :=
  match x with
  | None => "NONE" | ResourceLimitExceeded => "RESOURCE_LIMIT_EXCEEDED"
  | BatchTooLarge => "BATCH_TOO_LARGE" | TooManyConstraints => "TOO_MANY_CONSTRAINTS"
  | TooManyCandidates => "TOO_MANY_CANDIDATES"
  | TooManyEntityRefs => "TOO_MANY_ENTITY_REFS"
  | ExplanationTruncated => "EXPLANATION_TRUNCATED"
  | HistoryLimitReached => "HISTORY_LIMIT_REACHED"
  | MalformedFrame => "MALFORMED_FRAME"
  | UnsupportedProtocolVersion => "UNSUPPORTED_PROTOCOL_VERSION"
  | UnknownMessageId => "UNKNOWN_MESSAGE_ID" | TrailingBytes => "TRAILING_BYTES"
  | OversizedVector => "OVERSIZED_VECTOR" | IntegrityMismatch => "INTEGRITY_MISMATCH"
  | MalformedConstraint => "MALFORMED_CONSTRAINT"
  | MalformedCandidate => "MALFORMED_CANDIDATE"
  | UnsupportedVersion => "UNSUPPORTED_VERSION"
  | UnknownPublisher => "UNKNOWN_PUBLISHER"
  | PublisherNotRegistered => "PUBLISHER_NOT_REGISTERED"
  | SessionFenced => "SESSION_FENCED" | ScopeNotAuthorized => "SCOPE_NOT_AUTHORIZED"
  | MissingAuthorityContext => "MISSING_AUTHORITY_CONTEXT"
  | MutationAttemptConflict => "MUTATION_ATTEMPT_CONFLICT"
  | StaleCoordinatorEpoch => "STALE_COORDINATOR_EPOCH"
  | FutureCoordinatorEpoch => "FUTURE_COORDINATOR_EPOCH"
  | FencedWorkerBoot => "FENCED_WORKER_BOOT"
  | UnknownWorkerBoot => "UNKNOWN_WORKER_BOOT"
  | WorkerBootReused => "WORKER_BOOT_REUSED"
  | ConstraintSetNotFound => "CONSTRAINT_SET_NOT_FOUND"
  | ConstraintSetNotActive => "CONSTRAINT_SET_NOT_ACTIVE"
  | ConstraintSetSuspended => "CONSTRAINT_SET_SUSPENDED"
  | ConstraintSetRevalidationRequired => "CONSTRAINT_SET_REVALIDATION_REQUIRED"
  | ConstraintSetRevoked => "CONSTRAINT_SET_REVOKED"
  | ConstraintSetSuperseded => "CONSTRAINT_SET_SUPERSEDED"
  | ConstraintSetRetired => "CONSTRAINT_SET_RETIRED"
  | StaleConstraintSetGeneration => "STALE_CONSTRAINT_SET_GENERATION"
  | ContradictoryConstraintSet => "CONTRADICTORY_CONSTRAINT_SET"
  | PathAuthorityNotEvaluated => "PATH_AUTHORITY_NOT_EVALUATED"
  | PathNotLegal => "PATH_NOT_LEGAL" | StalePathAuthority => "STALE_PATH_AUTHORITY"
  | PathAuthorityGenerationMissing => "PATH_AUTHORITY_GENERATION_MISSING"
  | StaleTopologyEvidence => "STALE_TOPOLOGY_EVIDENCE"
  | StaleLinkStateEvidence => "STALE_LINK_STATE_EVIDENCE"
  | StaleCapabilityEvidence => "STALE_CAPABILITY_EVIDENCE"
  | StaleFailureDomainEvidence => "STALE_FAILURE_DOMAIN_EVIDENCE"
  | StalePolicyEvidence => "STALE_POLICY_EVIDENCE"
  | StalePlannerEvidence => "STALE_PLANNER_EVIDENCE"
  | EvidenceAgeExceeded => "EVIDENCE_AGE_EXCEEDED"
  | EvidenceNotBound => "EVIDENCE_NOT_BOUND"
  | PlannerCostModelMismatch => "PLANNER_COST_MODEL_MISMATCH"
  | UnknownRequiredEvidence => "UNKNOWN_REQUIRED_EVIDENCE"
  | MaxLatencyExceeded => "MAX_LATENCY_EXCEEDED"
  | LatencyEvidenceUnavailable => "LATENCY_EVIDENCE_UNAVAILABLE"
  | MinBandwidthCapabilityNotMet => "MIN_BANDWIDTH_CAPABILITY_NOT_MET"
  | BandwidthCapabilityUnavailable => "BANDWIDTH_CAPABILITY_UNAVAILABLE"
  | RequiredNodeAbsent => "REQUIRED_NODE_ABSENT"
  | ForbiddenNodePresent => "FORBIDDEN_NODE_PRESENT"
  | RequiredLinkAbsent => "REQUIRED_LINK_ABSENT"
  | ForbiddenLinkPresent => "FORBIDDEN_LINK_PRESENT"
  | RequiredTierNotMet => "REQUIRED_TIER_NOT_MET"
  | ForbiddenTierPresent => "FORBIDDEN_TIER_PRESENT"
  | RequiredSiteNotMet => "REQUIRED_SITE_NOT_MET"
  | ForbiddenSitePresent => "FORBIDDEN_SITE_PRESENT"
  | LocalityScopeViolated => "LOCALITY_SCOPE_VIOLATED"
  | IsolationClassNotProven => "ISOLATION_CLASS_NOT_PROVEN"
  | RequiredCapabilityMissing => "REQUIRED_CAPABILITY_MISSING"
  | ForbiddenCapabilityPresent => "FORBIDDEN_CAPABILITY_PRESENT"
  | RequiredFailureDomainRelationNotMet => "REQUIRED_FAILURE_DOMAIN_RELATION_NOT_MET"
  | ForbiddenFailureDomainRelationMet => "FORBIDDEN_FAILURE_DOMAIN_RELATION_MET"
  | AdministrativePolicyNotSatisfied => "ADMINISTRATIVE_POLICY_NOT_SATISFIED"
  | MaxHopCountExceeded => "MAX_HOP_COUNT_EXCEEDED"
  | TierEvidenceUnavailable => "TIER_EVIDENCE_UNAVAILABLE"
  | SiteEvidenceUnavailable => "SITE_EVIDENCE_UNAVAILABLE"
  | LocalityEvidenceUnavailable => "LOCALITY_EVIDENCE_UNAVAILABLE"
  | IsolationEvidenceUnavailable => "ISOLATION_EVIDENCE_UNAVAILABLE"
  | CapabilityEvidenceUnavailable => "CAPABILITY_EVIDENCE_UNAVAILABLE"
  | FailureDomainEvidenceUnavailable => "FAILURE_DOMAIN_EVIDENCE_UNAVAILABLE"
  | PolicyEvidenceUnavailable => "POLICY_EVIDENCE_UNAVAILABLE"
  | Raw _ => "UNKNOWN_REASON"
  end.
End ReasonCode.

Module SubjectKind.
Inductive t :=
  | None | Constraint | CandidatePath | ConstraintSet | Node | Link | Tier | Site
  | Capability | Policy | FailureDomain | LocalityDomain | IsolationClass | Publisher
  | WorkerBoot | Coordinator.

Definition to_code (x : t) : Z :=
  match x with
  | None => 0 | Constraint => 1 | CandidatePath => 2 | ConstraintSet => 3 | Node => 4
  | Link => 5 | Tier => 6 | Site => 7 | Capability => 8 | Policy => 9
  | FailureDomain => 10 | LocalityDomain => 11 | IsolationClass => 12
  | Publisher => 13 | WorkerBoot => 14 | Coordinator => 15
  end.

Definition from_code (z : Z) : t :=
  match z with
  | 1 => Constraint | 2 => CandidatePath | 3 => ConstraintSet | 4 => Node | 5 => Link
  | 6 => Tier | 7 => Site | 8 => Capability | 9 => Policy | 10 => FailureDomain
  | 11 => LocalityDomain | 12 => IsolationClass | 13 => Publisher | 14 => WorkerBoot
  | 15 => Coordinator | _ => None
  end.

Definition to_string (x : t) : string :=
  match x with
  | None => "None" | Constraint => "Constraint" | CandidatePath => "CandidatePath"
  | ConstraintSet => "ConstraintSet" | Node => "Node" | Link => "Link"
  | Tier => "Tier" | Site => "Site" | Capability => "Capability" | Policy => "Policy"
  | FailureDomain => "FailureDomain" | LocalityDomain => "LocalityDomain"
  | IsolationClass => "IsolationClass" | Publisher => "Publisher"
  | WorkerBoot => "WorkerBoot" | Coordinator => "Coordinator"
  end.
End SubjectKind.

#[export] Instance SubjectKind_enum : Enum SubjectKind.t.
Proof.
  refine {| code := SubjectKind.to_code; of_code := SubjectKind.from_code |}.
  by intros [].
Defined.

Module ResultState.
Inductive t :=
  | Current | Superseded | RevalidationRequired | RecoveredUnproven | StaleAtCommit.

Definition to_code (x : t) : Z :=
  match x with
  | Current => 1 | Superseded => 2 | RevalidationRequired => 3
  | RecoveredUnproven => 4 | StaleAtCommit => 5
  end.

Definition from_code (z : Z) : t :=
  match z with
  | 2 => Superseded | 3 => RevalidationRequired | 4 => RecoveredUnproven
  | 5 => StaleAtCommit | _ => Current
  end.

Definition to_string (x : t) : string :=
  match x with
  | Current => "Current" | Superseded => "Superseded"
  | RevalidationRequired => "RevalidationRequired"
  | RecoveredUnproven => "RecoveredUnproven" | StaleAtCommit => "StaleAtCommit"
  end.
End ResultState.

#[export] Instance ResultState_enum : Enum ResultState.t.
Proof.
  refine {| code := ResultState.to_code; of_code := ResultState.from_code |}.
  by intros [].
Defined.

Module BatchOutcome.
Inductive t :=
  | AdmissibleCandidatesAvailable | NoAdmissibleCandidate | BatchRejected.

Definition to_code (x : t) : Z :=
  match x with
  | AdmissibleCandidatesAvailable => 0 | NoAdmissibleCandidate => 1
  | BatchRejected => 2
  end.

Definition from_code (z : Z) : t :=
  match z with
  | 1 => NoAdmissibleCandidate | 2 => BatchRejected
  | _ => AdmissibleCandidatesAvailable
  end.

Definition to_string (x : t) : string :=
  match x with
  | AdmissibleCandidatesAvailable => "ADMISSIBLE_CANDIDATES_AVAILABLE"
  | NoAdmissibleCandidate => "NO_ADMISSIBLE_CANDIDATE"
  | BatchRejected => "BATCH_REJECTED"
  end.
End BatchOutcome.

#[export] Instance BatchOutcome_enum : Enum BatchOutcome.t.
Proof.
  refine {| code := BatchOutcome.to_code; of_code := BatchOutcome.from_code |}.
  by intros [].
Defined.

Definition outcome_of (reason : ReasonCode.t) : Outcome.t :=
  match reason with
  | ReasonCode.None => Outcome.Admissible
  | ReasonCode.ResourceLimitExceeded | ReasonCode.BatchTooLarge
  | ReasonCode.TooManyConstraints | ReasonCode.TooManyCandidates
  | ReasonCode.TooManyEntityRefs | ReasonCode.ExplanationTruncated
  | ReasonCode.HistoryLimitReached => Outcome.ResourceLimit
  | ReasonCode.MalformedFrame | ReasonCode.UnsupportedProtocolVersion
  | ReasonCode.UnknownMessageId | ReasonCode.TrailingBytes
  | ReasonCode.OversizedVector | ReasonCode.IntegrityMismatch
  | ReasonCode.MalformedConstraint | ReasonCode.MalformedCandidate
  | ReasonCode.UnsupportedVersion => Outcome.Malformed
  | ReasonCode.UnknownPublisher | ReasonCode.PublisherNotRegistered
  | ReasonCode.SessionFenced | ReasonCode.ScopeNotAuthorized
  | ReasonCode.MissingAuthorityContext | ReasonCode.MutationAttemptConflict
  | ReasonCode.PathNotLegal | ReasonCode.ConstraintSetRevoked => Outcome.Unauthorized
  | ReasonCode.StaleCoordinatorEpoch | ReasonCode.FutureCoordinatorEpoch
  | ReasonCode.FencedWorkerBoot | ReasonCode.UnknownWorkerBoot
  | ReasonCode.WorkerBootReused => Outcome.Unauthorized
  | ReasonCode.PathAuthorityNotEvaluated | ReasonCode.PathAuthorityGenerationMissing
  => Outcome.UnknownRequiredEvidence
  | ReasonCode.StalePathAuthority => Outcome.StalePathAuthority
  | ReasonCode.ConstraintSetNotFound | ReasonCode.ConstraintSetNotActive
  | ReasonCode.ConstraintSetSuspended | ReasonCode.ConstraintSetSuperseded
  | ReasonCode.ConstraintSetRetired | ReasonCode.StaleConstraintSetGeneration
  | ReasonCode.ContradictoryConstraintSet => Outcome.StaleConstraintSet
  | ReasonCode.ConstraintSetRevalidationRequired => Outcome.RevalidationRequired
  | ReasonCode.StaleTopologyEvidence | ReasonCode.StaleLinkStateEvidence
  | ReasonCode.StaleCapabilityEvidence | ReasonCode.StaleFailureDomainEvidence
  | ReasonCode.StalePolicyEvidence | ReasonCode.StalePlannerEvidence
  | ReasonCode.EvidenceAgeExceeded | ReasonCode.EvidenceNotBound
  => Outcome.StaleEvidence
  | ReasonCode.PlannerCostModelMismatch | ReasonCode.UnknownRequiredEvidence
  | ReasonCode.LatencyEvidenceUnavailable | ReasonCode.BandwidthCapabilityUnavailable
  | ReasonCode.TierEvidenceUnavailable | ReasonCode.SiteEvidenceUnavailable
  | ReasonCode.LocalityEvidenceUnavailable | ReasonCode.IsolationEvidenceUnavailable
  | ReasonCode.CapabilityEvidenceUnavailable
  | ReasonCode.FailureDomainEvidenceUnavailable
  | ReasonCode.PolicyEvidenceUnavailable => Outcome.UnknownRequiredEvidence
  | _ => Outcome.HardConstraintFailed
  end.

Definition reason_class_of (reason : ReasonCode.t) : ReasonClass.t :=
  let value := ReasonCode.to_code reason in
  if (100 <=? value) && (value <? 200) then ReasonClass.ResourceAdmission
  else if (200 <=? value) && (value <? 300) then ReasonClass.WireDecode
  else if (300 <=? value) && (value <? 400) then ReasonClass.CallerIdentity
  else if (400 <=? value) && (value <? 500) then ReasonClass.EpochBootScope
  else if (500 <=? value) && (value <? 600) then ReasonClass.ConstraintSetLifecycle
  else if (600 <=? value) && (value <? 700) then ReasonClass.PathAuthority
  else if (700 <=? value) && (value <? 800) then ReasonClass.EvidenceCurrentness
  else if (800 <=? value) && (value <? 900) then ReasonClass.MandatoryConstraint
  else ReasonClass.Preference.

Definition reason_code_eqb (a b : ReasonCode.t) : bool :=
  ReasonCode.to_code a =? ReasonCode.to_code b.

(** ** Records *)

Record Reason := mkReason {
  reason_code : ReasonCode.t;
  reason_class : ReasonClass.t;
  reason_constraint : Z;
  constraint_kind : ConstraintKind.t;
  constraint_ordinal : Z;
  family : EvidenceFamily.t;
  subject_kind : SubjectKind.t;
  subject : Z;
  expected : Z;
  actual : Z
}.

Record PreferenceSlot := mkSlot {
  slot_constraint : Z;
  slot_kind : ConstraintKind.t;
  slot_ordinal : Z;
  rank : Z;
  weight : Z;
  satisfied : bool;
  margin : Z
}.

Record Provenance := mkProvenance {
  epoch : Z;
  publisher : Z;
  worker_boot : Z;
  attempt : Z;
  request : Z
}.

Definition no_provenance : Provenance := mkProvenance 0 0 0 0 0.

Definition provenance_eqb (a b : Provenance) : bool :=
  (epoch a =? epoch b) && (publisher a =? publisher b) && (worker_boot a =? worker_boot b) &&
  (attempt a =? attempt b) && (request a =? request b).

Record EvaluationRecord := mkEvaluation {
  rec_id : Z;
  rec_generation : Z;
  set_id : Z;
  set_generation : Z;
  rec_path : Z;
  rec_authority_generation : Z;
  outcome : Outcome.t;
  primary_reason : ReasonCode.t;
  reasons : list Reason;
  preferences : list PreferenceSlot;
  rec_evidence : EvidenceGenerationSet;
  rec_consulted : EvidenceFamilyMask;
  provenance : Provenance;
  state : ResultState.t;
  reasons_truncated : bool;
  committed_tick : Z;
  digest : Digest256
}.

Record RouteFabricHandoff := mkHandoff {
  ho_set_id : Z;
  ho_set_generation : Z;
  ho_path : Z;
  ho_authority_generation : Z;
  ho_evaluation_id : Z;
  ho_evaluation_generation : Z;
  ho_outcome : Outcome.t;
  ho_evidence : EvidenceGenerationSet;
  ho_digest : Digest256
}.

Definition handoff_of (r : EvaluationRecord) : RouteFabricHandoff :=
  mkHandoff (set_id r) (set_generation r) (rec_path r) (rec_authority_generation r) (rec_id r)
    (rec_generation r) (outcome r) (rec_evidence r) (digest r).

Record RankedCandidate := mkRanked { ranked_path : Z; record_index : Z }.

Record EvaluationBatch := mkBatch {
  batch_set_id : Z;
  batch_set_generation : Z;
  batch_generation : Z;
  batch_outcome : BatchOutcome.t;
  has_admissible : bool;
  records : list EvaluationRecord;
  admissible_order : list RankedCandidate;
  primary_batch_reason : ReasonCode.t
}.

Definition same_evidence_binding (a b : EvidenceGenerationSet) : bool :=
  (topology a =? topology b) && (link_state a =? link_state b) &&
  (capability a =? capability b) && (failure_domain a =? failure_domain b) &&
  (policy a =? policy b) && (planner a =? planner b) && (path_authority a =? path_authority b).

(** ** Order and rendering of reasons *)

Definition compare_reason (a b : Reason) : Z :=
  cmp_step (code (reason_class a)) (code (reason_class b)) (
  cmp_step (constraint_ordinal a) (constraint_ordinal b) (
  cmp_step (ReasonCode.to_code (reason_code a)) (ReasonCode.to_code (reason_code b)) (
  cmp_step (reason_constraint a) (reason_constraint b) (
  cmp_step (code (family a)) (code (family b)) (
  cmp_step (code (subject_kind a)) (code (subject_kind b)) (
  cmp_step (subject a) (subject b) (
  cmp_step (expected a) (expected b) (
  cmp_step (actual a) (actual b) 0)))))))).

Definition reason_less (a b : Reason) : bool := compare_reason a b <? 0.

Definition describe (r : Reason) : string :=
  ReasonCode.to_string (reason_code r) ++ " [class=" ++
  ReasonClass.to_string (reason_class r) ++ ", constraint=" ++
  render_id "Constraint" (reason_constraint r) ++ " (" ++
  ConstraintKind.to_string (constraint_kind r) ++ "), family=" ++
  EvidenceFamily.to_string (family r) ++ ", subject=" ++
  SubjectKind.to_string (subject_kind r) ++ ":" ++ decimal (subject r) ++ ", expected=" ++
  decimal (expected r) ++ ", actual=" ++ decimal (actual r) ++ "]".

(** ** Digest and identity *)

Definition feed_reason (r : Reason) : hashing :=
  hash_u16 (ReasonCode.to_code (reason_code r)) ++ hash_u8 (code (reason_class r)) ++
  hash_u64 (reason_constraint r) ++ hash_u16 (code (constraint_kind r)) ++
  hash_u32 (constraint_ordinal r) ++ hash_u8 (code (family r)) ++
  hash_u8 (code (subject_kind r)) ++ hash_u64 (subject r) ++ hash_u64 (expected r) ++
  hash_u64 (actual r).

Definition feed_slot (s : PreferenceSlot) : hashing :=
  hash_u64 (slot_constraint s) ++ hash_u16 (code (slot_kind s)) ++ hash_u32 (slot_ordinal s) ++
  hash_u32 (rank s) ++ hash_u32 (weight s) ++ hash_bool (satisfied s) ++ hash_i64 (margin s).

Definition feed_evaluation (r : EvaluationRecord) : hashing :=
  hash_u64 (rec_id r) ++ hash_u64 (rec_generation r) ++ hash_u64 (set_id r) ++
  hash_u64 (set_generation r) ++ hash_u64 (rec_path r) ++
  hash_u64 (rec_authority_generation r) ++ hash_u16 (code (outcome r)) ++
  hash_u16 (ReasonCode.to_code (primary_reason r)) ++ hash_u8 (code (state r)) ++
  hash_bool (reasons_truncated r) ++ hash_counted feed_reason (reasons r) ++
  hash_counted feed_slot (preferences r) ++ feed_evidence (rec_evidence r) ++
  hash_u32 (rec_consulted r).

Definition evaluation_digest (r : EvaluationRecord) : Digest256 :=
  digest_of "crf.evaluation.v1" (feed_evaluation r).

Definition derived_evaluation_id (set_id set_generation path authority_generation : Z)
    (evidence : EvidenceGenerationSet) : Z :=
  let derived := leading_u64 (digest_of "crf.evaluation-id.v1"
    (hash_u64 set_id ++ hash_u64 set_generation ++ hash_u64 path ++
     hash_u64 authority_generation ++ feed_evidence evidence)) in
  if derived =? 0 then 1 else derived.

(** ** Wire and durable encoding *)

Definition write_evidence (e : EvidenceGenerationSet) : writing :=
  put_u64 (topology e) ;;> put_u64 (link_state e) ;;> put_u64 (capability e) ;;>
  put_u64 (failure_domain e) ;;> put_u64 (policy e) ;;> put_u64 (planner e) ;;>
  put_u64 (path_authority e) ;;> put_u32 (consulted e) ;;> put_u64 (captured_tick e).

Definition encode_provenance (p : Provenance) : writing :=
  put_u64 (epoch p) ;;> put_u64 (publisher p) ;;> put_u64 (worker_boot p) ;;>
  put_u64 (attempt p) ;;> put_u64 (request p).

Definition write_reason (r : Reason) : writing :=
  put_u16 (ReasonCode.to_code (reason_code r)) ;;> put_u8 (code (reason_class r)) ;;>
  put_u8 (code (family r)) ;;> put_u8 (code (subject_kind r)) ;;> put_u8 0 ;;>
  put_u64 (reason_constraint r) ;;> put_u16 (code (constraint_kind r)) ;;> put_u16 0 ;;>
  put_u32 (constraint_ordinal r) ;;> put_u64 (subject r) ;;> put_u64 (expected r) ;;>
  put_u64 (actual r).

Definition write_slot (s : PreferenceSlot) : writing :=
  put_u64 (slot_constraint s) ;;> put_u16 (code (slot_kind s)) ;;> put_u16 0 ;;>
  put_u32 (slot_ordinal s) ;;> put_u32 (rank s) ;;> put_u32 (weight s) ;;>
  put_bool (satisfied s) ;;> put_i64 (margin s).

Definition encode_evaluation (r : EvaluationRecord) : writing :=
  put_u64 (rec_id r) ;;> put_u64 (rec_generation r) ;;> put_u64 (set_id r) ;;>
  put_u64 (set_generation r) ;;> put_u64 (rec_path r) ;;>
  put_u64 (rec_authority_generation r) ;;> put_u16 (code (outcome r)) ;;>
  put_u16 (ReasonCode.to_code (primary_reason r)) ;;> put_u8 (code (state r)) ;;>
  put_bool (reasons_truncated r) ;;> put_u64 (committed_tick r) ;;>
  encode_provenance (provenance r) ;;> write_evidence (rec_evidence r) ;;>
  write_counted write_reason (reasons r) ;;> write_counted write_slot (preferences r) ;;>
  put_u32 (rec_consulted r) ;;> put_raw (digest r).

(** [read_generation] of a value already read. *)
Definition check_generation (raw : Z) : reader Z :=
  if raw =? 0 then mret 0 else (_ ← fail_if (negb (is_representable raw)); mret raw).

Definition read_evaluation_evidence : reader EvidenceGenerationSet :=
  topology ← u64; link_state ← u64; capability ← u64; failure_domain ← u64; policy ← u64;
  planner ← u64; path_authority ← u64; consulted ← u32; captured_tick ← u64;
  topology ← check_generation topology; link_state ← check_generation link_state;
  capability ← check_generation capability; failure_domain ← check_generation failure_domain;
  policy ← check_generation policy; planner ← check_generation planner;
  path_authority ← check_generation path_authority;
  mret (mkEvidence topology link_state capability failure_domain policy planner path_authority
    consulted captured_tick).

Definition decode_provenance : reader Provenance :=
  epoch ← u64; publisher ← u64; boot ← u64; attempt ← u64; request ← u64;
  _ ← fail_if (negb (epoch =? 0) && negb (is_representable epoch));
  mret (mkProvenance epoch publisher boot attempt request).

Definition known_outcome (raw : Z) : bool := raw <=? 10.
Definition known_reason_class (raw : Z) : bool := raw <=? 8.
Definition known_subject_kind (raw : Z) : bool := raw <=? 15.
Definition known_result_state (raw : Z) : bool := (1 <=? raw) && (raw <=? 5).
Definition known_evidence_family (raw : Z) : bool := raw <=? 8.
Definition known_constraint_kind (raw : Z) : bool := raw <=? 18.

(** One round of the reason loop, given [previous]. *)
Definition read_reason (previous : option Reason) : reader Reason :=
  code_raw ← u16; klass ← u8; family ← u8; subject_kind ← u8; padding ← u8; constraint ← u64;
  constraint_kind ← u16; constraint_padding ← u16; ordinal ← u32; subject ← u64;
  expected ← u64; actual ← u64;
  _ ← fail_if (negb (padding =? 0) || negb (constraint_padding =? 0) ||
               negb (known_reason_class klass) || negb (known_subject_kind subject_kind) ||
               negb (known_evidence_family family) ||
               negb (known_constraint_kind constraint_kind));
  let reason := mkReason (ReasonCode.from_code code_raw) (of_code klass) constraint
    (of_code constraint_kind) ordinal (of_code family) (of_code subject_kind) subject expected
    actual in
  _ ← fail_if (negb (eeqb (reason_class_of (reason_code reason)) (reason_class reason)));
  _ ← fail_if (match previous with Some p => negb (reason_less p reason) | None => false end);
  mret reason.

Fixpoint read_reasons (count : nat) (previous : option Reason) : reader (list Reason) :=
  match count with
  | O => mret []
  | S count' =>
      reason ← read_reason previous; rest ← read_reasons count' (Some reason);
      mret (reason :: rest)
  end.

Definition read_slot : reader PreferenceSlot :=
  constraint ← u64; kind ← u16; padding ← u16; ordinal ← u32; rank ← u32; weight ← u32;
  satisfied ← boolean; margin ← i64;
  _ ← fail_if (negb (padding =? 0) || negb (known_constraint_kind kind));
  mret (mkSlot constraint (of_code kind) ordinal rank weight satisfied margin).

Definition decode_evaluation (limits : Limits) : reader EvaluationRecord :=
  id ← u64; generation ← u64; set_id ← u64; set_generation ← u64; path ← u64;
  authority_generation ← u64; outcome ← u16; primary ← u16; state ← u8; truncated ← boolean;
  committed_tick ← u64;
  _ ← fail_if ((id =? 0) || negb (is_representable generation) || (set_id =? 0) ||
               negb (is_representable set_generation) || (path =? 0) ||
               negb (is_representable authority_generation) || negb (known_outcome outcome) ||
               negb (known_result_state state));
  provenance ← decode_provenance; evidence ← read_evaluation_evidence;
  reason_count ← bounded_length (max_explanation_reasons limits);
  reasons ← read_reasons (Z.to_nat reason_count) None;
  _ ← fail_if (match reasons with
               | front :: _ => negb (primary =? ReasonCode.to_code (reason_code front))
               | [] => false
               end);
  let primary_reason := ReasonCode.from_code primary in
  _ ← fail_if (empty reasons && negb (reason_code_eqb primary_reason ReasonCode.None));
  preferences ← read_counted read_slot (max_constraints_per_set limits);
  consulted ← u32; digest ← raw kSize;
  mret (mkEvaluation id generation set_id set_generation path authority_generation
    (of_code outcome) primary_reason reasons preferences evidence consulted provenance
    (of_code state) truncated committed_tick digest).

(** ** Lemmas: the order of reasons *)

#[export] Instance compare_reason_order : CmpOrder compare_reason.
Proof.
  unfold compare_reason.
  refine (cmp_step_order (λ c, code (reason_class c)) _ _).
Qed.

Lemma reason_less_cmp a b : reason_less a b = (compare_reason a b <? 0).
Proof. done. Qed.

Lemma compare_reason_zero a b :
  compare_reason a b = 0 →
  reason_class a = reason_class b ∧
  ReasonCode.to_code (reason_code a) = ReasonCode.to_code (reason_code b).
Proof.
  unfold compare_reason. rewrite !cmp_step_zero. intros (H1 & _ & H3 & _).
  split; [by apply code_inj|done].
Qed.

(** Named codes survive the cast to an integer and back. *)
Definition named (x : ReasonCode.t) : Prop := ReasonCode.from_code (ReasonCode.to_code x) = x.

(** ** Lemmas: encodings *)

#[export] Typeclasses Opaque write_evidence encode_provenance write_reason write_slot
  encode_evaluation.
#[export] Instance appends_write_evidence e : Appends (write_evidence e).
Proof. unfold write_evidence. apply _. Qed.
#[export] Instance appends_encode_provenance p : Appends (encode_provenance p).
Proof. unfold encode_provenance. apply _. Qed.
#[export] Instance appends_write_reason r : Appends (write_reason r).
Proof. unfold write_reason. apply _. Qed.
#[export] Instance appends_write_slot s : Appends (write_slot s).
Proof. unfold write_slot. apply _. Qed.
#[export] Instance appends_encode_evaluation r : Appends (encode_evaluation r).
Proof. unfold encode_evaluation. apply _. Qed.

#[export] Instance safe_check_generation v : Safe (check_generation v).
Proof. unfold check_generation. apply _. Qed.
#[export] Instance safe_read_evaluation_evidence : Safe read_evaluation_evidence.
Proof. unfold read_evaluation_evidence. apply _. Qed.
#[export] Instance safe_decode_provenance : Safe decode_provenance.
Proof. unfold decode_provenance. apply _. Qed.
#[export] Instance safe_read_reason p : Safe (read_reason p).
Proof. unfold read_reason. apply _. Qed.
#[export] Instance safe_read_reasons n p : Safe (read_reasons n p).
Proof. revert p. induction n; intros p; simpl; apply _. Qed.
#[export] Instance safe_read_slot : Safe read_slot.
Proof. unfold read_slot. apply _. Qed.
#[export] Instance safe_decode_evaluation limits : Safe (decode_evaluation limits).
Proof.
  assert (Safe (raw kSize)) by (apply safe_raw; done).
  unfold decode_evaluation. apply _.
Qed.

Lemma reads_check_generation {B} v (k : Z → reader B) bs b :
  generation_field v → reads (k v) bs b → reads (check_generation v ≫= k) bs b.
Proof.
  intros Hv Hk. unfold check_generation. destruct (v =? 0) eqn:E.
  - apply Z.eqb_eq in E as ->. exact Hk.
  - assert (is_representable v = true) as ->.
    { unfold generation_field in Hv. rewrite is_representable_true; lia. }
    exact Hk.
Qed.

Lemma reads_evaluation_evidence e :
  wire_evidence e → reads read_evaluation_evidence (write_evidence e []) e.
Proof.
  intros []. unfold read_evaluation_evidence, write_evidence.
  do 7 (read_field; [by apply reads_u64, generation_field_fits|]).
  read_field; [by apply reads_u32|]. read_last; [by apply reads_u64|].
  do 7 (apply reads_check_generation; [done|]). destruct e. apply reads_ret.
Qed.

Definition wire_provenance (p : Provenance) : Prop :=
  generation_field (epoch p) ∧ fits 64 (publisher p) ∧ fits 64 (worker_boot p) ∧
  fits 64 (attempt p) ∧ fits 64 (request p).

Lemma reads_provenance p :
  wire_provenance p → reads decode_provenance (encode_provenance p []) p.
Proof.
  intros (He & H1 & H2 & H3 & H4). unfold decode_provenance, encode_provenance.
  read_field; [by apply reads_u64, generation_field_fits|].
  do 3 (read_field; [by apply reads_u64|]). read_last; [by apply reads_u64|].
  apply reads_guard; [|destruct p; apply reads_ret].
  destruct (epoch p =? 0) eqn:E; [done|]. apply Z.eqb_neq in E. simpl. apply negb_false_iff.
  unfold generation_field in He. rewrite is_representable_true; lia.
Qed.

Record wire_reason (r : Reason) : Prop := {
  wr_code : named (reason_code r) ∧ fits 16 (ReasonCode.to_code (reason_code r));
  wr_class : reason_class_of (reason_code r) = reason_class r;
  wr_constraint : fits 64 (reason_constraint r);
  wr_ordinal : fits 32 (constraint_ordinal r);
  wr_subject : fits 64 (subject r);
  wr_expected : fits 64 (expected r);
  wr_actual : fits 64 (actual r)
}.

Lemma reads_reason previous r :
  wire_reason r → (∀ p, previous = Some p → reason_less p r = true) →
  reads (read_reason previous) (write_reason r []) r.
Proof.
  intros [[Hn Hc] Hk H1 H2 H3 H4 H5] Hp. unfold read_reason, write_reason.
  read_field; [by apply reads_u16|]. read_field; [apply reads_u8; by destruct (reason_class r)|].
  read_field; [apply reads_u8; by destruct (family r)|].
  read_field; [apply reads_u8; by destruct (subject_kind r)|]. read_field; [by apply reads_u8|].
  read_field; [by apply reads_u64|].
  read_field; [apply reads_u16; by destruct (constraint_kind r)|]. read_field; [by apply reads_u16|].
  read_field; [by apply reads_u32|]. do 2 (read_field; [by apply reads_u64|]).
  read_last; [by apply reads_u64|]. rewrite !of_code_code, Hn. apply reads_guard.
  { by destruct (reason_class r), (family r), (subject_kind r), (constraint_kind r). }
  destruct r; simpl in *. apply reads_guard; [by rewrite Hk, eeqb_refl|].
  apply reads_guard; [|apply reads_ret].
  destruct previous as [p|]; [|done]. by rewrite Hp.
Qed.

Lemma reads_reasons rs : ∀ previous,
  Forall wire_reason rs → StronglySorted (λ a b, compare_reason a b < 0) rs →
  (∀ p, previous = Some p → Forall (λ r, compare_reason p r < 0) rs) →
  reads (read_reasons (length rs) previous) (put_each write_reason rs []) rs.
Proof.
  induction rs as [|r rs IH]; intros previous Hw Hs Hp; [apply reads_ret|].
  apply Forall_cons in Hw as [Hr Hw]. inversion Hs as [|? ? Hs' Hlt]; subst.
  rewrite put_each_cons by apply _. cbn [length read_reasons].
  eapply reads_bind; [apply reads_reason; [done|]|cbv beta].
  - intros p Hpp. specialize (Hp p Hpp). apply Forall_cons in Hp as [Hp _].
    unfold reason_less. lia.
  - eapply reads_then_ret; [apply IH; [done|done|by intros ? [= <-]]|]. apply reads_ret.
Qed.

Definition wire_slot (s : PreferenceSlot) : Prop :=
  fits 64 (slot_constraint s) ∧ fits 32 (slot_ordinal s) ∧ fits 32 (rank s) ∧
  fits 32 (weight s) ∧ fits_i64 (margin s).

Lemma reads_slot s : wire_slot s → reads read_slot (write_slot s []) s.
Proof.
  intros (H1 & H2 & H3 & H4 & H5). unfold read_slot, write_slot.
  read_field; [by apply reads_u64|]. read_field; [apply reads_u16; by destruct (slot_kind s)|].
  read_field; [by apply reads_u16|]. do 3 (read_field; [by apply reads_u32|]).
  read_field; [apply reads_bool|]. read_last; [by apply reads_i64|].
  apply reads_guard; [by destruct (slot_kind s)|]. rewrite of_code_code.
  destruct s. apply reads_ret.
Qed.

(** A record a decoder accepts: strict identities and generations, ascending
    reasons whose classes agree with their codes, the primary reason first. *)
Record wire_evaluation (limits : Limits) (r : EvaluationRecord) : Prop := {
  wv_ids : fits 64 (rec_id r) ∧ fits 64 (set_id r) ∧ fits 64 (rec_path r) ∧
    rec_id r ≠ 0 ∧ set_id r ≠ 0 ∧ rec_path r ≠ 0;
  wv_generations : Forall (λ g, 0 < g < 2 ^ 63)
    [rec_generation r; set_generation r; rec_authority_generation r];
  wv_tick : fits 64 (committed_tick r);
  wv_provenance : wire_provenance (provenance r);
  wv_evidence : wire_evidence (rec_evidence r);
  wv_reasons : Forall wire_reason (reasons r);
  wv_reasons_size : size (reasons r) <= max_explanation_reasons limits;
  wv_sorted : StronglySorted (λ a b, compare_reason a b < 0) (reasons r);
  wv_primary : primary_reason r =
    match reasons r with front :: _ => reason_code front | [] => ReasonCode.None end;
  wv_slots : Forall wire_slot (preferences r);
  wv_slots_size : size (preferences r) <= max_constraints_per_set limits;
  wv_consulted : fits 32 (rec_consulted r);
  wv_digest : size (digest r) = kSize
}.

Lemma reads_reason_list {B} limits rs (k : list Reason → reader B) g b `{!Appends g} :
  limits_ok limits = true → Forall wire_reason rs → size rs <= max_explanation_reasons limits →
  StronglySorted (λ a b, compare_reason a b < 0) rs → reads (k rs) (g []) b →
  reads (n ← bounded_length (max_explanation_reasons limits);
         rs ← read_reasons (Z.to_nat n) None; k rs)
    ((write_counted write_reason rs ;;> g) []) b.
Proof.
  intros Hl Hw Hs Hsorted Hk.
  pose proof (limits_ok_entry limits 11 _ Hl eq_refl) as Lr. cbn [snd] in Lr.
  assert (fits 32 (size rs)) by by eapply size_fits32.
  rewrite seqw_nil by apply _. unfold write_counted. rewrite seqw_nil by apply _.
  rewrite <- app_assoc, (wrap_small 32) by done.
  eapply reads_bind; [by apply reads_bounded_length|cbv beta].
  eapply reads_bind; [|exact Hk]. unfold size. rewrite Nat2Z.id. by apply reads_reasons.
Qed.

Lemma reads_evaluation limits r :
  limits_ok limits = true → wire_evaluation limits r →
  reads (decode_evaluation limits) (encode_evaluation r []) r.
Proof.
  intros Hl [(I1 & I2 & I3 & I4 & I5 & I6) Hg Ht Hp He Hr Hrs Hsort Hprim Hsl Hsls Hc Hd].
  rewrite !Forall_cons in Hg. destruct Hg as (G1 & G2 & G3 & _).
  pose proof (limits_ok_entry limits 1 _ Hl eq_refl) as Lc. cbn [snd] in Lc.
  rewrite Forall_forall in Hsl.
  assert (∀ g, 0 < g < 2 ^ 63 → fits 64 g ∧ is_representable g = true) as Hgen.
  { intros g Hg. unfold fits. rewrite is_representable_true; lia. }
  destruct (Hgen _ G1) as [F1 R1], (Hgen _ G2) as [F2 R2], (Hgen _ G3) as [F3 R3].
  assert (fits 16 (ReasonCode.to_code (primary_reason r)) ∧ named (primary_reason r)) as [Hpf Hpn].
  { rewrite Hprim. destruct (reasons r) as [|front rest]; [done|].
    apply Forall_cons in Hr as [[[]] _]. done. }
  unfold decode_evaluation, encode_evaluation.
  do 6 (read_field; [by apply reads_u64|]).
  read_field; [apply reads_u16; by destruct (outcome r)|].
  read_field; [by apply reads_u16|]. read_field; [apply reads_u8; by destruct (state r)|].
  read_field; [apply reads_bool|]. read_field; [by apply reads_u64|]. apply reads_guard.
  { rewrite R1, R2, R3. apply Z.eqb_neq in I4 as ->, I5 as ->, I6 as ->.
    by destruct (outcome r), (state r). }
  read_field; [by apply reads_provenance|]. read_field; [by apply reads_evaluation_evidence|].
  apply reads_reason_list; [apply _|done..|]. cbv zeta. rewrite Hpn, !of_code_code.
  apply reads_guard.
  { rewrite Hprim. destruct (reasons r); [done|]. by rewrite Z.eqb_refl. }
  apply reads_guard.
  { rewrite Hprim. by destruct (reasons r). }
  read_field; [apply reads_counted; [apply _|by eapply size_fits32|done|]|].
  { intros x Hx. by apply reads_slot, Hsl. }
  read_field; [by apply reads_u32|]. read_last; [rewrite <- Hd; apply reads_raw|].
  destruct r. apply reads_ret.
Qed.

(** ** Lemmas: decoding untrusted bytes *)

(** What every decoded record satisfies. *)
Record ordered_evaluation (limits : Limits) (r : EvaluationRecord) : Prop := {
  oe_ids : rec_id r ≠ 0 ∧ set_id r ≠ 0 ∧ rec_path r ≠ 0;
  oe_sorted : StronglySorted (λ a b, compare_reason a b < 0) (reasons r);
  oe_classes : Forall (λ x, reason_class_of (reason_code x) = reason_class x) (reasons r);
  oe_primary : ReasonCode.to_code (primary_reason r) =
    match reasons r with front :: _ => ReasonCode.to_code (reason_code front) | [] => 0 end;
  oe_sizes : size (reasons r) <= max_explanation_reasons limits ∧
    size (preferences r) <= max_constraints_per_set limits
}.

Lemma from_code_to_code z : ReasonCode.to_code (ReasonCode.from_code z) = z.
Proof. unfold ReasonCode.from_code. repeat case_match; done. Qed.

Lemma read_reason_yields previous :
  yields (read_reason previous) (λ r, reason_class_of (reason_code r) = reason_class r ∧
    ∀ p, previous = Some p → compare_reason p r < 0).
Proof.
  unfold read_reason. repeat yields_step. cbv zeta. repeat yields_step. apply yields_ret.
  split; [by apply eeqb_eq, negb_false_iff|]. intros p ->.
  match goal with H : negb (reason_less _ _) = false |- _ => rename H into Hless end.
  apply negb_false_iff in Hless. rewrite reason_less_cmp in Hless. lia.
Qed.

Lemma read_reasons_yields n : ∀ previous,
  yields (read_reasons n previous) (λ l, length l = n ∧
    StronglySorted (λ a b, compare_reason a b < 0) l ∧
    Forall (λ x, reason_class_of (reason_code x) = reason_class x) l ∧
    ∀ p, previous = Some p → Forall (λ x, compare_reason p x < 0) l).
Proof.
  induction n as [|n IH]; intros previous; cbn [read_reasons].
  { apply yields_ret. repeat constructor. }
  eapply yields_bind; [apply read_reason_yields|]. intros r [Hc Hp].
  eapply yields_bind; [apply IH|]. intros l (Hl & Hs & Hcl & Hr). apply yields_ret.
  specialize (Hr r eq_refl). split_and!; [simpl; lia|by constructor|by constructor|].
  intros p ->. specialize (Hp p eq_refl). constructor; [done|].
  eapply Forall_impl; [exact Hr|]. intros x Hx. simpl in Hx.
  eapply (cmp_lt_le_trans compare_reason); [exact Hp|lia].
Qed.

Lemma read_counted_yields {A} (m : reader A) max :
  yields (read_counted m max) (λ l, size l <= max).
Proof.
  unfold read_counted. eapply yields_bind; [apply yields_bounded_length|]. intros n Hn.
  eapply yields_weaken; [apply (yields_each m n (λ _, True)), yields_any|].
  intros l [_ Hl]. simpl in *. unfold size. rewrite Hl. lia.
Qed.

Lemma decode_evaluation_yields limits :
  limits_ok limits = true → yields (decode_evaluation limits) (ordered_evaluation limits).
Proof.
  intros HL. pose proof (limits_ok_entry limits 1 _ HL eq_refl) as Lc.
  pose proof (limits_ok_entry limits 11 _ HL eq_refl) as Lr. cbn [snd] in *.
  unfold decode_evaluation.
  do 11 (apply yields_skip; intro). apply yields_guard. intros Hids.
  apply orb_false_iff in Hids as [Hids _].
  do 2 (apply yields_skip; intro). eapply yields_bind; [apply yields_bounded_length|].
  intros n Hn. eapply yields_bind; [apply read_reasons_yields|].
  intros rs (Hl & Hs & Hc & _). apply yields_guard. intros Hfront. cbv zeta.
  apply yields_guard. intros Hnone.
  eapply yields_bind; [apply read_counted_yields|]. intros slots Hslots.
  do 2 (apply yields_skip; intro). apply yields_ret. bool_hyps.
  split; simpl; try done.
  - split_and!; lia.
  - rewrite from_code_to_code. destruct rs as [|front rest]; simpl in *; [|lia].
    unfold reason_code_eqb in Hnone. rewrite from_code_to_code in Hnone. simpl in *. lia.
  - unfold size in *. split; [|lia]. rewrite Hl. lia.
Qed.

(** ** Properties *)

(** A well-formed evaluation record is read back from its encoding, reasons,
    preference slots, provenance and digest included, and the decoder stops right
    after it. *)
Theorem evaluation_roundtrip limits r :
  limits_ok limits = true → wire_evaluation limits r →
  ∀ post, decode_evaluation limits (open_reader (encode_evaluation r [] ++ post)) =
    (Some r, mkReader (encode_evaluation r [] ++ post) (size (encode_evaluation r [])) true).
Proof. intros HL Hw post. apply (reads_evaluation limits r HL Hw [] post). Qed.

(** ** Witnesses *)

Definition sample_reason (code : ReasonCode.t) (constraint subject : Z) : Reason :=
  mkReason code (reason_class_of code) constraint ConstraintKind.RequiredNode 0 EvidenceFamily.None
    SubjectKind.Node subject 1 0.

(** A record of the outcome [o] for the path [p]. *)
Definition sample_record (p : Z) (o : Outcome.t) (rs : list Reason) (slots : list PreferenceSlot)
    : EvaluationRecord :=
  mkEvaluation 5 1 7 1 p 1 o
    match rs with front :: _ => reason_code front | [] => ReasonCode.None end rs slots
    (sample_evidence 3) 127 (mkProvenance 1 2 3 4 5) ResultState.Current false 3 zero_digest.

Definition sample_reasons : list Reason :=
  [sample_reason ReasonCode.RequiredNodeAbsent 1 10; sample_reason ReasonCode.RequiredNodeAbsent 1 20].

Lemma evaluation_roundtrip_witness :
  let r := sample_record 1 Outcome.HardConstraintFailed sample_reasons
    [mkSlot 3 ConstraintKind.MaxHopCount 1 1 10 true 2] in
  decode_evaluation default_limits (open_reader (encode_evaluation r [] ++ [])) =
  (Some r, mkReader (encode_evaluation r [] ++ []) (size (encode_evaluation r [])) true).
Proof.
  cbv zeta. apply evaluation_roundtrip; [reflexivity|].
  split; cbn; unfold fits, generation_field, size; cbn; try lia.
  - repeat constructor; lia.
  - unfold wire_provenance, generation_field, fits; cbn; lia.
  - split; cbn; unfold fits, generation_field; lia.
  - repeat constructor; cbn; unfold fits; try lia.
  - repeat constructor.
  - reflexivity.
  - repeat constructor; cbn; unfold fits, fits_i64; lia.
  - reflexivity.
Defined.
