(* ===== verification/Ordering.v ===== *)
(** The deterministic candidate ordering, [ordering.hpp] and [ordering.cpp]: the
    ranking policy, the comparison of ranked candidates and the ordered list of
    the admissible ones. *)

From Stdlib Require Import ZArith Lia Bool Strings.Byte.
From stdpp Require Import base list numbers strings sets sorting.
From S2P Require Import Prelude Base Codec Digest Constraint Candidate Evaluation.

Open Scope string_scope.
Open Scope list_scope.
Open Scope Z_scope.

Module CandidateTiebreak.
Inductive t :=
  | PathIdAscending | NodeSequenceLexicographic.

Definition to_code (x : t) : Z :=
  match x with
  | PathIdAscending => 1 | NodeSequenceLexicographic => 2
  end.

Definition from_code (z : Z) : t :=
  match z with
  | 2 => NodeSequenceLexicographic | _ => PathIdAscending
  end.

Definition to_string (x : t) : string :=
  match x with
  | PathIdAscending => "PathIdAscending"
  | NodeSequenceLexicographic => "NodeSequenceLexicographic"
  end.
End CandidateTiebreak.

#[export] Instance CandidateTiebreak_enum : Enum CandidateTiebreak.t.
Proof.
  refine {| code := CandidateTiebreak.to_code; of_code := CandidateTiebreak.from_code |}.
  by intros [].
Defined.

Record RankingPolicy := mkRanking {
  consume_planner_rank : bool;
  consume_planner_cost : bool;
  prefer_lower_cost : bool;
  expected_cost_model : PlannerCostModel.t;
  tiebreak : CandidateTiebreak.t
}.

Definition default_ranking : RankingPolicy :=
  mkRanking false false true PlannerCostModel.None CandidateTiebreak.PathIdAscending.

Definition ranking_eqb (a b : RankingPolicy) : bool :=
  eqb (consume_planner_rank a) (consume_planner_rank b) &&
  eqb (consume_planner_cost a) (consume_planner_cost b) &&
  eqb (prefer_lower_cost a) (prefer_lower_cost b) &&
  eeqb (expected_cost_model a) (expected_cost_model b) && eeqb (tiebreak a) (tiebreak b).

(** ** Comparisons *)

(** [if (a != b) return a ? -1 : 1;] and [if (a != b) return a > b ? -1 : 1;] *)
Definition true_first (a b : bool) (rest : Z) : Z :=
  if negb (eqb a b) then (if a then -1 else 1) else rest.
Definition larger_first (a b : Z) (rest : Z) : Z :=
  if negb (a =? b) then (if b <? a then -1 else 1) else rest.

(** One round of the loop of [compare_preferences]. *)
Definition compare_slot (a b : PreferenceSlot) : Z :=
  true_first (satisfied a) (satisfied b) (
  larger_first (margin a) (margin b) (
  larger_first (weight a) (weight b) 0)).

Definition compare_preferences (a b : list PreferenceSlot) : Z := cmp_list compare_slot a b.

Definition compare_ranked (a : EvaluationRecord) (candidate_a : CandidatePath)
    (b : EvaluationRecord) (candidate_b : CandidatePath) (policy : RankingPolicy) : Z :=
  let tie :=
    cmp_step (path candidate_a) (path candidate_b) 0 in
  let nodes :=
    match tiebreak policy with
    | CandidateTiebreak.NodeSequenceLexicographic =>
        let nodes := compare_node_sequences candidate_a candidate_b in
        if negb (nodes =? 0) then nodes else tie
    | CandidateTiebreak.PathIdAscending => tie
    end in
  let cost :=
    if consume_planner_cost policy then
      true_first (has_planner_cost candidate_a) (has_planner_cost candidate_b)
        (if has_planner_cost candidate_a &&
            negb (planner_cost candidate_a =? planner_cost candidate_b) then
           let lower_is_better := planner_cost candidate_a <? planner_cost candidate_b in
           let first_wins :=
             if prefer_lower_cost policy then lower_is_better else negb lower_is_better in
           if first_wins then -1 else 1
         else nodes)
    else nodes in
  let rank :=
    if consume_planner_rank policy then
      true_first (has_planner_rank candidate_a) (has_planner_rank candidate_b)
        (if has_planner_rank candidate_a then
           cmp_step (planner_rank candidate_a) (planner_rank candidate_b) cost
         else cost)
    else cost in
  let preference := compare_preferences (preferences a) (preferences b) in
  if negb (preference =? 0) then preference else rank.

(** ** The admissible order *)

Definition is_admissible (o : Outcome.t) : bool :=
  eeqb o Outcome.Admissible || eeqb o Outcome.AdmissibleWithPreferences.

(** The first loop: the admissible records with their index. *)
Fixpoint collect_admissible (index : nat) (rs : list EvaluationRecord) : list RankedCandidate :=
  match rs with
  | [] => []
  | r :: rest =>
      if is_admissible (outcome r)
      then mkRanked (rec_path r) (Z.of_nat index) :: collect_admissible (S index) rest
      else collect_admissible (S index) rest
  end.

(** The comparison lambda: both indices are in range. *)
Definition ranked_less (rs : list EvaluationRecord) (cs : list CandidatePath)
    (policy : RankingPolicy) (a b : RankedCandidate) : bool :=
  match rs !! Z.to_nat (record_index a), cs !! Z.to_nat (record_index a),
        rs !! Z.to_nat (record_index b), cs !! Z.to_nat (record_index b) with
  | Some ra, Some ca, Some rb, Some cb => compare_ranked ra ca rb cb policy <? 0
  | _, _, _, _ => false
  end.

Definition order_admissible (rs : list EvaluationRecord) (cs : list CandidatePath)
    (policy : RankingPolicy) : list RankedCandidate :=
  if negb (size rs =? size cs) then []
  else stable_sort (ranked_less rs cs policy) (collect_admissible 0 rs).

(** ** Encoding *)

Definition encode_ranking_policy (p : RankingPolicy) : writing :=
  put_bool (consume_planner_rank p) ;;> put_bool (consume_planner_cost p) ;;>
  put_bool (prefer_lower_cost p) ;;> put_u8 (code (expected_cost_model p)) ;;>
  put_u8 (code (tiebreak p)) ;;> put_u16 0.

Definition decode_ranking_policy : reader RankingPolicy :=
  rank ← boolean; cost ← boolean; lower ← boolean; cost_model ← u8; tiebreak ← u8; padding ← u16;
  _ ← fail_if ((3 <? cost_model) || (tiebreak =? 0) || (2 <? tiebreak) || negb (padding =? 0));
  mret (mkRanking rank cost lower (of_code cost_model) (of_code tiebreak)).

Definition feed_ranking (p : RankingPolicy) : hashing :=
  hash_bool (consume_planner_rank p) ++ hash_bool (consume_planner_cost p) ++
  hash_bool (prefer_lower_cost p) ++ hash_u8 (code (expected_cost_model p)) ++
  hash_u8 (code (tiebreak p)).

(** ** Lemmas: the comparison is a total order *)

Abbreviation ranked_pair := (EvaluationRecord * CandidatePath)%type.

Definition compare_pairs (policy : RankingPolicy) (a b : ranked_pair) : Z :=
  compare_ranked a.1 a.2 b.1 b.2 policy.

Lemma true_first_step a b rest : true_first a b rest = cmp_step (Z.b2z (negb a)) (Z.b2z (negb b)) rest.
Proof. by destruct a, b. Qed.
Lemma larger_first_step a b rest : larger_first a b rest = cmp_step (- a) (- b) rest.
Proof. unfold larger_first, cmp_step. ifs_lia. Qed.

#[export] Instance compare_slot_order : CmpOrder compare_slot.
Proof.
  eapply cmp_order_ext.
  { intros a b. unfold compare_slot. rewrite true_first_step, (larger_first_step (margin a)), (larger_first_step (weight a)). reflexivity. }
  refine (cmp_step_order (λ s, Z.b2z (negb (satisfied s))) _ _).
Qed.

(** The keys the comparison reads, in order. *)
Definition rank_key (policy : RankingPolicy) (p : ranked_pair) : Z :=
  if consume_planner_rank policy && has_planner_rank p.2 then planner_rank p.2 else 0.
Definition cost_key (policy : RankingPolicy) (p : ranked_pair) : Z :=
  if consume_planner_cost policy && has_planner_cost p.2 then
    if prefer_lower_cost policy then planner_cost p.2 else - planner_cost p.2
  else 0.
Definition flag_key (consumed has : bool) : Z := Z.b2z (consumed && negb has).
Definition nodes_cmp (policy : RankingPolicy) (a b : ranked_pair) : Z :=
  match tiebreak policy with
  | CandidateTiebreak.NodeSequenceLexicographic => compare_node_sequences a.2 b.2
  | CandidateTiebreak.PathIdAscending => 0
  end.

Definition ranked_cmp (policy : RankingPolicy) (a b : ranked_pair) : Z :=
  cmp_then (compare_preferences (preferences a.1) (preferences b.1)) (
  cmp_step (flag_key (consume_planner_rank policy) (has_planner_rank a.2))
           (flag_key (consume_planner_rank policy) (has_planner_rank b.2)) (
  cmp_step (rank_key policy a) (rank_key policy b) (
  cmp_step (flag_key (consume_planner_cost policy) (has_planner_cost a.2))
           (flag_key (consume_planner_cost policy) (has_planner_cost b.2)) (
  cmp_step (cost_key policy a) (cost_key policy b) (
  cmp_then (nodes_cmp policy a b) (cmp_step (path a.2) (path b.2) 0)))))).

#[export] Instance nodes_cmp_order policy : CmpOrder (nodes_cmp policy).
Proof.
  unfold nodes_cmp. destruct (tiebreak policy); [apply cmp_const|].
  apply (cmp_on (λ p : ranked_pair, map node (path_nodes p.2)) (cmp_list cmp_Z)). apply _.
Qed.

#[export] Instance ranked_cmp_order policy : CmpOrder (ranked_cmp policy).
Proof.
  unfold ranked_cmp. refine (cmp_then_order _ _ _ _).
  { apply (cmp_on (λ p : ranked_pair, preferences p.1) (cmp_list compare_slot)). apply _. }
Qed.

(** The code's comparison is the lexicographic comparison of those keys. *)
Lemma compare_pairs_cmp policy a b : compare_pairs policy a b = ranked_cmp policy a b.
Proof.
  unfold compare_pairs, compare_ranked, ranked_cmp, cmp_then at 1. cbv zeta.
  destruct (compare_preferences _ _ =? 0); cbn [negb]; [|done].
  unfold rank_key, cost_key, flag_key, nodes_cmp, true_first, cmp_then, cmp_step.
  destruct (tiebreak policy), (consume_planner_rank policy), (consume_planner_cost policy),
    (prefer_lower_cost policy), (has_planner_rank a.2), (has_planner_rank b.2),
    (has_planner_cost a.2), (has_planner_cost b.2); cbn [negb eqb andb Z.b2z]; ifs_lia.
Qed.

#[export] Instance compare_pairs_order policy : CmpOrder (compare_pairs policy).
Proof. apply (cmp_order_ext _ _ (compare_pairs_cmp policy)). apply _. Qed.

Lemma compare_pairs_zero policy a b :
  compare_pairs policy a b = 0 → path a.2 = path b.2.
Proof.
  rewrite compare_pairs_cmp. unfold ranked_cmp.
  repeat first [rewrite cmp_then_zero|rewrite cmp_step_zero].
  intros (_ & _ & _ & _ & _ & _ & H & _). done.
Qed.

(** ** Lemmas: the admissible order *)

Definition pair_less (policy : RankingPolicy) (a b : ranked_pair) : bool :=
  compare_pairs policy a b <? 0.
Definition pair_admissible (p : ranked_pair) : bool := is_admissible (outcome p.1).

(** The pair an entry of the order stands for. *)
Definition resolve (rs : list EvaluationRecord) (cs : list CandidatePath) (r : RankedCandidate)
    : option ranked_pair := zip rs cs !! Z.to_nat (record_index r).

Definition option_less (policy : RankingPolicy) (a b : option ranked_pair) : bool :=
  match a, b with Some a, Some b => pair_less policy a b | _, _ => false end.

Lemma lookup_zip_pair {A B} (l : list A) (k : list B) i :
  zip l k !! i = match l !! i, k !! i with Some x, Some y => Some (x, y) | _, _ => None end.
Proof.
  revert k i. induction l as [|x l IH]; intros [|y k] [|i]; simpl; try done.
  by destruct (l !! i).
Qed.

Lemma ranked_less_resolve rs cs policy a b :
  ranked_less rs cs policy a b = option_less policy (resolve rs cs a) (resolve rs cs b).
Proof.
  unfold ranked_less, resolve. rewrite !lookup_zip_pair.
  destruct (rs !! Z.to_nat (record_index a)), (cs !! Z.to_nat (record_index a)),
    (rs !! Z.to_nat (record_index b)), (cs !! Z.to_nat (record_index b)); done.
Qed.

Lemma collect_admissible_resolve rs cs pr pc :
  length pr = length pc → length rs = length cs →
  map (resolve (pr ++ rs) (pc ++ cs)) (collect_admissible (length pr) rs) =
  map Some (List.filter pair_admissible (zip rs cs)).
Proof.
  revert cs pr pc. induction rs as [|r rs IH]; intros [|c cs] pr pc Hp Hl; try done.
  cbn [collect_admissible]. specialize (IH cs (pr ++ [r]) (pc ++ [c])).
  rewrite <- !app_assoc, !length_app, Hp in IH. simpl in IH. rewrite Nat.add_1_r in IH.
  simpl in Hl. specialize (IH eq_refl ltac:(lia)). rewrite <- Hp in IH.
  unfold pair_admissible at 1. simpl. destruct (is_admissible (outcome r)); [|exact IH].
  simpl. f_equal; [|exact IH]. unfold resolve. simpl. rewrite Nat2Z.id, lookup_zip_pair.
  by rewrite !list_lookup_middle.
Qed.

Lemma order_admissible_resolve rs cs policy :
  size rs = size cs →
  map (resolve rs cs) (order_admissible rs cs policy) =
  map Some (stable_sort (pair_less policy) (List.filter pair_admissible (zip rs cs))).
Proof.
  intros Hs. unfold order_admissible. rewrite Hs, Z.eqb_refl. cbn [negb].
  rewrite (stable_sort_map _ _ (option_less policy)) by apply ranked_less_resolve.
  pose proof (collect_admissible_resolve rs cs [] []) as H. simpl in H.
  rewrite H; [|done|unfold size in Hs; lia]. symmetry. by apply stable_sort_map.
Qed.

Lemma collect_admissible_paths index rs r :
  r ∈ collect_admissible index rs →
  ∃ rec, rs !! (Z.to_nat (record_index r) - index)%nat = Some rec ∧ ranked_path r = rec_path rec ∧
    (index <= Z.to_nat (record_index r))%nat.
Proof.
  revert index. induction rs as [|x rs IH]; intros index; simpl; [set_solver|].
  intros Hr. assert (r ∈ collect_admissible (S index) rs →
    ∃ rec, (x :: rs) !! (Z.to_nat (record_index r) - index)%nat = Some rec ∧
      ranked_path r = rec_path rec ∧ (index <= Z.to_nat (record_index r))%nat) as Hrest.
  { intros H. destruct (IH _ H) as (rec & Hl & Hp & Hi). exists rec. split_and!; [|done|lia].
    replace (Z.to_nat (record_index r) - index)%nat
      with (S (Z.to_nat (record_index r) - S index)) by lia. done. }
  destruct (is_admissible (outcome x)); [|by apply Hrest].
  apply elem_of_cons in Hr as [->|Hr]; [|by apply Hrest].
  exists x. simpl. rewrite Nat2Z.id, Nat.sub_diag. done.
Qed.

(** ** Properties *)

(** The admissible order lists exactly the admissible records, each once,
    each under its own path, sorted by the ranking comparison. *)
Theorem order_admissible_sorted rs cs policy :
  size rs = size cs →
  (∃ ordered, map (resolve rs cs) (order_admissible rs cs policy) = map Some ordered ∧
     ordered ≡ₚ List.filter pair_admissible (zip rs cs) ∧
     StronglySorted (λ a b, compare_pairs policy a b <= 0) ordered) ∧
  (∀ r, r ∈ order_admissible rs cs policy →
     ∃ rec, rs !! Z.to_nat (record_index r) = Some rec ∧ ranked_path r = rec_path rec).
Proof.
  intros Hs. split.
  - eexists. split_and!; [by apply order_admissible_resolve|apply stable_sort_perm|].
    apply (stable_sort_sorted (pair_less policy) (compare_pairs policy) (λ a b, eq_refl)).
  - intros r. unfold order_admissible. destruct (negb _); [set_solver|].
    rewrite stable_sort_elem. intros (rec & Hl & Hp & _)%collect_admissible_paths.
    rewrite Nat.sub_0_r in Hl. by exists rec.
Qed.

(** The admissible order does not depend on the order in which the batch
    presents its candidates: when the paths are distinct, permuting the batch
    gives the same ordered sequence of candidates with their records. *)
Theorem order_admissible_input_order rs1 cs1 rs2 cs2 policy :
  size rs1 = size cs1 → size rs2 = size cs2 → zip rs1 cs1 ≡ₚ zip rs2 cs2 →
  NoDup (map (λ p : ranked_pair, path p.2) (zip rs1 cs1)) →
  map (resolve rs1 cs1) (order_admissible rs1 cs1 policy) =
  map (resolve rs2 cs2) (order_admissible rs2 cs2 policy).
Proof.
  intros H1 H2 Hp Hnd. rewrite !order_admissible_resolve by done. f_equal.
  apply (stable_sort_perm_eq (pair_less policy) (compare_pairs policy) (λ a b, eq_refl));
    [|by apply filter_bool_perm].
  intros a b Ha Hb E. apply compare_pairs_zero in E.
  apply list_elem_of_In, filter_In in Ha as [Ha _]. apply list_elem_of_In, filter_In in Hb as [Hb _].
  apply list_elem_of_In in Ha, Hb.
  apply list_elem_of_lookup in Ha as [i Hi], Hb as [j Hj].
  assert (i = j) as ->; [|congruence].
  apply (NoDup_lookup _ _ _ (path a.2) Hnd); rewrite list_lookup_fmap; [by rewrite Hi|].
  rewrite Hj. simpl. congruence.
Qed.

(** ** Witnesses *)

Definition sample_admissible (p m : Z) : EvaluationRecord :=
  sample_record p Outcome.Admissible [] [mkSlot 3 ConstraintKind.MaxHopCount 1 1 10 true m].

Definition sample_records : list EvaluationRecord :=
  [sample_admissible 1 2; sample_record 2 Outcome.HardConstraintFailed sample_reasons [];
   sample_admissible 3 5; sample_admissible 4 2].
Definition sample_candidates : list CandidatePath :=
  [sample_candidate 1 7; sample_candidate 2 7; sample_candidate 3 7; sample_candidate 4 7].

Lemma order_admissible_sorted_witness :
  map ranked_path (order_admissible sample_records sample_candidates default_ranking) = [3; 1; 4] ∧
  ∃ ordered, map (resolve sample_records sample_candidates)
      (order_admissible sample_records sample_candidates default_ranking) = map Some ordered ∧
    StronglySorted (λ a b, compare_pairs default_ranking a b <= 0) ordered.
Proof.
  split; [vm_compute; reflexivity|].
  destruct (order_admissible_sorted sample_records sample_candidates default_ranking eq_refl)
    as [(ordered & H1 & _ & H3) _].
  exists ordered. split; [exact H1|exact H3].
Defined.

Lemma order_admissible_input_order_witness :
  map (resolve sample_records sample_candidates)
    (order_admissible sample_records sample_candidates default_ranking) =
  map (resolve (rev sample_records) (rev sample_candidates))
    (order_admissible (rev sample_records) (rev sample_candidates) default_ranking).
Proof.
  apply order_admissible_input_order; [reflexivity|reflexivity| |].
  - change (zip (rev sample_records) (rev sample_candidates))
      with (rev (zip sample_records sample_candidates)). apply Permutation_rev.
  - cbn. repeat (constructor; [set_solver|]). constructor.
Defined.
