(* ===== verification/ConstraintSet.v ===== *)
(** Constraint sets, [constraint_set.hpp] and [constraint_set.cpp]:
    canonicalization, contradiction detection, atomic finalization, verification
    of a canonical set, the set digest, the difference of two definitions, and
    the durable encoding. *)

From Stdlib Require Import ZArith Lia Bool Strings.Byte.
From stdpp Require Import base list numbers strings sets sorting gmap.
From S2P Require Import Prelude Base Codec Digest Lifecycle Constraint Candidate.
From S2P Require Import Evaluation Ordering.

Open Scope string_scope.
Open Scope list_scope.
Open Scope Z_scope.

(** ** Data *)

Module ContradictionKind.
Inductive t :=
  | RequiredAndForbiddenSameEntity | ConflictingLocalityScopes
  | ConflictingIsolationClasses | FailureDomainRelationConflict | ImpossibleHopBudget.

Definition to_code (x : t) : Z :=
  match x with
  | RequiredAndForbiddenSameEntity => 1 | ConflictingLocalityScopes => 2
  | ConflictingIsolationClasses => 3 | FailureDomainRelationConflict => 4
  | ImpossibleHopBudget => 5
  end.

Definition from_code (z : Z) : t :=
  match z with
  | 2 => ConflictingLocalityScopes | 3 => ConflictingIsolationClasses
  | 4 => FailureDomainRelationConflict | 5 => ImpossibleHopBudget
  | _ => RequiredAndForbiddenSameEntity
  end.

Definition to_string (x : t) : string :=
  match x with
  | RequiredAndForbiddenSameEntity => "RequiredAndForbiddenSameEntity"
  | ConflictingLocalityScopes => "ConflictingLocalityScopes"
  | ConflictingIsolationClasses => "ConflictingIsolationClasses"
  | FailureDomainRelationConflict => "FailureDomainRelationConflict"
  | ImpossibleHopBudget => "ImpossibleHopBudget"
  end.
End ContradictionKind.

#[export] Instance ContradictionKind_enum : Enum ContradictionKind.t.
Proof.
  refine {| code := ContradictionKind.to_code; of_code := ContradictionKind.from_code |}.
  by intros [].
Defined.

Module SetDefectKind.
Inductive t :=
  | EquivalentDuplicateCollapsed | EntityListReordered | DuplicateEntityCollapsed
  | ConstraintsReordered.

Definition to_code (x : t) : Z :=
  match x with
  | EquivalentDuplicateCollapsed => 1 | EntityListReordered => 2
  | DuplicateEntityCollapsed => 3 | ConstraintsReordered => 4
  end.

Definition from_code (z : Z) : t :=
  match z with
  | 2 => EntityListReordered | 3 => DuplicateEntityCollapsed
  | 4 => ConstraintsReordered | _ => EquivalentDuplicateCollapsed
  end.
End SetDefectKind.

#[export] Instance SetDefectKind_enum : Enum SetDefectKind.t.
Proof.
  refine {| code := SetDefectKind.to_code; of_code := SetDefectKind.from_code |}.
  by intros [].
Defined.

Module ConstraintChangeKind.
Inductive t :=
  | Added | Removed | Changed.

Definition to_code (x : t) : Z :=
  match x with
  | Added => 1 | Removed => 2 | Changed => 3
  end.

Definition from_code (z : Z) : t :=
  match z with
  | 2 => Removed | 3 => Changed | _ => Added
  end.
End ConstraintChangeKind.

#[export] Instance ConstraintChangeKind_enum : Enum ConstraintChangeKind.t.
Proof.
  refine {| code := ConstraintChangeKind.to_code; of_code := ConstraintChangeKind.from_code |}.
  by intros [].
Defined.

Record Contradiction := mkContradiction {
  contradiction_kind : ContradictionKind.t;
  first : Z;
  second : Z;
  contradiction_subject_kind : SubjectKind.t;
  contradiction_subject : Z
}.

Record SetDefect := mkDefect {
  defect_kind : SetDefectKind.t;
  defect_constraint : Z;
  defect_count : Z
}.

Record ConstraintSet := mkSet {
  cs_id : Z;
  cs_generation : Z;
  cs_state : ConstraintSetState.t;
  name : string;
  constraints : list Constraint;
  requirements : EvidenceRequirements;
  ranking : RankingPolicy;
  cs_digest : Digest256;
  declared_tick : Z
}.

Definition with_constraints (s : ConstraintSet) (cs : list Constraint) (d : Digest256)
    : ConstraintSet :=
  mkSet (cs_id s) (cs_generation s) (cs_state s) (name s) cs (requirements s) (ranking s) d
    (declared_tick s).

(** ** Digest *)

Definition feed_evidence_requirements (e : EvidenceRequirements) : hashing :=
  hash_u64 (req_topology e) ++ hash_u64 (req_link_state e) ++ hash_u64 (req_capability e) ++
  hash_u64 (req_failure_domain e) ++ hash_u64 (req_policy e) ++ hash_u64 (req_planner e) ++
  hash_u64 (req_path_authority e) ++ hash_u64 (max_evidence_age_ticks e).

Definition feed_constraint_set (s : ConstraintSet) : hashing :=
  hash_u64 (cs_id s) ++ hash_u64 (cs_generation s) ++
  hash_counted Constraint.feed_digest (constraints s) ++
  feed_evidence_requirements (requirements s) ++ feed_ranking (ranking s).

Definition constraint_set_digest (s : ConstraintSet) : Digest256 :=
  digest_of "crf.constraint-set.v1" (feed_constraint_set s).

(** ** Contradictions *)

(** The constraints of one kind, in canonical order. *)
Definition bucket_of (s : ConstraintSet) (k : ConstraintKind.t) : list Constraint :=
  List.filter (λ c, eeqb (kind c) k) (constraints s).

Definition add_same_entity_contradictions (required forbidden : list Constraint)
    (subject_kind : SubjectKind.t) (member : Constraint → list Z) : list Contradiction :=
  concat (map (λ positive,
    concat (map (λ negative,
      concat (map (λ value,
        if binary_search value (member negative) then
          [mkContradiction ContradictionKind.RequiredAndForbiddenSameEntity (id positive)
             (id negative) subject_kind value]
        else []) (member positive))) forbidden)) required).

(** Every pair [a < b] of a bucket. *)
Fixpoint later_pairs {A} (f : A → A → list Contradiction) (l : list A) : list Contradiction :=
  match l with
  | [] => []
  | a :: rest => concat (map (f a) rest) ++ later_pairs f rest
  end.

Definition locality_conflict (a b : Constraint) : list Contradiction :=
  if eeqb (domain_kind a) (domain_kind b) && negb (locality_domain a =? locality_domain b) then
    [mkContradiction ContradictionKind.ConflictingLocalityScopes (id a) (id b)
       SubjectKind.LocalityDomain (locality_domain b)]
  else [].

Definition isolation_conflict (a b : Constraint) : list Contradiction :=
  if negb (isolation_class a =? isolation_class b) then
    [mkContradiction ContradictionKind.ConflictingIsolationClasses (id a) (id b)
       SubjectKind.IsolationClass (isolation_class b)]
  else [].

Definition relation_conflict (required forbidden : Constraint) : list Contradiction :=
  if negb (eeqb (domain_kind required) (domain_kind forbidden)) then []
  else
    let conflict :=
      if eeqb (domain_relation forbidden) DomainRelation.Shared then 2 <=? bound required
      else if eeqb (domain_relation forbidden) DomainRelation.Distinct then
        bound forbidden <=? bound required
      else false in
    if conflict then
      [mkContradiction ContradictionKind.FailureDomainRelationConflict (id required)
         (id forbidden) SubjectKind.FailureDomain (code (domain_kind required))]
    else [].

(** [std::set] of the nodes every required-node constraint names. *)
Definition required_nodes (s : ConstraintSet) : list Z :=
  remove_dups (concat (map nodes (bucket_of s ConstraintKind.RequiredNode))).

Definition hop_conflict (needed : Z) (c : Constraint) : list Contradiction :=
  if bound c <? needed then
    [mkContradiction ContradictionKind.ImpossibleHopBudget (id c) 0 SubjectKind.Constraint
       (u64_of_i64 needed)]
  else [].

Definition contradictions_of (s : ConstraintSet) : list Contradiction :=
  let bucket := bucket_of s in
  add_same_entity_contradictions (bucket ConstraintKind.RequiredNode)
    (bucket ConstraintKind.ForbiddenNode) SubjectKind.Node nodes ++
  add_same_entity_contradictions (bucket ConstraintKind.RequiredLink)
    (bucket ConstraintKind.ForbiddenLink) SubjectKind.Link links ++
  add_same_entity_contradictions (bucket ConstraintKind.RequiredTier)
    (bucket ConstraintKind.ForbiddenTier) SubjectKind.Tier tiers ++
  add_same_entity_contradictions (bucket ConstraintKind.RequiredSite)
    (bucket ConstraintKind.ForbiddenSite) SubjectKind.Site sites ++
  add_same_entity_contradictions (bucket ConstraintKind.RequiredCapability)
    (bucket ConstraintKind.ForbiddenCapability) SubjectKind.Capability capabilities ++
  later_pairs locality_conflict (bucket ConstraintKind.LocalityScope) ++
  later_pairs isolation_conflict (bucket ConstraintKind.IsolationClass) ++
  concat (map (λ required,
    concat (map (relation_conflict required)
      (bucket ConstraintKind.ForbiddenFailureDomainRelation)))
    (bucket ConstraintKind.RequiredFailureDomainRelation)) ++
  concat (map (hop_conflict (size (required_nodes s) - 1)) (bucket ConstraintKind.MaxHopCount)).

(** The status and the contradictions left in [out]. *)
Definition detect_contradictions (s : ConstraintSet) (limits : Limits)
    : Status * list Contradiction :=
  if max_constraints_per_set limits <? size (constraints s) then
    (Failure ErrorCode.ResourceLimit "constraint set exceeds the constraint limit", [])
  else
    let out := contradictions_of s in
    if negb (empty out) then
      (Failure ErrorCode.ContradictoryConstraintSet
         "constraint set contains a deterministic contradiction", out)
    else (success, out).

(** ** Canonicalization *)

(** [std::sort], [std::unique] and the observation made about one list. *)
Definition canonicalize_entity_list (values : list Z) (id : Z) : list Z * list SetDefect :=
  let sorted := stable_sort Z.ltb values in
  let canonical := unique_by Z.eqb sorted in
  let duplicates := negb (size canonical =? size sorted) in
  (canonical,
   if duplicates then [mkDefect SetDefectKind.DuplicateEntityCollapsed id 1]
   else if negb (list_eqb canonical values) then
     [mkDefect SetDefectKind.EntityListReordered id 1]
   else []).

Definition canonicalize_entities (c : Constraint) : Constraint * list SetDefect :=
  let '(ns, d1) := canonicalize_entity_list (nodes c) (id c) in
  let '(ls, d2) := canonicalize_entity_list (links c) (id c) in
  let '(ts, d3) := canonicalize_entity_list (tiers c) (id c) in
  let '(ss, d4) := canonicalize_entity_list (sites c) (id c) in
  let '(cs, d5) := canonicalize_entity_list (capabilities c) (id c) in
  let '(ps, d6) := canonicalize_entity_list (policies c) (id c) in
  (mkConstraint (id c) (generation c) (kind c) (scope c) (unknown_policy c) (bound c)
     (latency_source c) (domain_kind c) (domain_relation c) (locality_domain c)
     (isolation_class c) ns ls ts ss cs ps (preference_rank c) (preference_weight c),
   d1 ++ d2 ++ d3 ++ d4 ++ d5 ++ d6).

(** The first loop: validate, then canonicalize each constraint's lists. *)
Fixpoint canonicalize_constraints (limits : Limits) (cs : list Constraint)
    : Result (list Constraint * list SetDefect) :=
  match cs with
  | [] => Success ([], [])
  | c :: rest =>
      let+ _ := validate_constraint c limits in
      let '(c', d) := canonicalize_entities c in
      let+ r := canonicalize_constraints limits rest in
      Success (c' :: r.1, d ++ r.2)
  end.

(** The second loop: the payload already seen under each identity. *)
Fixpoint check_identities (payloads : gmap Z (list byte)) (cs : list Constraint) : Status :=
  match cs with
  | [] => success
  | c :: rest =>
      let payload := encode_constraint_payload c in
      match payloads !! id c with
      | None => check_identities (<[id c := payload]> payloads) rest
      | Some found =>
          if negb (bytes_eqb found payload) then
            Failure ErrorCode.DuplicateIdentity
              "the same constraint identity describes two different constraints"
          else check_identities payloads rest
      end
  end.

(** The third loop: collapse equivalent neighbours; [back] is
    [collapsed.back()]. *)
Fixpoint collapse (back : option Constraint) (cs : list Constraint)
    : list Constraint * list SetDefect :=
  match cs with
  | [] => ([], [])
  | c :: rest =>
      match back with
      | Some b =>
          if equivalent_payload b c then
            let '(r, d) := collapse back rest in
            (r, mkDefect SetDefectKind.EquivalentDuplicateCollapsed (id b) 1 :: d)
          else let '(r, d) := collapse (Some c) rest in (c :: r, d)
      | None => let '(r, d) := collapse (Some c) rest in (c :: r, d)
      end
  end.

Definition reordered_defect (count : Z) : SetDefect :=
  mkDefect SetDefectKind.ConstraintsReordered 0 count.

(** The closing observation about the order of constraints. *)
Definition order_defects (before after : list Constraint) (defects : list SetDefect)
    : list SetDefect :=
  let count := wrap 32 (size before) in
  if negb (size after =? size before) then
    if existsb (λ d, eeqb (defect_kind d) SetDefectKind.ConstraintsReordered) defects then []
    else [reordered_defect count]
  else
    if existsb (λ p : Constraint * Constraint, negb (id p.1 =? id p.2)) (zip before after)
    then [reordered_defect count] else [].

(** The canonical set with its observations, or the status; what a failed call
    leaves in its arguments is only ever a discarded working copy. *)
Definition canonicalize_constraint_set (s : ConstraintSet) (limits : Limits)
    : Result (ConstraintSet * list SetDefect) :=
  match validate_limits limits with
  | Some why => Failure ErrorCode.InvalidArgument why
  | None =>
      if negb (is_valid (cs_id s)) then
        Failure ErrorCode.InvalidArgument "constraint set identity must be non-zero"
      else if negb (is_valid (cs_generation s)) then
        Failure ErrorCode.InvalidArgument "constraint set generation must be non-zero"
      else if max_constraints_per_set limits <? size (constraints s) then
        Failure ErrorCode.ResourceLimit "constraint set exceeds the constraint limit"
      else if max_name_bytes limits <? Z.of_nat (String.length (name s)) then
        Failure ErrorCode.ResourceLimit "constraint set name exceeds the name limit"
      else
        let+ r := canonicalize_constraints limits (constraints s) in
        let '(before, list_defects) := r in
        let+ _ := check_identities ∅ before in
        let '(collapsed, duplicate_defects) := collapse None (stable_sort canonical_less before) in
        let defects := list_defects ++ duplicate_defects in
        let canonical := with_constraints s collapsed (cs_digest s) in
        Success (with_constraints s collapsed (constraint_set_digest canonical),
                 defects ++ order_defects before collapsed defects)
  end.

(** What the caller is left with: the status, its set and the contradictions. The
    observations are those of [canonicalize_constraint_set] when it succeeds; the
    partial list a failed run leaves behind is not modelled. *)
Record Finalized := mkFinalized {
  fin_status : Status;
  fin_set : ConstraintSet;
  fin_contradictions : list Contradiction
}.

Definition validate_and_finalize_constraint_set (s : ConstraintSet) (limits : Limits)
    (contradictions : list Contradiction) : Finalized :=
  match canonicalize_constraint_set s limits with
  | Failure c d => mkFinalized (Failure c d) s contradictions
  | Success (working, _) =>
      let '(status, out) := detect_contradictions working limits in
      if negb (ok status) then mkFinalized status s out
      else mkFinalized success working out
  end.

(** ** Verification of a canonical set *)

(** The loop, with [previous] the constraint before this index. *)
Fixpoint verify_constraints (limits : Limits) (previous : option Constraint)
    (cs : list Constraint) : Status :=
  match cs with
  | [] => success
  | c :: rest =>
      let+ _ := validate_constraint c limits in
      if negb (canonical_lists c) then malformed "persisted constraint entity lists are not canonical"
      else if match previous with Some p => negb (canonical_less p c) | None => false end then
        malformed "persisted constraint ordering is not canonical"
      else if match previous with Some p => id p =? id c | None => false end then
        Failure ErrorCode.DuplicateIdentity "duplicate constraint identity"
      else verify_constraints limits (Some c) rest
  end.

Definition verify_canonical_constraint_set (s : ConstraintSet) (limits : Limits) : Status :=
  if negb (is_valid (cs_id s)) || negb (is_valid (cs_generation s)) then
    Failure ErrorCode.InvalidArgument "constraint set identity must be non-zero"
  else if max_constraints_per_set limits <? size (constraints s) then
    Failure ErrorCode.ResourceLimit "constraint set exceeds the constraint limit"
  else
    let+ _ := verify_constraints limits None (constraints s) in
    if negb (digest_eqb (constraint_set_digest s) (cs_digest s)) then
      Failure ErrorCode.IntegrityMismatch "constraint set digest does not match its content"
    else (detect_contradictions s limits).1.

(** ** Difference of two definitions *)

Record ConstraintChange := mkChange {
  change_kind : ConstraintChangeKind.t;
  changed_constraint : Z;
  changed_kind : ConstraintKind.t
}.

Record ConstraintSetDiff := mkDiff {
  diff_set_id : Z;
  from_generation : Z;
  to_generation : Z;
  evidence_requirements_changed : bool;
  ranking_policy_changed : bool;
  lifecycle_changed : bool;
  from_state : ConstraintSetState.t;
  to_state : ConstraintSetState.t;
  changes : list ConstraintChange;
  from_digest : Digest256;
  to_digest : Digest256
}.

Definition requirements_eqb (a b : EvidenceRequirements) : bool :=
  (req_topology a =? req_topology b) && (req_link_state a =? req_link_state b) &&
  (req_capability a =? req_capability b) && (req_failure_domain a =? req_failure_domain b) &&
  (req_policy a =? req_policy b) && (req_planner a =? req_planner b) &&
  (req_path_authority a =? req_path_authority b) &&
  (max_evidence_age_ticks a =? max_evidence_age_ticks b).

(** [std::map::emplace] of every constraint under its identity: the first stays. *)
Definition by_identity (cs : list Constraint) : gmap Z Constraint :=
  fold_left (λ m c, match m !! id c with Some _ => m | None => <[id c := c]> m end) cs ∅.

Definition change_less (a b : ConstraintChange) : bool :=
  if negb (eeqb (change_kind a) (change_kind b)) then code (change_kind a) <? code (change_kind b)
  else if negb (changed_constraint a =? changed_constraint b) then
    changed_constraint a <? changed_constraint b
  else code (changed_kind a) <? code (changed_kind b).

Definition left_change (right : gmap Z Constraint) (entry : Z * Constraint)
    : list ConstraintChange :=
  match right !! entry.1 with
  | None => [mkChange ConstraintChangeKind.Removed entry.1 (kind entry.2)]
  | Some found =>
      if negb (semantically_equal entry.2 found) then
        [mkChange ConstraintChangeKind.Changed entry.1 (kind found)]
      else []
  end.

Definition right_change (left : gmap Z Constraint) (entry : Z * Constraint)
    : list ConstraintChange :=
  match left !! entry.1 with
  | None => [mkChange ConstraintChangeKind.Added entry.1 (kind entry.2)]
  | Some _ => []
  end.

Definition diff_constraint_sets (from to : ConstraintSet) : ConstraintSetDiff :=
  let left := by_identity (constraints from) in
  let right := by_identity (constraints to) in
  let found := concat (map (left_change right) (map_to_list left)) ++
               concat (map (right_change left) (map_to_list right)) in
  mkDiff (cs_id to) (cs_generation from) (cs_generation to)
    (negb (requirements_eqb (requirements from) (requirements to)))
    (negb (ranking_eqb (ranking from) (ranking to)))
    (negb (eeqb (cs_state from) (cs_state to))) (cs_state from) (cs_state to)
    (stable_sort change_less found) (cs_digest from) (cs_digest to).

(** ** Encoding *)

Definition encode_constraint_set (s : ConstraintSet) : writing :=
  put_u64 (cs_id s) ;;> put_u64 (cs_generation s) ;;> put_u8 (code (cs_state s)) ;;>
  put_u8 0 ;;> put_u16 0 ;;> put_u32 0 ;;> put_string (name s) ;;> put_u64 (declared_tick s) ;;>
  put_u64 (req_topology (requirements s)) ;;> put_u64 (req_link_state (requirements s)) ;;>
  put_u64 (req_capability (requirements s)) ;;>
  put_u64 (req_failure_domain (requirements s)) ;;> put_u64 (req_policy (requirements s)) ;;>
  put_u64 (req_planner (requirements s)) ;;> put_u64 (req_path_authority (requirements s)) ;;>
  put_u64 (max_evidence_age_ticks (requirements s)) ;;> encode_ranking_policy (ranking s) ;;>
  write_counted encode_constraint (constraints s) ;;> put_raw (cs_digest s).

(** [if (!f || cond) { reader.fail(); return false; }]: a failing [f] also
    fails the reader. *)
Definition or_fail {A} (m : reader A) : reader A := λ r,
  match m r with
  | (Some a, r') => (Some a, r')
  | (None, r') => fail r'
  end.

Definition read_requirements : reader EvidenceRequirements :=
  topology ← read_generation_field; link_state ← read_generation_field;
  capability ← read_generation_field; failure_domain ← read_generation_field;
  policy ← read_generation_field; planner ← read_generation_field;
  path_authority ← read_generation_field; age ← u64;
  mret (mkRequirements topology link_state capability failure_domain policy planner
    path_authority age).

Definition decode_constraint_set (limits : Limits) : reader ConstraintSet :=
  id ← u64; generation ← u64; state ← u8; padding8 ← u8; padding16 ← u16; padding32 ← u32;
  _ ← fail_if ((id =? 0) || negb (is_representable generation) || (state =? 0) || (7 <? state) ||
               negb (padding8 =? 0) || negb (padding16 =? 0) || negb (padding32 =? 0));
  name ← or_fail read_string;
  _ ← fail_if (max_name_bytes limits <? Z.of_nat (String.length name));
  declared_tick ← u64;
  requirements ← read_requirements;
  ranking ← decode_ranking_policy;
  constraints ← read_counted (decode_constraint limits) (max_constraints_per_set limits);
  digest ← raw kSize;
  _ ← require_ok;
  let out := mkSet id generation (of_code state) name constraints requirements ranking digest
    declared_tick in
  _ ← fail_if (negb (ok (verify_canonical_constraint_set out limits)));
  mret out.

(** ** Lemmas: one entity list *)

Definition canonical_list (l : list Z) : list Z := unique_by Z.eqb (stable_sort Z.ltb l).

Lemma canonicalize_entity_list_fst l i : (canonicalize_entity_list l i).1 = canonical_list l.
Proof. done. Qed.

Lemma canonical_list_elem x l : x ∈ canonical_list l ↔ x ∈ l.
Proof.
  unfold canonical_list. rewrite (unique_by_elem _ Z.eqb_eq). apply stable_sort_elem.
Qed.

Lemma canonical_list_sorted l : sorted_unique Z.ltb (canonical_list l) = true.
Proof.
  apply (sorted_unique_spec _ cmp_Z cmp_Z_lt).
  apply (unique_by_sorted cmp_Z _ Z.eqb_eq cmp_Z_eq), (stable_sort_sorted _ cmp_Z cmp_Z_lt).
Qed.

Lemma canonical_list_id l : sorted_unique Z.ltb l = true → canonical_list l = l.
Proof.
  intros H. apply (sorted_unique_spec _ cmp_Z cmp_Z_lt) in H. unfold canonical_list.
  rewrite (stable_sort_strict_id _ cmp_Z cmp_Z_lt) by done.
  by apply (unique_by_id cmp_Z _ Z.eqb_eq).
Qed.

Lemma canonicalize_entity_list_id l i :
  sorted_unique Z.ltb l = true → canonicalize_entity_list l i = (l, []).
Proof.
  intros H. unfold canonicalize_entity_list.
  pose proof (canonical_list_id l H) as E. unfold canonical_list in E. rewrite E.
  apply (sorted_unique_spec _ cmp_Z cmp_Z_lt) in H.
  rewrite (stable_sort_strict_id _ cmp_Z cmp_Z_lt) by done.
  by rewrite Z.eqb_refl, (proj2 (list_eqb_eq l l) eq_refl).
Qed.

Lemma canonical_list_size l : size (canonical_list l) <= size l.
Proof.
  unfold size, canonical_list. pose proof (unique_by_length Z.eqb (stable_sort Z.ltb l)).
  rewrite stable_sort_length in *. lia.
Qed.

Lemma canonical_list_perm l k : l ≡ₚ k → canonical_list l = canonical_list k.
Proof.
  intros H. unfold canonical_list. f_equal.
  apply (stable_sort_perm_eq _ cmp_Z cmp_Z_lt); [|done]. intros. by apply cmp_Z_eq.
Qed.

Lemma empty_elem {A} (l : list A) : empty l = true ↔ ∀ x, x ∉ l.
Proof. destruct l as [|x l]; simpl; split; try done; [set_solver|]. intros H. by destruct (H x); left. Qed.

Lemma canonical_list_empty l : empty (canonical_list l) = empty l.
Proof.
  apply eq_true_iff_eq. rewrite !empty_elem. by setoid_rewrite canonical_list_elem.
Qed.

Lemma canonical_list_valid l : all_valid (canonical_list l) = all_valid l.
Proof.
  apply eq_true_iff_eq. unfold all_valid. rewrite !list_forallb_Forall, !Forall_forall.
  by setoid_rewrite canonical_list_elem.
Qed.

(** ** Lemmas: one constraint *)

Definition canonical_entities (c : Constraint) : Constraint := (canonicalize_entities c).1.

Lemma canonical_entities_eq c :
  canonical_entities c =
  mkConstraint (id c) (generation c) (kind c) (scope c) (unknown_policy c) (bound c)
    (latency_source c) (domain_kind c) (domain_relation c) (locality_domain c)
    (isolation_class c) (canonical_list (nodes c)) (canonical_list (links c))
    (canonical_list (tiers c)) (canonical_list (sites c)) (canonical_list (capabilities c))
    (canonical_list (policies c)) (preference_rank c) (preference_weight c).
Proof. done. Qed.

Lemma canonicalize_entities_id c :
  canonical_lists c = true → canonicalize_entities c = (c, []).
Proof.
  unfold canonical_lists. rewrite !andb_true_iff. intros (((((H1 & H2) & H3) & H4) & H5) & H6).
  unfold canonicalize_entities. rewrite !canonicalize_entity_list_id by done. by destruct c.
Qed.

Lemma canonical_entities_lists c : canonical_lists (canonical_entities c) = true.
Proof.
  rewrite canonical_entities_eq. unfold canonical_lists; cbn [nodes links tiers sites
    capabilities policies]. by rewrite !canonical_list_sorted.
Qed.

(** The fields of a constraint that are not entity lists. *)
Definition scalars (c : Constraint) : Constraint :=
  mkConstraint (id c) (generation c) (kind c) (scope c) (unknown_policy c) (bound c)
    (latency_source c) (domain_kind c) (domain_relation c) (locality_domain c)
    (isolation_class c) [] [] [] [] [] [] (preference_rank c) (preference_weight c).

(** Two constraints with the same scalar fields and lists that look alike to
    validation. *)
Definition alike (max : Z) (c d : Constraint) : Prop :=
  scalars c = scalars d ∧
  Forall2 (λ l k, empty l = empty k ∧ all_valid l = all_valid k ∧
                  list_within l max = list_within k max)
    [nodes c; links c; tiers c; sites c; capabilities c; policies c]
    [nodes d; links d; tiers d; sites d; capabilities d; policies d].

Lemma alike_validate limits c d :
  alike (max_entity_refs_per_constraint limits) c d →
  validate_constraint c limits = validate_constraint d limits.
Proof.
  intros [Hs Hl]. rewrite !Forall2_cons in Hl.
  destruct Hl as ((E1 & V1 & W1) & (E2 & V2 & W2) & (E3 & V3 & W3) & (E4 & V4 & W4) &
    (E5 & V5 & W5) & (E6 & V6 & W6) & _).
  injection Hs as ? ? ? ? ? ? ? ? ? ? ? ? ?.
  unfold validate_constraint, validate_payload, any_entity_list.
  rewrite V1, V2, V3, V4, V5, V6, W1, W2, W3, W4, W5, W6, E1, E2, E3, E4, E5, E6.
  by repeat match goal with H : _ c = _ d |- _ => rewrite H; clear H end.
Qed.

Lemma canonical_entities_valid limits c :
  valid limits c → valid limits (canonical_entities c).
Proof.
  intros Hv. unfold valid. rewrite (alike_validate limits _ c); [done|].
  pose proof (validate_constraint_lists limits c Hv) as Hl. rewrite !Forall_cons in Hl.
  split; [done|]. rewrite canonical_entities_eq.
  cbn [nodes links tiers sites capabilities policies].
  assert (∀ l, all_valid l = true ∧ size l <= max_entity_refs_per_constraint limits →
    empty (canonical_list l) = empty l ∧ all_valid (canonical_list l) = all_valid l ∧
    list_within (canonical_list l) (max_entity_refs_per_constraint limits) =
      list_within l (max_entity_refs_per_constraint limits)) as H.
  { intros l [_ Hs]. split_and!; [apply canonical_list_empty|apply canonical_list_valid|].
    unfold list_within. pose proof (canonical_list_size l).
    rewrite !(proj2 (Z.leb_le _ _)) by lia. done. }
  rewrite !Forall2_cons. repeat (split; [apply H; tauto|]). done.
Qed.

(** The same constraint with its entity lists in another order. *)
Definition entity_perm (c d : Constraint) : Prop :=
  scalars c = scalars d ∧
  nodes c ≡ₚ nodes d ∧ links c ≡ₚ links d ∧ tiers c ≡ₚ tiers d ∧ sites c ≡ₚ sites d ∧
  capabilities c ≡ₚ capabilities d ∧ policies c ≡ₚ policies d.

Lemma perm_alike (l k : list Z) max :
  l ≡ₚ k →
  empty l = empty k ∧ all_valid l = all_valid k ∧ list_within l max = list_within k max.
Proof.
  intros H. split_and!.
  - apply eq_true_iff_eq. rewrite !empty_elem. by setoid_rewrite H.
  - apply eq_true_iff_eq. unfold all_valid. rewrite !list_forallb_Forall. by rewrite H.
  - unfold list_within. by rewrite (size_perm _ _ H).
Qed.

Lemma entity_perm_validate limits c d :
  entity_perm c d → validate_constraint c limits = validate_constraint d limits.
Proof.
  intros (Hs & H1 & H2 & H3 & H4 & H5 & H6). apply alike_validate. split; [done|].
  rewrite !Forall2_cons. repeat (split; [by apply perm_alike|]). done.
Qed.

Lemma entity_perm_canonical c d :
  entity_perm c d → canonical_entities c = canonical_entities d.
Proof.
  intros (Hs & H1 & H2 & H3 & H4 & H5 & H6). injection Hs as ? ? ? ? ? ? ? ? ? ? ? ? ?.
  rewrite !canonical_entities_eq.
  rewrite (canonical_list_perm _ _ H1), (canonical_list_perm _ _ H2), (canonical_list_perm _ _ H3),
    (canonical_list_perm _ _ H4), (canonical_list_perm _ _ H5), (canonical_list_perm _ _ H6).
  by f_equal.
Qed.

(** ** Lemmas: the loops of canonicalization *)

Lemma canonicalize_constraints_Success limits cs r :
  canonicalize_constraints limits cs = Success r →
  Forall (valid limits) cs ∧ r.1 = map canonical_entities cs.
Proof.
  revert r. induction cs as [|c cs IH]; intros r; cbn [canonicalize_constraints].
  { intros [= <-]. by split; [constructor|]. }
  intros H. apply rbind_Success in H as ([] & Hv & H).
  destruct (canonicalize_entities c) as [c' d] eqn:E.
  apply rbind_Success in H as (r' & Hr & [= <-]). destruct (IH _ Hr) as [Hf Hm]. split.
  - constructor; [|done]. unfold valid. by rewrite Hv.
  - simpl. unfold canonical_entities at 1. by rewrite E, Hm.
Qed.

Lemma canonicalize_constraints_valid limits cs :
  Forall (valid limits) cs →
  ∃ d, canonicalize_constraints limits cs = Success (map canonical_entities cs, d).
Proof.
  induction 1 as [|c cs Hc _ [d IH]]; cbn [canonicalize_constraints]; [by eexists|].
  unfold valid in Hc. apply ok_status in Hc. rewrite Hc. cbn [rbind success].
  cbn [map]. unfold canonical_entities at 1. destruct (canonicalize_entities c) as [c' d'].
  rewrite IH. by eexists.
Qed.

Lemma canonicalize_constraints_id limits cs :
  Forall (λ c, valid limits c ∧ canonical_lists c = true) cs →
  canonicalize_constraints limits cs = Success (cs, []).
Proof.
  induction 1 as [|c cs [Hv Hc] _ IH]; cbn [canonicalize_constraints]; [done|].
  unfold valid in Hv. apply ok_status in Hv. rewrite Hv. cbn [rbind success].
  by rewrite canonicalize_entities_id, IH by done.
Qed.

Definition same_payload (a b : Constraint) : Prop :=
  encode_constraint_payload a = encode_constraint_payload b.

Lemma check_identities_spec cs : ∀ m,
  ok (check_identities m cs) = true ↔
  (∀ i p c, m !! i = Some p → c ∈ cs → id c = i → encode_constraint_payload c = p) ∧
  (∀ a b, a ∈ cs → b ∈ cs → id a = id b → same_payload a b).
Proof.
  induction cs as [|c cs IH]; intros m; cbn [check_identities]; [set_solver|].
  destruct (m !! id c) as [p|] eqn:E.
  - rewrite ok_if, negb_false_iff, bytes_eqb_eq, IH. split.
    + intros (Hp & Hm & Hd). split.
      * intros i q x Hi [->|Hx]%elem_of_cons Hid; [|by eapply Hm]. congruence.
      * intros a b [->|Ha]%elem_of_cons [->|Hb]%elem_of_cons Hid; [done|..|by apply Hd];
          unfold same_payload.
        -- rewrite <- Hp. symmetry. by apply (Hm _ _ _ E Hb).
        -- rewrite <- Hp. by apply (Hm _ _ _ E Ha).
    + intros [Hm Hd]. split_and!.
      * symmetry. eapply Hm; [exact E|set_solver|done].
      * intros i q x Hi Hx. apply Hm; set_solver.
      * intros a b Ha Hb. apply Hd; set_solver.
  - rewrite IH. split.
    + intros [Hm Hd]. split.
      * intros i q x Hi [->|Hx]%elem_of_cons Hid; [congruence|].
        destruct (decide (i = id c)) as [->|Hne]; [congruence|].
        eapply Hm; [|exact Hx|exact Hid]. by rewrite lookup_insert_ne by done.
      * assert (∀ x, x ∈ cs → id x = id c → same_payload x c) as Hc.
        { intros x Hx Hid. eapply Hm; [|exact Hx|exact Hid]. by rewrite lookup_insert_eq. }
        intros a b [->|Ha]%elem_of_cons [->|Hb]%elem_of_cons Hid; [done|..|by apply Hd].
        -- symmetry. by apply Hc.
        -- by apply Hc.
    + intros [Hm Hd]. split.
      * intros i q x Hi Hx Hid. destruct (decide (i = id c)) as [->|Hne].
        -- rewrite lookup_insert_eq in Hi. injection Hi as <-. apply Hd; set_solver.
        -- rewrite lookup_insert_ne in Hi by done. eapply Hm; [exact Hi|set_solver|done].
      * intros a b Ha Hb. apply Hd; set_solver.
Qed.

(** After sorting and collapsing, payloads strictly ascend. *)
Definition payload_sorted (cs : list Constraint) : Prop :=
  StronglySorted (λ a b, compare_payload a b < 0) cs.

Lemma canonical_cmp_payload a b : canonical_cmp a b <= 0 → compare_payload a b <= 0.
Proof. unfold canonical_cmp, cmp_then. ifs_lia. Qed.

Lemma payload_canonical a b : compare_payload a b < 0 → canonical_cmp a b < 0.
Proof. unfold canonical_cmp, cmp_then. ifs_lia. Qed.

Lemma collapse_spec cs : ∀ back,
  StronglySorted (λ a b, canonical_cmp a b <= 0) cs →
  (∀ b, back = Some b → Forall (λ c, canonical_cmp b c <= 0) cs) →
  let out := (collapse back cs).1 in
  payload_sorted out ∧ (∀ b, back = Some b → Forall (λ c, compare_payload b c < 0) out) ∧
  (∀ c, c ∈ out → c ∈ cs) ∧ (length out <= length cs)%nat ∧
  (∀ c, c ∈ cs → ∃ o, (o ∈ out ∨ back = Some o) ∧ equivalent_payload o c = true).
Proof.
  induction cs as [|c cs IH]; intros back Hs Hb.
  { simpl. split_and!; [constructor|constructor|done|lia|set_solver]. }
  inversion Hs as [|? ? Hs' Hc]; subst.
  assert (∀ b, back = Some b → compare_payload b c < 0 ∨ equivalent_payload b c = true) as Hbc.
  { intros b E. specialize (Hb b E). apply Forall_cons in Hb as [Hb _].
    apply canonical_cmp_payload in Hb.
    destruct (decide (compare_payload b c = 0)) as [E0|]; [|left; lia].
    right. by apply compare_payload_zero. }
  destruct (IH (Some c) Hs') as (H1 & H2 & H3 & H4 & H5); [by intros ? [= <-]|].
  specialize (H2 c eq_refl).
  assert ((∀ b, back = Some b → compare_payload b c < 0) →
    let out := c :: (collapse (Some c) cs).1 in
    payload_sorted out ∧ (∀ b, back = Some b → Forall (λ c, compare_payload b c < 0) out) ∧
    (∀ x, x ∈ out → x ∈ c :: cs) ∧ (length out <= length (c :: cs))%nat ∧
    (∀ x, x ∈ c :: cs → ∃ o, (o ∈ out ∨ back = Some o) ∧ equivalent_payload o x = true)) as Hpush.
  { intros Hlt out. unfold out. split_and!.
    - by constructor.
    - intros b E. specialize (Hlt b E). constructor; [done|].
      eapply Forall_impl; [exact H2|]. intros x Hx. cbv beta in *.
      apply (cmp_lt_le_trans compare_payload b c x); lia.
    - set_solver.
    - simpl. lia.
    - intros x [->|Hx]%elem_of_cons.
      + exists c. split; [left; set_solver|apply equivalent_payload_refl].
      + destruct (H5 x Hx) as (o & Ho & Heq). exists o. split; [|done].
        left. destruct Ho as [Ho|[= ->]]; set_solver. }
  cbn [collapse]. destruct back as [b|].
  - destruct (equivalent_payload b c) eqn:E.
    + specialize (Hb b eq_refl). apply Forall_cons in Hb as [Hb1 Hb].
      destruct (IH (Some b) Hs') as (K1 & K2 & K3 & K4 & K5); [by intros ? [= <-]|].
      destruct (collapse (Some b) cs) as [r d]. simpl in *. split_and!; try done.
      * set_solver.
      * lia.
      * intros x [->|Hx]%elem_of_cons; [exists b; auto|by apply K5].
    + destruct (collapse (Some c) cs) as [r d]. apply Hpush. intros b' [= <-].
      destruct (Hbc b eq_refl); [done|congruence].
  - destruct (collapse (Some c) cs) as [r d]. by apply Hpush.
Qed.

Lemma collapse_id cs : ∀ back,
  payload_sorted cs → (∀ b, back = Some b → Forall (λ c, compare_payload b c < 0) cs) →
  collapse back cs = (cs, []).
Proof.
  induction cs as [|c cs IH]; intros back Hs Hb; [done|]. cbn [collapse].
  inversion Hs as [|? ? Hs' Hc]; subst.
  rewrite (IH (Some c)) by (done || by intros ? [= <-]).
  destruct back as [b|]; [|done]. specialize (Hb b eq_refl). apply Forall_cons in Hb as [Hb _].
  destruct (equivalent_payload b c) eqn:E; [|done].
  apply compare_payload_zero in E. lia.
Qed.

(** ** Lemmas: canonicalization of a set *)

Definition canonical_constraints (cs : list Constraint) : list Constraint :=
  (collapse None (stable_sort canonical_less (map canonical_entities cs))).1.

(** The set canonicalization produces, and when it produces it. *)
Definition canonical_form (s : ConstraintSet) : ConstraintSet :=
  let cs := canonical_constraints (constraints s) in
  with_constraints s cs (constraint_set_digest (with_constraints s cs (cs_digest s))).

Record accepted (limits : Limits) (s : ConstraintSet) : Prop := {
  acc_limits : limits_ok limits = true;
  acc_id : cs_id s ≠ 0 ∧ cs_generation s ≠ 0;
  acc_size : size (constraints s) <= max_constraints_per_set limits;
  acc_name : Z.of_nat (String.length (name s)) <= max_name_bytes limits;
  acc_valid : Forall (valid limits) (constraints s);
  acc_identities : ∀ a b, a ∈ map canonical_entities (constraints s) →
    b ∈ map canonical_entities (constraints s) → id a = id b → same_payload a b
}.

Lemma constraint_set_digest_ext s cs d1 d2 :
  constraint_set_digest (with_constraints s cs d1) = constraint_set_digest (with_constraints s cs d2).
Proof. done. Qed.

Lemma canonicalize_accepted s limits t d :
  canonicalize_constraint_set s limits = Success (t, d) → t = canonical_form s ∧ accepted limits s.
Proof.
  unfold canonicalize_constraint_set. intros H.
  destruct (validate_limits limits) eqn:EL; [done|].
  destruct (negb _) eqn:E1; [done|]. destruct (negb (is_valid (cs_generation s))) eqn:E2; [done|].
  destruct (_ <? _) eqn:E3; [done|]. destruct (_ <? Z.of_nat _) eqn:E4; [done|].
  apply rbind_Success in H as ([before ld] & Hb & H). apply rbind_Success in H as ([] & Hi & H).
  apply canonicalize_constraints_Success in Hb as [Hv Hm]. simpl in Hm. subst before.
  unfold canonical_form, canonical_constraints.
  destruct (collapse None _) as [out dd]. injection H as <- <-. split; [done|].
  assert (ok (check_identities ∅ (map canonical_entities (constraints s))) = true) as Hok
    by (by rewrite Hi).
  apply check_identities_spec in Hok as [_ Hok].
  apply negb_false_iff, is_valid_true in E1, E2.
  split; [unfold limits_ok; by rewrite EL|done|lia|lia|done|done].
Qed.

Lemma accepted_canonicalize s limits :
  accepted limits s → ∃ d, canonicalize_constraint_set s limits = Success (canonical_form s, d).
Proof.
  intros [HL [H1 H2] H3 H4 Hv Hi]. unfold canonicalize_constraint_set.
  unfold limits_ok in HL. destruct (validate_limits limits); [done|].
  apply is_valid_true in H1 as ->, H2 as ->. cbn [negb].
  destruct (max_constraints_per_set limits <? _) eqn:E1; [lia|].
  destruct (max_name_bytes limits <? _) eqn:E2; [lia|].
  destruct (canonicalize_constraints_valid _ _ Hv) as [ld ->]. cbn [rbind].
  assert (check_identities ∅ (map canonical_entities (constraints s)) = success) as ->.
  { apply ok_status, check_identities_spec. split; [|done]. intros i p c Hl.
    by rewrite lookup_empty in Hl. }
  cbn [rbind success]. unfold canonical_form, canonical_constraints.
  destruct (collapse None _) as [out dd]. by eexists.
Qed.

Lemma canonical_constraints_spec cs :
  let out := canonical_constraints cs in
  payload_sorted out ∧ (∀ c, c ∈ out → ∃ c', c' ∈ cs ∧ c = canonical_entities c') ∧
  size out <= size cs ∧
  (∀ c, c ∈ cs → ∃ o, o ∈ out ∧ equivalent_payload o (canonical_entities c) = true).
Proof.
  intros out. destruct (collapse_spec (stable_sort canonical_less (map canonical_entities cs)) None)
    as (H1 & _ & H3 & H4 & H5); [|done|].
  { apply (stable_sort_sorted canonical_less canonical_cmp canonical_less_cmp). }
  rewrite stable_sort_length, length_map in H4. split_and!.
  - done.
  - intros c Hc. apply H3 in Hc. rewrite stable_sort_elem in Hc.
    apply list_elem_of_fmap in Hc as (c' & -> & Hc'). by exists c'.
  - unfold size. apply Nat2Z.inj_le. exact H4.
  - intros c Hc. destruct (H5 (canonical_entities c)) as (o & [Ho|] & Heq); [|by exists o|done].
    rewrite stable_sort_elem. by apply list_elem_of_fmap_2.
Qed.

Lemma map_canonical_id cs :
  Forall (λ c, canonical_lists c = true) cs → map canonical_entities cs = cs.
Proof.
  induction 1 as [|c cs Hc _ IH]; [done|]. cbn [map]. rewrite IH. f_equal.
  unfold canonical_entities. by rewrite canonicalize_entities_id.
Qed.

Lemma canonical_constraints_id cs :
  payload_sorted cs → Forall (λ c, canonical_lists c = true) cs → canonical_constraints cs = cs.
Proof.
  intros Hs Hc. unfold canonical_constraints.
  rewrite map_canonical_id by done.
  rewrite (stable_sort_strict_id canonical_less canonical_cmp canonical_less_cmp).
  - by rewrite collapse_id.
  - clear Hc. induction Hs as [|c cs _ IH Hc]; constructor; [done|].
    eapply Forall_impl; [exact Hc|]. intros x. apply payload_canonical.
Qed.

Lemma canonical_form_constraints limits s :
  accepted limits s →
  Forall (λ c, valid limits c ∧ canonical_lists c = true) (constraints (canonical_form s)) ∧
  payload_sorted (constraints (canonical_form s)) ∧
  (∀ a b, a ∈ constraints (canonical_form s) → b ∈ constraints (canonical_form s) →
     id a = id b → same_payload a b).
Proof.
  intros [_ _ _ _ Hv Hi].
  destruct (canonical_constraints_spec (constraints s)) as (H1 & H2 & _ & _).
  rewrite Forall_forall in Hv. simpl. split_and!; [|done|].
  - apply Forall_forall. intros c Hc. apply H2 in Hc as (c' & Hc' & ->).
    split; [by apply canonical_entities_valid, Hv|apply canonical_entities_lists].
  - intros a b Ha Hb. apply H2 in Ha as (a' & Ha & ->), Hb as (b' & Hb & ->).
    apply Hi; by apply list_elem_of_fmap_2.
Qed.

Lemma accepted_canonical_form limits s : accepted limits s → accepted limits (canonical_form s).
Proof.
  intros Hacc. destruct (canonical_form_constraints limits s Hacc) as (Hf & Hs & Hi).
  destruct Hacc as [HL Hid Hsz Hn Hv _].
  destruct (canonical_constraints_spec (constraints s)) as (_ & _ & Hle & _).
  split; simpl; try done; simpl in *; try lia.
  - eapply Forall_impl; [exact Hf|]. by intros c [? _].
  - rewrite map_canonical_id; [done|]. eapply Forall_impl; [exact Hf|]. by intros c [_ ?].
Qed.

Lemma canonical_form_idem limits s :
  accepted limits s → canonical_form (canonical_form s) = canonical_form s.
Proof.
  intros Hacc. destruct (canonical_form_constraints limits s Hacc) as (Hf & Hs & _).
  unfold canonical_form at 1. rewrite canonical_constraints_id; [|done|].
  - done.
  - eapply Forall_impl; [exact Hf|]. by intros c [_ ?].
Qed.

Lemma zip_same_ids (cs : list Constraint) :
  existsb (λ p : Constraint * Constraint, negb (id p.1 =? id p.2)) (zip cs cs) = false.
Proof. induction cs as [|c cs IH]; [done|]. simpl. by rewrite Z.eqb_refl. Qed.

(** A canonical set is canonicalized to itself, with nothing to observe. *)
Lemma canonicalize_canonical_form limits s :
  accepted limits s →
  canonicalize_constraint_set (canonical_form s) limits = Success (canonical_form s, []).
Proof.
  intros Hacc. destruct (canonical_form_constraints limits s Hacc) as (Hf & Hs & _).
  destruct (accepted_canonicalize _ _ (accepted_canonical_form limits s Hacc)) as [d Hd].
  rewrite canonical_form_idem with (limits := limits) in Hd by done.
  rewrite Hd. do 2 f_equal. unfold canonicalize_constraint_set in Hd.
  destruct (validate_limits limits); [done|].
  destruct (negb (is_valid (cs_id _))); [done|].
  destruct (negb (is_valid (cs_generation _))); [done|].
  destruct (max_constraints_per_set limits <? _); [done|].
  destruct (max_name_bytes limits <? _); [done|].
  rewrite canonicalize_constraints_id in Hd by done. cbn [rbind] in Hd.
  destruct (check_identities _ _); [cbn [rbind] in Hd|done].
  rewrite (stable_sort_strict_id canonical_less canonical_cmp canonical_less_cmp) in Hd.
  - rewrite collapse_id in Hd by done. 
    apply (f_equal (λ r, match r with Success x => x.2 | _ => [] end)) in Hd.
    cbn [snd] in Hd. rewrite <- Hd. unfold order_defects. cbn [app].
    by rewrite Z.eqb_refl, zip_same_ids.
  - clear -Hs. induction Hs as [|c cs _ IH Hc]; constructor; [done|].
    eapply Forall_impl; [exact Hc|]. intros x. apply payload_canonical.
Qed.

(** ** Lemmas: verification *)

Lemma ids_fit_canonical l : ids_fit l → ids_fit (canonical_list l).
Proof.
  intros [Hf Hs]. split.
  - rewrite Forall_forall in Hf |- *. intros x Hx. apply Hf. by apply canonical_list_elem.
  - pose proof (canonical_list_size l). pose proof (size_nonneg (canonical_list l)).
    unfold fits in *. lia.
Qed.

Lemma machine_canonical_entities c :
  machine_constraint c → machine_constraint (canonical_entities c).
Proof. intros []. rewrite canonical_entities_eq. by split; try done; apply ids_fit_canonical. Qed.

Lemma verify_constraints_spec limits cs : ∀ previous,
  ok (verify_constraints limits previous cs) = true →
  Forall (λ c, valid limits c ∧ canonical_lists c = true) cs ∧
  StronglySorted (λ a b, canonical_cmp a b < 0) cs ∧
  (∀ p, previous = Some p → Forall (λ c, canonical_cmp p c < 0) cs).
Proof.
  induction cs as [|c cs IH]; intros previous; cbn [verify_constraints].
  { intros _. split_and!; [constructor|constructor|intros; constructor]. }
  unfold malformed. rewrite ok_rbind, !ok_if, negb_false_iff.
  intros (Hv & Hl & Ho & Hi & Hrest). destruct (IH _ Hrest) as (H1 & H2 & H3).
  specialize (H3 c eq_refl). split_and!; [by constructor|by constructor|].
  intros p ->. apply negb_false_iff in Ho. rewrite canonical_less_cmp in Ho.
  constructor; [lia|]. eapply Forall_impl; [exact H3|]. intros x Hx. cbv beta in *.
  apply (cmp_lt_le_trans canonical_cmp p c x); lia.
Qed.

Lemma verify_constraints_ok limits cs : ∀ previous,
  Forall (λ c, valid limits c ∧ canonical_lists c = true) cs →
  StronglySorted (λ a b, compare_payload a b < 0 ∧ id a ≠ id b) cs →
  (∀ p, previous = Some p → Forall (λ c, compare_payload p c < 0 ∧ id p ≠ id c) cs) →
  ok (verify_constraints limits previous cs) = true.
Proof.
  induction cs as [|c cs IH]; intros previous Hf Hs Hp; [done|]. cbn [verify_constraints].
  apply Forall_cons in Hf as [[Hv Hl] Hf]. inversion Hs as [|? ? Hs' Hc]; subst.
  unfold malformed. rewrite ok_rbind, !ok_if, negb_false_iff. split_and!; try done.
  - destruct previous as [p|]; [|done]. specialize (Hp p eq_refl).
    apply Forall_cons in Hp as [[Hp _] _]. apply negb_false_iff. rewrite canonical_less_cmp.
    apply payload_canonical in Hp. lia.
  - destruct previous as [p|]; [|done]. specialize (Hp p eq_refl).
    apply Forall_cons in Hp as [[_ Hp] _]. lia.
  - apply IH; [done|done|by intros ? [= <-]].
Qed.

Lemma distinct_identities cs :
  payload_sorted cs → Forall machine_constraint cs →
  (∀ a b, a ∈ cs → b ∈ cs → id a = id b → same_payload a b) →
  StronglySorted (λ a b, compare_payload a b < 0 ∧ id a ≠ id b) cs.
Proof.
  induction 1 as [|c cs Hs IH Hc]; intros Hm Hi; constructor.
  - apply Forall_cons in Hm as [_ Hm]. apply IH; [done|]. intros a b Ha Hb. apply Hi; set_solver.
  - rewrite Forall_forall in Hc, Hm |- *. intros x Hx. specialize (Hc x Hx). split; [done|].
    intros Hid. assert (equivalent_payload c x = true) as E.
    { apply encode_constraint_payload_inj; [apply Hm; set_solver|apply Hm; set_solver|].
      apply Hi; [set_solver|set_solver|done]. }
    apply compare_payload_zero in E. lia.
Qed.

Lemma machine_canonical_form s :
  Forall machine_constraint (constraints s) →
  Forall machine_constraint (constraints (canonical_form s)).
Proof.
  intros Hm. rewrite Forall_forall in Hm |- *. simpl. intros c Hc.
  destruct (canonical_constraints_spec (constraints s)) as (_ & H2 & _ & _).
  apply H2 in Hc as (c' & Hc' & ->). by apply machine_canonical_entities, Hm.
Qed.

(** A canonical form passes every check of the verifier but the last, the search
    for contradictions. *)
Lemma verify_canonical_form limits s :
  accepted limits s → Forall machine_constraint (constraints s) →
  verify_canonical_constraint_set (canonical_form s) limits =
  (detect_contradictions (canonical_form s) limits).1.
Proof.
  intros Hacc Hm. pose proof (accepted_canonical_form limits s Hacc) as Hacc'.
  destruct (canonical_form_constraints limits s Hacc) as (Hf & Hs & Hi).
  destruct Hacc' as [_ [H1 H2] H3 _ _ _].
  assert (verify_constraints limits None (constraints (canonical_form s)) = success) as Hv.
  { apply ok_status, verify_constraints_ok; [done| |done].
    apply distinct_identities; [done|by apply machine_canonical_form|done]. }
  unfold verify_canonical_constraint_set.
  apply is_valid_true in H1 as ->, H2 as ->. cbn [negb orb].
  destruct (max_constraints_per_set limits <? _) eqn:E; [lia|]. rewrite Hv. cbn [rbind success].
  assert (constraint_set_digest (canonical_form s) = cs_digest (canonical_form s)) as -> by done.
  by rewrite digest_eqb_refl.
Qed.

Lemma detect_contradictions_ok s limits :
  ok (detect_contradictions s limits).1 = true ↔
  size (constraints s) <= max_constraints_per_set limits ∧ contradictions_of s = [].
Proof.
  unfold detect_contradictions. destruct (max_constraints_per_set limits <? _) eqn:E; simpl.
  { split; [done|lia]. }
  destruct (contradictions_of s); simpl.
  - split; [intros _; split; [lia|done]|done].
  - split; [done|by intros [_ ?]].
Qed.

Lemma detect_contradictions_out s limits :
  ok (detect_contradictions s limits).1 = true → (detect_contradictions s limits).2 = [].
Proof.
  unfold detect_contradictions. destruct (_ <? _); [done|]. by destruct (contradictions_of s).
Qed.

(** Two constraints that ask the same of a path: equal scalar payload, and lists
    with the same entities. *)
Definition same_meaning (c d : Constraint) : Prop :=
  kind c = kind d ∧ scope c = scope d ∧ unknown_policy c = unknown_policy d ∧
  bound c = bound d ∧ latency_source c = latency_source d ∧ domain_kind c = domain_kind d ∧
  domain_relation c = domain_relation d ∧ locality_domain c = locality_domain d ∧
  isolation_class c = isolation_class d ∧ preference_rank c = preference_rank d ∧
  preference_weight c = preference_weight d ∧
  (∀ x, (x ∈ nodes c ↔ x ∈ nodes d) ∧ (x ∈ links c ↔ x ∈ links d) ∧
     (x ∈ tiers c ↔ x ∈ tiers d) ∧ (x ∈ sites c ↔ x ∈ sites d) ∧
     (x ∈ capabilities c ↔ x ∈ capabilities d) ∧ (x ∈ policies c ↔ x ∈ policies d)).

Lemma equivalent_same_meaning o c :
  equivalent_payload o (canonical_entities c) = true → same_meaning o c.
Proof.
  unfold equivalent_payload. rewrite !andb_true_iff, !eeqb_eq, !Z.eqb_eq, !list_eqb_eq.
  rewrite canonical_entities_eq. simpl. intros H; decompose [and] H.
  unfold same_meaning. repeat match goal with E : _ o = _ |- _ => rewrite E; clear E end.
  split_and!; try done. intros x. by rewrite !canonical_list_elem.
Qed.

(** ** Lemmas: declaration order *)

Lemma accepted_perm limits s1 s2 mid :
  constraints s1 ≡ₚ mid → Forall2 entity_perm mid (constraints s2) →
  cs_id s1 = cs_id s2 → cs_generation s1 = cs_generation s2 → name s1 = name s2 →
  accepted limits s1 →
  accepted limits s2 ∧
  canonical_constraints (constraints s1) = canonical_constraints (constraints s2).
Proof.
  intros Hp H2 Eid Eg En [HL Hid Hsz Hn Hv Hi].
  assert (map canonical_entities mid = map canonical_entities (constraints s2)) as Hmap.
  { clear -H2. induction H2 as [|c d cs ds Hcd _ IH]; [done|]. simpl.
    by rewrite IH, (entity_perm_canonical c d). }
  assert (map canonical_entities (constraints s1) ≡ₚ map canonical_entities (constraints s2)) as Hm.
  { rewrite <- Hmap. by apply Permutation_map. }
  split.
  - split; [done|by rewrite <- Eid, <- Eg| |by rewrite <- En|..].
    + unfold size. rewrite <- (Forall2_length _ _ _ H2), <- (Permutation_length Hp). exact Hsz.
    + rewrite Hp in Hv. clear -H2 Hv. induction H2 as [|c d cs ds Hcd _ IH]; [constructor|].
      apply Forall_cons in Hv as [Hc Hv]. constructor; [|by apply IH].
      unfold valid in *. by rewrite <- (entity_perm_validate limits c d).
    + intros a b. rewrite <- Hm. apply Hi.
  - unfold canonical_constraints. do 2 f_equal.
    apply (stable_sort_perm_eq canonical_less canonical_cmp canonical_less_cmp); [|done].
    intros. by apply canonical_cmp_eq.
Qed.

(** ** Lemmas: encoding *)

#[export] Instance appends_encode_ranking p : Appends (encode_ranking_policy p).
Proof. unfold encode_ranking_policy. apply _. Qed.
#[export] Typeclasses Opaque encode_ranking_policy encode_constraint_set.
#[export] Instance appends_encode_constraint_set s : Appends (encode_constraint_set s).
Proof. unfold encode_constraint_set. apply _. Qed.

#[export] Instance safe_or_fail {A} (m : reader A) : Safe m → Safe (or_fail m).
Proof.
  intros Hm r Hr. unfold or_fail. destruct (Hm r Hr) as [Hd Hp Hf Hh].
  destruct (m r) as [[a|] r']; simpl in *; split; simpl; done.
Qed.
#[export] Instance safe_read_requirements : Safe read_requirements.
Proof. unfold read_requirements. apply _. Qed.
#[export] Instance safe_decode_ranking_policy : Safe decode_ranking_policy.
Proof. unfold decode_ranking_policy. apply _. Qed.
#[export] Instance safe_decode_constraint_set limits : Safe (decode_constraint_set limits).
Proof.
  assert (Safe (raw kSize)) by (apply safe_raw; done).
  unfold decode_constraint_set. apply _.
Qed.

Lemma reads_or_fail {A} (m : reader A) bs a : reads m bs a → reads (or_fail m) bs a.
Proof. intros H pre post. unfold or_fail. by rewrite (H pre post). Qed.

Lemma reads_ranking p : reads decode_ranking_policy (encode_ranking_policy p []) p.
Proof.
  unfold decode_ranking_policy, encode_ranking_policy.
  do 3 (read_field; [apply reads_bool|]).
  read_field; [apply reads_u8; by destruct (expected_cost_model p)|].
  read_field; [apply reads_u8; by destruct (tiebreak p)|]. read_last; [by apply reads_u16|].
  apply reads_guard; [by destruct (expected_cost_model p), (tiebreak p)|].
  rewrite !of_code_code. destruct p. apply reads_ret.
Qed.

Definition wire_requirements (e : EvidenceRequirements) : Prop :=
  Forall generation_field [req_topology e; req_link_state e; req_capability e;
    req_failure_domain e; req_policy e; req_planner e; req_path_authority e] ∧
  fits 64 (max_evidence_age_ticks e).

Lemma reads_requirements {B} e (k : EvidenceRequirements → reader B) g b `{!Appends g} :
  wire_requirements e → reads (k e) (g []) b →
  reads (read_requirements ≫= k)
    ((put_u64 (req_topology e) ;;> put_u64 (req_link_state e) ;;> put_u64 (req_capability e) ;;>
      put_u64 (req_failure_domain e) ;;> put_u64 (req_policy e) ;;> put_u64 (req_planner e) ;;>
      put_u64 (req_path_authority e) ;;> put_u64 (max_evidence_age_ticks e) ;;> g) []) b.
Proof.
  intros [Hg Ha] Hk. rewrite !Forall_cons in Hg. destruct Hg as (H1 & H2 & H3 & H4 & H5 & H6 & H7 & _).
  rewrite !seqw_nil by apply _. rewrite !app_assoc. eapply reads_bind; [|exact Hk].
  rewrite <- !app_assoc. rewrite <- !seqw_nil by apply _. unfold read_requirements.
  do 7 (read_field; [by apply reads_generation_field|]). read_last; [by apply reads_u64|].
  destruct e. apply reads_ret.
Qed.

Lemma size_bytes_of_string s : size (bytes_of_string s) = Z.of_nat (String.length s).
Proof. unfold size. f_equal. induction s as [|c s IH]; simpl; [done|]. by rewrite <- IH. Qed.

Record wire_set (s : ConstraintSet) : Prop := {
  ws_id : fits 64 (cs_id s);
  ws_generation : generation_field (cs_generation s);
  ws_tick : fits 64 (declared_tick s);
  ws_requirements : wire_requirements (requirements s);
  ws_constraints : Forall (λ c, machine_constraint c ∧ is_representable (generation c) = true)
    (constraints s);
  ws_digest : size (cs_digest s) = kSize
}.

Lemma verify_canonical_facts s limits :
  ok (verify_canonical_constraint_set s limits) = true →
  cs_id s ≠ 0 ∧ cs_generation s ≠ 0 ∧ size (constraints s) <= max_constraints_per_set limits ∧
  Forall (λ c, valid limits c ∧ canonical_lists c = true) (constraints s) ∧
  StronglySorted (λ a b, canonical_cmp a b < 0) (constraints s) ∧
  cs_digest s = constraint_set_digest s ∧ contradictions_of s = [].
Proof.
  unfold verify_canonical_constraint_set. rewrite !ok_if, ok_rbind, ok_if, !orb_false_iff,
    !negb_false_iff, !is_valid_true, digest_eqb_eq, detect_contradictions_ok.
  intros ((H1 & H2) & H3 & H4 & H5 & H6 & H7). apply verify_constraints_spec in H4 as (H8 & H9 & _).
  split_and!; try done.
Qed.

Lemma reads_constraint_set limits s :
  limits_ok limits = true → wire_set s →
  Z.of_nat (String.length (name s)) <= max_name_bytes limits →
  ok (verify_canonical_constraint_set s limits) = true →
  reads (decode_constraint_set limits) (encode_constraint_set s []) s.
Proof.
  intros HL [Hid Hgen Htick Hreq Hcs Hd] Hname Hv.
  destruct (verify_canonical_facts s limits Hv) as (H1 & H2 & H3 & H4 & _).
  pose proof (limits_ok_entry limits 1 _ HL eq_refl) as Lc.
  pose proof (limits_ok_entry limits 21 _ HL eq_refl) as Ln. cbn [snd] in *.
  rewrite Forall_forall in Hcs, H4.
  unfold decode_constraint_set, encode_constraint_set.
  read_field; [by apply reads_u64|]. read_field; [by apply reads_u64, generation_field_fits|].
  read_field; [apply reads_u8; by destruct (cs_state s)|]. read_field; [by apply reads_u8|].
  read_field; [by apply reads_u16|]. read_field; [by apply reads_u32|]. apply reads_guard.
  { assert (is_representable (cs_generation s) = true) as ->.
    { unfold generation_field in Hgen. rewrite is_representable_true; lia. }
    apply Z.eqb_neq in H1 as ->. by destruct (cs_state s). }
  read_field; [apply reads_or_fail, reads_string; rewrite size_bytes_of_string; lia|].
  apply reads_guard; [lia|]. read_field; [by apply reads_u64|].
  apply reads_requirements; [apply _|done|]. read_field; [apply reads_ranking|].
  read_field; [apply reads_counted; [apply _|by eapply size_fits32|done|]|].
  { intros c Hc. destruct (Hcs c Hc), (H4 c Hc). by apply reads_constraint. }
  read_last; [rewrite <- Hd; apply reads_raw|]. apply reads_require_ok. cbv zeta.
  rewrite of_code_code. destruct s; simpl in *.
  apply reads_guard; [by rewrite Hv|]. apply reads_ret.
Qed.

(** ** Lemmas: the digest input determines the definition *)

Definition parse_ranking : reader RankingPolicy :=
  rank ← boolean; cost ← boolean; lower ← boolean; cost_model ← u8; tiebreak ← u8;
  mret (mkRanking rank cost lower (of_code cost_model) (of_code tiebreak)).

Definition parse_constraint : reader Constraint :=
  id ← u64; generation ← u64; parse_payload id generation.

(** The digested part of a set. *)
Definition definition_of (s : ConstraintSet) :
    Z * Z * list Constraint * EvidenceRequirements * RankingPolicy :=
  (cs_id s, cs_generation s, constraints s, requirements s, ranking s).

Definition parse_set : reader (Z * Z * list Constraint * EvidenceRequirements * RankingPolicy) :=
  id ← u64; generation ← u64; cs ← parse_counted parse_constraint;
  r1 ← u64; r2 ← u64; r3 ← u64; r4 ← u64; r5 ← u64; r6 ← u64; r7 ← u64; age ← u64;
  ranking ← parse_ranking;
  mret (id, generation, cs, mkRequirements r1 r2 r3 r4 r5 r6 r7 age, ranking).

Lemma reads_hash_ranking p : reads parse_ranking (concat (feed_ranking p)) p.
Proof.
  unfold parse_ranking, feed_ranking. autorewrite with hashed.
  do 3 (hash_field; [apply reads_bool|]).
  hash_field; [apply reads_u8; by destruct (expected_cost_model p)|].
  read_last; [apply reads_u8; by destruct (tiebreak p)|].
  rewrite !of_code_code. destruct p. apply reads_ret.
Qed.

Lemma reads_hash_constraint c :
  machine_constraint c → reads parse_constraint (concat (Constraint.feed_digest c)) c.
Proof.
  intros Hm. rewrite feed_digest_bytes. unfold parse_constraint.
  hash_field; [apply reads_u64; apply Hm|]. hash_field; [apply reads_u64; apply Hm|].
  pose proof (reads_payload (id c) (generation c) c Hm) as H. by destruct c.
Qed.

Lemma reads_hash_set s :
  wire_set s → fits 32 (size (constraints s)) →
  reads parse_set (concat (feed_constraint_set s)) (definition_of s).
Proof.
  intros [Hid Hgen Htick [Hreq Hage] Hcs Hd] Hsz. rewrite Forall_forall in Hcs.
  rewrite !Forall_cons in Hreq. destruct Hreq as (H1 & H2 & H3 & H4 & H5 & H6 & H7 & _).
  unfold parse_set, feed_constraint_set, feed_evidence_requirements. autorewrite with hashed.
  hash_field; [by apply reads_u64|]. hash_field; [by apply reads_u64, generation_field_fits|].
  hash_field; [apply reads_hash_list; [done|]|].
  { intros c Hc. apply reads_hash_constraint. by apply Hcs. }
  rewrite <- !app_assoc. do 7 (hash_field; [by apply reads_u64, generation_field_fits|]).
  hash_field; [by apply reads_u64|]. read_last; [apply reads_hash_ranking|].
  unfold definition_of. destruct s as [? ? ? ? ? [] ? ? ?]. apply reads_ret.
Qed.


(** ** Lemmas: the difference of two definitions *)

(** The constraint a set holds under an identity: the first one declared. *)
Definition constraint_of (s : ConstraintSet) (i : Z) : option Constraint :=
  List.find (λ c, id c =? i) (constraints s).

Lemma by_identity_lookup_from cs : ∀ (m : gmap Z Constraint) i,
  fold_left (λ m c, match m !! id c with Some _ => m | None => <[id c := c]> m end) cs m !! i =
  match m !! i with Some c => Some c | None => List.find (λ c, id c =? i) cs end.
Proof.
  induction cs as [|c cs IH]; intros m i; [by cbn; destruct (m !! i)|].
  cbn [fold_left List.find]. rewrite IH. destruct (m !! id c) eqn:E.
  - destruct (m !! i) eqn:Ei; [done|]. destruct (id c =? i) eqn:Eq; [|done].
    apply Z.eqb_eq in Eq. congruence.
  - destruct (decide (id c = i)) as [<-|Hne].
    + by rewrite lookup_insert_eq, E, Z.eqb_refl.
    + rewrite lookup_insert_ne by done. apply Z.eqb_neq in Hne as ->. by destruct (m !! i).
Qed.

Lemma by_identity_lookup s i : by_identity (constraints s) !! i = constraint_of s i.
Proof. unfold by_identity. by rewrite by_identity_lookup_from, lookup_empty. Qed.

(** What a recorded change says about the two definitions. *)
Definition describes (from to : ConstraintSet) (ch : ConstraintChange) : Prop :=
  match constraint_of from (changed_constraint ch), constraint_of to (changed_constraint ch) with
  | Some a, None => change_kind ch = ConstraintChangeKind.Removed ∧ changed_kind ch = kind a
  | None, Some b => change_kind ch = ConstraintChangeKind.Added ∧ changed_kind ch = kind b
  | Some a, Some b => a ≠ b ∧ change_kind ch = ConstraintChangeKind.Changed ∧
      changed_kind ch = kind b
  | None, None => False
  end.

Lemma elem_concat_map {A B} (f : A → list B) y l :
  y ∈ concat (map f l) ↔ ∃ x, x ∈ l ∧ y ∈ f x.
Proof.
  rewrite list_elem_of_In, in_concat. split.
  - intros (k & (x & <- & Hx)%in_map_iff & Hy). exists x. by rewrite !list_elem_of_In.
  - intros (x & Hx & Hy). exists (f x). rewrite <- !list_elem_of_In. split; [|done].
    by apply list_elem_of_fmap_2.
Qed.

(** The changes before they are sorted. *)
Definition found_changes (left right : gmap Z Constraint) : list ConstraintChange :=
  concat (map (left_change right) (map_to_list left)) ++
  concat (map (right_change left) (map_to_list right)).

Lemma left_change_elem right i c ch :
  ch ∈ left_change right (i, c) ↔
  changed_constraint ch = i ∧
  match right !! i with
  | None => change_kind ch = ConstraintChangeKind.Removed ∧ changed_kind ch = kind c
  | Some d => c ≠ d ∧ change_kind ch = ConstraintChangeKind.Changed ∧ changed_kind ch = kind d
  end.
Proof.
  unfold left_change; simpl. destruct (right !! i) as [d|].
  - unfold semantically_equal. destruct (constraint_eqb c d) eqn:E; cbn [negb].
    + apply constraint_eqb_eq in E as ->. split; [set_solver|naive_solver].
    + rewrite list_elem_of_singleton. split.
      * intros ->. split_and!; try done. intros ->.
        by rewrite (proj2 (constraint_eqb_eq d d) eq_refl) in E.
      * intros (? & _ & ? & ?). destruct ch; simpl in *; by subst.
  - rewrite list_elem_of_singleton. split; [by intros ->|].
    intros (? & ? & ?). destruct ch; simpl in *; by subst.
Qed.

Lemma right_change_elem left i c ch :
  ch ∈ right_change left (i, c) ↔
  changed_constraint ch = i ∧ left !! i = None ∧
  change_kind ch = ConstraintChangeKind.Added ∧ changed_kind ch = kind c.
Proof.
  unfold right_change; simpl. destruct (left !! i) as [d|]; [set_solver|].
  rewrite list_elem_of_singleton. split; [by intros ->|].
  intros (? & _ & ? & ?). destruct ch; simpl in *; by subst.
Qed.

Lemma found_changes_elem left right ch :
  ch ∈ found_changes left right ↔
  match left !! changed_constraint ch, right !! changed_constraint ch with
  | Some a, None => change_kind ch = ConstraintChangeKind.Removed ∧ changed_kind ch = kind a
  | None, Some b => change_kind ch = ConstraintChangeKind.Added ∧ changed_kind ch = kind b
  | Some a, Some b => a ≠ b ∧ change_kind ch = ConstraintChangeKind.Changed ∧
      changed_kind ch = kind b
  | None, None => False
  end.
Proof.
  unfold found_changes. rewrite elem_of_app, !elem_concat_map. split.
  - intros [([i c] & Hm & Hc)|([i c] & Hm & Hc)]; apply elem_of_map_to_list in Hm.
    + apply left_change_elem in Hc as [-> Hc]. rewrite Hm. by destruct (right !! i).
    + apply right_change_elem in Hc as (-> & -> & Hc). by rewrite Hm.
  - destruct (left !! changed_constraint ch) as [a|] eqn:El.
    + intros H. left. exists (changed_constraint ch, a). rewrite elem_of_map_to_list.
      split; [done|]. apply left_change_elem. split; [done|].
      by destruct (right !! changed_constraint ch).
    + destruct (right !! changed_constraint ch) as [b|] eqn:Er; [|done].
      intros H. right. exists (changed_constraint ch, b). rewrite elem_of_map_to_list.
      split; [done|]. by apply right_change_elem.
Qed.

Lemma changes_of_map_NoDup (f : Z * Constraint → list ConstraintChange) (m : list (Z * Constraint)) :
  (∀ p, f p = [] ∨ ∃ ch, f p = [ch] ∧ changed_constraint ch = p.1) →
  NoDup (map fst m) → NoDup (map changed_constraint (concat (map f m))) ∧
  ∀ i, i ∈ map changed_constraint (concat (map f m)) → i ∈ map fst m.
Proof.
  intros Hf. induction m as [|p m IH]; intros Hnd; [split; [constructor|done]|].
  cbn [map concat] in *. apply NoDup_cons in Hnd as [Hp Hnd].
  destruct (IH Hnd) as [IH1 IH2]. rewrite map_app. destruct (Hf p) as [->|(ch & -> & Hch)]; cbn.
  - split; [done|]. intros i Hi. right. by apply IH2.
  - split.
    + constructor; [|done]. rewrite Hch. intros H. by apply Hp, IH2.
    + intros i [->|Hi]%elem_of_cons; [rewrite Hch; left|right; by apply IH2].
Qed.

Lemma found_changes_NoDup left right :
  NoDup (map changed_constraint (found_changes left right)).
Proof.
  unfold found_changes. rewrite map_app.
  destruct (changes_of_map_NoDup (left_change right) (map_to_list left)) as [H1 H2].
  { intros [i c]. unfold left_change; simpl. destruct (right !! i); [|right; by eexists].
    destruct (negb _); [right; by eexists|by left]. }
  { apply NoDup_fst_map_to_list. }
  destruct (changes_of_map_NoDup (right_change left) (map_to_list right)) as [H3 _].
  { intros [i c]. unfold right_change; simpl. destruct (left !! i); [by left|right; by eexists]. }
  { apply NoDup_fst_map_to_list. }
  apply NoDup_app. split_and!; [done| |done].
  intros i Hi Hr. apply H2, list_elem_of_fmap in Hi as ([j c] & -> & Hm).
  apply elem_of_map_to_list in Hm. apply list_elem_of_fmap in Hr as (ch & Heq & Hch).
  apply elem_concat_map in Hch as ([k d] & _ & Hch).
  apply right_change_elem in Hch as (<- & Hno & _). simpl in Heq. rewrite <- Heq in Hno.
  simpl in Hm. congruence.
Qed.

(** The order of the changes, as a three-way comparison. *)
Definition change_cmp (a b : ConstraintChange) : Z :=
  cmp_step (code (change_kind a)) (code (change_kind b)) (
  cmp_step (changed_constraint a) (changed_constraint b) (
  cmp_step (code (changed_kind a)) (code (changed_kind b)) 0)).

#[export] Instance change_cmp_order : CmpOrder change_cmp.
Proof. unfold change_cmp. refine (cmp_step_order (λ c, code (change_kind c)) _ _). Qed.

Lemma change_less_cmp a b : change_less a b = (change_cmp a b <? 0).
Proof.
  unfold change_less, change_cmp, cmp_step.
  destruct (eeqb (change_kind a) (change_kind b)) eqn:E; cbn [negb].
  - apply eeqb_eq in E as ->. ifs_lia.
  - apply eeqb_neq in E.
    assert (code (change_kind a) ≠ code (change_kind b)) by (intros ?%code_inj; done). ifs_lia.
Qed.

(** ** Lemmas: decoding untrusted bytes *)

Lemma decode_constraint_set_yields limits :
  yields (decode_constraint_set limits)
    (λ s, ok (verify_canonical_constraint_set s limits) = true).
Proof.
  unfold decode_constraint_set. repeat yields_step. apply yields_ret. by apply negb_false_iff.
Qed.

(** ** Properties *)

(** C36: Finalizing a declaration succeeds exactly when the declaration is
    acceptable and its canonical form holds no contradiction; the result is that
    canonical form, the verifier of persisted sets accepts it, and canonicalizing
    it again changes and observes nothing. A failure leaves the set as it was. *)
Theorem finalize_correct s limits out :
  Forall machine_constraint (constraints s) →
  let r := validate_and_finalize_constraint_set s limits out in
  (ok (fin_status r) = true ↔
     accepted limits s ∧ contradictions_of (canonical_form s) = []) ∧
  (ok (fin_status r) = true →
     fin_set r = canonical_form s ∧ fin_contradictions r = [] ∧
     verify_canonical_constraint_set (fin_set r) limits = success ∧
     canonicalize_constraint_set (fin_set r) limits = Success (fin_set r, [])) ∧
  (ok (fin_status r) = false → fin_set r = s).
Proof.
  intros Hm r. subst r. unfold validate_and_finalize_constraint_set.
  destruct (canonicalize_constraint_set s limits) as [[t d]|c w] eqn:E.
  - apply canonicalize_accepted in E as [-> Hacc].
    pose proof (detect_contradictions_ok (canonical_form s) limits) as Hok.
    pose proof (acc_size _ _ (accepted_canonical_form _ _ Hacc)) as Hsz.
    pose proof (verify_canonical_form limits s Hacc Hm) as Hv.
    pose proof (canonicalize_canonical_form limits s Hacc) as Hc.
    pose proof (detect_contradictions_out (canonical_form s) limits) as Ho.
    destruct (detect_contradictions (canonical_form s) limits) as [st o]. cbn [fst snd] in *.
    destruct (ok st) eqn:Es; cbn [negb fin_status fin_set fin_contradictions].
    + apply ok_status in Es as ->. destruct Hok as [Hok _]. destruct (Hok eq_refl) as [_ Hn].
      rewrite (Ho eq_refl). split_and!; done.
    + rewrite Es. split_and!; [split; [done|]|done|done]. intros [_ Hn]. by apply Hok.
  - cbn. split_and!; [split; [done|]|done|done]. intros [Hacc _].
    destruct (accepted_canonicalize s limits Hacc) as [d Hd]. congruence.
Qed.

(** Canonicalization keeps what was declared: every declared constraint has
    a representative with the same payload, entity lists being sets, every
    constraint of the result is a declared one, the result is strictly ordered
    and no identity occurs twice, and nothing else of the set changes. *)
Theorem canonicalize_constraint_set_keeps s limits t d :
  Forall machine_constraint (constraints s) →
  canonicalize_constraint_set s limits = Success (t, d) →
  (∀ c, c ∈ constraints s → ∃ o, o ∈ constraints t ∧ same_meaning o c) ∧
  (∀ o, o ∈ constraints t → ∃ c, c ∈ constraints s ∧ id o = id c ∧
     generation o = generation c ∧ same_meaning o c) ∧
  StronglySorted (λ a b, compare_payload a b < 0 ∧ id a ≠ id b) (constraints t) ∧
  t = with_constraints s (constraints t) (constraint_set_digest t).
Proof.
  intros Hm H. apply canonicalize_accepted in H as [-> Hacc].
  destruct (canonical_constraints_spec (constraints s)) as (_ & H2 & _ & H4).
  destruct (canonical_form_constraints limits s Hacc) as (_ & Hs & Hi). split_and!.
  - intros c (o & Ho & E)%H4. exists o. split; [done|]. by apply equivalent_same_meaning.
  - intros o (c & Hc & ->)%H2. exists c. split_and!; try done.
    apply equivalent_same_meaning, equivalent_payload_refl.
  - apply distinct_identities; [done|by apply machine_canonical_form|done].
  - done.
Qed.

(** The order of declaration is never observable: permuting the constraints
    of an acceptable set, and the entities of each constraint's lists, gives the
    same canonical constraints and the same digest. *)
Theorem canonicalize_declaration_order s1 s2 mid limits t1 d1 :
  constraints s1 ≡ₚ mid → Forall2 entity_perm mid (constraints s2) →
  cs_id s1 = cs_id s2 → cs_generation s1 = cs_generation s2 → name s1 = name s2 →
  requirements s1 = requirements s2 → ranking s1 = ranking s2 →
  canonicalize_constraint_set s1 limits = Success (t1, d1) →
  ∃ t2 d2, canonicalize_constraint_set s2 limits = Success (t2, d2) ∧
    constraints t2 = constraints t1 ∧ cs_digest t2 = cs_digest t1.
Proof.
  intros Hp H2 E1 E2 E3 E4 E5 H. apply canonicalize_accepted in H as [-> Hacc].
  destruct (accepted_perm limits s1 s2 mid Hp H2 E1 E2 E3 Hacc) as [Hacc2 Heq].
  destruct (accepted_canonicalize s2 limits Hacc2) as [d2 Hd].
  exists (canonical_form s2), d2. split; [done|]. unfold canonical_form. rewrite <- Heq.
  cbn [with_constraints constraints cs_digest]. split; [reflexivity|].
  unfold constraint_set_digest, feed_constraint_set; cbn [with_constraints cs_id cs_generation
    constraints requirements ranking]. by rewrite E1, E2, E4, E5.
Qed.

(** A verified set is read back from its encoding, whatever follows it in
    the buffer, and the decoder stops right after it. *)
Theorem constraint_set_roundtrip s limits :
  limits_ok limits = true → wire_set s →
  Z.of_nat (String.length (name s)) <= max_name_bytes limits →
  ok (verify_canonical_constraint_set s limits) = true →
  ∀ post, decode_constraint_set limits (open_reader (encode_constraint_set s [] ++ post)) =
    (Some s, mkReader (encode_constraint_set s [] ++ post) (size (encode_constraint_set s []))
       true).
Proof.
  intros HL Hw Hn Hv post. apply (reads_constraint_set limits s HL Hw Hn Hv [] post).
Qed.

(** The digest of a set covers exactly its definition: two sets with the
    same digest input have the same identity, generation, constraints, evidence
    requirements and ranking; state, name and tick are not covered. *)
Theorem constraint_set_digest_input a b :
  wire_set a → wire_set b → fits 32 (size (constraints a)) → fits 32 (size (constraints b)) →
  constraint_set_digest a =
    sha256 (concat (hash_string "crf.constraint-set.v1") ++ concat (feed_constraint_set a)) ∧
  (concat (feed_constraint_set a) = concat (feed_constraint_set b) ↔
     definition_of a = definition_of b).
Proof.
  intros Ha Hb Sa Sb. split; [unfold constraint_set_digest; by rewrite digest_of_sha256|]. split.
  - intros E. pose proof (reads_hash_set a Ha Sa) as Ra. rewrite E in Ra.
    apply (reads_inj _ _ _ _ Ra (reads_hash_set b Hb Sb)).
  - unfold definition_of. intros E. injection E as E1 E2 E3 E4 E5.
    unfold feed_constraint_set. by rewrite E1, E2, E3, E4, E5.
Qed.

(** The difference of two definitions lists exactly the identities whose
    constraint was added, removed or changed, each once and with what happened
    to it, in the documented order. *)
Theorem diff_constraint_sets_correct from to :
  let d := diff_constraint_sets from to in
  (∀ ch, ch ∈ changes d ↔ describes from to ch) ∧
  NoDup (map changed_constraint (changes d)) ∧
  StronglySorted (λ a b, change_cmp a b <= 0) (changes d).
Proof.
  cbn [diff_constraint_sets changes]. fold (found_changes (by_identity (constraints from))
    (by_identity (constraints to))). split_and!.
  - intros ch. rewrite stable_sort_elem, found_changes_elem, !by_identity_lookup. done.
  - rewrite (Permutation_map changed_constraint (stable_sort_perm change_less _)).
    apply found_changes_NoDup.
  - apply (stable_sort_sorted change_less change_cmp change_less_cmp).
Qed.

(** Decoding untrusted bytes is safe: on any input the decoders of
    candidates, sets and evaluations stay inside the buffer, and what they return
    is a valid candidate, a verified set, and a record whose reasons are strictly
    ordered, classified by their codes, led by the primary one and within the
    limits. *)
Theorem decoders_sound limits :
  limits_ok limits = true →
  sound_decoder (decode_candidate limits) (λ c, ok (validate_candidate c limits) = true) ∧
  sound_decoder (decode_constraint_set limits)
    (λ s, ok (verify_canonical_constraint_set s limits) = true) ∧
  sound_decoder (decode_evaluation limits) (ordered_evaluation limits).
Proof.
  intros HL. split_and!; apply sound_decoder_intro; try apply _.
  - apply decode_candidate_yields.
  - apply decode_constraint_set_yields.
  - by apply decode_evaluation_yields.
Qed.

(** ** Witnesses *)

(** A constraint with only the payload its kind uses. *)
Definition node_constraint (i : Z) (k : ConstraintKind.t) (ns : list Z) : Constraint :=
  mkConstraint i 1 k ConstraintScope.Mandatory UnknownPolicy.FailClosed 0 LatencySource.Unset
    DomainKind.Unset DomainRelation.Unset 0 0 ns [] [] [] [] [] 0 0.
Definition bound_constraint (i : Z) (k : ConstraintKind.t) (b : Z) : Constraint :=
  mkConstraint i 1 k ConstraintScope.Mandatory UnknownPolicy.FailClosed b LatencySource.Unset
    DomainKind.Unset DomainRelation.Unset 0 0 [] [] [] [] [] [] 0 0.
Definition hop_preference (i b : Z) : Constraint :=
  mkConstraint i 1 ConstraintKind.MaxHopCount ConstraintScope.Preference UnknownPolicy.FailClosed
    b LatencySource.Unset DomainKind.Unset DomainRelation.Unset 0 0 [] [] [] [] [] [] 1 10.

Definition sample_requirements : EvidenceRequirements := mkRequirements 1 1 1 1 1 1 1 1000.

(** A declaration in no particular order, with a repeated entity. *)
Definition sample_set : ConstraintSet :=
  mkSet 7 1 ConstraintSetState.Declared "sample"
    [hop_preference 3 4; node_constraint 1 ConstraintKind.RequiredNode [20; 10; 20];
     bound_constraint 2 ConstraintKind.MinBandwidthCapability 100]
    sample_requirements default_ranking zero_digest 5.

(** The same declaration in another order. *)
Definition shuffled_set : ConstraintSet :=
  with_constraints sample_set
    [node_constraint 1 ConstraintKind.RequiredNode [20; 20; 10];
     bound_constraint 2 ConstraintKind.MinBandwidthCapability 100; hop_preference 3 4]
    zero_digest.

Lemma sample_constraint_machine c :
  c ∈ constraints sample_set ++ constraints (canonical_form sample_set) →
  machine_constraint c ∧ is_representable (generation c) = true.
Proof.
  intros Hc. vm_compute in Hc. repeat (apply elem_of_cons in Hc as [->|Hc]); [..|set_solver].
  all: split; [|done]; split; cbn; unfold ids_fit, fits, fits_i64, size; cbn; try lia.
  all: split; [|lia]; repeat constructor; lia.
Qed.

Lemma sample_set_machine : Forall machine_constraint (constraints sample_set).
Proof.
  apply Forall_forall. intros c Hc. apply sample_constraint_machine. rewrite elem_of_app. by left.
Qed.

Lemma sample_form_wire : wire_set (canonical_form sample_set).
Proof.
  split; [unfold fits|unfold generation_field|unfold fits|split| |vm_compute; reflexivity];
    cbn [canonical_form with_constraints cs_id cs_generation declared_tick sample_set
      requirements]; try lia.
  - unfold generation_field, sample_requirements; repeat constructor; cbn; lia.
  - unfold fits; cbn; lia.
  - apply Forall_forall. intros c Hc. apply sample_constraint_machine.
    rewrite elem_of_app. by right.
Qed.

Lemma finalize_correct_witness :
  let r := validate_and_finalize_constraint_set sample_set default_limits [] in
  ok (fin_status r) = true ∧ verify_canonical_constraint_set (fin_set r) default_limits = success ∧
  constraints (fin_set r) ≠ constraints sample_set.
Proof.
  assert (ok (fin_status (validate_and_finalize_constraint_set sample_set default_limits [])) =
    true) as Hok by (vm_compute; reflexivity).
  destruct (finalize_correct sample_set default_limits [] sample_set_machine) as (_ & H & _).
  cbv zeta. split; [exact Hok|]. split; [apply (H Hok)|]. vm_compute. discriminate.
Defined.

Lemma canonicalize_constraint_set_keeps_witness :
  ∃ t d, canonicalize_constraint_set sample_set default_limits = Success (t, d) ∧
  length d = 2%nat ∧ ∀ c, c ∈ constraints sample_set → ∃ o, o ∈ constraints t ∧ same_meaning o c.
Proof.
  destruct (canonicalize_constraint_set sample_set default_limits) as [[t d]|] eqn:E;
    [|vm_compute in E; discriminate E].
  exists t, d. split; [reflexivity|]. split.
  - vm_compute in E. injection E as _ <-. reflexivity.
  - apply (canonicalize_constraint_set_keeps sample_set default_limits t d sample_set_machine E).
Defined.

Lemma canonicalize_declaration_order_witness :
  constraints sample_set ≠ constraints shuffled_set ∧
  ∃ t1 t2 d1 d2, canonicalize_constraint_set sample_set default_limits = Success (t1, d1) ∧
    canonicalize_constraint_set shuffled_set default_limits = Success (t2, d2) ∧
    cs_digest t2 = cs_digest t1.
Proof.
  split; [vm_compute; discriminate|].
  destruct (canonicalize_constraint_set sample_set default_limits) as [[t d]|] eqn:E;
    [|vm_compute in E; discriminate E].
  destruct (canonicalize_declaration_order sample_set shuffled_set
    [node_constraint 1 ConstraintKind.RequiredNode [20; 10; 20];
     bound_constraint 2 ConstraintKind.MinBandwidthCapability 100; hop_preference 3 4]
    default_limits t d) as (t2 & d2 & H2 & _ & Hd); try reflexivity; try exact E.
  - apply (Permutation_app_comm [hop_preference 3 4]).
  - repeat constructor; cbn; by solve_Permutation.
  - exists t, t2, d, d2. split_and!; [reflexivity|exact H2|exact Hd].
Defined.

Lemma constraint_set_roundtrip_witness :
  let s := canonical_form sample_set in
  decode_constraint_set default_limits (open_reader (encode_constraint_set s [] ++ [])) =
  (Some s, mkReader (encode_constraint_set s [] ++ []) (size (encode_constraint_set s [])) true).
Proof.
  cbv zeta. apply (constraint_set_roundtrip (canonical_form sample_set) default_limits).
  - reflexivity.
  - exact sample_form_wire.
  - vm_compute. discriminate.
  - vm_compute. reflexivity.
Defined.

Lemma constraint_set_digest_input_witness :
  let s := canonical_form sample_set in
  let t := mkSet 7 1 ConstraintSetState.Active "renamed" (constraints s) (requirements s)
    (ranking s) (cs_digest s) 9 in
  concat (feed_constraint_set s) = concat (feed_constraint_set t).
Proof.
  cbv zeta. apply constraint_set_digest_input.
  - exact sample_form_wire.
  - pose proof sample_form_wire as [H1 H2 H3 H4 H5 H6]. split; try assumption.
  - vm_compute. done.
  - vm_compute. done.
  - reflexivity.
Defined.

Lemma decoders_sound_witness :
  let res := decode_evaluation default_limits (open_reader [x01; x00]) in
  position (res.2) <= 2.
Proof.
  cbv zeta.
  destruct (decoders_sound default_limits eq_refl) as (_ & _ & H).
  apply (H [x01; x00]).
Defined.
