(* ===== verification/Evaluator.v ===== *)
(** The pure deterministic evaluator, [evaluator.hpp] and [evaluator.cpp]: the
    checks of one candidate against one constraint set, the evaluation of a
    preference, the bounded reason vector, and the evaluation of a batch.

    A check function of the code pushes reasons on the state; here it is the list
    of the reasons it pushes, in order, and [push_reason] is folded over it. *)

From Stdlib Require Import ZArith Lia Bool Strings.Byte.
From stdpp Require Import base list numbers strings gmap sets sorting.
From S2P Require Import Prelude Base Codec Digest Lifecycle Constraint Candidate.
From S2P Require Import Evaluation Ordering ConstraintSet.

Open Scope string_scope.
Open Scope list_scope.
Open Scope Z_scope.

(** ** Context and state *)

(** The two pointers may be null. *)
Record EvaluationContext := mkContext {
  ctx_set : option ConstraintSet;
  current : EvidenceRequirements;
  requested_set_generation : Z;
  ctx_limits : option Limits;
  now_tick : Z;
  ctx_provenance : Provenance;
  ctx_generation : Z;
  authority_verified : bool
}.

Definition kMaxReasonsPerConstraint : Z := 8.

Record State := mkState {
  st_reasons : list Reason;
  st_preferences : list PreferenceSlot;
  st_consulted : EvidenceFamilyMask;
  st_truncated : bool
}.

Definition initial_evaluation : State := mkState [] [] 0 false.

(** [state.reasons.push_back(reason)]. *)
Definition add_reason (r : Reason) (s : State) : State :=
  mkState (st_reasons s ++ [r]) (st_preferences s) (st_consulted s) (st_truncated s).

Definition push_reason (s : State) (r : Reason) : State :=
  let emitted :=
    size (List.filter (λ existing, constraint_ordinal existing =? constraint_ordinal r)
      (st_reasons s)) in
  if kMaxReasonsPerConstraint <=? emitted then
    mkState (st_reasons s) (st_preferences s) (st_consulted s) true
  else
    add_reason (mkReason (reason_code r) (reason_class_of (reason_code r)) (reason_constraint r)
      (constraint_kind r) (constraint_ordinal r) (family r) (subject_kind r) (subject r)
      (expected r) (actual r)) s.

Definition make_reason (c : Constraint) (ordinal : Z) (code : ReasonCode.t)
    (family : EvidenceFamily.t) (subject_kind : SubjectKind.t) (subject expected actual : Z)
    : Reason :=
  mkReason code (reason_class_of code) (id c) (kind c) ordinal family subject_kind subject
    expected actual.

Definition families_of (c : Constraint) : EvidenceFamilyMask :=
  if eeqb (kind c) ConstraintKind.MaxLatency then
    if eeqb (latency_source c) LatencySource.PlannerCost
    then family_bit EvidenceFamily.Planner else family_bit EvidenceFamily.LinkState
  else evidence_families (kind c).

(** [if (b) push_reason(state, r);] *)
Definition when (b : bool) (r : Reason) : list Reason := if b then [r] else [].

(** [for (x : xs) { ... }] of a check: the pushes of every round. *)
Definition pushes {A} (f : A → list Reason) (xs : list A) : list Reason := concat (map f xs).

(** ** Evidence lookups *)

Definition find_locality (values : list LocalityRef) (kind : DomainKind.t) : option LocalityRef :=
  find_key (λ ref, code (ref_kind ref)) (code kind) values.
Definition find_domain (values : list FailureDomainRef) (kind : DomainKind.t)
    : option FailureDomainRef :=
  find_key (λ ref, code (ref_kind ref)) (code kind) values.
Definition find_capability (values : list CapabilityRef) (capability : Z) : option CapabilityRef :=
  find_key ref_identity capability values.
Definition find_isolation (values : list IsolationAttestation) (isolation_class : Z)
    : option IsolationAttestation :=
  find_key ref_identity isolation_class values.
Definition find_policy (values : list PolicyAttestation) (policy : Z) : option PolicyAttestation :=
  find_key ref_identity policy values.

Record EntityView := mkEntity {
  entity_identity : Z;
  entity_kind : SubjectKind.t;
  entity_domains : list FailureDomainRef;
  entity_capabilities : list CapabilityRef;
  entity_isolation : list IsolationAttestation
}.

Definition node_view (n : NodeFact) : EntityView :=
  mkEntity (node n) SubjectKind.Node (node_domains n) (node_capabilities n) (node_isolation n).
Definition link_view (l : LinkFact) : EntityView :=
  mkEntity (link l) SubjectKind.Link (link_domains l) (link_capabilities l) (link_isolation l).

Definition entities_of (p : CandidatePath) : list EntityView :=
  map node_view (path_nodes p) ++ map link_view (path_links p).

Record DomainScan := mkScan {
  complete : bool;
  domains : gset Z;
  first_incomplete : option EntityView
}.

(** One round: [first_incomplete] is the entity of the recorded identity and kind. *)
Definition scan_entity (kind : DomainKind.t) (scan : DomainScan) (e : EntityView) : DomainScan :=
  match find_domain (entity_domains e) kind with
  | None =>
      mkScan false (domains scan)
        (match first_incomplete scan with Some f => Some f | None => Some e end)
  | Some ref => mkScan (complete scan) ({[ref_domain ref]} ∪ domains scan) (first_incomplete scan)
  end.

Definition scan_domains (p : CandidatePath) (kind : DomainKind.t) : DomainScan :=
  fold_left (scan_entity kind) (entities_of p) (mkScan true ∅ None).

(** [scan.domains.size()]. *)
Definition distinct_domains (scan : DomainScan) : Z := Z.of_nat (base.size (domains scan)).
(** [*scan.domains.begin()]: the least element. *)
Definition least_domain (scan : DomainScan) : Z :=
  match stable_sort Z.ltb (elements (domains scan)) with x :: _ => x | [] => 0 end.
Definition incomplete_kind (scan : DomainScan) : SubjectKind.t :=
  match first_incomplete scan with Some e => entity_kind e | None => SubjectKind.Node end.
Definition incomplete_identity (scan : DomainScan) : Z :=
  match first_incomplete scan with Some e => entity_identity e | None => 0 end.

(** ** The mandatory checks *)

Section checks.
Context (cur : EvidenceRequirements) (p : CandidatePath) (c : Constraint) (ordinal : Z).

Definition fail_closed : bool := eeqb (unknown_policy c) UnknownPolicy.FailClosed.

(** [push_reason(state, make_reason(constraint, ordinal, ...))], about the path
    or about an entity. *)
Definition about_path (code : ReasonCode.t) (family : EvidenceFamily.t) (expected actual : Z)
    : Reason :=
  make_reason c ordinal code family SubjectKind.CandidatePath (path p) expected actual.
Definition about_node (code : ReasonCode.t) (family : EvidenceFamily.t)
    (subject expected actual : Z) : Reason :=
  make_reason c ordinal code family SubjectKind.Node subject expected actual.
Definition about_entity (code : ReasonCode.t) (family : EvidenceFamily.t) (e : EntityView)
    (expected actual : Z) : Reason :=
  make_reason c ordinal code family (entity_kind e) (entity_identity e) expected actual.

Definition latency_family : EvidenceFamily.t :=
  if eeqb (latency_source c) LatencySource.PlannerCost
  then EvidenceFamily.Planner else EvidenceFamily.LinkState.

Definition check_max_latency : list Reason :=
  let l := latency p in
  if eeqb (source l) LatencySource.Unset then
    [about_path ReasonCode.LatencyEvidenceUnavailable latency_family (code (latency_source c)) 0]
  else if negb (eeqb (source l) (latency_source c)) then
    [about_path ReasonCode.LatencyEvidenceUnavailable latency_family (code (latency_source c))
       (code (source l))]
  else
    when (bound c <? micros l)
      (about_path ReasonCode.MaxLatencyExceeded latency_family (u64_of_i64 (bound c))
         (u64_of_i64 (micros l))).

Definition check_min_bandwidth : list Reason :=
  match path_bandwidth_capability p (req_capability cur) with
  | None =>
      [about_path ReasonCode.BandwidthCapabilityUnavailable EvidenceFamily.Capability
         (u64_of_i64 (bound c)) 0]
  | Some bottleneck =>
      when (bottleneck <? bound c)
        (about_path ReasonCode.MinBandwidthCapabilityNotMet EvidenceFamily.Capability
           (u64_of_i64 (bound c)) (u64_of_i64 bottleneck))
  end.

Definition check_max_hop_count : list Reason :=
  when (bound c <? hop_count p)
    (about_path ReasonCode.MaxHopCountExceeded EvidenceFamily.Planner (u64_of_i64 (bound c))
       (u64_of_i64 (hop_count p))).

Definition check_required_node : list Reason :=
  pushes (λ wanted,
    when (negb (existsb (λ n, node n =? wanted) (path_nodes p)))
      (about_node ReasonCode.RequiredNodeAbsent EvidenceFamily.Topology wanted 0 0)) (nodes c).

Definition check_forbidden_node : list Reason :=
  pushes (λ forbidden,
    pushes (λ n, when (node n =? forbidden)
      (about_node ReasonCode.ForbiddenNodePresent EvidenceFamily.Topology forbidden 0 0))
      (path_nodes p)) (nodes c).

Definition about_link (code : ReasonCode.t) (subject : Z) : Reason :=
  make_reason c ordinal code EvidenceFamily.Topology SubjectKind.Link subject 0 0.

Definition check_required_link : list Reason :=
  pushes (λ wanted,
    when (negb (existsb (λ l, link l =? wanted) (path_links p)))
      (about_link ReasonCode.RequiredLinkAbsent wanted)) (links c).

Definition check_forbidden_link : list Reason :=
  pushes (λ forbidden,
    pushes (λ l, when (link l =? forbidden) (about_link ReasonCode.ForbiddenLinkPresent forbidden))
      (path_links p)) (links c).

Definition check_required_tier : list Reason :=
  pushes (λ n,
    if negb (is_valid (tier n)) then
      [about_node ReasonCode.TierEvidenceUnavailable EvidenceFamily.Topology (node n) 0 0]
    else
      when (negb (binary_search (tier n) (tiers c)))
        (about_node ReasonCode.RequiredTierNotMet EvidenceFamily.Topology (node n) 0 (tier n)))
    (path_nodes p).

Definition check_forbidden_tier : list Reason :=
  pushes (λ n,
    if negb (is_valid (tier n)) then
      when fail_closed
        (about_node ReasonCode.TierEvidenceUnavailable EvidenceFamily.Topology (node n) 0 0)
    else
      when (binary_search (tier n) (tiers c))
        (about_node ReasonCode.ForbiddenTierPresent EvidenceFamily.Topology (node n) 0 (tier n)))
    (path_nodes p).

Definition check_required_site : list Reason :=
  pushes (λ n,
    if negb (is_valid (site n)) then
      [about_node ReasonCode.SiteEvidenceUnavailable EvidenceFamily.Topology (node n) 0 0]
    else
      when (negb (binary_search (site n) (sites c)))
        (about_node ReasonCode.RequiredSiteNotMet EvidenceFamily.Topology (node n) 0 (site n)))
    (path_nodes p).

Definition check_forbidden_site : list Reason :=
  pushes (λ n,
    if negb (is_valid (site n)) then
      when fail_closed
        (about_node ReasonCode.SiteEvidenceUnavailable EvidenceFamily.Topology (node n) 0 0)
    else
      when (binary_search (site n) (sites c))
        (about_node ReasonCode.ForbiddenSitePresent EvidenceFamily.Topology (node n) 0 (site n)))
    (path_nodes p).

Definition check_locality_scope : list Reason :=
  pushes (λ n,
    match find_locality (localities n) (domain_kind c) with
    | None =>
        [about_node ReasonCode.LocalityEvidenceUnavailable EvidenceFamily.Topology (node n)
           (locality_domain c) 0]
    | Some membership =>
        when (negb (ref_domain membership =? locality_domain c))
          (about_node ReasonCode.LocalityScopeViolated EvidenceFamily.Topology (node n)
             (locality_domain c) (ref_domain membership))
    end) (path_nodes p).

Definition check_isolation_class : list Reason :=
  pushes (λ e,
    match find_isolation (entity_isolation e) (isolation_class c) with
    | None =>
        match entity_isolation e with
        | [] =>
            [about_entity ReasonCode.IsolationEvidenceUnavailable EvidenceFamily.FailureDomain e
               (isolation_class c) 0]
        | front :: _ =>
            [about_entity ReasonCode.IsolationClassNotProven EvidenceFamily.FailureDomain e
               (isolation_class c) (ref_identity front)]
        end
    | Some proof =>
        when (negb (ref_generation proof =? req_failure_domain cur))
          (about_entity ReasonCode.IsolationEvidenceUnavailable EvidenceFamily.FailureDomain e
             (req_failure_domain cur) (ref_generation proof))
    end) (entities_of p).

Definition check_required_capability : list Reason :=
  pushes (λ wanted,
    pushes (λ e,
      match find_capability (entity_capabilities e) wanted with
      | None =>
          [about_entity ReasonCode.CapabilityEvidenceUnavailable EvidenceFamily.Capability e wanted 0]
      | Some ref =>
          when (negb (ref_generation ref =? req_capability cur))
            (about_entity ReasonCode.CapabilityEvidenceUnavailable EvidenceFamily.Capability e
               (req_capability cur) (ref_generation ref))
      end) (entities_of p)) (capabilities c).

Definition check_forbidden_capability : list Reason :=
  pushes (λ forbidden,
    pushes (λ e,
      match find_capability (entity_capabilities e) forbidden with
      | None =>
          when fail_closed
            (about_entity ReasonCode.CapabilityEvidenceUnavailable EvidenceFamily.Capability e
               forbidden 0)
      | Some ref =>
          if negb (ref_generation ref =? req_capability cur) then
            [about_entity ReasonCode.CapabilityEvidenceUnavailable EvidenceFamily.Capability e
               (req_capability cur) (ref_generation ref)]
          else
            [about_entity ReasonCode.ForbiddenCapabilityPresent EvidenceFamily.Capability e
               forbidden 0]
      end) (entities_of p)) (capabilities c).

(** The reasons of the two failure-domain checks. *)
Definition domains_unavailable (scan : DomainScan) : Reason :=
  make_reason c ordinal ReasonCode.FailureDomainEvidenceUnavailable EvidenceFamily.FailureDomain
    (incomplete_kind scan) (incomplete_identity scan) 0 0.
Definition about_domains (code : ReasonCode.t) (expected actual : Z) : Reason :=
  make_reason c ordinal code EvidenceFamily.FailureDomain SubjectKind.FailureDomain
    (Base.code (domain_kind c)) expected actual.

Definition check_required_domain_relation : list Reason :=
  let scan := scan_domains p (domain_kind c) in
  if negb (complete scan) then [domains_unavailable scan]
  else
    when (distinct_domains scan <? bound c)
      (about_domains ReasonCode.RequiredFailureDomainRelationNotMet (u64_of_i64 (bound c))
         (distinct_domains scan)).

Definition check_forbidden_domain_relation : list Reason :=
  let scan := scan_domains p (domain_kind c) in
  if negb (complete scan) && fail_closed then [domains_unavailable scan]
  else if eeqb (domain_relation c) DomainRelation.Shared then
    when (complete scan && (distinct_domains scan =? 1))
      (about_domains ReasonCode.ForbiddenFailureDomainRelationMet 0 (least_domain scan))
  else
    when (bound c <=? distinct_domains scan)
      (about_domains ReasonCode.ForbiddenFailureDomainRelationMet (u64_of_i64 (bound c))
         (distinct_domains scan)).

Definition about_policy (code : ReasonCode.t) (subject expected actual : Z) : Reason :=
  make_reason c ordinal code EvidenceFamily.Policy SubjectKind.Policy subject expected actual.

Definition check_administrative_policy : list Reason :=
  pushes (λ wanted,
    match find_policy (path_policies p) wanted with
    | None => [about_policy ReasonCode.AdministrativePolicyNotSatisfied wanted 0 0]
    | Some attestation =>
        when (negb (ref_generation attestation =? req_policy cur))
          (about_policy ReasonCode.PolicyEvidenceUnavailable wanted (req_policy cur)
             (ref_generation attestation))
    end) (policies c).

(** The [switch] of [evaluate_mandatory]. *)
Definition mandatory_pushes : list Reason :=
  match kind c with
  | ConstraintKind.MaxLatency => check_max_latency
  | ConstraintKind.MinBandwidthCapability => check_min_bandwidth
  | ConstraintKind.MaxHopCount => check_max_hop_count
  | ConstraintKind.RequiredNode => check_required_node
  | ConstraintKind.ForbiddenNode => check_forbidden_node
  | ConstraintKind.RequiredLink => check_required_link
  | ConstraintKind.ForbiddenLink => check_forbidden_link
  | ConstraintKind.RequiredTier => check_required_tier
  | ConstraintKind.ForbiddenTier => check_forbidden_tier
  | ConstraintKind.RequiredSite => check_required_site
  | ConstraintKind.ForbiddenSite => check_forbidden_site
  | ConstraintKind.LocalityScope => check_locality_scope
  | ConstraintKind.IsolationClass => check_isolation_class
  | ConstraintKind.RequiredCapability => check_required_capability
  | ConstraintKind.ForbiddenCapability => check_forbidden_capability
  | ConstraintKind.RequiredFailureDomainRelation => check_required_domain_relation
  | ConstraintKind.ForbiddenFailureDomainRelation => check_forbidden_domain_relation
  | ConstraintKind.AdministrativePolicy => check_administrative_policy
  | ConstraintKind.Unset => []
  end.

Definition evaluate_mandatory (s : State) : State := fold_left push_reason mandatory_pushes s.

(** ** Preferences *)

(** The slot: whether the predicate holds on a scratch state, then the margins of
    the four kinds that have one. *)
Definition evaluate_preference : PreferenceSlot :=
  let scratch := evaluate_mandatory initial_evaluation in
  let holds := empty (st_reasons scratch) in
  let '(satisfied, margin) :=
    match kind c with
    | ConstraintKind.MaxLatency =>
        if negb (eeqb (source (latency p)) (latency_source c)) then (false, 0)
        else (micros (latency p) <=? bound c, bound c - micros (latency p))
    | ConstraintKind.MinBandwidthCapability =>
        match path_bandwidth_capability p (req_capability cur) with
        | None => (false, 0)
        | Some bottleneck => (bound c <=? bottleneck, bottleneck - bound c)
        end
    | ConstraintKind.MaxHopCount => (hop_count p <=? bound c, bound c - hop_count p)
    | ConstraintKind.RequiredFailureDomainRelation =>
        let scan := scan_domains p (domain_kind c) in
        if negb (complete scan) then (false, 0)
        else (bound c <=? distinct_domains scan, distinct_domains scan - bound c)
    | _ => (holds, if holds then 1 else 0)
    end in
  mkSlot (id c) (kind c) ordinal (preference_rank c) (preference_weight c) satisfied margin.
End checks.

(** ** Currentness *)

Definition evidence_generation_of (e : EvidenceGenerationSet) (family : EvidenceFamily.t) : Z :=
  match family with
  | EvidenceFamily.Topology => topology e
  | EvidenceFamily.LinkState => link_state e
  | EvidenceFamily.Capability => capability e
  | EvidenceFamily.FailureDomain => failure_domain e
  | EvidenceFamily.Policy => policy e
  | EvidenceFamily.Planner => planner e
  | EvidenceFamily.PathAuthority => path_authority e
  | EvidenceFamily.ConstraintSet | EvidenceFamily.None => 0
  end.

Definition required_generation_of (e : EvidenceRequirements) (family : EvidenceFamily.t) : Z :=
  match family with
  | EvidenceFamily.Topology => req_topology e
  | EvidenceFamily.LinkState => req_link_state e
  | EvidenceFamily.Capability => req_capability e
  | EvidenceFamily.FailureDomain => req_failure_domain e
  | EvidenceFamily.Policy => req_policy e
  | EvidenceFamily.Planner => req_planner e
  | EvidenceFamily.PathAuthority => req_path_authority e
  | EvidenceFamily.ConstraintSet | EvidenceFamily.None => 0
  end.

Definition staleness_code (family : EvidenceFamily.t) : ReasonCode.t :=
  match family with
  | EvidenceFamily.Topology => ReasonCode.StaleTopologyEvidence
  | EvidenceFamily.LinkState => ReasonCode.StaleLinkStateEvidence
  | EvidenceFamily.Capability => ReasonCode.StaleCapabilityEvidence
  | EvidenceFamily.FailureDomain => ReasonCode.StaleFailureDomainEvidence
  | EvidenceFamily.Policy => ReasonCode.StalePolicyEvidence
  | EvidenceFamily.Planner => ReasonCode.StalePlannerEvidence
  | EvidenceFamily.PathAuthority => ReasonCode.StalePathAuthority
  | _ => ReasonCode.EvidenceNotBound
  end.

Definition lifecycle_reason (s : ConstraintSetState.t) : ReasonCode.t :=
  match s with
  | ConstraintSetState.Declared => ReasonCode.ConstraintSetNotActive
  | ConstraintSetState.Active => ReasonCode.None
  | ConstraintSetState.Suspended => ReasonCode.ConstraintSetSuspended
  | ConstraintSetState.RevalidationRequired => ReasonCode.ConstraintSetRevalidationRequired
  | ConstraintSetState.Revoked => ReasonCode.ConstraintSetRevoked
  | ConstraintSetState.Superseded => ReasonCode.ConstraintSetSuperseded
  | ConstraintSetState.Retired => ReasonCode.ConstraintSetRetired
  end.

(** A reason outside the constraints: class of the code, no constraint. *)
Definition stage_reason (code : ReasonCode.t) (family : EvidenceFamily.t)
    (subject_kind : SubjectKind.t) (subject expected actual : Z) : Reason :=
  mkReason code (reason_class_of code) 0 ConstraintKind.Unset 0 family subject_kind subject
    expected actual.

Definition set_state_reason (s : ConstraintSet) (code : ReasonCode.t) : Reason :=
  stage_reason code EvidenceFamily.ConstraintSet SubjectKind.ConstraintSet (cs_id s)
    (cs_generation s) 0.

Definition version_of (verdict : Z) : bool := verdict <=? 2.

(** ** The explanation *)

(** The loop of [canonicalize_reasons]: [kept] is the size of the kept vector,
    [represented] the constraints it names. *)
Fixpoint keep_reasons (limits : Limits) (kept : Z) (represented : gset Z) (rs : list Reason)
    : list Reason :=
  match rs with
  | [] => []
  | r :: rest =>
      if max_explanation_reasons limits <=? kept then []
      else if is_valid (reason_constraint r) && bool_decide (reason_constraint r ∉ represented) then
        if max_failed_constraints_per_evaluation limits <=? Z.of_nat (base.size represented)
        then keep_reasons limits kept represented rest
        else r :: keep_reasons limits (kept + 1) ({[reason_constraint r]} ∪ represented) rest
      else r :: keep_reasons limits (kept + 1) represented rest
  end.

Definition canonicalize_reasons (rs : list Reason) (limits : Limits) : list Reason :=
  keep_reasons limits 0 ∅ (stable_sort reason_less rs).

Definition primary_reason_of (rs : list Reason) : ReasonCode.t :=
  match rs with
  | [] => ReasonCode.None
  | first :: rest =>
      reason_code (fold_left (λ best r, if reason_less r best then r else best) rest first)
  end.

Definition outcome_from_reasons (rs : list Reason) (has_preferences : bool) : Outcome.t :=
  match rs with
  | [] => if has_preferences then Outcome.AdmissibleWithPreferences else Outcome.Admissible
  | _ => outcome_of (primary_reason_of rs)
  end.

(** ** One candidate *)

Section stages.
Context (ctx : EvaluationContext) (set : ConstraintSet) (limits : Limits) (p : CandidatePath).

Definition path_reason (code : ReasonCode.t) (family : EvidenceFamily.t) (expected actual : Z)
    : Reason :=
  stage_reason code family SubjectKind.CandidatePath (path p) expected actual.

(** Stage 1: resource admission. *)
Definition stage_admission : list Reason :=
  when (max_constraints_per_set limits <? size (constraints set))
    (mkReason ReasonCode.TooManyConstraints ReasonClass.ResourceAdmission 0 ConstraintKind.Unset 0
       EvidenceFamily.None SubjectKind.ConstraintSet (cs_id set) (max_constraints_per_set limits)
       (size (constraints set))).

(** Stage 2: structural validation. *)
Definition stage_structure : list Reason :=
  when (negb (ok (verify_canonical_constraint_set set limits)))
    (mkReason ReasonCode.MalformedConstraint ReasonClass.WireDecode 0 ConstraintKind.Unset 0
       EvidenceFamily.None SubjectKind.ConstraintSet (cs_id set) 0 0) ++
  let status := validate_candidate p limits in
  when (negb (ok status))
    (path_reason
       (if eeqb (error_code status) ErrorCode.ResourceLimit then ReasonCode.TooManyEntityRefs
        else ReasonCode.MalformedCandidate) EvidenceFamily.None 0 0).

(** Stages 3 and 4: the caller. *)
Definition stage_authority : list Reason :=
  if authority_verified ctx then []
  else
    let v := ctx_provenance ctx in
    when (negb (is_valid (epoch v) && is_valid (publisher v) && is_valid (worker_boot v) &&
                is_valid (attempt v)))
      (mkReason ReasonCode.MissingAuthorityContext ReasonClass.CallerIdentity 0
         ConstraintKind.Unset 0 EvidenceFamily.None SubjectKind.Coordinator 0 0 0).

(** Stage 5: lifecycle and generation of the set. *)
Definition stage_lifecycle : list Reason :=
  let lifecycle := lifecycle_reason (cs_state set) in
  if negb (reason_code_eqb lifecycle ReasonCode.None) then [set_state_reason set lifecycle]
  else
    when (is_valid (requested_set_generation ctx) &&
          negb (requested_set_generation ctx =? cs_generation set))
      (stage_reason ReasonCode.StaleConstraintSetGeneration EvidenceFamily.ConstraintSet
         SubjectKind.ConstraintSet (cs_id set) (requested_set_generation ctx) (cs_generation set)).

(** Stage 6: Path Authority. *)
Definition stage_path_authority : list Reason :=
  if negb (is_valid (authority_generation p)) then
    [path_reason ReasonCode.PathAuthorityGenerationMissing EvidenceFamily.PathAuthority 0 0]
  else if negb (is_valid (req_path_authority (current ctx))) then
    [path_reason ReasonCode.EvidenceNotBound EvidenceFamily.PathAuthority 0 0]
  else if negb (authority_generation p =? req_path_authority (current ctx)) then
    [path_reason ReasonCode.StalePathAuthority EvidenceFamily.PathAuthority
       (req_path_authority (current ctx)) (authority_generation p)]
  else if negb (version_of (code (authority_verdict p))) then
    [path_reason ReasonCode.MalformedCandidate EvidenceFamily.None 0 0]
  else if eeqb (authority_verdict p) PathAuthorityVerdict.NotEvaluated then
    [path_reason ReasonCode.PathAuthorityNotEvaluated EvidenceFamily.PathAuthority 0 0]
  else
    when (eeqb (authority_verdict p) PathAuthorityVerdict.Rejected)
      (path_reason ReasonCode.PathNotLegal EvidenceFamily.PathAuthority 0 0).

(** The families the set consults. *)
Definition consulted_families : EvidenceFamilyMask :=
  let mask :=
    fold_left (λ m c, Z.lor m (families_of c)) (constraints set)
      (Z.lor 0 (family_bit EvidenceFamily.PathAuthority)) in
  if consume_planner_cost (ranking set) then Z.lor mask (family_bit EvidenceFamily.Planner)
  else mask.

Definition currentness_families : list EvidenceFamily.t :=
  [EvidenceFamily.Topology; EvidenceFamily.LinkState; EvidenceFamily.Capability;
   EvidenceFamily.FailureDomain; EvidenceFamily.Policy; EvidenceFamily.Planner].

(** One round of the loop over the families. *)
Definition family_currentness (mask : EvidenceFamilyMask) (f : EvidenceFamily.t) : list Reason :=
  if Z.land mask (family_bit f) =? 0 then []
  else
    let required := required_generation_of (current ctx) f in
    let actual := evidence_generation_of (evidence p) f in
    if required =? 0 then [path_reason ReasonCode.EvidenceNotBound f 0 0]
    else when (negb (actual =? required)) (path_reason (staleness_code f) f required actual).

(** Stage 7: currentness of the consulted evidence. *)
Definition stage_currentness (mask : EvidenceFamilyMask) : list Reason :=
  if mask =? 0 then []
  else
    let max_age := max_evidence_age_ticks (current ctx) in
    let captured := captured_tick (evidence p) in
    pushes (family_currentness mask) currentness_families ++
    when ((0 <? max_age) && negb (captured =? 0) && (captured <? now_tick ctx) &&
          (max_age <? now_tick ctx - captured))
      (path_reason ReasonCode.EvidenceAgeExceeded EvidenceFamily.ConstraintSet max_age
         (now_tick ctx - captured)) ++
    when (consume_planner_cost (ranking set) && has_planner_cost p &&
          negb (eeqb (cost_model p) (expected_cost_model (ranking set))))
      (path_reason ReasonCode.PlannerCostModelMismatch EvidenceFamily.Planner
         (code (expected_cost_model (ranking set))) (code (cost_model p))).

(** The constraints with their ordinal. *)
Definition ordinals : list (Z * Constraint) :=
  zip (seqZ 0 (size (constraints set))) (constraints set).

(** Stage 8: the mandatory constraints, in canonical order. *)
Definition stage_mandatory (s : State) : State :=
  fold_left (λ s '(ordinal, c),
    if negb (eeqb (scope c) ConstraintScope.Mandatory) then s
    else evaluate_mandatory (current ctx) p c ordinal s) ordinals s.

Definition slot_less (a b : PreferenceSlot) : bool :=
  if negb (rank a =? rank b) then rank a <? rank b else slot_ordinal a <? slot_ordinal b.

(** Stage 9: the preferences. *)
Definition preference_slots : list PreferenceSlot :=
  concat (map (λ '(ordinal, c),
    if negb (eeqb (scope c) ConstraintScope.Preference) then []
    else [evaluate_preference (current ctx) p c ordinal]) ordinals).
Definition stage_preferences (s : State) : State :=
  mkState (st_reasons s) (stable_sort slot_less (st_preferences s ++ preference_slots))
    (st_consulted s) (st_truncated s).

(** [if (state.reasons.empty()) { ... }] *)
Definition if_clean (f : State → State) (s : State) : State :=
  if empty (st_reasons s) then f s else s.
Definition raise (rs : list Reason) (s : State) : State := fold_left (λ s r, add_reason r s) rs s.

Definition run_stages : State :=
  let s := raise stage_admission initial_evaluation in
  let s := if_clean (raise stage_structure) s in
  let s := if_clean (raise stage_authority) s in
  let s := if_clean (raise stage_lifecycle) s in
  let s := if_clean (raise stage_path_authority) s in
  let s := mkState (st_reasons s) (st_preferences s) (Z.lor (st_consulted s) consulted_families)
             (st_truncated s) in
  let s := if_clean (raise (stage_currentness (st_consulted s))) s in
  let s := if_clean stage_mandatory s in
  if_clean stage_preferences s.

(** The record built from the final state; its digest is set last. *)
Definition record_of (s : State) : EvaluationRecord :=
  let kept := canonicalize_reasons (st_reasons s) limits in
  let truncated := st_truncated s || (size kept <? size (st_reasons s)) in
  let record d :=
    mkEvaluation
      (derived_evaluation_id (cs_id set) (cs_generation set) (path p) (authority_generation p)
         (evidence p))
      (ctx_generation ctx) (cs_id set) (cs_generation set) (path p) (authority_generation p)
      (outcome_from_reasons kept (negb (empty (st_preferences s)))) (primary_reason_of kept) kept
      (st_preferences s) (evidence p) (st_consulted s) (ctx_provenance ctx) ResultState.Current
      truncated (now_tick ctx) d in
  record (evaluation_digest (record zero_digest)).
End stages.

Definition evaluate_candidate (ctx : EvaluationContext) (p : CandidatePath)
    : Result EvaluationRecord :=
  match ctx_set ctx, ctx_limits ctx with
  | Some set, Some limits =>
      match validate_limits limits with
      | Some why => Failure ErrorCode.InvalidArgument why
      | None => Success (record_of ctx set limits p (run_stages ctx set limits p))
      end
  | _, _ =>
      Failure ErrorCode.InvalidArgument "evaluation context requires a set and a limit set"
  end.

(** ** A batch *)

(** Two neighbours of the ordered population under one identity that differ. *)
Fixpoint conflicting_duplicate (ps : list CandidatePath) : bool :=
  match ps with
  | a :: ((b :: _) as rest) =>
      ((path a =? path b) && negb (digest_eqb (candidate_digest a) (candidate_digest b))) ||
      conflicting_duplicate rest
  | _ => false
  end.

(** The first of every identity; [back] is the last kept. *)
Fixpoint first_of_each (back : option CandidatePath) (ps : list CandidatePath)
    : list CandidatePath :=
  match ps with
  | [] => []
  | p :: rest =>
      if match back with Some b => path b =? path p | None => false end
      then first_of_each back rest
      else p :: first_of_each (Some p) rest
  end.

Fixpoint evaluate_each (ctx : EvaluationContext) (ps : list CandidatePath)
    : Result (list EvaluationRecord) :=
  match ps with
  | [] => Success []
  | p :: rest =>
      let+ record := evaluate_candidate ctx p in
      let+ records := evaluate_each ctx rest in
      Success (record :: records)
  end.

(** One round of the loop over the records: [primary] so far. *)
Definition worse_primary (primary : ReasonCode.t) (r : EvaluationRecord) : ReasonCode.t :=
  let class x := code (reason_class_of x) in
  if negb (reason_code_eqb (primary_reason r) ReasonCode.None) &&
     (class (primary_reason r) <? class primary) then primary_reason r
  else if (class (primary_reason r) =? class primary) &&
          (ReasonCode.to_code (primary_reason r) <? ReasonCode.to_code primary)
  then primary_reason r
  else primary.

Definition batch_primary (rs : list EvaluationRecord) : ReasonCode.t :=
  match rs with
  | [] => ReasonCode.None
  | first :: _ => fold_left worse_primary rs (primary_reason first)
  end.

Definition canonical_population (ps : list CandidatePath) : list CandidatePath :=
  first_of_each None (stable_sort candidate_canonical_less ps).

Definition evaluate_batch (ctx : EvaluationContext) (ps : list CandidatePath)
    : Result EvaluationBatch :=
  match ctx_set ctx, ctx_limits ctx with
  | Some set, Some limits =>
      let rejected reason :=
        Success (mkBatch (cs_id set) (cs_generation set) (ctx_generation ctx)
          BatchOutcome.BatchRejected false [] [] reason) in
      if max_candidates_per_evaluation limits <? size ps then
        rejected ReasonCode.TooManyCandidates
      else if max_batch_size limits <? size ps then rejected ReasonCode.BatchTooLarge
      else
        let ordered := stable_sort candidate_canonical_less ps in
        if conflicting_duplicate ordered then rejected ReasonCode.MalformedCandidate
        else
          let canonical := first_of_each None ordered in
          let+ records := evaluate_each ctx canonical in
          let order := order_admissible records canonical (ranking set) in
          let admissible := negb (empty order) in
          Success (mkBatch (cs_id set) (cs_generation set) (ctx_generation ctx)
            (if admissible then BatchOutcome.AdmissibleCandidatesAvailable
             else BatchOutcome.NoAdmissibleCandidate)
            admissible records order
            (if negb admissible && negb (empty records) then batch_primary records
             else ReasonCode.None))
  | _, _ =>
      Failure ErrorCode.InvalidArgument "evaluation context requires a set and a limit set"
  end.
