(* ===== verification/EvaluatorSpec.v ===== *)
(** The specification of the evaluator and its proof: what each constraint asks of
    a path, declaratively; when a candidate is admissible; what the primary reason,
    the reason vector, the preference vector and the batch are. *)

From Stdlib Require Import ZArith Lia Bool Strings.Byte.
From stdpp Require Import base list numbers strings gmap sets sorting.
From S2P Require Import Prelude Base Codec Digest Lifecycle Constraint Candidate.
From S2P Require Import Evaluation Ordering ConstraintSet Evaluator.

Open Scope string_scope.
Open Scope list_scope.
Open Scope Z_scope.

(** ** The specification of a constraint *)

(** The first entry of a kind, or of an identity, that a sorted list holds: the
    least one. *)
Definition member_of (l : list DomainRef) (k : DomainKind.t) (d : Z) : Prop :=
  mkDomainRef k d ∈ l ∧ ∀ r, r ∈ l → ref_kind r = k → d <= ref_domain r.
Definition attested (l : list GenerationRef) (i g : Z) : Prop :=
  mkGenerationRef i g ∈ l ∧ ∀ r, r ∈ l → ref_identity r = i → g <= ref_generation r.

Section spec.
Context (cur : EvidenceRequirements) (p : CandidatePath).

(** Every node and link of the path has a domain of kind [k]. *)
Definition classified (k : DomainKind.t) : Prop :=
  ∀ e, e ∈ entities_of p → ∃ d, member_of (entity_domains e) k d.

(** The domains of kind [k] the path runs through are [n]. *)
Definition spans (k : DomainKind.t) (n : Z) : Prop :=
  ∃ ds : gset Z, Z.of_nat (base.size ds) = n ∧
    ∀ d, d ∈ ds ↔ ∃ e, e ∈ entities_of p ∧ member_of (entity_domains e) k d.

(** What a constraint asks of the path. *)
Definition satisfies (c : Constraint) : Prop :=
  match kind c with
  | ConstraintKind.MaxLatency =>
      source (latency p) = latency_source c ∧ micros (latency p) <= bound c
  | ConstraintKind.MinBandwidthCapability =>
      path_links p ≠ [] ∧ req_capability cur ≠ 0 ∧
      ∀ l, l ∈ path_links p →
        usable_bandwidth (req_capability cur) l ∧ bound c <= bits_per_second (bandwidth l)
  | ConstraintKind.MaxHopCount => size (path_links p) <= bound c
  | ConstraintKind.RequiredNode => ∀ x, x ∈ nodes c → x ∈ map node (path_nodes p)
  | ConstraintKind.ForbiddenNode => ∀ x, x ∈ nodes c → x ∉ map node (path_nodes p)
  | ConstraintKind.RequiredLink => ∀ x, x ∈ links c → x ∈ map link (path_links p)
  | ConstraintKind.ForbiddenLink => ∀ x, x ∈ links c → x ∉ map link (path_links p)
  | ConstraintKind.RequiredTier => ∀ n, n ∈ path_nodes p → tier n ∈ tiers c
  | ConstraintKind.ForbiddenTier => ∀ n, n ∈ path_nodes p →
      tier n ∉ tiers c ∧ (unknown_policy c = UnknownPolicy.FailClosed → tier n ≠ 0)
  | ConstraintKind.RequiredSite => ∀ n, n ∈ path_nodes p → site n ∈ sites c
  | ConstraintKind.ForbiddenSite => ∀ n, n ∈ path_nodes p →
      site n ∉ sites c ∧ (unknown_policy c = UnknownPolicy.FailClosed → site n ≠ 0)
  | ConstraintKind.LocalityScope => ∀ n, n ∈ path_nodes p →
      member_of (localities n) (domain_kind c) (locality_domain c)
  | ConstraintKind.IsolationClass => ∀ e, e ∈ entities_of p →
      attested (entity_isolation e) (isolation_class c) (req_failure_domain cur)
  | ConstraintKind.RequiredCapability => ∀ x, x ∈ capabilities c → ∀ e, e ∈ entities_of p →
      attested (entity_capabilities e) x (req_capability cur)
  | ConstraintKind.ForbiddenCapability =>
      unknown_policy c ≠ UnknownPolicy.FailClosed ∧
      ∀ x e r, x ∈ capabilities c → e ∈ entities_of p → r ∈ entity_capabilities e →
        ref_identity r ≠ x
  | ConstraintKind.RequiredFailureDomainRelation =>
      classified (domain_kind c) ∧ ∃ n, spans (domain_kind c) n ∧ bound c <= n
  | ConstraintKind.ForbiddenFailureDomainRelation =>
      (unknown_policy c = UnknownPolicy.FailClosed → classified (domain_kind c)) ∧
      (domain_relation c = DomainRelation.Shared →
         ¬ (classified (domain_kind c) ∧ spans (domain_kind c) 1)) ∧
      (domain_relation c ≠ DomainRelation.Shared → ∃ n, spans (domain_kind c) n ∧ n < bound c)
  | ConstraintKind.AdministrativePolicy => ∀ x, x ∈ policies c →
      attested (path_policies p) x (req_policy cur)
  | ConstraintKind.Unset => True
  end.
End spec.

(** ** Lemmas: pushes *)

Lemma imp_iff (P Q R : Prop) : (Q ↔ R) → (P → Q) ↔ (P → R).
Proof. tauto. Qed.

Lemma when_nil b r : when b r = [] ↔ b = false.
Proof. by destruct b. Qed.

Lemma pushes_nil {A} (f : A → list Reason) xs : pushes f xs = [] ↔ ∀ x, x ∈ xs → f x = [].
Proof.
  unfold pushes. induction xs as [|x xs IH]; cbn [map concat]; [set_solver|].
  rewrite app_nil, IH. set_solver.
Qed.

Lemma existsb_map {A} (f : A → Z) x l :
  existsb (λ y, f y =? x) l = true ↔ x ∈ map f l.
Proof.
  rewrite existsb_exists. rewrite list_elem_of_fmap. split.
  - intros (y & Hy & E). exists y. rewrite list_elem_of_In. split; [lia|done].
  - intros (y & -> & Hy). exists y. rewrite <- list_elem_of_In. split; [done|lia].
Qed.

(** ** Lemmas: lookups in canonical lists *)

Lemma generation_refs_key_sorted l :
  sorted_unique generation_ref_less l = true →
  StronglySorted (λ a b, ref_identity a <= ref_identity b) l.
Proof.
  rewrite (sorted_unique_spec generation_ref_less generation_ref_cmp generation_ref_less_cmp).
  induction 1 as [|x l _ IH Hx]; constructor; [done|]. eapply Forall_impl; [exact Hx|].
  intros y. simpl. unfold generation_ref_cmp, cmp_step. ifs_lia.
Qed.

Lemma find_attested l i r :
  sorted_unique generation_ref_less l = true → find_key ref_identity i l = Some r →
  attested l i (ref_generation r).
Proof.
  intros Hs Hf. destruct (find_key_Some _ _ _ _ Hf) as [Hin Hi].
  destruct (find_key_first _ _ _ _ Hf) as (l1 & l2 & -> & Hl1).
  split; [destruct r; simpl in *; by subst|].
  intros r' Hr' Hi'. apply (sorted_unique_spec generation_ref_less generation_ref_cmp
    generation_ref_less_cmp) in Hs.
  rewrite Forall_forall in Hl1. apply elem_of_app in Hr' as [Hr'|Hr'].
  { specialize (Hl1 _ Hr'). simpl in Hl1. lia. }
  apply elem_of_cons in Hr' as [->|Hr']; [lia|].
  apply StronglySorted_app_1_r in Hs. apply StronglySorted_inv in Hs as [_ Hs].
  rewrite Forall_forall in Hs. specialize (Hs _ Hr').
  unfold generation_ref_cmp, cmp_step in Hs. revert Hs. ifs_lia.
Qed.

Lemma attested_unique l i g h : attested l i g → attested l i h → g = h.
Proof. intros [H1 H2] [H3 H4]. specialize (H2 _ H3 eq_refl). specialize (H4 _ H1 eq_refl). simpl in *. lia. Qed.

Lemma find_generation l i :
  sorted_unique generation_ref_less l = true →
  match find_key ref_identity i l with
  | Some r => ∀ g, attested l i g ↔ ref_generation r = g
  | None => ∀ r, r ∈ l → ref_identity r ≠ i
  end.
Proof.
  intros Hs. destruct (find_key ref_identity i l) as [r|] eqn:E.
  - intros g. pose proof (find_attested _ _ _ Hs E) as Ha. split; [|by intros <-].
    intros Hg. by eapply attested_unique.
  - by apply find_key_None; [apply generation_refs_key_sorted|].
Qed.

Lemma domain_refs_key_sorted l :
  sorted_unique domain_ref_less l = true →
  StronglySorted (λ a b, code (ref_kind a) <= code (ref_kind b)) l.
Proof.
  rewrite (sorted_unique_spec domain_ref_less domain_ref_cmp domain_ref_less_cmp).
  induction 1 as [|x l _ IH Hx]; constructor; [done|]. eapply Forall_impl; [exact Hx|].
  intros y. cbv beta. unfold domain_ref_cmp, cmp_step. ifs_lia.
Qed.

Lemma member_unique l k d e : member_of l k d → member_of l k e → d = e.
Proof. intros [H1 H2] [H3 H4]. specialize (H2 _ H3 eq_refl). specialize (H4 _ H1 eq_refl). simpl in *. lia. Qed.

Lemma find_domain_spec l k :
  sorted_unique domain_ref_less l = true →
  match find_domain l k with
  | Some r => ∀ d, member_of l k d ↔ ref_domain r = d
  | None => ∀ d, ¬ member_of l k d
  end.
Proof.
  intros Hs. unfold find_domain. destruct (find_key _ _ l) as [r|] eqn:E.
  - destruct (find_key_Some _ _ _ _ E) as [Hin Hi%code_inj].
    destruct (find_key_first _ _ _ _ E) as (l1 & l2 & -> & Hl1).
    assert (member_of (l1 ++ r :: l2) k (ref_domain r)) as Hm.
    { split; [destruct r; simpl in *; by subst|]. intros r' Hr' Hk.
      apply (sorted_unique_spec domain_ref_less domain_ref_cmp domain_ref_less_cmp) in Hs.
      rewrite Forall_forall in Hl1. apply elem_of_app in Hr' as [Hr'|Hr'].
      { specialize (Hl1 _ Hr'). simpl in Hl1. rewrite Hk in Hl1. lia. }
      apply elem_of_cons in Hr' as [->|Hr']; [lia|].
      apply StronglySorted_app_1_r in Hs. apply StronglySorted_inv in Hs as [_ Hs].
      rewrite Forall_forall in Hs. specialize (Hs _ Hr').
      unfold domain_ref_cmp, cmp_step in Hs. rewrite Hi, Hk in Hs. revert Hs. ifs_lia. }
    intros d. split; [|by intros <-]. intros Hd. by eapply member_unique.
  - intros d [Hd _]. pose proof (find_key_None _ _ _ (domain_refs_key_sorted _ Hs) E _ Hd) as H.
    done.
Qed.

(** ** Lemmas: the entities of a path and their domains *)

Definition canonical_view (e : EntityView) : Prop :=
  sorted_unique domain_ref_less (entity_domains e) = true ∧
  sorted_unique generation_ref_less (entity_capabilities e) = true ∧
  sorted_unique generation_ref_less (entity_isolation e) = true.

Lemma entities_canonical limits p e :
  well_formed limits p → e ∈ entities_of p → canonical_view e.
Proof.
  intros Hwf. unfold entities_of. rewrite elem_of_app, !list_elem_of_fmap.
  pose proof (wf_nodes _ _ Hwf) as Hn. pose proof (wf_links _ _ Hwf) as Hl.
  rewrite Forall_forall in Hn. rewrite Forall_forall in Hl.
  intros [(n & -> & Hin)|(l & -> & Hin)]; unfold canonical_view; simpl.
  - destruct (Hn _ Hin) as [_ _ _ [? _] ? ?]. done.
  - destruct (Hl _ Hin). done.
Qed.

Lemma entities_nonempty limits p : well_formed limits p → ∃ e, e ∈ entities_of p.
Proof.
  intros [_ _ [H _] _ _ _ _ _ _ _ _ _]. unfold entities_of.
  destruct (path_nodes p) as [|n ns]; [unfold size in H; simpl in H; lia|].
  exists (node_view n). set_solver.
Qed.

Lemma scan_fold k es : ∀ s,
  Forall canonical_view es →
  (complete (fold_left (scan_entity k) es s) = true ↔
     complete s = true ∧ ∀ e, e ∈ es → ∃ d, member_of (entity_domains e) k d) ∧
  (∀ d, d ∈ domains (fold_left (scan_entity k) es s) ↔
     d ∈ domains s ∨ ∃ e, e ∈ es ∧ member_of (entity_domains e) k d).
Proof.
  induction es as [|e es IH]; intros s Hf; cbn [fold_left]; [set_solver|].
  apply Forall_cons in Hf as [[He _] Hf]. destruct (IH (scan_entity k s e) Hf) as [IH1 IH2].
  rewrite IH1. setoid_rewrite IH2. clear IH1 IH2 IH Hf. unfold scan_entity.
  pose proof (find_domain_spec (entity_domains e) k He) as Hd.
  destruct (find_domain (entity_domains e) k) as [r|]; simpl; split.
  - split; [|set_solver]. intros [Hc Hes]. split; [done|]. intros x [->|Hx]%elem_of_cons; [|by auto].
    exists (ref_domain r). by apply Hd.
  - intros d. rewrite elem_of_union, elem_of_singleton. set_unfold.
    split; [intros [[->|?]|(x & ? & ?)]|intros [?|(x & [->|?] & Hm)]]; eauto 6.
    + right. exists e. split; [by left|]. by apply Hd.
    + left. left. symmetry. by apply Hd.
  - split; [by intros [? _]|]. intros [_ H]. destruct (H e) as [d Hm]; [set_solver|].
    by apply Hd in Hm.
  - intros d. split; [intros [?|(x & ? & ?)]|intros [?|(x & Hx & Hm)]]; eauto.
    + right. exists x. split; [set_solver|done].
    + apply elem_of_cons in Hx as [->|Hx]; [by apply Hd in Hm|eauto].
Qed.

Lemma scan_domains_spec limits p k :
  well_formed limits p →
  (complete (scan_domains p k) = true ↔ classified p k) ∧
  (∀ n, spans p k n ↔ n = distinct_domains (scan_domains p k)).
Proof.
  intros Hwf. destruct (scan_fold k (entities_of p) (mkScan true ∅ None)) as [H1 H2].
  { apply Forall_forall. intros e. by apply (entities_canonical limits). }
  fold (scan_domains p k) in H1, H2. split.
  - rewrite H1. simpl. unfold classified. tauto.
  - assert (∀ d, d ∈ domains (scan_domains p k) ↔
      ∃ e, e ∈ entities_of p ∧ member_of (entity_domains e) k d) as Hd.
    { intros d. rewrite H2. simpl. set_solver. }
    intros n. unfold distinct_domains. split.
    + intros (ds & <- & Hds). do 2 f_equal. apply set_eq. intros d. by rewrite Hds, Hd.
    + intros ->. by exists (domains (scan_domains p k)).
Qed.

(** ** Lemmas: each check against its specification *)

Section check_lemmas.
Context (limits : Limits) (cur : EvidenceRequirements) (p : CandidatePath) (c : Constraint)
  (ordinal : Z).
Context (Hwf : well_formed limits p) (Hv : valid limits c) (Hl : canonical_lists c = true).

Lemma canonical_lists_facts :
  sorted_unique Z.ltb (tiers c) = true ∧ sorted_unique Z.ltb (sites c) = true.
Proof. unfold canonical_lists in Hl. by bool_hyps. Qed.

Lemma valid_lists_nonzero x : (x ∈ tiers c ∨ x ∈ sites c) → x ≠ 0.
Proof.
  pose proof (validate_constraint_lists limits c Hv) as H. rewrite !Forall_cons in H.
  destruct H as (_ & _ & [Ht _] & [Hs _] & _). unfold all_valid in *.
  rewrite list_forallb_Forall, Forall_forall in Ht, Hs.
  intros [Hx|Hx]; apply is_valid_true; auto.
Qed.

Lemma check_required_spec {A} (f : A → Z) (xs : list Z) (ys : list A) (r : Z → Reason) :
  pushes (λ x, when (negb (existsb (λ y, f y =? x) ys)) (r x)) xs = [] ↔
  ∀ x, x ∈ xs → x ∈ map f ys.
Proof.
  rewrite pushes_nil. apply forall_proper. intros x.
  rewrite when_nil, negb_false_iff, existsb_map. done.
Qed.

Lemma check_forbidden_spec {A} (f : A → Z) (xs : list Z) (ys : list A) (r : Z → Reason) :
  pushes (λ x, pushes (λ y, when (f y =? x) (r x)) ys) xs = [] ↔
  ∀ x, x ∈ xs → x ∉ map f ys.
Proof.
  rewrite pushes_nil. apply forall_proper. intros x. rewrite pushes_nil.
  setoid_rewrite when_nil. rewrite list_elem_of_fmap. split.
  - intros H Hx (y & -> & Hy). specialize (H Hx y Hy). lia.
  - intros H Hx y Hy. apply Z.eqb_neq. intros <-. apply (H Hx). by exists y.
Qed.

Lemma check_required_label (f : NodeFact → Z) (xs : list Z) (r1 r2 : NodeFact → Reason) :
  sorted_unique Z.ltb xs = true → (∀ x, x ∈ xs → x ≠ 0) →
  pushes (λ n, if negb (is_valid (f n)) then [r1 n]
               else when (negb (binary_search (f n) xs)) (r2 n)) (path_nodes p) = [] ↔
  ∀ n, n ∈ path_nodes p → f n ∈ xs.
Proof.
  intros Hs Hx. rewrite pushes_nil. apply forall_proper. intros n. split; intros H Hn.
  - specialize (H Hn). destruct (is_valid (f n)); cbn [negb] in H; [|done].
    by apply when_nil, negb_false_iff, binary_search_spec in H.
  - specialize (H Hn). assert (is_valid (f n) = true) as -> by (apply is_valid_true; auto).
    cbn [negb]. by apply when_nil, negb_false_iff, binary_search_spec.
Qed.

Lemma check_forbidden_label (f : NodeFact → Z) (xs : list Z) (r1 r2 : NodeFact → Reason) :
  sorted_unique Z.ltb xs = true → (∀ x, x ∈ xs → x ≠ 0) →
  pushes (λ n, if negb (is_valid (f n)) then when (fail_closed c) (r1 n)
               else when (binary_search (f n) xs) (r2 n)) (path_nodes p) = [] ↔
  ∀ n, n ∈ path_nodes p →
    f n ∉ xs ∧ (unknown_policy c = UnknownPolicy.FailClosed → f n ≠ 0).
Proof.
  intros Hs Hx. rewrite pushes_nil. apply forall_proper. intros n.
  rewrite <- is_valid_true. unfold fail_closed.
  assert (eeqb (unknown_policy c) UnknownPolicy.FailClosed = true ↔
    unknown_policy c = UnknownPolicy.FailClosed) as Hu by apply eeqb_eq.
  destruct (is_valid (f n)) eqn:E; cbn [negb]; rewrite when_nil.
  - rewrite <- not_true_iff_false, binary_search_spec by done. tauto.
  - rewrite <- not_true_iff_false, Hu. split.
    + intros H Hn. specialize (H Hn). split; [|by intros ?%H]. intros Hin%Hx.
      by apply is_valid_true in Hin; rewrite Hin in E.
    + intros H Hn Hf. destruct (H Hn) as [_ H']. by specialize (H' Hf).
Qed.

Lemma check_attested {A} (es : list A) (f : A → list GenerationRef) (i g : Z)
    (r1 : A → list Reason) (r2 : A → GenerationRef → Reason) :
  (∀ e, e ∈ es → sorted_unique generation_ref_less (f e) = true) → (∀ e, r1 e ≠ []) →
  pushes (λ e, match find_key ref_identity i (f e) with
               | None => r1 e
               | Some r => when (negb (ref_generation r =? g)) (r2 e r)
               end) es = [] ↔
  ∀ e, e ∈ es → attested (f e) i g.
Proof.
  intros Hs Hr. rewrite pushes_nil. apply forall_proper. intros e. split; intros H He.
  - specialize (H He). pose proof (find_generation (f e) i (Hs e He)) as Hf.
    destruct (find_key _ _ _) as [r|]; [|by apply Hr in H].
    apply when_nil, negb_false_iff in H. apply Hf. lia.
  - specialize (H He). pose proof (find_generation (f e) i (Hs e He)) as Hf.
    destruct (find_key _ _ _) as [r|].
    + apply when_nil, negb_false_iff. apply Hf in H. lia.
    + destruct H as [Hin _]. by apply Hf in Hin.
Qed.
End check_lemmas.

Lemma least_exists {A} (f : A → Z) (l : list A) :
  l ≠ [] → ∃ r, r ∈ map f l ∧ Forall (λ x, r <= f x) l.
Proof.
  induction l as [|x l IH]; [done|]. intros _. destruct l as [|y l].
  { exists (f x). split; [set_solver|]. repeat constructor. lia. }
  destruct IH as (r & Hr & Hall); [done|]. destruct (decide (f x <= r)).
  - exists (f x). split; [set_solver|]. constructor; [lia|].
    eapply Forall_impl; [exact Hall|]. intros z Hz. simpl in Hz. lia.
  - exists r. split; [set_solver|]. constructor; [lia|done].
Qed.

Lemma bandwidth_at_least p required b :
  (∃ r, path_bandwidth_capability p required = Some r ∧ b <= r) ↔
  path_links p ≠ [] ∧ required ≠ 0 ∧
  ∀ l, l ∈ path_links p → usable_bandwidth required l ∧ b <= bits_per_second (bandwidth l).
Proof.
  split.
  - intros (r & (H1 & H2 & H3 & _ & H5)%path_bandwidth_capability_spec & Hb).
    rewrite Forall_forall in H3, H5. split_and!; [done|done|]. intros l Hl.
    split; [by apply H3|]. specialize (H5 l Hl). simpl in H5. lia.
  - intros (H1 & H2 & H3).
    destruct (least_exists (λ l, bits_per_second (bandwidth l)) _ H1) as (r & Hr & Hall).
    exists r. split.
    + apply path_bandwidth_capability_spec. split_and!; try done.
      apply Forall_forall. intros l Hl. by apply H3.
    + apply list_elem_of_fmap in Hr as (l & -> & Hl). by apply H3.
Qed.

Section check_correct.
Context (limits : Limits) (cur : EvidenceRequirements) (p : CandidatePath) (c : Constraint)
  (ordinal : Z).
Context (Hwf : well_formed limits p) (Hv : valid limits c) (Hl : canonical_lists c = true).

Lemma latency_source_set : kind c = ConstraintKind.MaxLatency → latency_source c ≠ LatencySource.Unset.
Proof.
  intros Hk Hs. destruct (validate_constraint_payload limits c Hv) as [H _].
  unfold validate_payload in H. by rewrite Hk, Hs in H.
Qed.

Lemma check_max_latency_spec :
  kind c = ConstraintKind.MaxLatency →
  check_max_latency p c ordinal = [] ↔
  source (latency p) = latency_source c ∧ micros (latency p) <= bound c.
Proof.
  intros Hk%latency_source_set. unfold check_max_latency.
  destruct (eeqb (source (latency p)) LatencySource.Unset) eqn:E1.
  { apply eeqb_eq in E1. split; [done|]. intros [E _]. congruence. }
  destruct (eeqb (source (latency p)) (latency_source c)) eqn:E2; cbn [negb].
  - apply eeqb_eq in E2. rewrite when_nil, Z.ltb_ge. tauto.
  - apply eeqb_neq in E2. split; [done|tauto].
Qed.

Lemma check_min_bandwidth_spec :
  check_min_bandwidth cur p c ordinal = [] ↔
  ∃ r, path_bandwidth_capability p (req_capability cur) = Some r ∧ bound c <= r.
Proof.
  unfold check_min_bandwidth. destruct (path_bandwidth_capability _ _) as [r|].
  - rewrite when_nil, Z.ltb_ge. naive_solver.
  - naive_solver.
Qed.

Lemma check_locality_spec :
  check_locality_scope p c ordinal = [] ↔
  ∀ n, n ∈ path_nodes p → member_of (localities n) (domain_kind c) (locality_domain c).
Proof.
  unfold check_locality_scope. rewrite pushes_nil. apply forall_proper. intros n.
  pose proof (wf_nodes _ _ Hwf) as Hn. rewrite Forall_forall in Hn.
  split; intros H Hin; specialize (H Hin); destruct (Hn _ Hin) as [_ _ [Hs _] _ _ _];
    pose proof (find_domain_spec (localities n) (domain_kind c) Hs) as Hf;
    unfold find_locality in *; fold (find_domain (localities n) (domain_kind c)) in *;
    destruct (find_domain (localities n) (domain_kind c)) as [r|]; try done.
  - apply when_nil, negb_false_iff in H. apply Hf. lia.
  - apply when_nil, negb_false_iff. apply Hf in H. lia.
  - by apply Hf in H.
Qed.

Lemma check_forbidden_capability_spec :
  kind c = ConstraintKind.ForbiddenCapability →
  check_forbidden_capability cur p c ordinal = [] ↔
  unknown_policy c ≠ UnknownPolicy.FailClosed ∧
  ∀ x e r, x ∈ capabilities c → e ∈ entities_of p → r ∈ entity_capabilities e → ref_identity r ≠ x.
Proof.
  intros Hk. unfold check_forbidden_capability. rewrite pushes_nil. setoid_rewrite pushes_nil.
  assert (∀ e, e ∈ entities_of p → sorted_unique generation_ref_less (entity_capabilities e) = true)
    as Hs by (intros e He; by eapply entities_canonical).
  split.
  - intros H. split.
    + intros Hu. destruct (validate_constraint_payload limits c Hv) as [Hp _].
      unfold validate_payload in Hp. rewrite Hk in Hp.
      destruct (capabilities c) as [|x xs] eqn:Ec; [by cbn in Hp|].
      destruct (entities_nonempty _ _ Hwf) as [e He].
      specialize (H x ltac:(set_solver) e He). unfold find_capability, fail_closed in H.
      rewrite Hu in H. destruct (find_key _ _ _); simpl in H; [|done]. by destruct (negb _).
    + intros x e r Hx He Hr. specialize (H x Hx e He). unfold find_capability in H.
      pose proof (find_generation (entity_capabilities e) x (Hs e He)) as Hf.
      destruct (find_key _ _ _); [by destruct (negb _)|]. by apply Hf.
  - intros [Hu Hn] x Hx e He. unfold find_capability.
    pose proof (find_generation (entity_capabilities e) x (Hs e He)) as Hf.
    destruct (find_key _ _ _) as [r|] eqn:E.
    + apply find_key_Some in E as [Hin Hi]. by destruct (Hn x e r Hx He Hin).
    + apply when_nil. unfold fail_closed. by apply eeqb_neq.
Qed.

Lemma check_domain_relations_spec :
  (check_required_domain_relation p c ordinal = [] ↔
     classified p (domain_kind c) ∧ ∃ n, spans p (domain_kind c) n ∧ bound c <= n) ∧
  (check_forbidden_domain_relation p c ordinal = [] ↔
     (unknown_policy c = UnknownPolicy.FailClosed → classified p (domain_kind c)) ∧
     (domain_relation c = DomainRelation.Shared →
        ¬ (classified p (domain_kind c) ∧ spans p (domain_kind c) 1)) ∧
     (domain_relation c ≠ DomainRelation.Shared →
        ∃ n, spans p (domain_kind c) n ∧ n < bound c)).
Proof.
  destruct (scan_domains_spec limits p (domain_kind c) Hwf) as [Hc Hn].
  rewrite <- Hc. setoid_rewrite Hn. clear Hc Hn.
  unfold check_required_domain_relation, check_forbidden_domain_relation, fail_closed.
  assert (eeqb (unknown_policy c) UnknownPolicy.FailClosed = true ↔
    unknown_policy c = UnknownPolicy.FailClosed) as Hu by apply eeqb_eq.
  assert (eeqb (domain_relation c) DomainRelation.Shared = true ↔
    domain_relation c = DomainRelation.Shared) as Hr by apply eeqb_eq.
  set (n := distinct_domains _). set (b := complete _). rewrite <- Hu, <- Hr. clearbody n b.
  split.
  - destruct b; cbn [negb]; [|naive_solver]. rewrite when_nil, Z.ltb_ge. naive_solver.
  - destruct b, (eeqb (unknown_policy c) _), (eeqb (domain_relation c) _); cbn [negb andb];
      rewrite ?when_nil, ?Z.leb_gt, ?Z.eqb_neq; naive_solver.
Qed.

Lemma mandatory_pushes_spec :
  mandatory_pushes cur p c ordinal = [] ↔ satisfies cur p c.
Proof.
  destruct (canonical_lists_facts c Hl) as [Ht Hs].
  pose proof (valid_lists_nonzero limits c Hv) as Hnz.
  pose proof (λ e He, entities_canonical limits p e Hwf He) as He.
  destruct check_domain_relations_spec as [Hreq Hforb].
  unfold mandatory_pushes, satisfies. destruct (kind c) eqn:Hk; try done.
  - by apply check_max_latency_spec.
  - by rewrite check_min_bandwidth_spec, bandwidth_at_least.
  - apply (check_required_spec node).
  - apply (check_forbidden_spec node).
  - apply (check_required_spec link).
  - apply (check_forbidden_spec link).
  - apply (check_required_label p tier); auto.
  - apply (check_forbidden_label p c tier); auto.
  - apply (check_required_label p site); auto.
  - apply (check_forbidden_label p c site); auto.
  - apply check_locality_spec.
  - unfold check_isolation_class, find_isolation. apply check_attested; [intros e ?; by apply He|].
    intros e. by destruct (entity_isolation e).
  - unfold check_required_capability, find_capability. rewrite pushes_nil.
    apply forall_proper. intros x. apply imp_iff.
    apply check_attested; [intros e ?; by apply He|done].
  - by apply check_forbidden_capability_spec.
  - unfold check_administrative_policy, find_policy. rewrite pushes_nil.
    apply forall_proper. intros x. apply imp_iff.
    pose proof (find_generation _ x (proj1 (wf_policies _ _ Hwf))) as Hf.
    destruct (find_key _ _ _) as [r|]; [by rewrite when_nil, negb_false_iff, Z.eqb_eq, Hf|].
    split; [done|]. intros [Hin _]. by apply Hf in Hin.
  - unfold check_max_hop_count. rewrite when_nil, Z.ltb_ge.
    by rewrite (wf_hop_count _ _ Hwf).
Qed.
End check_correct.

(** ** Lemmas: the reasons of a run *)

(** A reason that is reported under a named code and the class of that code. *)
Definition reported (r : Reason) : Prop :=
  reason_code r ≠ ReasonCode.None ∧ named (reason_code r) ∧
  reason_class_of (reason_code r) = reason_class r.

(** A reason of a mandatory constraint. *)
Definition judged (r : Reason) : Prop :=
  reported r ∧ reason_class r = ReasonClass.MandatoryConstraint.

Lemma when_Forall (P : Reason → Prop) b r : P r → Forall P (when b r).
Proof. intros Hr. destruct b; [by apply Forall_singleton|constructor]. Qed.

Lemma pushes_Forall {A} (P : Reason → Prop) (f : A → list Reason) xs :
  (∀ x, Forall P (f x)) → Forall P (pushes f xs).
Proof.
  intros Hf. unfold pushes. induction xs as [|x xs IH]; [constructor|].
  cbn [map concat]. by apply Forall_app.
Qed.

(** Splits a check into the reasons it pushes. *)
Ltac reported_step :=
  match goal with
  | |- Forall _ (when _ _) => apply when_Forall; done
  | |- Forall _ (pushes _ _) => apply pushes_Forall; intros ?
  | |- Forall _ [] => constructor
  | |- Forall _ [_] => apply Forall_singleton; done
  | |- Forall _ (_ ++ _) => apply Forall_app; split
  | |- Forall _ (if ?b then _ else _) => destruct b
  | |- Forall _ (match ?x with _ => _ end) => destruct x
  end.

Lemma mandatory_pushes_judged cur p c ordinal : Forall judged (mandatory_pushes cur p c ordinal).
Proof.
  unfold mandatory_pushes. destruct (kind c);
    unfold check_max_latency, check_min_bandwidth, check_max_hop_count, check_required_node,
      check_forbidden_node, check_required_link, check_forbidden_link, check_required_tier,
      check_forbidden_tier, check_required_site, check_forbidden_site, check_locality_scope,
      check_isolation_class, check_required_capability, check_forbidden_capability,
      check_required_domain_relation, check_forbidden_domain_relation,
      check_administrative_policy; cbv zeta; repeat reported_step.
Qed.

Lemma mandatory_pushes_judged_reported cur p c ordinal :
  Forall reported (mandatory_pushes cur p c ordinal).
Proof. eapply Forall_impl; [apply mandatory_pushes_judged|]. by intros r [Hr _]. Qed.

Lemma stages_reported ctx set limits p mask :
  Forall reported (stage_admission set limits) ∧ Forall reported (stage_structure set limits p) ∧
  Forall reported (stage_authority ctx) ∧ Forall reported (stage_lifecycle ctx set) ∧
  Forall reported (stage_path_authority ctx p) ∧
  Forall reported (stage_currentness ctx set p mask).
Proof.
  unfold stage_admission, stage_structure, stage_authority, stage_lifecycle,
    stage_path_authority, stage_currentness, set_state_reason; cbv zeta.
  split_and!; [| | |destruct (cs_state set); cbn [lifecycle_reason reason_code_eqb]| |];
    cbn; repeat reported_step.
  1: destruct (eeqb _ _); repeat reported_step.
  all: unfold family_currentness; cbv zeta; repeat reported_step.
Qed.

Lemma raise_spec rs : ∀ s,
  st_reasons (raise rs s) = st_reasons s ++ rs ∧ st_preferences (raise rs s) = st_preferences s ∧
  st_consulted (raise rs s) = st_consulted s ∧ st_truncated (raise rs s) = st_truncated s.
Proof.
  induction rs as [|r rs IH]; intros s; unfold raise; cbn [fold_left]; [by rewrite app_nil_r|].
  destruct (IH (add_reason r s)) as (H1 & H2 & H3 & H4). unfold raise in *.
  rewrite H1, H2, H3, H4. cbn. by rewrite <- app_assoc.
Qed.

(** What [push_reason] does to the reasons: nothing, or a reported reason at the
    end; the first one is never dropped. *)
Lemma push_reason_spec s r :
  reported r →
  (st_reasons (push_reason s r) = st_reasons s ++ [r] ∧
   st_truncated (push_reason s r) = st_truncated s ∨
   st_reasons (push_reason s r) = st_reasons s ∧ st_reasons s ≠ [] ∧
   st_truncated (push_reason s r) = true) ∧
  st_preferences (push_reason s r) = st_preferences s ∧
  st_consulted (push_reason s r) = st_consulted s.
Proof.
  intros (_ & _ & Hc). unfold push_reason. cbv zeta. destruct (_ <=? _) eqn:E; cbn.
  - split; [right|done]. split_and!; [done| |done]. intros Hn. rewrite Hn in E. by cbn in E.
  - split; [left|done]. split; [|done]. do 3 f_equal. destruct r; simpl in *. by f_equal.
Qed.

(** The reasons after a run of pushes: those before, then a sublist of the pushes. *)
Lemma pushed_spec rs : ∀ s,
  Forall reported rs →
  ∃ kept, st_reasons (fold_left push_reason rs s) = st_reasons s ++ kept ∧ kept `sublist_of` rs ∧
    (st_reasons s = [] → rs ≠ [] → kept ≠ []) ∧
    (st_truncated (fold_left push_reason rs s) = false → kept = rs) ∧
    st_preferences (fold_left push_reason rs s) = st_preferences s ∧
    st_consulted (fold_left push_reason rs s) = st_consulted s ∧
    (st_truncated s = true → st_truncated (fold_left push_reason rs s) = true).
Proof.
  induction rs as [|r rs IH]; intros s Hr; cbn [fold_left].
  { exists []. rewrite app_nil_r. split_and!; done. }
  apply Forall_cons in Hr as [Hr Hrs].
  destruct (push_reason_spec s r Hr) as (Hcase & Hp & Hc).
  destruct (IH (push_reason s r) Hrs) as (kept & H1 & H2 & _ & H4 & H5 & H6 & H7).
  destruct Hcase as [[Hreasons Ht]|(Hreasons & Hne & Ht)].
  - exists (r :: kept). rewrite H1, Hreasons, <- app_assoc. split_and!; try done.
    all: try by constructor.
    all: try congruence.
    + intros Hf. f_equal. by apply H4.
    + by rewrite <- Ht.
  - exists kept. rewrite H1, Hreasons. split_and!; try done.
    all: try by constructor.
    all: try congruence.
    + by rewrite H7.
    + intros _. by apply H7.
Qed.

(** ** Lemmas: the stages *)

(** Every reason the mandatory constraints push, in order. *)
Definition mandatory_reasons (ctx : EvaluationContext) (set : ConstraintSet) (p : CandidatePath)
    : list Reason :=
  concat (map (λ oc : Z * Constraint,
    if eeqb (scope oc.2) ConstraintScope.Mandatory
    then mandatory_pushes (current ctx) p oc.2 oc.1 else []) (ordinals set)).

Lemma stage_mandatory_pushes ctx set p s :
  stage_mandatory ctx set p s = fold_left push_reason (mandatory_reasons ctx set p) s.
Proof.
  unfold stage_mandatory, mandatory_reasons. revert s.
  induction (ordinals set) as [|[o c] os IH]; intros s; cbn [map concat fold_left]; [done|].
  rewrite fold_left_app, IH. cbn [fst snd]. by destruct (eeqb (scope c) _).
Qed.

Lemma mandatory_reasons_judged ctx set p : Forall judged (mandatory_reasons ctx set p).
Proof.
  unfold mandatory_reasons. induction (ordinals set) as [|[o c] os IH]; [constructor|].
  cbn [map concat fst snd]. apply Forall_app. split; [|done].
  destruct (eeqb _ _); [apply mandatory_pushes_judged|constructor].
Qed.

Lemma mandatory_reasons_reported ctx set p : Forall reported (mandatory_reasons ctx set p).
Proof. eapply Forall_impl; [apply mandatory_reasons_judged|]. by intros r [Hr _]. Qed.

Lemma ordinals_constraint set c : c ∈ constraints set ↔ ∃ o, (o, c) ∈ ordinals set.
Proof.
  unfold ordinals. split.
  - intros Hc. rewrite <- (snd_zip (seqZ 0 (size (constraints set))) (constraints set)) in Hc.
    + apply list_elem_of_fmap in Hc as ([o c'] & -> & Hin). by exists o.
    + rewrite length_seqZ. unfold size. lia.
  - intros (o & Ho). by apply elem_of_zip_r in Ho.
Qed.

(** The reasons of the first gate that finds any. *)
Fixpoint first_nonempty (ls : list (list Reason)) : list Reason :=
  match ls with
  | [] => []
  | l :: rest => if empty l then first_nonempty rest else l
  end.

Definition gates (ctx : EvaluationContext) (set : ConstraintSet) (limits : Limits)
    (p : CandidatePath) : list (list Reason) :=
  [stage_admission set limits; stage_structure set limits p; stage_authority ctx;
   stage_lifecycle ctx set; stage_path_authority ctx p;
   stage_currentness ctx set p (consulted_families set)].

Lemma first_nonempty_nil ls : first_nonempty ls = [] ↔ Forall (λ l, l = []) ls.
Proof.
  induction ls as [|l ls IH]; cbn [first_nonempty]; [done|]. rewrite Forall_cons, <- IH.
  destruct l; cbn [empty]; naive_solver.
Qed.

Lemma first_nonempty_elem ls : first_nonempty ls ≠ [] → first_nonempty ls ∈ ls.
Proof.
  induction ls as [|l ls IH]; cbn [first_nonempty]; [done|].
  destruct (empty l); [|set_solver]. intros H%IH. set_solver.
Qed.

Lemma if_clean_raise l g m :
  if_clean (raise l) (mkState g [] m false) =
  mkState (if empty g then l else g) [] m false.
Proof.
  unfold if_clean. cbn [st_reasons]. destruct g as [|r g]; [|done]. cbn [empty].
  destruct (raise_spec l (mkState [] [] m false)) as (H1 & H2 & H3 & H4).
  destruct (raise l _); simpl in *. congruence.
Qed.

(** The state after stage 7. *)
Lemma gates_state ctx set limits p :
  run_stages ctx set limits p =
  if_clean (stage_preferences ctx set p) (if_clean (stage_mandatory ctx set p)
    (mkState (first_nonempty (gates ctx set limits p)) [] (consulted_families set) false)).
Proof.
  unfold run_stages. cbv zeta.
  assert (raise (stage_admission set limits) initial_evaluation =
    mkState (stage_admission set limits) [] 0 false) as ->.
  { pose proof (if_clean_raise (stage_admission set limits) [] 0) as H. exact H. }
  rewrite !if_clean_raise. cbn [st_reasons st_preferences st_consulted st_truncated].
  rewrite Z.lor_0_l. do 3 f_equal.
  cbn [gates first_nonempty].
  destruct (stage_admission set limits); cbn [empty]; [|done].
  destruct (stage_structure set limits p); cbn [empty]; [|done].
  destruct (stage_authority ctx); cbn [empty]; [|done].
  destruct (stage_lifecycle ctx set); cbn [empty]; [|done].
  destruct (stage_path_authority ctx p); cbn [empty]; [|done].
  by destruct (stage_currentness ctx set p (consulted_families set)).
Qed.

(** What a run leaves: the reasons of the first failing gate, or the kept reasons
    of the mandatory constraints, or the preference slots. *)
Lemma run_stages_spec ctx set limits p :
  let g := first_nonempty (gates ctx set limits p) in
  let m := mandatory_reasons ctx set p in
  let s := run_stages ctx set limits p in
  st_consulted s = consulted_families set ∧
  (g ≠ [] → st_reasons s = g ∧ st_preferences s = [] ∧ st_truncated s = false) ∧
  (g = [] → m ≠ [] → ∃ kept, st_reasons s = kept ∧ kept ≠ [] ∧ kept `sublist_of` m ∧
     st_preferences s = [] ∧ (st_truncated s = false → kept = m)) ∧
  (g = [] → m = [] → st_reasons s = [] ∧ st_truncated s = false ∧
     st_preferences s = stable_sort slot_less (preference_slots ctx set p)).
Proof.
  cbv zeta. rewrite gates_state.
  set (g := first_nonempty _). set (m := mandatory_reasons _ _ _).
  set (s0 := mkState g [] (consulted_families set) false).
  destruct (empty g) eqn:Eg.
  - assert (g = []) as Hg by (by destruct g).
    assert (if_clean (stage_mandatory ctx set p) s0 = fold_left push_reason m s0) as ->.
    { unfold if_clean. subst s0. cbn [st_reasons]. rewrite Eg. apply stage_mandatory_pushes. }
    destruct (pushed_spec m s0 (mandatory_reasons_reported _ _ _))
      as (kept & H1 & H2 & H3 & H4 & H5 & H6 & _).
    subst s0. rewrite Hg in *. cbn [st_reasons st_preferences st_consulted app] in *.
    unfold if_clean. rewrite H1. destruct (decide (m = [])) as [Hm|Hm].
    + rewrite Hm in *. apply sublist_nil_r in H2 as ->. by split_and!.
    + specialize (H3 eq_refl Hm). destruct kept as [|k kept]; [done|]. cbn [empty].
      split_and!; try done. intros _ _. exists (k :: kept). by split_and!.
  - subst s0. unfold if_clean at 2. cbn [st_reasons]. rewrite Eg. unfold if_clean.
    cbn [st_reasons]. rewrite Eg. by destruct g.
Qed.

(** ** Lemmas: the consulted families *)

(** The evidence family a constraint reads. *)
Definition consulted_by (c : Constraint) : option EvidenceFamily.t :=
  match kind c with
  | ConstraintKind.MaxLatency =>
      Some (match latency_source c with
            | LatencySource.PlannerCost => EvidenceFamily.Planner
            | _ => EvidenceFamily.LinkState
            end)
  | ConstraintKind.MaxHopCount => Some EvidenceFamily.Planner
  | ConstraintKind.MinBandwidthCapability | ConstraintKind.RequiredCapability
  | ConstraintKind.ForbiddenCapability => Some EvidenceFamily.Capability
  | ConstraintKind.IsolationClass | ConstraintKind.RequiredFailureDomainRelation
  | ConstraintKind.ForbiddenFailureDomainRelation => Some EvidenceFamily.FailureDomain
  | ConstraintKind.AdministrativePolicy => Some EvidenceFamily.Policy
  | ConstraintKind.Unset => None
  | _ => Some EvidenceFamily.Topology
  end.

(** The families whose currentness an evaluation needs. *)
Definition consults (set : ConstraintSet) (f : EvidenceFamily.t) : Prop :=
  (∃ c, c ∈ constraints set ∧ consulted_by c = Some f) ∨
  (f = EvidenceFamily.Planner ∧ consume_planner_cost (ranking set) = true) ∨
  f = EvidenceFamily.PathAuthority.

Lemma families_of_consulted c :
  families_of c = match consulted_by c with Some f => family_bit f | None => 0 end.
Proof.
  unfold families_of, consulted_by. destruct (kind c); try done. by destruct (latency_source c).
Qed.

Lemma testbit_family f g : Z.testbit (family_bit f) (code g) = eeqb f g.
Proof. by destruct f, g. Qed.

Lemma land_family m f : Z.land m (family_bit f) = 0 ↔ Z.testbit m (code f) = false.
Proof.
  assert (0 <= code f) as Hf by by destruct f.
  split.
  - intros H. assert (Z.testbit (Z.land m (family_bit f)) (code f) = false) as Hb
      by (rewrite H; apply Z.bits_0).
    rewrite Z.land_spec, testbit_family, eeqb_refl, andb_true_r in Hb. done.
  - intros H. apply Z.bits_inj'. intros n Hn. rewrite Z.bits_0, Z.land_spec.
    unfold family_bit. destruct (decide (n = code f)) as [->|Hne]; [by rewrite H|].
    rewrite Z.shiftl_spec by done. destruct (decide (n < code f)) as [Hlt|Hge].
    + rewrite (Z.testbit_neg_r 1) by lia. apply andb_false_r.
    + assert (Z.testbit 1 (n - code f) = false) as ->; [|apply andb_false_r].
      apply (Z.bits_above_log2 1); [done|]. change (Z.log2 1) with 0. lia.
Qed.

Lemma consulted_fold cs f : ∀ m,
  Z.testbit (fold_left (λ m c, Z.lor m (families_of c)) cs m) (code f) = true ↔
  Z.testbit m (code f) = true ∨ ∃ c, c ∈ cs ∧ consulted_by c = Some f.
Proof.
  induction cs as [|c cs IH]; intros m; cbn [fold_left]; [set_solver|].
  rewrite IH, Z.lor_spec, orb_true_iff, families_of_consulted. clear IH.
  assert (Z.testbit (match consulted_by c with Some g => family_bit g | None => 0 end) (code f) =
    true ↔ consulted_by c = Some f) as ->.
  { destruct (consulted_by c) as [g|]; [|by rewrite Z.bits_0].
    rewrite testbit_family, eeqb_eq. naive_solver. }
  set_unfold. naive_solver.
Qed.

Lemma consulted_spec set f :
  Z.testbit (consulted_families set) (code f) = true ↔ consults set f.
Proof.
  assert (Z.testbit (fold_left (λ m c, Z.lor m (families_of c)) (constraints set)
    (Z.lor 0 (family_bit EvidenceFamily.PathAuthority))) (code f) = true ↔
    (∃ c, c ∈ constraints set ∧ consulted_by c = Some f) ∨ f = EvidenceFamily.PathAuthority) as H.
  { rewrite consulted_fold, Z.lor_0_l, testbit_family, eeqb_eq. naive_solver. }
  unfold consulted_families, consults. cbv zeta.
  destruct (consume_planner_cost (ranking set)).
  - rewrite Z.lor_spec, orb_true_iff, H, testbit_family, eeqb_eq. naive_solver.
  - rewrite H. naive_solver.
Qed.

Lemma consulted_nonzero set : consulted_families set ≠ 0.
Proof.
  intros H. assert (consults set EvidenceFamily.PathAuthority) as Hc by (right; by right).
  apply consulted_spec in Hc. by rewrite H, Z.bits_0 in Hc.
Qed.

(** ** Lemmas: what each gate lets through *)

Section gate_lemmas.
Context (ctx : EvaluationContext) (set : ConstraintSet) (limits : Limits) (p : CandidatePath).

Definition authorized : Prop :=
  authority_verified ctx = true ∨
  (epoch (ctx_provenance ctx) ≠ 0 ∧ publisher (ctx_provenance ctx) ≠ 0 ∧
   worker_boot (ctx_provenance ctx) ≠ 0 ∧ attempt (ctx_provenance ctx) ≠ 0).

Definition serving : Prop :=
  cs_state set = ConstraintSetState.Active ∧
  (requested_set_generation ctx = 0 ∨ requested_set_generation ctx = cs_generation set).

Definition legal_path : Prop :=
  authority_generation p ≠ 0 ∧ authority_generation p = req_path_authority (current ctx) ∧
  authority_verdict p = PathAuthorityVerdict.Legal.

(** The consulted evidence of the path is the current one, and not too old. *)
Definition current_evidence : Prop :=
  (∀ f, consults set f → f ≠ EvidenceFamily.PathAuthority →
     required_generation_of (current ctx) f ≠ 0 ∧
     evidence_generation_of (evidence p) f = required_generation_of (current ctx) f) ∧
  (max_evidence_age_ticks (current ctx) <= 0 ∨ captured_tick (evidence p) = 0 ∨
   now_tick ctx - captured_tick (evidence p) <= max_evidence_age_ticks (current ctx)) ∧
  (consume_planner_cost (ranking set) = true → has_planner_cost p = true →
   cost_model p = expected_cost_model (ranking set)).

Lemma structure_gate :
  stage_structure set limits p = [] ↔
  ok (verify_canonical_constraint_set set limits) = true ∧ well_formed limits p.
Proof.
  unfold stage_structure. cbv zeta. rewrite app_nil, !when_nil, !negb_false_iff.
  by rewrite validate_candidate_wf.
Qed.

Lemma authority_gate : stage_authority ctx = [] ↔ authorized.
Proof.
  unfold stage_authority, authorized. destruct (authority_verified ctx); [naive_solver|].
  cbv zeta. rewrite when_nil, negb_false_iff, !andb_true_iff, !is_valid_true. naive_solver.
Qed.

Lemma lifecycle_gate : stage_lifecycle ctx set = [] ↔ serving.
Proof.
  unfold stage_lifecycle, serving. destruct (cs_state set); cbn; try (split; [done|naive_solver]).
  rewrite when_nil, andb_false_iff, is_valid_false, negb_false_iff, Z.eqb_eq. naive_solver.
Qed.

Lemma path_authority_gate : stage_path_authority ctx p = [] ↔ legal_path.
Proof.
  unfold stage_path_authority, legal_path.
  destruct (is_valid (authority_generation p)) eqn:E1; cbn [negb].
  2: { apply is_valid_false in E1. naive_solver. }
  apply is_valid_true in E1. destruct (is_valid (req_path_authority (current ctx))) eqn:E2; cbn [negb].
  2: { apply is_valid_false in E2. split; [done|]. intros (_ & H & _). congruence. }
  destruct (_ =? _) eqn:E3; cbn [negb].
  2: { split; [done|]. intros (_ & H & _). lia. }
  apply Z.eqb_eq in E3. destruct (authority_verdict p); cbn; naive_solver.
Qed.

Lemma family_gate f :
  family_currentness ctx p (consulted_families set) f = [] ↔
  (consults set f → required_generation_of (current ctx) f ≠ 0 ∧
     evidence_generation_of (evidence p) f = required_generation_of (current ctx) f).
Proof.
  unfold family_currentness. rewrite <- consulted_spec.
  destruct (_ =? 0) eqn:E.
  - apply Z.eqb_eq, land_family in E. rewrite E. naive_solver.
  - apply Z.eqb_neq in E. rewrite land_family in E. apply not_false_iff_true in E. rewrite E.
    cbv zeta. destruct (required_generation_of _ _ =? 0) eqn:E2; [split; [done|lia]|].
    rewrite when_nil, negb_false_iff. split; [intros ? _|intros H; specialize (H eq_refl)]; lia.
Qed.

Lemma consults_families f : consults set f → f ≠ EvidenceFamily.PathAuthority → f ∈ currentness_families.
Proof.
  unfold currentness_families. intros [(c & _ & Hc)|[[-> _]|]] Hf; [|set_solver|done].
  destruct f; try (by destruct Hf); try set_solver; exfalso; unfold consulted_by in Hc;
    by destruct (kind c), (latency_source c).
Qed.

Lemma currentness_gate :
  stage_currentness ctx set p (consulted_families set) = [] ↔ current_evidence.
Proof.
  unfold stage_currentness, current_evidence.
  pose proof (consulted_nonzero set) as H. apply Z.eqb_neq in H as ->. cbv zeta.
  rewrite !app_nil, !when_nil, pushes_nil. setoid_rewrite family_gate.
  rewrite !andb_false_iff, !negb_false_iff, Z.ltb_ge, Z.eqb_eq, eeqb_eq, !Z.ltb_ge.
  assert ((∀ x, x ∈ currentness_families → consults set x →
      required_generation_of (current ctx) x ≠ 0 ∧
      evidence_generation_of (evidence p) x = required_generation_of (current ctx) x) ↔
    (∀ f, consults set f → f ≠ EvidenceFamily.PathAuthority →
      required_generation_of (current ctx) f ≠ 0 ∧
      evidence_generation_of (evidence p) f = required_generation_of (current ctx) f)) as ->.
  { split.
    - intros Hx f Hf Hne. apply Hx; [by apply consults_families|done].
    - intros Hx f Hin Hf. apply Hx; [done|]. intros ->. unfold currentness_families in Hin.
      set_solver. }
  destruct (consume_planner_cost (ranking set)), (has_planner_cost p); naive_solver lia.
Qed.
End gate_lemmas.
