(* ===== verification/EvaluatorCorrect.v ===== *)
(** The correctness of the evaluator: when a candidate is admissible, what its
    explanation and its preference vector are, and what the batch does with a
    population of candidates. *)

From Stdlib Require Import ZArith Lia Bool Strings.Byte.
From stdpp Require Import base list numbers strings gmap sets sorting.
From S2P Require Import Prelude Base Codec Digest Lifecycle Constraint Candidate.
From S2P Require Import Evaluation Ordering ConstraintSet Evaluator EvaluatorSpec.

Open Scope string_scope.
Open Scope list_scope.
Open Scope Z_scope.

(** ** The explanation *)

(** The constraints a vector of reasons names. *)
Definition failed_of (rs : list Reason) : gset Z :=
  list_to_set (List.filter is_valid (map reason_constraint rs)).

Lemma failed_of_elem rs i : i ∈ failed_of rs ↔ i ≠ 0 ∧ ∃ r, r ∈ rs ∧ reason_constraint r = i.
Proof.
  unfold failed_of. rewrite elem_of_list_to_set, list_elem_of_In, filter_In, <- list_elem_of_In.
  rewrite list_elem_of_fmap, is_valid_true. naive_solver.
Qed.

Lemma failed_of_nil : failed_of [] = ∅.
Proof. done. Qed.

Lemma failed_of_cons r rs :
  failed_of (r :: rs) =
  (if is_valid (reason_constraint r) then {[reason_constraint r]} else ∅) ∪ failed_of rs.
Proof. unfold failed_of. cbn [map List.filter]. destruct (is_valid _); set_solver. Qed.

Lemma union_absorb (X : gset Z) (i : Z) : ¬ (i ∉ X) → X ∪ {[i]} = X.
Proof. intros Hi. destruct (decide (i ∈ X)); [set_solver|done]. Qed.

Section explanation.
Context (limits : Limits).

Lemma keep_reasons_sublist rs : ∀ k rep, keep_reasons limits k rep rs `sublist_of` rs.
Proof.
  induction rs as [|r rs IH]; intros k rep; cbn [keep_reasons]; [done|].
  destruct (_ <=? k); [apply sublist_nil_l|].
  destruct (_ && _); [destruct (_ <=? _)|]; by constructor.
Qed.

Lemma keep_reasons_size rs : ∀ k rep,
  k <= max_explanation_reasons limits →
  k + size (keep_reasons limits k rep rs) <= max_explanation_reasons limits.
Proof.
  unfold size. induction rs as [|r rs IH]; intros k rep Hk; cbn [keep_reasons]; [simpl; lia|].
  destruct (_ <=? k) eqn:E; [simpl; lia|]. apply Z.leb_gt in E.
  destruct (_ && _); [destruct (_ <=? _)|]; [by apply IH| |]; cbn [length];
    match goal with |- context [keep_reasons _ _ ?rep' _] => specialize (IH (k + 1) rep') end; lia.
Qed.

(** With as many constraints as allowed, no other constraint is named. *)
Lemma keep_reasons_full rs : ∀ k rep,
  max_failed_constraints_per_evaluation limits <= Z.of_nat (base.size rep) →
  failed_of (keep_reasons limits k rep rs) ⊆ rep.
Proof.
  induction rs as [|r rs IH]; intros k rep Hr; cbn [keep_reasons]; [set_solver|].
  destruct (_ <=? k); [set_solver|].
  destruct (is_valid (reason_constraint r)) eqn:E1; cbn [andb];
    [destruct (bool_decide _) eqn:E2|].
  - pose proof Hr as Hr'. apply Z.leb_le in Hr' as ->. by apply IH.
  - apply bool_decide_eq_false in E2. rewrite failed_of_cons, E1. specialize (IH (k + 1) rep Hr).
    set_solver.
  - rewrite failed_of_cons, E1. specialize (IH (k + 1) rep Hr). set_solver.
Qed.

Lemma keep_reasons_failed rs : ∀ k rep,
  Z.of_nat (base.size rep) <= max_failed_constraints_per_evaluation limits →
  Z.of_nat (base.size (rep ∪ failed_of (keep_reasons limits k rep rs))) <=
  max_failed_constraints_per_evaluation limits.
Proof.
  induction rs as [|r rs IH]; intros k rep Hr; cbn [keep_reasons].
  { by rewrite failed_of_nil, (right_id_L ∅ (∪)). }
  destruct (_ <=? k); [by rewrite failed_of_nil, (right_id_L ∅ (∪))|].
  destruct (is_valid (reason_constraint r)) eqn:E1; cbn [andb];
    [destruct (bool_decide _) eqn:E2|].
  - apply bool_decide_eq_true in E2. destruct (_ <=? Z.of_nat _) eqn:E3; [by apply IH|].
    apply Z.leb_gt in E3. rewrite failed_of_cons, E1, (assoc_L (∪)), (comm_L (∪) rep).
    apply IH. rewrite size_union, size_singleton by set_solver. lia.
  - apply bool_decide_eq_false in E2. rewrite failed_of_cons, E1, (assoc_L (∪)).
    rewrite (union_absorb rep (reason_constraint r)) by done. by apply IH.
  - rewrite failed_of_cons, E1, (left_id_L ∅ (∪)). by apply IH.
Qed.

(** A reason is left out only when one of the two bounds is reached. *)
Lemma keep_reasons_maximal rs : ∀ k rep r,
  let kept := keep_reasons limits k rep rs in
  r ∈ rs → r ∉ kept →
  max_explanation_reasons limits <= k + size kept ∨
  (reason_constraint r ≠ 0 ∧ reason_constraint r ∉ rep ∪ failed_of kept ∧
   max_failed_constraints_per_evaluation limits <= Z.of_nat (base.size (rep ∪ failed_of kept))).
Proof.
  cbv zeta. unfold size.
  induction rs as [|x rs IH]; intros k rep r Hin Hout; cbn [keep_reasons] in *; [set_solver|].
  destruct (_ <=? k) eqn:E; [left; simpl; lia|].
  destruct (is_valid (reason_constraint x)) eqn:E1; cbn [andb] in *;
    [destruct (bool_decide _) eqn:E2|].
  - apply bool_decide_eq_true in E2. destruct (_ <=? Z.of_nat _) eqn:E3.
    + apply elem_of_cons in Hin as [->|Hin]; [|by apply IH]. right. apply Z.leb_le in E3.
      pose proof (keep_reasons_full rs k rep E3) as Hf.
      apply subseteq_union_1_L in Hf. rewrite (comm_L (∪)), Hf.
      split_and!; [by apply is_valid_true|done|done].
    + apply elem_of_cons in Hin as [->|Hin]; [set_solver|]. apply not_elem_of_cons in Hout as [_ Ho].
      destruct (IH _ _ _ Hin Ho) as [H|H]; [left; cbn [length]; lia|right].
      rewrite failed_of_cons, E1, (assoc_L (∪)), (comm_L (∪) rep). done.
  - apply bool_decide_eq_false in E2.
    apply elem_of_cons in Hin as [->|Hin]; [set_solver|]. apply not_elem_of_cons in Hout as [_ Ho].
    destruct (IH _ _ _ Hin Ho) as [H|H]; [left; cbn [length]; lia|right].
    rewrite failed_of_cons, E1, (assoc_L (∪)).
    rewrite (union_absorb rep (reason_constraint x)) by done. done.
  - apply elem_of_cons in Hin as [->|Hin]; [set_solver|]. apply not_elem_of_cons in Hout as [_ Ho].
    destruct (IH _ _ _ Hin Ho) as [H|H]; [left; cbn [length]; lia|right].
    rewrite failed_of_cons, E1, (left_id_L ∅ (∪)). done.
Qed.

Context (Hmax : 0 < max_explanation_reasons limits).
Context (Hfailed : 0 < max_failed_constraints_per_evaluation limits).

(** The first reason is always kept. *)
Lemma canonicalize_reasons_head rs :
  head (canonicalize_reasons rs limits) = head (stable_sort reason_less rs).
Proof.
  unfold canonicalize_reasons. destruct (stable_sort reason_less rs) as [|r l]; [done|].
  cbn [keep_reasons]. apply Z.leb_gt in Hmax as ->.
  destruct (_ && _); [|done]. rewrite size_empty. change (Z.of_nat 0) with 0.
  apply Z.leb_gt in Hfailed as ->. done.
Qed.

Lemma canonicalize_reasons_nil rs : canonicalize_reasons rs limits = [] ↔ rs = [].
Proof.
  pose proof (canonicalize_reasons_head rs) as H.
  pose proof (stable_sort_length reason_less rs) as Hl.
  split; [|by intros ->]. intros E. rewrite E in H.
  destruct (stable_sort reason_less rs); [|done]. by apply nil_length_inv.
Qed.

Lemma canonicalize_reasons_sorted rs :
  StronglySorted (λ a b, compare_reason a b <= 0) (canonicalize_reasons rs limits).
Proof.
  eapply StronglySorted_sublist; [|apply keep_reasons_sublist].
  apply (stable_sort_sorted reason_less compare_reason reason_less_cmp).
Qed.

(** The fold finds the first of a sorted vector. *)
Lemma primary_reason_sorted r rs :
  StronglySorted (λ a b, compare_reason a b <= 0) (r :: rs) →
  primary_reason_of (r :: rs) = reason_code r.
Proof.
  intros Hs. apply StronglySorted_inv in Hs as [_ Hr]. cbn [primary_reason_of]. f_equal.
  induction Hr as [|x rs Hx _ IH]; cbn [fold_left]; [done|].
  rewrite reason_less_cmp. assert (compare_reason x r <? 0 = false) as ->; [|done].
  apply Z.ltb_ge. destruct (Z.lt_ge_cases (compare_reason x r) 0) as [Hlt|]; [|lia].
  pose proof (cmp_lt_le_trans compare_reason x r x Hlt Hx) as H. rewrite (cmp_refl compare_reason) in H. lia.
Qed.

(** The primary reason of the kept vector is the least reason of the whole one. *)
Lemma primary_reason_least rs :
  rs ≠ [] →
  ∃ r, r ∈ rs ∧ primary_reason_of (canonicalize_reasons rs limits) = reason_code r ∧
    ∀ x, x ∈ rs → compare_reason r x <= 0.
Proof.
  intros Hrs. pose proof (canonicalize_reasons_head rs) as Hh.
  pose proof (canonicalize_reasons_sorted rs) as Hs.
  pose proof (stable_sort_sorted reason_less compare_reason reason_less_cmp rs) as Hss.
  destruct (canonicalize_reasons rs limits) as [|r kept] eqn:E.
  { destruct Hrs. by apply canonicalize_reasons_nil. }
  destruct (stable_sort reason_less rs) as [|r' l] eqn:El; [done|]. injection Hh as <-.
  assert (∀ x, x ∈ rs ↔ x ∈ r :: l) as Hin.
  { intros x. by rewrite <- El, stable_sort_elem. }
  exists r. split; [apply Hin; by left|]. split; [by apply primary_reason_sorted|].
  intros x Hx%Hin. apply StronglySorted_inv in Hss as [_ Hf].
  apply elem_of_cons in Hx as [->|Hx]; [rewrite (cmp_refl compare_reason); lia|].
  rewrite Forall_forall in Hf. by apply Hf.
Qed.
End explanation.

(** ** When a candidate is admissible *)

Lemma sublist_eq_same_length {A} (l k : list A) :
  l `sublist_of` k → length l = length k → l = k.
Proof.
  induction 1 as [|x l k Hl IH|x l k Hl IH]; intros E; simpl in E; [done|f_equal; auto|].
  apply sublist_length in Hl. lia.
Qed.

Lemma Forall_sublist {A} (P : A → Prop) l k : l `sublist_of` k → Forall P k → Forall P l.
Proof.
  intros Hl. rewrite !Forall_forall. intros Hk x Hx. apply Hk.
  eapply elem_of_submseteq; [exact Hx|by apply sublist_submseteq].
Qed.

(** The limits of a context, in the range of their fields. *)
Definition usable_limits (limits : Limits) : Prop :=
  limits_ok limits = true ∧ 0 <= max_failed_constraints_per_evaluation limits.

Lemma usable_limits_facts limits :
  usable_limits limits →
  validate_limits limits = None ∧ 0 < max_explanation_reasons limits ∧
  0 < max_failed_constraints_per_evaluation limits.
Proof.
  intros [Hl Hf]. destruct (limits_ok_facts _ Hl) as (H1 & H2 & _). split_and!; [|lia|lia].
  unfold limits_ok in Hl. by destruct (validate_limits limits).
Qed.

(** What an admissible candidate has passed. *)
Record admits (ctx : EvaluationContext) (set : ConstraintSet) (limits : Limits)
    (p : CandidatePath) : Prop := {
  ad_set : ok (verify_canonical_constraint_set set limits) = true;
  ad_candidate : well_formed limits p;
  ad_caller : authorized ctx;
  ad_lifecycle : serving ctx set;
  ad_path : legal_path ctx p;
  ad_evidence : current_evidence ctx set p;
  ad_constraints : ∀ c, c ∈ constraints set → scope c = ConstraintScope.Mandatory →
    satisfies (current ctx) p c
}.

Lemma mandatory_reasons_nil ctx set limits p :
  ok (verify_canonical_constraint_set set limits) = true → well_formed limits p →
  mandatory_reasons ctx set p = [] ↔
  ∀ c, c ∈ constraints set → scope c = ConstraintScope.Mandatory → satisfies (current ctx) p c.
Proof.
  intros (_ & _ & _ & Hc & _)%verify_canonical_facts Hwf. rewrite Forall_forall in Hc.
  assert (∀ o c, c ∈ constraints set →
    mandatory_pushes (current ctx) p c o = [] ↔ satisfies (current ctx) p c) as Hm.
  { intros o c [Hv Hl]%Hc. by eapply mandatory_pushes_spec. }
  change (mandatory_reasons ctx set p) with (pushes (λ oc : Z * Constraint,
    if eeqb (scope oc.2) ConstraintScope.Mandatory
    then mandatory_pushes (current ctx) p oc.2 oc.1 else []) (ordinals set)).
  rewrite pushes_nil. split.
  - intros H c Hin Hs. apply ordinals_constraint in Hin as Ho. destruct Ho as [o Ho].
    specialize (H _ Ho). cbn [fst snd] in H. rewrite Hs, eeqb_refl in H. by apply (Hm o).
  - intros H [o c] Ho. cbn [fst snd]. destruct (eeqb (scope c) _) eqn:E; [|done].
    apply eeqb_eq in E. assert (c ∈ constraints set) as Hin by (apply ordinals_constraint; by exists o).
    apply Hm; [done|by apply H].
Qed.

(** No stage finds a reason exactly when the candidate is to be admitted. *)
Lemma no_reason_admits ctx set limits p :
  first_nonempty (gates ctx set limits p) = [] ∧ mandatory_reasons ctx set p = [] ↔
  admits ctx set limits p.
Proof.
  rewrite first_nonempty_nil. unfold gates. rewrite !Forall_cons, Forall_nil, structure_gate,
    authority_gate, lifecycle_gate, path_authority_gate, currentness_gate. split.
  - intros [(_ & [H1 H2] & H3 & H4 & H5 & H6 & _) H7]. split; try done.
    by apply (mandatory_reasons_nil ctx set limits p).
  - intros [H1 H2 H3 H4 H5 H6 H7]. split; [split_and!; try done|].
    + unfold stage_admission. apply when_nil, Z.ltb_ge.
      by destruct (verify_canonical_facts _ _ H1) as (_ & _ & H & _).
    + by apply (mandatory_reasons_nil ctx set limits p).
Qed.

Lemma run_stages_reasons ctx set limits p :
  (st_reasons (run_stages ctx set limits p) = [] ↔ admits ctx set limits p) ∧
  Forall reported (st_reasons (run_stages ctx set limits p)).
Proof.
  destruct (run_stages_spec ctx set limits p) as (_ & H1 & H2 & H3). cbv zeta in *.
  rewrite <- no_reason_admits.
  destruct (decide (first_nonempty (gates ctx set limits p) = [])) as [Hg|Hg].
  - destruct (decide (mandatory_reasons ctx set p = [])) as [Hm|Hm].
    + destruct (H3 Hg Hm) as (-> & _). split; [tauto|constructor].
    + destruct (H2 Hg Hm) as (kept & -> & Hk & Hs & _). split; [tauto|].
      apply (Forall_sublist _ _ _ Hs), mandatory_reasons_reported.
  - destruct (H1 Hg) as (-> & _). split; [tauto|].
    pose proof (first_nonempty_elem _ Hg) as Hin. revert Hin.
    generalize (first_nonempty (gates ctx set limits p)). intros g Hin. unfold gates in Hin.
    destruct (stages_reported ctx set limits p (consulted_families set)) as (R1 & R2 & R3 & R4 & R5 & R6).
    rewrite !elem_of_cons, elem_of_nil in Hin.
    destruct Hin as [->|[->|[->|[->|[->|[->|[]]]]]]];
      [exact R1|exact R2|exact R3|exact R4|exact R5|exact R6].
Qed.

Lemma outcome_of_failure x : x ≠ ReasonCode.None → is_admissible (outcome_of x) = false.
Proof. by destruct x. Qed.

(** The outcome of a record against the reasons of the run. *)
Lemma record_outcome ctx set limits p s :
  usable_limits limits → Forall reported (st_reasons s) →
  let r := record_of ctx set limits p s in
  (st_reasons s ≠ [] → is_admissible (outcome r) = false ∧ outcome r = outcome_of (primary_reason r)) ∧
  (st_reasons s = [] → primary_reason r = ReasonCode.None ∧ reasons r = [] ∧
     outcome r = if empty (st_preferences s) then Outcome.Admissible
                 else Outcome.AdmissibleWithPreferences).
Proof.
  intros (_ & Hm & Hf)%usable_limits_facts Hr. cbv zeta.
  unfold record_of. cbn [outcome primary_reason reasons]. split.
  - intros Hne. destruct (primary_reason_least limits Hm Hf _ Hne) as (r & Hin & Hp & _).
    rewrite Forall_forall in Hr. destruct (Hr _ Hin) as [Hc _].
    pose proof (canonicalize_reasons_nil limits Hm Hf (st_reasons s)) as Hn.
    unfold outcome_from_reasons. destruct (canonicalize_reasons (st_reasons s) limits); [tauto|].
    rewrite Hp. split; [by apply outcome_of_failure|done].
  - intros ->. split_and!; [done|done|]. cbn. by destruct (st_preferences s).
Qed.

Lemma preference_slots_nonempty ctx set p :
  empty (preference_slots ctx set p) = false ↔
  ∃ c, c ∈ constraints set ∧ scope c = ConstraintScope.Preference.
Proof.
  unfold preference_slots. setoid_rewrite ordinals_constraint.
  induction (ordinals set) as [|[o c] os IH]; cbn [map concat]; [set_solver|].
  destruct (eeqb (scope c) ConstraintScope.Preference) eqn:E; cbn [negb app empty].
  - apply eeqb_eq in E. split; [|done]. intros _. exists c. split; [exists o; set_solver|done].
  - apply eeqb_neq in E. rewrite IH. set_unfold. naive_solver.
Qed.

(** C8: A candidate is evaluated to an admissible record exactly when the set is a
    verified canonical set that is active under the requested generation, the
    candidate is well formed, the caller is authorized, the path was judged legal
    under the current authority generation, the evidence of every family the set
    consults is the current one, and every mandatory constraint holds of the path;
    the record then has no reason, and tells whether the set states preferences. *)
Theorem evaluate_candidate_admissible ctx set limits p :
  ctx_set ctx = Some set → ctx_limits ctx = Some limits → usable_limits limits →
  ∃ r, evaluate_candidate ctx p = Success r ∧
    (is_admissible (outcome r) = true ↔ admits ctx set limits p) ∧
    (admits ctx set limits p →
       reasons r = [] ∧ primary_reason r = ReasonCode.None ∧
       (outcome r = Outcome.AdmissibleWithPreferences ↔
          ∃ c, c ∈ constraints set ∧ scope c = ConstraintScope.Preference)).
Proof.
  intros Hs Hl Hu. exists (record_of ctx set limits p (run_stages ctx set limits p)).
  unfold evaluate_candidate. rewrite Hs, Hl. destruct (usable_limits_facts _ Hu) as [-> _].
  destruct (run_stages_reasons ctx set limits p) as [Hn Hr].
  destruct (record_outcome ctx set limits p _ Hu Hr) as [H1 H2]. cbv zeta in *.
  split; [done|]. split.
  - rewrite <- Hn. split.
    + intros Ha. destruct (decide (st_reasons (run_stages ctx set limits p) = [])); [done|].
      destruct H1 as [H _]; [done|]. congruence.
    + intros (_ & _ & ->)%H2. by destruct (empty _).
  - intros Ha. apply Hn in Ha as E. apply H2 in E as (E1 & E2 & E3). split_and!; [done..|].
    apply no_reason_admits in Ha as [Hg Hm].
    destruct (run_stages_spec ctx set limits p) as (_ & _ & _ & H). cbv zeta in H.
    destruct (H Hg Hm) as (_ & _ & Hp). rewrite E3, Hp. clear - limits.
    rewrite <- (preference_slots_nonempty ctx set p).
    pose proof (stable_sort_length slot_less (preference_slots ctx set p)) as Hlen.
    by destruct (preference_slots ctx set p), (stable_sort slot_less _).
Qed.

(** ** What the explanation of a record says *)

(** The reasons the evaluation finds: those of the first gate that finds any, or
    those of the mandatory constraints. *)
Definition reasons_found (ctx : EvaluationContext) (set : ConstraintSet) (limits : Limits)
    (p : CandidatePath) : list Reason :=
  first_nonempty (gates ctx set limits p ++ [mandatory_reasons ctx set p]).

(** The reasons of one ordinal. *)
Definition emitted (o : Z) (rs : list Reason) : Z :=
  size (List.filter (λ existing, constraint_ordinal existing =? o) rs).

Lemma emitted_app o rs ss : emitted o (rs ++ ss) = emitted o rs + emitted o ss.
Proof. unfold emitted, size. rewrite List.filter_app, length_app. lia. Qed.

Lemma emitted_size o rs : 0 <= emitted o rs <= size rs.
Proof.
  unfold emitted, size. pose proof (List.filter_length_le (λ e, constraint_ordinal e =? o) rs). lia.
Qed.

Lemma emitted_positive o rs : 0 < emitted o rs → ∃ y, y ∈ rs ∧ constraint_ordinal y = o.
Proof.
  unfold emitted, size. destruct (List.filter _ rs) as [|y l] eqn:E; [simpl; lia|]. intros _.
  exists y. assert (y ∈ List.filter (λ e, constraint_ordinal e =? o) rs) as H by (rewrite E; set_solver).
  apply list_elem_of_In, filter_In in H as [Hy Ho]. rewrite list_elem_of_In. split; [done|lia].
Qed.

Lemma push_reason_cases s r :
  (kMaxReasonsPerConstraint <= emitted (constraint_ordinal r) (st_reasons s) ∧
   push_reason s r = mkState (st_reasons s) (st_preferences s) (st_consulted s) true) ∨
  (emitted (constraint_ordinal r) (st_reasons s) < kMaxReasonsPerConstraint ∧
   ∃ r', constraint_ordinal r' = constraint_ordinal r ∧ push_reason s r = add_reason r' s).
Proof.
  unfold push_reason. cbv zeta. fold (emitted (constraint_ordinal r) (st_reasons s)).
  destruct (_ <=? _) eqn:E; [left; split; [lia|done]|right; split; [lia|]].
  eexists. split; [|reflexivity]. done.
Qed.

(** Pushing keeps at most [kMaxReasonsPerConstraint] reasons of an ordinal, at
    least one of every ordinal pushed, and flags what it drops. *)
Lemma pushed_kept rs : ∀ s,
  (∀ o, emitted o (st_reasons s) <= kMaxReasonsPerConstraint) →
  let s' := fold_left push_reason rs s in
  (∀ o, emitted o (st_reasons s') <= kMaxReasonsPerConstraint) ∧
  (∀ x, x ∈ st_reasons s ++ rs → ∃ y, y ∈ st_reasons s' ∧ constraint_ordinal y = constraint_ordinal x) ∧
  size (st_reasons s') <= size (st_reasons s) + size rs ∧
  (st_truncated s' = true → st_truncated s = false →
     size (st_reasons s') < size (st_reasons s) + size rs).
Proof.
  cbv zeta. induction rs as [|r rs IH]; intros s Hs; cbn [fold_left].
  { unfold size. rewrite app_nil_r. cbn [length]. split_and!; [done|eauto|lia|congruence]. }
  destruct (push_reason_cases s r) as [[Hf ->]|[Hf (r1 & Ho & ->)]].
  - destruct (emitted_positive (constraint_ordinal r) (st_reasons s)) as (z & Hz & Ho).
    { unfold kMaxReasonsPerConstraint in Hf. lia. }
    destruct (IH (mkState (st_reasons s) (st_preferences s) (st_consulted s) true) Hs)
      as (H1 & H2 & H3 & _). cbn [st_reasons st_truncated] in *.
    split_and!; [done| |unfold size in *; cbn [length]; intros; lia..].
    intros x. rewrite elem_of_app, elem_of_cons. intros [Hx|[->|Hx]]; [..|apply H2; set_solver].
    + apply H2. set_solver.
    + rewrite <- Ho. apply H2. set_solver.
  - destruct (IH (add_reason r1 s)) as (H1 & H2 & H3 & H4); cbn [add_reason st_reasons st_truncated] in *.
    { intros o. rewrite emitted_app. specialize (Hs o). unfold emitted at 2. cbn [List.filter].
      rewrite Ho. destruct (constraint_ordinal r =? o) eqn:Eo; [|unfold size; simpl; lia].
      apply Z.eqb_eq in Eo as <-. unfold size. simpl. lia. }
    unfold size in *. rewrite length_app in *. cbn [length] in *.
    split_and!; [done| |lia|intros Ht Hn; specialize (H4 Ht Hn); lia].
    intros x. rewrite elem_of_app, elem_of_cons. intros [Hx|[->|Hx]]; [..|apply H2; set_solver].
    + apply H2. set_solver.
    + rewrite <- Ho. apply H2. set_solver.
Qed.

Lemma when_size b r : size (when b r) <= 1.
Proof. destruct b; unfold size; simpl; lia. Qed.

Lemma gates_small ctx set limits p g :
  g ∈ gates ctx set limits p → size g <= kMaxReasonsPerConstraint.
Proof.
  unfold gates, kMaxReasonsPerConstraint. rewrite !elem_of_cons, elem_of_nil.
  intros [->|[->|[->|[->|[->|[->|[]]]]]]].
  - unfold stage_admission. etrans; [apply when_size|lia].
  - unfold stage_structure. cbv zeta. unfold size. rewrite length_app.
    do 2 match goal with |- context [length (when ?b ?r)] =>
      generalize (when_size b r); generalize (when b r) end. unfold size. lia.
  - unfold stage_authority. cbv zeta. destruct (authority_verified ctx); [unfold size; simpl; lia|].
    etrans; [apply when_size|lia].
  - unfold stage_lifecycle. cbv zeta. destruct (negb _); [unfold size; simpl; lia|].
    etrans; [apply when_size|lia].
  - unfold stage_path_authority. repeat case_match; unfold size; simpl; try lia.
    etrans; [apply when_size|lia].
  - assert (∀ f, size (family_currentness ctx p (consulted_families set) f) <= 1) as Hf.
    { intros f. unfold family_currentness. cbv zeta. repeat case_match; try (unfold size; simpl; lia).
      apply when_size. }
    unfold stage_currentness, pushes, currentness_families. destruct (_ =? 0); [unfold size; simpl; lia|].
    cbv zeta. cbn [map concat]. unfold size in *. rewrite !length_app. cbn [length].
    do 2 match goal with |- context [length (when ?b ?r)] =>
      generalize (when_size b r); generalize (when b r) end. unfold size. intros l1 H1 l2 H2.
    pose proof (Hf EvidenceFamily.Topology). pose proof (Hf EvidenceFamily.LinkState).
    pose proof (Hf EvidenceFamily.Capability). pose proof (Hf EvidenceFamily.FailureDomain).
    pose proof (Hf EvidenceFamily.Policy). pose proof (Hf EvidenceFamily.Planner). lia.
Qed.

Lemma first_nonempty_app ls ks :
  first_nonempty (ls ++ ks) =
  if empty (first_nonempty ls) then first_nonempty ks else first_nonempty ls.
Proof.
  induction ls as [|l ls IH]; cbn [app first_nonempty]; [done|].
  destruct l; cbn [empty]; [exact IH|done].
Qed.

(** What a run keeps of the reasons found. *)
Lemma run_stages_found ctx set limits p :
  let s := run_stages ctx set limits p in
  let F := reasons_found ctx set limits p in
  st_reasons s `sublist_of` F ∧
  (∀ o, emitted o (st_reasons s) <= kMaxReasonsPerConstraint) ∧
  (∀ x, x ∈ F → ∃ y, y ∈ st_reasons s ∧ constraint_ordinal y = constraint_ordinal x) ∧
  (st_truncated s = false ↔ size (st_reasons s) = size F).
Proof.
  cbv zeta. pose proof (run_stages_spec ctx set limits p) as (_ & Hg & _ & _). cbv zeta in Hg.
  unfold reasons_found. rewrite first_nonempty_app. cbn [first_nonempty].
  pose proof (first_nonempty_elem (gates ctx set limits p)) as Hin.
  rewrite gates_state in *. set (g := first_nonempty (gates ctx set limits p)) in *.
  destruct (empty g) eqn:Eg.
  - assert (g = []) as Hg' by (by destruct g). clear Hg. rewrite Hg' in *.
    set (m := mandatory_reasons ctx set p).
    assert ((if empty m then [] else m) = m) as -> by (by destruct m).
    assert (if_clean (stage_mandatory ctx set p) (mkState [] [] (consulted_families set) false) =
      fold_left push_reason m (mkState [] [] (consulted_families set) false)) as ->
      by (unfold if_clean; cbn [st_reasons empty]; apply stage_mandatory_pushes).
    set (s0 := mkState [] [] (consulted_families set) false).
    destruct (pushed_spec m s0 (mandatory_reasons_reported _ _ _)) as (kept & H1 & H2 & _ & H4 & _).
    destruct (pushed_kept m s0) as (K1 & K2 & K3 & K4).
    { intros o. unfold emitted, size, kMaxReasonsPerConstraint. simpl. lia. }
    set (s' := fold_left push_reason m s0) in *.
    assert (st_reasons (if_clean (stage_preferences ctx set p) s') = st_reasons s' ∧
      st_truncated (if_clean (stage_preferences ctx set p) s') = st_truncated s') as [-> ->]
      by (unfold if_clean; by destruct (empty (st_reasons s'))).
    cbn [st_reasons st_truncated app] in *. split_and!; [by rewrite H1|done|done|]. split.
    + intros Ht. by rewrite H1, H4.
    + intros Hs. destruct (st_truncated s'); [|done]. specialize (K4 eq_refl eq_refl).
      unfold size in *. subst s0. simpl in *. lia.
  - assert (g ≠ []) as Hne by (by destruct g). destruct (Hg Hne) as (-> & _ & ->).
    split_and!; [done| |eauto|done]. intros o. pose proof (emitted_size o g).
    pose proof (gates_small ctx set limits p g (Hin Hne)). lia.
Qed.

(** The explanation of a record. Of the reasons the first failing stage found,
    at most [kMaxReasonsPerConstraint] of each constraint are collected and at least
    one of every constraint that failed; the record holds a sorted part of them
    within the two bounds of the limits, leaves a collected reason out only when one
    of the bounds is reached, and says it is not truncated exactly when it holds
    them all. Its primary reason is the least collected one, bounds or not. *)
Theorem evaluate_candidate_explanation ctx set limits p r :
  ctx_set ctx = Some set → ctx_limits ctx = Some limits → usable_limits limits →
  evaluate_candidate ctx p = Success r →
  let F := reasons_found ctx set limits p in
  ∃ collected,
    (collected `sublist_of` F ∧ (∀ o, emitted o collected <= kMaxReasonsPerConstraint) ∧
     ∀ x, x ∈ F → ∃ y, y ∈ collected ∧ constraint_ordinal y = constraint_ordinal x) ∧
    (reasons r ⊆+ collected ∧ StronglySorted (λ a b, compare_reason a b <= 0) (reasons r)) ∧
    (size (reasons r) <= max_explanation_reasons limits ∧
     Z.of_nat (base.size (failed_of (reasons r))) <= max_failed_constraints_per_evaluation limits) ∧
    (∀ x, x ∈ collected → x ∉ reasons r →
       max_explanation_reasons limits <= size (reasons r) ∨
       (reason_constraint x ∉ failed_of (reasons r) ∧
        max_failed_constraints_per_evaluation limits <=
          Z.of_nat (base.size (failed_of (reasons r))))) ∧
    (reasons_truncated r = false ↔ reasons r = stable_sort reason_less F) ∧
    (F ≠ [] → ∃ w, w ∈ collected ∧ primary_reason r = reason_code w ∧
       ∀ x, x ∈ collected → compare_reason w x <= 0).
Proof.
  intros Hs Hl Hu. unfold evaluate_candidate. rewrite Hs, Hl.
  destruct (usable_limits_facts _ Hu) as (-> & Hm & Hf). intros [= <-]. cbv zeta.
  destruct (run_stages_found ctx set limits p) as (H1 & H2 & H3 & H4). cbv zeta in *.
  set (s := run_stages ctx set limits p) in *. set (F := reasons_found ctx set limits p) in *.
  unfold record_of. cbn [reasons primary_reason reasons_truncated].
  set (kept := canonicalize_reasons (st_reasons s) limits).
  assert (kept `sublist_of` stable_sort reason_less (st_reasons s)) as Hk
    by apply keep_reasons_sublist.
  exists (st_reasons s). split_and!; try done.
  - rewrite <- (stable_sort_perm reason_less (st_reasons s)). by apply sublist_submseteq.
  - apply canonicalize_reasons_sorted.
  - pose proof (keep_reasons_size limits (stable_sort reason_less (st_reasons s)) 0 ∅) as H.
    fold (canonicalize_reasons (st_reasons s) limits) kept in H. lia.
  - pose proof (keep_reasons_failed limits (stable_sort reason_less (st_reasons s)) 0 ∅) as H.
    fold (canonicalize_reasons (st_reasons s) limits) kept in H.
    rewrite (left_id_L ∅ (∪)), size_empty in H. apply H. lia.
  - intros x Hx Hn.
    pose proof (keep_reasons_maximal limits (stable_sort reason_less (st_reasons s)) 0 ∅ x) as H.
    cbv zeta in H. fold (canonicalize_reasons (st_reasons s) limits) kept in H.
    rewrite stable_sort_elem, (left_id_L ∅ (∪)) in H.
    destruct (H Hx Hn) as [H'|(_ & H' & H'')]; [left; lia|by right].
  - rewrite orb_false_iff, H4, Z.ltb_ge.
    pose proof (stable_sort_length reason_less (st_reasons s)) as Hss.
    pose proof (stable_sort_length reason_less F) as HsF.
    pose proof (sublist_length _ _ Hk) as Hlk. pose proof (sublist_length _ _ H1) as Hl1.
    unfold size in *. split.
    + intros [E1 E2].
      assert (st_reasons s = F) as E by (apply sublist_eq_same_length; [done|lia]).
      rewrite <- E. apply sublist_eq_same_length; [done|lia].
    + intros E. rewrite E in *. lia.
  - intros HF. apply primary_reason_least; [done|done|]. intros E.
    destruct F as [|x F']; [done|]. destruct (H3 x (list_elem_of_here x F')) as (y & Hy & _).
    rewrite E in Hy. by apply elem_of_nil in Hy.
Qed.

(** ** Which failure a record reports *)

Lemma run_first_gate ctx set limits p before g after :
  gates ctx set limits p = before ++ g :: after → Forall (λ l, l = []) before → g ≠ [] →
  st_reasons (run_stages ctx set limits p) = g.
Proof.
  intros E Hb Hg. destruct (run_stages_spec ctx set limits p) as (_ & H & _). cbv zeta in H.
  rewrite E, first_nonempty_app in H. apply first_nonempty_nil in Hb. rewrite Hb in H.
  cbn [empty first_nonempty] in H. destruct g as [|x g]; [done|]. cbn [empty] in H. by apply H.
Qed.

Lemma record_primary ctx set limits p s :
  usable_limits limits → Forall reported (st_reasons s) → st_reasons s ≠ [] →
  let r := record_of ctx set limits p s in
  outcome r = outcome_of (primary_reason r) ∧
  ∃ w, w ∈ st_reasons s ∧ primary_reason r = reason_code w.
Proof.
  intros Hu Hr Hne. cbv zeta. destruct (record_outcome ctx set limits p s Hu Hr) as [H _].
  cbv zeta in H. destruct (H Hne) as [_ ->]. split; [done|].
  destruct (usable_limits_facts _ Hu) as (_ & Hm & Hf).
  destruct (primary_reason_least limits Hm Hf _ Hne) as (w & Hw & Hp & _). by exists w.
Qed.

(** The reason a path is refused for its authority. *)
Definition path_refusal (ctx : EvaluationContext) (p : CandidatePath) : ReasonCode.t :=
  if authority_generation p =? 0 then ReasonCode.PathAuthorityGenerationMissing
  else if req_path_authority (current ctx) =? 0 then ReasonCode.EvidenceNotBound
  else if negb (authority_generation p =? req_path_authority (current ctx)) then
    ReasonCode.StalePathAuthority
  else if eeqb (authority_verdict p) PathAuthorityVerdict.NotEvaluated then
    ReasonCode.PathAuthorityNotEvaluated
  else ReasonCode.PathNotLegal.

Lemma path_authority_refusal ctx p w :
  w ∈ stage_path_authority ctx p → reason_code w = path_refusal ctx p.
Proof.
  unfold stage_path_authority, path_refusal, is_valid. rewrite !negb_involutive.
  destruct (authority_generation p =? 0); [by intros ->%list_elem_of_singleton|].
  destruct (req_path_authority (current ctx) =? 0); [by intros ->%list_elem_of_singleton|].
  destruct (negb _); [by intros ->%list_elem_of_singleton|].
  destruct (authority_verdict p); cbn; first [by intros ->%list_elem_of_singleton|set_solver].
Qed.

(** The reason a set is refused for its lifecycle. *)
Definition lifecycle_refusal (set : ConstraintSet) : ReasonCode.t :=
  match cs_state set with
  | ConstraintSetState.Active => ReasonCode.StaleConstraintSetGeneration
  | st => lifecycle_reason st
  end.

Lemma lifecycle_stage_refusal ctx set w :
  w ∈ stage_lifecycle ctx set → reason_code w = lifecycle_refusal set.
Proof.
  unfold stage_lifecycle, lifecycle_refusal. destruct (cs_state set); cbn;
    try (by intros ->%list_elem_of_singleton).
  destruct (_ && _); [by intros ->%list_elem_of_singleton|set_solver].
Qed.

Lemma currentness_stage_class ctx set p w :
  w ∈ stage_currentness ctx set p (consulted_families set) →
  reason_class_of (reason_code w) = ReasonClass.EvidenceCurrentness.
Proof.
  unfold stage_currentness, pushes, currentness_families, family_currentness.
  destruct (_ =? 0); [set_solver|]. cbv zeta. rewrite !elem_of_app. cbn [map concat].
  assert (∀ b r, w ∈ when b r → w = r) as Hw by (intros [] r; cbn; set_solver).
  rewrite !elem_of_app.
  intros [[H|[H|[H|[H|[H|[H|H]]]]]]|[H|H]]; repeat case_match;
    repeat first [apply Hw in H as ->|apply list_elem_of_singleton in H as ->]; try done; set_solver.
Qed.

(** A list of lists known to be empty. *)
Ltac all_nil := repeat (apply Forall_cons_2; [assumption|]); apply Forall_nil_2.

(** The first gate that fails gives the primary reason. *)
Lemma gate_decides ctx set limits p before g after :
  usable_limits limits → gates ctx set limits p = before ++ g :: after →
  Forall (λ l, l = []) before → g ≠ [] →
  let r := record_of ctx set limits p (run_stages ctx set limits p) in
  outcome r = outcome_of (primary_reason r) ∧ ∃ w, w ∈ g ∧ primary_reason r = reason_code w.
Proof.
  intros Hu E Hb Hg. cbv zeta. pose proof (run_first_gate _ _ _ _ _ _ _ E Hb Hg) as Hr.
  rewrite <- Hr. apply record_primary; [done|apply run_stages_reasons|by rewrite Hr].
Qed.

Lemma mandatory_decide ctx set limits p :
  usable_limits limits → Forall (λ l, l = []) (gates ctx set limits p) →
  ¬ admits ctx set limits p →
  let r := record_of ctx set limits p (run_stages ctx set limits p) in
  reason_class_of (primary_reason r) = ReasonClass.MandatoryConstraint.
Proof.
  intros Hu Hg Hna. cbv zeta. destruct (run_stages_reasons ctx set limits p) as [Hn Hr].
  rewrite <- Hn in Hna. destruct (record_primary ctx set limits p _ Hu Hr Hna) as (_ & w & Hw & ->).
  apply first_nonempty_nil in Hg. destruct (run_stages_found ctx set limits p) as (Hsub & _).
  unfold reasons_found in Hsub. rewrite first_nonempty_app, Hg in Hsub.
  cbn [empty first_nonempty] in Hsub. pose proof (elem_of_sublist _ _ _ Hw Hsub) as Hin.
  assert (w ∈ mandatory_reasons ctx set p) as Hj by (by destruct (mandatory_reasons ctx set p)).
  pose proof (mandatory_reasons_judged ctx set p) as H. rewrite Forall_forall in H.
  by destruct (H _ Hj) as [(_ & _ & ->) ->].
Qed.

Lemma structure_outcome set limits p w :
  w ∈ stage_structure set limits p →
  outcome_of (reason_code w) = Outcome.Malformed ∨ outcome_of (reason_code w) = Outcome.ResourceLimit.
Proof.
  unfold stage_structure. cbv zeta. rewrite elem_of_app.
  intros [Hw|Hw]; destruct (negb _); cbn [when] in Hw;
    try (by apply elem_of_nil in Hw); apply list_elem_of_singleton in Hw as ->; [by left|].
  destruct (eeqb _ _); cbn; auto.
Qed.

Lemma authority_stage_code ctx w :
  w ∈ stage_authority ctx → reason_code w = ReasonCode.MissingAuthorityContext.
Proof.
  unfold stage_authority. cbv zeta. destruct (authority_verified ctx); [by intros ?%elem_of_nil|].
  destruct (negb _); cbn [when]; [by intros ->%list_elem_of_singleton|by intros ?%elem_of_nil].
Qed.

(** C29: Which failure a record reports, when the set has no more constraints than
    allowed. Stages run in a fixed order and the first that fails decides: a broken
    set or candidate before anything else, then the caller, the lifecycle of the
    set, the authority of the path, the currentness of the evidence, and the
    mandatory constraints last. *)
Theorem evaluate_candidate_precedence ctx set limits p r :
  ctx_set ctx = Some set → ctx_limits ctx = Some limits → usable_limits limits →
  size (constraints set) <= max_constraints_per_set limits →
  evaluate_candidate ctx p = Success r →
  let structured := ok (verify_canonical_constraint_set set limits) = true ∧ well_formed limits p in
  let primary := primary_reason r in
  (¬ structured → outcome r = Outcome.Malformed ∨ outcome r = Outcome.ResourceLimit) ∧
  (structured → ¬ authorized ctx → primary = ReasonCode.MissingAuthorityContext) ∧
  (structured → authorized ctx → ¬ serving ctx set → primary = lifecycle_refusal set) ∧
  (structured → authorized ctx → serving ctx set → ¬ legal_path ctx p →
     primary = path_refusal ctx p) ∧
  (structured → authorized ctx → serving ctx set → legal_path ctx p →
   ¬ current_evidence ctx set p →
     reason_class_of primary = ReasonClass.EvidenceCurrentness) ∧
  (structured → authorized ctx → serving ctx set → legal_path ctx p →
   current_evidence ctx set p → ¬ admits ctx set limits p →
     reason_class_of primary = ReasonClass.MandatoryConstraint) ∧
  (¬ admits ctx set limits p → outcome r = outcome_of primary).
Proof.
  intros Hs Hl Hu Hsize. unfold evaluate_candidate. rewrite Hs, Hl.
  destruct (usable_limits_facts _ Hu) as [-> _]. intros [= <-]. cbv zeta.
  assert (stage_admission set limits = []) as H0 by (by apply when_nil, Z.ltb_ge).
  rewrite <- structure_gate, <- authority_gate, <- lifecycle_gate, <- path_authority_gate,
    <- currentness_gate.
  set (g0 := stage_admission set limits) in *. set (g1 := stage_structure set limits p) in *.
  set (g2 := stage_authority ctx) in *. set (g3 := stage_lifecycle ctx set) in *.
  set (g4 := stage_path_authority ctx p) in *.
  set (g5 := stage_currentness ctx set p (consulted_families set)) in *.
  assert (gates ctx set limits p = [g0; g1; g2; g3; g4; g5]) as E by reflexivity.
  pose proof (λ b g a, gate_decides ctx set limits p b g a Hu) as Hgate. cbv zeta in Hgate.
  rewrite E in Hgate. split_and!.
  - intros Hg. destruct (Hgate [g0] g1 [g2; g3; g4; g5] eq_refl ltac:(all_nil) Hg)
      as (-> & w & Hw & ->).
    by apply structure_outcome in Hw.
  - intros H1 Hg. destruct (Hgate [g0; g1] g2 [g3; g4; g5] eq_refl ltac:(all_nil) Hg)
      as (_ & w & Hw & ->).
    by apply authority_stage_code in Hw.
  - intros H1 H2 Hg. destruct (Hgate [g0; g1; g2] g3 [g4; g5] eq_refl ltac:(all_nil) Hg)
      as (_ & w & Hw & ->).
    by apply lifecycle_stage_refusal in Hw.
  - intros H1 H2 H3 Hg. destruct (Hgate [g0; g1; g2; g3] g4 [g5] eq_refl ltac:(all_nil) Hg)
      as (_ & w & Hw & ->).
    by apply path_authority_refusal in Hw.
  - intros H1 H2 H3 H4 Hg.
    destruct (Hgate [g0; g1; g2; g3; g4] g5 [] eq_refl ltac:(all_nil) Hg)
      as (_ & w & Hw & ->).
    by apply currentness_stage_class in Hw.
  - intros H1 H2 H3 H4 H5. apply mandatory_decide; [done|]. rewrite E. all_nil.
  - destruct (run_stages_reasons ctx set limits p) as [Hn Hr]. rewrite <- Hn. intros Hna.
    by destruct (record_primary ctx set limits p _ Hu Hr Hna) as [-> _].
Qed.

(** ** The preference vector *)

(** The slot of a preference says what the constraint asks of the path. *)
Lemma evaluate_preference_satisfied limits cur p c ordinal :
  well_formed limits p → valid limits c → canonical_lists c = true →
  satisfied (evaluate_preference cur p c ordinal) = true ↔ satisfies cur p c.
Proof.
  intros Hwf Hv Hl. pose proof (mandatory_pushes_spec limits cur p c ordinal Hwf Hv Hl) as Hm.
  assert (empty (st_reasons (evaluate_mandatory cur p c ordinal initial_evaluation)) = true ↔
    satisfies cur p c) as Hh.
  { rewrite <- Hm. unfold evaluate_mandatory.
    destruct (pushed_spec _ initial_evaluation (mandatory_pushes_judged_reported cur p c ordinal))
      as (kept & -> & Hk & Hne & _). cbn [initial_evaluation st_reasons app].
    split; [|intros E; rewrite E in Hk; by apply sublist_nil_r in Hk as ->].
    intros E. destruct (decide (mandatory_pushes cur p c ordinal = [])) as [|H]; [done|].
    destruct (Hne eq_refl H). by destruct kept. }
  destruct (scan_domains_spec limits p (domain_kind c) Hwf) as [Hc Hn].
  unfold evaluate_preference. cbv zeta. destruct (kind c) eqn:Hk; try exact Hh; clear Hh Hm;
    unfold satisfies; rewrite Hk.
  - rewrite <- (eeqb_eq (source (latency p))). destruct (eeqb _ _); cbn [negb satisfied].
    + rewrite Z.leb_le. tauto.
    + naive_solver.
  - rewrite <- bandwidth_at_least. destruct (path_bandwidth_capability _ _) as [r|]; cbn [satisfied].
    + rewrite Z.leb_le. naive_solver.
    + naive_solver.
  - rewrite <- Hc. setoid_rewrite Hn. destruct (complete _); cbn [negb satisfied].
    + rewrite Z.leb_le. naive_solver.
    + naive_solver.
  - cbn [satisfied]. rewrite Z.leb_le. by rewrite (wf_hop_count _ _ Hwf).
Qed.

Lemma slot_fields cur p c ordinal :
  let s := evaluate_preference cur p c ordinal in
  slot_constraint s = id c ∧ slot_kind s = kind c ∧ slot_ordinal s = ordinal ∧
  rank s = preference_rank c ∧ weight s = preference_weight c.
Proof.
  unfold evaluate_preference. cbv zeta.
  match goal with |- context [let '(_, _) := ?x in _] => by destruct x end.
Qed.

(** The comparison of two slots. *)
Definition slot_cmp (a b : PreferenceSlot) : Z :=
  cmp_step (rank a) (rank b) (cmp_step (slot_ordinal a) (slot_ordinal b) 0).

#[export] Instance slot_cmp_order : CmpOrder slot_cmp.
Proof. unfold slot_cmp. refine (cmp_step_order rank _ _). Qed.

Lemma slot_less_cmp a b : slot_less a b = (slot_cmp a b <? 0).
Proof. unfold slot_less, slot_cmp, cmp_step. ifs_lia. Qed.

Lemma ordinals_lookup set o c :
  (o, c) ∈ ordinals set ↔ 0 <= o ∧ constraints set !! Z.to_nat o = Some c.
Proof.
  unfold ordinals. rewrite list_elem_of_lookup. split.
  - intros (i & Hi). apply lookup_zip_Some in Hi as [Hi1 Hi2].
    apply lookup_seqZ in Hi1 as [-> _]. split; [lia|]. by rewrite Z.add_0_l, Nat2Z.id.
  - intros [Ho Hc]. exists (Z.to_nat o). apply lookup_zip_Some. split; [|done].
    apply lookup_seqZ. apply lookup_lt_Some in Hc as Hlt. unfold size. lia.
Qed.

Lemma preference_slots_elem ctx set p s :
  s ∈ preference_slots ctx set p ↔
  ∃ o c, 0 <= o ∧ constraints set !! Z.to_nat o = Some c ∧ scope c = ConstraintScope.Preference ∧
    s = evaluate_preference (current ctx) p c o.
Proof.
  transitivity (∃ o c, (o, c) ∈ ordinals set ∧ scope c = ConstraintScope.Preference ∧
    s = evaluate_preference (current ctx) p c o).
  - unfold preference_slots. induction (ordinals set) as [|[o c] os IH]; cbn [map concat]; [set_solver|].
    rewrite elem_of_app, IH. set_unfold. destruct (eeqb (scope c) _) eqn:E; cbn [negb].
    + apply eeqb_eq in E. rewrite list_elem_of_singleton. naive_solver.
    + apply eeqb_neq in E. rewrite elem_of_nil. naive_solver.
  - setoid_rewrite ordinals_lookup. naive_solver.
Qed.

(** The preference vector of an admissible record. It holds one slot for each
    preference of the set, with the identity, kind, rank and weight of the
    constraint at its ordinal, sorted by rank and then by ordinal; a slot is
    satisfied exactly when the path does what the preference asks. *)
Theorem evaluate_candidate_preferences ctx set limits p r :
  ctx_set ctx = Some set → ctx_limits ctx = Some limits → usable_limits limits →
  admits ctx set limits p → evaluate_candidate ctx p = Success r →
  StronglySorted (λ a b, slot_cmp a b <= 0) (preferences r) ∧
  (∀ s, s ∈ preferences r → ∃ c, constraints set !! Z.to_nat (slot_ordinal s) = Some c ∧
     scope c = ConstraintScope.Preference ∧ slot_constraint s = id c ∧ slot_kind s = kind c ∧
     rank s = preference_rank c ∧ weight s = preference_weight c ∧
     (satisfied s = true ↔ satisfies (current ctx) p c)) ∧
  (∀ o c, constraints set !! o = Some c → scope c = ConstraintScope.Preference →
     ∃ s, s ∈ preferences r ∧ slot_ordinal s = Z.of_nat o) ∧
  size (preferences r) =
    size (List.filter (λ c, eeqb (scope c) ConstraintScope.Preference) (constraints set)).
Proof.
  intros Hs Hl Hu Ha. unfold evaluate_candidate. rewrite Hs, Hl.
  destruct (usable_limits_facts _ Hu) as [-> _]. intros [= <-].
  destruct Ha as [Hset Hwf]. assert (admits ctx set limits p) as Ha by (by split).
  apply no_reason_admits in Ha as [Hg Hm].
  destruct (run_stages_spec ctx set limits p) as (_ & _ & _ & H). cbv zeta in H.
  destruct (H Hg Hm) as (_ & _ & Hp). unfold record_of. cbn [preferences]. rewrite Hp. clear H Hp.
  destruct (verify_canonical_facts _ _ Hset) as (_ & _ & _ & Hc & _). rewrite Forall_forall in Hc.
  split_and!.
  - apply (stable_sort_sorted slot_less slot_cmp slot_less_cmp).
  - intros s. rewrite stable_sort_elem, preference_slots_elem. intros (o & c & Ho & Hlk & Hsc & ->).
    destruct (slot_fields (current ctx) p c o) as (F1 & F2 & F3 & F4 & F5).
    exists c. rewrite F3. split_and!; try done.
    destruct (Hc c) as [Hv Hcl]; [by eapply list_elem_of_lookup_2|].
    by apply (evaluate_preference_satisfied limits).
  - intros o c Hlk Hsc. exists (evaluate_preference (current ctx) p c (Z.of_nat o)).
    rewrite stable_sort_elem, preference_slots_elem. split.
    + exists (Z.of_nat o), c. rewrite Nat2Z.id. split_and!; [lia|done..].
    + apply slot_fields.
  - unfold size. rewrite stable_sort_length. unfold preference_slots, ordinals, size.
    generalize 0. generalize (constraints set). clear. intros cs.
    induction cs as [|c cs IH]; intros z; [done|]. cbn [length].
    rewrite Nat2Z.inj_succ, seqZ_cons by lia. rewrite Z.pred_succ. cbn [zip zip_with map concat List.filter].
    destruct (eeqb (scope c) _); cbn [negb app]; [|apply IH]. cbn [length]. specialize (IH (Z.succ z)). lia.
Qed.

(** ** Witnesses *)

(** The sample set, finalised and activated. *)
Definition active_set : ConstraintSet :=
  let s := canonical_form sample_set in
  mkSet (cs_id s) (cs_generation s) ConstraintSetState.Active (name s) (constraints s)
    (requirements s) (ranking s) (cs_digest s) (declared_tick s).

Definition sample_context : EvaluationContext :=
  mkContext (Some active_set) sample_requirements 1 (Some default_limits) 9
    (mkProvenance 1 2 3 4 5) 1 true.

Lemma default_limits_usable : usable_limits default_limits.
Proof. split; [reflexivity|]. cbn. lia. Qed.

Lemma evaluate_candidate_admissible_witness :
  ∃ r, evaluate_candidate sample_context (sample_candidate 1 7) = Success r ∧
    outcome r = Outcome.AdmissibleWithPreferences ∧
    admits sample_context active_set default_limits (sample_candidate 1 7).
Proof.
  destruct (evaluate_candidate_admissible sample_context active_set default_limits
    (sample_candidate 1 7) eq_refl eq_refl default_limits_usable) as (r & Hr & Ha & _).
  assert (match evaluate_candidate sample_context (sample_candidate 1 7) with
          | Success r => eeqb (outcome r) Outcome.AdmissibleWithPreferences
          | _ => false end = true) as Ho by (vm_compute; reflexivity).
  exists r. rewrite Hr in Ho. apply eeqb_eq in Ho. split; [exact Hr|]. split; [exact Ho|].
  apply Ha. rewrite Ho. reflexivity.
Defined.

(** The sample context after the topology and the capabilities advanced. *)
Definition stale_context : EvaluationContext :=
  mkContext (Some active_set) (mkRequirements 2 1 2 1 1 1 1 1000) 1 (Some default_limits) 9
    (mkProvenance 1 2 3 4 5) 1 true.

Lemma evaluate_candidate_explanation_witness :
  ∃ r collected, evaluate_candidate stale_context (sample_candidate 1 7) = Success r ∧
    primary_reason r = ReasonCode.StaleTopologyEvidence ∧ size (reasons r) = 2 ∧
    reasons r ⊆+ collected ∧
    collected `sublist_of` reasons_found stale_context active_set default_limits (sample_candidate 1 7).
Proof.
  destruct (evaluate_candidate stale_context (sample_candidate 1 7)) as [r|] eqn:E;
    [|vm_compute in E; discriminate E].
  destruct (evaluate_candidate_explanation stale_context active_set default_limits
    (sample_candidate 1 7) r eq_refl eq_refl default_limits_usable E)
    as (collected & (H1 & _ & _) & (H2 & _) & _).
  exists r, collected. split; [reflexivity|].
  assert (match evaluate_candidate stale_context (sample_candidate 1 7) with
          | Success r => reason_code_eqb (primary_reason r) ReasonCode.StaleTopologyEvidence &&
                         (size (reasons r) =? 2)
          | _ => false end = true) as Ho by (vm_compute; reflexivity).
  rewrite E in Ho. apply andb_true_iff in Ho as [Ho1 Ho2].
  split; [|split; [lia|split; [exact H2|exact H1]]].
  unfold reason_code_eqb in Ho1. destruct (primary_reason r) eqn:Er; try discriminate Ho1;
    [reflexivity|]. exfalso. clear - E Er.
  assert (match evaluate_candidate stale_context (sample_candidate 1 7) with
          | Success r => match primary_reason r with ReasonCode.Raw _ => false | _ => true end
          | _ => true end = true) as Hr by (vm_compute; reflexivity).
  rewrite E, Er in Hr. discriminate Hr.
Defined.

(** The sample context over the suspended set. *)
Definition suspended_set : ConstraintSet :=
  mkSet (cs_id active_set) (cs_generation active_set) ConstraintSetState.Suspended (name active_set)
    (constraints active_set) (requirements active_set) (ranking active_set) (cs_digest active_set)
    (declared_tick active_set).
Definition suspended_context : EvaluationContext :=
  mkContext (Some suspended_set) sample_requirements 1 (Some default_limits) 9
    (mkProvenance 1 2 3 4 5) 1 true.

Lemma evaluate_candidate_precedence_witness :
  ∃ r, evaluate_candidate suspended_context (sample_candidate 1 7) = Success r ∧
    primary_reason r = ReasonCode.ConstraintSetSuspended.
Proof.
  destruct (evaluate_candidate suspended_context (sample_candidate 1 7)) as [r|] eqn:E;
    [|vm_compute in E; discriminate E].
  destruct (evaluate_candidate_precedence suspended_context suspended_set default_limits
    (sample_candidate 1 7) r eq_refl eq_refl default_limits_usable ltac:(vm_compute; discriminate) E)
    as (_ & _ & H & _).
  exists r. split; [reflexivity|]. apply H.
  - split; [vm_compute; reflexivity|]. apply validate_candidate_wf. vm_compute. reflexivity.
  - left. reflexivity.
  - intros [Hs _]. discriminate Hs.
Defined.

Lemma evaluate_candidate_preferences_witness :
  ∃ r, evaluate_candidate sample_context (sample_candidate 1 7) = Success r ∧
    size (preferences r) = 1 ∧ StronglySorted (λ a b, slot_cmp a b <= 0) (preferences r).
Proof.
  assert (admits sample_context active_set default_limits (sample_candidate 1 7)) as Ha.
  { apply no_reason_admits. split; vm_compute; reflexivity. }
  destruct (evaluate_candidate sample_context (sample_candidate 1 7)) as [r|] eqn:E;
    [|vm_compute in E; discriminate E].
  destruct (evaluate_candidate_preferences sample_context active_set default_limits
    (sample_candidate 1 7) r eq_refl eq_refl default_limits_usable Ha E) as (H1 & _ & _ & H4).
  exists r. split; [reflexivity|]. split; [rewrite H4; vm_compute; reflexivity|exact H1].
Defined.
