(* ===== verification/BatchCorrect.v ===== *)
(** The correctness of [evaluate_batch]: which populations are rejected, what the
    records of the others are, when the batch has an admissible candidate, which
    reason it reports otherwise, and that the order of the population is not
    observable. *)

From Stdlib Require Import ZArith Lia Bool Strings.Byte.
From stdpp Require Import base list numbers strings gmap sets sorting.
From S2P Require Import Prelude Base Codec Digest Lifecycle Constraint Candidate.
From S2P Require Import Evaluation Ordering ConstraintSet Evaluator EvaluatorSpec EvaluatorCorrect.

Open Scope string_scope.
Open Scope list_scope.
Open Scope Z_scope.

(** ** The canonical population *)

Definition path_cmp (a b : CandidatePath) : Z := cmp_step (path a) (path b) 0.

#[export] Instance path_cmp_order : CmpOrder path_cmp.
Proof. unfold path_cmp. refine (cmp_step_order path _ _). Qed.

Lemma candidate_canonical_less_cmp a b : candidate_canonical_less a b = (path_cmp a b <? 0).
Proof. unfold candidate_canonical_less, path_cmp, cmp_step. ifs_lia. Qed.

Lemma path_cmp_le a b : path_cmp a b <= 0 ↔ path a <= path b.
Proof. unfold path_cmp, cmp_step. ifs_lia. Qed.

Notation by_path := (StronglySorted (λ a b, path a <= path b)).

Lemma canonical_order_sorted ps : by_path (stable_sort candidate_canonical_less ps).
Proof.
  pose proof (stable_sort_sorted candidate_canonical_less path_cmp candidate_canonical_less_cmp ps) as H.
  induction H as [|p l _ IH Hp]; constructor; [done|]. eapply Forall_impl; [exact Hp|].
  intros q. apply path_cmp_le.
Qed.

(** One identity, one content. *)
Definition consistent (ps : list CandidatePath) : Prop :=
  ∀ a b, a ∈ ps → b ∈ ps → path a = path b → candidate_digest a = candidate_digest b.

(** The neighbours the loop compares are enough: no conflict is missed. *)
Lemma conflicting_duplicate_spec ps :
  by_path ps → conflicting_duplicate ps = false ↔ consistent ps.
Proof.
  induction ps as [|a [|b ps] IH]; intros Hs.
  - split; [|done]. intros _ x y Hx. by apply elem_of_nil in Hx.
  - split; [|done]. intros _ x y ->%list_elem_of_singleton ->%list_elem_of_singleton. done.
  - apply StronglySorted_inv in Hs as [Hs Ha]. rewrite Forall_forall in Ha.
    cbn [conflicting_duplicate]. rewrite orb_false_iff, andb_false_iff, negb_false_iff, Z.eqb_neq,
      digest_eqb_eq. fold (conflicting_duplicate (b :: ps)). rewrite (IH Hs). clear IH. split.
    + intros [Hab Hc]. assert (∀ x, x ∈ b :: ps → path a = path x → candidate_digest a = candidate_digest x) as Hx.
      { intros x Hin E. apply StronglySorted_inv in Hs as [_ Hb]. rewrite Forall_forall in Hb.
        assert (path b = path x) as Ebx.
        { apply elem_of_cons in Hin as [->|Hin]; [done|].
          pose proof (Ha b (list_elem_of_here b ps)). pose proof (Hb x Hin). cbv beta in *. lia. }
        destruct Hab as [Hab|Hab]; [congruence|]. rewrite Hab. apply Hc; [|done|done].
        apply list_elem_of_here. }
      intros x y Hx' Hy' E. apply elem_of_cons in Hx' as [->|Hx']; apply elem_of_cons in Hy' as [->|Hy'];
        [done|by apply Hx|symmetry; by apply Hx|by apply Hc].
    + intros Hc. split.
      * destruct (decide (path a = path b)) as [E|E]; [right|by left].
        apply Hc; [apply list_elem_of_here|apply list_elem_of_further, list_elem_of_here|done].
      * intros x y Hx Hy E. apply Hc; [by apply list_elem_of_further..|done].
Qed.

Lemma consistent_perm ps qs : ps ≡ₚ qs → consistent ps → consistent qs.
Proof. intros Hp Hc a b Ha Hb. apply Hc; by rewrite Hp. Qed.

(** [back] is the path of the last candidate kept. *)
Definition after_back (back : option CandidatePath) (p : CandidatePath) : Prop :=
  match back with Some b => path b <= path p | None => True end.

Lemma first_of_each_spec ps : ∀ back,
  by_path ps → Forall (after_back back) ps →
  let kept := first_of_each back ps in
  StronglySorted (λ a b, path a < path b) kept ∧
  (∀ p, p ∈ kept → p ∈ ps ∧ ∀ b, back = Some b → path b < path p) ∧
  (∀ p, p ∈ ps → (∃ b, back = Some b ∧ path b = path p) ∨ ∃ k, k ∈ kept ∧ path k = path p).
Proof.
  cbv zeta. induction ps as [|p ps IH]; intros back Hs Hb; cbn [first_of_each].
  { split_and!; [constructor|set_solver|set_solver]. }
  apply StronglySorted_inv in Hs as [Hs Hp]. apply Forall_cons in Hb as [Hbp Hb].
  destruct (match back with Some b => path b =? path p | None => false end) eqn:E.
  - destruct back as [b|]; [|done]. apply Z.eqb_eq in E.
    destruct (IH (Some b) Hs Hb) as (H1 & H2 & H3). split_and!; [done| |].
    + intros q Hq. destruct (H2 q Hq) as [Hq1 Hq2]. split; [by apply list_elem_of_further|done].
    + intros q [->|Hq]%elem_of_cons; [left; by exists b|by apply H3].
  - assert (Forall (after_back (Some p)) ps) as Hb' by done.
    assert (∀ b, back = Some b → path b < path p) as Hlt.
    { intros b ->. simpl in *. lia. }
    destruct (IH (Some p) Hs Hb') as (H1 & H2 & H3). split_and!.
    + constructor; [done|]. apply Forall_forall. intros q Hq. by apply (H2 q Hq).
    + intros q [->|Hq]%elem_of_cons; [split; [apply list_elem_of_here|done]|].
      destruct (H2 q Hq) as [Hq1 Hq2]. split; [by apply list_elem_of_further|].
      intros b Hbk. specialize (Hlt b Hbk). specialize (Hq2 p eq_refl). lia.
    + intros q [->|Hq]%elem_of_cons; [right; exists p; split; [apply list_elem_of_here|done]|].
      destruct (H3 q Hq) as [(b & [= <-] & Eb)|(k & Hk & Ek)]; right.
      * exists p. split; [apply list_elem_of_here|done].
      * exists k. split; [by apply list_elem_of_further|done].
Qed.

Lemma canonical_population_spec ps :
  StronglySorted (λ a b, path a < path b) (canonical_population ps) ∧
  (∀ p, p ∈ canonical_population ps → p ∈ ps) ∧
  (∀ p, p ∈ ps → ∃ k, k ∈ canonical_population ps ∧ path k = path p).
Proof.
  destruct (first_of_each_spec (stable_sort candidate_canonical_less ps) None) as (H1 & H2 & H3).
  { apply canonical_order_sorted. }
  { apply Forall_forall. done. }
  split_and!; [exact H1| |].
  - intros p [Hp _]%H2. by apply stable_sort_elem in Hp.
  - intros p Hp. apply (stable_sort_elem candidate_canonical_less) in Hp.
    destruct (H3 p Hp) as [(b & Hb & _)|Hk]; [done|exact Hk].
Qed.

(** ** The records *)

Lemma evaluate_each_spec ctx set limits ps :
  ctx_set ctx = Some set → ctx_limits ctx = Some limits → usable_limits limits →
  ∃ rs, evaluate_each ctx ps = Success rs ∧
    Forall2 (λ p r, evaluate_candidate ctx p = Success r ∧ rec_path r = path p) ps rs.
Proof.
  intros Hs Hl Hu. induction ps as [|p ps (rs & Hrs & Hf)]; cbn [evaluate_each].
  { exists []. by split; constructor. }
  assert (∃ r, evaluate_candidate ctx p = Success r ∧ rec_path r = path p) as (r & Hr & Hp).
  { unfold evaluate_candidate. rewrite Hs, Hl. destruct (usable_limits_facts _ Hu) as [-> _].
    eexists. split; [reflexivity|]. unfold record_of. by cbn [rec_path]. }
  exists (r :: rs). rewrite Hr, Hrs. split; [done|]. by constructor.
Qed.

(** [primary] is one of the records', and the least by class, then by code. *)
Definition primary_key (x : ReasonCode.t) : Z * Z := (code (reason_class_of x), ReasonCode.to_code x).
Definition worse_eq (x y : ReasonCode.t) : Prop :=
  code (reason_class_of x) < code (reason_class_of y) ∨
  code (reason_class_of x) = code (reason_class_of y) ∧ ReasonCode.to_code x <= ReasonCode.to_code y.

Lemma worse_primary_spec rs : ∀ primary,
  Forall (λ r, primary_reason r ≠ ReasonCode.None ∧ named (primary_reason r)) rs →
  let best := fold_left worse_primary rs primary in
  (best = primary ∨ ∃ r, r ∈ rs ∧ best = primary_reason r) ∧ worse_eq best primary ∧
  ∀ r, r ∈ rs → worse_eq best (primary_reason r).
Proof.
  cbv zeta. induction rs as [|r rs IH]; intros primary Hn; cbn [fold_left].
  { split_and!; [by left|right; split; lia|set_solver]. }
  apply Forall_cons in Hn as [[Hr Hnr] Hn].
  assert ((worse_primary primary r = primary ∨ worse_primary primary r = primary_reason r) ∧
    worse_eq (worse_primary primary r) primary ∧
    worse_eq (worse_primary primary r) (primary_reason r)) as (Hcase & H1 & H2).
  { unfold worse_primary, worse_eq. cbv zeta.
    assert (reason_code_eqb (primary_reason r) ReasonCode.None = false) as ->.
    { apply not_true_iff_false. intros E%Z.eqb_eq. unfold named in Hnr. by rewrite <- Hnr, E in Hr. }
    cbn [negb andb]. set (cp := code (reason_class_of primary)).
    set (cr := code (reason_class_of (primary_reason r))).
    destruct (cr <? cp) eqn:E1; [|destruct (_ && _) eqn:E2]; fold cp cr;
      split_and!; auto; bool_hyps; try lia. }
  destruct (IH (worse_primary primary r) Hn) as (I1 & I2 & I3). clear IH.
  assert (∀ x y z, worse_eq x y → worse_eq y z → worse_eq x z) as Htrans
    by (unfold worse_eq; intros; lia).
  split_and!.
  - destruct I1 as [->|(x & Hx & ->)].
    + destruct Hcase as [->| ->]; [by left|right; exists r; split; [apply list_elem_of_here|done]].
    + right. exists x. split; [by apply list_elem_of_further|done].
  - by eapply Htrans.
  - intros x [->|Hx]%elem_of_cons; [by eapply Htrans|by apply I3].
Qed.

(** A record that is not admissible names its reason. *)
Lemma failed_record_primary ctx set limits p r :
  ctx_set ctx = Some set → ctx_limits ctx = Some limits → usable_limits limits →
  evaluate_candidate ctx p = Success r → is_admissible (outcome r) = false →
  primary_reason r ≠ ReasonCode.None ∧ named (primary_reason r).
Proof.
  intros Hs Hl Hu. unfold evaluate_candidate. rewrite Hs, Hl.
  destruct (usable_limits_facts _ Hu) as [-> _]. intros [= <-] Ho.
  destruct (run_stages_reasons ctx set limits p) as [_ Hr].
  destruct (record_outcome ctx set limits p _ Hu Hr) as [_ H2]. cbv zeta in H2.
  destruct (decide (st_reasons (run_stages ctx set limits p) = [])) as [E|E].
  - destruct (H2 E) as (_ & _ & H). rewrite H in Ho. by destruct (empty _).
  - destruct (record_primary ctx set limits p _ Hu Hr E) as (_ & w & Hw & ->).
    rewrite Forall_forall in Hr. by destruct (Hr _ Hw) as (? & ? & _).
Qed.

Lemma order_admissible_empty rs cs policy :
  size rs = size cs →
  order_admissible rs cs policy = [] ↔ ∀ r, r ∈ rs → is_admissible (outcome r) = false.
Proof.
  intros Hs. unfold order_admissible. rewrite Hs, Z.eqb_refl. cbn [negb].
  assert (∀ i, collect_admissible i rs = [] ↔ ∀ r, r ∈ rs → is_admissible (outcome r) = false) as Hc.
  { clear Hs. induction rs as [|r rs IH]; intros i; cbn [collect_admissible]; [set_solver|].
    destruct (is_admissible (outcome r)) eqn:E.
    - split; [done|]. intros H. rewrite (H r (list_elem_of_here r rs)) in E. done.
    - rewrite IH. set_unfold. naive_solver. }
  rewrite <- (Hc 0%nat). split; intros E.
  - apply nil_length_inv. by rewrite <- (stable_sort_length (ranked_less rs cs policy)), E.
  - by rewrite E.
Qed.

(** ** The batch *)

(** What both limits on the population allow. *)
Definition fits_population (limits : Limits) (ps : list CandidatePath) : Prop :=
  size ps <= max_candidates_per_evaluation limits ∧ size ps <= max_batch_size limits.

Lemma evaluate_batch_eq ctx set limits ps :
  ctx_set ctx = Some set → ctx_limits ctx = Some limits → usable_limits limits →
  fits_population limits ps → consistent ps →
  ∃ rs, Forall2 (λ p r, evaluate_candidate ctx p = Success r ∧ rec_path r = path p)
          (canonical_population ps) rs ∧
    let order := order_admissible rs (canonical_population ps) (ranking set) in
    let admissible := negb (empty order) in
    evaluate_batch ctx ps = Success (mkBatch (cs_id set) (cs_generation set) (ctx_generation ctx)
      (if admissible then BatchOutcome.AdmissibleCandidatesAvailable
       else BatchOutcome.NoAdmissibleCandidate)
      admissible rs order
      (if negb admissible && negb (empty rs) then batch_primary rs else ReasonCode.None)).
Proof.
  intros Hs Hl Hu [Hf1 Hf2] Hc.
  destruct (evaluate_each_spec ctx set limits (canonical_population ps) Hs Hl Hu) as (rs & He & Hrs).
  exists rs. split; [done|]. cbv zeta. unfold evaluate_batch. rewrite Hs, Hl. cbv zeta.
  apply Z.ltb_ge in Hf1 as ->. apply Z.ltb_ge in Hf2 as ->.
  assert (conflicting_duplicate (stable_sort candidate_canonical_less ps) = false) as ->.
  { apply conflicting_duplicate_spec; [apply canonical_order_sorted|].
    eapply consistent_perm; [|exact Hc]. symmetry. apply stable_sort_perm. }
  fold (canonical_population ps). by rewrite He.
Qed.

(** Which populations are rejected: those larger than either bound and those
    that give one path identity two contents, with the reason and without a
    record. A batch never fails on the candidates it is given. *)
Theorem evaluate_batch_rejects ctx set limits ps :
  ctx_set ctx = Some set → ctx_limits ctx = Some limits → usable_limits limits →
  ∃ b, evaluate_batch ctx ps = Success b ∧
    (batch_outcome b = BatchOutcome.BatchRejected ↔ ¬ (fits_population limits ps ∧ consistent ps)) ∧
    (batch_outcome b = BatchOutcome.BatchRejected →
       records b = [] ∧ admissible_order b = [] ∧ has_admissible b = false ∧
       primary_batch_reason b =
         if max_candidates_per_evaluation limits <? size ps then ReasonCode.TooManyCandidates
         else if max_batch_size limits <? size ps then ReasonCode.BatchTooLarge
         else ReasonCode.MalformedCandidate).
Proof.
  intros Hs Hl Hu.
  assert (consistent ps ↔ conflicting_duplicate (stable_sort candidate_canonical_less ps) = false) as Hc.
  { rewrite conflicting_duplicate_spec by apply canonical_order_sorted.
    split; apply consistent_perm; [symmetry|]; apply stable_sort_perm. }
  assert (fits_population limits ps ∧ consistent ps ↔
    ((max_candidates_per_evaluation limits <? size ps) = false ∧
     (max_batch_size limits <? size ps) = false) ∧
    conflicting_duplicate (stable_sort candidate_canonical_less ps) = false) as Hacc.
  { unfold fits_population. by rewrite Hc, !Z.ltb_ge. }
  setoid_rewrite Hacc. clear Hc Hacc.
  unfold evaluate_batch. rewrite Hs, Hl. cbv zeta.
  destruct (_ <? size ps) eqn:E1.
  { eexists. split; [reflexivity|]. cbn. naive_solver. }
  destruct (max_batch_size limits <? size ps) eqn:E2.
  { eexists. split; [reflexivity|]. cbn. naive_solver. }
  destruct (conflicting_duplicate _) eqn:E3.
  { eexists. split; [reflexivity|]. cbn. naive_solver. }
  destruct (evaluate_each_spec ctx set limits (canonical_population ps) Hs Hl Hu) as (rs & He & _).
  fold (canonical_population ps). rewrite He. eexists. split; [reflexivity|]. cbn [batch_outcome].
  destruct (negb (empty _)); split; naive_solver.
Qed.

(** C30: What an accepted batch holds: one record for each path identity of the
    population, in the order of the identities, each the evaluation of a candidate
    of the population under that identity. It has an admissible candidate exactly
    when one of the records is admissible; otherwise, unless it is empty, it
    reports the least primary reason of its records by class and then by code. *)
Theorem evaluate_batch_correct ctx set limits ps :
  ctx_set ctx = Some set → ctx_limits ctx = Some limits → usable_limits limits →
  fits_population limits ps → consistent ps →
  ∃ b, evaluate_batch ctx ps = Success b ∧
    StronglySorted (λ a b, rec_path a < rec_path b) (records b) ∧
    (∀ x, (∃ r, r ∈ records b ∧ rec_path r = x) ↔ ∃ p, p ∈ ps ∧ path p = x) ∧
    (∀ r, r ∈ records b → ∃ p, p ∈ ps ∧ path p = rec_path r ∧ evaluate_candidate ctx p = Success r) ∧
    (has_admissible b = true ↔ ∃ r, r ∈ records b ∧ is_admissible (outcome r) = true) ∧
    (batch_outcome b = BatchOutcome.AdmissibleCandidatesAvailable ↔ has_admissible b = true) ∧
    (has_admissible b = false → records b ≠ [] →
       (∃ r, r ∈ records b ∧ primary_batch_reason b = primary_reason r) ∧
       ∀ r, r ∈ records b → worse_eq (primary_batch_reason b) (primary_reason r)).
Proof.
  intros Hs Hl Hu Hf Hc.
  destruct (evaluate_batch_eq ctx set limits ps Hs Hl Hu Hf Hc) as (rs & Hrs & He).
  cbv zeta in He. eexists. split; [exact He|]. clear He. cbn [records has_admissible batch_outcome primary_batch_reason].
  destruct (canonical_population_spec ps) as (Hsort & Hsub & Hall).
  assert (size rs = size (canonical_population ps)) as Hsize
    by (apply Forall2_length in Hrs; unfold size; lia).
  pose proof (order_admissible_empty rs (canonical_population ps) (ranking set) Hsize) as Hempty.
  set (order := order_admissible rs (canonical_population ps) (ranking set)) in *.
  assert (negb (empty order) = false ↔ ∀ r, r ∈ rs → is_admissible (outcome r) = false) as Hadm.
  { rewrite <- Hempty. by destruct order. }
  assert (∀ r, r ∈ rs → ∃ p, p ∈ canonical_population ps ∧ evaluate_candidate ctx p = Success r ∧
    rec_path r = path p) as Hback.
  { intros r Hr. apply list_elem_of_lookup in Hr as [i Hi].
    destruct (Forall2_lookup_r _ _ _ _ _ Hrs Hi) as (p & Hp & H1 & H2). exists p.
    split; [by eapply list_elem_of_lookup_2|done]. }
  split_and!.
  - clear - Hsort Hrs. induction Hrs as [|p r ps' rs' [_ Hp] Hrs IH]; [constructor|].
    apply StronglySorted_inv in Hsort as [Hsort Hx]. constructor; [by apply IH|].
    rewrite Forall_forall in Hx. apply Forall_forall. intros r' Hr'.
    apply list_elem_of_lookup in Hr' as [i Hi].
    destruct (Forall2_lookup_r _ _ _ _ _ Hrs Hi) as (q & Hq & _ & ->). rewrite Hp.
    apply Hx. by eapply list_elem_of_lookup_2.
  - intros x. split.
    + intros (r & Hr & <-). destruct (Hback r Hr) as (p & Hp & _ & ->). exists p. auto.
    + intros (p & Hp & <-). destruct (Hall p Hp) as (k & Hk & <-).
      apply list_elem_of_lookup in Hk as [i Hi].
      destruct (Forall2_lookup_l _ _ _ _ _ Hrs Hi) as (r & Hr & _ & E). exists r.
      split; [by eapply list_elem_of_lookup_2|done].
  - intros r Hr. destruct (Hback r Hr) as (p & Hp & He & Er). exists p. auto.
  - split.
    + intros Ha. destruct (existsb (λ r, is_admissible (outcome r)) rs) eqn:E.
      * by apply list_existsb_Exists in E.
      * pose proof (proj1 (list_existsb_false _ rs) E) as E'. cbv beta in E'.
        apply Hadm in E'. congruence.
    + intros (r & Hr & Ho). apply not_false_iff_true. intros E.
      rewrite Hadm in E. rewrite (E r Hr) in Ho. done.
  - by destruct (negb (empty order)).
  - intros Ha Hne. rewrite Ha. cbn [negb andb].
    assert (Forall (λ r, primary_reason r ≠ ReasonCode.None ∧ named (primary_reason r)) rs) as Hn.
    { apply Forall_forall. intros r Hr. destruct (Hback r Hr) as (p & _ & He & _).
      apply (failed_record_primary ctx set limits p); try done. by apply Hadm. }
    destruct rs as [|r rs]; [done|]. cbn [empty negb]. unfold batch_primary.
    destruct (worse_primary_spec (r :: rs) (primary_reason r) Hn) as (H1 & _ & H3).
    split; [|exact H3]. destruct H1 as [->|H1]; [exists r; split; [apply list_elem_of_here|done]|done].
Qed.

(** The order of the population is not observable, as long as one path
    identity stands for one candidate: a permuted population gives the same
    batch. *)
Theorem evaluate_batch_order ctx ps qs :
  ps ≡ₚ qs → (∀ a b, a ∈ ps → b ∈ ps → path a = path b → a = b) →
  evaluate_batch ctx ps = evaluate_batch ctx qs.
Proof.
  intros Hp Hu.
  assert (stable_sort candidate_canonical_less ps = stable_sort candidate_canonical_less qs) as E.
  { apply (stable_sort_perm_eq candidate_canonical_less path_cmp candidate_canonical_less_cmp); [|done].
    intros a b Ha Hb H. apply Hu; [done|done|]. revert H. unfold path_cmp, cmp_step. ifs_lia. }
  assert (size ps = size qs) as Es by (unfold size; by rewrite Hp).
  unfold evaluate_batch. by rewrite E, Es.
Qed.

(** ** Witnesses *)

(** Two paths, one of them given twice. *)
Definition sample_population : list CandidatePath :=
  [sample_candidate 2 7; sample_candidate 1 7; sample_candidate 2 7].

Lemma sample_population_functional a b :
  a ∈ sample_population → b ∈ sample_population → path a = path b → a = b.
Proof.
  unfold sample_population. rewrite !elem_of_cons, !elem_of_nil.
  intros Ha Hb. destruct Ha as [Ha|[Ha|[Ha|Ha]]], Hb as [Hb|[Hb|[Hb|Hb]]]; try done; subst a b; intros E.
  all: try reflexivity; vm_compute in E; discriminate E.
Qed.

Lemma sample_population_consistent : consistent sample_population.
Proof. intros a b Ha Hb E. by rewrite (sample_population_functional a b Ha Hb E). Qed.

Lemma evaluate_batch_rejects_witness :
  ∃ b, evaluate_batch sample_context [sample_candidate 1 7; reversed_candidate (sample_candidate 1 7)]
      = Success b ∧
    batch_outcome b = BatchOutcome.BatchRejected ∧ records b = [].
Proof.
  destruct (evaluate_batch_rejects sample_context active_set default_limits
    [sample_candidate 1 7; reversed_candidate (sample_candidate 1 7)] eq_refl eq_refl
    default_limits_usable) as (b & Hb & _ & H).
  assert (match evaluate_batch sample_context
            [sample_candidate 1 7; reversed_candidate (sample_candidate 1 7)] with
          | Success b => eeqb (batch_outcome b) BatchOutcome.BatchRejected
          | _ => false end = true) as Ho by (vm_compute; reflexivity).
  exists b. rewrite Hb in Ho. apply eeqb_eq in Ho.
  split; [exact Hb|]. split; [exact Ho|]. apply (H Ho).
Defined.

Lemma evaluate_batch_correct_witness :
  ∃ b, evaluate_batch sample_context sample_population = Success b ∧
    map rec_path (records b) = [1; 2] ∧
    StronglySorted (λ a b, rec_path a < rec_path b) (records b).
Proof.
  destruct (evaluate_batch_correct sample_context active_set default_limits sample_population
    eq_refl eq_refl default_limits_usable ltac:(split; vm_compute; discriminate)
    sample_population_consistent) as (b & Hb & Hs & _).
  assert (match evaluate_batch sample_context sample_population with
          | Success b => map rec_path (records b) | _ => [] end = [1; 2]) as Ho
    by (vm_compute; reflexivity).
  exists b. rewrite Hb in Ho. split; [exact Hb|]. split; [exact Ho|exact Hs].
Defined.

Lemma evaluate_batch_order_witness :
  evaluate_batch sample_context sample_population =
  evaluate_batch sample_context (rev sample_population).
Proof.
  apply evaluate_batch_order; [apply Permutation_rev|exact sample_population_functional].
Defined.
