(* ===== verification/Authority.v ===== *)
(** Distributed authority, [authority.hpp] and [authority.cpp]: coordinator epochs,
    live publisher registrations, permanent fencing of worker boots and the
    de-duplication of mutation attempts.

    An operation of [AuthorityRegistry] that changes it returns its status and the
    registry it leaves; the status and the change are those of the same call, so a
    failing call that has already changed something is visible. *)

From Stdlib Require Import ZArith Lia Bool.
From stdpp Require Import base list numbers strings gmap sets.
From S2P Require Import Prelude Base Codec Digest.

Open Scope string_scope.
Open Scope list_scope.
Open Scope Z_scope.

(** ** Scopes *)

Module AuthorityScope.
Inductive t :=
  | None | PublishConstraintSet | PublishEvaluation | ApplyLifecycle | ReadDefinitions
  | ReadResults | RegisterPublisher | AdministerFencing.

(** One bit each. *)
Definition to_code (x : t) : Z :=
  match x with
  | None => 0 | PublishConstraintSet => Z.shiftl 1 0 | PublishEvaluation => Z.shiftl 1 1
  | ApplyLifecycle => Z.shiftl 1 2 | ReadDefinitions => Z.shiftl 1 3
  | ReadResults => Z.shiftl 1 4 | RegisterPublisher => Z.shiftl 1 5
  | AdministerFencing => Z.shiftl 1 6
  end.

Definition to_string (x : t) : string :=
  match x with
  | None => "None" | PublishConstraintSet => "PublishConstraintSet"
  | PublishEvaluation => "PublishEvaluation" | ApplyLifecycle => "ApplyLifecycle"
  | ReadDefinitions => "ReadDefinitions" | ReadResults => "ReadResults"
  | RegisterPublisher => "RegisterPublisher" | AdministerFencing => "AdministerFencing"
  end.
End AuthorityScope.

Abbreviation AuthorityScopeMask := Z.

Definition scope_bit (scope : AuthorityScope.t) : AuthorityScopeMask := AuthorityScope.to_code scope.
Definition has_scope (mask : AuthorityScopeMask) (scope : AuthorityScope.t) : bool :=
  negb (Z.land mask (scope_bit scope) =? 0).

Definition described_scopes : list AuthorityScope.t :=
  [AuthorityScope.PublishConstraintSet; AuthorityScope.PublishEvaluation;
   AuthorityScope.ApplyLifecycle; AuthorityScope.ReadDefinitions; AuthorityScope.ReadResults;
   AuthorityScope.RegisterPublisher; AuthorityScope.AdministerFencing].

Definition describe_scopes (mask : AuthorityScopeMask) : string :=
  let text :=
    fold_left (λ text scope,
      if has_scope mask scope then
        (if String.eqb text "" then text else (text ++ "|")%string) ++ AuthorityScope.to_string scope
      else text)%string described_scopes ""%string in
  if String.eqb text "" then "None"%string else text.

(** ** Records *)

Record AuthorityContext := mkAuthority {
  ac_epoch : Z;
  ac_publisher : Z;
  ac_worker_boot : Z;
  ac_attempt : Z;
  ac_request : Z;
  ac_session : Z;
  ac_scopes : AuthorityScopeMask
}.

Module ReplayVerdict.
Inductive t := Fresh | ExactReplay | Conflict.
End ReplayVerdict.

Record MutationAttemptRecord := mkAttempt {
  at_attempt : Z;
  at_payload : Digest256;
  at_tick : Z
}.

Record FencedBootRecord := mkFenced {
  fb_boot : Z;
  fb_fenced_at : Z;
  fb_tick : Z
}.

Record PublisherRegistration := mkRegistration {
  rg_publisher : Z;
  rg_boot : Z;
  rg_session : Z;
  rg_scopes : AuthorityScopeMask;
  rg_tick : Z;
  rg_registered_at : Z;
  rg_live : bool
}.

(** [registration.live = live]. *)
Definition with_live (live : bool) (r : PublisherRegistration) : PublisherRegistration :=
  mkRegistration (rg_publisher r) (rg_boot r) (rg_session r) (rg_scopes r) (rg_tick r)
    (rg_registered_at r) live.

Record AuthorityRegistry := mkRegistry {
  reg_epoch : Z;
  fenced : gmap Z FencedBootRecord;
  registrations : list PublisherRegistration;
  attempts : list MutationAttemptRecord
}.

Definition empty_registry : AuthorityRegistry := mkRegistry 0 ∅ [] [].

Definition with_registrations (g : AuthorityRegistry) (rs : list PublisherRegistration)
    : AuthorityRegistry :=
  mkRegistry (reg_epoch g) (fenced g) rs (attempts g).

(** ** Operations *)

Definition establish_epoch (epoch : Z) (g : AuthorityRegistry) : Status * AuthorityRegistry :=
  if negb (is_valid epoch) then
    (Failure ErrorCode.InvalidArgument "coordinator epoch must be non-zero", g)
  else if is_valid (reg_epoch g) && (epoch <=? reg_epoch g) then
    (Failure ErrorCode.EpochMismatch
       "coordinator epoch must advance strictly; equal or lower epochs are refused", g)
  else (success, mkRegistry epoch (fenced g) (registrations g) (attempts g)).

Definition is_boot_fenced (boot : Z) (g : AuthorityRegistry) : bool :=
  bool_decide (is_Some (fenced g !! boot)).

(** The registrations of a boot lose their life. *)
Definition kill_boot (boot : Z) (rs : list PublisherRegistration) : list PublisherRegistration :=
  map (λ r, if rg_boot r =? boot then with_live false r else r) rs.

Definition fence_boot (boot at_epoch tick : Z) (limits : Limits) (g : AuthorityRegistry)
    : Status * AuthorityRegistry :=
  if negb (is_valid boot) then
    (Failure ErrorCode.InvalidArgument "worker boot identity must be non-zero", g)
  else if is_boot_fenced boot g then (success, g)
  else if max_fenced_boots limits <=? Z.of_nat (base.size (fenced g)) then
    (Failure ErrorCode.ResourceLimit "fenced boot registry is full", g)
  else
    (success, mkRegistry (reg_epoch g) (<[boot := mkFenced boot at_epoch tick]> (fenced g))
       (kill_boot boot (registrations g)) (attempts g)).

Definition live_registrations (g : AuthorityRegistry) : list PublisherRegistration :=
  List.filter rg_live (registrations g).
Definition live_publishers (g : AuthorityRegistry) : Z := size (live_registrations g).

(** [std::set<SessionId>] of the live registrations. *)
Definition session_set (g : AuthorityRegistry) : gset Z :=
  list_to_set (map rg_session (live_registrations g)).
Definition live_sessions (g : AuthorityRegistry) : Z := Z.of_nat (base.size (session_set g)).

(** The loop that fences the previous boot of a publisher, index by index: fencing
    changes the registrations the loop runs over. *)
Fixpoint reincarnate (registration : PublisherRegistration) (limits : Limits) (indices : list nat)
    (g : AuthorityRegistry) : Status * AuthorityRegistry :=
  match indices with
  | [] => (success, g)
  | index :: rest =>
      match registrations g !! index with
      | Some existing =>
          if (rg_publisher existing =? rg_publisher registration) && rg_live existing then
            if rg_boot existing =? rg_boot registration then
              (Failure ErrorCode.DuplicateIdentity
                 "the same publisher and boot is already registered", g)
            else
              let '(status, g) :=
                fence_boot (rg_boot existing) (reg_epoch g) (rg_tick registration) limits g in
              if negb (ok status) then (status, g)
              else
                reincarnate registration limits rest
                  (with_registrations g (alter (with_live false) index (registrations g)))
          else reincarnate registration limits rest g
      | None => reincarnate registration limits rest g
      end
  end.

Definition register_publisher (registration : PublisherRegistration) (limits : Limits)
    (g : AuthorityRegistry) : Status * AuthorityRegistry :=
  if negb (is_valid (rg_publisher registration)) then
    (Failure ErrorCode.InvalidArgument "publisher identity must be non-zero", g)
  else if negb (is_valid (rg_boot registration)) then
    (Failure ErrorCode.InvalidArgument "worker boot identity must be non-zero", g)
  else if negb (is_valid (rg_session registration)) then
    (Failure ErrorCode.InvalidArgument "session identity must be non-zero", g)
  else if negb (is_valid (rg_registered_at registration)) ||
          negb (rg_registered_at registration =? reg_epoch g) then
    (Failure ErrorCode.EpochMismatch
       "publisher registration must bind the current coordinator epoch", g)
  else if is_boot_fenced (rg_boot registration) g then
    (Failure ErrorCode.Fenced "worker boot is permanently fenced and can never register again", g)
  else if rg_scopes registration =? 0 then
    (Failure ErrorCode.Unauthorized
       "default deny: a registration without any scope authorizes nothing", g)
  else
    let '(status, g) := reincarnate registration limits (seq 0 (length (registrations g))) g in
    if negb (ok status) then (status, g)
    else if max_publishers limits <=? live_publishers g then
      (Failure ErrorCode.ResourceLimit "publisher limit reached", g)
    else if bool_decide (rg_session registration ∉ session_set g) &&
            (max_sessions limits <=? live_sessions g) then
      (Failure ErrorCode.ResourceLimit "session limit reached", g)
    else (success, with_registrations g (registrations g ++ [registration])).

Definition drop_session (session : Z) (g : AuthorityRegistry) : Status * AuthorityRegistry :=
  let hit r := rg_live r && (rg_session r =? session) in
  let g' :=
    with_registrations g (map (λ r, if hit r then with_live false r else r) (registrations g)) in
  if existsb hit (registrations g) then (success, g')
  else (Failure ErrorCode.NotFound "session is not live", g').

Definition boot_of_session (session : Z) (g : AuthorityRegistry) : option Z :=
  option_map rg_boot
    (List.find (λ r, rg_live r && (rg_session r =? session)) (registrations g)).

(** The loop of [authorize] over the registrations. *)
Fixpoint authorize_in (context : AuthorityContext) (required : AuthorityScopeMask)
    (rs : list PublisherRegistration) : Status :=
  match rs with
  | [] =>
      Failure ErrorCode.Unauthorized
        "default deny: publisher is not registered live in this session"
  | r :: rest =>
      if negb (rg_live r) || negb (rg_publisher r =? ac_publisher context) then
        authorize_in context required rest
      else if negb (rg_session r =? ac_session context) then authorize_in context required rest
      else if negb (rg_boot r =? ac_worker_boot context) then
        Failure ErrorCode.Fenced
          "publisher is live under a different worker boot; this boot is stale"
      else if negb (required =? 0) && negb (Z.land (rg_scopes r) required =? required) then
        Failure ErrorCode.Unauthorized
          ("scope not authorized; held scopes are " ++ describe_scopes (rg_scopes r))%string
      else success
  end.

Definition authorize (context : AuthorityContext) (required : AuthorityScopeMask)
    (g : AuthorityRegistry) : Status :=
  if negb (is_valid (ac_epoch context)) || negb (is_valid (ac_publisher context)) ||
     negb (is_valid (ac_worker_boot context)) || negb (is_valid (ac_attempt context)) ||
     negb (is_valid (ac_session context)) then
    Failure ErrorCode.Unauthorized
      "default deny: an incomplete authority context authorizes nothing"
  else if negb (is_valid (reg_epoch g)) || negb (ac_epoch context =? reg_epoch g) then
    Failure ErrorCode.EpochMismatch
      "authority context carries a stale or future coordinator epoch"
  else if is_boot_fenced (ac_worker_boot context) g then
    Failure ErrorCode.Fenced "worker boot is fenced"
  else authorize_in context required (registrations g).

Definition find_attempt (attempt : Z) (g : AuthorityRegistry) : option MutationAttemptRecord :=
  List.find (λ r, at_attempt r =? attempt) (attempts g).

Definition with_attempts (g : AuthorityRegistry) (rs : list MutationAttemptRecord)
    : AuthorityRegistry :=
  mkRegistry (reg_epoch g) (fenced g) (registrations g) rs.

Definition observe_attempt (attempt : Z) (payload : Digest256) (tick : Z) (limits : Limits)
    (g : AuthorityRegistry) : Result ReplayVerdict.t * AuthorityRegistry :=
  if negb (is_valid attempt) then
    (Failure ErrorCode.InvalidArgument "mutation attempt identity must be non-zero", g)
  else
    match find_attempt attempt g with
    | Some record =>
        (Success (if digest_eqb (at_payload record) payload then ReplayVerdict.ExactReplay
                  else ReplayVerdict.Conflict), g)
    | None =>
        let window :=
          if max_mutation_attempts limits <=? size (attempts g) then drop 1 (attempts g)
          else attempts g in
        (Success ReplayVerdict.Fresh, with_attempts g (window ++ [mkAttempt attempt payload tick]))
    end.

(** [emplace] keeps the first record of a boot. *)
Definition restore_durable_state (epoch : Z) (records : list FencedBootRecord) : AuthorityRegistry :=
  mkRegistry epoch
    (fold_left (λ m r,
       if is_valid (fb_boot r) then
         match m !! fb_boot r with Some _ => m | None => <[fb_boot r := r]> m end
       else m) records ∅)
    [] [].

Definition clear_live_authority (g : AuthorityRegistry) : AuthorityRegistry :=
  mkRegistry (reg_epoch g) (fenced g) [] [].

(** The boot identity of this process: the salt is drawn from the random device
    and the clock, the counter counts the calls. *)
Definition golden : Z := 0x9e3779b97f4a7c15.
Definition process_salt (drawn : Z) : Z := if drawn =? 0 then golden else drawn.
Definition fresh_worker_boot (salt counter : Z) : Z * Z :=
  let sequence := wrap 64 (counter + 1) in
  let value := Z.lxor salt (wrap 64 (sequence * golden)) in
  (if value =? 0 then 1 else value, sequence).

(** ** Encoding *)

Definition encode_fenced_boot (r : FencedBootRecord) : writing :=
  put_u64 (fb_boot r) ;;> put_u64 (fb_fenced_at r) ;;> put_u64 (fb_tick r).

Definition decode_fenced_boot : reader FencedBootRecord :=
  boot ← u64; fenced_at ← u64; tick ← u64;
  _ ← fail_if ((boot =? 0) || (negb (fenced_at =? 0) && negb (is_representable fenced_at)));
  mret (mkFenced boot fenced_at tick).

Definition encode_mutation_attempt (r : MutationAttemptRecord) : writing :=
  put_u64 (at_attempt r) ;;> put_raw (at_payload r) ;;> put_u64 (at_tick r).

Definition decode_mutation_attempt : reader MutationAttemptRecord :=
  attempt ← u64; payload ← raw kSize; tick ← u64;
  _ ← fail_if (attempt =? 0);
  mret (mkAttempt attempt payload tick).

(** ** Lemmas: registrations that only lose life *)

Lemma ok_success_iff (s : Status) : ok s = true ↔ s = success.
Proof. destruct s as [[]|]; cbn; split; done. Qed.

(** Every live registration of [rs'] is one of [rs], at the same place. *)
Definition live_sub (rs rs' : list PublisherRegistration) : Prop :=
  length rs' = length rs ∧ ∀ i r, rs' !! i = Some r → rg_live r = true → rs !! i = Some r.

Lemma live_sub_refl rs : live_sub rs rs.
Proof. done. Qed.

Lemma live_sub_trans rs1 rs2 rs3 : live_sub rs1 rs2 → live_sub rs2 rs3 → live_sub rs1 rs3.
Proof. intros [E1 H1] [E2 H2]. split; [congruence|auto]. Qed.

Lemma live_sub_map (hit : PublisherRegistration → bool) rs :
  live_sub rs (map (λ r, if hit r then with_live false r else r) rs).
Proof.
  split; [apply length_map|]. intros i r Hi Hl. rewrite list_lookup_fmap in Hi.
  destruct (rs !! i) as [x|]; cbn in Hi; [|done]. injection Hi as <-.
  by destruct (hit x).
Qed.

Lemma live_sub_alter i rs : live_sub rs (alter (with_live false) i rs).
Proof.
  split; [apply length_alter|]. intros j r Hj Hl. destruct (decide (i = j)) as [->|Hij].
  - rewrite list_lookup_alter_eq in Hj. destruct (rs !! j); cbn in Hj; [|done].
    injection Hj as <-. done.
  - by rewrite list_lookup_alter_ne in Hj.
Qed.

Lemma live_sub_elem rs rs' r : live_sub rs rs' → r ∈ rs' → rg_live r = true → r ∈ rs.
Proof.
  intros [_ H] [i Hi]%list_elem_of_lookup Hl. apply list_elem_of_lookup. exists i. by apply H.
Qed.

Lemma live_sub_filter rs rs' :
  live_sub rs rs' → List.filter rg_live rs' `sublist_of` List.filter rg_live rs.
Proof.
  revert rs. induction rs' as [|r' rs' IH]; intros [|r rs] [E H]; try done; cbn [List.filter].
  assert (live_sub rs rs') as Hs.
  { split; [by injection E|]. intros i x. apply (H (S i)). }
  specialize (IH rs Hs). destruct (rg_live r') eqn:Hl'.
  - specialize (H 0%nat r' eq_refl Hl'). injection H as ->. rewrite Hl'. by constructor.
  - destruct (rg_live r); [by constructor|done].
Qed.

(** ** The invariant of a registry *)

Section authority.
Context (limits : Limits).

(** No live publisher runs on a fenced boot. *)
Definition unfenced_live (g : AuthorityRegistry) : Prop :=
  ∀ r, r ∈ registrations g → rg_live r = true → fenced g !! rg_boot r = None.

Definition fenced_ok (g : AuthorityRegistry) : Prop :=
  map_Forall (λ b r, fb_boot r = b ∧ b ≠ 0) (fenced g) ∧
  Z.of_nat (base.size (fenced g)) <= max_fenced_boots limits.

Record registry_ok (g : AuthorityRegistry) : Prop := {
  ro_unfenced : unfenced_live g;
  ro_fenced : fenced_ok g;
  ro_unique : ∀ i j r s, registrations g !! i = Some r → registrations g !! j = Some s →
    rg_live r = true → rg_live s = true → rg_publisher r = rg_publisher s → i = j;
  ro_complete : ∀ r, r ∈ registrations g → rg_live r = true →
    rg_publisher r ≠ 0 ∧ rg_boot r ≠ 0 ∧ rg_session r ≠ 0 ∧ rg_scopes r ≠ 0 ∧
    rg_registered_at r ≠ 0 ∧ rg_registered_at r <= reg_epoch g;
  ro_publishers : live_publishers g <= max_publishers limits;
  ro_sessions : live_sessions g <= max_sessions limits;
  ro_attempts : NoDup (map at_attempt (attempts g)) ∧
    size (attempts g) <= max_mutation_attempts limits
}.

(** [g'] has the epoch and the attempts of [g], its live registrations are among
    those of [g], and every fenced boot of [g] is fenced under the same record. *)
Record narrows (g g' : AuthorityRegistry) : Prop := {
  na_epoch : reg_epoch g' = reg_epoch g;
  na_attempts : attempts g' = attempts g;
  na_live : live_sub (registrations g) (registrations g');
  na_fenced : fenced g ⊆ fenced g'
}.

Lemma narrows_refl g : narrows g g.
Proof. split; [done|done|apply live_sub_refl|done]. Qed.

Lemma narrows_trans g1 g2 g3 : narrows g1 g2 → narrows g2 g3 → narrows g1 g3.
Proof.
  intros [E1 A1 L1 F1] [E2 A2 L2 F2].
  split; [congruence|congruence|by eapply live_sub_trans|by etrans].
Qed.

Lemma narrows_ok g g' :
  narrows g g' → registry_ok g → unfenced_live g' → fenced_ok g' → registry_ok g'.
Proof.
  intros [E A L _] [_ _ U C P S At] Hu Hf. pose proof (live_sub_filter _ _ L) as Hsub.
  split; try done.
  - intros i j r s Hi Hj Hr Hs Hp. eapply (U i j r s); try done; by apply L.
  - intros r Hr Hl. rewrite E. apply C; [by eapply live_sub_elem|done].
  - unfold live_publishers, live_registrations, size in *. apply sublist_length in Hsub. lia.
  - unfold live_sessions, session_set, live_registrations in *.
    assert (base.size (list_to_set (C := gset Z) (map rg_session (List.filter rg_live (registrations g')))) <=
      base.size (list_to_set (C := gset Z) (map rg_session (List.filter rg_live (registrations g)))))%nat as Hle.
    { apply subseteq_size. intros x. rewrite !elem_of_list_to_set, !list_elem_of_fmap.
      intros (y & -> & Hy). exists y. split; [done|]. by eapply elem_of_sublist. }
    lia.
  - by rewrite A.
Qed.

Lemma is_boot_fenced_true b g : is_boot_fenced b g = true ↔ is_Some (fenced g !! b).
Proof. unfold is_boot_fenced. apply bool_decide_eq_true. Qed.

Lemma is_boot_fenced_mono b g g' :
  fenced g ⊆ fenced g' → is_boot_fenced b g = true → is_boot_fenced b g' = true.
Proof. rewrite !is_boot_fenced_true. intros Hs [r Hr]. exists r. by eapply lookup_weaken. Qed.

Lemma fence_boot_spec b at_epoch tick g st g' :
  fence_boot b at_epoch tick limits g = (st, g') →
  narrows g g' ∧ (unfenced_live g → unfenced_live g') ∧ (fenced_ok g → fenced_ok g') ∧
  (ok st = true ↔ is_boot_fenced b g' = true ∧ b ≠ 0).
Proof.
  unfold fence_boot. destruct (is_valid b) eqn:Hb; cbn [negb].
  2: { apply is_valid_false in Hb. intros [= <- <-]. cbn [ok]. split_and!; [apply narrows_refl|done|done|naive_solver]. }
  apply is_valid_true in Hb. destruct (is_boot_fenced b g) eqn:Hf.
  { intros [= <- <-]. cbn [ok success]. split_and!; [apply narrows_refl|done|done|done]. }
  assert (fenced g !! b = None) as Hn.
  { apply eq_None_not_Some. rewrite <- is_boot_fenced_true. congruence. }
  destruct (_ <=? _) eqn:Hm; intros [= <- <-]; cbn [ok success].
  { split_and!; [apply narrows_refl|done|done|]. rewrite Hf. naive_solver. }
  apply Z.leb_gt in Hm. split_and!.
  - split; cbn; [done|done|apply live_sub_map|by apply insert_subseteq].
  - intros Hu r Hr Hl. cbn in *.
    pose proof (live_sub_elem _ _ _ (live_sub_map _ _) Hr Hl) as Hin.
    apply lookup_insert_None. split; [by apply Hu|]. intros E.
    unfold kill_boot in Hr. apply list_elem_of_fmap in Hr as (x & Ex & _).
    destruct (rg_boot x =? b) eqn:Eb; subst r; [done|lia].
  - intros [Hk Hs]. split; cbn.
    + apply map_Forall_insert_2; [done|done].
    + rewrite map_size_insert_None by done. lia.
  - rewrite is_boot_fenced_true. cbn. rewrite lookup_insert_eq. naive_solver.
Qed.

Definition matches_publisher (registration r : PublisherRegistration) : Prop :=
  rg_publisher r = rg_publisher registration ∧ rg_live r = true.

Lemma narrows_alter g i :
  narrows g (with_registrations g (alter (with_live false) i (registrations g))).
Proof. split; cbn; [done|done|apply live_sub_alter|done]. Qed.

Lemma narrows_unfenced g g' :
  narrows g g' → fenced g' = fenced g → unfenced_live g → unfenced_live g'.
Proof. intros [_ _ L _] E Hu r Hr Hl. rewrite E. apply Hu; [by eapply live_sub_elem|done]. Qed.

(** Fencing a boot takes the life of its own registrations only. *)
Lemma fence_boot_keeps b at_epoch tick g st g' i r :
  fence_boot b at_epoch tick limits g = (st, g') →
  registrations g !! i = Some r → rg_boot r = b ∨ registrations g' !! i = Some r.
Proof.
  unfold fence_boot. destruct (negb _); [intros [= <- <-]; auto|].
  destruct (is_boot_fenced b g); [intros [= <- <-]; auto|].
  destruct (_ <=? _); [intros [= <- <-]; auto|]. intros [= <- <-] Hi. cbn.
  destruct (rg_boot r =? b) eqn:E; [left; lia|right].
  unfold kill_boot. rewrite list_lookup_fmap, Hi. cbn. by rewrite E.
Qed.

(** The loop fences the boot of every live registration of the publisher at the
    places it visits, and leaves none of them live, or stops. *)
Lemma reincarnate_spec registration l : ∀ g st g',
  reincarnate registration limits l g = (st, g') →
  narrows g g' ∧ (unfenced_live g → unfenced_live g') ∧ (fenced_ok g → fenced_ok g') ∧
  (ok st = true → ∀ i, i ∈ l →
     (∀ r, registrations g !! i = Some r → matches_publisher registration r →
        is_boot_fenced (rg_boot r) g' = true) ∧
     (∀ r, registrations g' !! i = Some r → ¬ matches_publisher registration r)).
Proof.
  induction l as [|i l IH]; intros g st g'; cbn [reincarnate].
  { intros [= <- <-]. split_and!; [apply narrows_refl|done|done|set_solver]. }
  assert (reincarnate registration limits l g = (st, g') →
    (∀ r, registrations g !! i = Some r → ¬ matches_publisher registration r) →
    narrows g g' ∧ (unfenced_live g → unfenced_live g') ∧ (fenced_ok g → fenced_ok g') ∧
    (ok st = true → ∀ i', i' ∈ i :: l →
       (∀ r, registrations g !! i' = Some r → matches_publisher registration r →
          is_boot_fenced (rg_boot r) g' = true) ∧
       (∀ r, registrations g' !! i' = Some r → ¬ matches_publisher registration r))) as Hskip.
  { intros Hr Hno. destruct (IH g st g' Hr) as (H1 & H2 & H3 & H4). split_and!; try done.
    intros Hok i' [->|Hi']%elem_of_cons; [|by apply H4]. split; [by intros r Hi ?%Hno|].
    intros r Hi [Hp Hl]. apply (Hno r); [by apply (na_live _ _ H1)|done]. }
  destruct (registrations g !! i) as [existing|] eqn:Hi; [|intros; by apply Hskip].
  destruct (_ && _) eqn:Hm.
  2: { intros Hr. apply Hskip; [done|]. intros r [= <-] [Hp Hl]. rewrite Hp, Hl, Z.eqb_refl in Hm. done. }
  clear Hskip. apply andb_true_iff in Hm as [Hp%Z.eqb_eq Hl].
  destruct (rg_boot existing =? _) eqn:Hb.
  { intros [= <- <-]. split_and!; [apply narrows_refl|done|done|done]. }
  destruct (fence_boot _ _ _ limits g) as [st1 g1] eqn:Hf.
  destruct (fence_boot_spec _ _ _ _ _ _ Hf) as (F1 & F2 & F3 & F4).
  pose proof (λ j r, fence_boot_keeps _ _ _ _ _ _ j r Hf) as Hkeep.
  destruct (ok st1) eqn:Hst; cbn [negb].
  2: { intros [= <- <-]. split_and!; [done..|]. congruence. }
  destruct (proj1 F4 eq_refl) as [Hfenced _].
  set (g2 := with_registrations g1 _). intros Hr.
  assert (narrows g1 g2) as Hna by apply narrows_alter.
  destruct (IH g2 st g' Hr) as (H1 & H2 & H3 & H4).
  assert (fenced g1 ⊆ fenced g') as Hmono by (etrans; [apply (na_fenced _ _ Hna)|apply (na_fenced _ _ H1)]).
  split_and!.
  - eapply narrows_trans; [exact F1|]. by eapply narrows_trans.
  - intros Hu. apply H2. by apply (narrows_unfenced g1 g2 Hna eq_refl), F2.
  - intros Ho. by apply H3, F3.
  - intros Hok j Hj.
    assert (∀ r, registrations g' !! j = Some r → j = i → ¬ matches_publisher registration r) as Hdead.
    { intros r Hr' -> [_ Hlr]. apply (na_live _ _ H1) in Hr'; [|done]. subst g2. cbn in Hr'.
      rewrite list_lookup_alter_eq in Hr'. destruct (registrations g1 !! i); cbn in Hr'; [|done].
      by injection Hr' as <-. }
    destruct (decide (j = i)) as [->|Hne].
    + split; [|intros r Hr'; by apply Hdead]. intros r Hr' _. rewrite Hi in Hr'. injection Hr' as <-.
      by eapply is_boot_fenced_mono.
    + assert (j ∈ l) as Hjl by set_solver. destruct (H4 Hok j Hjl) as [H5 H6]. split; [|exact H6].
      intros r Hr' Hm. destruct (Hkeep j r Hr') as [->|Hr1].
      { by eapply is_boot_fenced_mono. }
      apply H5; [|done]. subst g2. cbn. by rewrite list_lookup_alter_ne.
Qed.

(** No boot but those of other registrations of the publisher is fenced. *)
Lemma reincarnate_new_boot registration l : ∀ g st g',
  reincarnate registration limits l g = (st, g') →
  is_boot_fenced (rg_boot registration) g = false →
  is_boot_fenced (rg_boot registration) g' = false.
Proof.
  induction l as [|i l IH]; intros g st g'; cbn [reincarnate]; [by intros [= <- <-]|].
  destruct (registrations g !! i) as [existing|]; [|apply IH].
  destruct (_ && _); [|apply IH]. destruct (_ =? rg_boot registration) eqn:Hb; [by intros [= <- <-]|].
  destruct (fence_boot _ _ _ limits g) as [st1 g1] eqn:Hf. intros Hr Hn.
  assert (is_boot_fenced (rg_boot registration) g1 = false) as Hn1.
  { unfold fence_boot in Hf. destruct (negb _); [by injection Hf as <- <-|].
    destruct (is_boot_fenced (rg_boot existing) g); [by injection Hf as <- <-|].
    destruct (_ <=? _); injection Hf as <- <-; [done|]. unfold is_boot_fenced in *. cbn.
    rewrite lookup_insert_ne by lia. done. }
  destruct (negb (ok st1)); [by injection Hr as <- <-|]. by apply (IH _ _ _ Hr).
Qed.

(** ** Lemmas: every operation keeps the invariant *)

Lemma session_set_app g r :
  session_set (with_registrations g (registrations g ++ [r])) =
  if rg_live r then session_set g ∪ {[rg_session r]} else session_set g.
Proof.
  unfold session_set, live_registrations. cbn. rewrite List.filter_app, map_app, list_to_set_app_L.
  cbn [List.filter]. destruct (rg_live r); set_solver.
Qed.

(** What an accepted registration was checked for. *)
Lemma register_publisher_success r g g' :
  register_publisher r limits g = (success, g') →
  rg_publisher r ≠ 0 ∧ rg_boot r ≠ 0 ∧ rg_session r ≠ 0 ∧ rg_scopes r ≠ 0 ∧
  rg_registered_at r ≠ 0 ∧ rg_registered_at r = reg_epoch g ∧ is_boot_fenced (rg_boot r) g = false ∧
  ∃ g1, reincarnate r limits (seq 0 (length (registrations g))) g = (success, g1) ∧
    live_publishers g1 < max_publishers limits ∧
    (rg_session r ∈ session_set g1 ∨ live_sessions g1 < max_sessions limits) ∧
    g' = with_registrations g1 (registrations g1 ++ [r]).
Proof.
  unfold register_publisher.
  destruct (is_valid (rg_publisher r)) eqn:E1; [|done]. destruct (is_valid (rg_boot r)) eqn:E2; [|done].
  destruct (is_valid (rg_session r)) eqn:E3; [|done]. cbn [negb].
  destruct (is_valid (rg_registered_at r)) eqn:E4; [|done].
  destruct (rg_registered_at r =? reg_epoch g) eqn:E5; [|done]. cbn [negb orb].
  destruct (is_boot_fenced (rg_boot r) g) eqn:E6; [done|].
  destruct (rg_scopes r =? 0) eqn:E7; [done|].
  destruct (reincarnate _ _ _ g) as [st g1] eqn:Hr.
  destruct (ok st) eqn:Hok; cbn [negb]; [|intros [= -> ->]; done].
  apply ok_success_iff in Hok as ->.
  destruct (_ <=? live_publishers g1) eqn:E8; [done|]. destruct (_ && _) eqn:E9; [done|].
  intros [= <-]. apply is_valid_true in E1, E2, E3, E4. split_and!; try done; try lia.
  exists g1. split_and!; [done|lia| |done].
  destruct (decide (rg_session r ∈ session_set g1)) as [|Hn]; [by left|right].
  rewrite (bool_decide_eq_true_2 _ Hn) in E9. cbn in E9. lia.
Qed.

(** A refused registration has at most fenced the previous boots. *)
Lemma register_publisher_failure r g st g' :
  register_publisher r limits g = (st, g') → ok st = false →
  narrows g g' ∧ (unfenced_live g → unfenced_live g') ∧ (fenced_ok g → fenced_ok g').
Proof.
  assert (∀ st0 : Status, (st0, g) = (st, g') → ok st = false →
    narrows g g' ∧ (unfenced_live g → unfenced_live g') ∧ (fenced_ok g → fenced_ok g')) as Hsame.
  { intros st0 [= _ <-] _. split_and!; [apply narrows_refl|done|done]. }
  unfold register_publisher.
  destruct (negb (is_valid (rg_publisher r))); [apply Hsame|].
  destruct (negb (is_valid (rg_boot r))); [apply Hsame|].
  destruct (negb (is_valid (rg_session r))); [apply Hsame|]. destruct (_ || _); [apply Hsame|].
  destruct (is_boot_fenced (rg_boot r) g); [apply Hsame|]. destruct (_ =? 0); [apply Hsame|].
  destruct (reincarnate _ _ _ g) as [st1 g1] eqn:Hr.
  destruct (reincarnate_spec _ _ _ _ _ Hr) as (H1 & H2 & H3 & _).
  destruct (negb (ok st1)); [by intros [= <- <-] _|].
  destruct (_ <=? _); [by intros [= <- <-] _|]. destruct (_ && _); [by intros [= <- <-] _|].
  by intros [= <- <-].
Qed.

(** After an accepted registration, the publisher is live on its new boot only. *)
Lemma register_publisher_reincarnates r g g' :
  register_publisher r limits g = (success, g') →
  narrows g (with_registrations g' (take (length (registrations g)) (registrations g'))) ∧
  registrations g' = take (length (registrations g)) (registrations g') ++ [r] ∧
  (∀ x, x ∈ registrations g → matches_publisher r x → is_boot_fenced (rg_boot x) g' = true) ∧
  (∀ x, x ∈ registrations g' → matches_publisher r x → x = r).
Proof.
  intros (_ & _ & _ & _ & _ & _ & _ & g1 & Hr & _ & _ & ->)%register_publisher_success.
  destruct (reincarnate_spec _ _ _ _ _ Hr) as (H1 & _ & _ & H4). specialize (H4 eq_refl).
  pose proof (proj1 (na_live _ _ H1)) as Hlen.
  cbn [registrations with_registrations fenced]. rewrite <- Hlen, take_app_length. split_and!.
  - destruct H1. by split.
  - done.
  - intros x [i Hi]%list_elem_of_lookup Hm. apply lookup_lt_Some in Hi as Hlt.
    apply (H4 i); [apply elem_of_seq; lia|done|done].
  - intros x [Hx| ->%list_elem_of_singleton]%elem_of_app Hm; [|done].
    apply list_elem_of_lookup in Hx as [i Hi]. apply lookup_lt_Some in Hi as Hlt.
    destruct (proj2 (H4 i ltac:(apply elem_of_seq; lia)) x Hi Hm).
Qed.

Lemma register_publisher_ok r g st g' :
  register_publisher r limits g = (st, g') → registry_ok g → registry_ok g'.
Proof.
  intros Hreg Hok. destruct (ok st) eqn:Hst.
  2: { destruct (register_publisher_failure _ _ _ _ Hreg Hst) as (H1 & H2 & H3).
    apply (narrows_ok g); [done|done|apply H2, Hok|apply H3, Hok]. }
  apply ok_success_iff in Hst as ->.
  apply register_publisher_success in Hreg
    as (Hp & Hb & Hse & Hsc & Hat & He & Hnf & g1 & Hr & Hpub & Hses & ->).
  pose proof (reincarnate_new_boot _ _ _ _ _ Hr Hnf) as Hnf1.
  destruct (reincarnate_spec _ _ _ _ _ Hr) as (H1 & H2 & H3 & H4). specialize (H4 eq_refl).
  assert (registry_ok g1) as [U F Un C P S At].
  { apply (narrows_ok g); [done|done|apply H2, Hok|apply H3, Hok]. }
  assert (∀ i x, registrations g1 !! i = Some x → rg_live x = true → rg_publisher x ≠ rg_publisher r)
    as Hno.
  { intros i x Hi Hl E. apply lookup_lt_Some in Hi as Hlt. rewrite (proj1 (na_live _ _ H1)) in Hlt.
    destruct (proj2 (H4 i ltac:(apply elem_of_seq; lia)) x Hi). by split. }
  split; try done.
  - intros x [Hx| ->%list_elem_of_singleton]%elem_of_app Hl; [by apply U|]. cbn.
    apply eq_None_not_Some. rewrite <- is_boot_fenced_true. congruence.
  - intros i j x y Hi Hj Hx Hy Hpq. cbn in Hi, Hj.
    apply lookup_app_Some in Hi as [Hi|[Hi Hi']]; apply lookup_app_Some in Hj as [Hj|[Hj Hj']];
      try (apply list_lookup_singleton_Some in Hi' as [Hi' <-]);
      try (apply list_lookup_singleton_Some in Hj' as [Hj' <-]).
    + by apply (Un i j x y).
    + by destruct (Hno i x Hi Hx).
    + by destruct (Hno j y Hj Hy).
    + lia.
  - intros x [Hx| ->%list_elem_of_singleton]%elem_of_app Hl; [by apply C|]. cbn.
    rewrite (na_epoch _ _ H1). split_and!; try done. lia.
  - unfold live_publishers, live_registrations, size in *. cbn. rewrite List.filter_app, length_app.
    cbn [List.filter]. destruct (rg_live r); cbn [length]; lia.
  - unfold live_sessions in *. rewrite session_set_app. destruct (rg_live r); [|done].
    destruct (decide (rg_session r ∈ session_set g1)) as [Hin|Hin].
    + by replace (session_set g1 ∪ {[rg_session r]}) with (session_set g1) by set_solver.
    + destruct Hses as [|Hs]; [done|]. rewrite size_union, size_singleton by set_solver. lia.
Qed.

Lemma observe_attempt_ok a payload tick g res g' :
  1 <= max_mutation_attempts limits →
  observe_attempt a payload tick limits g = (res, g') → registry_ok g → registry_ok g'.
Proof.
  intros Hmax. unfold observe_attempt. destruct (negb _); [by intros [= _ <-]|].
  destruct (find_attempt a g) as [x|] eqn:Hf; [by intros [= _ <-]|].
  intros [= _ <-] [U F Un C P S [Hnd Hsz]]. split; try done. cbn.
  assert (a ∉ map at_attempt (attempts g)) as Hna.
  { intros (x & -> & Hx)%list_elem_of_fmap. unfold find_attempt in Hf.
    apply list_elem_of_In in Hx. pose proof (List.find_none _ _ Hf _ Hx) as E. cbv beta in E. lia. }
  rewrite map_app. destruct (_ <=? _) eqn:E.
  - apply Z.leb_le in E. destruct (attempts g) as [|y ys] eqn:Ey; [unfold size in *; simpl in *; lia|].
    cbn [drop]. rewrite drop_0. apply NoDup_cons in Hnd as [_ Hnd]. split.
    + apply NoDup_app. split_and!; [done| |repeat constructor; set_solver]. cbn. set_solver.
    + unfold size in *. rewrite length_app. simpl in *. lia.
  - apply Z.leb_gt in E. split.
    + apply NoDup_app. split_and!; [done| |repeat constructor; set_solver]. cbn. set_solver.
    + unfold size in *. rewrite length_app. simpl. lia.
Qed.

Lemma drop_session_narrows session g st g' :
  drop_session session g = (st, g') → narrows g g' ∧ fenced g' = fenced g.
Proof.
  unfold drop_session. destruct (existsb _ _); intros [= _ <-];
    (split; [split; cbn; [done|done|apply live_sub_map|done]|done]).
Qed.

Lemma establish_epoch_ok e g st g' :
  0 <= e → 0 <= reg_epoch g →
  establish_epoch e g = (st, g') → registry_ok g → registry_ok g'.
Proof.
  intros He Hg. unfold establish_epoch. destruct (negb _); [by intros [= _ <-]|].
  destruct (_ && _) eqn:E; [by intros [= _ <-]|]. intros [= _ <-] [U F Un C P S At].
  split; try done. intros r Hr Hl. destruct (C r Hr Hl) as (C1 & C2 & C3 & C4 & C5 & C6). cbn.
  split_and!; try done. apply andb_false_iff in E as [E|E]; [|lia].
  apply is_valid_false in E. lia.
Qed.

(** ** The life of a registry *)

(** One call on the registry, with arguments in the range of their fields. *)
Inductive registry_step : AuthorityRegistry → AuthorityRegistry → Prop :=
  | step_establish e g : 0 <= e → registry_step g (establish_epoch e g).2
  | step_register r g : registry_step g (register_publisher r limits g).2
  | step_drop session g : registry_step g (drop_session session g).2
  | step_fence b at_epoch tick g : registry_step g (fence_boot b at_epoch tick limits g).2
  | step_observe a payload tick g : registry_step g (observe_attempt a payload tick limits g).2
  | step_clear g : registry_step g (clear_live_authority g).

Lemma epoch_nonneg g g' : registry_step g g' → 0 <= reg_epoch g → 0 <= reg_epoch g'.
Proof.
  intros Hs Hg. destruct Hs as [e g He|r g|s g|b e t g|a p t g|g]; try done.
  - unfold establish_epoch. destruct (negb _); [done|]. by destruct (_ && _).
  - destruct (register_publisher r limits g) as [st g'] eqn:E. cbn.
    destruct (ok st) eqn:Hst.
    + apply ok_success_iff in Hst as ->. apply register_publisher_success in E
        as (_ & _ & _ & _ & _ & _ & _ & g1 & Hr & _ & _ & ->).
      destruct (reincarnate_spec _ _ _ _ _ Hr) as (H1 & _). cbn. by rewrite (na_epoch _ _ H1).
    + destruct (register_publisher_failure _ _ _ _ E Hst) as (H1 & _). by rewrite (na_epoch _ _ H1).
  - unfold drop_session. by destruct (existsb _ _).
  - destruct (fence_boot b e t limits g) as [st g'] eqn:E.
    destruct (fence_boot_spec _ _ _ _ _ _ E) as (H1 & _). cbn. by rewrite (na_epoch _ _ H1).
  - unfold observe_attempt. destruct (negb _); [done|]. by destruct (find_attempt a g).
Qed.

Lemma registry_step_ok g g' :
  1 <= max_mutation_attempts limits → 0 <= max_publishers limits → 0 <= max_sessions limits →
  0 <= reg_epoch g → registry_step g g' → registry_ok g → registry_ok g'.
Proof.
  intros Hmax Hmp Hms Hg Hs Hok. destruct Hs as [e g He|r g|s g|b e t g|a p t g|g].
  - eapply establish_epoch_ok; [exact He|exact Hg|apply surjective_pairing|done].
  - eapply register_publisher_ok; [apply surjective_pairing|done].
  - destruct (drop_session s g) as [st g'] eqn:E. destruct (drop_session_narrows _ _ _ _ E) as [H1 H2].
    apply (narrows_ok g); [done|done|by apply (narrows_unfenced g), Hok|].
    unfold fenced_ok. cbn. rewrite H2. apply Hok.
  - destruct (fence_boot b e t limits g) as [st g'] eqn:E.
    destruct (fence_boot_spec _ _ _ _ _ _ E) as (H1 & H2 & H3 & _).
    apply (narrows_ok g); [done|done|apply H2, Hok|apply H3, Hok].
  - eapply observe_attempt_ok; [done|apply surjective_pairing|done].
  - destruct Hok. split; try done; cbn.
    + intros r Hr. by apply elem_of_nil in Hr.
    + intros r Hr. by apply elem_of_nil in Hr.
    + split; [constructor|]. unfold size. simpl. lia.
Qed.
End authority.

(** ** What authorizes a call *)

(** The scopes held include those required. *)
Definition holds_scopes (held required : AuthorityScopeMask) : Prop :=
  ∀ i, 0 <= i → Z.testbit required i = true → Z.testbit held i = true.

Lemma holds_scopes_mask held required :
  (required =? 0) = true ∨ (Z.land held required =? required) = true ↔ holds_scopes held required.
Proof.
  rewrite !Z.eqb_eq. split.
  - intros [->|E] i Hi Hr; [by rewrite Z.bits_0 in Hr|].
    rewrite <- E, Z.land_spec in Hr. by apply andb_true_iff in Hr as [? _].
  - intros H. right. apply Z.bits_inj'. intros i Hi. rewrite Z.land_spec.
    specialize (H i Hi). destruct (Z.testbit required i); [by rewrite H|apply andb_false_r].
Qed.

(** The live registration a context speaks for. *)
Definition speaks_for (context : AuthorityContext) (r : PublisherRegistration) : Prop :=
  rg_live r = true ∧ rg_publisher r = ac_publisher context ∧ rg_session r = ac_session context ∧
  rg_boot r = ac_worker_boot context.

Lemma authorize_in_spec context required rs :
  (∀ i j r s, rs !! i = Some r → rs !! j = Some s → rg_live r = true → rg_live s = true →
     rg_publisher r = rg_publisher s → i = j) →
  ok (authorize_in context required rs) = true ↔
  ∃ r, r ∈ rs ∧ speaks_for context r ∧ holds_scopes (rg_scopes r) required.
Proof.
  induction rs as [|r rs IH]; intros U; cbn [authorize_in].
  { split; [done|]. intros (r & Hr & _). by apply elem_of_nil in Hr. }
  assert (∀ x, x ∈ rs → rg_live r = true → speaks_for context x → rg_publisher r ≠ ac_publisher context)
    as Hno.
  { intros x [j Hj]%list_elem_of_lookup Hl (Hx & Hp & _) E.
    by specialize (U 0%nat (S j) r x eq_refl Hj Hl Hx ltac:(congruence)). }
  assert (ok (authorize_in context required rs) = true ↔
    ∃ x, x ∈ rs ∧ speaks_for context x ∧ holds_scopes (rg_scopes x) required) as IH'.
  { apply IH. intros i j x y Hi Hj Hx Hy Hp. by injection (U (S i) (S j) x y Hi Hj Hx Hy Hp). }
  clear IH U.
  assert (¬ speaks_for context r → ok (authorize_in context required rs) = true ↔
    ∃ x, x ∈ r :: rs ∧ speaks_for context x ∧ holds_scopes (rg_scopes x) required) as Hskip.
  { intros Hn. rewrite IH'. set_unfold. naive_solver. }
  unfold speaks_for in Hskip. destruct (rg_live r) eqn:Hl; cbn [negb orb]; [|apply Hskip; naive_solver].
  destruct (rg_publisher r =? ac_publisher context) eqn:Hp; cbn [negb]; [|apply Hskip; lia].
  destruct (rg_session r =? ac_session context) eqn:Hs; cbn [negb]; [|apply Hskip; lia].
  assert (∀ x, x ∈ rs → ¬ speaks_for context x) as Hrest.
  { intros x Hx Hsp. apply (Hno x Hx eq_refl Hsp). lia. }
  destruct (rg_boot r =? ac_worker_boot context) eqn:Hb; cbn [negb].
  2: { split; [done|]. intros (x & [->|Hx]%elem_of_cons & Hsp & _); [|by destruct (Hrest x Hx)].
    destruct Hsp as (_ & _ & _ & Hsp). lia. }
  pose proof (holds_scopes_mask (rg_scopes r) required) as Hm.
  assert (speaks_for context r) as Hsp by (unfold speaks_for; split_and!; [done|lia..]).
  destruct (_ =? 0), (_ =? required); cbn [negb andb ok success].
  all: split; [intros Hok|intros (x & [->|Hx]%elem_of_cons & Hx' & Hh)];
    try (by destruct (Hrest x Hx)); try done.
  all: try (exists r; split_and!; [apply list_elem_of_here|done|apply Hm; auto]).
  apply Hm in Hh. by destruct Hh.
Qed.

Lemma authorized_iff limits g context required :
  registry_ok limits g →
  ok (authorize context required g) = true ↔
  ac_attempt context ≠ 0 ∧ ac_epoch context ≠ 0 ∧ ac_epoch context = reg_epoch g ∧
  ∃ r, r ∈ registrations g ∧ speaks_for context r ∧ holds_scopes (rg_scopes r) required.
Proof.
  intros Hok. unfold authorize. rewrite !ok_if, !orb_false_iff, !negb_false_iff, !is_valid_true.
  rewrite Z.eqb_eq. rewrite (authorize_in_spec _ _ _ (ro_unique _ _ Hok)). split.
  - intros (((((H1 & H2) & H3) & H4) & H5) & (H6 & H7) & Hf & H8). by split_and!.
  - intros (H1 & H2 & H3 & r & Hr & Hsp & Hh). pose proof Hsp as (Hl & Hp & Hs & Hb).
    destruct (ro_complete _ _ Hok r Hr Hl) as (C1 & C2 & C3 & _).
    pose proof (ro_unfenced _ _ Hok r Hr Hl) as Hu. rewrite Hb in Hu.
    split_and!; try congruence; [|by exists r].
    apply not_true_iff_false. rewrite is_boot_fenced_true, Hu. by intros [x Hx].
Qed.

(** Default deny. In a registry that satisfies the invariant, a context is
    authorized exactly when it is complete, carries the current epoch and speaks for
    a live registration — publisher, session and worker boot — that holds every
    scope required. *)
Theorem authorize_default_deny limits g context required :
  registry_ok limits g →
  ok (authorize context required g) = true ↔
  ac_attempt context ≠ 0 ∧ ac_epoch context ≠ 0 ∧ ac_epoch context = reg_epoch g ∧
  ∃ r, r ∈ registrations g ∧ speaks_for context r ∧ holds_scopes (rg_scopes r) required.
Proof. apply authorized_iff. Qed.

(** ** Restarts *)

Lemma restore_fenced_spec epoch rs b :
  is_boot_fenced b (restore_durable_state epoch rs) = true ↔
  b ≠ 0 ∧ ∃ r, r ∈ rs ∧ fb_boot r = b.
Proof.
  rewrite is_boot_fenced_true. unfold restore_durable_state. cbn [fenced].
  transitivity (is_Some ((∅ : gmap Z FencedBootRecord) !! b) ∨ b ≠ 0 ∧ ∃ r, r ∈ rs ∧ fb_boot r = b).
  2: { rewrite lookup_empty. split; [intros [[x [=]]|H]; exact H|auto]. }
  generalize (∅ : gmap Z FencedBootRecord).
  induction rs as [|r rs IH]; intros m; cbn [fold_left].
  { split; [auto|]. intros [H|(_ & r & Hr & _)]; [done|by apply elem_of_nil in Hr]. }
  rewrite IH. clear IH. destruct (is_valid (fb_boot r)) eqn:Hv.
  - apply is_valid_true in Hv. destruct (m !! fb_boot r) as [x|] eqn:Hm.
    + set_unfold. split; [naive_solver|]. intros [?|(Hb & y & [->|Hy] & <-)]; eauto 6.
    + destruct (decide (fb_boot r = b)) as [<-|Hne].
      * rewrite lookup_insert_eq. set_unfold. split; [naive_solver|]. intros _. left. by eexists.
      * rewrite lookup_insert_ne by done. set_unfold. naive_solver.
  - apply is_valid_false in Hv. set_unfold. naive_solver.
Qed.

(** The records restored, under their own boots, and no more than were given. *)
Lemma restore_fenced_boots epoch rs :
  map_Forall (λ b r, fb_boot r = b ∧ b ≠ 0) (fenced (restore_durable_state epoch rs)) ∧
  Z.of_nat (base.size (fenced (restore_durable_state epoch rs))) <= size rs.
Proof.
  unfold restore_durable_state. cbn [fenced].
  assert (∀ m : gmap Z FencedBootRecord, map_Forall (λ b r, fb_boot r = b ∧ b ≠ 0) m →
    let m' := fold_left (λ m r, if is_valid (fb_boot r) then
       match m !! fb_boot r with Some _ => m | None => <[fb_boot r := r]> m end else m) rs m in
    map_Forall (λ b r, fb_boot r = b ∧ b ≠ 0) m' ∧
    Z.of_nat (base.size m') <= Z.of_nat (base.size m) + size rs) as H.
  { clear. cbv zeta. unfold size. induction rs as [|r rs IH]; intros m Hm; cbn [fold_left length].
    { split; [done|lia]. }
    destruct (is_valid (fb_boot r)) eqn:Hv; [destruct (m !! fb_boot r) eqn:Hl|];
      [destruct (IH m Hm); split; [done|lia]| |destruct (IH m Hm); split; [done|lia]].
    destruct (IH (<[fb_boot r := r]> m)) as [H1 H2].
    - apply map_Forall_insert_2; [|done]. split; [done|by apply is_valid_true].
    - rewrite map_size_insert_None in H2 by done. split; [done|lia]. }
  destruct (H ∅) as [H1 H2]; [apply map_Forall_empty|]. split; [done|].
  rewrite map_size_empty in H2. lia.
Qed.

Lemma restore_fenced_ok limits epoch rs :
  size rs <= max_fenced_boots limits → fenced_ok limits (restore_durable_state epoch rs).
Proof.
  intros Hs. destruct (restore_fenced_boots epoch rs) as [H1 H2]. split; [done|lia].
Qed.

(** A registry without registrations and attempts. *)
Lemma bare_registry_ok limits epoch m :
  0 <= max_publishers limits → 0 <= max_sessions limits → 0 <= max_mutation_attempts limits →
  fenced_ok limits (mkRegistry epoch m [] []) → registry_ok limits (mkRegistry epoch m [] []).
Proof.
  intros Hmp Hms Hma Hf. split; cbn; try done; try (by intros r Hr'%elem_of_nil).
  split; [constructor|done].
Qed.

Lemma registry_steps_ok limits g0 g :
  1 <= max_mutation_attempts limits → 0 <= max_publishers limits → 0 <= max_sessions limits →
  rtc (registry_step limits) g0 g → registry_ok limits g0 ∧ 0 <= reg_epoch g0 →
  registry_ok limits g ∧ 0 <= reg_epoch g.
Proof.
  intros Hmax Hmp Hms Hsteps. induction Hsteps as [g0|g0 g1 g Hstep _ IH]; [done|].
  intros [Hok Hep]. apply IH. split; [by eapply registry_step_ok|by eapply epoch_nonneg].
Qed.

Lemma restored_ok limits epoch records :
  0 <= max_publishers limits → 0 <= max_sessions limits → 0 <= max_mutation_attempts limits →
  0 <= epoch → size records <= max_fenced_boots limits →
  registry_ok limits (restore_durable_state epoch records) ∧
  0 <= reg_epoch (restore_durable_state epoch records).
Proof.
  intros Hmp Hms Hma He Hr. split; [|done]. apply bare_registry_ok; [done..|].
  by apply restore_fenced_ok.
Qed.

(** The invariant of the registry holds in every state reachable from a
    restart by any sequence of calls: no live publisher runs on a fenced boot, a
    publisher is live at most once, live registrations are complete and bind an
    epoch not after the current one, and every collection is within its limit. *)
Theorem authority_invariant limits epoch records g :
  1 <= max_mutation_attempts limits → 0 <= max_publishers limits → 0 <= max_sessions limits →
  0 <= epoch → size records <= max_fenced_boots limits →
  rtc (registry_step limits) (restore_durable_state epoch records) g →
  registry_ok limits g ∧ 0 <= reg_epoch g.
Proof.
  intros Hmax Hmp Hms He Hr Hsteps. eapply registry_steps_ok; [done..|exact Hsteps|].
  apply restored_ok; lia.
Qed.

Lemma fenced_step limits g g' b :
  registry_step limits g g' → is_boot_fenced b g = true → is_boot_fenced b g' = true.
Proof.
  intros Hs. destruct Hs as [e g He|r g|s g|c e t g|a p t g|g]; try done.
  - unfold establish_epoch. destruct (negb _); [done|]. by destruct (_ && _).
  - destruct (register_publisher r limits g) as [st g'] eqn:E. cbn.
    apply is_boot_fenced_mono. destruct (ok st) eqn:Hst.
    + apply ok_success_iff in Hst as ->.
      apply (na_fenced _ _ (proj1 (register_publisher_reincarnates _ _ _ _ E))).
    + apply (na_fenced _ _ (proj1 (register_publisher_failure _ _ _ _ _ E Hst))).
  - unfold drop_session. by destruct (existsb _ _).
  - destruct (fence_boot c e t limits g) as [st g'] eqn:E. apply is_boot_fenced_mono.
    apply (na_fenced _ _ (proj1 (fence_boot_spec _ _ _ _ _ _ _ E))).
  - unfold observe_attempt. destruct (negb _); [done|]. by destruct (find_attempt a g).
Qed.

(** Fencing is permanent. Once a boot is fenced, no sequence of calls lets it
    authorize an operation or register again, and a restart that restores the
    fenced records leaves it fenced in whatever epoch comes next. *)
Theorem fenced_boot_forever limits g g' b :
  rtc (registry_step limits) g g' → is_boot_fenced b g = true →
  is_boot_fenced b g' = true ∧
  (∀ context required, ac_worker_boot context = b → ok (authorize context required g') = false) ∧
  (∀ r, rg_boot r = b → ok (register_publisher r limits g').1 = false) ∧
  (∀ epoch records, (∀ k r, fenced g' !! k = Some r → fb_boot r = k ∧ k ≠ 0 ∧ r ∈ records) →
     is_boot_fenced b (restore_durable_state epoch records) = true).
Proof.
  intros Hs Hf. assert (is_boot_fenced b g' = true) as Hf'.
  { induction Hs as [|g g1 g' Hstep _ IH]; [done|]. apply IH. by eapply fenced_step. }
  split_and!; [done| | |].
  - intros context required <-. unfold authorize. destruct (_ || _); [done|].
    destruct (_ || _); [done|]. by rewrite Hf'.
  - intros r <-. unfold register_publisher. rewrite Hf'. by repeat case_match.
  - intros epoch records Hrec. apply is_boot_fenced_true in Hf' as [r Hr].
    destruct (Hrec b r Hr) as (Hb & Hnz & Hin). apply restore_fenced_spec. split; [done|by exists r].
Qed.

(** Worker reincarnation. A publisher that registers on a new boot loses its
    old one for good: every boot it was live on is fenced, it is live under the new
    registration only, and no other publisher's registration becomes live. *)
Theorem register_publisher_reincarnation limits r g g' :
  register_publisher r limits g = (success, g') → rg_live r = true →
  (∀ x, x ∈ registrations g → rg_live x = true → rg_publisher x = rg_publisher r →
     is_boot_fenced (rg_boot x) g' = true ∧ rg_boot x ≠ rg_boot r) ∧
  (∀ x, x ∈ registrations g' → rg_live x = true → rg_publisher x = rg_publisher r → x = r) ∧
  (∀ x, x ∈ registrations g' → rg_live x = true → x = r ∨ x ∈ registrations g) ∧
  is_boot_fenced (rg_boot r) g' = false.
Proof.
  intros Hreg Hlive. destruct (register_publisher_reincarnates _ _ _ _ Hreg) as (H1 & H2 & H3 & H4).
  assert (is_boot_fenced (rg_boot r) g' = false) as Hnew.
  { apply register_publisher_success in Hreg as (_ & _ & _ & _ & _ & _ & Hnf & g1 & Hr & _ & _ & ->).
    by eapply reincarnate_new_boot in Hr. }
  split_and!; [| | |done].
  - intros x Hx Hl Hp. assert (is_boot_fenced (rg_boot x) g' = true) as Hf by (by apply H3).
    split; [done|congruence].
  - intros x Hx Hl Hp. by apply H4.
  - intros x Hx Hl. rewrite H2 in Hx. apply elem_of_app in Hx as [Hx|Hx%list_elem_of_singleton]; [|by left].
    right. by eapply (live_sub_elem _ _ _ (na_live _ _ H1)).
Qed.

(** ** Mutation attempts *)

Definition observe_all (limits : Limits) (l : list MutationAttemptRecord) (g : AuthorityRegistry)
    : AuthorityRegistry :=
  fold_left (λ g r, (observe_attempt (at_attempt r) (at_payload r) (at_tick r) limits g).2) l g.

(** The record of an attempt with at most [n] records after it. *)
Definition recent (r : MutationAttemptRecord) (n : Z) (g : AuthorityRegistry) : Prop :=
  ∃ pre post, attempts g = pre ++ r :: post ∧ size post <= n ∧
    Forall (λ x, at_attempt x ≠ at_attempt r) pre.

Lemma recent_found r n g : recent r n g → find_attempt (at_attempt r) g = Some r.
Proof.
  intros (pre & post & E & _ & Hpre). unfold find_attempt. rewrite E. clear E.
  induction Hpre as [|x pre Hx _ IH]; cbn [app List.find].
  - by rewrite Z.eqb_refl.
  - by rewrite (proj2 (Z.eqb_neq _ _) Hx).
Qed.

Lemma recent_step limits r n g x :
  recent r n g → n + 1 < max_mutation_attempts limits →
  recent r (n + 1) (observe_attempt (at_attempt x) (at_payload x) (at_tick x) limits g).2.
Proof.
  intros (pre & post & E & Hn & Hpre) Hmax.
  assert (recent r (n + 1) g) as Hsame by (exists pre, post; split_and!; [done|lia|done]).
  unfold observe_attempt. destruct (negb _); [done|]. destruct (find_attempt _ g); [done|].
  cbn [snd]. unfold recent, with_attempts. cbn [attempts]. rewrite E. unfold size in *.
  destruct (_ <=? _) eqn:Hw.
  - destruct pre as [|y pre].
    { cbn [app length] in Hw. apply Z.leb_le in Hw. exfalso. lia. }
    exists pre, (post ++ [mkAttempt (at_attempt x) (at_payload x) (at_tick x)]).
    cbn [app drop]. rewrite drop_0, <- app_assoc. apply Forall_cons in Hpre as [_ Hpre].
    split_and!; [done| |done]. rewrite length_app. cbn [length]. lia.
  - exists pre, (post ++ [mkAttempt (at_attempt x) (at_payload x) (at_tick x)]).
    rewrite <- app_assoc. split_and!; [done| |done]. rewrite length_app. cbn [length]. lia.
Qed.

(** De-duplication of mutation attempts. Once an attempt was observed fresh,
    any fewer than [max_mutation_attempts] observations later the same attempt is an
    exact replay under the same payload and a conflict under any other, and
    observing it changes nothing. *)
Theorem attempt_deduplication limits a payload tick g g' l :
  1 <= max_mutation_attempts limits → a ≠ 0 →
  observe_attempt a payload tick limits g = (Success ReplayVerdict.Fresh, g') →
  size l < max_mutation_attempts limits →
  ∀ payload' tick', observe_attempt a payload' tick' limits (observe_all limits l g') =
    (Success (if digest_eqb payload payload' then ReplayVerdict.ExactReplay
              else ReplayVerdict.Conflict), observe_all limits l g').
Proof.
  intros Hmax Ha Hobs Hl payload' tick'.
  assert (recent (mkAttempt a payload tick) 0 g') as H0.
  { revert Hobs. unfold observe_attempt. apply is_valid_true in Ha as ->. cbn [negb].
    destruct (find_attempt a g) as [x|] eqn:Hf; [by destruct (digest_eqb _ _)|]. intros [= <-].
    eexists _, []. cbn [attempts with_attempts]. split_and!; [done|done|]. apply Forall_forall.
    intros x Hx. cbn. assert (x ∈ attempts g) as Hin.
    { destruct (_ <=? _); [|done]. by eapply elem_of_sublist, sublist_drop. }
    apply list_elem_of_In in Hin. pose proof (List.find_none _ _ Hf _ Hin) as E. cbv beta in E. lia. }
  assert (recent (mkAttempt a payload tick) (size l) (observe_all limits l g')) as Hrec.
  { clear Hobs. assert (∀ n g', recent (mkAttempt a payload tick) n g' →
      n + size l < max_mutation_attempts limits →
      recent (mkAttempt a payload tick) (n + size l) (observe_all limits l g')) as H.
    { clear. unfold size. induction l as [|x l IH]; intros n g' Hr Hn; cbn [observe_all fold_left length] in *.
      { by rewrite Z.add_0_r. }
      replace (n + Z.of_nat (S (length l))) with (n + 1 + Z.of_nat (length l)) by lia.
      apply IH; [|lia]. apply recent_step; [done|lia]. }
    apply (H 0); [done|lia]. }
  unfold observe_attempt. apply is_valid_true in Ha as ->. cbn [negb].
  pose proof (recent_found _ _ _ Hrec) as E. cbn [at_attempt] in E. by rewrite E.
Qed.

(** ** Lemmas: encodings *)

#[export] Typeclasses Opaque encode_fenced_boot encode_mutation_attempt.
#[export] Instance appends_fenced_boot r : Appends (encode_fenced_boot r).
Proof. unfold encode_fenced_boot. apply _. Qed.
#[export] Instance appends_mutation_attempt r : Appends (encode_mutation_attempt r).
Proof. unfold encode_mutation_attempt. apply _. Qed.

Definition wire_fenced (r : FencedBootRecord) : Prop :=
  fits 64 (fb_boot r) ∧ fb_boot r ≠ 0 ∧ 0 <= fb_fenced_at r < 2 ^ 63 ∧ fits 64 (fb_tick r).
Definition wire_attempt (r : MutationAttemptRecord) : Prop :=
  fits 64 (at_attempt r) ∧ at_attempt r ≠ 0 ∧ size (at_payload r) = kSize ∧ fits 64 (at_tick r).

Lemma reads_fenced_boot r : wire_fenced r → reads decode_fenced_boot (encode_fenced_boot r []) r.
Proof.
  intros (H1 & H2 & H3 & H4). unfold decode_fenced_boot, encode_fenced_boot.
  read_field; [by apply reads_u64|]. read_field; [apply reads_u64; unfold fits; lia|].
  read_last; [by apply reads_u64|]. apply reads_guard.
  - apply orb_false_iff. split; [lia|]. apply andb_false_iff.
    destruct (fb_fenced_at r =? 0) eqn:E; [by left|right].
    apply negb_false_iff, is_representable_true; lia.
  - destruct r. apply reads_ret.
Qed.

Lemma reads_mutation_attempt r :
  wire_attempt r → reads decode_mutation_attempt (encode_mutation_attempt r []) r.
Proof.
  intros (H1 & H2 & H3 & H4). unfold decode_mutation_attempt, encode_mutation_attempt.
  read_field; [by apply reads_u64|]. read_field; [rewrite <- H3; apply reads_raw|].
  read_last; [by apply reads_u64|]. apply reads_guard; [lia|]. destruct r. apply reads_ret.
Qed.

(** ** Witnesses *)

Definition sample_registration (publisher boot session : Z) : PublisherRegistration :=
  mkRegistration publisher boot session 3 5 1 true.

(** A registry with the publisher 7 live on the boot 20, its boot 10 fenced. *)
Definition sample_registry : AuthorityRegistry :=
  let g := restore_durable_state 1 [] in
  let g := (register_publisher (sample_registration 7 10 100) default_limits g).2 in
  (register_publisher (sample_registration 7 20 101) default_limits g).2.

Lemma sample_registry_reachable :
  rtc (registry_step default_limits) (restore_durable_state 1 []) sample_registry.
Proof.
  unfold sample_registry. cbv zeta.
  eapply rtc_l; [apply step_register|]. eapply rtc_l; [apply step_register|]. apply rtc_refl.
Qed.

Lemma authority_invariant_witness :
  registry_ok default_limits sample_registry ∧ fenced sample_registry !! 10 ≠ None ∧
  live_publishers sample_registry = 1.
Proof.
  split; [|split; [vm_compute; discriminate|vm_compute; reflexivity]].
  destruct (authority_invariant default_limits 1 [] sample_registry) as [H _]; try (cbn; lia).
  - vm_compute. discriminate.
  - exact sample_registry_reachable.
  - exact H.
Defined.

Lemma authorize_default_deny_witness :
  ok (authorize (mkAuthority 1 7 20 9 1 101 0) 2 sample_registry) = true ∧
  ok (authorize (mkAuthority 1 7 10 9 1 100 0) 2 sample_registry) = false.
Proof.
  assert (registry_ok default_limits sample_registry) as Hok.
  { eapply registry_steps_ok; [| | |exact sample_registry_reachable|apply restored_ok];
      vm_compute; discriminate. }
  split.
  - apply (authorize_default_deny default_limits _ _ _ Hok). split_and!; try done.
    exists (sample_registration 7 20 101). split_and!; [vm_compute; set_solver|done|].
    apply holds_scopes_mask. right. reflexivity.
  - vm_compute. reflexivity.
Defined.

Lemma fenced_boot_forever_witness :
  is_boot_fenced 10 sample_registry = true ∧
  ok (register_publisher (sample_registration 8 10 102) default_limits sample_registry).1 = false.
Proof.
  assert (is_boot_fenced 10 sample_registry = true) as Hf by (vm_compute; reflexivity).
  destruct (fenced_boot_forever default_limits sample_registry sample_registry 10
    (rtc_refl _ _) Hf) as (_ & _ & H & _).
  split; [exact Hf|]. apply (H (sample_registration 8 10 102)). reflexivity.
Defined.

Lemma register_publisher_reincarnation_witness :
  let g := (register_publisher (sample_registration 7 10 100) default_limits
    (restore_durable_state 1 [])).2 in
  is_boot_fenced 10 sample_registry = true ∧ is_boot_fenced 20 sample_registry = false.
Proof.
  cbv zeta.
  destruct (register_publisher_reincarnation default_limits (sample_registration 7 20 101)
    (register_publisher (sample_registration 7 10 100) default_limits (restore_durable_state 1 [])).2
    sample_registry) as (H1 & _ & _ & H4).
  - vm_compute. reflexivity.
  - reflexivity.
  - split; [|exact H4].
    apply (H1 (sample_registration 7 10 100)); [vm_compute; set_solver|reflexivity|reflexivity].
Defined.

Lemma attempt_deduplication_witness :
  let g := (observe_attempt 5 zero_digest 1 default_limits (restore_durable_state 1 [])).2 in
  observe_attempt 5 zero_digest 2 default_limits
    (observe_all default_limits [mkAttempt 6 zero_digest 1] g) =
  (Success ReplayVerdict.ExactReplay,
   observe_all default_limits [mkAttempt 6 zero_digest 1] g).
Proof.
  cbv zeta. apply (attempt_deduplication default_limits 5 zero_digest 1 (restore_durable_state 1 [])
    _ [mkAttempt 6 zero_digest 1]).
  - vm_compute. discriminate.
  - discriminate.
  - reflexivity.
  - vm_compute. reflexivity.
Defined.
