(* ===== verification/Invalidation.v ===== *)
(** Precise invalidation, [invalidation.hpp] and [invalidation.cpp]: the monotonic
    watermarks, the reverse index from dependency keys to evaluations, the keys an
    evaluation depends on, and whether a record is still current.

    The specification of the index is a relation between keys and evaluations; the
    two maps of the code refine it. *)

From Stdlib Require Import ZArith Lia Bool.
From stdpp Require Import base list numbers strings gmap sets sorting relations.
From S2P Require Import Prelude Containers Base Codec Digest Lifecycle Constraint Candidate.
From S2P Require Import Evaluation Ordering ConstraintSet.

Open Scope string_scope.
Open Scope list_scope.
Open Scope Z_scope.

(** ** Keys *)

Module InvalidationKeyKind.
Inductive t :=
  | ConstraintSet | Path | Node | Link | Capability | Policy | FailureDomain | LocalityDomain
  | IsolationClass | Planner | Topology | LinkState | PathAuthority.

Definition to_code (x : t) : Z :=
  match x with
  | ConstraintSet => 1 | Path => 2 | Node => 3 | Link => 4 | Capability => 5 | Policy => 6
  | FailureDomain => 7 | LocalityDomain => 8 | IsolationClass => 9 | Planner => 10
  | Topology => 11 | LinkState => 12 | PathAuthority => 13
  end.

Definition from_code (z : Z) : t :=
  match z with
  | 2 => Path | 3 => Node | 4 => Link | 5 => Capability | 6 => Policy | 7 => FailureDomain
  | 8 => LocalityDomain | 9 => IsolationClass | 10 => Planner | 11 => Topology
  | 12 => LinkState | 13 => PathAuthority | _ => ConstraintSet
  end.

Definition to_string (x : t) : string :=
  match x with
  | ConstraintSet => "ConstraintSet" | Path => "Path" | Node => "Node" | Link => "Link"
  | Capability => "Capability" | Policy => "Policy" | FailureDomain => "FailureDomain"
  | LocalityDomain => "LocalityDomain" | IsolationClass => "IsolationClass"
  | Planner => "Planner" | Topology => "Topology" | LinkState => "LinkState"
  | PathAuthority => "PathAuthority"
  end.
End InvalidationKeyKind.

#[export] Instance InvalidationKeyKind_enum : Enum InvalidationKeyKind.t.
Proof.
  refine {| code := InvalidationKeyKind.to_code; of_code := InvalidationKeyKind.from_code |}.
  by intros [].
Defined.

Record InvalidationKey := mkKey {
  key_kind : InvalidationKeyKind.t;
  key_value : Z
}.

Definition key_eqb (a b : InvalidationKey) : bool :=
  eeqb (key_kind a) (key_kind b) && (key_value a =? key_value b).

Definition key_ltb (a b : InvalidationKey) : bool :=
  if negb (eeqb (key_kind a) (key_kind b)) then code (key_kind a) <? code (key_kind b)
  else key_value a <? key_value b.

#[export] Instance key_kind_eq_dec : EqDecision InvalidationKeyKind.t.
Proof. solve_decision. Defined.
#[export] Instance key_eq_dec : EqDecision InvalidationKey.
Proof. solve_decision. Defined.
#[export] Instance key_countable : Countable InvalidationKey.
Proof.
  apply (inj_countable' (λ k, (code (key_kind k), key_value k))
    (λ p : Z * Z, mkKey (of_code p.1) p.2)).
  intros [k v]. cbn [fst snd key_kind key_value]. by rewrite of_code_code.
Defined.

Definition key_cmp (a b : InvalidationKey) : Z :=
  cmp_step (code (key_kind a)) (code (key_kind b)) (cmp_step (key_value a) (key_value b) 0).

#[export] Instance key_key_order : KeyOrder key_ltb key_cmp.
Proof.
  split.
  - unfold key_cmp. refine (cmp_step_order (λ k, code (key_kind k)) _ _).
  - intros a b. unfold key_ltb, key_cmp, eeqb, cmp_step. ifs_lia.
  - intros [k v] [k' v']. unfold key_cmp. rewrite !cmp_step_zero. cbn [key_kind key_value].
    intros (E%code_inj & -> & _). by rewrite E.
Qed.

#[export] Instance invalidation_key_cmp : CmpOrder key_cmp := key_cmp_order (less := key_ltb).

#[export] Instance family_eq_dec : EqDecision EvidenceFamily.t.
Proof. solve_decision. Defined.
#[export] Instance family_countable : Countable EvidenceFamily.t.
Proof. apply (inj_countable' code of_code). apply of_code_code. Defined.

(** ** Watermarks *)

Record Watermarks := mkWatermarks {
  families : gmap EvidenceFamily.t Z;
  keys : gmap InvalidationKey Z
}.

Definition no_watermarks : Watermarks := mkWatermarks ∅ ∅.

(** [Watermarks::family] and [Watermarks::key]. *)
Definition family_mark (w : Watermarks) (f : EvidenceFamily.t) : Z := default 0 (families w !! f).
Definition key_mark (w : Watermarks) (k : InvalidationKey) : Z := default 0 (keys w !! k).

Definition advance_family (f : EvidenceFamily.t) (generation : Z) (w : Watermarks)
    : bool * Watermarks :=
  match families w !! f with
  | Some stored =>
      if generation <=? stored then (false, w)
      else (true, mkWatermarks (<[f := generation]> (families w)) (keys w))
  | None => (true, mkWatermarks (<[f := generation]> (families w)) (keys w))
  end.

Definition advance_key (k : InvalidationKey) (watermark : Z) (w : Watermarks) : bool * Watermarks :=
  match keys w !! k with
  | Some stored =>
      if watermark <=? stored then (false, w)
      else (true, mkWatermarks (families w) (<[k := watermark]> (keys w)))
  | None => (true, mkWatermarks (families w) (<[k := watermark]> (keys w)))
  end.

Definition tracked_keys (w : Watermarks) : Z := Z.of_nat (base.size (keys w)).
Definition clear_watermarks (w : Watermarks) : Watermarks := no_watermarks.

(** ** The index *)

Record InvalidationIndex := mkIndex {
  forward : gmap InvalidationKey (gset Z);
  reverse : gmap Z (gset InvalidationKey)
}.

Definition empty_index : InvalidationIndex := mkIndex ∅ ∅.

(** [map[key].insert(x)]. *)
Definition insert_at {K A} `{Countable K, Countable A} (k : K) (x : A) (m : gmap K (gset A))
    : gmap K (gset A) :=
  <[k := {[x]} ∪ default ∅ (m !! k)]> m.

Definition bind (k : InvalidationKey) (evaluation : Z) (index : InvalidationIndex)
    : Status * InvalidationIndex :=
  if negb (is_valid evaluation) then
    (Failure ErrorCode.InvalidArgument "invalidation binding requires an evaluation id", index)
  else
    (success, mkIndex (insert_at k evaluation (forward index)) (insert_at evaluation k (reverse index))).

(** One round of the loop of [unbind]. *)
Definition erase_from (evaluation : Z) (m : gmap InvalidationKey (gset Z)) (k : InvalidationKey)
    : gmap InvalidationKey (gset Z) :=
  match m !! k with
  | Some entry =>
      let entry := entry ∖ {[evaluation]} in
      if bool_decide (entry = ∅) then delete k m else <[k := entry]> m
  | None => m
  end.

Definition unbind (evaluation : Z) (index : InvalidationIndex) : Status * InvalidationIndex :=
  match reverse index !! evaluation with
  | None => (success, index)
  | Some ks =>
      (success, mkIndex (fold_left (erase_from evaluation) (ascending key_ltb ks) (forward index))
        (delete evaluation (reverse index)))
  end.

Definition dependents (k : InvalidationKey) (index : InvalidationIndex) : list Z :=
  match forward index !! k with Some entry => ascending Z.ltb entry | None => [] end.

Definition keys_of_kinds (kinds : list InvalidationKeyKind.t) (index : InvalidationIndex)
    : list InvalidationKey :=
  List.filter (λ k, existsb (λ kind, eeqb (key_kind k) kind) kinds)
    (map fst (entries key_ltb (forward index))).

Definition is_bound (evaluation : Z) (index : InvalidationIndex) : bool :=
  bool_decide (is_Some (reverse index !! evaluation)).

Definition key_count (index : InvalidationIndex) : Z := Z.of_nat (base.size (forward index)).
Definition evaluation_count (index : InvalidationIndex) : Z := Z.of_nat (base.size (reverse index)).
Definition clear_index (index : InvalidationIndex) : InvalidationIndex := empty_index.

(** Whether [map[k]] has [x]. *)
Definition has_at {K A} `{Countable K, Countable A} (k : K) (x : A) (m : gmap K (gset A)) : bool :=
  match m !! k with Some entry => bool_decide (x ∈ entry) | None => false end.

Definition validate (index : InvalidationIndex) : Status :=
  if negb (forallb (λ e, forallb (λ evaluation, has_at evaluation e.1 (reverse index))
             (ascending Z.ltb e.2)) (entries key_ltb (forward index))) then
    Failure ErrorCode.Internal "invalidation index forward entry has no reverse entry"
  else
    fold_left (λ status e,
      if negb (ok status) then status
      else if bool_decide (e.2 = ∅) then
        Failure ErrorCode.Internal "invalidation index reverse entry has no dependency keys"
      else if negb (forallb (λ k, has_at k e.1 (forward index)) (ascending key_ltb e.2)) then
        Failure ErrorCode.Internal "invalidation index reverse entry has no forward entry"
      else success) (entries Z.ltb (reverse index)) success.

Definition check_index_limits (limits : Limits) (index : InvalidationIndex) : Status :=
  if max_decoded_count limits <? key_count index then
    Failure ErrorCode.ResourceLimit "invalidation index key count exceeds the limit"
  else if max_evaluations_retained limits <? evaluation_count index then
    Failure ErrorCode.ResourceLimit
      "invalidation index evaluation count exceeds the retention limit"
  else success.

(** ** The keys of one evaluation *)

Definition family_consulted (r : EvaluationRecord) (f : EvidenceFamily.t) : bool :=
  negb (Z.land (rec_consulted r) (family_bit f) =? 0).

Definition key_of (kind : InvalidationKeyKind.t) (value : Z) : InvalidationKey := mkKey kind value.

(** The keys inserted under each [if (family_consulted(...))], in the order of the
    code; [keys] is a set. *)
Definition topology_keys (p : CandidatePath) : list InvalidationKey :=
  key_of InvalidationKeyKind.Topology 0 ::
  concat (map (λ n,
    key_of InvalidationKeyKind.Node (node n) ::
    map (λ l, key_of InvalidationKeyKind.LocalityDomain (ref_domain l)) (localities n))
    (path_nodes p)) ++
  map (λ l, key_of InvalidationKeyKind.Link (link l)) (path_links p).

Definition capability_keys (set : ConstraintSet) (p : CandidatePath) : list InvalidationKey :=
  key_of InvalidationKeyKind.Capability 0 ::
  concat (map (λ c, map (key_of InvalidationKeyKind.Capability) (capabilities c))
    (constraints set)) ++
  concat (map (λ n,
    key_of InvalidationKeyKind.Node (node n) ::
    map (λ r, key_of InvalidationKeyKind.Capability (ref_identity r)) (node_capabilities n))
    (path_nodes p)) ++
  concat (map (λ l,
    key_of InvalidationKeyKind.Link (link l) ::
    map (λ r, key_of InvalidationKeyKind.Capability (ref_identity r)) (link_capabilities l))
    (path_links p)).

Definition failure_domain_keys (p : CandidatePath) : list InvalidationKey :=
  key_of InvalidationKeyKind.FailureDomain 0 ::
  concat (map (λ n,
    key_of InvalidationKeyKind.Node (node n) ::
    map (λ r, key_of InvalidationKeyKind.FailureDomain (ref_domain r)) (node_domains n) ++
    map (λ r, key_of InvalidationKeyKind.IsolationClass (ref_identity r)) (node_isolation n))
    (path_nodes p)) ++
  concat (map (λ l,
    key_of InvalidationKeyKind.Link (link l) ::
    map (λ r, key_of InvalidationKeyKind.FailureDomain (ref_domain r)) (link_domains l) ++
    map (λ r, key_of InvalidationKeyKind.IsolationClass (ref_identity r)) (link_isolation l))
    (path_links p)).

Definition policy_keys (p : CandidatePath) : list InvalidationKey :=
  key_of InvalidationKeyKind.Policy 0 ::
  map (λ r, key_of InvalidationKeyKind.Policy (ref_identity r)) (path_policies p).

Definition dependency_set (r : EvaluationRecord) (set : ConstraintSet) (p : CandidatePath)
    : list InvalidationKey :=
  let consulted f ks := if family_consulted r f then ks else [] in
  [key_of InvalidationKeyKind.ConstraintSet (cs_id set); key_of InvalidationKeyKind.Path (path p)] ++
  consulted EvidenceFamily.Topology (topology_keys p) ++
  consulted EvidenceFamily.Capability (capability_keys set p) ++
  consulted EvidenceFamily.FailureDomain (failure_domain_keys p) ++
  consulted EvidenceFamily.Policy (policy_keys p) ++
  consulted EvidenceFamily.Planner [key_of InvalidationKeyKind.Planner 0] ++
  consulted EvidenceFamily.LinkState [key_of InvalidationKeyKind.LinkState 0] ++
  consulted EvidenceFamily.PathAuthority [key_of InvalidationKeyKind.PathAuthority 0].

Definition dependency_keys (r : EvaluationRecord) (set : ConstraintSet) (p : CandidatePath)
    (limits : Limits) : list InvalidationKey :=
  ascending key_ltb (list_to_set (dependency_set r set p)).

(** ** Currentness of a record *)

Definition generation_for_family (e : EvidenceGenerationSet) (f : EvidenceFamily.t) : Z :=
  match f with
  | EvidenceFamily.Topology => topology e
  | EvidenceFamily.LinkState => link_state e
  | EvidenceFamily.Capability => capability e
  | EvidenceFamily.FailureDomain => failure_domain e
  | EvidenceFamily.Policy => policy e
  | EvidenceFamily.Planner => planner e
  | EvidenceFamily.PathAuthority => path_authority e
  | _ => 0
  end.

Definition watermark_families : list EvidenceFamily.t :=
  [EvidenceFamily.Topology; EvidenceFamily.LinkState; EvidenceFamily.Capability;
   EvidenceFamily.FailureDomain; EvidenceFamily.Policy; EvidenceFamily.Planner;
   EvidenceFamily.PathAuthority].

Definition evaluation_current (r : EvaluationRecord) (w : Watermarks) : bool :=
  if negb (eeqb (state r) ResultState.Current) then false
  else
    forallb (λ f,
      if negb (family_consulted r f) then true
      else negb (generation_for_family (rec_evidence r) f <? family_mark w f)) watermark_families.

(** ** Encoding *)

Definition write_mark (kind value watermark : Z) : writing :=
  put_u8 kind ;;> put_u8 0 ;;> put_u16 0 ;;> put_u32 0 ;;> put_u64 value ;;> put_u64 watermark.
Definition write_family_mark (w : Watermarks) (f : EvidenceFamily.t) : writing :=
  put_u8 (code f) ;;> put_u8 0 ;;> put_u16 0 ;;> put_u32 0 ;;> put_u64 (family_mark w f).

Definition encode_watermarks (w : Watermarks) : writing :=
  put_u32 (wrap 32 (tracked_keys w)) ;;>
  put_each (λ e, write_mark (code (key_kind e.1)) (key_value e.1) e.2) (entries key_ltb (keys w)) ;;>
  put_u32 7 ;;> put_each (write_family_mark w) watermark_families.

(** The first loop of the decoder: ascending keys, each advanced in [out]. *)
Fixpoint read_key_marks (count : nat) (previous : option InvalidationKey) (out : Watermarks)
    : reader Watermarks :=
  match count with
  | O => mret out
  | S count' =>
      kind ← u8; padding8 ← u8; padding16 ← u16; padding32 ← u32; value ← u64; watermark ← u64;
      _ ← fail_if ((kind =? 0) || (13 <? kind) || negb (padding8 =? 0) || negb (padding16 =? 0) ||
                   negb (padding32 =? 0));
      let k := mkKey (of_code kind) value in
      _ ← fail_if (match previous with Some p => negb (key_ltb p k) | None => false end);
      read_key_marks count' (Some k) (advance_key k watermark out).2
  end.

Fixpoint read_family_marks (count : nat) (out : Watermarks) : reader Watermarks :=
  match count with
  | O => mret out
  | S count' =>
      f ← u8; padding8 ← u8; padding16 ← u16; padding32 ← u32; watermark ← u64;
      _ ← fail_if ((f =? 0) || (8 <? f) || negb (padding8 =? 0) || negb (padding16 =? 0) ||
                   negb (padding32 =? 0));
      read_family_marks count' (advance_family (of_code f) watermark out).2
  end.

(** [bounded_length(...) && count == 7], or the reader fails. *)
Definition read_family_count : reader Z := λ r,
  match bounded_length 16 r with
  | (Some count, r') => if count =? 7 then (Some count, r') else fail r'
  | (None, r') => fail r'
  end.

Definition decode_watermarks (limits : Limits) : reader Watermarks :=
  key_count ← bounded_length (max_decoded_count limits);
  out ← read_key_marks (Z.to_nat key_count) None no_watermarks;
  family_count ← read_family_count;
  read_family_marks (Z.to_nat family_count) out.

(** ** Lemmas: sets in a map *)

Section set_map.
Context {K A : Type} `{Countable K, Countable A}.
Implicit Types m : gmap K (gset A).

Lemma has_at_true k x m : has_at k x m = true ↔ ∃ X, m !! k = Some X ∧ x ∈ X.
Proof.
  unfold has_at. destruct (m !! k) as [X|].
  - rewrite bool_decide_eq_true. naive_solver.
  - naive_solver.
Qed.

Lemma has_at_insert_at k x k' x' m :
  has_at k' x' (insert_at k x m) = true ↔ has_at k' x' m = true ∨ (k' = k ∧ x' = x).
Proof.
  rewrite !has_at_true. unfold insert_at. destruct (decide (k' = k)) as [->|Hne].
  - rewrite lookup_insert_eq. split.
    + intros (Y & [= <-] & [->%elem_of_singleton|HY]%elem_of_union); [by right|left].
      destruct (m !! k) as [X|]; cbn in HY; [eauto|by apply elem_of_empty in HY].
    + intros [(X & HX & Hx)|[_ ->]]; (eexists; split; [reflexivity|]); rewrite elem_of_union;
        [right|left; by apply elem_of_singleton]. by rewrite HX.
  - rewrite lookup_insert_ne by done. naive_solver.
Qed.

Lemma insert_at_nonempty k x m :
  map_Forall (λ _ X, X ≠ ∅) m → map_Forall (λ _ X, X ≠ ∅) (insert_at k x m).
Proof.
  intros Hm. apply map_Forall_insert_2; [|done]. intros E.
  apply (not_elem_of_empty (C := gset A) x). rewrite <- E. set_solver.
Qed.
End set_map.

Lemma erase_from_spec e m k k' e' :
  has_at k' e' (erase_from e m k) = true ↔ has_at k' e' m = true ∧ ¬ (k' = k ∧ e' = e).
Proof.
  rewrite !has_at_true. unfold erase_from. destruct (m !! k) as [X|] eqn:Hk.
  - cbv zeta. destruct (bool_decide _) eqn:Hb.
    + apply bool_decide_eq_true in Hb. destruct (decide (k' = k)) as [->|Hne].
      * rewrite lookup_delete_eq, Hk. split; [intros (Y & [=] & _)|].
        intros [(Y & [= <-] & HY) Hn]. exfalso. apply (not_elem_of_empty (C := gset Z) e').
        rewrite <- Hb. set_solver.
      * rewrite lookup_delete_ne by done. naive_solver.
    + destruct (decide (k' = k)) as [->|Hne].
      * rewrite lookup_insert_eq, Hk. split.
        -- intros (Y & [= <-] & [HY HY2]%elem_of_difference). split; [eauto|].
           intros [_ ->]. apply HY2. by apply elem_of_singleton.
        -- intros [(Y & [= <-] & HY) Hn]. eexists. split; [reflexivity|]. set_solver.
      * rewrite lookup_insert_ne by done. naive_solver.
  - destruct (decide (k' = k)) as [->|Hne]; [rewrite Hk|]; naive_solver.
Qed.

Lemma erase_from_nonempty e m k :
  map_Forall (λ _ X, X ≠ ∅) m → map_Forall (λ _ X, X ≠ ∅) (erase_from e m k).
Proof.
  intros Hm. unfold erase_from. destruct (m !! k) as [X|]; [|done]. cbv zeta.
  destruct (bool_decide _) eqn:Hb; [by apply map_Forall_delete|].
  apply bool_decide_eq_false in Hb. by apply map_Forall_insert_2.
Qed.

Lemma erase_fold e ks : ∀ m,
  map_Forall (λ _ X, X ≠ ∅) m →
  map_Forall (λ _ X, X ≠ ∅) (fold_left (erase_from e) ks m) ∧
  ∀ k' e', has_at k' e' (fold_left (erase_from e) ks m) = true ↔
    has_at k' e' m = true ∧ ¬ (k' ∈ ks ∧ e' = e).
Proof.
  induction ks as [|k ks IH]; intros m Hm; cbn [fold_left]; [split; [done|set_solver]|].
  destruct (IH (erase_from e m k)) as [H1 H2]; [by apply erase_from_nonempty|]. split; [done|].
  intros k' e'. rewrite H2, erase_from_spec. set_solver.
Qed.

(** ** The index against a relation *)

(** The two maps mirror each other, without empty entries. *)
Record index_ok (index : InvalidationIndex) : Prop := {
  io_mirror : ∀ k e, has_at k e (forward index) = true ↔ has_at e k (reverse index) = true;
  io_forward : map_Forall (λ _ X, X ≠ ∅) (forward index);
  io_reverse : map_Forall (λ _ X, X ≠ ∅) (reverse index)
}.

(** The specification: the pairs bound. *)
Abbreviation Bindings := (gset (InvalidationKey * Z)).

Definition represents (index : InvalidationIndex) (R : Bindings) : Prop :=
  index_ok index ∧ ∀ k e, (k, e) ∈ R ↔ has_at k e (forward index) = true.

Inductive IndexOp := Bind (k : InvalidationKey) (e : Z) | Unbind (e : Z) | Clear.

Definition run_index (op : IndexOp) (index : InvalidationIndex) : InvalidationIndex :=
  match op with
  | Bind k e => (bind k e index).2
  | Unbind e => (unbind e index).2
  | Clear => clear_index index
  end.

(** What each operation means for the pairs. *)
Definition spec_index (op : IndexOp) (R : Bindings) : Bindings :=
  match op with
  | Bind k e => if is_valid e then {[(k, e)]} ∪ R else R
  | Unbind e => filter (λ p, p.2 ≠ e) R
  | Clear => ∅
  end.

Lemma empty_index_represents : represents empty_index ∅.
Proof.
  assert (∀ k e, has_at k e (forward empty_index) = false) as H by done.
  assert (∀ k e, has_at e k (reverse empty_index) = false) as H' by done.
  split; [split|].
  - intros k e. by rewrite H, H'.
  - apply map_Forall_empty.
  - apply map_Forall_empty.
  - intros k e. rewrite H. set_solver.
Qed.

Lemma index_step op index R :
  represents index R → represents (run_index op index) (spec_index op R).
Proof.
  intros [[Hm Hf Hr] HR]. destruct op as [k e|e|]; cbn [run_index spec_index].
  - unfold bind. destruct (is_valid e); cbn [negb snd]; [|by split].
    split; [split|]; cbn [forward reverse].
    + intros k' e'. rewrite !has_at_insert_at, Hm. naive_solver.
    + by apply insert_at_nonempty.
    + by apply insert_at_nonempty.
    + intros k' e'. rewrite has_at_insert_at, elem_of_union, elem_of_singleton, HR.
      naive_solver.
  - unfold unbind. destruct (reverse index !! e) as [ks|] eqn:He; cbn [snd].
    + destruct (erase_fold e (ascending key_ltb ks) _ Hf) as [Hf' Hh].
      assert (∀ k' e', has_at k' e' (fold_left (erase_from e) (ascending key_ltb ks) (forward index)) =
        true ↔ has_at k' e' (forward index) = true ∧ e' ≠ e) as Hh'.
      { intros k' e'. rewrite Hh, (ascending_elem key_ltb). split; intros [H1 H2]; (split; [done|]).
        - intros ->. apply H2. split; [|done]. apply Hm, has_at_true in H1 as (X & HX & Hin).
          congruence.
        - intros [_ ->]. done. }
      split; [split|]; cbn [forward reverse].
      * intros k' e'. rewrite Hh', Hm, !has_at_true. destruct (decide (e' = e)) as [->|Hne].
        -- rewrite lookup_delete_eq. naive_solver.
        -- rewrite lookup_delete_ne by done. naive_solver.
      * done.
      * by apply map_Forall_delete.
      * intros k' e'. rewrite Hh', elem_of_filter, HR. cbn. tauto.
    + split; [done|]. intros k' e'. rewrite elem_of_filter, HR. cbn. split; [tauto|].
      intros H. split; [|done]. intros ->. apply Hm, has_at_true in H as (X & HX & _). congruence.
  - apply empty_index_represents.
Qed.

Lemma validate_index_ok index : index_ok index → validate index = success.
Proof.
  intros [Hm Hf Hr]. unfold validate.
  assert (forallb (λ e, forallb (λ evaluation, has_at evaluation e.1 (reverse index))
    (ascending Z.ltb e.2)) (entries key_ltb (forward index)) = true) as ->.
  { apply list_forallb_Forall, Forall_forall. intros [k X] Hin. apply (entries_elem key_ltb) in Hin.
    cbn [fst snd]. apply list_forallb_Forall, Forall_forall. intros e He.
    apply (ascending_elem Z.ltb) in He. apply Hm, has_at_true. by exists X. }
  cbn [negb]. assert (Forall (λ e : Z * gset InvalidationKey,
    e.2 ≠ ∅ ∧ forallb (λ k, has_at k e.1 (forward index)) (ascending key_ltb e.2) = true)
    (entries Z.ltb (reverse index))) as Hall.
  { apply Forall_forall. intros [e X] Hin. apply (entries_elem Z.ltb) in Hin. cbn [fst snd].
    split; [by eapply Hr|]. apply list_forallb_Forall, Forall_forall. intros k Hk.
    apply (ascending_elem key_ltb) in Hk. apply Hm, has_at_true. by exists X. }
  induction Hall as [|e l [He1 He2] _ IH]; cbn [fold_left]; [done|].
  cbn [ok success negb]. rewrite (bool_decide_eq_false_2 _ He1), He2. exact IH.
Qed.

(** The queries, on an index whose two maps mirror each other. *)
Lemma dependents_elem k e index : e ∈ dependents k index ↔ has_at k e (forward index) = true.
Proof.
  unfold dependents. rewrite has_at_true. destruct (forward index !! k) as [X|].
  - rewrite (ascending_elem Z.ltb). naive_solver.
  - split; [by intros ?%elem_of_nil|naive_solver].
Qed.

Lemma keys_of_kinds_elem kinds k index :
  index_ok index → k ∈ keys_of_kinds kinds index ↔
  key_kind k ∈ kinds ∧ ∃ e, has_at k e (forward index) = true.
Proof.
  intros Hok. unfold keys_of_kinds.
  rewrite list_elem_of_In, filter_In, <- list_elem_of_In, list_existsb_Exists, list_elem_of_fmap.
  setoid_rewrite has_at_true. split.
  - intros [([k' X] & -> & Hin) (kind & Hk & E)]. apply eeqb_eq in E. cbn [fst] in *. subst kind.
    split; [done|]. apply (entries_elem key_ltb) in Hin.
    pose proof (io_forward _ Hok _ _ Hin) as Hne. apply set_choose_L in Hne as [e He].
    exists e, X. done.
  - intros [Hk (e & X & HX & _)]. split.
    + exists (k, X). split; [done|]. by apply (entries_elem key_ltb).
    + exists (key_kind k). split; [done|]. by apply eeqb_eq.
Qed.

(** C35: The index refines a relation between keys and evaluations. After any
    sequence of calls, the dependents of a key are the evaluations bound to it in
    ascending order, the keys of some kinds are the keys bound under them in
    ascending order, an evaluation is bound when some key is, and the consistency
    check of the index succeeds. *)
Theorem index_refines_bindings ops :
  let index := fold_left (λ i op, run_index op i) ops empty_index in
  let R := fold_left (λ R op, spec_index op R) ops ∅ in
  (∀ k, StronglySorted (λ a b, a < b) (dependents k index) ∧
        ∀ e, e ∈ dependents k index ↔ (k, e) ∈ R) ∧
  (∀ kinds, StronglySorted (λ a b, key_cmp a b < 0) (keys_of_kinds kinds index) ∧
     ∀ k, k ∈ keys_of_kinds kinds index ↔ key_kind k ∈ kinds ∧ ∃ e, (k, e) ∈ R) ∧
  (∀ e, is_bound e index = true ↔ ∃ k, (k, e) ∈ R) ∧
  validate index = success.
Proof.
  cbv zeta.
  assert (represents (fold_left (λ i op, run_index op i) ops empty_index)
    (fold_left (λ R op, spec_index op R) ops ∅)) as [Hok HR].
  { pose proof empty_index_represents as H0. revert H0. generalize empty_index, (∅ : Bindings).
    induction ops as [|op ops IH]; intros i R H; [done|]. cbn [fold_left]. by apply IH, index_step. }
  set (index := fold_left _ _ empty_index) in *. set (R := fold_left _ _ ∅) in *. clearbody index R.
  split_and!; [| | |by apply validate_index_ok].
  - intros k. split; [|by intros e; rewrite dependents_elem, HR]. unfold dependents.
    destruct (forward index !! k) as [X|]; [|constructor].
    pose proof (ascending_sorted Z.ltb cmp_Z X) as Hs.
    induction Hs as [|x l _ IH Hx]; constructor; [done|]. eapply Forall_impl; [exact Hx|].
    intros y. unfold cmp_Z, cmp_step. ifs_lia.
  - intros kinds. split; [|intros k; rewrite keys_of_kinds_elem by done; by setoid_rewrite HR].
    unfold keys_of_kinds. apply (StronglySorted_sublist _ _ (map fst (entries key_ltb (forward index)))).
    + pose proof (entries_sorted key_ltb key_cmp (forward index)) as Hs.
      induction Hs as [|x l _ IH Hx]; cbn [map]; constructor; [done|].
      rewrite Forall_map. exact Hx.
    + clear. induction (map fst _) as [|k ks IH]; cbn [List.filter]; [done|].
      destruct (existsb _ _); by constructor.
  - intros e. unfold is_bound. rewrite bool_decide_eq_true. setoid_rewrite HR.
    setoid_rewrite (io_mirror _ Hok). setoid_rewrite has_at_true. split.
    + intros [X HX]. pose proof (io_reverse _ Hok _ _ HX) as Hne. apply set_choose_L in Hne as [k Hk].
      eauto.
    + intros (k & X & HX & _). eauto.
Qed.

(** ** Lemmas: watermarks *)

Inductive WatermarkOp :=
  | AdvanceFamily (f : EvidenceFamily.t) (generation : Z)
  | AdvanceKey (k : InvalidationKey) (watermark : Z).

Definition run_watermark (w : Watermarks) (op : WatermarkOp) : Watermarks :=
  match op with
  | AdvanceFamily f g => (advance_family f g w).2
  | AdvanceKey k m => (advance_key k m w).2
  end.

(** The generations and watermarks are unsigned. *)
Definition op_unsigned (op : WatermarkOp) : Prop :=
  match op with AdvanceFamily _ v | AdvanceKey _ v => 0 <= v end.

(** No mark of [w'] is below that of [w]. *)
Definition marks_le (w w' : Watermarks) : Prop :=
  (∀ f, family_mark w f <= family_mark w' f) ∧ ∀ k, key_mark w k <= key_mark w' k.

#[export] Instance marks_le_preorder : PreOrder marks_le.
Proof.
  split; [by intros w|]. intros w1 w2 w3 [H1 H2] [H3 H4]. split.
  - intros f. etrans; [apply H1|apply H3].
  - intros k. etrans; [apply H2|apply H4].
Qed.

Lemma advance_family_mark f g w f' :
  family_mark (advance_family f g w).2 f' =
  if decide (f = f') then
    (match families w !! f with Some stored => Z.max stored g | None => g end)
  else family_mark w f'.
Proof.
  unfold family_mark, advance_family. destruct (decide (f = f')) as [<-|Hne].
  - destruct (families w !! f) as [x|] eqn:E; [destruct (g <=? x) eqn:Hg|]; cbn [snd families];
      rewrite ?E, ?lookup_insert_eq; unfold default, Datatypes.id; lia.
  - destruct (families w !! f) as [x|] eqn:E; [destruct (g <=? x) eqn:Hg|]; cbn [snd families];
      rewrite ?lookup_insert_ne by done; done.
Qed.

Lemma advance_key_mark k g w k' :
  key_mark (advance_key k g w).2 k' =
  if decide (k = k') then (match keys w !! k with Some stored => Z.max stored g | None => g end)
  else key_mark w k'.
Proof.
  unfold key_mark, advance_key. destruct (decide (k = k')) as [<-|Hne].
  - destruct (keys w !! k) as [x|] eqn:E; [destruct (g <=? x) eqn:Hg|]; cbn [snd keys];
      rewrite ?E, ?lookup_insert_eq; unfold default, Datatypes.id; lia.
  - destruct (keys w !! k) as [x|] eqn:E; [destruct (g <=? x) eqn:Hg|]; cbn [snd keys];
      rewrite ?lookup_insert_ne by done; done.
Qed.

Lemma run_watermark_le w op : op_unsigned op → marks_le w (run_watermark w op).
Proof.
  destruct op as [f g|k g]; cbn [op_unsigned run_watermark]; intros Hg.
  - split.
    + intros f'. rewrite advance_family_mark. destruct (decide (f = f')) as [<-|]; [|done].
      unfold family_mark. destruct (families w !! f); unfold default, Datatypes.id; lia.
    + intros k'. unfold advance_family. destruct (families w !! f); [destruct (_ <=? _)|]; done.
  - split.
    + intros f'. unfold advance_key. destruct (keys w !! k); [destruct (_ <=? _)|]; done.
    + intros k'. rewrite advance_key_mark. destruct (decide (k = k')) as [<-|]; [|done].
      unfold key_mark. destruct (keys w !! k); unfold default, Datatypes.id; lia.
Qed.

Lemma run_watermarks_le ops : ∀ w,
  Forall op_unsigned ops → marks_le w (fold_left run_watermark ops w).
Proof.
  induction ops as [|op ops IH]; intros w Hops; cbn [fold_left]; [done|].
  apply Forall_cons in Hops as [Hop Hops]. etrans; [by apply run_watermark_le|by apply IH].
Qed.

Lemma evaluation_current_spec r w :
  evaluation_current r w = true ↔
  state r = ResultState.Current ∧
  ∀ f, f ∈ watermark_families → family_consulted r f = true →
    family_mark w f <= generation_for_family (rec_evidence r) f.
Proof.
  unfold evaluation_current. destruct (eeqb (state r) ResultState.Current) eqn:E; cbn [negb].
  - apply eeqb_eq in E. rewrite list_forallb_Forall, Forall_forall. split.
    + intros H. split; [done|]. intros f Hf Hc. specialize (H f Hf). cbv beta in H. rewrite Hc in H.
      cbn [negb] in H. lia.
    + intros [_ H] f Hf. cbv beta. specialize (H f Hf). destruct (family_consulted r f); cbn [negb]; [|done].
      specialize (H eq_refl). lia.
  - apply eeqb_neq in E. naive_solver.
Qed.

(** Watermarks only advance. Whatever sequence of advances is attempted, no
    mark decreases, each mark ends at least at every generation it was advanced to,
    and a record that was not current before is not current after: an evaluation
    that evidence has overtaken never becomes current again. *)
Theorem watermarks_monotonic w ops :
  Forall op_unsigned ops →
  let w' := fold_left run_watermark ops w in
  marks_le w w' ∧
  (∀ f g, AdvanceFamily f g ∈ ops → g <= family_mark w' f) ∧
  (∀ k g, AdvanceKey k g ∈ ops → g <= key_mark w' k) ∧
  (∀ r, evaluation_current r w = false → evaluation_current r w' = false).
Proof.
  cbv zeta. intros Hops. pose proof (run_watermarks_le ops w Hops) as Hle. split_and!; [done| | |].
  - clear Hle. revert w. induction Hops as [|op ops Hop Hall IH]; intros w f g; [set_solver|].
    cbn [fold_left]. intros [<-|Hin]%elem_of_cons; [|by apply IH].
    destruct (run_watermarks_le ops (run_watermark w (AdvanceFamily f g)) Hall) as [Hf _].
    specialize (Hf f). cbn [run_watermark] in *. rewrite advance_family_mark, decide_True in Hf by done.
    destruct (families w !! f); lia.
  - clear Hle. revert w. induction Hops as [|op ops Hop Hall IH]; intros w k g; [set_solver|].
    cbn [fold_left]. intros [<-|Hin]%elem_of_cons; [|by apply IH].
    destruct (run_watermarks_le ops (run_watermark w (AdvanceKey k g)) Hall) as [_ Hk].
    specialize (Hk k). cbn [run_watermark] in *. rewrite advance_key_mark, decide_True in Hk by done.
    destruct (keys w !! k); lia.
  - intros r Hr. apply not_true_iff_false. intros H. apply not_true_iff_false in Hr. apply Hr.
    apply evaluation_current_spec in H as [Hs Hc]. apply evaluation_current_spec. split; [done|].
    intros f Hf Hcons. etrans; [apply (proj1 Hle)|by apply Hc].
Qed.

(** ** The dependencies of an evaluation *)

(** What an evaluation depends on: the set and the path always, and under each
    consulted family the family itself and the entities its evidence names. *)
Definition depends_on (r : EvaluationRecord) (set : ConstraintSet) (p : CandidatePath)
    (k : InvalidationKey) : Prop :=
  let consulted f := family_consulted r f = true in
  let v := key_value k in
  match key_kind k with
  | InvalidationKeyKind.ConstraintSet => v = cs_id set
  | InvalidationKeyKind.Path => v = path p
  | InvalidationKeyKind.Node =>
      (consulted EvidenceFamily.Topology ∨ consulted EvidenceFamily.Capability ∨
       consulted EvidenceFamily.FailureDomain) ∧ ∃ n, n ∈ path_nodes p ∧ node n = v
  | InvalidationKeyKind.Link =>
      (consulted EvidenceFamily.Topology ∨ consulted EvidenceFamily.Capability ∨
       consulted EvidenceFamily.FailureDomain) ∧ ∃ l, l ∈ path_links p ∧ link l = v
  | InvalidationKeyKind.LocalityDomain =>
      consulted EvidenceFamily.Topology ∧
      ∃ n d, n ∈ path_nodes p ∧ d ∈ localities n ∧ ref_domain d = v
  | InvalidationKeyKind.Capability =>
      consulted EvidenceFamily.Capability ∧
      (v = 0 ∨ (∃ c, c ∈ constraints set ∧ v ∈ capabilities c) ∨
       (∃ n c, n ∈ path_nodes p ∧ c ∈ node_capabilities n ∧ ref_identity c = v) ∨
       (∃ l c, l ∈ path_links p ∧ c ∈ link_capabilities l ∧ ref_identity c = v))
  | InvalidationKeyKind.FailureDomain =>
      consulted EvidenceFamily.FailureDomain ∧
      (v = 0 ∨ (∃ n d, n ∈ path_nodes p ∧ d ∈ node_domains n ∧ ref_domain d = v) ∨
       (∃ l d, l ∈ path_links p ∧ d ∈ link_domains l ∧ ref_domain d = v))
  | InvalidationKeyKind.IsolationClass =>
      consulted EvidenceFamily.FailureDomain ∧
      ((∃ n i, n ∈ path_nodes p ∧ i ∈ node_isolation n ∧ ref_identity i = v) ∨
       (∃ l i, l ∈ path_links p ∧ i ∈ link_isolation l ∧ ref_identity i = v))
  | InvalidationKeyKind.Policy =>
      consulted EvidenceFamily.Policy ∧
      (v = 0 ∨ ∃ a, a ∈ path_policies p ∧ ref_identity a = v)
  | InvalidationKeyKind.Topology => consulted EvidenceFamily.Topology ∧ v = 0
  | InvalidationKeyKind.Planner => consulted EvidenceFamily.Planner ∧ v = 0
  | InvalidationKeyKind.LinkState => consulted EvidenceFamily.LinkState ∧ v = 0
  | InvalidationKeyKind.PathAuthority => consulted EvidenceFamily.PathAuthority ∧ v = 0
  end.

Lemma elem_of_concat_map {A B} (f : A → list B) l y :
  y ∈ concat (map f l) ↔ ∃ x, x ∈ l ∧ y ∈ f x.
Proof.
  induction l as [|x l IH]; cbn [map concat]; [set_solver|]. rewrite elem_of_app, IH. set_solver.
Qed.

Lemma elem_of_key_map {A} kind (f : A → Z) l k :
  k ∈ map (λ x, key_of kind (f x)) l ↔ key_kind k = kind ∧ ∃ x, x ∈ l ∧ f x = key_value k.
Proof.
  rewrite list_elem_of_fmap. unfold key_of. split.
  - intros (x & -> & Hx). eauto.
  - intros [Hk (x & Hx & E)]. exists x. split; [|done]. destruct k. cbn in *. by subst.
Qed.

Lemma elem_of_key_one kind v k : k = key_of kind v ↔ key_kind k = kind ∧ key_value k = v.
Proof. unfold key_of. destruct k; cbn. naive_solver. Qed.

Lemma elem_of_when {A} (b : bool) (l : list A) x : x ∈ (if b then l else []) ↔ b = true ∧ x ∈ l.
Proof. destruct b; set_solver. Qed.

Lemma topology_keys_spec p k :
  k ∈ topology_keys p ↔
  (key_kind k = InvalidationKeyKind.Topology ∧ key_value k = 0) ∨
  (key_kind k = InvalidationKeyKind.Node ∧ ∃ n, n ∈ path_nodes p ∧ node n = key_value k) ∨
  (key_kind k = InvalidationKeyKind.LocalityDomain ∧
     ∃ n d, n ∈ path_nodes p ∧ d ∈ localities n ∧ ref_domain d = key_value k) ∨
  (key_kind k = InvalidationKeyKind.Link ∧ ∃ l, l ∈ path_links p ∧ link l = key_value k).
Proof.
  unfold topology_keys. rewrite elem_of_cons, elem_of_app, elem_of_concat_map, elem_of_key_one.
  setoid_rewrite elem_of_cons. setoid_rewrite elem_of_key_one. setoid_rewrite elem_of_key_map.
  naive_solver.
Qed.

Lemma capability_keys_spec set p k :
  k ∈ capability_keys set p ↔
  (key_kind k = InvalidationKeyKind.Capability ∧
     (key_value k = 0 ∨ (∃ c, c ∈ constraints set ∧ key_value k ∈ capabilities c) ∨
      (∃ n c, n ∈ path_nodes p ∧ c ∈ node_capabilities n ∧ ref_identity c = key_value k) ∨
      (∃ l c, l ∈ path_links p ∧ c ∈ link_capabilities l ∧ ref_identity c = key_value k))) ∨
  (key_kind k = InvalidationKeyKind.Node ∧ ∃ n, n ∈ path_nodes p ∧ node n = key_value k) ∨
  (key_kind k = InvalidationKeyKind.Link ∧ ∃ l, l ∈ path_links p ∧ link l = key_value k).
Proof.
  unfold capability_keys. rewrite elem_of_cons, !elem_of_app, !elem_of_concat_map, elem_of_key_one.
  setoid_rewrite elem_of_cons. setoid_rewrite elem_of_key_one.
  setoid_rewrite (elem_of_key_map _ ref_identity).
  setoid_rewrite (elem_of_key_map _ (λ x : Z, x)). naive_solver.
Qed.

Lemma failure_domain_keys_spec p k :
  k ∈ failure_domain_keys p ↔
  (key_kind k = InvalidationKeyKind.FailureDomain ∧
     (key_value k = 0 ∨
      (∃ n d, n ∈ path_nodes p ∧ d ∈ node_domains n ∧ ref_domain d = key_value k) ∨
      (∃ l d, l ∈ path_links p ∧ d ∈ link_domains l ∧ ref_domain d = key_value k))) ∨
  (key_kind k = InvalidationKeyKind.IsolationClass ∧
     ((∃ n i, n ∈ path_nodes p ∧ i ∈ node_isolation n ∧ ref_identity i = key_value k) ∨
      (∃ l i, l ∈ path_links p ∧ i ∈ link_isolation l ∧ ref_identity i = key_value k))) ∨
  (key_kind k = InvalidationKeyKind.Node ∧ ∃ n, n ∈ path_nodes p ∧ node n = key_value k) ∨
  (key_kind k = InvalidationKeyKind.Link ∧ ∃ l, l ∈ path_links p ∧ link l = key_value k).
Proof.
  unfold failure_domain_keys. rewrite elem_of_cons, !elem_of_app, !elem_of_concat_map, elem_of_key_one.
  setoid_rewrite elem_of_cons. setoid_rewrite elem_of_app. setoid_rewrite elem_of_key_one.
  setoid_rewrite elem_of_key_map. naive_solver.
Qed.

Lemma policy_keys_spec p k :
  k ∈ policy_keys p ↔
  key_kind k = InvalidationKeyKind.Policy ∧
  (key_value k = 0 ∨ ∃ a, a ∈ path_policies p ∧ ref_identity a = key_value k).
Proof.
  unfold policy_keys. rewrite elem_of_cons, elem_of_key_one, elem_of_key_map. naive_solver.
Qed.

Lemma dependency_keys_elem r set p limits k :
  k ∈ dependency_keys r set p limits ↔ depends_on r set p k.
Proof.
  unfold dependency_keys.
  rewrite (ascending_elem key_ltb), elem_of_list_to_set. unfold dependency_set. cbv zeta.
  rewrite !elem_of_app, !elem_of_when, !elem_of_cons, !elem_of_nil, topology_keys_spec,
    capability_keys_spec, failure_domain_keys_spec, policy_keys_spec, !elem_of_key_one.
  unfold depends_on. cbv zeta. destruct (key_kind k); intuition congruence.
Qed.

(** The keys an evaluation is bound to are exactly its dependencies, each
    once, in ascending order: the set, the path, and for every family the
    evaluation consulted the family and the entities its evidence names. A change of
    an entity of a family that was not consulted invalidates nothing. *)
Theorem dependency_keys_exact r set p limits :
  StronglySorted (λ a b, key_cmp a b < 0) (dependency_keys r set p limits) ∧
  ∀ k, k ∈ dependency_keys r set p limits ↔ depends_on r set p k.
Proof.
  split; [apply (ascending_sorted key_ltb key_cmp)|]. intros k. apply dependency_keys_elem.
Qed.

(** ** Lemmas: encoding *)

#[export] Typeclasses Opaque write_mark write_family_mark encode_watermarks.
#[export] Instance appends_mark k v m : Appends (write_mark k v m).
Proof. unfold write_mark. apply _. Qed.
#[export] Instance appends_family_mark w f : Appends (write_family_mark w f).
Proof. unfold write_family_mark. apply _. Qed.
#[export] Instance appends_watermarks w : Appends (encode_watermarks w).
Proof. unfold encode_watermarks. apply _. Qed.

Definition wire_mark (e : InvalidationKey * Z) : Prop := fits 64 (key_value e.1) ∧ fits 64 e.2.

Lemma reads_key_marks es : ∀ previous out,
  StronglySorted (λ a b, key_cmp a.1 b.1 < 0) es → Forall wire_mark es →
  (∀ p, previous = Some p → Forall (λ e, key_cmp p e.1 < 0) es) →
  (∀ e, e ∈ es → keys out !! e.1 = None) →
  reads (read_key_marks (length es) previous out)
    (put_each (λ e, write_mark (code (key_kind e.1)) (key_value e.1) e.2) es [])
    (mkWatermarks (families out) (list_to_map es ∪ keys out)).
Proof.
  induction es as [|[k m] es IH]; intros previous out Hs Hw Hp Hn; cbn [length read_key_marks].
  { rewrite list_to_map_nil, (left_id_L ∅ (∪)). destruct out. apply reads_ret. }
  apply StronglySorted_inv in Hs as [Hs Hk]. apply Forall_cons in Hw as [[Hw1 Hw2] Hw].
  cbn [fst snd] in *.
  rewrite (put_each_cons (λ e : InvalidationKey * Z, write_mark (code (key_kind e.1)) (key_value e.1) e.2)).
  cbn [fst snd]. unfold write_mark at 1. rewrite !seqw_nil by apply _. rewrite <- !app_assoc.
  eapply reads_bind; [apply reads_u8; by destruct (key_kind k)|]. cbv beta.
  eapply reads_bind; [by apply reads_u8|]. eapply reads_bind; [by apply reads_u16|].
  eapply reads_bind; [by apply reads_u32|]. eapply reads_bind; [by apply reads_u64|].
  eapply reads_bind; [by apply reads_u64|]. cbv beta.
  apply reads_guard; [by destruct (key_kind k)|]. cbv zeta. rewrite of_code_code.
  assert (mkKey (key_kind k) (key_value k) = k) as -> by (by destruct k).
  apply reads_guard.
  { destruct previous as [p|]; [|done]. apply negb_false_iff. rewrite (key_less (cmp := key_cmp)).
    specialize (Hp p eq_refl). apply Forall_cons in Hp as [Hp _]. cbn [fst] in Hp. lia. }
  rewrite list_to_map_cons. cbn [fst snd].
  pose proof (Hn (k, m) (list_elem_of_here _ _)) as Hnone. cbn [fst] in Hnone.
  unfold advance_key. rewrite Hnone. cbn [snd].
  set (out' := mkWatermarks (families out) (<[k:=m]> (keys out))).
  assert (<[k:=m]> (list_to_map es) ∪ keys out = list_to_map es ∪ keys out') as ->.
  { cbn [out' keys]. rewrite <- insert_union_l. apply insert_union_r.
    apply not_elem_of_list_to_map. intros (e & -> & He)%list_elem_of_fmap.
    rewrite Forall_forall in Hk. specialize (Hk e He). cbv beta in Hk.
    rewrite (cmp_refl key_cmp) in Hk. lia. }
  apply (IH (Some k) out'); [done|done|by intros p [= <-]|].
  intros e He. cbn [out' keys]. rewrite Forall_forall in Hk. specialize (Hk e He). cbv beta in Hk.
  rewrite lookup_insert_ne; [apply Hn; by apply list_elem_of_further|].
  intros ->. rewrite (cmp_refl key_cmp) in Hk. lia.
Qed.

Lemma reads_family_marks w fs : ∀ out,
  Forall (λ f, f ≠ EvidenceFamily.None ∧ fits 64 (family_mark w f)) fs → NoDup fs →
  (∀ f, f ∈ fs → families out !! f = None) →
  reads (read_family_marks (length fs) out) (put_each (write_family_mark w) fs [])
    (mkWatermarks (list_to_map (map (λ f, (f, family_mark w f)) fs) ∪ families out) (keys out)).
Proof.
  induction fs as [|f fs IH]; intros out Hw Hnd Hn; cbn [length read_family_marks map].
  { rewrite list_to_map_nil, (left_id_L ∅ (∪)). destruct out. apply reads_ret. }
  apply Forall_cons in Hw as [[Hf Hm] Hw]. apply NoDup_cons in Hnd as [Hnf Hnd].
  rewrite (put_each_cons (write_family_mark w)). unfold write_family_mark at 1.
  rewrite !seqw_nil by apply _. rewrite <- !app_assoc.
  eapply reads_bind; [apply reads_u8; by destruct f|]. cbv beta.
  eapply reads_bind; [by apply reads_u8|]. eapply reads_bind; [by apply reads_u16|].
  eapply reads_bind; [by apply reads_u32|]. eapply reads_bind; [by apply reads_u64|]. cbv beta.
  apply reads_guard; [by destruct f|]. rewrite of_code_code.
  rewrite list_to_map_cons. cbn [fst snd].
  pose proof (Hn f (list_elem_of_here _ _)) as Hnone. unfold advance_family. rewrite Hnone. cbn [snd].
  set (out' := mkWatermarks (<[f:=family_mark w f]> (families out)) (keys out)).
  assert (<[f:=family_mark w f]> (list_to_map (map (λ f, (f, family_mark w f)) fs)) ∪ families out =
    list_to_map (map (λ f, (f, family_mark w f)) fs) ∪ families out') as ->.
  { cbn [out' families]. rewrite <- insert_union_l. apply insert_union_r.
    apply not_elem_of_list_to_map. rewrite map_map. cbn [fst]. by rewrite map_id. }
  apply (IH out'); [done|done|]. intros g Hg. cbn [out' families].
  rewrite lookup_insert_ne; [apply Hn; by apply list_elem_of_further|by intros ->].
Qed.

(** The marks the encoding carries. *)
Record wire_watermarks (limits : Limits) (w : Watermarks) : Prop := {
  ww_count : tracked_keys w <= max_decoded_count limits ∧ fits 32 (tracked_keys w);
  ww_keys : map_Forall (λ k m, fits 64 (key_value k) ∧ fits 64 m) (keys w);
  ww_families : Forall (λ f, fits 64 (family_mark w f)) watermark_families
}.

(** The watermarks after a round trip: every key, and every family but that of the
    constraint sets, which the encoding leaves out. *)
Definition carried (w : Watermarks) : Watermarks :=
  mkWatermarks (list_to_map (map (λ f, (f, family_mark w f)) watermark_families)) (keys w).

Lemma carried_marks w :
  (∀ k, key_mark (carried w) k = key_mark w k) ∧
  (∀ f, f ∈ watermark_families → family_mark (carried w) f = family_mark w f) ∧
  family_mark (carried w) EvidenceFamily.ConstraintSet = 0.
Proof.
  split; [done|]. split.
  - intros f Hf. unfold watermark_families in Hf. rewrite !elem_of_cons, elem_of_nil in Hf.
    destruct Hf as [->|[->|[->|[->|[->|[->|[->|[]]]]]]]]; reflexivity.
  - reflexivity.
Qed.

Lemma reads_watermarks limits w :
  wire_watermarks limits w → reads (decode_watermarks limits) (encode_watermarks w []) (carried w).
Proof.
  intros [[Hc1 Hc2] Hk Hf]. unfold decode_watermarks, encode_watermarks.
  rewrite wrap_small by done. read_field; [by apply reads_bounded_length|].
  assert (Z.to_nat (tracked_keys w) = length (entries key_ltb (keys w))) as ->.
  { rewrite (entries_length key_ltb). unfold tracked_keys. by rewrite Nat2Z.id. }
  read_field.
  { apply reads_key_marks; [apply (entries_sorted key_ltb key_cmp)| |done|done].
    apply Forall_forall. intros [k m] Hin. apply (entries_elem key_ltb) in Hin. by apply Hk. }
  read_field.
  { intros pre post. unfold read_family_count.
    rewrite (reads_bounded_length 16 7 ltac:(done) ltac:(lia) pre post). reflexivity. }
  change (Z.to_nat 7) with (length watermark_families).
  cbn [no_watermarks families keys]. rewrite (right_id_L ∅ (∪)), (entries_to_map key_ltb).
  pose proof (reads_family_marks w watermark_families (mkWatermarks ∅ (keys w))) as H.
  cbn [families keys] in H. rewrite (right_id_L ∅ (∪)) in H. apply H.
  - rewrite Forall_forall in Hf. apply Forall_forall. intros f Hin. split; [|by apply Hf].
    intros ->. unfold watermark_families in Hin. rewrite !elem_of_cons, elem_of_nil in Hin.
    by destruct Hin as [|[|[|[|[|[|[|]]]]]]].
  - apply (bool_decide_unpack _). reflexivity.
  - intros f _. apply lookup_empty.
Qed.

(** Watermarks survive their encoding: decoding what was encoded gives back
    every key mark and the mark of every evidence family but that of the constraint
    sets, which is not written and comes back as zero. *)
Theorem watermarks_roundtrip limits w :
  wire_watermarks limits w →
  ∃ w', (∀ post, decode_watermarks limits (open_reader (encode_watermarks w [] ++ post)) =
      (Some w', mkReader (encode_watermarks w [] ++ post) (size (encode_watermarks w [])) true)) ∧
    keys w' = keys w ∧ (∀ f, f ∈ watermark_families → family_mark w' f = family_mark w f) ∧
    family_mark w' EvidenceFamily.ConstraintSet = 0 ∧
    ∀ r, evaluation_current r w' = evaluation_current r w.
Proof.
  intros Hw. exists (carried w). destruct (carried_marks w) as (_ & Hf & Hc).
  split; [|split; [done|split; [exact Hf|split; [exact Hc|]]]].
  - intros post. apply (reads_watermarks limits w Hw [] post).
  - intros r. apply eq_true_iff_eq. rewrite !evaluation_current_spec.
    apply and_iff_compat_l. split; intros H f Hin Hcons; specialize (H f Hin Hcons);
      rewrite Hf in * by done; done.
Qed.

(** ** Witnesses *)

Definition sample_watermarks : Watermarks :=
  fold_left run_watermark
    [AdvanceFamily EvidenceFamily.Topology 3; AdvanceKey (key_of InvalidationKeyKind.Node 10) 4;
     AdvanceKey (key_of InvalidationKeyKind.Link 2) 1; AdvanceFamily EvidenceFamily.Topology 2]
    no_watermarks.

Lemma watermarks_monotonic_witness :
  let r := sample_record 1 Outcome.Admissible [] [] in
  evaluation_current r no_watermarks = true ∧ evaluation_current r sample_watermarks = false ∧
  evaluation_current r (run_watermark sample_watermarks (AdvanceFamily EvidenceFamily.Policy 9)) =
    false ∧ family_mark sample_watermarks EvidenceFamily.Topology = 3.
Proof.
  cbv zeta. split; [vm_compute; reflexivity|].
  assert (evaluation_current (sample_record 1 Outcome.Admissible [] []) sample_watermarks = false)
    as Hn by (vm_compute; reflexivity).
  destruct (watermarks_monotonic sample_watermarks [AdvanceFamily EvidenceFamily.Policy 9])
    as (_ & _ & _ & H); [repeat constructor; cbn; lia|].
  split; [exact Hn|]. split; [exact (H _ Hn)|vm_compute; reflexivity].
Defined.

Lemma watermarks_roundtrip_witness :
  ∃ w', decode_watermarks default_limits (open_reader (encode_watermarks sample_watermarks [] ++ [])) =
      (Some w', mkReader (encode_watermarks sample_watermarks [] ++ [])
         (size (encode_watermarks sample_watermarks [])) true) ∧
    keys w' = keys sample_watermarks.
Proof.
  destruct (watermarks_roundtrip default_limits sample_watermarks) as (w' & H1 & H2 & _).
  - split.
    + unfold fits. split; [vm_compute; discriminate|]. vm_compute. split; [discriminate|reflexivity].
    + unfold fits. apply (bool_decide_unpack _). vm_compute. exact I.
    + unfold fits. apply (bool_decide_unpack _). vm_compute. exact I.
  - exists w'. split; [apply (H1 [])|exact H2].
Defined.
