(* ===== verification/Persistence.v ===== *)
(** Versioned durable state, [persistence.hpp] and [persistence.cpp]: the envelope
    (magic, version, length, payload, CRC-32C, SHA-256), the encoding of the durable
    state and its semantic validation. The store that writes it is [Store.v].

    A loop of the code that carries a [std::set] of what it has seen and returns
    early is [fold_status] of its body. *)

From Stdlib Require Import ZArith Lia Bool Strings.Byte.
From stdpp Require Import base list numbers strings gmap sets sorting.
From S2P Require Import Prelude Containers Base Codec Digest Lifecycle Constraint Candidate.
From S2P Require Import Evaluation Ordering ConstraintSet Authority Invalidation.

Open Scope string_scope.
Open Scope list_scope.
Open Scope Z_scope.

(** ** Envelope *)

Definition kMagicSize : Z := 8.
Definition kHeaderSize : Z := kMagicSize + 4 + 8.
Definition kTrailerSize : Z := 4 + kSize.
Definition kEnvelopeOverhead : Z := kHeaderSize + kTrailerSize.

(** [kStoreMagic[index]] for [index < kMagicSize]. *)
Definition store_magic : list byte := take (Z.to_nat kMagicSize) (bytes_of_string kStoreMagic).

Definition encode_envelope (payload : list byte) : list byte :=
  (put_each (λ b, put_u8 (to_integer b)) store_magic ;;>
   put_u32 kPersistenceFormatVersion ;;> put_u64 (wrap 64 (size payload)) ;;>
   put_raw payload ;;> put_u32 (crc32c payload) ;;>
   put_raw (finish (update reset payload))) [].

(** [raw.subspan(from)] and [raw.subspan(from, count)]. *)
Definition subspan (from : Z) (raw : list byte) : list byte := drop (Z.to_nat from) raw.
Definition subspan_of (from count : Z) (raw : list byte) : list byte :=
  take (Z.to_nat count) (drop (Z.to_nat from) raw).

(** The loops that compare [count] bytes of two spans. *)
Definition same_bytes (count : Z) (a b : list byte) : bool :=
  forallb (λ index, to_integer (nth index a x00) =? to_integer (nth index b x00))
    (seq 0 (Z.to_nat count)).

(** The header after the magic: version and payload length. *)
Definition read_header : reader (Z * Z) :=
  version ← u32; payload_length ← u64; mret (version, payload_length).

Definition decode_envelope (raw : list byte) (limits : Limits) : Result (list byte) :=
  if size raw <? kEnvelopeOverhead then
    Failure ErrorCode.Truncated "durable envelope is shorter than its header"
  else if negb (same_bytes kMagicSize raw store_magic) then
    Failure ErrorCode.PersistenceCorrupt "durable envelope magic does not match"
  else
    match (read_header (open_reader (subspan kMagicSize raw))).1 with
    | None => Failure ErrorCode.Truncated "durable envelope header is truncated"
    | Some (version, payload_length) =>
        if negb (version =? kPersistenceFormatVersion) then
          Failure ErrorCode.UnsupportedVersion "durable envelope version is not supported"
        else if max_persistence_record_bytes limits <? payload_length then
          Failure ErrorCode.ResourceLimit "durable envelope declares an absurd payload size"
        else
          let expected_total := kEnvelopeOverhead + payload_length in
          if negb (size raw =? expected_total) then
            Failure (if size raw <? expected_total then ErrorCode.Truncated
                     else ErrorCode.TrailingBytes)
              "durable envelope length does not match its declared payload"
          else
            let body := subspan_of kHeaderSize payload_length raw in
            let trailer := subspan (kHeaderSize + payload_length) raw in
            if negb (crc32c body =? assemble 0 0 (take 4 trailer)) then
              Failure ErrorCode.IntegrityMismatch "durable envelope checksum does not match"
            else if negb (same_bytes kSize (subspan 4 trailer) (finish (update reset body))) then
              Failure ErrorCode.IntegrityMismatch "durable envelope digest does not match"
            else Success body
    end.

(** ** The durable state *)

Record CandidatePopulation := mkPopulation {
  pop_set_id : Z;
  pop_candidates : list CandidatePath
}.

Record PersistentState := mkPersistent {
  ps_epoch : Z;
  ps_evidence : EvidenceRequirements;
  ps_watermarks : Watermarks;
  ps_sets : list ConstraintSet;
  ps_evaluations : list EvaluationRecord;
  ps_populations : list CandidatePopulation;
  ps_live_boots : list Z;
  ps_fenced_boots : list FencedBootRecord;
  ps_attempts : list MutationAttemptRecord;
  ps_last_evaluation_generation : Z;
  ps_initialized : bool
}.

(** [PersistentState{}]. *)
Definition empty_persistent_state : PersistentState :=
  mkPersistent 0 (mkRequirements 0 0 0 0 0 0 0 0) no_watermarks [] [] [] [] [] [] 0 false.

Definition encode_population (population : CandidatePopulation) : writing :=
  put_u64 (pop_set_id population) ;;> write_counted encode_candidate (pop_candidates population).

Definition write_requirements (e : EvidenceRequirements) : writing :=
  put_u64 (req_topology e) ;;> put_u64 (req_link_state e) ;;> put_u64 (req_capability e) ;;>
  put_u64 (req_failure_domain e) ;;> put_u64 (req_policy e) ;;> put_u64 (req_planner e) ;;>
  put_u64 (req_path_authority e) ;;> put_u64 (max_evidence_age_ticks e).

Definition encode_persistent_state (st : PersistentState) : writing :=
  put_u64 (ps_epoch st) ;;> put_bool (ps_initialized st) ;;> put_u8 0 ;;> put_u16 0 ;;> put_u32 0 ;;>
  write_requirements (ps_evidence st) ;;> put_u64 (ps_last_evaluation_generation st) ;;>
  encode_watermarks (ps_watermarks st) ;;>
  write_counted encode_constraint_set (ps_sets st) ;;>
  write_counted encode_evaluation (ps_evaluations st) ;;>
  write_counted encode_population (ps_populations st) ;;>
  write_counted put_u64 (ps_live_boots st) ;;>
  write_counted encode_fenced_boot (ps_fenced_boots st) ;;>
  write_counted encode_mutation_attempt (ps_attempts st).

Definition max_populations : Z := 64.

Definition decode_population (limits : Limits) : reader CandidatePopulation :=
  set_id ← or_fail u64; _ ← fail_if (set_id =? 0);
  candidates ← read_counted (decode_candidate limits) (max_candidates_per_evaluation limits);
  mret (mkPopulation set_id candidates).

Definition read_boot : reader Z := boot ← u64; _ ← fail_if (boot =? 0); mret boot.

(** [if (!reader.ok() || !reader.at_end()) return false;] *)
Definition require_end : reader unit := λ r, (if ok_ r && at_end r then Some () else None, r).

Definition decode_persistent_state (limits : Limits) : reader PersistentState :=
  epoch ← u64; initialized ← boolean; padding8 ← u8; padding16 ← u16; padding32 ← u32;
  _ ← fail_if ((negb (epoch =? 0) && negb (is_representable epoch)) || negb (padding8 =? 0) ||
               negb (padding16 =? 0) || negb (padding32 =? 0));
  evidence ← read_requirements; last_generation ← read_generation_field;
  watermarks ← decode_watermarks limits;
  sets ← read_counted (decode_constraint_set limits) (max_constraint_sets limits);
  evaluations ← read_counted (decode_evaluation limits) (max_evaluations_retained limits);
  populations ← read_counted (decode_population limits) max_populations;
  live_boots ← read_counted read_boot (max_fenced_boots limits);
  fenced_boots ← read_counted decode_fenced_boot (max_fenced_boots limits);
  attempts ← read_counted decode_mutation_attempt (max_mutation_attempts limits);
  _ ← require_end;
  mret (mkPersistent epoch evidence watermarks sets evaluations populations live_boots
    fenced_boots attempts last_generation initialized).

(** ** Validation *)

(** [for (x : l) { step }] over a state, with the early returns of [step]. *)
Fixpoint fold_status {S A} (step : S → A → Result S) (s : S) (l : list A) : Result S :=
  match l with
  | [] => Success s
  | x :: rest => let+ s := step s x in fold_status step s rest
  end.

(** [if (!seen.insert(k).second) return Status::failure(code, text);] *)
Definition insert_new {K} `{Countable K} (k : K) (code : ErrorCode.t) (text : string) (seen : gset K)
    : Result (gset K) :=
  if decide (k ∈ seen) then Failure code text else Success ({[k]} ∪ seen).

Definition persisted_set (limits : Limits) (set_ids : gset Z) (s : ConstraintSet) : Result (gset Z) :=
  let+ set_ids := insert_new (cs_id s) ErrorCode.DuplicateIdentity
    "duplicate persisted constraint set identity" set_ids in
  match verify_canonical_constraint_set s limits with
  | Failure code text => Failure code ("persisted constraint set is invalid: " ++ text)%string
  | Success _ => Success set_ids
  end.

Definition persisted_candidate (limits : Limits) (_ : ()) (c : CandidatePath) : Status :=
  match validate_candidate c limits with
  | Failure code text => Failure code ("persisted candidate is invalid: " ++ text)%string
  | Success _ => success
  end.

Definition persisted_population (limits : Limits) (set_ids population_sets : gset Z)
    (population : CandidatePopulation) : Result (gset Z) :=
  if negb (bool_decide (pop_set_id population ∈ set_ids)) then
    Failure ErrorCode.NotFound
      "persisted candidate population binds a constraint set that is not present"
  else
    let+ population_sets := insert_new (pop_set_id population) ErrorCode.DuplicateIdentity
      "duplicate persisted candidate population" population_sets in
    if max_candidates_per_evaluation limits <? size (pop_candidates population) then
      Failure ErrorCode.ResourceLimit "persisted candidate population exceeds the limit"
    else
      let+ _ := fold_status (persisted_candidate limits) () (pop_candidates population) in
      Success population_sets.

(** The reason vector, from the reason before it. *)
Fixpoint persisted_reasons (previous : option Reason) (l : list Reason) : Status :=
  match l with
  | [] => success
  | r :: rest =>
      if negb (eeqb (reason_class_of (reason_code r)) (reason_class r)) then
        Failure ErrorCode.Malformed "persisted reason class disagrees with its code"
      else if match previous with Some p => negb (reason_less p r) | None => false end then
        Failure ErrorCode.Malformed "persisted reason vector is not canonical"
      else persisted_reasons (Some r) rest
  end.

(** The state of the loop over the records: the identities and the current results
    seen, and the highest generation. *)
Record RecordScan := mkScan {
  scan_ids : gset Z;
  scan_current : gset (Z * Z);
  scan_highest : Z
}.

Definition bound_family (record : EvaluationRecord) (_ : ()) (family : EvidenceFamily.t) : Status :=
  if Z.land (rec_consulted record) (family_bit family) =? 0 then success
  else if generation_for_family (rec_evidence record) family =? 0 then
    Failure ErrorCode.Malformed "persisted evaluation consults a family it did not bind"
  else success.

Definition persisted_primary (record : EvaluationRecord) : Status :=
  match reasons record with
  | [] =>
      if negb (reason_code_eqb (primary_reason record) ReasonCode.None) then
        Failure ErrorCode.Malformed "persisted evaluation with no reasons declares a primary reason"
      else success
  | front :: _ =>
      if negb (reason_code_eqb (primary_reason record) (reason_code front)) then Failure ErrorCode.Malformed "persisted primary reason is not the head of the reason vector"
      else success
  end.

Definition persisted_evaluation (limits : Limits) (set_ids : gset Z) (scan : RecordScan)
    (record : EvaluationRecord) : Result RecordScan :=
  let+ ids := insert_new (rec_id record) ErrorCode.DuplicateIdentity
    "duplicate persisted evaluation identity" (scan_ids scan) in
  if negb (is_valid (set_id record)) || negb (is_valid (rec_path record)) ||
     negb (is_valid (rec_authority_generation record)) || negb (is_valid (rec_generation record)) then
    Failure ErrorCode.ImpossibleGeneration
      "persisted evaluation carries an impossible identity or generation"
  else if negb (bool_decide (set_id record ∈ set_ids)) then
    Failure ErrorCode.NotFound "persisted evaluation binds a constraint set that is not present"
  else
    let highest := if scan_highest scan <? rec_generation record then rec_generation record
                   else scan_highest scan in
    let+ _ := persisted_reasons None (reasons record) in
    let+ _ := persisted_primary record in
    if max_explanation_reasons limits <? size (reasons record) then
      Failure ErrorCode.ResourceLimit "persisted reason vector exceeds the limit"
    else
      let+ current :=
        (if eeqb (state record) ResultState.Current then
           insert_new (set_id record, rec_path record) ErrorCode.DuplicateIdentity
             "two current results for the same constraint set and path" (scan_current scan)
         else Success (scan_current scan)) in
      let+ _ := fold_status (bound_family record) () watermark_families in
      Success (mkScan ids current highest).

(** A list of identities that must be valid and distinct. *)
Definition persisted_identity {A} (identity : A → Z) (zero_text duplicate_text : string)
    (seen : gset Z) (x : A) : Result (gset Z) :=
  if negb (is_valid (identity x)) then Failure ErrorCode.InvalidArgument zero_text
  else insert_new (identity x) ErrorCode.DuplicateIdentity duplicate_text seen.

Definition validate_persistent_state (st : PersistentState) (limits : Limits) : Status :=
  match validate_limits limits with
  | Some why => Failure ErrorCode.InvalidArgument why
  | None =>
    if is_valid (ps_epoch st) && negb (is_representable (ps_epoch st)) then
      Failure ErrorCode.ImpossibleGeneration "persisted coordinator epoch is impossible"
    else if max_constraint_sets limits <? size (ps_sets st) then
      Failure ErrorCode.ResourceLimit "persisted constraint set count exceeds the limit"
    else if max_evaluations_retained limits <? size (ps_evaluations st) then
      Failure ErrorCode.ResourceLimit "persisted evaluation count exceeds the limit"
    else if max_fenced_boots limits <? size (ps_fenced_boots st) then
      Failure ErrorCode.ResourceLimit "persisted fenced boot count exceeds the limit"
    else if max_mutation_attempts limits <? size (ps_attempts st) then
      Failure ErrorCode.ResourceLimit "persisted mutation attempt count exceeds the limit"
    else
      let+ set_ids := fold_status (persisted_set limits) ∅ (ps_sets st) in
      let+ _ := fold_status (persisted_population limits set_ids) ∅ (ps_populations st) in
      let+ scan := fold_status (persisted_evaluation limits set_ids) (mkScan ∅ ∅ 0)
        (ps_evaluations st) in
      if (0 <? size (ps_evaluations st)) &&
         (negb (is_valid (ps_last_evaluation_generation st)) ||
          (ps_last_evaluation_generation st <? scan_highest scan)) then
        Failure ErrorCode.ImpossibleGeneration
          "persisted evaluation generation counter is behind its records"
      else if max_fenced_boots limits <? size (ps_live_boots st) then
        Failure ErrorCode.ResourceLimit "persisted live boot count exceeds the limit"
      else
        let+ _ := fold_status (persisted_identity (λ boot, boot)
          "persisted live boot identity is zero" "duplicate persisted live boot") ∅ (ps_live_boots st) in
        let+ _ := fold_status (persisted_identity fb_boot
          "persisted fenced boot identity is zero" "duplicate persisted fenced boot") ∅
          (ps_fenced_boots st) in
        let+ _ := fold_status (persisted_identity at_attempt
          "persisted mutation attempt identity is zero" "duplicate persisted mutation attempt") ∅
          (ps_attempts st) in
        success
  end.

Definition persistent_state_digest (st : PersistentState) : Digest256 :=
  digest_of "crf.persistent-state.v1" (hash_bytes (encode_persistent_state st [])).

(** ** Lemmas: the envelope *)

Lemma le_bytes_val bs : le_bytes (length bs) (le_val bs) = bs.
Proof.
  induction bs as [|b bs IH]; [done|]. cbn [length le_bytes le_val].
  pose proof (to_integer_bound b). f_equal.
  - rewrite <- byte_of_Z_mod.
    by rewrite (Z.mul_comm 256), Z_mod_plus_full, byte_of_Z_mod, byte_of_Z_to_integer.
  - rewrite Z.shiftr_div_pow2 by lia. change (2 ^ 8) with 256.
    rewrite (Z.mul_comm 256), Z.div_add, (Z.div_small (to_integer b)) by lia. exact IH.
Qed.

Lemma le_bytes_size n v : size (le_bytes n v) = Z.of_nat n.
Proof. unfold size. by rewrite le_bytes_length. Qed.

Lemma le_val_bound bs : le_val bs < 2 ^ (8 * size bs).
Proof.
  induction bs as [|b bs IH]; [done|]. cbn [le_val]. pose proof (to_integer_bound b).
  change (b :: bs) with ([b] ++ bs). rewrite size_app. change (size [b]) with 1.
  rewrite Z.mul_add_distr_l, Z.pow_add_r by (unfold size; lia).
  change (2 ^ (8 * 1)) with 256. lia.
Qed.

Lemma same_bytes_spec count a b :
  0 <= count → count <= size a → count <= size b →
  same_bytes count a b = true ↔ take (Z.to_nat count) a = take (Z.to_nat count) b.
Proof.
  unfold same_bytes, size. intros Hc Ha Hb. rewrite <- (Z2Nat.id count) in Ha, Hb by done.
  generalize (Z.to_nat count) Ha Hb. clear. intros n. rewrite list_forallb_Forall, Forall_forall.
  intros Ha Hb. split.
  - intros H. apply list_eq. intros i. destruct (decide (i < n)%nat) as [Hi|Hi].
    + rewrite !lookup_take_lt by done. specialize (H i).
      rewrite elem_of_seq in H. specialize (H ltac:(lia)). apply Z.eqb_eq in H.
      assert (nth i a x00 = nth i b x00) as E.
      { rewrite <- (byte_of_Z_to_integer (nth i a x00)), H. apply byte_of_Z_to_integer. }
      rewrite !nth_lookup in E.
      destruct (lookup_lt_is_Some_2 a i) as [x Hx]; [lia|].
      destruct (lookup_lt_is_Some_2 b i) as [y Hy]; [lia|].
      rewrite Hx, Hy in *. simpl in E. by rewrite E.
    + rewrite !lookup_take_ge by lia. done.
  - intros H i Hi%elem_of_seq. apply Z.eqb_eq. f_equal. rewrite !nth_lookup.
    rewrite <- (lookup_take_lt a n i), <- (lookup_take_lt b n i) by lia. by rewrite H.
Qed.

Lemma sha256_size msg : size (sha256 msg) = kSize.
Proof. reflexivity. Qed.

Lemma sha_of payload : finish (update reset payload) = sha256 payload.
Proof. apply finish_absorbed. apply (update_absorbed reset [] payload), absorbed_reset. Qed.

Lemma store_magic_size : size store_magic = kMagicSize.
Proof. reflexivity. Qed.

Lemma put_each_byte bs : put_each (λ b, put_u8 (to_integer b)) bs [] = bs.
Proof.
  induction bs as [|b bs IH]; [done|].
  rewrite (put_each_cons (λ b, put_u8 (to_integer b))), IH. rewrite put_u8_bytes.
  cbn [le_bytes app]. by rewrite byte_of_Z_to_integer.
Qed.

(** The bytes of an envelope. *)
Lemma encode_envelope_bytes p :
  encode_envelope p = store_magic ++ le_bytes 4 kPersistenceFormatVersion ++
    le_bytes 8 (wrap 64 (size p)) ++ p ++ le_bytes 4 (crc32c p) ++ sha256 p.
Proof.
  unfold encode_envelope. rewrite !seqw_nil by apply _.
  rewrite put_each_byte, !put_u32_bytes, put_u64_bytes, sha_of. reflexivity.
Qed.

Lemma encode_envelope_size p : size (encode_envelope p) = kEnvelopeOverhead + size p.
Proof.
  rewrite encode_envelope_bytes, !size_app, !le_bytes_size, sha256_size, store_magic_size.
  unfold kEnvelopeOverhead, kHeaderSize, kTrailerSize. lia.
Qed.

(** A fixed-width read inside the span. *)
Lemma read_fixed n r :
  ok_ r = true → 0 <= position r → position r + Z.of_nat n <= size (data r) →
  (_ ← ensure (Z.of_nat n); bs ← take_bytes (Z.of_nat n); mret (assemble 0 0 bs)) r =
  (Some (le_val (subspan_of (position r) (Z.of_nat n) (data r))),
   mkReader (data r) (position r + Z.of_nat n) true).
Proof.
  intros Hok Hp Hs. unfold mbind, reader_bind, ensure, take_bytes, mret, reader_ret.
  rewrite Hok. cbn [negb]. destruct (_ <? _) eqn:E; [lia|].
  by rewrite assemble_le_val, Hok.
Qed.

Lemma read_u32_at r :
  ok_ r = true → 0 <= position r → position r + 4 <= size (data r) →
  u32 r = (Some (le_val (subspan_of (position r) 4 (data r))),
    mkReader (data r) (position r + 4) true).
Proof. exact (read_fixed 4 r). Qed.

Lemma read_u64_at r :
  ok_ r = true → 0 <= position r → position r + 8 <= size (data r) →
  u64 r = (Some (le_val (subspan_of (position r) 8 (data r))),
    mkReader (data r) (position r + 8) true).
Proof. exact (read_fixed 8 r). Qed.

Lemma subspan_subspan_of a i n raw :
  0 <= a → 0 <= i → subspan_of i n (subspan a raw) = subspan_of (a + i) n raw.
Proof. intros. unfold subspan_of, subspan. rewrite drop_drop. do 2 f_equal. lia. Qed.

Lemma size_subspan a raw : 0 <= a <= size raw → size (subspan a raw) = size raw - a.
Proof. unfold subspan, size. rewrite length_drop. lia. Qed.

Lemma size_subspan_of a n raw :
  0 <= a → 0 <= n → a + n <= size raw → size (subspan_of a n raw) = n.
Proof. unfold subspan_of, size. rewrite length_take, length_drop. lia. Qed.

Lemma read_header_at raw :
  kEnvelopeOverhead <= size raw →
  (read_header (open_reader (subspan kMagicSize raw))).1 =
  Some (le_val (subspan_of 8 4 raw), le_val (subspan_of 12 8 raw)).
Proof.
  unfold kEnvelopeOverhead, kHeaderSize, kTrailerSize, kMagicSize, kSize. intros Hs.
  pose proof (size_subspan 8 raw ltac:(lia)) as Hd.
  unfold read_header. unfold mbind at 1, reader_bind at 1.
  rewrite read_u32_at by (cbn [open_reader ok_ position data]; lia || done).
  unfold mbind at 1, reader_bind at 1.
  rewrite read_u64_at by (cbn [open_reader ok_ position data]; lia || done).
  cbn [open_reader ok_ position data]. rewrite !subspan_subspan_of by lia. reflexivity.
Qed.

(** What a decoded envelope holds, field by field. *)
Definition envelope_fields (limits : Limits) (raw p : list byte) : Prop :=
  size raw = kEnvelopeOverhead + size p ∧ size p <= max_persistence_record_bytes limits ∧
  subspan_of 0 8 raw = store_magic ∧ le_val (subspan_of 8 4 raw) = kPersistenceFormatVersion ∧
  le_val (subspan_of 12 8 raw) = size p ∧ subspan_of 20 (size p) raw = p ∧
  le_val (subspan_of (20 + size p) 4 raw) = crc32c p ∧
  subspan_of (24 + size p) 32 raw = sha256 p.

Lemma same_store_magic raw :
  kEnvelopeOverhead <= size raw →
  same_bytes kMagicSize raw store_magic = true ↔ subspan_of 0 8 raw = store_magic.
Proof.
  unfold kEnvelopeOverhead, kHeaderSize, kTrailerSize, kMagicSize, kSize. intros Hs.
  rewrite same_bytes_spec; [reflexivity|lia|lia|done].
Qed.

Lemma same_digest raw n msg :
  0 <= n → size raw = kEnvelopeOverhead + n →
  same_bytes kSize (subspan 4 (subspan (kHeaderSize + n) raw)) (sha256 msg) = true ↔
  subspan_of (24 + n) 32 raw = sha256 msg.
Proof.
  unfold kEnvelopeOverhead, kHeaderSize, kTrailerSize, kMagicSize, kSize. intros Hn Hs.
  assert (size (subspan (8 + 4 + 8 + n) raw) = 36) as H1 by (rewrite size_subspan; lia).
  rewrite same_bytes_spec; [|lia|rewrite size_subspan; lia|done].
  replace (24 + n) with ((8 + 4 + 8 + n) + 4) by lia.
  rewrite <- subspan_subspan_of by lia. reflexivity.
Qed.

Lemma decode_envelope_fields limits raw p :
  decode_envelope raw limits = Success p ↔ envelope_fields limits raw p.
Proof.
  unfold decode_envelope, envelope_fields.
  destruct (size raw <? kEnvelopeOverhead) eqn:E1.
  { split; [done|]. intros [H _]. pose proof (size_nonneg p). lia. }
  assert (kEnvelopeOverhead <= size raw) as Hs by lia. rewrite read_header_at by done.
  set (n := le_val (subspan_of 12 8 raw)). pose proof (le_val_nonneg (subspan_of 12 8 raw)) as Hn.
  pose proof (same_store_magic raw Hs) as Hm.
  destruct (same_bytes _ raw _); cbn [negb].
  2: { split; [done|]. intros (_ & _ & H & _). apply Hm in H. done. }
  destruct (le_val _ =? kPersistenceFormatVersion) eqn:E2; cbn [negb];
    [|split; [done|]; intros H; destruct_and! H; lia].
  destruct (_ <? n) eqn:E3; [split; [done|]; intros H; destruct_and! H; lia|].
  destruct (size raw =? _) eqn:E4; cbn [negb]; [|split; [done|]; intros H; destruct_and! H; lia].
  apply Z.eqb_eq in E4. pose proof (λ m, same_digest raw n m Hn E4) as Hd.
  rewrite sha_of, assemble_le_val. change kHeaderSize with 20 in *.
  assert (take 4 (subspan (20 + n) raw) = subspan_of (20 + n) 4 raw) as -> by done.
  assert (size (subspan_of 20 n raw) = n) as Hb.
  { apply size_subspan_of; [lia|done|]. change kEnvelopeOverhead with 56 in *. lia. }
  destruct (crc32c _ =? _) eqn:E5; cbn [negb].
  2: { split; [done|]. intros (_ & _ & _ & _ & Hz & Hp & Hc & _). fold n in Hz.
       rewrite Hz, Hp in *. lia. }
  specialize (Hd (subspan_of 20 n raw)). destruct (same_bytes _ _ _); cbn [negb].
  - split.
    + intros [= <-]. rewrite Hb. destruct Hd as [Hd _]. destruct Hm as [Hm _].
      split_and!; auto; lia.
    + intros (_ & _ & _ & _ & Hz & Hp & _). fold n in Hz. by rewrite Hz, Hp.
  - split; [done|]. intros (_ & _ & _ & _ & Hz & Hp & _ & Hsha). fold n in Hz.
    rewrite Hz, Hp in Hd. rewrite <- Hz in Hsha. destruct Hd as [_ Hd]. rewrite <- Hz in Hd.
    specialize (Hd Hsha). done.
Qed.

(** The fields in order are the envelope of the payload. *)
Lemma subspan_of_app a b raw :
  0 <= a → 0 <= b → subspan_of a b raw ++ subspan (a + b) raw = subspan a raw.
Proof.
  intros Ha Hb. unfold subspan_of, subspan. rewrite Z2Nat.inj_add by done.
  rewrite <- drop_drop. apply take_drop.
Qed.

Lemma subspan_of_all a n raw :
  0 <= a → 0 <= n → size raw = a + n → subspan_of a n raw = subspan a raw.
Proof.
  unfold subspan_of, subspan, size. intros Ha Hn Hs. apply take_ge. rewrite length_drop. lia.
Qed.

Lemma le_bytes_subspan n a raw :
  0 <= a → a + Z.of_nat n <= size raw →
  le_bytes n (le_val (subspan_of a (Z.of_nat n) raw)) = subspan_of a (Z.of_nat n) raw.
Proof.
  intros Ha Hs. pose proof (size_subspan_of a (Z.of_nat n) raw Ha ltac:(lia) Hs) as H.
  unfold size in H. apply Nat2Z.inj in H.
  pose proof (le_bytes_val (subspan_of a (Z.of_nat n) raw)) as E. by rewrite H in E.
Qed.

Lemma envelope_fields_bytes limits raw p :
  limits_ok limits = true → envelope_fields limits raw p → raw = encode_envelope p.
Proof.
  intros HL (Hs & Hmax & Hm & Hv & Hn & Hp & Hc & Hd).
  pose proof (limits_ok_entry limits 17 _ HL eq_refl) as Lp. cbn [snd] in Lp.
  pose proof (size_nonneg p). change kEnvelopeOverhead with 56 in Hs.
  rewrite encode_envelope_bytes, wrap_small by (unfold fits; lia).
  rewrite <- Hm at 1. rewrite <- Hv, <- Hn at 1.
  rewrite (le_bytes_subspan 4 8), (le_bytes_subspan 8 12) by lia.
  rewrite <- Hc, (le_bytes_subspan 4), <- Hd by lia. rewrite <- Hp at 1.
  change raw with (subspan 0 raw) at 1.
  rewrite <- (subspan_of_app 0 8), <- (subspan_of_app (0 + 8) 4), <- (subspan_of_app (0 + 8 + 4) 8),
    <- (subspan_of_app (0 + 8 + 4 + 8) (size p)), <- (subspan_of_app (0 + 8 + 4 + 8 + size p) 4) by lia.
  replace (0 + 8 + 4 + 8 + size p + 4) with (24 + size p) by lia.
  rewrite <- (subspan_of_all (24 + size p) 32) by lia. repeat f_equal; lia.
Qed.

Lemma subspan_of_middle pre bs post a n :
  a = size pre → n = size bs → subspan_of a n (pre ++ bs ++ post) = bs.
Proof.
  intros -> ->. unfold subspan_of, size. rewrite !Nat2Z.id, drop_app_length. apply take_app_length.
Qed.

Lemma fits_bits n a i : fits n a → n <= i → Z.testbit a i = false.
Proof.
  intros [H0 H1] Hi. destruct (decide (n < 0)) as [Hn|Hn]; [rewrite Z.pow_neg_r in H1; lia|].
  rewrite Z.testbit_odd, Z.shiftr_div_pow2 by lia.
  rewrite Z.div_small; [done|]. split; [done|]. pose proof (Z.pow_le_mono_r 2 n i). lia.
Qed.

Lemma fits_lxor n a b : 0 <= n → fits n a → fits n b → fits n (Z.lxor a b).
Proof.
  intros Hn Ha Hb. assert (Z.lxor a b = Z.lxor a b mod 2 ^ n) as ->.
  - rewrite <- Z.land_ones by done. apply Z.bits_inj'. intros i Hi.
    rewrite Z.land_spec, Z.lxor_spec. destruct (decide (i < n)) as [Hin|Hin].
    + rewrite Z.ones_spec_low by lia. by rewrite andb_true_r.
    + by rewrite (fits_bits n a), (fits_bits n b) by (done || lia).
  - unfold fits. apply Z.mod_pos_bound. lia.
Qed.

Lemma fits_shiftr n a k : 0 <= k → fits n a → fits n (Z.shiftr a k).
Proof.
  intros Hk [H0 H1]. rewrite Z.shiftr_div_pow2 by done. pose proof (Z.pow_pos_nonneg 2 k).
  split; [apply Z.div_pos; lia|]. apply Z.div_lt_upper_bound; [lia|nia].
Qed.

Lemma crc_bit_fits x : fits 32 x → fits 32 (crc_bit x).
Proof.
  intros H. unfold crc_bit. pose proof (fits_shiftr 32 x 1 ltac:(lia) H).
  destruct (negb _); [|done]. by apply fits_lxor.
Qed.

Lemma crc_update_fits crc b : fits 32 crc → fits 32 (crc_update crc b).
Proof.
  intros H. unfold crc_update. apply fits_lxor; [lia| |by apply fits_shiftr].
  change 0xff with (Z.ones 8). rewrite Z.land_ones by lia.
  pose proof (Z.mod_pos_bound (Z.lxor crc (to_integer b)) (2 ^ 8) ltac:(lia)) as Hi.
  rewrite crc_table_lookup by exact Hi. unfold crc_entry.
  assert (∀ k x, fits 32 x → fits 32 (Nat.iter k crc_bit x)) as Hit.
  { intros k x Hx. induction k; [done|]. by apply crc_bit_fits. }
  apply Hit. change 0xff with (Z.ones 8). rewrite Z.land_ones by lia.
  unfold fits. pose proof (Z.mod_pos_bound (Z.lxor crc (to_integer b) mod 2 ^ 8) (2 ^ 8)). lia.
Qed.

Lemma crc_fits payload : fits 32 (crc32c payload).
Proof.
  unfold crc32c. apply fits_lxor; [lia| |done].
  assert (fits 32 0xffffffff) as H by done. revert H. generalize 0xffffffff.
  induction payload as [|b bs IH]; intros crc H; [done|]. apply IH. by apply crc_update_fits.
Qed.

Lemma envelope_bytes_fields limits p :
  limits_ok limits = true → size p <= max_persistence_record_bytes limits →
  envelope_fields limits (encode_envelope p) p.
Proof.
  intros HL Hmax. pose proof (limits_ok_entry limits 17 _ HL eq_refl) as Lp. cbn [snd] in Lp.
  unfold envelope_fields. split; [apply encode_envelope_size|]. split; [done|].
  rewrite encode_envelope_bytes, wrap_small by (unfold fits; pose proof (size_nonneg p); lia).
  set (m := store_magic). set (v := le_bytes 4 kPersistenceFormatVersion).
  set (n := le_bytes 8 (size p)). set (c := le_bytes 4 (crc32c p)). set (d := sha256 p).
  split_and!.
  - apply (subspan_of_middle [] m); reflexivity.
  - rewrite (subspan_of_middle m v); reflexivity.
  - replace (m ++ v ++ n ++ p ++ c ++ d) with ((m ++ v) ++ n ++ p ++ c ++ d)
      by (by rewrite <- !app_assoc).
    rewrite (subspan_of_middle (m ++ v) n) by reflexivity. apply (le_val_bytes 8). unfold fits. pose proof (size_nonneg p). lia.
  - replace (m ++ v ++ n ++ p ++ c ++ d) with ((m ++ v ++ n) ++ p ++ c ++ d)
      by (by rewrite <- !app_assoc).
    by apply subspan_of_middle.
  - replace (m ++ v ++ n ++ p ++ c ++ d) with ((m ++ v ++ n ++ p) ++ c ++ d)
      by (by rewrite <- !app_assoc).
    rewrite (subspan_of_middle _ c); [apply (le_val_bytes 4), crc_fits| |reflexivity].
    rewrite !size_app. change (size m) with 8. change (size v) with 4. change (size n) with 8. lia.
  - replace (m ++ v ++ n ++ p ++ c ++ d) with ((m ++ v ++ n ++ p ++ c) ++ d ++ [])
      by (by rewrite <- !app_assoc, app_nil_r).
    apply subspan_of_middle; [|reflexivity].
    rewrite !size_app. change (size m) with 8. change (size v) with 4. change (size n) with 8.
    change (size c) with 4. lia.
Qed.

(** C32: The envelope is exact. Decoding succeeds on the bytes [encode_envelope]
    produces for a payload within the record limit, returning that payload, and on no
    other bytes: a truncated, extended, re-versioned or altered file is refused. *)
Theorem envelope_exact limits raw payload :
  limits_ok limits = true →
  decode_envelope raw limits = Success payload ↔
  raw = encode_envelope payload ∧ size payload <= max_persistence_record_bytes limits.
Proof.
  intros HL. rewrite decode_envelope_fields. split.
  - intros H. split; [by eapply envelope_fields_bytes|]. by destruct H as (_ & H & _).
  - intros [-> Hmax]. by apply envelope_bytes_fields.
Qed.

(** ** Lemmas: validation *)

Lemma fold_status_unit {A} (step : () → A → Status) (P : A → Prop) l :
  (∀ x, step () x = success ↔ P x) → fold_status step () l = success ↔ Forall P l.
Proof.
  intros Hs. induction l as [|x l IH]; [by split|]. cbn [fold_status].
  rewrite Forall_cons, <- IH, <- Hs. unfold rbind.
  destruct (step () x) as [[]|] eqn:E; naive_solver.
Qed.

Lemma insert_new_Success {K} `{Countable K} (k : K) code text seen seen' :
  insert_new k code text seen = Success seen' ↔ k ∉ seen ∧ seen' = {[k]} ∪ seen.
Proof. unfold insert_new. destruct (decide _); naive_solver. Qed.

(** A loop that keeps the set of the keys it has met accepts exactly the lists whose
    elements it accepts and whose keys are distinct. *)
Lemma fold_status_distinct {A K} `{Countable K} (step : gset K → A → Result (gset K)) (key : A → K)
    (P : A → Prop) l :
  (∀ x seen seen', step seen x = Success seen' ↔ P x ∧ key x ∉ seen ∧ seen' = {[key x]} ∪ seen) →
  ∀ seen seen', fold_status step seen l = Success seen' ↔
    Forall P l ∧ NoDup (map key l) ∧ Forall (λ x, key x ∉ seen) l ∧
    seen' = list_to_set (map key l) ∪ seen.
Proof.
  intros Hs. induction l as [|x l IH]; intros seen seen'; cbn [fold_status map].
  { rewrite list_to_set_nil, (left_id_L ∅ (∪)). split; [|naive_solver].
    intros [= <-]. split_and!; auto; constructor. }
  rewrite rbind_Success, !Forall_cons, NoDup_cons, list_to_set_cons. split.
  - intros (s1 & (Hp & Hk & ->)%Hs & (H1 & H2 & H3 & ->)%IH). rewrite Forall_forall in H3.
    split_and!; auto.
    + intros (y & Hy & Hin)%list_elem_of_fmap. specialize (H3 y Hin). rewrite <- Hy in H3.
      apply H3, elem_of_union_l, elem_of_singleton. done.
    + apply Forall_forall. intros y Hy Hn. apply (H3 y Hy), elem_of_union_r, Hn.
    + by rewrite (assoc_L (∪)), (comm_L (∪) _ {[key x]}).
  - intros ((Hp & H1) & (Hk & H2) & (Hn & H3) & ->). exists ({[key x]} ∪ seen).
    split; [by apply Hs|]. apply IH. split_and!; auto.
    + rewrite Forall_forall in H3. apply Forall_forall. intros y Hy [Hin|Hin]%elem_of_union.
      * apply elem_of_singleton in Hin. apply Hk. rewrite <- Hin. by apply list_elem_of_fmap_2.
      * by apply (H3 y Hy).
    + by rewrite (assoc_L (∪)), (comm_L (∪) _ {[key x]}).
Qed.

Lemma fold_status_identities {A K} `{Countable K} (step : gset K → A → Result (gset K)) (key : A → K)
    (P : A → Prop) l s :
  (∀ x seen seen', step seen x = Success seen' ↔ P x ∧ key x ∉ seen ∧ seen' = {[key x]} ∪ seen) →
  fold_status step ∅ l = Success s ↔
    Forall P l ∧ NoDup (map key l) ∧ s = list_to_set (map key l).
Proof.
  intros Hs. rewrite (fold_status_distinct step key P l Hs), (right_id_L ∅ (∪)).
  split; [naive_solver|]. intros (H1 & H2 & ->). split_and!; auto.
  apply Forall_forall. intros x _. apply not_elem_of_empty.
Qed.

Lemma persisted_set_Success limits s seen seen' :
  persisted_set limits seen s = Success seen' ↔
  ok (verify_canonical_constraint_set s limits) = true ∧ cs_id s ∉ seen ∧ seen' = {[cs_id s]} ∪ seen.
Proof.
  unfold persisted_set. rewrite rbind_Success. setoid_rewrite insert_new_Success.
  destruct (verify_canonical_constraint_set s limits) as [[]|]; simpl; naive_solver.
Qed.

Lemma persisted_candidate_Success limits c :
  persisted_candidate limits () c = success ↔ ok (validate_candidate c limits) = true.
Proof. unfold persisted_candidate. destruct (validate_candidate c limits) as [[]|]; naive_solver. Qed.

Definition population_ok (limits : Limits) (set_ids : gset Z) (p : CandidatePopulation) : Prop :=
  pop_set_id p ∈ set_ids ∧ size (pop_candidates p) <= max_candidates_per_evaluation limits ∧
  Forall (λ c, ok (validate_candidate c limits) = true) (pop_candidates p).

Lemma persisted_population_Success limits set_ids p seen seen' :
  persisted_population limits set_ids seen p = Success seen' ↔
  population_ok limits set_ids p ∧ pop_set_id p ∉ seen ∧ seen' = {[pop_set_id p]} ∪ seen.
Proof.
  unfold persisted_population, population_ok. case_bool_decide as Hin; cbn [negb]; [|naive_solver].
  rewrite rbind_Success. setoid_rewrite insert_new_Success.
  pose proof (fold_status_unit (persisted_candidate limits) _ (pop_candidates p)
    (persisted_candidate_Success limits)) as Hc.
  destruct (_ <? _) eqn:E.
  { split; [naive_solver|]. intros ((_ & H & _) & _). lia. }
  split.
  - intros (s & (Hn & ->) & Hr). apply rbind_Success in Hr as ([] & Hf & [= <-]).
    apply Hc in Hf. split_and!; auto; lia.
  - intros ((_ & _ & Hf) & Hn & ->). eexists; split; [by split|].
    apply rbind_Success. exists (). split; [by apply Hc|done].
Qed.

Lemma persisted_identity_Success {A} (identity : A → Z) t1 t2 seen x seen' :
  persisted_identity identity t1 t2 seen x = Success seen' ↔
  identity x ≠ 0 ∧ identity x ∉ seen ∧ seen' = {[identity x]} ∪ seen.
Proof.
  unfold persisted_identity. destruct (is_valid (identity x)) eqn:E; cbn [negb].
  - apply is_valid_true in E. rewrite insert_new_Success. naive_solver.
  - apply is_valid_false in E. naive_solver.
Qed.

(** *** Records *)

Definition canonical_reasons (l : list Reason) : Prop :=
  StronglySorted (λ a b, compare_reason a b < 0) l ∧
  Forall (λ r, reason_class_of (reason_code r) = reason_class r) l.

Lemma persisted_reasons_success l : ∀ previous,
  persisted_reasons previous l = success ↔
  canonical_reasons l ∧
  match previous with Some p => Forall (λ r, compare_reason p r < 0) l | None => True end.
Proof.
  unfold canonical_reasons.
  induction l as [|r l IH]; intros previous; cbn [persisted_reasons].
  { split; [|done]. intros _. split; [split; constructor|by destruct previous]. }
  rewrite Forall_cons. destruct (eeqb _ _) eqn:E; cbn [negb]; autorewrite with crf in E.
  2: { split; [done|]. intros ((_ & H & _) & _). done. }
  assert ((match previous with Some p => negb (reason_less p r) | None => false end) = false ↔
    match previous with Some p => compare_reason p r < 0 | None => True end) as Hp.
  { destruct previous as [p|]; [|done]. rewrite negb_false_iff, reason_less_cmp. lia. }
  destruct (match previous with Some p => negb (reason_less p r) | None => false end).
  - split; [done|]. intros (_ & H). destruct Hp as [_ Hp]. destruct previous as [p|].
    + apply Forall_cons in H as [H _]. by apply Hp in H.
    + by specialize (Hp I).
  - rewrite (IH (Some r)). destruct Hp as [Hp _]. specialize (Hp eq_refl). split.
    + intros ((Hs & Hc) & Hr). split; [split; [by constructor|done]|].
      destruct previous as [p|]; [|done]. constructor; [done|].
      eapply Forall_impl; [exact Hr|]. intros x Hx.
      eapply (cmp_lt_le_trans compare_reason); [exact Hp|blia].
    + intros ((Hs & _ & Hc) & _). apply StronglySorted_inv in Hs as [Hs Hr]. done.
Qed.

(** The families a record says it consulted are bound to a generation. *)
Definition families_bound (r : EvaluationRecord) : Prop :=
  Forall (λ f, Z.land (rec_consulted r) (family_bit f) ≠ 0 → generation_for_family (rec_evidence r) f ≠ 0)
    watermark_families.

Lemma bound_family_success r f :
  bound_family r () f = success ↔
  (Z.land (rec_consulted r) (family_bit f) ≠ 0 → generation_for_family (rec_evidence r) f ≠ 0).
Proof.
  unfold bound_family. destruct (_ =? 0) eqn:E1; [split; [lia|done]|].
  destruct (generation_for_family _ _ =? 0) eqn:E2; [|split; [lia|done]].
  split; [done|]. intros H. lia.
Qed.

Definition head_code (l : list Reason) : ReasonCode.t :=
  match l with front :: _ => reason_code front | [] => ReasonCode.None end.

Record record_ok (limits : Limits) (set_ids : gset Z) (r : EvaluationRecord) : Prop := {
  rk_identities : set_id r ≠ 0 ∧ rec_path r ≠ 0 ∧ rec_authority_generation r ≠ 0 ∧ rec_generation r ≠ 0;
  rk_set : set_id r ∈ set_ids;
  rk_reasons : canonical_reasons (reasons r);
  rk_primary : reason_code_eqb (primary_reason r) (head_code (reasons r)) = true;
  rk_bound : size (reasons r) <= max_explanation_reasons limits;
  rk_families : families_bound r
}.

(** The key of a current result. *)
Definition current_key (r : EvaluationRecord) : option (Z * Z) :=
  if eeqb (state r) ResultState.Current then Some (set_id r, rec_path r) else None.
Definition current_keys (l : list EvaluationRecord) : list (Z * Z) := omap current_key l.

Definition scan_next (scan : RecordScan) (r : EvaluationRecord) : RecordScan :=
  mkScan ({[rec_id r]} ∪ scan_ids scan)
    (match current_key r with Some k => {[k]} ∪ scan_current scan | None => scan_current scan end)
    (Z.max (scan_highest scan) (rec_generation r)).

Lemma persisted_primary_success r :
  persisted_primary r = success ↔ reason_code_eqb (primary_reason r) (head_code (reasons r)) = true.
Proof.
  unfold persisted_primary, head_code. destruct (reasons r) as [|front rest];
    destruct (reason_code_eqb _ _); by split.
Qed.

Lemma persisted_evaluation_Success limits set_ids scan r scan' :
  persisted_evaluation limits set_ids scan r = Success scan' ↔
  record_ok limits set_ids r ∧ rec_id r ∉ scan_ids scan ∧
  (∀ k, current_key r = Some k → k ∉ scan_current scan) ∧ scan' = scan_next scan r.
Proof.
  unfold persisted_evaluation, scan_next, current_key. rewrite rbind_Success.
  setoid_rewrite insert_new_Success.
  pose proof (persisted_reasons_success (reasons r) None) as Hr.
  pose proof (persisted_primary_success r) as Hp.
  pose proof (fold_status_unit (bound_family r) _ watermark_families (bound_family_success r)) as Hf.
  assert ((if scan_highest scan <? rec_generation r then rec_generation r else scan_highest scan) =
    Z.max (scan_highest scan) (rec_generation r)) as -> by (destruct (_ <? _) eqn:?; lia).
  destruct (negb (is_valid (set_id r)) || _ || _ || _) eqn:E1.
  { split; [naive_solver|]. intros ([(I1 & I2 & I3 & I4) _ _ _ _ _] & _).
    rewrite !orb_true_iff, !negb_true_iff, !is_valid_false in E1. naive_solver. }
  rewrite !orb_false_iff, !negb_false_iff, !is_valid_true in E1.
  case_bool_decide as E2; cbn [negb]; [|split; [naive_solver|by intros ([] & _)]].
  split.
  - intros (ids & (Hn & ->) & H). apply rbind_Success in H as ([] & H1 & H).
    apply rbind_Success in H as ([] & H2 & H). destruct (_ <? _) eqn:E3; [done|].
    apply rbind_Success in H as (cur & H3 & H). apply rbind_Success in H as ([] & H4 & H).
    injection H as <-. apply Hr in H1 as [H1 _]. apply Hp in H2. apply Hf in H4.
    split; [split; auto; [naive_solver|lia]|]. split; [done|].
    destruct (eeqb _ _); [apply insert_new_Success in H3 as [H3 ->]|injection H3 as <-];
      split; naive_solver.
  - intros ([I1 I2 I3 I4 I5 I6] & Hn & Hc & ->). eexists; split; [split; [exact Hn|reflexivity]|].
    apply rbind_Success. exists (). split; [by apply Hr|].
    apply rbind_Success. exists (). split; [by apply Hp|].
    destruct (_ <? _) eqn:E3; [lia|]. apply rbind_Success.
    eexists. split; [|apply rbind_Success; exists (); split; [by apply Hf|reflexivity]].
    destruct (eeqb _ _); [|reflexivity]. apply insert_new_Success. naive_solver.
Qed.

(** The whole loop, from what it has seen. *)
Definition records_ok (limits : Limits) (set_ids : gset Z) (scan : RecordScan)
    (l : list EvaluationRecord) : Prop :=
  Forall (record_ok limits set_ids) l ∧
  NoDup (map rec_id l) ∧ Forall (λ i, i ∉ scan_ids scan) (map rec_id l) ∧
  NoDup (current_keys l) ∧ Forall (λ k, k ∉ scan_current scan) (current_keys l).

(** Freshness against a set that has grown by one element. *)
Lemma fresh_grown {K} `{Countable K} (k : K) (seen : gset K) (l : list K) :
  k ∉ l ∧ Forall (λ x, x ∉ seen) l ↔ Forall (λ x, x ∉ {[k]} ∪ seen) l.
Proof.
  rewrite !Forall_forall. setoid_rewrite not_elem_of_union. setoid_rewrite not_elem_of_singleton.
  split; [intros [H1 H2] x Hx; split; [by intros ->|auto]|].
  intros H1. split; [intros Hk; by destruct (H1 k Hk)|intros x Hx; by apply H1].
Qed.

Lemma records_ok_cons limits set_ids scan r l :
  records_ok limits set_ids scan (r :: l) ↔
  (record_ok limits set_ids r ∧ rec_id r ∉ scan_ids scan ∧
   ∀ k, current_key r = Some k → k ∉ scan_current scan) ∧
  records_ok limits set_ids (scan_next scan r) l.
Proof.
  unfold records_ok, current_keys, scan_next. cbn [map omap list_omap scan_ids scan_current].
  rewrite <- (fresh_grown (rec_id r)), NoDup_cons, !Forall_cons.
  destruct (current_key r) as [k|].
  - rewrite <- (fresh_grown k), NoDup_cons, Forall_cons. naive_solver.
  - naive_solver.
Qed.

Lemma scan_evaluations limits set_ids l : ∀ scan scan',
  fold_status (persisted_evaluation limits set_ids) scan l = Success scan' ↔
  records_ok limits set_ids scan l ∧ scan' = fold_left scan_next l scan.
Proof.
  induction l as [|r l IH]; intros scan scan'; cbn [fold_status fold_left].
  { split; [intros [= <-]; split; [|done]|by intros (_ & ->)].
    unfold records_ok. cbn [current_keys omap list_omap map]. split_and!; constructor. }
  rewrite rbind_Success, records_ok_cons. setoid_rewrite persisted_evaluation_Success.
  setoid_rewrite IH. naive_solver.
Qed.

Lemma scan_highest_le l g : ∀ scan,
  scan_highest (fold_left scan_next l scan) <= g ↔
  scan_highest scan <= g ∧ Forall (λ r, rec_generation r <= g) l.
Proof.
  induction l as [|r l IH]; intros scan; cbn [fold_left]; [rewrite Forall_nil; naive_solver|].
  rewrite IH, Forall_cons. cbn [scan_next scan_highest]. rewrite Z.max_lub_iff. naive_solver.
Qed.

(** *** The whole state *)

Record state_ok (limits : Limits) (st : PersistentState) : Prop := {
  sk_limits : limits_ok limits = true;
  sk_epoch : ps_epoch st ≠ 0 → is_representable (ps_epoch st) = true;
  sk_counts : size (ps_sets st) <= max_constraint_sets limits ∧
    size (ps_evaluations st) <= max_evaluations_retained limits ∧
    size (ps_live_boots st) <= max_fenced_boots limits ∧
    size (ps_fenced_boots st) <= max_fenced_boots limits ∧
    size (ps_attempts st) <= max_mutation_attempts limits;
  sk_sets : Forall (λ s, ok (verify_canonical_constraint_set s limits) = true) (ps_sets st);
  sk_set_ids : NoDup (map cs_id (ps_sets st));
  sk_populations : Forall (population_ok limits (list_to_set (map cs_id (ps_sets st))))
    (ps_populations st);
  sk_population_sets : NoDup (map pop_set_id (ps_populations st));
  sk_records : Forall (record_ok limits (list_to_set (map cs_id (ps_sets st)))) (ps_evaluations st);
  sk_record_ids : NoDup (map rec_id (ps_evaluations st));
  sk_current : NoDup (current_keys (ps_evaluations st));
  sk_generation : ps_evaluations st ≠ [] → 0 < ps_last_evaluation_generation st ∧
    Forall (λ r, rec_generation r <= ps_last_evaluation_generation st) (ps_evaluations st);
  sk_live : Forall (λ b, b ≠ 0) (ps_live_boots st) ∧ NoDup (ps_live_boots st);
  sk_fenced : Forall (λ r, fb_boot r ≠ 0) (ps_fenced_boots st) ∧ NoDup (map fb_boot (ps_fenced_boots st));
  sk_attempts : Forall (λ r, at_attempt r ≠ 0) (ps_attempts st) ∧ NoDup (map at_attempt (ps_attempts st))
}.

Lemma identities_ok {A} (identity : A → Z) t1 t2 l :
  (∃ seen, fold_status (persisted_identity identity t1 t2) ∅ l = Success seen) ↔
  Forall (λ x, identity x ≠ 0) l ∧ NoDup (map identity l).
Proof.
  setoid_rewrite (fold_status_identities _ identity (λ x, identity x ≠ 0));
    [|intros; apply persisted_identity_Success].
  split; [naive_solver|]. intros [H1 H2]. eauto.
Qed.

Lemma generation_counter_ok g (l : list EvaluationRecord) :
  (0 <? size l) && (negb (is_valid g) || (g <? scan_highest (fold_left scan_next l (mkScan ∅ ∅ 0)))) =
    false ↔ (l ≠ [] → 0 < g ∧ Forall (λ r, rec_generation r <= g) l).
Proof.
  pose proof (scan_highest_le l g (mkScan ∅ ∅ 0)) as Hh. cbn [scan_highest] in Hh.
  destruct l as [|r l]; [by split|]. change (0 <? size (r :: l)) with true. cbn [andb].
  rewrite orb_false_iff, negb_false_iff, is_valid_true, Z.ltb_ge, Hh.
  split; [intros (H1 & H2 & H3) _; split; [lia|done]|].
  intros H. destruct (H ltac:(done)). split_and!; [lia|lia|done].
Qed.

Lemma validate_persistent_state_ok st limits :
  ok (validate_persistent_state st limits) = true ↔ state_ok limits st.
Proof.
  unfold validate_persistent_state. rewrite ok_status. unfold success.
  pose proof (generation_counter_ok (ps_last_evaluation_generation st) (ps_evaluations st)) as Hg.
  pose proof (identities_ok (λ boot, boot) "persisted live boot identity is zero"
    "duplicate persisted live boot" (ps_live_boots st)) as Hl. rewrite map_id in Hl.
  pose proof (identities_ok fb_boot "persisted fenced boot identity is zero"
    "duplicate persisted fenced boot" (ps_fenced_boots st)) as Hf.
  pose proof (identities_ok at_attempt "persisted mutation attempt identity is zero"
    "duplicate persisted mutation attempt" (ps_attempts st)) as Ha.
  destruct (validate_limits limits) as [why|] eqn:E0.
  { split; [done|]. intros []. unfold limits_ok in *. by rewrite E0 in *. }
  destruct (is_valid (ps_epoch st) && _) eqn:E1.
  { split; [done|]. intros [_ H _ _ _ _ _ _ _ _ _ _ _ _].
    apply andb_true_iff in E1 as [Ev%is_valid_true Er%negb_true_iff]. rewrite H in Er; done. }
  do 4 (match goal with |- context [if ?a <? ?b then _ else _] => destruct (a <? b) eqn:? end;
    [split; [done|intros []; destruct_and!; lia]|]).
  rewrite rbind_Success.
  setoid_rewrite (fold_status_identities _ cs_id _ _ _ (persisted_set_Success limits)).
  setoid_rewrite rbind_Success.
  setoid_rewrite (fold_status_identities _ pop_set_id _ _ _ (persisted_population_Success limits _)).
  setoid_rewrite rbind_Success. setoid_rewrite scan_evaluations.
  split.
  - intros (ids & (H1 & H2 & ->) & pids & (H3 & H4 & _) & scan & ((H5 & H6 & _ & H7 & _) & ->) & H).
    destruct (_ && _) eqn:E2 in H; [done|]. destruct Hg as [Hg _]. specialize (Hg E2).
    destruct (_ <? _) eqn:E3 in H; [done|].
    apply rbind_Success in H as (s1 & S1 & H). apply rbind_Success in H as (s2 & S2 & H).
    apply rbind_Success in H as (s3 & S3 & _).
    destruct Hl as [Hl _], Hf as [Hf _], Ha as [Ha _].
    specialize (Hl (ex_intro _ s1 S1)). specialize (Hf (ex_intro _ s2 S2)).
    specialize (Ha (ex_intro _ s3 S3)). constructor; try assumption.
    + unfold limits_ok. by rewrite E0.
    + intros He. apply is_valid_true in He. rewrite He in E1. by apply negb_false_iff in E1.
    + split_and!; lia.
  - intros [_ _ (_ & _ & C & _) H1 H2 H3 H4 H5 H6 H7 H8 H9 H10 H11].
    destruct Hg as [_ Hg]. specialize (Hg H8). apply Hl in H9 as [s1 S1]. apply Hf in H10 as [s2 S2]. apply Ha in H11 as [s3 S3].
    eexists. split; [split_and!; [exact H1|exact H2|reflexivity]|].
    eexists. split; [split_and!; [exact H3|exact H4|reflexivity]|].
    eexists. split.
    { split; [|reflexivity]. split_and!; try done; apply Forall_forall; intros x _; apply not_elem_of_empty. }
    rewrite Hg. apply Z.ltb_ge in C. rewrite C. by rewrite S1, S2, S3.
Qed.

(** ** Lemmas: encoding *)

#[export] Typeclasses Opaque encode_population write_requirements encode_persistent_state.
#[export] Instance appends_population p : Appends (encode_population p).
Proof. unfold encode_population. apply _. Qed.
#[export] Instance appends_write_requirements e : Appends (write_requirements e).
Proof. unfold write_requirements. apply _. Qed.
#[export] Instance appends_persistent_state st : Appends (encode_persistent_state st).
Proof. unfold encode_persistent_state. apply _. Qed.

(** What the encoding needs beyond validation: the machine widths of the fields, and
    the bounds of the decoder that validation does not repeat. *)
Record wire_state (limits : Limits) (st : PersistentState) : Prop := {
  wp_epoch : generation_field (ps_epoch st);
  wp_evidence : wire_requirements (ps_evidence st);
  wp_last : generation_field (ps_last_evaluation_generation st);
  wp_watermarks : wire_watermarks limits (ps_watermarks st);
  wp_sets : Forall (λ s, wire_set s ∧ Z.of_nat (String.length (name s)) <= max_name_bytes limits)
    (ps_sets st);
  wp_evaluations : Forall (wire_evaluation limits) (ps_evaluations st);
  wp_populations : size (ps_populations st) <= max_populations ∧
    Forall (λ p, fits 64 (pop_set_id p) ∧ pop_set_id p ≠ 0 ∧
      Forall (wire_candidate limits) (pop_candidates p)) (ps_populations st);
  wp_live : Forall (fits 64) (ps_live_boots st);
  wp_fenced : Forall wire_fenced (ps_fenced_boots st);
  wp_attempts : Forall wire_attempt (ps_attempts st)
}.

(** The state a decoder hands back: the watermarks come back as [carried]. *)
Definition recovered (st : PersistentState) : PersistentState :=
  mkPersistent (ps_epoch st) (ps_evidence st) (carried (ps_watermarks st)) (ps_sets st)
    (ps_evaluations st) (ps_populations st) (ps_live_boots st) (ps_fenced_boots st)
    (ps_attempts st) (ps_last_evaluation_generation st) (ps_initialized st).

Lemma reads_write_requirements e :
  wire_requirements e → reads read_requirements (write_requirements e []) e.
Proof.
  intros He. pose proof (reads_requirements e mret put_nothing e He (reads_ret e)) as H.
  intros pre post. specialize (H pre post).
  rewrite !seqw_nil in H by apply _. cbn [put_nothing] in H. rewrite app_nil_r in H.
  unfold write_requirements. rewrite !seqw_nil by apply _.
  revert H. unfold mbind, reader_bind, mret, reader_ret. by destruct (read_requirements _) as [[|] ?].
Qed.

Section roundtrip.
Context (limits : Limits) (HL : limits_ok limits = true).

Lemma limit_fits i e n :
  limit_entries limits !! i = Some e → 0 <= n → n <= e.2 → fits 32 n.
Proof. intros He H0 Hn. pose proof (limits_ok_entry limits i e HL He). unfold fits. lia. Qed.

Lemma reads_population p set_ids :
  population_ok limits set_ids p → fits 64 (pop_set_id p) → pop_set_id p ≠ 0 →
  Forall (wire_candidate limits) (pop_candidates p) →
  reads (decode_population limits) (encode_population p []) p.
Proof.
  intros (_ & Hs & Hv) Hf Hz Hw. rewrite Forall_forall in Hv, Hw.
  unfold decode_population, encode_population.
  read_field; [by apply reads_or_fail, reads_u64|]. apply reads_guard; [by apply Z.eqb_neq|].
  read_last.
  - apply reads_counted; [apply _|by apply (limit_fits 4 _ _ eq_refl); [apply size_nonneg|]|done|].
    intros c Hc. apply reads_candidate; auto.
  - destruct p. apply reads_ret.
Qed.

Lemma reads_boot b : fits 64 b → b ≠ 0 → reads read_boot (put_u64 b []) b.
Proof.
  intros Hf Hz. unfold read_boot. read_last; [by apply reads_u64|].
  apply reads_guard; [by apply Z.eqb_neq|apply reads_ret].
Qed.

(** A decoder that also requires the end of the bytes. *)
Definition reads_all {A} (m : reader A) (bs : list byte) (a : A) : Prop :=
  ∀ pre, m (mkReader (pre ++ bs) (size pre) true) =
    (Some a, mkReader (pre ++ bs) (size pre + size bs) true).

Lemma reads_all_seq {A B} (m : reader A) (k : A → reader B) f g `{!Appends g} a b :
  reads m (f []) a → reads_all (k a) (g []) b → reads_all (m ≫= k) ((f ;;> g) []) b.
Proof.
  intros Hm Hk pre. rewrite (seqw_nil f g). unfold mbind, reader_bind. rewrite (Hm pre (g [])).
  specialize (Hk (pre ++ f [])). rewrite <- app_assoc, size_app in Hk. rewrite Hk, size_app.
  do 2 f_equal. lia.
Qed.

Lemma reads_all_last {A B} (m : reader A) (h : A → reader B) bs a b :
  reads m bs a → reads_all (h a) [] b → reads_all (m ≫= h) bs b.
Proof.
  intros Hm Hh pre. unfold mbind, reader_bind. specialize (Hm pre []). rewrite app_nil_r in Hm.
  rewrite Hm. specialize (Hh (pre ++ bs)). rewrite app_nil_r, size_app in Hh. rewrite Hh.
  do 2 f_equal. unfold size. simpl. lia.
Qed.

Lemma reads_all_end {B} (k : () → reader B) b :
  reads (k ()) [] b → reads_all (require_end ≫= k) [] b.
Proof.
  intros Hk pre. rewrite app_nil_r. unfold mbind, reader_bind, require_end, at_end.
  cbn [ok_ position data]. rewrite Z.eqb_refl. cbn [andb].
  specialize (Hk pre []). by rewrite !app_nil_r in Hk.
Qed.

Lemma reads_all_guard {B} (cond : bool) (k : () → reader B) bs b :
  cond = false → reads_all (k ()) bs b → reads_all (fail_if cond ≫= k) bs b.
Proof. by intros ->. Qed.

Ltac field_all := eapply reads_all_seq; [apply _|..|cbv beta].

Lemma reads_persistent_state st :
  state_ok limits st → wire_state limits st →
  reads_all (decode_persistent_state limits) (encode_persistent_state st []) (recovered st).
Proof.
  intros [_ He (C1 & C2 & C3 & C4 & C5) Hs _ Hp _ _ _ _ _ [Hlz _] _ _].
  intros [W1 W2 W3 W4 W5 W6 [W7 W7'] W8 W9 W10].
  rewrite Forall_forall in Hs, W5. rewrite Forall_forall in Hp, W7'. rewrite Forall_forall in Hlz, W8.
  rewrite Forall_forall in W6. rewrite Forall_forall in W9. rewrite Forall_forall in W10.
  unfold decode_persistent_state, encode_persistent_state.
  field_all; [by apply reads_u64, generation_field_fits|]. field_all; [by apply reads_bool|].
  field_all; [by apply reads_u8|]. field_all; [by apply reads_u16|]. field_all; [by apply reads_u32|].
  apply reads_all_guard.
  { rewrite !orb_false_r. destruct (ps_epoch st =? 0) eqn:E; [done|]. cbn [negb andb].
    rewrite He; [done|lia]. }
  field_all; [by apply reads_write_requirements|]. field_all; [by apply reads_generation_field|].
  field_all; [by apply reads_watermarks|].
  field_all.
  { apply reads_counted; [apply _|by apply (limit_fits 0 _ _ eq_refl); [apply size_nonneg|]|done|].
    intros s Hin. destruct (W5 s Hin). apply reads_constraint_set; auto. }
  field_all.
  { apply reads_counted; [apply _|by apply (limit_fits 18 _ _ eq_refl); [apply size_nonneg|]|done|].
    intros r Hin. apply reads_evaluation; auto. }
  field_all.
  { apply reads_counted; [apply _| |done|].
    - unfold fits, max_populations in *. pose proof (size_nonneg (ps_populations st)). lia.
    - intros p Hin. destruct (W7' p Hin) as (? & ? & ?). eapply reads_population; eauto. }
  field_all.
  { apply reads_counted; [apply _|by apply (limit_fits 19 _ _ eq_refl); [apply size_nonneg|]|done|].
    intros b Hin. apply reads_boot; auto. }
  field_all.
  { apply reads_counted; [apply _|by apply (limit_fits 19 _ _ eq_refl); [apply size_nonneg|]|done|].
    intros b Hin. apply reads_fenced_boot; auto. }
  eapply reads_all_last; [|cbv beta].
  { apply reads_counted; [apply _|by apply (limit_fits 20 _ _ eq_refl); [apply size_nonneg|]|done|].
    intros b Hin. apply reads_mutation_attempt; auto. }
  apply reads_all_end. apply reads_ret.
Qed.

End roundtrip.

(** ** What a reader can answer *)

Lemma yields_u64 : yields u64 (λ v, 0 <= v).
Proof.
  unfold u64. do 2 (apply yields_skip; intros). apply yields_ret. rewrite assemble_le_val.
  apply le_val_nonneg.
Qed.

Lemma yields_generation_field : yields read_generation_field (λ v, 0 <= v).
Proof.
  apply (yields_bind _ _ _ _ yields_u64). intros v Hv. destruct (v =? 0); [by apply yields_ret|].
  apply yields_skip. intros _. by apply yields_ret.
Qed.

(** The unsigned fields of a decoded state that the coordinator computes with. *)
Definition unsigned_requirements (e : EvidenceRequirements) : Prop :=
  0 <= req_topology e ∧ 0 <= req_link_state e ∧ 0 <= req_capability e ∧
  0 <= req_failure_domain e ∧ 0 <= req_policy e ∧ 0 <= req_planner e ∧ 0 <= req_path_authority e.

Lemma yields_requirements : yields read_requirements unsigned_requirements.
Proof.
  unfold read_requirements.
  do 7 (apply (yields_bind _ _ _ _ yields_generation_field); intros).
  apply yields_skip. intros age. by apply yields_ret.
Qed.

Lemma yields_persistent_state limits :
  yields (decode_persistent_state limits)
    (λ st, 0 <= ps_epoch st ∧ unsigned_requirements (ps_evidence st)).
Proof.
  unfold decode_persistent_state. apply (yields_bind _ _ _ _ yields_u64). intros epoch He.
  do 5 (apply yields_skip; intros). apply (yields_bind _ _ _ _ yields_requirements). intros e Hu.
  do 9 (apply yields_skip; intros). by apply yields_ret.
Qed.

(** ** Properties *)

(** C37: The semantic validation of the durable state accepts exactly the
    well-formed states: valid limits and counts, distinct set identities with every
    set canonical and intact, populations and records bound to sets that are present,
    canonical explanations headed by the primary reason, at most one current result
    per set and path, no record ahead of the generation counter, and distinct valid
    live boots, fenced boots and attempts. *)
Theorem persistent_state_validation st limits :
  ok (validate_persistent_state st limits) = true ↔ state_ok limits st.
Proof. apply validate_persistent_state_ok. Qed.

(** A valid durable state is read back from its encoding, to the last byte:
    every field but the constraint-set family mark of the watermarks, which is not
    written. The encoding of what was read back is the same. *)
Theorem persistent_state_roundtrip limits st :
  ok (validate_persistent_state st limits) = true → wire_state limits st →
  let bytes := encode_persistent_state st [] in
  decode_persistent_state limits (open_reader bytes) =
    (Some (recovered st), mkReader bytes (size bytes) true) ∧
  ok (validate_persistent_state (recovered st) limits) = true ∧
  encode_persistent_state (recovered st) [] = bytes.
Proof.
  intros Hv%validate_persistent_state_ok Hw bytes. split; [|split].
  - apply (reads_persistent_state limits (sk_limits _ _ Hv) st Hv Hw []).
  - apply validate_persistent_state_ok. destruct Hv. by constructor.
  - reflexivity.
Qed.

(** ** Witnesses *)

Definition sample_state : PersistentState :=
  mkPersistent 3 sample_requirements sample_watermarks [canonical_form sample_set]
    [sample_record 1 Outcome.HardConstraintFailed sample_reasons
       [mkSlot 3 ConstraintKind.MaxHopCount 1 1 10 true 2]]
    [mkPopulation 7 [sample_candidate 1 7]] [11; 12] [mkFenced 10 2 40]
    [mkAttempt 5 zero_digest 41] 4 true.

Lemma sample_state_valid : ok (validate_persistent_state sample_state default_limits) = true.
Proof. vm_compute. reflexivity. Qed.

Lemma sample_evaluation_wire :
  wire_evaluation default_limits (sample_record 1 Outcome.HardConstraintFailed sample_reasons
    [mkSlot 3 ConstraintKind.MaxHopCount 1 1 10 true 2]).
Proof.
  split; cbn; unfold fits, generation_field, size; cbn; try lia.
  - repeat constructor; lia.
  - unfold wire_provenance, generation_field, fits; cbn; lia.
  - split; cbn; unfold fits, generation_field; lia.
  - repeat constructor; cbn; unfold fits; try lia.
  - repeat constructor.
  - reflexivity.
  - repeat constructor; cbn; unfold fits, fits_i64; lia.
  - reflexivity.
Qed.

Lemma sample_watermarks_wire : wire_watermarks default_limits sample_watermarks.
Proof.
  split.
  - unfold fits. split; [vm_compute; discriminate|]. vm_compute. split; [discriminate|reflexivity].
  - unfold fits. apply (bool_decide_unpack _). vm_compute. exact I.
  - unfold fits. apply (bool_decide_unpack _). vm_compute. exact I.
Qed.

Lemma sample_state_wire : wire_state default_limits sample_state.
Proof.
  pose proof sample_form_wire as Hs. pose proof sample_evaluation_wire as He.
  pose proof sample_watermarks_wire as Hw.
  split.
  - split; cbn; lia.
  - by destruct Hs.
  - split; cbn; lia.
  - exact Hw.
  - constructor; [split; [exact Hs|vm_compute; discriminate]|constructor].
  - constructor; [exact He|constructor].
  - split; [vm_compute; discriminate|]. constructor; [|constructor].
    split; [split; cbn; lia|]. split; [discriminate|]. constructor; [apply sample_candidate_wire; lia|constructor].
  - repeat constructor; cbn; lia.
  - constructor; [|constructor]. repeat split; cbn; lia.
  - constructor; [|constructor]. repeat split; cbn; lia.
Qed.

Lemma envelope_exact_witness :
  limits_ok default_limits = true ∧
  decode_envelope (encode_envelope [x01; x02; x03]) default_limits = Success [x01; x02; x03].
Proof.
  split; [reflexivity|]. apply (envelope_exact default_limits _ [x01; x02; x03] eq_refl).
  split; [reflexivity|vm_compute; discriminate].
Defined.

Lemma persistent_state_roundtrip_witness :
  let bytes := encode_persistent_state sample_state [] in
  decode_persistent_state default_limits (open_reader bytes) =
    (Some (recovered sample_state), mkReader bytes (size bytes) true).
Proof.
  destruct (persistent_state_roundtrip default_limits sample_state sample_state_valid
    sample_state_wire) as [H _]. exact H.
Defined.
