(* ===== verification/Store.v ===== *)
(** The durable store, [DurableStore] of [persistence.hpp] and [persistence.cpp] on
    a POSIX system: exclusive ownership of the path, atomic replacement of the file,
    recovery and quarantine.

    The operating system is a parameter: [FileSystem] lists the calls the code makes,
    [FileSystemLaws] what it relies on about them. An instance in memory shows that
    the laws can hold. Closing a descriptor changes nothing the model observes. *)

From Stdlib Require Import ZArith Lia Bool Strings.Byte.
From stdpp Require Import base list numbers strings gmap sets.
From S2P Require Import Prelude Containers Base Codec Digest Lifecycle Constraint Candidate.
From S2P Require Import Evaluation Ordering ConstraintSet Authority Invalidation Persistence.

Open Scope string_scope.
Open Scope list_scope.
Open Scope Z_scope.

(** ** The operating system *)

(** [fs_reads] is [open(path, O_RDONLY)] followed by the answers of the successive
    [read] calls up to the one that returns zero; [None] is a failing call.
    [fs_create] is [open] with [O_WRONLY | O_CREAT | O_TRUNC]; [fs_write] is [write]
    at the end of the descriptor; [fs_open_lock] and [fs_set_lock] are the [open] and
    the [fcntl] of the lock file. *)
Class FileSystem (D : Type) := {
  fs_reads : D → string → option (list (option (list byte)));
  fs_create : string → D → option D;
  fs_write : string → list byte → D → Z * D;
  fs_sync : string → D → bool * D;
  fs_rename : string → string → D → bool * D;
  fs_unlink : string → D → D;
  fs_exists : D → string → bool;
  fs_open_lock : string → D → option D;
  fs_set_lock : string → D → bool * D;
  fs_close_lock : string → D → D
}.

(** What the files of a disk hold, and how the calls act on it. *)
Class FileSystemLaws (D : Type) `{FileSystem D} := {
  contents : D → string → option (list byte);
  law_reads : ∀ d p chunks, fs_reads d p = Some (map Some chunks) → contents d p = Some (concat chunks);
  law_create : ∀ d d' p, fs_create p d = Some d' →
    contents d' p = Some [] ∧ ∀ q, q ≠ p → contents d' q = contents d q;
  law_write : ∀ d d' p bs n old, fs_write p bs d = (n, d') → contents d p = Some old →
    (0 < n → n <= size bs ∧ contents d' p = Some (old ++ take (Z.to_nat n) bs)) ∧
    ∀ q, q ≠ p → contents d' q = contents d q;
  law_sync : ∀ d p q, contents (fs_sync p d).2 q = contents d q;
  law_rename : ∀ d d' a b, fs_rename a b d = (true, d') → a ≠ b →
    contents d' b = contents d a ∧ contents d' a = None ∧
    ∀ q, q ≠ a → q ≠ b → contents d' q = contents d q;
  law_rename_failed : ∀ d d' a b q, fs_rename a b d = (false, d') → contents d' q = contents d q;
  law_unlink : ∀ d p q, q ≠ p → contents (fs_unlink p d) q = contents d q;
  law_exists : ∀ d p, contents d p ≠ None → fs_exists d p = true;
  law_open_lock : ∀ d d' p q, fs_open_lock p d = Some d' → q ≠ p → contents d' q = contents d q;
  law_set_lock : ∀ d p q, q ≠ p → contents (fs_set_lock p d).2 q = contents d q;
  law_close_lock : ∀ d p q, contents (fs_close_lock p d) q = contents d q
}.

(** ** Definitions *)

Record DurableStore := mkStore {
  store_path : string;
  store_limits : Limits;
  writes_ : Z;
  failures_ : Z
}.

Section store.
Context {D : Type} `{FileSystem D}.

(** [while (written < data.size())]: what is left of [data] after each call; a
    positive answer shortens it, so [length data] rounds are enough. *)
Fixpoint write_all (fuel : nat) (path : string) (left : list byte) (d : D) : bool * D :=
  match left, fuel with
  | [], _ => (true, d)
  | _, O => (false, d)
  | _, S fuel =>
      let '(produced, d) := fs_write path left d in
      if produced <=? 0 then (false, d)
      else write_all fuel path (drop (Z.to_nat produced) left) d
  end.

Definition write_failed (text : string) : Status := Failure ErrorCode.DurableWriteFailed text.

Definition atomic_write (path : string) (data : list byte) (d : D) : Status * D :=
  let temporary := (path ++ ".tmp")%string in
  match fs_create temporary d with
  | None => (write_failed "cannot create the temporary store file", d)
  | Some d =>
      let '(written, d) := write_all (length data) temporary data d in
      if negb written then
        (write_failed "cannot write the temporary store file", fs_unlink temporary d)
      else
        let '(flushed, d) := fs_sync temporary d in
        if negb flushed then
          (write_failed "cannot flush the temporary store file", fs_unlink temporary d)
        else
          let '(renamed, d) := fs_rename temporary path d in
          if negb renamed then
            (write_failed "cannot atomically replace the store file", fs_unlink temporary d)
          else (success, d)
  end.

(** The loop of [read_file]: [None] when a call fails. *)
Fixpoint read_answers (out : list byte) (answers : list (option (list byte))) : option (list byte) :=
  match answers with
  | [] => Some out
  | None :: _ => None
  | Some chunk :: rest => read_answers (out ++ chunk) rest
  end.

(** The bytes read, if any, and [exists]. *)
Definition read_file (path : string) (d : D) : option (list byte) * bool :=
  match fs_reads d path with
  | None => (None, false)
  | Some answers => (read_answers [] answers, true)
  end.

Definition acquire_store_lock (path : string) (d : D) : Status * D :=
  let lock_path := (path ++ ".lock")%string in
  match fs_open_lock lock_path d with
  | None => (Failure ErrorCode.PersistenceUnavailable "cannot open the durable store lock file", d)
  | Some d =>
      let '(locked, d) := fs_set_lock lock_path d in
      if negb locked then
        (Failure ErrorCode.PersistenceUnavailable
           "durable store is already owned by another open coordinator", d)
      else (success, d)
  end.

Definition release_store_lock (path : string) (d : D) : D :=
  fs_close_lock (path ++ ".lock")%string d.

Definition count_failure (store : DurableStore) : DurableStore :=
  mkStore (store_path store) (store_limits store) (writes_ store) (wrap 64 (failures_ store + 1)).
Definition count_write (store : DurableStore) : DurableStore :=
  mkStore (store_path store) (store_limits store) (wrap 64 (writes_ store + 1)) (failures_ store).

Definition save (st : PersistentState) (store : DurableStore) (d : D) : Status * DurableStore * D :=
  match validate_persistent_state st (store_limits store) with
  | Failure code text => (Failure code text, store, d)
  | Success _ =>
      let payload := encode_persistent_state st [] in
      if max_persistence_record_bytes (store_limits store) <? size payload then
        (Failure ErrorCode.ResourceLimit "persistent state exceeds the record size limit",
         count_failure store, d)
      else
        match atomic_write (store_path store) (encode_envelope payload) d with
        | (Failure code text, d) => (Failure code text, count_failure store, d)
        | (Success _, d) => (success, count_write store, d)
        end
  end.

Definition load (store : DurableStore) (d : D) : Result PersistentState :=
  match read_file (store_path store) d with
  | (None, false) => Failure ErrorCode.NotFound "durable store file does not exist"
  | (None, true) =>
      Failure ErrorCode.PersistenceUnavailable "durable store file could not be read"
  | (Some raw, _) =>
      match decode_envelope raw (store_limits store) with
      | Failure code text => Failure code text
      | Success payload =>
          match (decode_persistent_state (store_limits store) (open_reader payload)).1 with
          | None => Failure ErrorCode.PersistenceCorrupt "durable state payload is malformed"
          | Some st =>
              match validate_persistent_state st (store_limits store) with
              | Failure _ text => Failure ErrorCode.PersistenceCorrupt text
              | Success _ => Success st
              end
          end
      end
  end.

Definition quarantine_name (path : string) (attempt : nat) : string :=
  (path ++ ".quarantine-" ++ decimal (Z.of_nat attempt))%string.

(** [for (attempt = 1; attempt <= 64; ++attempt)], until a free name. *)
Fixpoint quarantine (path : string) (names : list nat) (d : D) : D :=
  match names with
  | [] => d
  | attempt :: rest =>
      if negb (fs_exists d (quarantine_name path attempt)) then
        (fs_rename path (quarantine_name path attempt) d).2
      else quarantine path rest d
  end.

Definition open (path : string) (limits : Limits) (allow_initialize : bool) (d : D)
    : Result DurableStore * D :=
  match validate_limits limits with
  | Some why => (Failure ErrorCode.InvalidArgument why, d)
  | None =>
    if String.eqb path "" then (Failure ErrorCode.InvalidArgument "durable store path is empty", d)
    else
      let store := mkStore path limits 0 0 in
      match acquire_store_lock path d with
      | (Failure code text, d) => (Failure code text, d)
      | (Success _, d) =>
          match load store d with
          | Success _ => (Success store, d)
          | Failure code text =>
              if eeqb code ErrorCode.NotFound then (Success store, d)
              else if negb allow_initialize then
                (Failure code ("durable store exists but is not usable: " ++ text)%string,
                 release_store_lock path d)
              else (Success store, quarantine path (seq 1 64) d)
          end
      end
  end.

Definition exists_ (store : DurableStore) (d : D) : bool := fs_exists d (store_path store).
End store.

(** ** Lemmas *)

Lemma append_inj (a b c : string) : (a ++ b)%string = (a ++ c)%string → b = c.
Proof. induction a as [|x a IH]; [done|]. intros [= He]. by apply IH. Qed.

Lemma append_ne (a b : string) : b ≠ "" → (a ++ b)%string ≠ a.
Proof.
  intros Hb He. apply Hb, (append_inj a). rewrite He. clear.
  induction a as [|x a IH]; [done|]. change (String x a = String x (a ++ ""))%string. by rewrite <- IH.
Qed.

Lemma quarantine_name_path path n : quarantine_name path n ≠ path.
Proof. by apply append_ne. Qed.

Lemma quarantine_name_lock path n : quarantine_name path n ≠ (path ++ ".lock")%string.
Proof. intros He. apply append_inj in He. discriminate. Qed.

Section store_facts.
Context {D : Type} `{FileSystemLaws D}.

(** Enough rounds: any bound that covers the bytes left gives the same answer. *)
Lemma write_all_fuel f1 : ∀ f2 path left (d : D),
  (length left <= f1)%nat → (length left <= f2)%nat →
  write_all f1 path left d = write_all f2 path left d.
Proof.
  induction f1 as [|f1 IH]; intros f2 path left d H1 H2.
  { destruct left; [|simpl in *; lia]. by destruct f2. }
  destruct left as [|b left], f2 as [|f2]; try (simpl in *; lia); try done.
  cbn [write_all]. destruct (fs_write _ _ _) as [n d']. destruct (n <=? 0) eqn:E; [done|].
  apply IH; rewrite length_drop; cbn [length] in *; lia.
Qed.

Lemma write_all_spec fuel : ∀ path left (d d' : D) old written,
  contents d path = Some old → write_all fuel path left d = (written, d') →
  (written = true → contents d' path = Some (old ++ left)) ∧
  ∀ q, q ≠ path → contents d' q = contents d q.
Proof.
  induction fuel as [|fuel IH]; intros path left d d' old written Hc Hw;
    (destruct left as [|b left]; cbn [write_all] in Hw;
      [injection Hw as <- <-; by rewrite app_nil_r|]); [by injection Hw as <- <-|].
  destruct (fs_write path (b :: left) d) as [n d1] eqn:E.
  destruct (law_write d d1 path _ n old E Hc) as [Hn Hq].
  destruct (n <=? 0) eqn:En; [injection Hw as <- <-; by split|].
  destruct Hn as [Hs Hc']; [lia|].
  destruct (IH _ _ _ _ _ _ Hc' Hw) as [Ht Hq']. split.
  - intros Hwr. rewrite (Ht Hwr), <- app_assoc. by rewrite take_drop.
  - intros q Hne. by rewrite Hq', Hq.
Qed.

(** The replacement is all or nothing for the target, and touches no file but the
    target and the temporary. *)
Lemma atomic_write_spec path data (d d' : D) s :
  atomic_write path data d = (s, d') →
  contents d' path = (if ok s then Some data else contents d path) ∧
  ∀ q, q ≠ path → q ≠ (path ++ ".tmp")%string → contents d' q = contents d q.
Proof.
  unfold atomic_write. set (tmp := (path ++ ".tmp")%string).
  assert (path ≠ tmp) as Hne by (intros Hn; by apply (append_ne path ".tmp")).
  destruct (fs_create tmp d) as [d1|] eqn:E1; [|intros [= <- <-]; by split].
  apply law_create in E1 as [H1 Q1].
  destruct (write_all _ _ _ d1) as [written d2] eqn:E2.
  destruct (write_all_spec _ _ _ _ _ _ _ H1 E2) as [H2 Q2].
  destruct written; cbn [negb].
  2: { intros [= <- <-]. cbn [ok write_failed].
       split; [rewrite law_unlink, Q2, Q1 by done; done|].
       intros q Hp Ht. by rewrite law_unlink, Q2, Q1. }
  pose proof (law_sync d2 tmp) as Q3. destruct (fs_sync tmp d2) as [flushed d3]. cbn [snd] in Q3.
  destruct flushed; cbn [negb].
  2: { intros [= <- <-]. cbn [ok write_failed].
       split; [rewrite law_unlink, Q3, Q2, Q1 by done; done|].
       intros q Hp Ht. by rewrite law_unlink, Q3, Q2, Q1. }
  destruct (fs_rename tmp path d3) as [renamed d4] eqn:E4.
  destruct renamed; cbn [negb]; intros [= <- <-]; cbn [ok success write_failed].
  - apply law_rename in E4 as (H4 & _ & Q4); [|done]. split.
    + rewrite H4, Q3, H2; done.
    + intros q Hp Ht. by rewrite Q4, Q3, Q2, Q1.
  - pose proof (law_rename_failed _ _ _ _ path E4) as Q4. split.
    + by rewrite law_unlink, Q4, Q3, Q2, Q1.
    + intros q Hp Ht. pose proof (law_rename_failed _ _ _ _ q E4) as Q5.
      by rewrite law_unlink, Q5, Q3, Q2, Q1.
Qed.

Lemma read_answers_chunks chunks : ∀ out, read_answers out (map Some chunks) = Some (out ++ concat chunks).
Proof.
  induction chunks as [|c cs IH]; intros out; simpl; [by rewrite app_nil_r|].
  by rewrite IH, <- app_assoc.
Qed.

Lemma read_answers_Some answers : ∀ out raw,
  read_answers out answers = Some raw → ∃ chunks, answers = map Some chunks ∧ raw = out ++ concat chunks.
Proof.
  induction answers as [|[c|] rest IH]; intros out raw; simpl; [|intros Hr|done].
  - intros [= <-]. exists []. by rewrite app_nil_r.
  - apply IH in Hr as (cs & -> & ->). exists (c :: cs). simpl. by rewrite app_assoc.
Qed.

(** What is read is what the file holds. *)
Lemma read_file_contents path (d : D) raw b :
  read_file path d = (Some raw, b) → contents d path = Some raw.
Proof.
  unfold read_file. destruct (fs_reads d path) as [answers|] eqn:E; [|done].
  intros [= Hr _]. apply read_answers_Some in Hr as (chunks & -> & ->). by apply law_reads.
Qed.

Lemma quarantine_spec path names : ∀ (d : D),
  (∀ q, q ≠ path → contents d q ≠ None → contents (quarantine path names d) q = contents d q) ∧
  (contents (quarantine path names d) path = contents d path ∨
   ∃ n, n ∈ names ∧ contents (quarantine path names d) (quarantine_name path n) = contents d path).
Proof.
  induction names as [|n names IH]; intros d; cbn [quarantine]; [by split; [|left]|].
  destruct (fs_exists d (quarantine_name path n)) eqn:E; cbn [negb].
  { destruct (IH d) as [H1 [H2|(m & Hm & H2)]]; (split; [done|]); [by left|].
    right. exists m. split; [by apply list_elem_of_further|done]. }
  pose proof (quarantine_name_path path n) as Hne.
  destruct (fs_rename path _ d) as [[] d1] eqn:E1; cbn [snd].
  - apply law_rename in E1 as (H1 & _ & Q1); [|congruence]. split.
    + intros q Hq Hs. destruct (decide (q = quarantine_name path n)) as [->|]; [|by apply Q1].
      by rewrite law_exists in E.
    + right. exists n. split; [apply list_elem_of_here|done].
  - split; [intros q _ _|left]; by eapply law_rename_failed.
Qed.

Lemma acquire_store_lock_spec path (d d' : D) s :
  acquire_store_lock path d = (s, d') →
  ∀ q, q ≠ (path ++ ".lock")%string → contents d' q = contents d q.
Proof.
  unfold acquire_store_lock. destruct (fs_open_lock _ d) as [d1|] eqn:E1; [|by intros [= <- <-]].
  pose proof (law_set_lock d1 (path ++ ".lock")%string) as Q.
  destruct (fs_set_lock _ d1) as [locked d2]. cbn [snd] in Q.
  intros Hs q Hq. assert (d' = d2) as -> by (destruct locked; by injection Hs).
  rewrite Q by done. by eapply law_open_lock.
Qed.

End store_facts.

(** ** Properties *)

Section store_properties.
Context {D : Type} `{FileSystemLaws D}.

Lemma load_envelope store (d : D) st :
  load store d = Success st →
  ∃ payload, contents d (store_path store) = Some payload.1 ∧
    decode_envelope payload.1 (store_limits store) = Success payload.2 ∧
    (decode_persistent_state (store_limits store) (open_reader payload.2)).1 = Some st ∧
    ok (validate_persistent_state st (store_limits store)) = true.
Proof.
  unfold load. destruct (read_file _ d) as [[raw|] b] eqn:E1; [|by destruct b].
  apply read_file_contents in E1. destruct (decode_envelope _ _) as [payload|] eqn:E2; [|done].
  destruct (decode_persistent_state _ _).1 as [st'|] eqn:E3; [|done].
  destruct (validate_persistent_state _ _) as [[]|] eqn:E4; [|done].
  intros [= ->]. exists (raw, payload). by rewrite E4.
Qed.

(** The store that opening answers, and the disk it leaves: the one it read the file
    from, once the lock was held, unless the file was unusable. *)
Lemma open_store path limits allow (d d' : D) store :
  open path limits allow d = (Success store, d') →
  store = mkStore path limits 0 0 ∧
  ∃ d1, (∀ q, q ≠ (path ++ ".lock")%string → contents d1 q = contents d q) ∧
    match load store d1 with
    | Success _ => d' = d1
    | Failure code _ => if eeqb code ErrorCode.NotFound then d' = d1 else allow = true
    end.
Proof.
  unfold open. destruct (validate_limits limits); [done|]. destruct (String.eqb path ""); [done|].
  destruct (acquire_store_lock path d) as [locked d1] eqn:E1.
  pose proof (acquire_store_lock_spec path d d1 locked E1) as Q1.
  destruct locked as [[]|]; [|done].
  destruct (load _ d1) as [st|code text] eqn:El.
  { intros [= <- <-]. split; [done|]. exists d1. by rewrite El. }
  destruct (eeqb code ErrorCode.NotFound) eqn:En.
  { intros [= <- <-]. split; [done|]. exists d1. by rewrite El, En. }
  destruct allow; cbn [negb]; [|done]. intros [= <- _]. split; [done|]. exists d1. by rewrite El, En.
Qed.

(** What a read gives back of a saved state: every field as it was, and every watermark
    but those of the two families that are not written, [ConstraintSet] and [None], which
    come back as zero. *)
Record reads_back (st st' : PersistentState) : Prop := {
  rb_authority : ps_epoch st' = ps_epoch st ∧ ps_live_boots st' = ps_live_boots st ∧
    ps_fenced_boots st' = ps_fenced_boots st ∧ ps_attempts st' = ps_attempts st;
  rb_contents : ps_sets st' = ps_sets st ∧ ps_populations st' = ps_populations st ∧
    ps_evaluations st' = ps_evaluations st ∧ ps_evidence st' = ps_evidence st ∧
    ps_last_evaluation_generation st' = ps_last_evaluation_generation st ∧
    ps_initialized st' = ps_initialized st;
  rb_keys : ∀ k, key_mark (ps_watermarks st') k = key_mark (ps_watermarks st) k;
  rb_families : ∀ f, family_mark (ps_watermarks st') f =
    if decide (f ∈ [EvidenceFamily.ConstraintSet; EvidenceFamily.None]) then 0
    else family_mark (ps_watermarks st) f
}.

Lemma recovered_reads_back st : reads_back st (recovered st).
Proof. split; [by split_and!|by split_and!|done|by intros []]. Qed.

(** C31: Saving is all or nothing, and what was saved within the bounds of the decoder is
    read back. A save that reports success leaves exactly the envelope of the state under
    the store's path; a save that reports an error leaves the previous file as it was; no
    file but the target and its temporary changes. When moreover the state is a
    [wire_state] — its integers within their widths, its set names within the name limit,
    at most 64 populations, its candidates, evaluations and watermarks within the
    decoder's own bounds — a read of the file that does not fail loads a state with
    every field as it was, the watermark of the [ConstraintSet] family apart, which
    comes back as zero. Outside these bounds a save may be acknowledged and the file then
    refused by the load. *)
Theorem save_durable st store (d d' : D) s store' :
  limits_ok (store_limits store) = true → save st store d = (s, store', d') →
  let path := store_path store in
  contents d' path =
    (if ok s then Some (encode_envelope (encode_persistent_state st [])) else contents d path) ∧
  (∀ q, q ≠ path → q ≠ (path ++ ".tmp")%string → contents d' q = contents d q) ∧
  (ok s = true → wire_state (store_limits store) st →
   ∀ chunks, fs_reads d' path = Some (map Some chunks) →
   ∃ st', load store' d' = Success st' ∧ reads_back st st').
Proof.
  intros HL Hs path. unfold save in Hs. fold path in Hs.
  destruct (validate_persistent_state st (store_limits store)) as [[]|] eqn:Ev;
    [|injection Hs as <- <- <-; by split_and!].
  destruct (max_persistence_record_bytes _ <? _) eqn:Em; [injection Hs as <- <- <-; by split_and!|].
  destruct (atomic_write path _ d) as [w d1] eqn:Ea.
  apply atomic_write_spec in Ea as [Hc Hq].
  destruct w as [[]|]; injection Hs as <- <- <-; cbn [ok] in Hc; (split; [done|]); (split; [done|]);
    [|done].
  intros _ Hw chunks Hr. exists (recovered st). split; [|apply recovered_reads_back].
  pose proof (law_reads _ _ _ Hr) as Hc'. rewrite Hc in Hc'.
  injection Hc' as Hc'. unfold load, read_file. cbn [count_write store_path store_limits].
  fold path. rewrite Hr, read_answers_chunks. cbn [app]. rewrite <- Hc'.
  assert (ok (validate_persistent_state st (store_limits store)) = true) as Hok by (by rewrite Ev).
  assert (decode_envelope (encode_envelope (encode_persistent_state st [])) (store_limits store) =
    Success (encode_persistent_state st [])) as ->.
  { apply decode_envelope_fields, envelope_bytes_fields; [done|lia]. }
  apply validate_persistent_state_ok in Hok.
  pose proof (reads_persistent_state _ HL st Hok Hw []) as Hd. cbn [app] in Hd.
  unfold open_reader. change (size []) with 0 in Hd. rewrite Hd. cbn [fst].
  assert (ok (validate_persistent_state (recovered st) (store_limits store)) = true) as Hrec.
  { apply validate_persistent_state_ok. destruct Hok. by constructor. }
  by destruct (validate_persistent_state (recovered st) (store_limits store)).
Qed.

(** Nothing corrupt is loaded. A state comes out of the store only when the
    file is, byte for byte, the envelope of a payload within the limit that decodes to
    that state, and the state is well-formed. *)
Theorem load_verified store (d : D) st :
  limits_ok (store_limits store) = true → load store d = Success st →
  state_ok (store_limits store) st ∧
  ∃ payload, contents d (store_path store) = Some (encode_envelope payload) ∧
    size payload <= max_persistence_record_bytes (store_limits store) ∧
    (decode_persistent_state (store_limits store) (open_reader payload)).1 = Some st.
Proof.
  intros HL ([raw payload] & H1 & H2 & H3 & H4)%load_envelope. cbn [fst snd] in *.
  split; [by apply validate_persistent_state_ok|]. exists payload.
  apply decode_envelope_fields in H2. pose proof H2 as (_ & Hm & _).
  apply (envelope_fields_bytes _ _ _ HL) in H2 as ->. done.
Qed.

(** Opening never discards evidence. Every file but the lock file keeps its
    content; only an unusable store opened with [allow_initialize] moves, and then its
    bytes are kept under a quarantine name (or still under the path). A store opens
    only when its file is absent, loads, or was set aside on request. *)
Theorem open_keeps_evidence path limits allow (d d' : D) r :
  open path limits allow d = (r, d') →
  (∀ q bytes, q ≠ (path ++ ".lock")%string → contents d q = Some bytes →
    contents d' q = Some bytes ∨
    (q = path ∧ allow = true ∧
     ∃ n, (1 <= n <= 64)%nat ∧ contents d' (quarantine_name path n) = Some bytes)) ∧
  (∀ store, r = Success store → ∃ d1, store = mkStore path limits 0 0 ∧
    (∀ q, q ≠ (path ++ ".lock")%string → contents d1 q = contents d q) ∧
    match load store d1 with
    | Success _ => d' = d1
    | Failure code _ => if eeqb code ErrorCode.NotFound then d' = d1 else allow = true
    end).
Proof.
  unfold open. destruct (validate_limits limits); [intros [= <- <-]; split; [by left|done]|].
  destruct (String.eqb path ""); [intros [= <- <-]; split; [by left|done]|].
  destruct (acquire_store_lock path d) as [locked d1] eqn:E1.
  pose proof (acquire_store_lock_spec path d d1 locked E1) as Q1.
  assert (∀ q bytes, q ≠ (path ++ ".lock")%string → contents d q = Some bytes →
    contents d1 q = Some bytes) as K1 by (intros q bytes Hq Hc; by rewrite Q1).
  destruct locked as [[]|code text]; [|intros [= <- <-]; split; [left; by apply K1|done]].
  destruct (load _ d1) as [st|code text] eqn:El.
  { intros [= <- <-]. split; [left; by apply K1|].
    intros store [= <-]. exists d1. by rewrite El. }
  destruct (eeqb code ErrorCode.NotFound) eqn:En.
  { intros [= <- <-]. split; [left; by apply K1|].
    intros store [= <-]. exists d1. by rewrite El, En. }
  destruct allow; cbn [negb].
  - destruct (quarantine_spec path (seq 1 64) d1) as [H1 H2].
    assert (∀ n, n ∈ seq 1 64 → (1 <= n <= 64)%nat) as Hseq by (intros n Hn%elem_of_seq; lia).
    revert H1 H2 Hseq. generalize (seq 1 64). intros names H1 H2 Hseq [= <- <-]. split.
    + intros q bytes Hq Hc. apply (K1 q bytes Hq) in Hc.
      destruct (decide (q = path)) as [->|Hne]; [|left; rewrite H1; [done|done|by rewrite Hc]].
      destruct H2 as [H2|(n & Hn & H2)]; [left; by rewrite H2|right].
      split_and!; [done..|]. exists n. split; [by apply Hseq|by rewrite H2].
    + intros store [= <-]. exists d1. by rewrite El, En.
  - intros [= <- <-]. split; [|done]. intros q bytes Hq Hc. left.
    unfold release_store_lock. rewrite law_close_lock. by apply K1.
Qed.

End store_properties.

(** ** A disk in memory

    Files, the room left for written bytes (a write takes at most 128 of them at a
    time) and the locks held: an operating system that obeys the laws and can fail. *)

Record MemoryDisk := mkDisk {
  disk_files : gmap string (list byte);
  disk_room : Z;
  disk_locks : gset string
}.

Definition with_files (d : MemoryDisk) (f : gmap string (list byte)) : MemoryDisk :=
  mkDisk f (disk_room d) (disk_locks d).

Definition memory_write (p : string) (bs : list byte) (d : MemoryDisk) : Z * MemoryDisk :=
  let n := Z.min (size bs) (Z.min 128 (disk_room d)) in
  if 0 <? n then
    (n, mkDisk (alter (λ old, old ++ take (Z.to_nat n) bs) p (disk_files d)) (disk_room d - n)
          (disk_locks d))
  else (-1, d).

#[export] Instance memory_system : FileSystem MemoryDisk := {
  fs_reads d p := (λ bs, [Some bs]) <$> disk_files d !! p;
  fs_create p d := Some (with_files d (<[p := []]> (disk_files d)));
  fs_write := memory_write;
  fs_sync p d := (true, d);
  fs_rename a b d :=
    match disk_files d !! a with
    | Some bs => (true, with_files d (<[b := bs]> (delete a (disk_files d))))
    | None => (false, d)
    end;
  fs_unlink p d := with_files d (delete p (disk_files d));
  fs_exists d p := bool_decide (is_Some (disk_files d !! p));
  fs_open_lock p d := Some (with_files d (<[p := default [] (disk_files d !! p)]> (disk_files d)));
  fs_set_lock p d :=
    if decide (p ∈ disk_locks d) then (false, d)
    else (true, mkDisk (disk_files d) (disk_room d) ({[p]} ∪ disk_locks d));
  fs_close_lock p d := mkDisk (disk_files d) (disk_room d) (disk_locks d ∖ {[p]})
}.

#[export] Instance memory_laws : FileSystemLaws MemoryDisk.
Proof.
  refine {| contents := λ d p, disk_files d !! p |}.
  all: cbn [fs_reads fs_create fs_write fs_sync fs_rename fs_unlink fs_exists fs_open_lock
    fs_set_lock fs_close_lock memory_system with_files disk_files].
  - intros d p chunks. destruct (disk_files d !! p) as [bs|]; simpl; [|done].
    intros [= Hc]. destruct chunks as [|c [|]]; try done. injection Hc as ->.
    simpl. by rewrite app_nil_r.
  - intros d d' p [= <-]. cbn [with_files disk_files]. split; [apply lookup_insert_eq|].
    intros q Hq. by apply lookup_insert_ne.
  - intros d d' p bs n old Hw Hc. unfold memory_write in Hw.
    destruct (0 <? _) eqn:E; injection Hw as <- <-; [|split; [lia|done]].
    cbn [disk_files]. split.
    + intros _. split; [lia|]. by rewrite lookup_alter_eq, Hc.
    + intros q Hq. by apply lookup_alter_ne.
  - done.
  - intros d d' a b Hr Hne. destruct (disk_files d !! a) as [bs|]; [|done]. injection Hr as <-.
    cbn [with_files disk_files]. split; [apply lookup_insert_eq|]. split.
    + rewrite lookup_insert_ne by done. apply lookup_delete_eq.
    + intros q Ha Hb. by rewrite lookup_insert_ne, lookup_delete_ne.
  - intros d d' a b q Hr. destruct (disk_files d !! a); [done|]. by injection Hr as <-.
  - intros d p q Hq. cbn [with_files disk_files]. by apply lookup_delete_ne.
  - intros d p Hc. apply bool_decide_eq_true. by apply not_eq_None_Some.
  - intros d d' p q [= <-] Hq. cbn [with_files disk_files]. by apply lookup_insert_ne.
  - intros d p q Hq. by destruct (decide _).
  - done.
Defined.

(** ** Witnesses *)

Definition sample_store : DurableStore := mkStore "store" default_limits 0 0.
Definition sample_disk (room : Z) : MemoryDisk := mkDisk {["store" := [x01; x02]]} room ∅.

Lemma save_parts (st : PersistentState) (store : DurableStore) (d : MemoryDisk) :
  save st store d = ((save st store d).1.1, (save st store d).1.2, (save st store d).2).
Proof. by destruct (save st store d) as [[] ]. Qed.

(** A save on a disk with room reports success and is loaded back; a save on a full
    disk reports the error and leaves the old bytes. *)
Lemma save_durable_witness :
  let saved := save sample_state sample_store (sample_disk 100000) in
  let failed := save sample_state sample_store (sample_disk 100) in
  ok (saved.1.1) = true ∧
  (∃ st', load (saved.1.2) (saved.2) = Success st' ∧ reads_back sample_state st') ∧
  ok (failed.1.1) = false ∧ contents (failed.2) "store" = Some [x01; x02].
Proof.
  cbv zeta.
  assert (ok (save sample_state sample_store (sample_disk 100000)).1.1 = true) as H1
    by (vm_compute; reflexivity).
  assert (ok (save sample_state sample_store (sample_disk 100)).1.1 = false) as H2
    by (vm_compute; reflexivity).
  assert (∃ bs, disk_files (save sample_state sample_store (sample_disk 100000)).2 !! "store" = Some bs)
    as [bs Hbs] by (eexists; vm_compute; reflexivity).
  destruct (save_durable sample_state sample_store (sample_disk 100000) _ _ _ eq_refl (save_parts _ _ _))
    as (_ & _ & Hload).
  destruct (save_durable sample_state sample_store (sample_disk 100) _ _ _ eq_refl (save_parts _ _ _))
    as (Hc & _ & _).
  rewrite H2 in Hc. split; [exact H1|]. split; [|split; [exact H2|exact Hc]].
  apply (Hload H1 sample_state_wire [bs]). cbn [fs_reads memory_system store_path sample_store].
  rewrite Hbs. reflexivity.
Defined.

(** The disk after a save that succeeded. *)
Definition saved_disk : MemoryDisk := (save sample_state sample_store (sample_disk 100000)).2.

Lemma load_verified_witness : ∃ st, load sample_store saved_disk = Success st ∧
  state_ok default_limits st.
Proof.
  assert (∃ st, load sample_store saved_disk = Success st) as [st Hl]
    by (eexists; vm_compute; reflexivity).
  exists st. split; [exact Hl|].
  destruct (load_verified sample_store saved_disk st eq_refl Hl) as [H _]. exact H.
Defined.

(** A file that is not an envelope is set aside when the caller asks for a new store. *)
Lemma open_keeps_evidence_witness :
  let opened := open "store" default_limits true (sample_disk 0) in
  ok (opened.1) = true ∧
  (contents (opened.2) "store" = Some [x01; x02] ∨
   ∃ n, (1 <= n <= 64)%nat ∧ contents (opened.2) (quarantine_name "store" n) = Some [x01; x02]).
Proof.
  cbv zeta. split; [vm_compute; reflexivity|].
  destruct (open_keeps_evidence "store" default_limits true (sample_disk 0)
    (open "store" default_limits true (sample_disk 0)).2
    (open "store" default_limits true (sample_disk 0)).1) as [H _].
  - by destruct (open _ _ _ _).
  - destruct (H "store" [x01; x02]) as [Hk|(_ & _ & Hk)]; [discriminate|reflexivity|left; exact Hk|right; exact Hk].
Defined.
