(* ===== verification/Coordinator.v ===== *)
(** The coordinator, [coordinator.hpp] and [coordinator.cpp]: the authoritative state,
    its operations in the order the code performs them (authorize, de-duplicate the
    attempt, do the work, persist, publish), and the two-phase evaluation.

    An operation is a function of the world, the coordinator and the disk its store
    writes to; a failing [Status] stops it and keeps what it had already changed, as
    the early returns of the code do. Each reading of the clock is an argument. The
    mutex makes every operation atomic, except [evaluate], which releases it between
    its two phases: [evaluate_begin], the pure evaluation, and [evaluate_commit] are
    separate so that other operations can run in between. *)

From Stdlib Require Import ZArith Lia Bool Strings.Byte.
From stdpp Require Import base list numbers strings gmap sets.
From S2P Require Import Prelude Containers Base Codec Digest Lifecycle Constraint Candidate.
From S2P Require Import Evaluation Ordering ConstraintSet Evaluator Authority Invalidation.
From S2P Require Import Persistence Store.

Open Scope string_scope.
Open Scope list_scope.
Open Scope Z_scope.

(** ** Data *)

Record PublisherGrant := mkGrant {
  gr_publisher : Z;
  gr_scopes : AuthorityScopeMask
}.

Record CoordinatorConfig := mkConfig {
  cf_limits : Limits;
  cf_store_path : string;
  cf_grants : list PublisherGrant;
  cf_allow_initialize : bool;
  cf_evidence : EvidenceRequirements;
  cf_max_candidate_populations : Z
}.

Module CurrentnessCause.
Inductive t :=
  | None | ConstraintSetStateChanged | ConstraintSetSuperseded | ConstraintSetGenerationAdvanced
  | PathAuthorityAdvanced | TopologyAdvanced | LinkStateAdvanced | CapabilityAdvanced
  | FailureDomainAdvanced | PolicyAdvanced | PlannerAdvanced | EvidenceRequirementChanged
  | DependencyInvalidated | EpochAdvanced | RecoveredUnproven | NoCurrentResult.

Definition to_code (x : t) : Z :=
  match x with
  | None => 0 | ConstraintSetStateChanged => 1 | ConstraintSetSuperseded => 2
  | ConstraintSetGenerationAdvanced => 3 | PathAuthorityAdvanced => 4 | TopologyAdvanced => 5
  | LinkStateAdvanced => 6 | CapabilityAdvanced => 7 | FailureDomainAdvanced => 8
  | PolicyAdvanced => 9 | PlannerAdvanced => 10 | EvidenceRequirementChanged => 11
  | DependencyInvalidated => 12 | EpochAdvanced => 13 | RecoveredUnproven => 14
  | NoCurrentResult => 15
  end.

Definition from_code (z : Z) : t :=
  match z with
  | 1 => ConstraintSetStateChanged | 2 => ConstraintSetSuperseded
  | 3 => ConstraintSetGenerationAdvanced | 4 => PathAuthorityAdvanced | 5 => TopologyAdvanced
  | 6 => LinkStateAdvanced | 7 => CapabilityAdvanced | 8 => FailureDomainAdvanced
  | 9 => PolicyAdvanced | 10 => PlannerAdvanced | 11 => EvidenceRequirementChanged
  | 12 => DependencyInvalidated | 13 => EpochAdvanced | 14 => RecoveredUnproven
  | 15 => NoCurrentResult | _ => None
  end.

Definition to_string (x : t) : string :=
  match x with
  | None => "None" | ConstraintSetStateChanged => "ConstraintSetStateChanged"
  | ConstraintSetSuperseded => "ConstraintSetSuperseded"
  | ConstraintSetGenerationAdvanced => "ConstraintSetGenerationAdvanced"
  | PathAuthorityAdvanced => "PathAuthorityAdvanced" | TopologyAdvanced => "TopologyAdvanced"
  | LinkStateAdvanced => "LinkStateAdvanced" | CapabilityAdvanced => "CapabilityAdvanced"
  | FailureDomainAdvanced => "FailureDomainAdvanced" | PolicyAdvanced => "PolicyAdvanced"
  | PlannerAdvanced => "PlannerAdvanced"
  | EvidenceRequirementChanged => "EvidenceRequirementChanged"
  | DependencyInvalidated => "DependencyInvalidated" | EpochAdvanced => "EpochAdvanced"
  | RecoveredUnproven => "RecoveredUnproven" | NoCurrentResult => "NoCurrentResult"
  end.
End CurrentnessCause.

#[export] Instance CurrentnessCause_enum : Enum CurrentnessCause.t.
Proof.
  refine {| code := CurrentnessCause.to_code; of_code := CurrentnessCause.from_code |}.
  by intros [].
Defined.

Record CurrentnessReport := mkReport {
  rp_set_id : Z;
  rp_set_generation : Z;
  rp_state : ConstraintSetState.t;
  rp_evaluation_generation : Z;
  rp_required_evidence : EvidenceRequirements;
  rp_published_evidence : EvidenceRequirements;
  rp_current_results : Z;
  rp_revalidation_required : Z;
  rp_recovered_unproven : Z;
  rp_publisher_authority_live : bool;
  rp_causes : list CurrentnessCause.t
}.

Record CommitOutcome := mkCommit {
  co_batch : EvaluationBatch;
  co_committed : bool;
  co_rejection_reason : ReasonCode.t;
  co_mask_at_snapshot : EvidenceFamilyMask;
  co_mask_at_commit : EvidenceFamilyMask
}.

(** [Coordinator::Impl]; [im_store] is [None] when the coordinator is not durable. *)
Record Impl := mkImpl {
  im_config : CoordinatorConfig;
  im_store : option DurableStore;
  im_authority : AuthorityRegistry;
  im_evidence : EvidenceRequirements;
  im_watermarks : Watermarks;
  im_sets : list ConstraintSet;
  im_evaluations : list EvaluationRecord;
  im_populations : list CandidatePopulation;
  im_current : gmap (Z * Z) Z;
  im_index : InvalidationIndex;
  im_last_generation : Z;
  im_invalidation_sequence : Z
}.

Definition im_limits (i : Impl) : Limits := cf_limits (im_config i).

(** ** Helpers of the anonymous namespace *)

Definition consulted_mask (s : ConstraintSet) : EvidenceFamilyMask :=
  let mask := fold_left (λ m c, Z.lor m (families_of c)) (constraints s) 0 in
  let mask := Z.lor mask (family_bit EvidenceFamily.PathAuthority) in
  if consume_planner_cost (ranking s) then Z.lor mask (family_bit EvidenceFamily.Planner) else mask.

Definition generation_for (e : EvidenceRequirements) (family : EvidenceFamily.t) : Z :=
  match family with
  | EvidenceFamily.Topology => req_topology e
  | EvidenceFamily.LinkState => req_link_state e
  | EvidenceFamily.Capability => req_capability e
  | EvidenceFamily.FailureDomain => req_failure_domain e
  | EvidenceFamily.Policy => req_policy e
  | EvidenceFamily.Planner => req_planner e
  | EvidenceFamily.PathAuthority => req_path_authority e
  | _ => 0
  end.

Definition evidence_equal (a b : EvidenceRequirements) : bool :=
  (req_topology a =? req_topology b) && (req_link_state a =? req_link_state b) &&
  (req_capability a =? req_capability b) && (req_failure_domain a =? req_failure_domain b) &&
  (req_policy a =? req_policy b) && (req_planner a =? req_planner b) &&
  (req_path_authority a =? req_path_authority b) &&
  (max_evidence_age_ticks a =? max_evidence_age_ticks b).

Definition request_digest (candidates : list CandidatePath) (set_id generation : Z) : Z :=
  leading_u64 (digest_of "crf.evaluation-request.v1"
    (hash_u64 set_id ++ hash_u64 generation ++ hash_u32 (wrap 32 (size candidates)) ++
     hash_each (λ c, hash_u64 (path c) ++ hash_digest (candidate_digest c)) candidates)).

Definition staleness_reason (family : EvidenceFamily.t) : ReasonCode.t :=
  match family with
  | EvidenceFamily.Topology => ReasonCode.StaleTopologyEvidence
  | EvidenceFamily.LinkState => ReasonCode.StaleLinkStateEvidence
  | EvidenceFamily.Capability => ReasonCode.StaleCapabilityEvidence
  | EvidenceFamily.FailureDomain => ReasonCode.StaleFailureDomainEvidence
  | EvidenceFamily.Policy => ReasonCode.StalePolicyEvidence
  | EvidenceFamily.Planner => ReasonCode.StalePlannerEvidence
  | EvidenceFamily.PathAuthority => ReasonCode.StalePathAuthority
  | _ => ReasonCode.EvidenceNotBound
  end.

Definition kFamilies : list EvidenceFamily.t :=
  [EvidenceFamily.Topology; EvidenceFamily.LinkState; EvidenceFamily.Capability;
   EvidenceFamily.FailureDomain; EvidenceFamily.Policy; EvidenceFamily.Planner;
   EvidenceFamily.PathAuthority].

(** ** The state and its durable projection *)

(** [for (x : l) if (key(x) == k) { x = f(x); break; }] *)
Fixpoint update_first {A} (p : A → bool) (f : A → A) (l : list A) : list A :=
  match l with
  | [] => []
  | x :: rest => if p x then f x :: rest else x :: update_first p f rest
  end.

Fixpoint first_live_boots (seen : gset Z) (rs : list PublisherRegistration) : list Z :=
  match rs with
  | [] => []
  | r :: rest =>
      if rg_live r && negb (bool_decide (rg_boot r ∈ seen))
      then rg_boot r :: first_live_boots ({[rg_boot r]} ∪ seen) rest
      else first_live_boots seen rest
  end.

Definition refresh_authority_projection (g : AuthorityRegistry) (st : PersistentState)
    : PersistentState :=
  mkPersistent (ps_epoch st) (ps_evidence st) (ps_watermarks st) (ps_sets st) (ps_evaluations st)
    (ps_populations st) (first_live_boots ∅ (registrations g))
    (map snd (entries Z.ltb (fenced g))) (ps_attempts st)
    (ps_last_evaluation_generation st) (ps_initialized st).

Definition to_state (i : Impl) : PersistentState :=
  refresh_authority_projection (im_authority i)
    (mkPersistent (reg_epoch (im_authority i)) (im_evidence i) (im_watermarks i) (im_sets i)
       (im_evaluations i) (im_populations i) [] [] (attempts (im_authority i))
       (im_last_generation i) true).

Definition find_set (id : Z) (sets : list ConstraintSet) : option ConstraintSet :=
  List.find (λ s, cs_id s =? id) sets.

Fixpoint find_candidate (set_id p : Z) (populations : list CandidatePopulation)
    : option CandidatePath :=
  match populations with
  | [] => None
  | population :: rest =>
      if negb (pop_set_id population =? set_id) then find_candidate set_id p rest
      else
        match List.find (λ c, path c =? p) (pop_candidates population) with
        | Some c => Some c
        | None => find_candidate set_id p rest
        end
  end.

Definition is_current (r : EvaluationRecord) : bool := eeqb (state r) ResultState.Current.

(** The keys a current record is bound to: none when its set or its candidate is not
    retained. *)
Definition record_keys (limits : Limits) (sets : list ConstraintSet)
    (populations : list CandidatePopulation) (r : EvaluationRecord) : list InvalidationKey :=
  match find_set (set_id r) sets with
  | None => []
  | Some s =>
      match find_candidate (set_id r) (rec_path r) populations with
      | None => []
      | Some c => dependency_keys r s c limits
      end
  end.

(** One round of the loop of [rebuild_derived]. *)
Definition rebuild_record (limits : Limits) (sets : list ConstraintSet)
    (populations : list CandidatePopulation) (derived : gmap (Z * Z) Z * InvalidationIndex)
    (r : EvaluationRecord) : gmap (Z * Z) Z * InvalidationIndex :=
  if negb (is_current r) then derived
  else
    (<[(set_id r, rec_path r) := rec_id r]> derived.1,
     fold_left (λ index k, (bind k (rec_id r) index).2) (record_keys limits sets populations r)
       derived.2).

Definition rebuild_derived (i : Impl) : Impl :=
  let derived := fold_left (rebuild_record (im_limits i) (im_sets i) (im_populations i))
    (im_evaluations i) (∅, empty_index) in
  mkImpl (im_config i) (im_store i) (im_authority i) (im_evidence i) (im_watermarks i) (im_sets i)
    (im_evaluations i) (im_populations i) derived.1 derived.2 (im_last_generation i)
    (im_invalidation_sequence i).

Definition apply_state (st : PersistentState) (i : Impl) : Impl :=
  rebuild_derived
    (mkImpl (im_config i) (im_store i) (im_authority i) (ps_evidence st) (ps_watermarks st)
       (ps_sets st) (ps_evaluations st) (ps_populations st) (im_current i) (im_index i)
       (ps_last_evaluation_generation st) (im_invalidation_sequence i)).

Definition with_authority (g : AuthorityRegistry) (i : Impl) : Impl :=
  mkImpl (im_config i) (im_store i) g (im_evidence i) (im_watermarks i) (im_sets i)
    (im_evaluations i) (im_populations i) (im_current i) (im_index i) (im_last_generation i)
    (im_invalidation_sequence i).

Definition with_watermarks (w : Watermarks) (i : Impl) : Impl :=
  mkImpl (im_config i) (im_store i) (im_authority i) (im_evidence i) w (im_sets i)
    (im_evaluations i) (im_populations i) (im_current i) (im_index i) (im_last_generation i)
    (im_invalidation_sequence i).

Definition with_store (s : option DurableStore) (i : Impl) : Impl :=
  mkImpl (im_config i) s (im_authority i) (im_evidence i) (im_watermarks i) (im_sets i)
    (im_evaluations i) (im_populations i) (im_current i) (im_index i) (im_last_generation i)
    (im_invalidation_sequence i).

Definition with_last_generation (generation : Z) (i : Impl) : Impl :=
  mkImpl (im_config i) (im_store i) (im_authority i) (im_evidence i) (im_watermarks i) (im_sets i)
    (im_evaluations i) (im_populations i) (im_current i) (im_index i) generation
    (im_invalidation_sequence i).

Definition with_sequence (sequence : Z) (i : Impl) : Impl :=
  mkImpl (im_config i) (im_store i) (im_authority i) (im_evidence i) (im_watermarks i) (im_sets i)
    (im_evaluations i) (im_populations i) (im_current i) (im_index i) (im_last_generation i)
    sequence.

(** Fields of the state an operation prepares. *)
Definition with_evaluations (l : list EvaluationRecord) (st : PersistentState) : PersistentState :=
  mkPersistent (ps_epoch st) (ps_evidence st) (ps_watermarks st) (ps_sets st) l (ps_populations st)
    (ps_live_boots st) (ps_fenced_boots st) (ps_attempts st) (ps_last_evaluation_generation st)
    (ps_initialized st).
Definition with_sets (l : list ConstraintSet) (st : PersistentState) : PersistentState :=
  mkPersistent (ps_epoch st) (ps_evidence st) (ps_watermarks st) l (ps_evaluations st)
    (ps_populations st) (ps_live_boots st) (ps_fenced_boots st) (ps_attempts st)
    (ps_last_evaluation_generation st) (ps_initialized st).
Definition with_evidence (e : EvidenceRequirements) (w : Watermarks) (st : PersistentState)
    : PersistentState :=
  mkPersistent (ps_epoch st) e w (ps_sets st) (ps_evaluations st)
    (ps_populations st) (ps_live_boots st) (ps_fenced_boots st) (ps_attempts st)
    (ps_last_evaluation_generation st) (ps_initialized st).
Definition with_populations (l : list CandidatePopulation) (generation : Z) (st : PersistentState)
    : PersistentState :=
  mkPersistent (ps_epoch st) (ps_evidence st) (ps_watermarks st) (ps_sets st) (ps_evaluations st)
    l (ps_live_boots st) (ps_fenced_boots st) (ps_attempts st) generation (ps_initialized st).

(** [record.state = state]. *)
Definition with_state (s : ResultState.t) (r : EvaluationRecord) : EvaluationRecord :=
  mkEvaluation (rec_id r) (rec_generation r) (set_id r) (set_generation r) (rec_path r)
    (rec_authority_generation r) (outcome r) (primary_reason r) (reasons r) (preferences r)
    (rec_evidence r) (rec_consulted r) (provenance r) s (reasons_truncated r) (committed_tick r)
    (digest r).

(** [if (hit && record.state == Current) record.state = RevalidationRequired;] *)
Definition require_revalidation (hit : EvaluationRecord → bool) (l : list EvaluationRecord)
    : list EvaluationRecord :=
  map (λ r, if hit r && is_current r then with_state ResultState.RevalidationRequired r else r) l.

Definition dependents_of (keys : list InvalidationKey) (index : InvalidationIndex) : gset Z :=
  list_to_set (concat (map (λ k, dependents k index) keys)).

Definition family_kinds (family : EvidenceFamily.t) : list InvalidationKeyKind.t :=
  match family with
  | EvidenceFamily.Topology =>
      [InvalidationKeyKind.Topology; InvalidationKeyKind.Node; InvalidationKeyKind.Link;
       InvalidationKeyKind.LocalityDomain]
  | EvidenceFamily.LinkState => [InvalidationKeyKind.LinkState]
  | EvidenceFamily.Capability => [InvalidationKeyKind.Capability]
  | EvidenceFamily.FailureDomain =>
      [InvalidationKeyKind.FailureDomain; InvalidationKeyKind.IsolationClass]
  | EvidenceFamily.Policy => [InvalidationKeyKind.Policy]
  | EvidenceFamily.Planner => [InvalidationKeyKind.Planner]
  | EvidenceFamily.PathAuthority => [InvalidationKeyKind.PathAuthority]
  | _ => []
  end.

Definition dependents_of_family (family : EvidenceFamily.t) (index : InvalidationIndex) : gset Z :=
  dependents_of (keys_of_kinds (family_kinds family) index) index.

(** *** Bounded history *)

(** The scan for the record to evict: the first of the lowest generation among those
    that are not current. *)
Fixpoint oldest_record (position : nat) (victim : option (nat * Z)) (l : list EvaluationRecord)
    : option nat :=
  match l with
  | [] => option_map fst victim
  | r :: rest =>
      if is_current r then oldest_record (S position) victim rest
      else
        let better := match victim with Some (_, oldest) => rec_generation r <? oldest | None => true end in
        oldest_record (S position) (if better then Some (position, rec_generation r) else victim) rest
  end.

(** [while (evaluations.size() > limit)]: a round removes one record, so as many rounds
    as records are enough. *)
Fixpoint evict (fuel : nat) (limit : Z) (l : list EvaluationRecord) : list EvaluationRecord :=
  match fuel with
  | O => l
  | S fuel =>
      if size l <=? limit then l
      else
        match oldest_record 0 None l with
        | None => l
        | Some victim => evict fuel limit (delete victim l)
        end
  end.
Definition trim_history (limit : Z) (l : list EvaluationRecord) : list EvaluationRecord :=
  evict (length l) limit l.

(** ** Operations *)

Record World (D : Type) := mkWorld { impl : Impl; disk : D }.
Arguments mkWorld {D} impl disk.
Arguments impl {D} _.
Arguments disk {D} _.

Definition op (D A : Type) : Type := World D → Result A * World D.

Section operations.
Context {D : Type} `{FileSystem D}.

#[export] Instance op_ret : MRet (op D) := λ A a w, (Success a, w).

#[export] Instance op_bind : MBind (op D) := λ A B k m w,
  match m w with
  | (Success a, w') => k a w'
  | (Failure code text, w') => (Failure code text, w')
  end.

(** [return Status::failure(...)]. *)
Definition op_fail {A} (code : ErrorCode.t) (text : string) : op D A := λ w, (Failure code text, w).

(** [if (!status.ok()) return status;] *)
Definition lift {A} (r : Result A) : op D A := λ w, (r, w).

Definition get : op D Impl := λ w, (Success (impl w), w).
Definition modify (f : Impl → Impl) : op D unit := λ w, (success, mkWorld (f (impl w)) (disk w)).

Definition persist (st : PersistentState) : op D unit := λ w,
  match im_store (impl w) with
  | None => (success, w)
  | Some store =>
      let '(status, store, d) := save st store (disk w) in
      (status, mkWorld (with_store (Some store) (impl w)) d)
  end.

(** [persist(next)], then [apply_state(next)]. *)
Definition persist_and_apply (next : PersistentState) : op D unit :=
  _ ← persist next; modify (apply_state next).

(** [if (!authorized.ok()) return authorized;] *)
Definition authorize (context : AuthorityContext) (scope : AuthorityScope.t) : op D unit := λ w,
  (Authority.authorize context (scope_bit scope) (im_authority (impl w)), w).

(** [authority.observe_attempt(...)], with the early return of its failure. *)
Definition observe (attempt : Z) (payload : Digest256) (tick : Z) : op D ReplayVerdict.t := λ w,
  let '(verdict, g) :=
    Authority.observe_attempt attempt payload tick (im_limits (impl w)) (im_authority (impl w)) in
  (verdict, mkWorld (with_authority g (impl w)) (disk w)).

(** The same, refusing a conflict; [true] for an exact replay. *)
Definition observe_replay (attempt : Z) (payload : Digest256) (tick : Z) : op D bool :=
  verdict ← observe attempt payload tick;
  match verdict with
  | ReplayVerdict.Conflict =>
      op_fail ErrorCode.MutationAttemptConflict
        "mutation attempt identity was reused with a different payload"
  | ReplayVerdict.ExactReplay => mret true
  | ReplayVerdict.Fresh => mret false
  end.

Definition flush : op D unit := i ← get; persist (to_state i).

Definition serialized_state_bytes (i : Impl) : Z := size (encode_persistent_state (to_state i) []).

(** *** Authority *)

Definition find_grant (publisher : Z) (grants : list PublisherGrant) : option AuthorityScopeMask :=
  option_map gr_scopes (List.find (λ g, gr_publisher g =? publisher) grants).

Definition register_publisher (context : AuthorityContext) (publisher boot : Z)
    (scopes : AuthorityScopeMask) (session tick : Z) : op D PublisherRegistration :=
  i ← get;
  if negb (is_valid (ac_epoch context)) || negb (ac_epoch context =? reg_epoch (im_authority i)) then
    op_fail ErrorCode.EpochMismatch "registration must carry the current coordinator epoch"
  else
    match find_grant publisher (cf_grants (im_config i)) with
    | None =>
        op_fail ErrorCode.Unauthorized
          "default deny: publisher holds no out-of-band authority grant on this coordinator"
    | Some granted =>
        let effective := Z.land granted scopes in
        if effective =? 0 then
          op_fail ErrorCode.Unauthorized "default deny: the requested scopes are not granted"
        else
          let next := to_state i in
          let registration := mkRegistration publisher boot session effective tick
            (reg_epoch (im_authority i)) true in
          let '(registered, g) :=
            Authority.register_publisher registration (im_limits i) (im_authority i) in
          _ ← modify (with_authority g);
          _ ← lift registered;
          _ ← persist (refresh_authority_projection g next);
          mret registration
    end.

Definition fence (boot tick : Z) : op D unit := λ w,
  let '(status, g) := Authority.fence_boot boot (reg_epoch (im_authority (impl w))) tick
    (im_limits (impl w)) (im_authority (impl w)) in
  (status, mkWorld (with_authority g (impl w)) (disk w)).

Definition fence_boot (context : AuthorityContext) (boot observed_tick fenced_tick : Z) : op D unit :=
  _ ← authorize context AuthorityScope.AdministerFencing;
  replay ← observe_replay (ac_attempt context) zero_digest observed_tick;
  if (replay : bool) then mret ()
  else
    _ ← fence boot fenced_tick;
    i ← get; persist (to_state i).

Definition fence_on_session_loss (session tick : Z) : op D unit :=
  i ← get;
  match boot_of_session session (im_authority i) with
  | None => mret ()
  | Some boot =>
      _ ← fence boot tick;
      _ ← modify (λ i, with_authority (Authority.drop_session session (im_authority i)).2 i);
      i ← get; persist (to_state i)
  end.

Definition forget_session (session : Z) : op D unit := λ w,
  let '(status, g) := Authority.drop_session session (im_authority (impl w)) in
  (status, mkWorld (with_authority g (impl w)) (disk w)).

Definition drop_session (context : AuthorityContext) (session : Z) : op D unit :=
  _ ← authorize context AuthorityScope.AdministerFencing;
  forget_session session.

Definition observe_attempt (context : AuthorityContext) (payload : Digest256) (tick : Z)
    : op D ReplayVerdict.t := observe (ac_attempt context) payload tick.

(** *** Definitions of constraint sets *)

Definition publish_payload (s : ConstraintSet) : Digest256 :=
  digest_of "crf.publish.v1"
    (hash_u64 (cs_id s) ++ hash_u32 (wrap 32 (size (constraints s))) ++
     hash_each Constraint.feed_digest (constraints s)).

(** [finalized.generation = generation; finalized.state = state;] *)
Definition republished (generation : Z) (st : ConstraintSetState.t) (s : ConstraintSet) : ConstraintSet :=
  mkSet (cs_id s) generation st (name s) (constraints s) (requirements s) (ranking s) (cs_digest s)
    (declared_tick s).

Definition with_declared_tick (tick : Z) (s : ConstraintSet) : ConstraintSet :=
  mkSet (cs_id s) (cs_generation s) (cs_state s) (name s) (constraints s) (requirements s)
    (ranking s) (cs_digest s) tick.

(** The set to store and the definitions after it is stored. *)
Definition place_set (limits : Limits) (finalized : ConstraintSet) (sets : list ConstraintSet)
    : Result (ConstraintSet * list ConstraintSet) :=
  match find_set (cs_id finalized) sets with
  | None =>
      if max_constraint_sets limits <=? size sets then
        Failure ErrorCode.ResourceLimit "constraint set limit reached"
      else
        let finalized := republished 1 ConstraintSetState.Declared finalized in
        Success (finalized, sets ++ [finalized])
  | Some existing =>
      let+ finalized :=
        if digest_eqb (cs_digest existing) (cs_digest finalized) then
          Success (republished (cs_generation existing) (cs_state existing) finalized)
        else
          match next (cs_generation existing) with
          | None =>
              Failure ErrorCode.ImpossibleGeneration
                "constraint set generation cannot advance without wrapping"
          | Some advanced =>
              Success (republished advanced
                (if eeqb (cs_state existing) ConstraintSetState.Active then ConstraintSetState.Active
                 else ConstraintSetState.RevalidationRequired) finalized)
          end in
      Success (finalized, update_first (λ s, cs_id s =? cs_id finalized) (λ _, finalized) sets)
  end.

Definition publish_constraint_set (context : AuthorityContext) (s : ConstraintSet)
    (observed_tick tick : Z) : op D ConstraintSet :=
  _ ← authorize context AuthorityScope.PublishConstraintSet;
  replay ← observe_replay (ac_attempt context) (publish_payload s) observed_tick;
  i ← get;
  if (replay : bool) then
    match find_set (cs_id s) (im_sets i) with
    | None =>
        op_fail ErrorCode.IdempotentReplay "exact replay of a publication that is no longer present"
    | Some existing => mret existing
    end
  else
    let result := validate_and_finalize_constraint_set (with_declared_tick tick s) (im_limits i) [] in
    _ ← lift (fin_status result);
    let next := to_state i in
    placed ← lift (place_set (im_limits i) (fin_set result) (ps_sets next));
    let '(finalized, sets) := placed in
    let next := with_evaluations
      (require_revalidation (λ r, set_id r =? cs_id finalized) (ps_evaluations next))
      (with_sets sets next) in
    _ ← persist_and_apply next;
    i ← get;
    mret (default finalized (find_set (cs_id finalized) (im_sets i))).

Definition lifecycle_payload (set_id : Z) (event : LifecycleEvent.t) : Digest256 :=
  digest_of "crf.lifecycle.v1" (hash_u64 set_id ++ hash_u8 (code event)).

Definition with_set_state (st : ConstraintSetState.t) (s : ConstraintSet) : ConstraintSet :=
  republished (cs_generation s) st s.

Definition apply_lifecycle (context : AuthorityContext) (set_id_ : Z) (event : LifecycleEvent.t)
    (tick : Z) : op D ConstraintSet :=
  _ ← authorize context AuthorityScope.ApplyLifecycle;
  replay ← observe_replay (ac_attempt context) (lifecycle_payload set_id_ event) tick;
  i ← get;
  let next := to_state i in
  match find_set set_id_ (ps_sets next) with
  | None => op_fail ErrorCode.NotFound "constraint set is not known"
  | Some target =>
      if (replay : bool) then mret target
      else
        let outcome := apply_lifecycle_event (cs_state target) event in
        if negb (Lifecycle.accepted outcome) then op_fail ErrorCode.InvalidArgument (rejection outcome)
        else
          let sets := update_first (λ s, cs_id s =? set_id_) (with_set_state (next_state outcome))
            (ps_sets next) in
          let evaluations :=
            if eeqb (next_state outcome) ConstraintSetState.Active then ps_evaluations next
            else require_revalidation (λ r, set_id r =? set_id_) (ps_evaluations next) in
          let next := with_evaluations evaluations (with_sets sets next) in
          _ ← persist_and_apply next;
          i ← get;
          mret (default (with_set_state (next_state outcome) target) (find_set set_id_ (im_sets i)))
  end.

Definition get_constraint_set (set_id_ : Z) (i : Impl) : Result ConstraintSet :=
  match find_set set_id_ (im_sets i) with
  | None => Failure ErrorCode.NotFound "constraint set is not known"
  | Some s => Success s
  end.

Definition constraint_set_ids (i : Impl) : list Z := map cs_id (im_sets i).

(** *** Evidence generations *)

Definition evidence_payload (e : EvidenceRequirements) : Digest256 :=
  digest_of "crf.evidence-requirements.v1"
    (hash_u64 (req_topology e) ++ hash_u64 (req_link_state e) ++ hash_u64 (req_capability e) ++
     hash_u64 (req_failure_domain e) ++ hash_u64 (req_policy e) ++ hash_u64 (req_planner e) ++
     hash_u64 (req_path_authority e) ++ hash_u64 (max_evidence_age_ticks e)).

(** The families that advance, unless one would go backwards. *)
Fixpoint advanced_families (evidence required : EvidenceRequirements) (l : list EvidenceFamily.t)
    : Result (list EvidenceFamily.t) :=
  match l with
  | [] => Success []
  | family :: rest =>
      if generation_for required family <? generation_for evidence family then
        Failure ErrorCode.StaleGeneration "evidence generations never decrease"
      else
        let+ advanced := advanced_families evidence required rest in
        Success (if generation_for evidence family <? generation_for required family
                 then family :: advanced else advanced)
  end.

(** The watermarks after the loop over the advanced families, and its status. *)
Fixpoint advance_watermarks (required : EvidenceRequirements) (l : list EvidenceFamily.t)
    (w : Watermarks) : Status * Watermarks :=
  match l with
  | [] => (success, w)
  | family :: rest =>
      match Invalidation.advance_family family (generation_for required family) w with
      | (false, w) =>
          (Failure ErrorCode.StaleGeneration "evidence watermark never decreases", w)
      | (true, w) => advance_watermarks required rest w
      end
  end.

Definition apply_evidence_requirements (context : AuthorityContext) (required : EvidenceRequirements)
    (tick : Z) : op D unit :=
  _ ← authorize context AuthorityScope.PublishEvaluation;
  replay ← observe_replay (ac_attempt context) (evidence_payload required) tick;
  if (replay : bool) then mret ()
  else
    i ← get;
    advanced ← lift (advanced_families (im_evidence i) required kFamilies);
    let '(status, marks) := advance_watermarks required advanced (im_watermarks i) in
    _ ← modify (with_watermarks marks);
    _ ← lift status;
    let stale := ⋃ map (λ family, dependents_of_family family (im_index i)) advanced in
    let next := with_evidence required marks (to_state i) in
    let next := with_evaluations
      (require_revalidation (λ r, bool_decide (rec_id r ∈ stale)) (ps_evaluations next)) next in
    persist_and_apply next.

Definition set_evidence_requirements := apply_evidence_requirements.

(** [requirements.<family> = generation]. *)
Definition with_family (family : EvidenceFamily.t) (g : Z) (e : EvidenceRequirements)
    : option EvidenceRequirements :=
  let '(mkRequirements t l c f p pl a age) := e in
  match family with
  | EvidenceFamily.Topology => Some (mkRequirements g l c f p pl a age)
  | EvidenceFamily.LinkState => Some (mkRequirements t g c f p pl a age)
  | EvidenceFamily.Capability => Some (mkRequirements t l g f p pl a age)
  | EvidenceFamily.FailureDomain => Some (mkRequirements t l c g p pl a age)
  | EvidenceFamily.Policy => Some (mkRequirements t l c f g pl a age)
  | EvidenceFamily.Planner => Some (mkRequirements t l c f p g a age)
  | EvidenceFamily.PathAuthority => Some (mkRequirements t l c f p pl g age)
  | _ => None
  end.

Definition advance_family (context : AuthorityContext) (family : EvidenceFamily.t)
    (generation tick : Z) : op D unit :=
  i ← get;
  match with_family family generation (im_evidence i) with
  | None => op_fail ErrorCode.InvalidArgument "family is not an evidence family"
  | Some required =>
      if negb (is_representable generation) then
        op_fail ErrorCode.ImpossibleGeneration "generation is not representable"
      else apply_evidence_requirements context required tick
  end.

Definition invalidation_payload (key : InvalidationKey) : Digest256 :=
  digest_of "crf.invalidate-key.v1" (hash_u8 (code (key_kind key)) ++ hash_u64 (key_value key)).

Definition invalidate_key (context : AuthorityContext) (key : InvalidationKey) (tick : Z) : op D unit :=
  _ ← authorize context AuthorityScope.PublishEvaluation;
  replay ← observe_replay (ac_attempt context) (invalidation_payload key) tick;
  if (replay : bool) then mret ()
  else
    _ ← modify (λ i, with_sequence (wrap 64 (im_invalidation_sequence i + 1)) i);
    i ← get;
    let '(moved, marks) := advance_key key (im_invalidation_sequence i) (im_watermarks i) in
    _ ← modify (with_watermarks marks);
    if negb moved then op_fail ErrorCode.StaleGeneration "invalidation watermark never decreases"
    else
      i ← get;
      let target := dependents_of [key] (im_index i) in
      let next := to_state i in
      let next := with_evaluations
        (require_revalidation (λ r, bool_decide (rec_id r ∈ target)) (ps_evaluations next)) next in
      persist_and_apply next.

(** *** Evaluation *)

(** What the first phase hands to the others. *)
Record Snapshot := mkSnapshot {
  sn_set : ConstraintSet;
  sn_evidence : EvidenceRequirements;
  sn_mask : EvidenceFamilyMask;
  sn_generation : Z
}.

Definition evaluate_payload (i : Impl) (candidates : list CandidatePath) (set_id expected : Z)
    : Digest256 :=
  digest_of "crf.evaluate.v1"
    (hash_u64 (request_digest candidates set_id expected) ++
     hash_u64 (req_topology (im_evidence i)) ++ hash_u64 (req_capability (im_evidence i))).

Definition current_of_set (set_id_ : Z) (l : list EvaluationRecord) : list EvaluationRecord :=
  List.filter (λ r, (set_id r =? set_id_) && is_current r) l.

(** The outcome reported for an exact replay: the current results of the set. *)
Definition replay_outcome (set_id_ : Z) (i : Impl) : CommitOutcome :=
  let rs := current_of_set set_id_ (im_evaluations i) in
  let admissible := existsb (λ r, is_admissible (outcome r)) rs in
  mkCommit
    (mkBatch set_id_ (match find_set set_id_ (im_sets i) with Some s => cs_generation s | None => 0 end)
       0 (if admissible then BatchOutcome.AdmissibleCandidatesAvailable
          else BatchOutcome.NoAdmissibleCandidate) admissible rs [] ReasonCode.None)
    true ReasonCode.None 0 0.

(** Phase one, under the mutex: either a replayed outcome or the snapshot. *)
Definition evaluate_begin (context : AuthorityContext) (set_id_ : Z) (candidates : list CandidatePath)
    (expected tick : Z) : op D (CommitOutcome + Snapshot) :=
  _ ← authorize context AuthorityScope.PublishEvaluation;
  i ← get;
  replay ← observe_replay (ac_attempt context) (evaluate_payload i candidates set_id_ expected) tick;
  i ← get;
  if (replay : bool) then mret (inl (replay_outcome set_id_ i))
  else
    match find_set set_id_ (im_sets i) with
    | None => op_fail ErrorCode.NotFound "constraint set is not known"
    | Some s =>
        if max_batch_size (im_limits i) <? size candidates then
          op_fail ErrorCode.ResourceLimit "batch exceeds the batch limit"
        else
          match next (im_last_generation i) with
          | None =>
              op_fail ErrorCode.ImpossibleGeneration
                "evaluation generation cannot advance without wrapping"
          | Some generation =>
              _ ← modify (with_last_generation generation);
              mret (inr (mkSnapshot s (im_evidence i) (consulted_mask s) generation))
          end
    end.

(** Phase two, without the mutex. *)
Definition evaluation_context (limits : Limits) (context : AuthorityContext) (expected tick : Z)
    (snapshot : Snapshot) : EvaluationContext :=
  mkContext (Some (sn_set snapshot)) (sn_evidence snapshot) expected (Some limits) tick
    (mkProvenance (ac_epoch context) (ac_publisher context) (ac_worker_boot context)
       (ac_attempt context) (ac_request context)) (sn_generation snapshot) true.

(** The first family of the mask whose value fails the test, as a reason. *)
Definition first_stale (mask : EvidenceFamilyMask) (moved : EvidenceFamily.t → bool)
    : option ReasonCode.t :=
  option_map staleness_reason
    (List.find (λ f, negb (Z.land mask (family_bit f) =? 0) && moved f) kFamilies).

(** The verification of the commit; [None] when nothing moved since the snapshot. *)
Definition commit_staleness (set_id_ : Z) (snapshot : Snapshot) (i : Impl) : option ReasonCode.t :=
  match find_set set_id_ (im_sets i) with
  | None => Some ReasonCode.ConstraintSetNotFound
  | Some live =>
      if negb (cs_generation live =? cs_generation (sn_set snapshot)) ||
         negb (digest_eqb (cs_digest live) (cs_digest (sn_set snapshot))) ||
         negb (eeqb (cs_state live) (cs_state (sn_set snapshot))) then
        Some ReasonCode.StaleConstraintSetGeneration
      else if negb (evidence_equal (im_evidence i) (sn_evidence snapshot)) then
        match first_stale (sn_mask snapshot) (λ f,
            negb (generation_for (im_evidence i) f =? generation_for (sn_evidence snapshot) f)) with
        | Some reason => Some reason
        | None => Some ReasonCode.EvidenceNotBound
        end
      else
        first_stale (sn_mask snapshot) (λ f,
          generation_for (sn_evidence snapshot) f <? family_mark (im_watermarks i) f)
  end.

Definition with_records (rs : list EvaluationRecord) (b : EvaluationBatch) : EvaluationBatch :=
  mkBatch (batch_set_id b) (batch_set_generation b) (batch_generation b) (batch_outcome b)
    (has_admissible b) rs (admissible_order b) (primary_batch_reason b).

(** [record.state = Current; record.committed_tick = now_tick;] *)
Definition committed_record (tick : Z) (r : EvaluationRecord) : EvaluationRecord :=
  mkEvaluation (rec_id r) (rec_generation r) (set_id r) (set_generation r) (rec_path r)
    (rec_authority_generation r) (outcome r) (primary_reason r) (reasons r) (preferences r)
    (rec_evidence r) (rec_consulted r) (provenance r) ResultState.Current (reasons_truncated r) tick
    (digest r).

(** The records kept from before the commit. *)
Definition superseded_records (set_id_ : Z) (committed : list EvaluationRecord)
    (l : list EvaluationRecord) : list EvaluationRecord :=
  map (λ r, if (set_id r =? set_id_) && negb (eeqb (state r) ResultState.StaleAtCommit)
            then with_state ResultState.Superseded r else r)
    (List.filter (λ r, negb (existsb (λ c, rec_id c =? rec_id r) committed)) l).

Definition store_population (max set_id_ : Z) (candidates : list CandidatePath)
    (l : list CandidatePopulation) : list CandidatePopulation :=
  let stored := stable_sort candidate_canonical_less candidates in
  if existsb (λ p, pop_set_id p =? set_id_) l then
    update_first (λ p, pop_set_id p =? set_id_) (λ _, mkPopulation set_id_ stored) l
  else (if max <=? size l then drop 1 l else l) ++ [mkPopulation set_id_ stored].

(** The state a commit prepares. *)
Definition commit_state (set_id_ : Z) (candidates : list CandidatePath) (tick generation : Z)
    (batch : list EvaluationRecord) (i : Impl) : PersistentState :=
  let next := to_state i in
  let committed := map (committed_record tick) batch in
  let next := with_evaluations
    (superseded_records set_id_ batch (ps_evaluations next) ++ committed) next in
  let next := with_populations
    (store_population (cf_max_candidate_populations (im_config i)) set_id_ candidates
       (ps_populations next)) generation next in
  with_evaluations (trim_history (max_evaluations_retained (im_limits i)) (ps_evaluations next)) next.

(** Phase three, under the mutex. [erase] of an empty population list is undefined in
    the code; the limit of populations is positive in every configuration it is given. *)
Definition evaluate_commit (set_id_ : Z) (candidates : list CandidatePath) (tick : Z)
    (snapshot : Snapshot) (batch : EvaluationBatch) : op D CommitOutcome :=
  i ← get;
  let at_commit := match find_set set_id_ (im_sets i) with Some s => consulted_mask s | None => 0 end in
  match commit_staleness set_id_ snapshot i with
  | Some stale =>
      mret (mkCommit (with_records (map (with_state ResultState.StaleAtCommit) (records batch)) batch)
        false stale (sn_mask snapshot) at_commit)
  | None =>
      let next := commit_state set_id_ candidates tick (sn_generation snapshot) (records batch) i in
      _ ← persist_and_apply next;
      mret (mkCommit (with_records (map (committed_record tick) (records batch)) batch)
        true ReasonCode.None (sn_mask snapshot) at_commit)
  end.

(** The whole operation, when nothing runs between its phases. *)
Definition evaluate (context : AuthorityContext) (set_id_ : Z) (candidates : list CandidatePath)
    (expected observed_tick tick : Z) : op D CommitOutcome :=
  begun ← evaluate_begin context set_id_ candidates expected observed_tick;
  match begun with
  | inl outcome => mret outcome
  | inr snapshot =>
      i ← get;
      batch ← lift (evaluate_batch
        (evaluation_context (im_limits i) context expected tick snapshot) candidates);
      evaluate_commit set_id_ candidates tick snapshot batch
  end.

Definition find_population (set_id_ : Z) (l : list CandidatePopulation) : option (list CandidatePath) :=
  option_map pop_candidates (List.find (λ p, pop_set_id p =? set_id_) l).

Definition revalidate (context : AuthorityContext) (set_id_ observed_tick tick : Z)
    : op D CommitOutcome :=
  i ← get;
  match default [] (find_population set_id_ (im_populations i)) with
  | [] =>
      op_fail ErrorCode.NotFound "no retained candidate population for this constraint set"
  | population => evaluate context set_id_ population 0 observed_tick tick
  end.

(** *** Queries *)

Definition handoffs (context : AuthorityContext) (set_id_ : Z) (i : Impl)
    : Result (list RouteFabricHandoff) :=
  let+ _ := Authority.authorize context (scope_bit AuthorityScope.ReadResults) (im_authority i) in
  Success (stable_sort (λ a b, ho_path a <? ho_path b)
    (map handoff_of (current_of_set set_id_ (im_evaluations i)))).

Definition current_result (set_id_ p : Z) (i : Impl) : Result EvaluationRecord :=
  match im_current i !! (set_id_, p) with
  | None => Failure ErrorCode.NotFound "no current result for this path"
  | Some id =>
      match List.find (λ r, rec_id r =? id) (im_evaluations i) with
      | Some r => Success r
      | None => Failure ErrorCode.NotFound "current result index is inconsistent"
      end
  end.

Definition count_state (s : ResultState.t) (l : list EvaluationRecord) : Z :=
  size (List.filter (λ r, eeqb (state r) s) l).

Definition family_cause (family : EvidenceFamily.t) : list CurrentnessCause.t :=
  match family with
  | EvidenceFamily.PathAuthority => [CurrentnessCause.PathAuthorityAdvanced]
  | EvidenceFamily.Topology => [CurrentnessCause.TopologyAdvanced]
  | EvidenceFamily.LinkState => [CurrentnessCause.LinkStateAdvanced]
  | EvidenceFamily.Capability => [CurrentnessCause.CapabilityAdvanced]
  | EvidenceFamily.FailureDomain => [CurrentnessCause.FailureDomainAdvanced]
  | EvidenceFamily.Policy => [CurrentnessCause.PolicyAdvanced]
  | EvidenceFamily.Planner => [CurrentnessCause.PlannerAdvanced]
  | _ => []
  end.

Definition cause_if (b : bool) (c : CurrentnessCause.t) : list CurrentnessCause.t := if b then [c] else [].

(** The causes inserted in the set, in the order of the code. *)
Definition currentness_causes (s : ConstraintSet) (mine : list EvaluationRecord) (i : Impl)
    : list CurrentnessCause.t :=
  cause_if (negb (eeqb (cs_state s) ConstraintSetState.Active)) CurrentnessCause.ConstraintSetStateChanged ++
  cause_if (negb (evidence_equal (requirements s) (im_evidence i)))
    CurrentnessCause.EvidenceRequirementChanged ++
  cause_if (0 <? count_state ResultState.RevalidationRequired mine) CurrentnessCause.DependencyInvalidated ++
  cause_if (0 <? count_state ResultState.RecoveredUnproven mine) CurrentnessCause.RecoveredUnproven ++
  cause_if (count_state ResultState.Current mine =? 0) CurrentnessCause.NoCurrentResult ++
  concat (map (λ f, if generation_for (im_evidence i) f <? family_mark (im_watermarks i) f
                    then family_cause f else []) kFamilies).

Definition cause_less (a b : CurrentnessCause.t) : bool := code a <? code b.

(** [std::set] and [std::sort]: ascending without repetition. *)
Definition ordered_causes (l : list CurrentnessCause.t) : list CurrentnessCause.t :=
  unique_by eeqb (stable_sort cause_less l).

Definition currentness (set_id_ : Z) (i : Impl) : Result CurrentnessReport :=
  match find_set set_id_ (im_sets i) with
  | None => Failure ErrorCode.NotFound "constraint set is not known"
  | Some s =>
      let mine := List.filter (λ r, set_id r =? set_id_) (im_evaluations i) in
      Success (mkReport set_id_ (cs_generation s) (cs_state s) (im_last_generation i) (im_evidence i)
        (requirements s) (count_state ResultState.Current mine)
        (count_state ResultState.RevalidationRequired mine)
        (count_state ResultState.RecoveredUnproven mine)
        (negb (live_publishers (im_authority i) =? 0))
        (ordered_causes (currentness_causes s mine i)))
  end.

Definition retained_candidates (set_id_ : Z) (i : Impl) : Result (list CandidatePath) :=
  match find_population set_id_ (im_populations i) with
  | Some l => Success l
  | None => Failure ErrorCode.NotFound "no retained candidate population"
  end.

(** *** Opening *)

(** The boots to fence: those already fenced, then each live boot that is not. The source
    reads the clock again for every boot it adds; here [tick] is one reading for the whole
    open, so the boots an open fences carry the same [fb_tick]. *)
Definition fence_live_boots (epoch tick : Z) (fenced : list FencedBootRecord) (live : list Z)
    : list FencedBootRecord :=
  fold_left (λ fenced boot,
    if existsb (λ r, fb_boot r =? boot) fenced then fenced
    else fenced ++ [mkFenced boot epoch tick]) live fenced.

(** What the store holds: [None] when there is nothing to restore. *)
Definition read_store (config : CoordinatorConfig) (store : DurableStore) (d : D)
    : Result (option PersistentState) :=
  if exists_ store d then
    match load store d with
    | Success st => Success (Some st)
    | Failure code text =>
        if cf_allow_initialize config then Success None else Failure code text
    end
  else Success None.

(** The authority and the epoch of the new incarnation. *)
Definition next_authority (restored : option PersistentState) (tick : Z) : Result AuthorityRegistry :=
  let+ start :=
    match restored with
    | Some st =>
        if is_valid (ps_epoch st) then
          let g := restore_durable_state (ps_epoch st)
            (fence_live_boots (ps_epoch st) tick (ps_fenced_boots st) (ps_live_boots st)) in
          match next (ps_epoch st) with
          | Some epoch => Success (g, epoch)
          | None =>
              Failure ErrorCode.ImpossibleGeneration
                "coordinator epoch cannot advance without wrapping"
          end
        else Success (empty_registry, 1)
    | None => Success (empty_registry, 1)
    end in
  let '(established, g) := establish_epoch start.2 start.1 in
  let+ _ := established in Success g.

Definition initial_impl (config : CoordinatorConfig) (store : option DurableStore)
    (g : AuthorityRegistry) (restored : option PersistentState) : Impl :=
  rebuild_derived
    match restored with
    | Some st =>
        mkImpl config store g (ps_evidence st) (ps_watermarks st) (ps_sets st)
          (map (with_state ResultState.RecoveredUnproven) (ps_evaluations st)) (ps_populations st)
          ∅ empty_index (ps_last_evaluation_generation st) 0
    | None =>
        mkImpl config store g (cf_evidence config) no_watermarks [] [] [] ∅ empty_index 0 0
    end.

Definition start (config : CoordinatorConfig) (store : option DurableStore)
    (restored : option PersistentState) (tick : Z) (d : D) : Result Impl * D :=
  match next_authority restored tick with
  | Failure code text => (Failure code text, d)
  | Success g =>
      let i := initial_impl config store g restored in
      match persist (to_state i) (mkWorld i d) with
      | (Success _, w) => (Success (impl w), disk w)
      | (Failure code text, w) => (Failure code text, disk w)
      end
  end.

(** [open] with a clock; a failed open destroys the store, which releases its lock. *)
Definition open (config : CoordinatorConfig) (tick : Z) (d : D) : Result Impl * D :=
  match validate_limits (cf_limits config) with
  | Some why => (Failure ErrorCode.InvalidArgument why, d)
  | None =>
    if String.eqb (cf_store_path config) "" then start config None None tick d
    else
      let released (r : Result Impl * D) : Result Impl * D :=
        match r.1 with
        | Success i => r
        | Failure code text => (Failure code text, release_store_lock (cf_store_path config) r.2)
        end in
      match Store.open (cf_store_path config) (cf_limits config) (cf_allow_initialize config) d with
      | (Failure code text, d) => (Failure code text, d)
      | (Success store, d) =>
          match read_store config store d with
          | Failure code text => released (Failure code text, d)
          | Success restored => released (start config (Some store) restored tick d)
          end
      end
  end.

Definition open_in_memory (config : CoordinatorConfig) (tick : Z) (d : D) : Result Impl * D :=
  open (mkConfig (cf_limits config) "" (cf_grants config) true (cf_evidence config)
    (cf_max_candidate_populations config)) tick d.

End operations.
