(* ===== verification/CoordinatorInvariant.v ===== *)
(** The invariant of the coordinator: what holds between any two operations, whatever
    operations run, in whatever order, and whether their durable writes succeed.

    [quiet] relates two states of a coordinator that keep the same published data;
    [published] describes an operation that persisted a new state and applied it.
    Every operation is one or the other, and both keep the invariant. *)

From Stdlib Require Import ZArith Lia Bool Strings.Byte Sorted.
From stdpp Require Import base list numbers strings gmap sets relations.
From S2P Require Import Prelude Containers Base Codec Digest Lifecycle Constraint Candidate.
From S2P Require Import Evaluation Ordering ConstraintSet Evaluator EvaluatorSpec EvaluatorCorrect.
From S2P Require Import BatchCorrect Authority Invalidation Persistence Store Coordinator.

Open Scope string_scope.
Open Scope list_scope.
Open Scope Z_scope.

(** ** The derived maps *)

Lemma current_key_Some r k : current_key r = Some k ↔ is_current r = true ∧ k = (set_id r, rec_path r).
Proof. unfold current_key, is_current. destruct (eeqb _ _); naive_solver. Qed.

Lemma current_keys_elem l k : k ∈ current_keys l ↔ ∃ r, r ∈ l ∧ current_key r = Some k.
Proof. unfold current_keys. apply list_elem_of_omap. Qed.

(** The loop of [rebuild_derived], from any starting point. *)
Lemma rebuild_current limits sets ps l : ∀ m index k id,
  NoDup (current_keys l) →
  (fold_left (rebuild_record limits sets ps) l (m, index)).1 !! k = Some id ↔
  (∃ r, r ∈ l ∧ current_key r = Some k ∧ rec_id r = id) ∨ (k ∉ current_keys l ∧ m !! k = Some id).
Proof.
  induction l as [|r l IH]; intros m index k id Hnd; cbn [fold_left].
  { split; [|naive_solver (by rewrite ?elem_of_nil in *)].
    intros Hm. right. split; [apply not_elem_of_nil|done]. }
  unfold rebuild_record at 2. unfold current_keys in Hnd. cbn [omap list_omap] in Hnd.
  pose proof (current_key_Some r) as Hck.
  assert (k ∈ current_keys (r :: l) ↔ current_key r = Some k ∨ k ∈ current_keys l) as Hin.
  { rewrite !current_keys_elem. set_unfold. naive_solver. }
  destruct (is_current r) eqn:Ec; cbn [negb fst snd].
  - assert (current_key r = Some (set_id r, rec_path r)) as E by (by apply Hck).
    rewrite E in Hnd. apply NoDup_cons in Hnd as [Hn Hnd]. fold (current_keys l) in Hn, Hnd.
    rewrite IH by done. rewrite Hin, E. destruct (decide (k = (set_id r, rec_path r))) as [->|Hne].
    + rewrite lookup_insert_eq. split.
      * intros [(x & Hx & Hk & Hi)|[_ [= <-]]]; left; [exists x|exists r]; split_and!; auto;
          [by apply list_elem_of_further|apply list_elem_of_here].
      * intros [(x & [->|Hx]%elem_of_cons & Hk & Hi)|[Hc _]]; [right|left|naive_solver].
        -- by rewrite Hi.
        -- exists x. done.
    + rewrite lookup_insert_ne by done. split.
      * intros [(x & Hx & Hk & Hi)|[Hc Hm]]; [left|right; naive_solver].
        exists x. split_and!; auto. by apply list_elem_of_further.
      * intros [(x & [->|Hx]%elem_of_cons & Hk & Hi)|[Hc Hm]]; [congruence|left; eauto|right; naive_solver].
  - assert (current_key r = None) as E.
    { destruct (current_key r) as [k'|] eqn:E'; [|done]. apply current_key_Some in E' as [E' _]. congruence. }
    rewrite E in Hnd. rewrite IH by done. rewrite Hin, E. split.
    + intros [(x & Hx & Hk & Hi)|[Hc Hm]]; [left|right; naive_solver].
      exists x. split_and!; auto. by apply list_elem_of_further.
    + intros [(x & [->|Hx]%elem_of_cons & Hk & Hi)|[Hc Hm]]; [congruence|left; eauto|right; naive_solver].
Qed.

(** Binding a list of keys adds exactly those pairs. *)
Lemma bind_ok k id index :
  index_ok index → index_ok (bind k id index).2 ∧
  ∀ k' e', has_at k' e' (forward (bind k id index).2) = true ↔
    has_at k' e' (forward index) = true ∨ (id ≠ 0 ∧ k' = k ∧ e' = id).
Proof.
  intros [Hm Hf Hr]. unfold bind. destruct (is_valid id) eqn:E; cbn [negb snd].
  - apply is_valid_true in E. split; [split|]; cbn [forward reverse].
    + intros k' e'. rewrite !has_at_insert_at, Hm. naive_solver.
    + by apply insert_at_nonempty.
    + by apply insert_at_nonempty.
    + intros k' e'. rewrite has_at_insert_at. naive_solver.
  - apply is_valid_false in E. split; [by split|]. naive_solver.
Qed.

Lemma bind_keys ks id : ∀ index,
  index_ok index →
  index_ok (fold_left (λ index k, (bind k id index).2) ks index) ∧
  ∀ k e, has_at k e (forward (fold_left (λ index k, (bind k id index).2) ks index)) = true ↔
    has_at k e (forward index) = true ∨ (id ≠ 0 ∧ e = id ∧ k ∈ ks).
Proof.
  induction ks as [|k0 ks IH]; intros index Hok; cbn [fold_left].
  { split; [done|]. intros k e. rewrite elem_of_nil. naive_solver. }
  destruct (bind_ok k0 id index Hok) as [Hok' Hb]. destruct (IH _ Hok') as [H1 H2].
  split; [done|]. intros k e. rewrite H2, Hb, elem_of_cons. naive_solver.
Qed.

Lemma rebuild_index limits sets ps l : ∀ m index,
  index_ok index →
  index_ok (fold_left (rebuild_record limits sets ps) l (m, index)).2 ∧
  ∀ k e, has_at k e (forward (fold_left (rebuild_record limits sets ps) l (m, index)).2) = true ↔
    has_at k e (forward index) = true ∨
    ∃ r, r ∈ l ∧ is_current r = true ∧ rec_id r = e ∧ e ≠ 0 ∧ k ∈ record_keys limits sets ps r.
Proof.
  induction l as [|r l IH]; intros m index Hok; cbn [fold_left].
  { split; [done|]. intros k e. setoid_rewrite elem_of_nil. naive_solver. }
  unfold rebuild_record at 2 4. cbn [fst snd]. destruct (is_current r) eqn:Ec; cbn [negb].
  - destruct (bind_keys (record_keys limits sets ps r) (rec_id r) index Hok) as [Hok' Hb].
    destruct (IH (<[(set_id r, rec_path r) := rec_id r]> m) _ Hok') as [H1 H2].
    split; [done|]. intros k e. rewrite H2, Hb. split.
    + intros [[Hi|(Hz & -> & Hk)]|(x & Hx & Hrest)]; [by left|right|right].
      * exists r. split_and!; auto. apply list_elem_of_here.
      * exists x. split; [by apply list_elem_of_further|exact Hrest].
    + intros [Hi|(x & [->|Hx]%elem_of_cons & Hc & He & Hz & Hk)]; [by left; left|left; right|right].
      * subst e. split_and!; auto.
      * exists x. split_and!; auto.
  - destruct (IH m index Hok) as [H1 H2]. split; [done|]. intros k e. rewrite H2. split.
    + intros [Hi|(x & Hx & Hrest)]; [by left|right]. exists x. split; [|exact Hrest].
      by apply list_elem_of_further.
    + intros [Hi|(x & [->|Hx]%elem_of_cons & Hc & Hrest)]; [by left|congruence|right].
      exists x. split_and!; auto; naive_solver.
Qed.

Lemma empty_index_ok : index_ok empty_index.
Proof. apply empty_index_represents. Qed.

(** The derived maps of a coordinator are those its data determine. *)
Definition derived (i : Impl) : Prop := rebuild_derived i = i.

Lemma derived_current i k id :
  derived i → NoDup (current_keys (im_evaluations i)) →
  im_current i !! k = Some id ↔
  ∃ r, r ∈ im_evaluations i ∧ current_key r = Some k ∧ rec_id r = id.
Proof.
  intros Hd Hnd. unfold derived in Hd. rewrite <- Hd at 1. cbn [rebuild_derived im_current].
  rewrite rebuild_current by done. rewrite lookup_empty. naive_solver.
Qed.

Lemma derived_index i :
  derived i → index_ok (im_index i) ∧
  ∀ k e, e ∈ dependents k (im_index i) ↔
    ∃ r, r ∈ im_evaluations i ∧ is_current r = true ∧ rec_id r = e ∧ e ≠ 0 ∧
      k ∈ record_keys (im_limits i) (im_sets i) (im_populations i) r.
Proof.
  intros Hd. destruct (rebuild_index (im_limits i) (im_sets i) (im_populations i) (im_evaluations i)
    ∅ empty_index empty_index_ok) as [H1 H2].
  unfold derived in Hd. rewrite <- Hd at 1. split; [exact H1|]. intros k e.
  rewrite dependents_elem. rewrite <- Hd at 1. cbn [rebuild_derived im_index]. rewrite H2.
  split; [intros [H|H]; [done|done]|by right].
Qed.

(** ** How authority evolves *)

(** The publisher of a registration was granted its scopes out of band. *)
Definition granted (config : CoordinatorConfig) (r : PublisherRegistration) : Prop :=
  ∃ scopes, find_grant (rg_publisher r) (cf_grants config) = Some scopes ∧
    holds_scopes scopes (rg_scopes r).

(** Registry calls that keep the epoch and make live only what was granted. *)
Record evolves (config : CoordinatorConfig) (g g' : AuthorityRegistry) : Prop := {
  ev_steps : rtc (registry_step (cf_limits config)) g g';
  ev_epoch : reg_epoch g' = reg_epoch g;
  ev_live : ∀ r, r ∈ registrations g' → rg_live r = true → r ∈ registrations g ∨ granted config r
}.

#[export] Instance evolves_preorder config : PreOrder (evolves config).
Proof.
  split; [split; [reflexivity|done|auto]|].
  intros g1 g2 g3 [S1 E1 L1] [S2 E2 L2]. split; [by etrans|congruence|].
  intros r Hr Hl. destruct (L2 r Hr Hl); auto.
Qed.

Lemma evolves_narrows config g g' :
  registry_step (cf_limits config) g g' → narrows g g' → evolves config g g'.
Proof.
  intros Hs [E _ L _]. split; [by apply rtc_once|done|]. intros r Hr Hl. left. by eapply live_sub_elem.
Qed.

Lemma evolves_observe config a p t g :
  evolves config g (Authority.observe_attempt a p t (cf_limits config) g).2.
Proof.
  split; [apply rtc_once, step_observe| |]; unfold Authority.observe_attempt; destruct (negb _); try done;
    destruct (find_attempt a g); auto.
Qed.

Lemma evolves_fence config b e t g :
  evolves config g (Authority.fence_boot b e t (cf_limits config) g).2.
Proof.
  apply evolves_narrows; [apply step_fence|]. by eapply fence_boot_spec, surjective_pairing.
Qed.

Lemma evolves_drop config session g : evolves config g (Authority.drop_session session g).2.
Proof.
  apply evolves_narrows; [apply step_drop|]. by eapply drop_session_narrows, surjective_pairing.
Qed.

Lemma evolves_register config r g :
  granted config r → evolves config g (Authority.register_publisher r (cf_limits config) g).2.
Proof.
  intros Hr. destruct (Authority.register_publisher _ _ g) as [st g'] eqn:E. cbn [snd].
  assert (registry_step (cf_limits config) g g') as Hs.
  { pose proof (step_register (cf_limits config) r g) as Hs. by rewrite E in Hs. }
  destruct (ok st) eqn:Hst; [apply ok_success_iff in Hst as ->|].
  - destruct (register_publisher_reincarnates _ _ _ _ E) as ([E1 _ L _] & Hregs & _ & _).
    split; [by apply rtc_once|done|]. intros x Hx Hl. rewrite Hregs in Hx.
    apply elem_of_app in Hx as [Hx| ->%list_elem_of_singleton]; [left|by right].
    by eapply live_sub_elem.
  - apply evolves_narrows; [done|]. by destruct (register_publisher_failure _ _ _ _ _ E Hst).
Qed.

(** ** Quiet steps *)

(** What identifies a store, its counters apart. *)
Definition store_id (s : option DurableStore) : option (string * Limits) :=
  (λ s, (store_path s, store_limits s)) <$> s.

(** The published data are the same; authority, watermarks and the generation counter
    move only the way they are allowed to. *)
Record quiet (i i' : Impl) : Prop := {
  qt_config : im_config i' = im_config i;
  qt_store : store_id (im_store i') = store_id (im_store i);
  qt_evidence : im_evidence i' = im_evidence i;
  qt_sets : im_sets i' = im_sets i;
  qt_evaluations : im_evaluations i' = im_evaluations i;
  qt_populations : im_populations i' = im_populations i;
  qt_current : im_current i' = im_current i;
  qt_index : im_index i' = im_index i;
  qt_authority : evolves (im_config i) (im_authority i) (im_authority i');
  qt_watermarks : marks_le (im_watermarks i) (im_watermarks i');
  qt_generation : im_last_generation i <= im_last_generation i'
}.

#[export] Instance quiet_preorder : PreOrder quiet.
Proof.
  split.
  - intros i. split; try reflexivity.
  - intros i j k [H1 H2 H3 H4 H5 H6 H7 H8 H9 H10 H11] [G1 G2 G3 G4 G5 G6 G7 G8 G9 G10 G11].
    rewrite H1 in G9. constructor; [congruence..| | |lia]; by etrans.
Qed.

Lemma quiet_limits i i' : quiet i i' → im_limits i' = im_limits i.
Proof. intros Hq. unfold im_limits. by rewrite (qt_config _ _ Hq). Qed.

Lemma quiet_authority i g :
  evolves (im_config i) (im_authority i) g → quiet i (with_authority g i).
Proof. intros Hg. split; try done; reflexivity. Qed.

Lemma quiet_store i s : store_id s = store_id (im_store i) → quiet i (with_store s i).
Proof. intros Hs. split; try done; reflexivity. Qed.

Lemma quiet_watermarks i w : marks_le (im_watermarks i) w → quiet i (with_watermarks w i).
Proof. intros Hs. split; try done; reflexivity. Qed.

Lemma quiet_generation i g : im_last_generation i <= g → quiet i (with_last_generation g i).
Proof. intros Hs. split; try done; reflexivity. Qed.

Lemma quiet_sequence i s : quiet i (with_sequence s i).
Proof. split; try done; reflexivity. Qed.

(** Everything the rebuild reads is kept. *)
Lemma quiet_derived i i' : quiet i i' → derived i → derived i'.
Proof.
  intros [Hc _ _ Hs He Hp Hm Hx _ _ _] Hd. unfold derived, rebuild_derived, im_limits in *.
  destruct i as [c st g e w sets evs pops cur idx lg sq], i' as [c' st' g' e' w' sets' evs' pops' cur' idx' lg' sq'].
  cbn in *. subst. injection Hd as H1 H2. by rewrite H1, H2.
Qed.

Section operations.
Context {D : Type} `{FileSystemLaws D}.

(** The content of the store file. *)
Definition file (w : World D) : option (list byte) :=
  match im_store (impl w) with Some s => contents (disk w) (store_path s) | None => None end.

Lemma file_same (w w' : World D) :
  store_id (im_store (impl w')) = store_id (im_store (impl w)) →
  (∀ s, im_store (impl w) = Some s → contents (disk w') (store_path s) = contents (disk w) (store_path s)) →
  file w' = file w.
Proof.
  unfold file, store_id. intros Hs Hc.
  destruct (im_store (impl w)) as [s|], (im_store (impl w')) as [s'|]; try done.
  cbn in Hs. injection Hs as -> _. by apply Hc.
Qed.

(** An operation that keeps the published data, and one that also leaves the disk
    alone. *)
Class Quiet {A} (m : op D A) : Prop := quiet_op : ∀ w, quiet (impl w) (impl (m w).2).
Class Still {A} (m : op D A) : Prop :=
  still_op : ∀ w, quiet (impl w) (impl (m w).2) ∧ disk (m w).2 = disk w.
#[export] Hint Mode Quiet - ! : typeclass_instances.
#[export] Hint Mode Still - ! : typeclass_instances.

#[export] Instance still_ret {A} (a : A) : Still (mret a).
Proof. by intros w. Qed.
#[export] Instance still_fail {A} code text : Still (@op_fail D A code text).
Proof. by intros w. Qed.
#[export] Instance still_lift {A} (r : Result A) : Still (@lift D A r).
Proof. by intros w. Qed.
#[export] Instance still_get : Still (@get D).
Proof. by intros w. Qed.
#[export] Instance still_authorize context scope : Still (@authorize D context scope).
Proof. by intros w. Qed.

#[export] Instance still_bind {A B} (m : op D A) (k : A → op D B) :
  Still m → (∀ a, Still (k a)) → Still (m ≫= k).
Proof.
  intros Hm Hk w. unfold mbind, op_bind. destruct (Hm w) as [Hq Hd].
  destruct (m w) as [[a|code text] w']; cbn [snd] in *; [|done].
  destruct (Hk a w') as [Hq' Hd']. split; [by etrans|congruence].
Qed.

#[export] Instance quiet_bind {A B} (m : op D A) (k : A → op D B) :
  Quiet m → (∀ a, Quiet (k a)) → Quiet (m ≫= k).
Proof.
  intros Hm Hk w. unfold mbind, op_bind. specialize (Hm w).
  destruct (m w) as [[a|code text] w']; cbn [snd] in *; [|done].
  etrans; [exact Hm|apply Hk].
Qed.

#[export] Instance still_quiet {A} (m : op D A) : Still m → Quiet m | 10.
Proof. intros Hm w. apply Hm. Qed.

#[export] Instance still_if {A} (b : bool) (m1 m2 : op D A) :
  Still m1 → Still m2 → Still (if b then m1 else m2).
Proof. by destruct b. Qed.
#[export] Instance quiet_if {A} (b : bool) (m1 m2 : op D A) :
  Quiet m1 → Quiet m2 → Quiet (if b then m1 else m2).
Proof. by destruct b. Qed.

#[export] Instance still_observe a p t : Still (@observe D a p t).
Proof.
  intros w. unfold observe.
  pose proof (evolves_observe (im_config (impl w)) a p t (im_authority (impl w))) as Hs.
  unfold im_limits.
  destruct (Authority.observe_attempt _ _ _ _ _) as [verdict g]. cbn [snd impl disk] in *.
  split; [|done]. by apply quiet_authority.
Qed.

#[export] Instance still_observe_replay a p t : Still (@observe_replay D a p t).
Proof. apply still_bind; [apply _|]. intros []; apply _. Qed.

#[export] Instance still_fence boot t : Still (@fence D boot t).
Proof.
  intros w. unfold fence.
  pose proof (evolves_fence (im_config (impl w)) boot (reg_epoch (im_authority (impl w))) t
    (im_authority (impl w))) as Hs. unfold im_limits.
  destruct (Authority.fence_boot _ _ _ _ _) as [st g]. cbn [snd impl disk] in *.
  split; [|done]. by apply quiet_authority.
Qed.

#[export] Instance still_forget s : Still (@forget_session D s).
Proof.
  intros w. unfold forget_session.
  pose proof (evolves_drop (im_config (impl w)) s (im_authority (impl w))) as Hs.
  destruct (Authority.drop_session _ _) as [st g]. cbn [snd impl disk] in *.
  split; [|done]. by apply quiet_authority.
Qed.

Lemma save_id st store (d : D) : store_id (Some (save st store d).1.2) = store_id (Some store).
Proof.
  unfold save. destruct (validate_persistent_state _ _); [|done].
  destruct (_ <? _); [done|]. by destruct (atomic_write _ _ _) as [[] ].
Qed.

#[export] Instance quiet_persist st : Quiet (@persist D _ st).
Proof.
  intros w. unfold persist. destruct (im_store (impl w)) as [store|] eqn:E; [|done].
  pose proof (save_id st store (disk w)) as Hid.
  destruct (save st store (disk w)) as [[s store'] d]. cbn [fst snd impl] in *.
  apply quiet_store. by rewrite E.
Qed.

Lemma still_modify (f : Impl → Impl) : (∀ i, quiet i (f i)) → Still (@modify D f).
Proof. intros Hf w. by split; [apply Hf|]. Qed.

(** ** Operations that publish *)

(** The durable copy of a state, and that the state is one the store accepts. *)
Definition saved (next : PersistentState) (w : World D) : Prop :=
  match im_store (impl w) with
  | None => True
  | Some s =>
      state_ok (store_limits s) next ∧
      contents (disk w) (store_path s) = Some (encode_envelope (encode_persistent_state next []))
  end.

(** [w'] has persisted and applied [next], which [P] relates to the coordinator the
    operation prepared it from. *)
Definition published (P : Impl → PersistentState → Prop) (i : Impl) (w' : World D) : Prop :=
  ∃ next i1 s, quiet i i1 ∧ P i1 next ∧ store_id s = store_id (im_store i1) ∧
    impl w' = apply_state next (with_store s i1) ∧ saved next w'.

(** An operation that either keeps the published data and the store file, or succeeds
    with a state that is durable before it is visible. It succeeds without publishing
    exactly when [R] holds. *)
Definition commits_from {A} (R : Prop) (P : Impl → PersistentState → Prop) (w : World D) (m : op D A)
    : Prop :=
  ∀ r w', m w = (r, w') →
    (quiet (impl w) (impl w') ∧ file w' = file w ∧ (ok r = true → R)) ∨
    (ok r = true ∧ ¬ R ∧ published P (impl w) w').

Lemma still_file {A} (m : op D A) `{!Still m} w : file (m w).2 = file w.
Proof.
  destruct (still_op (m := m) w) as [Hq Hd]. apply file_same; [apply Hq|]. by rewrite Hd.
Qed.

Lemma commits_fail {A} R P w code text : commits_from R P w (op_fail (A := A) code text).
Proof. intros r w' [= <- <-]. by left. Qed.

Lemma commits_replay {A} (R : Prop) P w (a : A) : R → commits_from R P w (mret a).
Proof. intros HR r w' [= <- <-]. by left. Qed.

(** One step before the publication, quiet at this world. *)
Lemma commits_step {A B} R P w (m : op D A) (k : A → op D B) :
  quiet (impl w) (impl (m w).2) → disk (m w).2 = disk w →
  (∀ a w1, m w = (Success a, w1) → commits_from R P w1 (k a)) → commits_from R P w (m ≫= k).
Proof.
  intros Hq Hd Hk r w' E. unfold mbind, op_bind in E.
  assert (file (m w).2 = file w) as Hf by (apply file_same; [apply Hq|by rewrite Hd]).
  destruct (m w) as [[a|code text] w1] eqn:E1; cbn [snd] in *.
  - destruct (Hk a w1 eq_refl r w' E) as [(Hq' & Hf' & HR)|(Hok & HR & next & i1 & s & Hq' & Hrest)].
    + left. split; [by etrans|]. split; [congruence|done].
    + right. split; [done|]. split; [done|]. exists next, i1, s. split; [by etrans|done].
  - injection E as <- <-. by left.
Qed.

Lemma commits_bind {A B} R P w (m : op D A) (k : A → op D B) :
  Still m → (∀ a w1, m w = (Success a, w1) → commits_from R P w1 (k a)) → commits_from R P w (m ≫= k).
Proof. intros Hm. apply commits_step; apply Hm. Qed.

Lemma commits_get {B} R P w (k : Impl → op D B) :
  commits_from R P w (k (impl w)) → commits_from R P w (get ≫= k).
Proof. intros Hk. apply commits_bind; [apply _|]. by intros a w1 [= <- <-]. Qed.

Lemma commits_lift {A B} R P w (x : Result A) (k : A → op D B) :
  (∀ a, x = Success a → commits_from R P w (k a)) → commits_from R P w (lift x ≫= k).
Proof. intros Hk. apply commits_bind; [apply _|]. intros a w1 [= -> <-]. by apply Hk. Qed.

Lemma commits_modify {B} R P w (f : Impl → Impl) (k : () → op D B) :
  quiet (impl w) (f (impl w)) → commits_from R P (mkWorld (f (impl w)) (disk w)) (k ()) →
  commits_from R P w (modify f ≫= k).
Proof. intros Hq Hk. apply commits_step; [done|done|]. by intros [] w1 [= <-]. Qed.

(** The attempt was recorded, with this payload. *)
Definition replayed (context : AuthorityContext) (payload : Digest256) (i : Impl) : Prop :=
  ∃ x, find_attempt (ac_attempt context) (im_authority i) = Some x ∧ at_payload x = payload.

(** The common head: authorize, then tell a replay from a fresh attempt; a fresh one
    continues with the data and the store of the world it began in. *)
Lemma commits_attempt {B} P w context scope payload t (k : bool → op D B) :
  (∀ w1, quiet (impl w) (impl w1) → ¬ replayed context payload (impl w) →
     commits_from (replayed context payload (impl w)) P w1 (k false)) →
  (∀ w1, quiet (impl w) (impl w1) → replayed context payload (impl w) →
     commits_from (replayed context payload (impl w)) P w1 (k true)) →
  commits_from (replayed context payload (impl w)) P w
    (authorize context scope ≫= λ _, observe_replay (ac_attempt context) payload t ≫= k).
Proof.
  intros Hfresh Hreplay. apply commits_bind; [apply _|]. intros [] w0 E.
  assert (w0 = w) as -> by (unfold authorize in E; congruence). clear E.
  pose proof (still_op (m := observe_replay (ac_attempt context) payload t) w) as [Hq Hd].
  apply commits_bind; [apply _|]. intros b w1 E. rewrite E in Hq, Hd. cbn [snd] in *.
  assert (if b then replayed context payload (impl w) else ¬ replayed context payload (impl w)) as Hb.
  { unfold observe_replay, mbind, op_bind, observe, Authority.observe_attempt in E.
    destruct (negb _); [done|]. unfold replayed.
    destruct (find_attempt _ _) as [x|]; [|injection E as <- _; by intros (x & [= ] & _)].
    destruct (digest_eqb _ _) eqn:Ed; [|done]. injection E as <- _.
    exists x. split; [done|]. by apply digest_eqb_eq. }
  destruct b; [by apply Hreplay|by apply Hfresh].
Qed.

Lemma persist_spec next w r w' :
  persist next w = (r, w') →
  ∃ s, store_id s = store_id (im_store (impl w)) ∧ impl w' = with_store s (impl w) ∧
    (ok r = true → saved next w') ∧ (ok r = false → file w' = file w).
Proof.
  unfold persist. destruct (im_store (impl w)) as [store|] eqn:E.
  - pose proof (save_id next store (disk w)) as Hid.
    destruct (save next store (disk w)) as [[r0 store'] d] eqn:Es. intros [= <- <-].
    cbn [fst snd] in Hid. exists (Some store'). split; [done|]. split; [done|].
    unfold saved, file. cbn [impl disk with_store im_store]. rewrite E.
    assert (store_path store' = store_path store ∧ store_limits store' = store_limits store) as [Hp Hl]
      by (by injection Hid). rewrite Hp, Hl.
    unfold save in Es. destruct (validate_persistent_state next (store_limits store)) as [[]|] eqn:Ev.
    + destruct (_ <? _); [by injection Es as <- _ <-|].
      destruct (atomic_write _ _ _) as [st d1] eqn:Ea. apply atomic_write_spec in Ea as [Hc _].
      destruct st as [[]|]; injection Es as <- _ <-; cbn [ok success] in *; (split; [|done]); [|done].
      intros _. split; [|done]. apply validate_persistent_state_ok. by rewrite Ev.
    + injection Es as <- _ <-. done.
  - intros [= <- <-]. exists None. unfold saved, file. rewrite E. split; [done|].
    split; [destruct (impl w); cbn in *; by subst|done].
Qed.

(** The common tail. *)
Lemma commits_publish {B} R P w next (k : () → op D B) :
  ¬ R → P (impl w) next → (∀ a w1, ∃ b, k a w1 = (Success b, w1)) →
  commits_from R P w (persist_and_apply next ≫= k).
Proof.
  intros HR HP Hk r w' E. unfold persist_and_apply in E.
  unfold mbind at 1, op_bind at 1 in E. unfold mbind, op_bind in E.
  destruct (persist next w) as [r0 w1] eqn:Ep.
  apply persist_spec in Ep as (s & Hid & Hi & Hok & Hfail).
  destruct r0 as [[]|code text].
  - unfold modify in E. destruct (Hk () (mkWorld (apply_state next (impl w1)) (disk w1))) as [b Hb].
    cbn in E. unfold success in E. rewrite Hb in E. injection E as <- <-. right. split; [done|]. split; [done|].
    exists next, (impl w), s. split; [reflexivity|]. split; [done|]. split; [done|].
    cbn [impl]. rewrite Hi. split; [done|]. specialize (Hok eq_refl).
    unfold saved in *. cbn [impl disk]. rewrite Hi in Hok. exact Hok.
  - injection E as <- <-. left. rewrite Hi. split; [by apply quiet_store|]. split; [by apply Hfail|done].
Qed.

Lemma commits_publish_last R P w next :
  ¬ R → P (impl w) next → commits_from R P w (persist_and_apply next).
Proof.
  intros HR HP. pose proof (commits_publish R P w next mret HR HP) as Hc.
  intros r w' E. apply (Hc ltac:(intros a w1; by exists a) r w').
  unfold mbind, op_bind. rewrite E. by destruct r.
Qed.


(** ** What each operation publishes *)

Definition publishes_set (s : ConstraintSet) (tick : Z) (i : Impl) (next : PersistentState) : Prop :=
  let result := validate_and_finalize_constraint_set (with_declared_tick tick s) (im_limits i) [] in
  ok (fin_status result) = true ∧
  ∃ finalized sets, place_set (im_limits i) (fin_set result) (im_sets i) = Success (finalized, sets) ∧
    next = with_evaluations
      (require_revalidation (λ r, set_id r =? cs_id finalized) (im_evaluations i))
      (with_sets sets (to_state i)).

Definition publishes_lifecycle (id : Z) (event : LifecycleEvent.t) (i : Impl)
    (next : PersistentState) : Prop :=
  ∃ target, find_set id (im_sets i) = Some target ∧
    let outcome := apply_lifecycle_event (cs_state target) event in
    Lifecycle.accepted outcome = true ∧
    next = with_evaluations
      (if eeqb (next_state outcome) ConstraintSetState.Active then im_evaluations i
       else require_revalidation (λ r, set_id r =? id) (im_evaluations i))
      (with_sets (update_first (λ s, cs_id s =? id) (with_set_state (next_state outcome)) (im_sets i))
         (to_state i)).

Definition publishes_evidence (required : EvidenceRequirements) (i : Impl) (next : PersistentState)
    : Prop :=
  ∃ advanced, advanced_families (im_evidence i) required kFamilies = Success advanced ∧
    (∀ f, f ∈ advanced → generation_for required f <= family_mark (im_watermarks i) f) ∧
    next = with_evaluations
      (require_revalidation
         (λ r, bool_decide (rec_id r ∈ ⋃ map (λ f, dependents_of_family f (im_index i)) advanced))
         (im_evaluations i))
      (with_evidence required (im_watermarks i) (to_state i)).

Definition publishes_invalidation (key : InvalidationKey) (i : Impl) (next : PersistentState) : Prop :=
  next = with_evaluations
    (require_revalidation (λ r, bool_decide (rec_id r ∈ dependents_of [key] (im_index i)))
       (im_evaluations i)) (to_state i).

Lemma publish_commits context s t1 t2 w :
  commits_from (replayed context (publish_payload s) (impl w)) (publishes_set s t2) w
    (publish_constraint_set context s t1 t2).
Proof.
  apply commits_attempt; intros w1 _ Hr; apply commits_get; [|destruct (find_set _ _);
    [by apply commits_replay|apply commits_fail]].
  apply commits_lift. intros [] Hv. apply commits_lift. intros [finalized sets] Hp.
  apply commits_publish; [done| |by intros; eexists]. split; [by rewrite Hv|]. by exists finalized, sets.
Qed.

Lemma lifecycle_commits context id event t w :
  commits_from (replayed context (lifecycle_payload id event) (impl w)) (publishes_lifecycle id event) w
    (apply_lifecycle context id event t).
Proof.
  apply commits_attempt; intros w1 _ Hr; apply commits_get; cbv zeta;
    (destruct (find_set id _) as [target|] eqn:E; [|apply commits_fail]); [|by apply commits_replay].
  destruct (Lifecycle.accepted _) eqn:Ea; cbn [negb]; [|apply commits_fail].
  apply commits_publish; [done| |by intros; eexists]. exists target. done.
Qed.

Lemma advance_family_le f g w moved w' :
  0 <= g → Invalidation.advance_family f g w = (moved, w') → marks_le w w'.
Proof. intros Hg E. pose proof (run_watermark_le w (AdvanceFamily f g) Hg) as Hr. cbn in Hr. by rewrite E in Hr. Qed.

Lemma advance_key_le k g w moved w' :
  0 <= g → advance_key k g w = (moved, w') → marks_le w w'.
Proof. intros Hg E. pose proof (run_watermark_le w (AdvanceKey k g) Hg) as Hr. cbn in Hr. by rewrite E in Hr. Qed.

Lemma advance_watermarks_le required l : ∀ w st w',
  Forall (λ f, 0 <= generation_for required f) l →
  advance_watermarks required l w = (st, w') → marks_le w w'.
Proof.
  induction l as [|f l IH]; intros w st w' Hl; cbn [advance_watermarks]; [by intros [= _ <-]|].
  apply Forall_cons in Hl as [Hf Hl].
  destruct (Invalidation.advance_family _ _ w) as [[] w1] eqn:E;
    apply advance_family_le in E; [|done| |done].
  - intros Hr. etrans; [exact E|by eapply IH].
  - by intros [= _ <-].
Qed.

(** A family advances only upwards, and those that stay are not behind. *)
Lemma advanced_families_spec evidence required l advanced :
  advanced_families evidence required l = Success advanced →
  Forall (λ f, generation_for evidence f <= generation_for required f) l ∧
  (∀ f, f ∈ advanced ↔ f ∈ l ∧ generation_for evidence f < generation_for required f).
Proof.
  revert advanced. induction l as [|f l IH]; intros advanced; cbn [advanced_families].
  { intros [= <-]. split; [done|]. intros f. rewrite elem_of_nil. naive_solver. }
  destruct (_ <? _) eqn:E1; [done|]. intros (rest & Hr & [= <-])%rbind_Success.
  destruct (IH rest Hr) as [H1 H2]. split; [constructor; [lia|done]|]. intros g.
  destruct (generation_for evidence f <? generation_for required f) eqn:E2;
    rewrite ?elem_of_cons, H2; split; intros Hx; destruct_and?; destruct_or?; subst; naive_solver lia.
Qed.

Definition evidence_unsigned (e : EvidenceRequirements) : Prop := ∀ f, 0 <= generation_for e f.

(** Advancing a list of families reaches all of them. *)
Lemma advance_watermarks_reach required l : ∀ w w',
  Forall (λ f, 0 <= generation_for required f) l →
  advance_watermarks required l w = (success, w') →
  ∀ f, f ∈ l → generation_for required f <= family_mark w' f.
Proof.
  induction l as [|f l IH]; intros w w' Hl Hw g Hg; [by apply elem_of_nil in Hg|].
  cbn [advance_watermarks] in Hw. apply Forall_cons in Hl as [Hf Hl].
  pose proof (advance_family_mark f (generation_for required f) w f) as Hm.
  destruct (Invalidation.advance_family _ _ w) as [[] w1]; [|done]. cbn [snd] in Hm.
  apply elem_of_cons in Hg as [->|Hg]; [|by eapply IH].
  pose proof (proj1 (advance_watermarks_le _ _ _ _ _ Hl Hw) f) as Hle.
  rewrite decide_True in Hm by done. destruct (families w !! f); lia.
Qed.

Lemma evidence_commits context required t w :
  evidence_unsigned (im_evidence (impl w)) →
  commits_from (replayed context (evidence_payload required) (impl w)) (publishes_evidence required) w
    (apply_evidence_requirements context required t).
Proof.
  intros Hu. apply commits_attempt; intros w1 Hq Hr; [|by apply commits_replay].
  apply commits_get. apply commits_lift. intros advanced Ha.
  destruct (advanced_families_spec _ _ _ _ Ha) as [_ Hadv].
  destruct (advance_watermarks _ _ _) as [st marks] eqn:Em.
  assert (Forall (λ f, 0 <= generation_for required f) advanced) as Hpos.
  { apply Forall_forall. intros f Hf.
    apply Hadv in Hf as [_ Hlt]. rewrite (qt_evidence _ _ Hq) in Hlt. specialize (Hu f). lia. }
  pose proof (advance_watermarks_le _ _ _ _ _ Hpos Em) as Hle.
  apply commits_modify; [by apply quiet_watermarks|]. apply commits_lift. intros [] ->.
  apply commits_publish_last; [done|]. exists advanced. split; [done|]. split; [|done].
  by eapply advance_watermarks_reach.
Qed.

Lemma invalidate_commits context key t w :
  commits_from (replayed context (invalidation_payload key) (impl w)) (publishes_invalidation key) w
    (invalidate_key context key t).
Proof.
  apply commits_attempt; intros w1 _ Hr; [|by apply commits_replay].
  apply commits_modify; [apply quiet_sequence|]. apply commits_get. cbn [impl].
  destruct (advance_key _ _ _) as [moved marks] eqn:E.
  apply commits_modify.
  { apply quiet_watermarks. eapply advance_key_le; [|exact E]. cbn [im_invalidation_sequence with_sequence].
    unfold wrap. apply Z.mod_pos_bound. lia. }
  destruct moved; cbn [negb]; [|apply commits_fail]. apply commits_get. by apply commits_publish_last.
Qed.

Lemma commit_commits id candidates t snapshot batch w :
  commits_from (commit_staleness id snapshot (impl w) ≠ None)
    (λ i next, commit_staleness id snapshot i = None ∧
      next = commit_state id candidates t (sn_generation snapshot) (records batch) i) w
    (evaluate_commit id candidates t snapshot batch).
Proof.
  unfold evaluate_commit. apply commits_get.
  destruct (commit_staleness id snapshot (impl w)) eqn:E; [by apply commits_replay|].
  apply commits_publish; [naive_solver|done|by intros; eexists].
Qed.

End operations.

(** ** The invariant *)

Record coordinator_ok (i : Impl) : Prop := {
  co_limits : limits_ok (im_limits i) = true ∧ 0 <= max_publishers (im_limits i) ∧
    0 <= max_sessions (im_limits i) ∧ 1 <= max_mutation_attempts (im_limits i);
  co_registry : registry_ok (im_limits i) (im_authority i) ∧ 0 <= reg_epoch (im_authority i);
  co_evidence : evidence_unsigned (im_evidence i);
  co_sets : NoDup (map cs_id (im_sets i));
  co_populations : NoDup (map pop_set_id (im_populations i));
  co_current : NoDup (current_keys (im_evaluations i));
  co_derived : derived i
}.

Lemma registry_steps limits g g' :
  1 <= max_mutation_attempts limits → 0 <= max_publishers limits → 0 <= max_sessions limits →
  rtc (registry_step limits) g g' → registry_ok limits g ∧ 0 <= reg_epoch g →
  registry_ok limits g' ∧ 0 <= reg_epoch g'.
Proof.
  intros H1 H2 H3 Hs. induction Hs as [g|g1 g2 g3 Hs _ IH]; [done|]. intros [Hok He]. apply IH.
  split; [by eapply registry_step_ok|by eapply epoch_nonneg].
Qed.

Lemma quiet_ok i i' : quiet i i' → coordinator_ok i → coordinator_ok i'.
Proof.
  intros Hq [(L0 & L1 & L2 & L3) Hr He Hs Hp Hc Hd]. pose proof (quiet_limits _ _ Hq) as Hl.
  split; rewrite ?Hl, ?(qt_evidence _ _ Hq), ?(qt_sets _ _ Hq), ?(qt_populations _ _ Hq),
    ?(qt_evaluations _ _ Hq); try done.
  - eapply registry_steps; [done..|apply (ev_steps _ _ _ (qt_authority _ _ Hq))|done].
  - by eapply quiet_derived.
Qed.

(** What the data of a prepared state must satisfy. *)
Record prepared (i : Impl) (next : PersistentState) : Prop := {
  pr_evidence : ∀ f, generation_for (im_evidence i) f <= generation_for (ps_evidence next) f;
  pr_watermarks : marks_le (im_watermarks i) (ps_watermarks next);
  pr_sets : NoDup (map cs_id (ps_sets next));
  pr_populations : NoDup (map pop_set_id (ps_populations next));
  pr_current : NoDup (current_keys (ps_evaluations next))
}.

Lemma apply_ok i next : prepared i next → coordinator_ok i → coordinator_ok (apply_state next i).
Proof.
  intros [E W S P C] [L R He _ _ _ _]. split; try done. intros f. cbn. etrans; [apply He|apply E].
Qed.

(** *** Lists that shrink or change in place *)

Lemma current_keys_app l k : current_keys (l ++ k) = current_keys l ++ current_keys k.
Proof. apply omap_app. Qed.

Lemma current_keys_sublist l k : l `sublist_of` k → current_keys l `sublist_of` current_keys k.
Proof.
  induction 1 as [|r l k Hs IH|r l k Hs IH]; [done| |]; unfold current_keys in *;
    cbn [omap list_omap]; destruct (current_key r); done || by constructor.
Qed.

Lemma sublist_NoDup {A} (l k : list A) : l `sublist_of` k → NoDup k → NoDup l.
Proof.
  induction 1 as [|x l k Hs IH|x l k Hs IH]; [done| |]; rewrite ?NoDup_cons; [|by intros [_ ?]; apply IH].
  intros [Hx Hk]. split; [|by apply IH]. intros Hin. apply Hx. by eapply elem_of_sublist.
Qed.

(** Marking records stale only removes current results. *)
Lemma require_revalidation_current hit l :
  current_keys (require_revalidation hit l) `sublist_of` current_keys l.
Proof.
  induction l as [|r l IH]; [done|]. unfold current_keys, require_revalidation in *. cbn [map omap list_omap].
  destruct (hit r && is_current r) eqn:E.
  - change (current_key (with_state ResultState.RevalidationRequired r)) with (@None (Z * Z)). cbn.
    apply andb_true_iff in E as [_ E]. unfold current_key, is_current in *. rewrite E. by constructor.
  - destruct (current_key r); done || by constructor.
Qed.

Lemma update_first_map {A B} (p : A → bool) (f : A → A) (g : A → B) l :
  (∀ x, p x = true → g (f x) = g x) → map g (update_first p f l) = map g l.
Proof.
  intros Hf. induction l as [|x l IH]; [done|]. cbn [update_first]. destruct (p x) eqn:E; cbn [map].
  - by rewrite Hf.
  - by rewrite IH.
Qed.

Lemma find_set_None id l : find_set id l = None ↔ id ∉ map cs_id l.
Proof.
  unfold find_set. induction l as [|s l IH]; cbn [List.find map]; [split; [intros _; apply not_elem_of_nil|done]|].
  rewrite elem_of_cons. destruct (_ =? _) eqn:E.
  - split; [done|]. intros Hn. exfalso. apply Hn. left. lia.
  - rewrite IH. split; [intros Hn [Hs|Hs]; [lia|done]|intros Hn Hs; apply Hn; by right].
Qed.

Lemma find_set_Some id l s : find_set id l = Some s → s ∈ l ∧ cs_id s = id.
Proof. intros Hf. apply List.find_some in Hf as [Hin E]. split; [by apply list_elem_of_In|lia]. Qed.

Lemma place_set_ids limits f finalized sets sets' :
  place_set limits f sets = Success (finalized, sets') →
  cs_id finalized = cs_id f ∧ (NoDup (map cs_id sets) → NoDup (map cs_id sets')).
Proof.
  unfold place_set. destruct (find_set (cs_id f) sets) as [existing|] eqn:E.
  - intros (x & Hx & [= <- <-])%rbind_Success.
    assert (cs_id x = cs_id f) as Hid.
    { destruct (digest_eqb _ _); [by injection Hx as <-|].
      destruct (next _); [by injection Hx as <-|done]. }
    split; [done|]. rewrite update_first_map; [done|]. intros y Hy. lia.
  - destruct (_ <=? _); [done|]. intros [= <- <-]. split; [done|]. intros Hn.
    rewrite map_app. apply NoDup_app. split; [done|]. split; [|by apply NoDup_singleton].
    apply find_set_None in E. intros x Hx Hx'. apply list_elem_of_singleton in Hx'. by subst x.
Qed.

(** *** Bounded history *)

Lemma evict_sublist fuel limit : ∀ l, evict fuel limit l `sublist_of` l.
Proof.
  induction fuel as [|fuel IH]; intros l; cbn [evict]; [done|].
  destruct (_ <=? _); [done|]. destruct (oldest_record 0 None l) as [v|]; [|done].
  etrans; [apply IH|apply sublist_delete].
Qed.

(** *** Populations *)

Lemma store_population_ids max id cs l :
  NoDup (map pop_set_id l) → NoDup (map pop_set_id (store_population max id cs l)).
Proof.
  intros Hn. unfold store_population. destruct (existsb _ l) eqn:E.
  - rewrite update_first_map; [done|]. intros p Hp. cbn. lia.
  - rewrite map_app. apply NoDup_app.
    assert ((if max <=? size l then drop 1 l else l) `sublist_of` l) as Hs
      by (destruct (_ <=? _); [apply sublist_drop|done]).
    split; [|split; [|apply NoDup_singleton]].
    + eapply sublist_NoDup; [|exact Hn]. by apply (fmap_sublist pop_set_id).
    + intros x (p & -> & Hp)%list_elem_of_fmap Hx. cbn in Hx. apply list_elem_of_singleton in Hx.
      eapply elem_of_sublist in Hs; [|exact Hp].
      rewrite list_existsb_false in E. specialize (E p Hs). cbv beta in E. lia.
Qed.

(** *** The records of a commit *)

Lemma superseded_current id batch l k :
  k ∈ current_keys (superseded_records id batch l) → k.1 ≠ id ∧ k ∈ current_keys l.
Proof.
  rewrite !current_keys_elem. unfold superseded_records.
  intros (r & (x & -> & Hx)%list_elem_of_fmap & Hk). apply list_elem_of_In, filter_In in Hx as [Hx _].
  apply list_elem_of_In in Hx. destruct ((set_id x =? id) && _) eqn:E.
  - apply current_key_Some in Hk as [Hc _]. done.
  - split; [|exists x; done]. apply current_key_Some in Hk as [Hc ->]. cbn [fst].
    unfold is_current in Hc. apply eeqb_eq in Hc. rewrite Hc in E.
    apply andb_false_iff in E as [E|E]; [lia|done].
Qed.

Lemma superseded_current_sublist id batch l :
  current_keys (superseded_records id batch l) `sublist_of` current_keys l.
Proof.
  unfold superseded_records. induction l as [|r l IH]; [done|]. cbn [List.filter].
  assert (∀ rest, current_keys (r :: rest) = match current_key r with Some k => k :: current_keys rest | None => current_keys rest end)
    as Hcons by done.
  rewrite (Hcons l). destruct (negb _).
  - cbn [map]. set (r' := if _ && _ then _ else _).
    assert (current_key r' = None ∨ current_key r' = current_key r) as [E|E].
    { subst r'. destruct (_ && _); [by left|by right]. }
    + unfold current_keys at 1. cbn [omap list_omap]. rewrite E. destruct (current_key r); [by constructor|done].
    + unfold current_keys at 1. cbn [omap list_omap]. rewrite E. destruct (current_key r); done || by constructor.
  - destruct (current_key r); [by constructor|done].
Qed.

(** The records of a batch name the set and each path once. *)
Lemma evaluate_each_paths ctx set l : ∀ rs,
  ctx_set ctx = Some set → evaluate_each ctx l = Success rs →
  map rec_path rs = map path l ∧ Forall (λ r, set_id r = cs_id set) rs.
Proof.
  intros rs Hs. revert rs. induction l as [|p l IH]; intros rs; cbn [evaluate_each].
  { intros [= <-]. by split; [|constructor]. }
  intros (r & Hr & (rest & Hrest & [= <-])%rbind_Success)%rbind_Success.
  destruct (IH rest Hrest) as [H1 H2]. unfold evaluate_candidate in Hr. rewrite Hs in Hr.
  destruct (ctx_limits ctx) as [limits|]; [|done]. destruct (validate_limits limits); [done|].
  injection Hr as <-. unfold record_of. cbn [map rec_path]. rewrite H1. split; [done|].
  constructor; [by cbn [set_id]|done].
Qed.

Lemma ascending_NoDup {A} (key : A → Z) l :
  StronglySorted (λ a b, key a < key b) l → NoDup (map key l).
Proof.
  induction 1 as [|x l Hs IH Hx]; cbn [map]; [constructor|]. apply NoDup_cons. split; [|done].
  intros (y & E & Hy)%list_elem_of_fmap. rewrite Forall_forall in Hx. specialize (Hx y Hy). lia.
Qed.

Lemma evaluate_batch_records ctx set ps batch :
  ctx_set ctx = Some set → evaluate_batch ctx ps = Success batch →
  Forall (λ r, set_id r = cs_id set) (records batch) ∧ NoDup (map rec_path (records batch)).
Proof.
  intros Hs. unfold evaluate_batch. rewrite Hs. destruct (ctx_limits ctx) as [limits|] eqn:El; [|done].
  cbv zeta. destruct (_ <? _); [intros [= <-]; split; constructor|].
  destruct (_ <? _); [intros [= <-]; split; constructor|].
  destruct (conflicting_duplicate _); [intros [= <-]; split; constructor|].
  intros (rs & Hrs & [= <-])%rbind_Success. cbn [records].
  destruct (evaluate_each_paths ctx set _ rs Hs Hrs) as [-> H2]. split; [done|].
  apply ascending_NoDup. apply (canonical_population_spec ps).
Qed.

Lemma committed_current id t l :
  Forall (λ r, set_id r = id) l → current_keys (map (committed_record t) l) = map (λ r, (id, rec_path r)) l.
Proof.
  induction 1 as [|r l <- Hl IH]; [done|]. unfold current_keys in *. cbn [map omap list_omap].
  change (current_key (committed_record t r)) with (Some (set_id r, rec_path r)). cbn. by rewrite <- IH.
Qed.

(** ** Every prepared state is well formed *)

(** The records of a batch evaluated for the set [id]. *)
Definition batch_of (id : Z) (batch : list EvaluationRecord) : Prop :=
  Forall (λ r, set_id r = id) batch ∧ NoDup (map rec_path batch).

Lemma commit_state_current id candidates t g batch i :
  batch_of id batch → NoDup (current_keys (im_evaluations i)) →
  NoDup (current_keys (ps_evaluations (commit_state id candidates t g batch i))).
Proof.
  intros [Hb Hn] Hc. unfold commit_state. cbn [ps_evaluations with_evaluations with_populations].
  eapply sublist_NoDup; [apply current_keys_sublist, evict_sublist|].
  rewrite current_keys_app, (committed_current id) by done. apply NoDup_app. split_and!.
  - eapply sublist_NoDup; [apply superseded_current_sublist|done].
  - intros k [Hk _]%superseded_current (r & -> & _)%list_elem_of_fmap. done.
  - clear - Hn. induction batch as [|r l IH]; cbn [map] in *; [constructor|].
    apply NoDup_cons in Hn as [Hr Hn]. apply NoDup_cons. split; [|by apply IH].
    intros (x & [= E] & Hx)%list_elem_of_fmap. apply Hr. rewrite E. by apply (list_elem_of_fmap_2 rec_path).
Qed.

Section prepared.
Context (i : Impl) (Hok : coordinator_ok i).

(** The fields an operation leaves as they are. *)
Lemma prepared_intro next :
  ps_evidence next = im_evidence i → ps_watermarks next = im_watermarks i →
  NoDup (map cs_id (ps_sets next)) → NoDup (map pop_set_id (ps_populations next)) →
  NoDup (current_keys (ps_evaluations next)) → prepared i next.
Proof. intros He Hw. split; try done; by rewrite ?He, ?Hw. Qed.

Lemma revalidated_current hit : NoDup (current_keys (require_revalidation hit (im_evaluations i))).
Proof. eapply sublist_NoDup; [apply require_revalidation_current|apply Hok]. Qed.

Lemma publishes_set_prepared s t next : publishes_set s t i next → prepared i next.
Proof.
  intros (_ & finalized & sets & Hp & ->). destruct Hok. apply prepared_intro; try done.
  - apply place_set_ids in Hp as [_ Hp]. by apply Hp.
  - apply revalidated_current.
Qed.

Lemma publishes_lifecycle_prepared id event next : publishes_lifecycle id event i next → prepared i next.
Proof.
  intros (target & _ & _ & ->). destruct Hok. apply prepared_intro; try done.
  - cbn [ps_sets with_sets with_evaluations]. by rewrite update_first_map.
  - cbn [ps_evaluations with_evaluations]. destruct (eeqb _ _); [done|apply revalidated_current].
Qed.

Lemma publishes_evidence_prepared required next : publishes_evidence required i next → prepared i next.
Proof.
  intros (advanced & Ha & _ & ->). destruct Hok. destruct (advanced_families_spec _ _ _ _ Ha) as [Hl _].
  split; try done; [|apply revalidated_current]. intros f. cbn [ps_evidence with_evidence with_evaluations].
  rewrite Forall_forall in Hl. destruct (decide (f ∈ kFamilies)) as [Hf|Hf]; [by apply Hl|].
  by destruct f; try done; destruct Hf; repeat constructor.
Qed.

Lemma publishes_invalidation_prepared key next : publishes_invalidation key i next → prepared i next.
Proof.
  intros ->. destruct Hok. apply prepared_intro; try done. apply revalidated_current.
Qed.

Lemma commit_prepared id candidates t g batch :
  batch_of id batch → prepared i (commit_state id candidates t g batch i).
Proof.
  intros Hb. destruct Hok. apply prepared_intro; try done.
  - by apply store_population_ids.
  - by apply commit_state_current.
Qed.
End prepared.
