(* ===== verification/CoordinatorSystem.v ===== *)
(** The coordinator as a system: the requests it serves, in any order and interleaving,
    with the evaluations that are between their two phases.

    [handle] serves one request; [serve] a whole run. The first phase of an evaluation
    and the evaluation itself are one request ([Begin]), its commit another
    ([Commit]); whatever the other workers do happens in between. [sys_ok] holds in
    every state a run can reach from an opened coordinator. *)

From Stdlib Require Import ZArith Lia Bool Strings.Byte.
From stdpp Require Import base list numbers strings gmap sets relations.
From S2P Require Import Prelude Containers Base Codec Digest Lifecycle Constraint Candidate.
From S2P Require Import Evaluation Ordering ConstraintSet Evaluator EvaluatorSpec EvaluatorCorrect.
From S2P Require Import BatchCorrect Authority Invalidation Persistence Store Coordinator.
From S2P Require Import CoordinatorInvariant.

Open Scope string_scope.
Open Scope list_scope.
Open Scope Z_scope.

(** ** Requests *)

(** Every call that can change the coordinator, with the clock readings it makes.
    [Commit n] completes the [n]-th pending evaluation. *)
Inductive Request :=
  | Register (context : AuthorityContext) (publisher boot : Z) (scopes : AuthorityScopeMask)
      (session tick : Z)
  | FenceBoot (context : AuthorityContext) (boot observed_tick fenced_tick : Z)
  | SessionLoss (session tick : Z)
  | DropSession (context : AuthorityContext) (session : Z)
  | ObserveAttempt (context : AuthorityContext) (payload : Digest256) (tick : Z)
  | Flush
  | Publish (context : AuthorityContext) (s : ConstraintSet) (observed_tick tick : Z)
  | Lifecycle_ (context : AuthorityContext) (id : Z) (event : LifecycleEvent.t) (tick : Z)
  | SetEvidence (context : AuthorityContext) (required : EvidenceRequirements) (tick : Z)
  | AdvanceFamily_ (context : AuthorityContext) (family : EvidenceFamily.t) (generation tick : Z)
  | Invalidate (context : AuthorityContext) (key : InvalidationKey) (tick : Z)
  | Begin (context : AuthorityContext) (id : Z) (candidates : list CandidatePath)
      (expected observed_tick tick : Z)
  | Commit (n : nat).

(** An evaluation after its second phase. *)
Record Pending := mkPending {
  pd_set : Z;
  pd_candidates : list CandidatePath;
  pd_tick : Z;
  pd_snapshot : Snapshot;
  pd_batch : EvaluationBatch
}.

Record System (D : Type) := mkSystem { world : World D; pending : list Pending }.
Arguments mkSystem {D} world pending.
Arguments world {D} _.
Arguments pending {D} _.

Section system.
Context {D : Type} `{FileSystem D}.

(** The first two phases. *)
Definition begin_evaluation (context : AuthorityContext) (id : Z) (candidates : list CandidatePath)
    (expected observed_tick tick : Z) (s : System D) : System D :=
  match evaluate_begin context id candidates expected observed_tick (world s) with
  | (Success (inr snapshot), w) =>
      match evaluate_batch (evaluation_context (im_limits (impl w)) context expected tick snapshot)
        candidates with
      | Success batch => mkSystem w (pending s ++ [mkPending id candidates tick snapshot batch])
      | Failure _ _ => mkSystem w (pending s)
      end
  | (_, w) => mkSystem w (pending s)
  end.

Definition commit_evaluation (p : Pending) (w : World D) : Result CommitOutcome * World D :=
  evaluate_commit (pd_set p) (pd_candidates p) (pd_tick p) (pd_snapshot p) (pd_batch p) w.

Definition handle (r : Request) (s : System D) : System D :=
  let on {A} (m : op D A) : System D := mkSystem (m (world s)).2 (pending s) in
  match r with
  | Register context publisher boot scopes session tick =>
      on (Coordinator.register_publisher context publisher boot scopes session tick)
  | FenceBoot context boot t1 t2 => on (Coordinator.fence_boot context boot t1 t2)
  | SessionLoss session tick => on (fence_on_session_loss session tick)
  | DropSession context session => on (Coordinator.drop_session context session)
  | ObserveAttempt context payload tick => on (Coordinator.observe_attempt context payload tick)
  | Flush => on flush
  | Publish context set t1 t2 => on (publish_constraint_set context set t1 t2)
  | Lifecycle_ context id event tick => on (apply_lifecycle context id event tick)
  | SetEvidence context required tick => on (set_evidence_requirements context required tick)
  | AdvanceFamily_ context family generation tick =>
      on (Coordinator.advance_family context family generation tick)
  | Invalidate context key tick => on (invalidate_key context key tick)
  | Begin context id candidates expected t1 t2 => begin_evaluation context id candidates expected t1 t2 s
  | Commit n =>
      match pending s !! n with
      | Some p => mkSystem (commit_evaluation p (world s)).2 (delete n (pending s))
      | None => s
      end
  end.

Definition serve (requests : list Request) (s : System D) : System D :=
  fold_left (λ s r, handle r s) requests s.

(** An evaluation that nothing interrupts is a [Begin] and its [Commit]. *)
Lemma evaluate_served context id candidates expected t1 t2 w :
  ∃ requests, (evaluate context id candidates expected t1 t2 w).2 =
    world (serve requests (mkSystem w [])).
Proof.
  assert (∀ outcome w1, evaluate_begin context id candidates expected t1 w = (outcome, w1) →
    (∀ snapshot, outcome ≠ Success (inr snapshot)) →
    w1 = world (serve [Begin context id candidates expected t1 t2] (mkSystem w []))) as Hone.
  { intros outcome w1 E Hne. cbn [serve fold_left handle]. unfold begin_evaluation. cbn [world]. rewrite E.
    destruct outcome as [[?|snapshot]|]; [done|by destruct (Hne snapshot)|done]. }
  unfold evaluate, mbind, op_bind.
  destruct (evaluate_begin context id candidates expected t1 w) as [[[outcome|snapshot]|code text] w1] eqn:E.
  - eexists. by eapply Hone.
  - clear Hone. unfold get, lift.
    destruct (evaluate_batch _ _) as [batch|code text] eqn:Eb.
    + exists [Begin context id candidates expected t1 t2; Commit 0].
      cbn [serve fold_left handle]. unfold begin_evaluation. cbn [world pending]. by rewrite E, Eb.
    + exists [Begin context id candidates expected t1 t2].
      cbn [serve fold_left handle]. unfold begin_evaluation. cbn [world pending]. by rewrite E, Eb.
  - eexists. by eapply Hone.
Qed.
End system.

(** ** The store and the published data *)

(** A durable state holds the published data of a coordinator; its counter and its
    watermarks may lag behind. *)
Record holds_data (st : PersistentState) (i : Impl) : Prop := {
  hd_sets : ps_sets st = im_sets i;
  hd_evaluations : ps_evaluations st = im_evaluations i;
  hd_populations : ps_populations st = im_populations i;
  hd_evidence : ps_evidence st = im_evidence i;
  hd_watermarks : marks_le (ps_watermarks st) (im_watermarks i);
  hd_generation : ps_last_evaluation_generation st <= im_last_generation i
}.

Lemma quiet_holds_data st i i' : quiet i i' → holds_data st i → holds_data st i'.
Proof.
  intros [_ _ Q1 Q2 Q3 Q4 _ _ _ Q5 Q6] [H1 H2 H3 H4 H5 H6].
  split; [congruence..| |lia]. by etrans.
Qed.

Lemma to_state_holds_data g i : holds_data (refresh_authority_projection g (to_state i)) i.
Proof. by split. Qed.

Lemma apply_state_holds_data next i : holds_data next (apply_state next i).
Proof. by split. Qed.

Section durability.
Context {D : Type} `{FileSystemLaws D}.

(** The store file of a durable coordinator holds its published data, in a state the
    store accepts. *)
Definition durable (w : World D) : Prop :=
  match im_store (impl w) with
  | None => True
  | Some s => ∃ st, state_ok (store_limits s) st ∧ holds_data st (impl w) ∧
      contents (disk w) (store_path s) = Some (encode_envelope (encode_persistent_state st []))
  end.

(** A step that keeps the published data, in memory and on disk. *)
Definition kept (w w' : World D) : Prop := quiet (impl w) (impl w') ∧ (durable w → durable w').

#[export] Instance kept_preorder : PreOrder kept.
Proof.
  split; [by intros w|]. intros w1 w2 w3 [Q1 D1] [Q2 D2]. split; [by etrans|auto].
Qed.

Lemma kept_file w w' : quiet (impl w) (impl w') → file w' = file w → kept w w'.
Proof.
  intros Hq Hf. split; [done|]. unfold durable, file in *. pose proof (qt_store _ _ Hq) as Hs.
  destruct (im_store (impl w)) as [s|], (im_store (impl w')) as [s'|]; try done.
  cbn in Hs. injection Hs as Hp Hl. rewrite Hp, Hl in *. intros (st & H1 & H2 & H3).
  exists st. split_and!; [done|by eapply quiet_holds_data|congruence].
Qed.

Lemma kept_still {A} (m : op D A) w : Still m → kept w (m w).2.
Proof. intros Hm. apply kept_file; [apply Hm|by apply still_file]. Qed.

Lemma kept_bind {A B} (m : op D A) (k : A → op D B) w :
  kept w (m w).2 → (∀ a w1, m w = (Success a, w1) → kept w1 (k a w1).2) → kept w ((m ≫= k) w).2.
Proof.
  intros Hm Hk. unfold mbind, op_bind. specialize (λ a w1, Hk a w1).
  destruct (m w) as [[a|code text] w1] eqn:E; cbn [snd] in *; [|done].
  etrans; [exact Hm|]. by apply (Hk a w1).
Qed.

Lemma kept_get {B} (k : Impl → op D B) w : kept w (k (impl w) w).2 → kept w ((get ≫= k) w).2.
Proof. done. Qed.

Lemma kept_modify (f : Impl → Impl) w : quiet (impl w) (f (impl w)) → kept w (modify f w).2.
Proof.
  intros Hq. apply kept_file; [done|]. apply file_same; [apply Hq|done].
Qed.

(** Writing out the data as they are. *)
Lemma kept_persist st w : holds_data st (impl w) → kept w (persist st w).2.
Proof.
  intros Hst. destruct (persist st w) as [r w'] eqn:E. cbn [snd].
  apply persist_spec in E as (s & Hid & Hi & Hok & Hfail).
  assert (quiet (impl w) (impl w')) as Hq by (rewrite Hi; by apply quiet_store).
  destruct (ok r); [|by apply kept_file; [|apply Hfail]]. split; [done|]. intros _.
  specialize (Hok eq_refl). unfold saved, durable in *. destruct (im_store (impl w')); [|done].
  destruct Hok as [H1 H2]. exists st. split_and!; [done|by eapply quiet_holds_data|done].
Qed.

Lemma published_durable P i w : published P i w → durable w.
Proof.
  intros (next & i1 & s & _ & _ & _ & Hi & Hs). unfold saved, durable in *.
  destruct (im_store (impl w)); [|done]. destruct Hs as [H1 H2]. exists next. split_and!; try done.
  rewrite Hi. apply apply_state_holds_data.
Qed.

(** *** Authority *)

Lemma register_kept context publisher boot scopes session t w :
  kept w (Coordinator.register_publisher context publisher boot scopes session t w).2.
Proof.
  unfold Coordinator.register_publisher. apply kept_get.
  destruct (_ || _); [reflexivity|]. destruct (find_grant _ _) as [scopes0|] eqn:Eg; [|reflexivity].
  cbv zeta. destruct (_ =? 0); [reflexivity|].
  set (r := mkRegistration _ _ _ _ _ _ _).
  assert (granted (im_config (impl w)) r) as Hgr.
  { exists scopes0. split; [done|]. intros n _. subst r. cbn. rewrite Z.land_spec.
    by intros [? _]%andb_true_iff. }
  pose proof (evolves_register _ r (im_authority (impl w)) Hgr) as Hstep. unfold im_limits.
  destruct (Authority.register_publisher _ _ _) as [registered g]. cbn [snd] in Hstep.
  assert (quiet (impl w) (with_authority g (impl w))) as Hq by (by apply quiet_authority).
  apply kept_bind; [by apply kept_modify|]. intros [] w1 [= <-].
  apply kept_bind; [apply kept_still, _|]. intros [] w2 [= _ <-].
  apply kept_bind; [|by intros a w3 _; reflexivity]. apply kept_persist. cbn [impl].
  eapply quiet_holds_data; [exact Hq|]. apply to_state_holds_data.
Qed.

Lemma flush_kept w : kept w (flush w).2.
Proof. apply kept_get. apply kept_persist. apply to_state_holds_data. Qed.

Lemma fence_boot_kept context boot t1 t2 w : kept w (Coordinator.fence_boot context boot t1 t2 w).2.
Proof.
  unfold Coordinator.fence_boot. apply kept_bind; [apply kept_still, _|]. intros _ w1 _.
  apply kept_bind; [apply kept_still, _|]. intros [] w2 _; [reflexivity|].
  apply kept_bind; [apply kept_still, _|]. intros _ w3 _. apply flush_kept.
Qed.

Lemma session_loss_kept session t w : kept w (fence_on_session_loss session t w).2.
Proof.
  unfold fence_on_session_loss. apply kept_get. destruct (boot_of_session _ _) as [boot|]; [|reflexivity].
  apply kept_bind; [apply kept_still, _|]. intros _ w1 _.
  apply kept_bind; [|by intros _ w2 _; apply flush_kept].
  apply kept_modify. apply quiet_authority, evolves_drop.
Qed.

Lemma drop_session_kept context session w : kept w (Coordinator.drop_session context session w).2.
Proof. apply kept_still. unfold Coordinator.drop_session. apply _. Qed.

Lemma observe_kept context payload t w : kept w (Coordinator.observe_attempt context payload t w).2.
Proof. apply kept_still. unfold Coordinator.observe_attempt. apply _. Qed.

(** *** Evaluation *)

Lemma begin_kept context id candidates expected t w :
  kept w (evaluate_begin context id candidates expected t w).2.
Proof.
  unfold evaluate_begin. apply kept_bind; [apply kept_still, _|]. intros _ w1 _. apply kept_get.
  apply kept_bind; [apply kept_still, _|]. intros replay w2 _. apply kept_get.
  destruct replay; [reflexivity|]. destruct (find_set _ _); [|reflexivity].
  destruct (_ <? _); [reflexivity|]. destruct (next _) as [generation|] eqn:E; [|reflexivity].
  apply kept_bind; [|by intros _ w3 _; reflexivity]. apply kept_modify, quiet_generation.
  unfold next in E. destruct (_ <=? _); [done|]. injection E as <-. lia.
Qed.

(** The snapshot of an evaluation is of the set it was asked for. *)
Lemma begin_snapshot context id candidates expected t (w w' : World D) snapshot :
  evaluate_begin context id candidates expected t w = (Success (inr snapshot), w') →
  cs_id (sn_set snapshot) = id ∧ sn_set snapshot ∈ im_sets (impl w') ∧
  sn_evidence snapshot = im_evidence (impl w') ∧
  sn_mask snapshot = consulted_mask (sn_set snapshot) ∧
  sn_generation snapshot = im_last_generation (impl w').
Proof.
  unfold evaluate_begin, mbind, op_bind, get, modify.
  destruct (authorize _ _ w) as [[[]|] w1]; [|done].
  destruct (observe_replay _ _ _ w1) as [[[]|] w2]; [done| |done].
  destruct (find_set id _) as [s|] eqn:Es; [|done]. destruct (_ <? _); [done|].
  destruct (next _) as [g|]; [|done]. intros [= <- <-]. apply find_set_Some in Es as [Hin Hid].
  cbn. done.
Qed.

End durability.

(** ** The invariant of the system *)

(** A pending batch was evaluated against its snapshot. *)
Definition pending_ok (p : Pending) : Prop :=
  cs_id (sn_set (pd_snapshot p)) = pd_set p ∧ batch_of (pd_set p) (records (pd_batch p)).

Section invariant.
Context {D : Type} `{FileSystemLaws D}.

Record sys_ok (s : System D) : Prop := {
  so_coordinator : coordinator_ok (impl (world s));
  so_durable : durable (world s);
  so_pending : Forall pending_ok (pending s)
}.

(** A step of the world that keeps the invariant. *)
Definition safe_world (w w' : World D) : Prop :=
  coordinator_ok (impl w) → durable w → coordinator_ok (impl w') ∧ durable w'.

Lemma kept_safe w w' : kept w w' → safe_world w w'.
Proof. intros [Hq Hd] Hok Hdur. split; [by eapply quiet_ok|auto]. Qed.

Lemma commits_safe {A} R (P : Impl → PersistentState → Prop) (m : op D A) w :
  commits_from R P w m → (∀ i next, coordinator_ok i → P i next → prepared i next) →
  safe_world w (m w).2.
Proof.
  intros Hm HP Hok Hd. destruct (m w) as [r w'] eqn:E. cbn [snd].
  destruct (Hm r w' E) as [(Hq & Hf & _)|(_ & _ & Hp)].
  - apply (kept_safe w); [by apply kept_file|done|done].
  - split; [|by eapply published_durable]. destruct Hp as (next & i1 & s & Hq & HPn & Hs & -> & _).
    assert (coordinator_ok i1) as Hok1 by (by eapply quiet_ok).
    pose proof (quiet_ok _ _ (quiet_store i1 s Hs) Hok1) as Hok2.
    apply apply_ok; [|done]. specialize (HP _ _ Hok1 HPn). destruct HP. by split.
Qed.

Lemma advance_family_safe context family g t w :
  safe_world w (Coordinator.advance_family context family g t w).2.
Proof.
  intros Hok Hd. unfold Coordinator.advance_family, mbind, op_bind, get.
  destruct (with_family _ _ _); [|done]. destruct (negb _); [done|].
  apply (commits_safe _ _ _ _ (evidence_commits _ _ _ w (co_evidence _ Hok))); [|done|done].
  intros i next Hi. by apply publishes_evidence_prepared.
Qed.

Lemma commit_evaluation_safe p w : pending_ok p → safe_world w (commit_evaluation p w).2.
Proof.
  intros [_ Hb]. apply (commits_safe _ _ _ _ (commit_commits _ _ _ _ _ w)).
  intros i next Hi [_ ->]. by apply commit_prepared.
Qed.

Lemma begin_ok context id candidates expected t1 t2 s :
  sys_ok s → sys_ok (begin_evaluation context id candidates expected t1 t2 s).
Proof.
  intros [Hc Hd Hp]. unfold begin_evaluation.
  pose proof (begin_kept context id candidates expected t1 (world s)) as Hk.
  destruct (evaluate_begin _ _ _ _ _ _) as [r w] eqn:E. cbn [snd] in Hk.
  destruct (kept_safe _ _ Hk Hc Hd) as [Hc' Hd'].
  destruct r as [[outcome|snapshot]|code text]; [by split| |by split].
  destruct (evaluate_batch _ _) as [batch|] eqn:Eb; [|by split]. split; [done..|].
  apply Forall_app. split; [done|]. apply Forall_singleton.
  destruct (begin_snapshot _ _ _ _ _ _ _ _ E) as (Hid & _).
  destruct (evaluate_batch_records (evaluation_context (im_limits (impl w)) context expected t2 snapshot)
    (sn_set snapshot) _ _ eq_refl Eb) as [H1 H2].
  split; [done|]. rewrite <- Hid. split; done.
Qed.

Lemma handle_ok r s : sys_ok s → sys_ok (handle r s).
Proof.
  intros Hs. pose proof Hs as [Hc Hd Hp].
  assert (∀ w, safe_world (world s) w → sys_ok (mkSystem w (pending s))) as Hworld.
  { intros w Hw. destruct (Hw Hc Hd). by split. }
  destruct r; cbn [handle].
  - apply Hworld, kept_safe, register_kept.
  - apply Hworld, kept_safe, fence_boot_kept.
  - apply Hworld, kept_safe, session_loss_kept.
  - apply Hworld, kept_safe, drop_session_kept.
  - apply Hworld, kept_safe, observe_kept.
  - apply Hworld, kept_safe, flush_kept.
  - apply Hworld, (commits_safe _ _ _ _ (publish_commits _ _ _ _ _)).
    intros i next Hi. by eapply publishes_set_prepared.
  - apply Hworld, (commits_safe _ _ _ _ (lifecycle_commits _ _ _ _ _)).
    intros i next Hi. by apply publishes_lifecycle_prepared.
  - apply Hworld, (commits_safe _ _ _ _ (evidence_commits _ _ _ _ (co_evidence _ Hc))).
    intros i next Hi. by apply publishes_evidence_prepared.
  - apply Hworld, advance_family_safe.
  - apply Hworld, (commits_safe _ _ _ _ (invalidate_commits _ _ _ _)).
    intros i next Hi. by apply publishes_invalidation_prepared.
  - by apply begin_ok.
  - destruct (pending s !! n) as [p|] eqn:E; [|done].
    assert (pending_ok p) as Hpn by (by eapply Forall_lookup_1).
    destruct (commit_evaluation_safe p (world s) Hpn Hc Hd). split; [done..|].
    by apply Forall_delete.
Qed.

Lemma serve_ok requests : ∀ s, sys_ok s → sys_ok (serve requests s).
Proof.
  induction requests as [|r rs IH]; intros s Hs; [done|]. apply IH. by apply handle_ok.
Qed.

(** ** Opening *)

(** The limits and the evidence generations of a configuration are unsigned. *)
Definition unsigned_config (config : CoordinatorConfig) : Prop :=
  Forall (λ e, 0 <= e.2) (limit_entries (cf_limits config)) ∧ unsigned_requirements (cf_evidence config).

Lemma unsigned_limits limits :
  limits_ok limits = true → Forall (λ e, 0 <= e.2) (limit_entries limits) →
  0 <= max_publishers limits ∧ 0 <= max_sessions limits ∧ 1 <= max_mutation_attempts limits ∧
  0 <= max_fenced_boots limits.
Proof.
  intros Hok%limits_ok_entries Hu.
  assert (∀ n e, limit_entries limits !! n = Some e → 1 <= e.2) as Hpos.
  { intros n e He. pose proof (Forall_lookup_1 _ _ _ _ Hok He) as [? _].
    pose proof (Forall_lookup_1 _ _ _ _ Hu He) as Hge. cbv beta in Hge. lia. }
  pose proof (Hpos 13%nat _ eq_refl). pose proof (Hpos 14%nat _ eq_refl).
  pose proof (Hpos 20%nat _ eq_refl). pose proof (Hpos 19%nat _ eq_refl). cbn [snd] in *. lia.
Qed.

Lemma unsigned_evidence e : unsigned_requirements e → evidence_unsigned e.
Proof. intros (? & ? & ? & ? & ? & ? & ?) f. by destruct f. Qed.

(** What a store can restore. *)
Definition restorable (limits : Limits) (st : PersistentState) : Prop :=
  state_ok limits st ∧ 0 <= ps_epoch st ∧ unsigned_requirements (ps_evidence st).

Lemma load_restorable store (d : D) st :
  limits_ok (store_limits store) = true → load store d = Success st →
  restorable (store_limits store) st.
Proof.
  intros HL ([raw payload] & _ & _ & H3 & H4)%load_envelope. cbn [snd] in *.
  split; [by apply validate_persistent_state_ok|]. by apply yields_persistent_state in H3.
Qed.

(** The authority a coordinator starts with: nothing is live, and exactly the boots that
    were fenced or live in the restored state are fenced. *)
Lemma next_authority_spec restored t g :
  next_authority restored t = Success g →
  registrations g = [] ∧ attempts g = [] ∧
  match restored with
  | Some st =>
      if is_valid (ps_epoch st) then
        reg_epoch g = ps_epoch st + 1 ∧
        fenced g = fenced (restore_durable_state (ps_epoch st)
          (fence_live_boots (ps_epoch st) t (ps_fenced_boots st) (ps_live_boots st)))
      else reg_epoch g = 1 ∧ fenced g = ∅
  | None => reg_epoch g = 1 ∧ fenced g = ∅
  end.
Proof.
  unfold next_authority. destruct restored as [st|]; [destruct (is_valid (ps_epoch st)) eqn:Ev|].
  - unfold next. destruct (_ <=? _); [done|]. cbn [rbind fst snd].
    unfold establish_epoch. cbn [reg_epoch restore_durable_state].
    destruct (is_valid (ps_epoch st + 1)); cbn [negb]; [|done].
    rewrite Ev. cbn [andb]. destruct (_ <=? _) eqn:E; [done|]. by intros [= <-].
  - by intros [= <-].
  - by intros [= <-].
Qed.

Lemma fence_live_boots_elem epoch t live : ∀ boots b,
  (∃ r, r ∈ fence_live_boots epoch t boots live ∧ fb_boot r = b) ↔
  (∃ r, r ∈ boots ∧ fb_boot r = b) ∨ b ∈ live.
Proof.
  unfold fence_live_boots. induction live as [|x live IH]; intros boots b; cbn [fold_left].
  { rewrite elem_of_nil. naive_solver. }
  rewrite IH, elem_of_cons. destruct (existsb _ boots) eqn:E.
  - apply list_existsb_Exists in E as (r & Hr & E). cbv beta in E. apply Z.eqb_eq in E. naive_solver.
  - set_unfold. split; [|naive_solver]. intros [(r & [Hr|[->|[]]] & <-)|Hb]; eauto.
Qed.

Lemma initial_current config store g restored :
  current_keys (im_evaluations (initial_impl config store g restored)) = [].
Proof.
  unfold initial_impl. destruct restored as [st|]; [|done]. cbn [rebuild_derived im_evaluations].
  unfold current_keys. induction (ps_evaluations st) as [|r l IH]; [done|].
  cbn [map omap list_omap]. change (current_key (with_state ResultState.RecoveredUnproven r)) with (@None (Z * Z)).
  by rewrite IH.
Qed.

(** What was persisted before the coordinator is returned bounds its fenced boots. *)
Lemma start_ok config store restored t (d d' : D) i :
  unsigned_config config → limits_ok (cf_limits config) = true →
  match store with Some s => store_limits s = cf_limits config | None => restored = None end →
  match restored with Some st => restorable (cf_limits config) st | None => True end →
  start config store restored t d = (Success i, d') →
  coordinator_ok i ∧ durable (mkWorld i d').
Proof.
  intros [Hu He] HL Hstore Hst. destruct (unsigned_limits _ HL Hu) as (L1 & L2 & L3 & L4).
  unfold start. destruct (next_authority restored t) as [g|] eqn:Eg; [|done].
  set (i0 := initial_impl config store g restored).
  destruct (persist (to_state i0) (mkWorld i0 d)) as [r w] eqn:Ep.
  destruct r as [[]|]; [|done]. intros [= <- <-].
  pose proof (kept_persist (to_state i0) (mkWorld i0 d) (to_state_holds_data _ _)) as Hk.
  pose proof Ep as Hp. rewrite Ep in Hk. destruct Hk as [Hq _]. cbn [impl snd] in Hq.
  apply persist_spec in Hp as (s & Hs & Hi & Hsaved & _). specialize (Hsaved eq_refl). cbn [impl] in Hs, Hi.
  pose proof (next_authority_spec _ _ _ Eg) as (Hreg & Hatt & Hboots).
  assert (im_store i0 = store ∧ im_config i0 = config ∧ im_authority i0 = g) as (I1 & I2 & I3).
  { subst i0. unfold initial_impl. by destruct restored. }
  assert (registry_ok (cf_limits config) g ∧ 0 <= reg_epoch g) as Hg.
  { assert (0 <= reg_epoch g ∧ map_Forall (λ b r, fb_boot r = b ∧ b ≠ 0) (fenced g)) as [G1 G2].
    { destruct restored as [st|]; [destruct (is_valid (ps_epoch st))|]; destruct Hboots as [-> ->];
        (split; [|apply restore_fenced_boots || apply map_Forall_empty]); try lia.
      destruct Hst as (_ & Hst & _). lia. }
    split; [|done].
    assert (Z.of_nat (base.size (fenced g)) <= max_fenced_boots (cf_limits config)) as G3.
    { rewrite I1 in Hs. destruct store as [st0|].
      - unfold saved in Hsaved. rewrite Hi in Hsaved. cbn [im_store with_store] in Hsaved.
        destruct s as [s|]; [|done]. injection Hs as _ Hl. destruct Hsaved as [Hsaved _].
        apply sk_counts in Hsaved as (_ & _ & _ & Hf & _). rewrite Hl, Hstore in Hf.
        cbn [to_state refresh_authority_projection ps_fenced_boots] in Hf. rewrite I3 in Hf.
        unfold size in Hf. rewrite length_map, entries_length in Hf. done.
      - subst restored. destruct Hboots as [_ ->]. rewrite map_size_empty. lia. }
    destruct g as [epoch m regs atts]. cbn in Hreg, Hatt, G2, G3. subst regs atts.
    apply bare_registry_ok; [done..|lia|]. by split. }
  assert (coordinator_ok i0) as Hok.
  { split.
    - unfold im_limits. rewrite I2. by split_and!.
    - unfold im_limits. by rewrite I2, I3.
    - apply unsigned_evidence. subst i0. unfold initial_impl. destruct restored; [apply Hst|done].
    - subst i0. unfold initial_impl. destruct restored; [apply Hst|constructor].
    - subst i0. unfold initial_impl. destruct restored; [apply Hst|constructor].
    - subst i0. rewrite initial_current. constructor.
    - subst i0. unfold initial_impl. by destruct restored. }
  split; [by eapply quiet_ok|]. unfold durable. cbn [impl disk].
  unfold saved in Hsaved. destruct (im_store (impl w)) as [s'|]; [|done]. destruct Hsaved as [S1 S2].
  exists (to_state i0). split_and!; [done| |done].
  eapply quiet_holds_data; [exact Hq|]. apply to_state_holds_data.
Qed.

Lemma open_started config t (d d' : D) i :
  Coordinator.open config t d = (Success i, d') →
  limits_ok (cf_limits config) = true ∧
  ∃ store restored d1, start config store restored t d1 = (Success i, d') ∧
    match store with
    | None => cf_store_path config = "" ∧ restored = None ∧ d1 = d
    | Some s => s = mkStore (cf_store_path config) (cf_limits config) 0 0 ∧
        Store.open (cf_store_path config) (cf_limits config) (cf_allow_initialize config) d =
          (Success s, d1) ∧
        read_store config s d1 = Success restored
    end.
Proof.
  unfold Coordinator.open, limits_ok. destruct (validate_limits _) eqn:EL; [done|].
  destruct (String.eqb _ _) eqn:Ep.
  { intros Hs. split; [done|]. exists None, None, d. apply String.eqb_eq in Ep. done. }
  destruct (Store.open _ _ _ d) as [[store|] d1] eqn:Eo; [|done].
  destruct (read_store config store d1) as [restored|] eqn:Er; [|done].
  destruct (start config (Some store) restored t d1) as [[i'|] d2] eqn:Es; [|done].
  intros [= <- <-]. split; [done|]. exists (Some store), restored, d1. split; [done|].
  split_and!; try done. by eapply open_store.
Qed.

End invariant.

Section runs.
Context {D : Type} `{FileSystemLaws D}.

Lemma read_store_restorable config store (d : D) restored :
  limits_ok (store_limits store) = true → read_store config store d = Success restored →
  match restored with Some st => restorable (store_limits store) st | None => True end.
Proof.
  intros HL. unfold read_store. destruct (exists_ _ _); [|by intros [= <-]].
  destruct (load store d) as [st|] eqn:El.
  - intros [= <-]. by eapply load_restorable.
  - destruct (cf_allow_initialize config); [by intros [= <-]|done].
Qed.

(** A coordinator that opens satisfies the invariant, with nothing pending. *)
Lemma open_ok config t (d d' : D) i :
  unsigned_config config → Coordinator.open config t d = (Success i, d') →
  sys_ok (mkSystem (mkWorld i d') []).
Proof.
  intros Hu Ho. apply open_started in Ho as (HL & store & restored & d1 & Hs & Hst).
  assert (match store with Some s => store_limits s = cf_limits config | None => restored = None end ∧
    match restored with Some st => restorable (cf_limits config) st | None => True end) as [H1 H2].
  { destruct store as [s|]; [|by destruct Hst as (_ & -> & _)].
    destruct Hst as (-> & _ & Hr). split; [done|]. by apply read_store_restorable in Hr. }
  destruct (start_ok _ _ _ _ _ _ _ Hu HL H1 H2 Hs). by split.
Qed.

(** The state of a coordinator opened with [config] on the disk [d], after it served
    [requests]. *)
Definition reaches (config : CoordinatorConfig) (t : Z) (d : D) (requests : list Request)
    (s : System D) : Prop :=
  ∃ i d', Coordinator.open config t d = (Success i, d') ∧
    s = serve requests (mkSystem (mkWorld i d') []).

Lemma reaches_ok config t d requests s :
  unsigned_config config → reaches config t d requests s → sys_ok s.
Proof. intros Hu (i & d' & Ho & ->). by eapply serve_ok, open_ok. Qed.

(** *** What never goes back *)

Record advances (i i' : Impl) : Prop := {
  av_config : im_config i' = im_config i;
  av_store : store_id (im_store i') = store_id (im_store i);
  av_authority : evolves (im_config i) (im_authority i) (im_authority i');
  av_evidence : ∀ f, generation_for (im_evidence i) f <= generation_for (im_evidence i') f;
  av_watermarks : marks_le (im_watermarks i) (im_watermarks i')
}.

#[export] Instance advances_preorder : PreOrder advances.
Proof.
  split; [by split|]. intros i j k [A1 A2 A3 A4 A5] [B1 B2 B3 B4 B5]. rewrite A1 in B3.
  split; [congruence..|by etrans| |by etrans]. intros f. specialize (A4 f). specialize (B4 f). lia.
Qed.

Lemma quiet_advances i i' : quiet i i' → advances i i'.
Proof. intros [? ? E]. split; try done. intros f. by rewrite E. Qed.

Lemma commits_advances {A} R (P : Impl → PersistentState → Prop) (m : op D A) w :
  coordinator_ok (impl w) → commits_from R P w m →
  (∀ i next, coordinator_ok i → P i next → prepared i next) → advances (impl w) (impl (m w).2).
Proof.
  intros Hok Hm HP. destruct (m w) as [r w'] eqn:E. cbn [snd].
  destruct (Hm r w' E) as [[Hq _]|(_ & _ & next & i1 & s & Hq & HPn & Hs & -> & _)]; [by apply quiet_advances|].
  etrans; [by apply quiet_advances|]. destruct (HP _ _ (quiet_ok _ _ Hq Hok) HPn) as [E1 W1 _ _ _].
  by split.
Qed.

Lemma handle_advances r s : sys_ok s → advances (impl (world s)) (impl (world (handle r s))).
Proof.
  intros [Hc _ Hp]. destruct r; cbn [handle world].
  - apply quiet_advances, register_kept.
  - apply quiet_advances, fence_boot_kept.
  - apply quiet_advances, session_loss_kept.
  - apply quiet_advances, drop_session_kept.
  - apply quiet_advances, observe_kept.
  - apply quiet_advances, flush_kept.
  - apply (commits_advances _ _ _ _ Hc (publish_commits _ _ _ _ _)).
    intros i next Hi. by eapply publishes_set_prepared.
  - apply (commits_advances _ _ _ _ Hc (lifecycle_commits _ _ _ _ _)).
    intros i next Hi. by apply publishes_lifecycle_prepared.
  - apply (commits_advances _ _ _ _ Hc (evidence_commits _ _ _ _ (co_evidence _ Hc))).
    intros i next Hi. by apply publishes_evidence_prepared.
  - unfold Coordinator.advance_family, mbind, op_bind, get.
    destruct (with_family _ _ _); [|done]. destruct (negb _); [done|].
    apply (commits_advances _ _ _ _ Hc (evidence_commits _ _ _ _ (co_evidence _ Hc))).
    intros i next Hi. by apply publishes_evidence_prepared.
  - apply (commits_advances _ _ _ _ Hc (invalidate_commits _ _ _ _)).
    intros i next Hi. by apply publishes_invalidation_prepared.
  - apply quiet_advances. unfold begin_evaluation. pose proof (begin_kept context id candidates expected observed_tick (world s)) as [Hq _].
    destruct (evaluate_begin _ _ _ _ _ _) as [[[]|] w]; try exact Hq. by destruct (evaluate_batch _ _).
  - destruct (pending s !! n) as [p|] eqn:E; [|done]. cbn [world].
    apply (commits_advances _ _ _ _ Hc (commit_commits _ _ _ _ _ _)).
    intros i next Hi [_ ->]. apply commit_prepared; [done|]. apply (Forall_lookup_1 _ _ _ _ Hp E).
Qed.

Lemma serve_advances requests : ∀ s, sys_ok s →
  advances (impl (world s)) (impl (world (serve requests s))).
Proof.
  induction requests as [|r rs IH]; intros s Hs; [done|].
  etrans; [by apply handle_advances|]. apply IH. by apply handle_ok.
Qed.
End runs.
