(* ===== verification/CoordinatorCorrect.v ===== *)
(** What the coordinator guarantees: the invariant of every run, durability of what is
    published, the limits of authority, the fate of an evaluation whose inputs moved,
    recovery, and the exact effect of each mutation and query. *)

From Stdlib Require Import ZArith Lia Bool Strings.Byte Sorted.
From stdpp Require Import base list numbers strings gmap sets relations.
From S2P Require Import Prelude Containers Base Codec Digest Lifecycle Constraint Candidate.
From S2P Require Import Evaluation Ordering ConstraintSet Evaluator EvaluatorSpec EvaluatorCorrect.
From S2P Require Import BatchCorrect Authority Invalidation Persistence Store Coordinator.
From S2P Require Import CoordinatorInvariant CoordinatorSystem.

Open Scope string_scope.
Open Scope list_scope.
Open Scope Z_scope.

(** ** Lemmas: authority *)

Section authority.
Context {D : Type} `{FileSystemLaws D}.

Lemma evolves_fenced config g g' b :
  evolves config g g' → is_boot_fenced b g = true → is_boot_fenced b g' = true.
Proof.
  intros [Hs _ _]. induction Hs as [g|g1 g2 g3 Hs _ IH]; [done|]. intros Hb. apply IH.
  by eapply fenced_step.
Qed.

(** Nothing is live in a coordinator that has just opened. *)
Lemma start_registrations config store restored t (d d' : D) i :
  start config store restored t d = (Success i, d') → registrations (im_authority i) = [].
Proof.
  unfold start. destruct (next_authority restored t) as [g|] eqn:Eg; [|done].
  destruct (persist _ _) as [[[]|] w] eqn:Ep; [|done]. intros [= <- <-].
  apply persist_spec in Ep as (s & _ & -> & _). cbn [impl with_store im_authority].
  apply next_authority_spec in Eg as [Hr _]. unfold initial_impl. by destruct restored.
Qed.

(** A request that the authority of the coordinator must allow: the context it carries
    and the scope it needs. *)
Definition demands (r : Request) : option (AuthorityContext * AuthorityScope.t) :=
  match r with
  | FenceBoot context _ _ _ | DropSession context _ => Some (context, AuthorityScope.AdministerFencing)
  | Publish context _ _ _ => Some (context, AuthorityScope.PublishConstraintSet)
  | Lifecycle_ context _ _ _ => Some (context, AuthorityScope.ApplyLifecycle)
  | SetEvidence context _ _ | AdvanceFamily_ context _ _ _ | Invalidate context _ _
  | Begin context _ _ _ _ _ => Some (context, AuthorityScope.PublishEvaluation)
  | _ => None
  end.

Lemma denied_bind {A} context scope (k : () → op D A) w :
  ok (Authority.authorize context (scope_bit scope) (im_authority (impl w))) = false →
  (∃ code text, (authorize context scope ≫= k) w = (Failure code text, w)).
Proof.
  intros Hd. unfold mbind, op_bind, authorize.
  destruct (Authority.authorize _ _ _) as [[]|code text]; [done|eauto].
Qed.
End authority.

(** ** Properties of every run *)

Section runs.
Context {D : Type} `{FileSystemLaws D}.

(** C1: The invariant of the coordinator. Whatever requests are served, in whatever
    order, whether their durable writes succeed or not and whatever happens between
    the two phases of an evaluation: the authority registry is well formed; set
    identities are unique; there is at most one current result for a set and path;
    and the two derived maps are exact — the current map sends a set and path to its
    current result, and the invalidation index binds a key to the current results
    whose set or candidate depends on it, and to nothing else. *)
Theorem coordinator_invariant config t (d : D) requests s :
  unsigned_config config → reaches config t d requests s →
  let i := impl (world s) in
  registry_ok (im_limits i) (im_authority i) ∧
  NoDup (map cs_id (im_sets i)) ∧ NoDup (map pop_set_id (im_populations i)) ∧
  NoDup (current_keys (im_evaluations i)) ∧
  (∀ set p id, im_current i !! (set, p) = Some id ↔
     ∃ r, r ∈ im_evaluations i ∧ is_current r = true ∧ set_id r = set ∧ rec_path r = p ∧ rec_id r = id) ∧
  (∀ key e, e ∈ dependents key (im_index i) ↔
     ∃ r, r ∈ im_evaluations i ∧ is_current r = true ∧ rec_id r = e ∧ e ≠ 0 ∧
       key ∈ record_keys (im_limits i) (im_sets i) (im_populations i) r).
Proof.
  intros Hu Hr i. destruct (reaches_ok _ _ _ _ _ Hu Hr) as [Hok _ _]. fold i in Hok.
  destruct Hok as [_ [Hreg _] _ Hs Hp Hc Hd]. split_and!; try done; [|apply (derived_index i Hd)].
  intros set p id. rewrite (derived_current i (set, p) id Hd Hc).
  setoid_rewrite current_key_Some. split.
  - intros (r & Hin & [Hcur [= -> ->]] & Hid). by exists r.
  - intros (r & Hin & Hcur & <- & <- & Hid). by exists r.
Qed.

(** C2: What is visible is durable. At every point of every run of a coordinator with a
    store, the store file is the envelope of a state the store accepts, and that state
    holds exactly the constraint sets, results, candidate populations and evidence
    generations in memory; its watermarks and generation counter may only lag. *)
Theorem published_data_durable config t (d : D) requests s store :
  unsigned_config config → reaches config t d requests s → im_store (impl (world s)) = Some store →
  ∃ st, contents (disk (world s)) (store_path store) =
      Some (encode_envelope (encode_persistent_state st [])) ∧
    state_ok (store_limits store) st ∧ holds_data st (impl (world s)).
Proof.
  intros Hu Hr Hs. destruct (reaches_ok _ _ _ _ _ Hu Hr) as [_ Hd _].
  unfold durable in Hd. rewrite Hs in Hd. destruct Hd as (st & H1 & H2 & H3). by exists st.
Qed.

(** C7: No authority without a grant. In every run, a live publisher was granted every
    scope it holds by the configuration, and runs on a boot that is not fenced. *)
Theorem authority_within_grants config t (d : D) requests s r :
  unsigned_config config → reaches config t d requests s →
  r ∈ registrations (im_authority (impl (world s))) → rg_live r = true →
  granted config r ∧ is_boot_fenced (rg_boot r) (im_authority (impl (world s))) = false.
Proof.
  intros Hu Hr Hin Hl. pose proof (reaches_ok _ _ _ _ _ Hu Hr) as [Hok _ _].
  destruct Hr as (i & d' & Ho & ->). split.
  - pose proof (serve_advances requests _ (open_ok _ _ _ _ _ Hu Ho)) as Ha.
    pose proof Ho as Ho'.
    apply open_started in Ho as (_ & store & restored & d1 & Hs & _).
    pose proof (start_registrations _ _ _ _ _ _ _ Hs) as Hnone.
    assert (im_config i = config) as Hc.
    { unfold start in Hs. destruct (next_authority _ _); [|done].
      destruct (persist _ _) as [[[]|] w] eqn:Ep; [|done]. injection Hs as <- _.
      apply persist_spec in Ep as (? & _ & -> & _). unfold initial_impl. by destruct restored. }
    destruct (ev_live _ _ _ (av_authority _ _ Ha) r Hin Hl) as [Hn|Hg].
    + cbn [world impl] in Hn. rewrite Hnone in Hn. by apply elem_of_nil in Hn.
    + cbn [world impl] in Hg. by rewrite Hc in Hg.
  - destruct Hok as [_ [Hreg _] _ _ _ _ _]. pose proof (ro_unfenced _ _ Hreg r Hin Hl) as Hf.
    apply not_true_iff_false. rewrite is_boot_fenced_true, Hf. by intros [].
Qed.

(** C21: Default deny. A request whose context the registry does not authorize for the
    scope it needs leaves the whole world — state, pending evaluations and disk — as it
    was, whatever else it carries. *)
Theorem denied_request_inert (r : Request) context scope (s : System D) :
  demands r = Some (context, scope) →
  ok (Authority.authorize context (scope_bit scope) (im_authority (impl (world s)))) = false →
  handle r s = s.
Proof.
  intros Hr Hd. assert (∀ A (k : () → op D A),
    mkSystem ((authorize context scope ≫= k) (world s)).2 (pending s) = s) as Hinert.
  { intros A k. destruct (denied_bind context scope k (world s) Hd) as (? & ? & ->). by destruct s. }
  destruct r; try done; injection Hr as -> <-; cbn [handle]; try apply Hinert.
  - unfold Coordinator.advance_family. destruct s as [w p]. unfold mbind at 1, op_bind at 1, get.
    cbn [world pending]. destruct (with_family _ _ _); [|done]. destruct (negb _); [done|]. apply Hinert.
  - unfold begin_evaluation.
    assert (∃ code text, evaluate_begin context id candidates expected observed_tick (world s) =
      (Failure code text, world s)) as (? & ? & ->) by (apply denied_bind; exact Hd). by destruct s.
Qed.

(** C20: Nothing goes back. From any point of a run to any later one the epoch is the
    same, evidence generations and watermarks never decrease, and a fenced boot stays
    fenced. *)
Theorem generations_never_decrease config t (d : D) requests more s :
  unsigned_config config → reaches config t d requests s →
  let i := impl (world s) in
  let j := impl (world (serve more s)) in
  reg_epoch (im_authority j) = reg_epoch (im_authority i) ∧
  (∀ f, generation_for (im_evidence i) f <= generation_for (im_evidence j) f) ∧
  marks_le (im_watermarks i) (im_watermarks j) ∧
  (∀ b, is_boot_fenced b (im_authority i) = true → is_boot_fenced b (im_authority j) = true).
Proof.
  intros Hu Hr i j. destruct (serve_advances more s (reaches_ok _ _ _ _ _ Hu Hr)) as [_ _ He Hg Hw].
  split_and!; [apply He|done|done|]. intros b. by eapply evolves_fenced.
Qed.
End runs.

(** ** Lemmas: bounded history *)

Lemma oldest_record_spec l : ∀ n victim,
  match oldest_record n victim l with
  | None => victim = None ∧ Forall (λ r, is_current r = true) l
  | Some v =>
      ∃ oldest, (victim = Some (v, oldest) ∨
        ∃ k r, l !! k = Some r ∧ v = (n + k)%nat ∧ is_current r = false ∧ rec_generation r = oldest) ∧
      (∀ r, r ∈ l → is_current r = false → oldest <= rec_generation r) ∧
      (∀ v0 g0, victim = Some (v0, g0) → oldest <= g0)
  end.
Proof.
  induction l as [|r l IH]; intros n victim; cbn [oldest_record].
  { destruct victim as [[v g]|]; cbn; [|by split]. exists g. split_and!; [by left| |].
    - intros r Hr. by apply elem_of_nil in Hr.
    - intros v0 g0 [= <- <-]. done. }
  destruct (is_current r) eqn:Ec.
  - specialize (IH (S n) victim). destruct (oldest_record (S n) victim l) as [v|].
    + destruct IH as (g & Hcase & Hmin & Hv). exists g. split_and!; [| |done].
      * destruct Hcase as [Hv0|(k & x & Hk & -> & Hx)]; [by left|right].
        exists (S k), x. split_and!; [done|lia|apply Hx..].
      * intros x [->|Hx]%elem_of_cons Hc; [congruence|by apply Hmin].
    + destruct IH as [-> Hall]. split; [done|by constructor].
  - set (better := match victim with Some (_, o) => rec_generation r <? o | None => true end).
    specialize (IH (S n) (if better then Some (n, rec_generation r) else victim)).
    destruct (oldest_record _ _ l) as [v|].
    + destruct IH as (g & Hcase & Hmin & Hv). exists g.
      assert (g <= rec_generation r ∧ ∀ v0 g0, victim = Some (v0, g0) → g <= g0) as [Hr Hv'].
      { subst better. destruct victim as [[v1 g1]|]; [destruct (_ <? _) eqn:E|].
        - specialize (Hv _ _ eq_refl). split; [lia|]. intros v0 g0 [= <- <-]. lia.
        - specialize (Hv _ _ eq_refl). split; [lia|]. intros v0 g0 [= <- <-]. lia.
        - specialize (Hv _ _ eq_refl). split; [lia|done]. }
      split_and!; [| |done].
      * destruct Hcase as [Hv0|(k & x & Hk & -> & Hx)].
        -- destruct better; [|by left]. injection Hv0 as <- <-. right. exists 0%nat, r.
           split_and!; [done|lia|done|done].
        -- right. exists (S k), x. split_and!; [done|lia|apply Hx..].
      * intros x [->|Hx]%elem_of_cons Hc; [done|by apply Hmin].
    + destruct IH as [IH _]. subst better. destruct victim as [[v1 g1]|]; [by destruct (_ <? _)|done].
Qed.

(** What a round removes: a record that is not current, none older than the rest. *)
Lemma oldest_record_victim l v :
  oldest_record 0 None l = Some v →
  ∃ r, l !! v = Some r ∧ is_current r = false ∧
    ∀ x, x ∈ l → is_current x = false → rec_generation r <= rec_generation x.
Proof.
  intros Hv. pose proof (oldest_record_spec l 0 None) as Ho. rewrite Hv in Ho.
  destruct Ho as (g & [Hn|(k & r & Hk & -> & Hc & <-)] & Hmin & _); [done|]. by exists r.
Qed.

Lemma filter_delete {A} (p : A → bool) l : ∀ v x,
  l !! v = Some x → p x = false → List.filter p (delete v l) = List.filter p l.
Proof.
  induction l as [|y l IH]; intros [|v] x; [done..| |].
  - intros [= ->] Hp. cbn [List.filter]. by rewrite Hp.
  - intros Hv Hp. change (delete (S v) (y :: l)) with (y :: delete v l). cbn [List.filter].
    by rewrite (IH v x).
Qed.

Lemma filter_and {A} (p q : A → bool) l :
  List.filter (λ x, p x && q x) l = List.filter p (List.filter q l).
Proof.
  induction l as [|x l IH]; [done|]. cbn [List.filter]. destruct (q x) eqn:Eq.
  - rewrite andb_true_r. cbn [List.filter]. by rewrite IH.
  - by rewrite andb_false_r.
Qed.

Lemma evict_current fuel limit : ∀ l,
  List.filter is_current (evict fuel limit l) = List.filter is_current l.
Proof.
  induction fuel as [|fuel IH]; intros l; cbn [evict]; [done|]. destruct (_ <=? _); [done|].
  destruct (oldest_record 0 None l) as [v|] eqn:E; [|done].
  destruct (oldest_record_victim l v E) as (r & Hr & Hc & _). rewrite IH. by eapply filter_delete.
Qed.

Lemma trim_history_current id limit l :
  current_of_set id (trim_history limit l) = current_of_set id l.
Proof. unfold current_of_set, trim_history. by rewrite !filter_and, evict_current. Qed.

Lemma evict_spec fuel limit : ∀ l, 
  size l - limit <= Z.of_nat fuel →
  ∃ evicted, l ≡ₚ evict fuel limit l ++ evicted ∧ Forall (λ r, is_current r = false) evicted ∧
    (∀ e r, e ∈ evicted → r ∈ evict fuel limit l → is_current r = false →
       rec_generation e <= rec_generation r) ∧
    (size (evict fuel limit l) <= limit ∨ Forall (λ r, is_current r = true) (evict fuel limit l)) ∧
    (evicted ≠ [] → limit <= size (evict fuel limit l)).
Proof.
  assert (∀ l : list EvaluationRecord, l ≡ₚ l ++ []) as Hnil by (intros l; by rewrite app_nil_r).
  induction fuel as [|fuel IH]; intros l Hf; cbn [evict].
  { exists []. split_and!; [done|constructor| |left; lia|done]. intros e r He. by apply elem_of_nil in He. }
  destruct (size l <=? limit) eqn:E.
  { exists []. split_and!; [done|constructor| |left; lia|done]. intros e r He. by apply elem_of_nil in He. }
  destruct (oldest_record 0 None l) as [v|] eqn:Ev.
  - destruct (oldest_record_victim l v Ev) as (x & Hx & Hc & Hmin).
    pose proof (delete_Permutation l v x Hx) as Hp.
    assert (size l = 1 + size (delete v l)) as Hs.
    { apply Permutation_length in Hp. unfold size. cbn [length] in Hp. lia. }
    assert (size (delete v l) - limit <= Z.of_nat fuel) as Hf' by lia.
    destruct (IH _ Hf') as (evicted & H1 & H2 & H3 & H4 & H5).
    exists (x :: evicted). split_and!; [| by constructor| |done|].
    + etrans; [exact Hp|]. etrans; [apply perm_skip, H1|]. apply Permutation_middle.
    + intros e r [->|He]%elem_of_cons Hr Hrc; [|by apply H3]. apply Hmin; [|done].
      apply (elem_of_Permutation_proper r _ _ Hp), list_elem_of_further.
      apply (elem_of_Permutation_proper r _ _ H1), elem_of_app. by left.
    + intros _. destruct evicted as [|e es]; [|by apply H5].
      rewrite app_nil_r in H1. apply Permutation_length in H1. unfold size in *. lia.
  - pose proof (oldest_record_spec l 0 None) as Ho. rewrite Ev in Ho. destruct Ho as [_ Ho].
    exists []. split_and!; [done|constructor| |by right|done]. intros e r He. by apply elem_of_nil in He.
Qed.

(** The history is bounded and nothing current is forgotten. Trimming removes only
    results that are not current, the oldest generations first; it stops at the limit,
    or when every result left is current, and never removes more than it has to. *)
Theorem trim_history_bounded limit l :
  0 <= limit →
  ∃ evicted, l ≡ₚ trim_history limit l ++ evicted ∧ trim_history limit l `sublist_of` l ∧
    List.filter is_current (trim_history limit l) = List.filter is_current l ∧
    (∀ e, e ∈ evicted → is_current e = false ∧
       ∀ r, r ∈ trim_history limit l → is_current r = false → rec_generation e <= rec_generation r) ∧
    (size (trim_history limit l) <= limit ∨
       Forall (λ r, is_current r = true) (trim_history limit l)) ∧
    (evicted ≠ [] → limit <= size (trim_history limit l)).
Proof.
  intros Hl. unfold trim_history.
  destruct (evict_spec (length l) limit l) as (evicted & H1 & H2 & H3 & H4 & H5); [unfold size; lia|].
  exists evicted. split_and!; try done.
  - apply evict_sublist.
  - apply evict_current.
  - intros e He. rewrite Forall_forall in H2. split; [by apply H2|]. intros r Hr Hc. by apply H3.
Qed.

(** ** Lemmas: the two phases *)

(** Nothing an evaluation consulted moved since its snapshot. *)
Definition unmoved (id : Z) (snapshot : Snapshot) (i : Impl) : Prop :=
  (∃ live, find_set id (im_sets i) = Some live ∧
     cs_generation live = cs_generation (sn_set snapshot) ∧
     cs_digest live = cs_digest (sn_set snapshot) ∧ cs_state live = cs_state (sn_set snapshot)) ∧
  im_evidence i = sn_evidence snapshot ∧
  ∀ f, f ∈ kFamilies → Z.land (sn_mask snapshot) (family_bit f) ≠ 0 →
    family_mark (im_watermarks i) f <= generation_for (sn_evidence snapshot) f.

Lemma evidence_equal_eq a b : evidence_equal a b = true ↔ a = b.
Proof.
  unfold evidence_equal. destruct a as [a1 a2 a3 a4 a5 a6 a7 a8], b as [b1 b2 b3 b4 b5 b6 b7 b8]. cbn.
  rewrite !andb_true_iff, !Z.eqb_eq. split.
  - intros H. destruct_and?. by subst.
  - intros [= -> -> -> -> -> -> -> ->]. done.
Qed.

Lemma first_stale_None mask moved :
  first_stale mask moved = None ↔
  ∀ f, f ∈ kFamilies → Z.land mask (family_bit f) ≠ 0 → moved f = false.
Proof.
  unfold first_stale. induction kFamilies as [|f l IH]; cbn [List.find].
  { split; [|done]. intros _ f Hf. by apply elem_of_nil in Hf. }
  destruct (negb _ && moved f) eqn:E.
  - cbn. split; [done|]. intros Hall. apply andb_true_iff in E as [E1 E2].
    rewrite Hall in E2; [done|apply list_elem_of_here|]. by apply negb_true_iff, Z.eqb_neq in E1.
  - rewrite IH. split.
    + intros Hall g [->|Hg]%elem_of_cons Hm; [|by apply Hall].
      apply andb_false_iff in E as [E|E]; [|done]. apply negb_false_iff, Z.eqb_eq in E. done.
    + intros Hall g Hg. apply Hall. by apply list_elem_of_further.
Qed.

Lemma commit_staleness_unmoved id snapshot i :
  commit_staleness id snapshot i = None ↔ unmoved id snapshot i.
Proof.
  unfold commit_staleness, unmoved. destruct (find_set _ _) as [live|] eqn:E.
  2: { split; [done|]. intros [(live & [= ] & _) _]. }
  destruct (_ || _) eqn:E1.
  { split; [done|]. intros [(x & [= <-] & H1 & H2 & H3) _]. rewrite H1, H2, H3 in E1.
    by rewrite Z.eqb_refl, digest_eqb_refl, (proj2 (eeqb_eq _ _) eq_refl) in E1. }
  rewrite !orb_false_iff, !negb_false_iff, Z.eqb_eq, digest_eqb_eq, eeqb_eq in E1.
  destruct (evidence_equal _ _) eqn:E2; cbn [negb].
  - apply evidence_equal_eq in E2. rewrite first_stale_None. setoid_rewrite Z.ltb_ge. split.
    + intros Hm. destruct E1 as [[? ?] ?]. split_and!; try done. by exists live.
    + intros (_ & _ & Hm). exact Hm.
  - split; [by destruct (first_stale _ _)|]. intros (_ & He & _).
    apply evidence_equal_eq in He. congruence.
Qed.

(** A stale commit names its reason. *)
Lemma staleness_named id snapshot i x : commit_staleness id snapshot i = Some x → x ≠ ReasonCode.None.
Proof.
  assert (∀ mask moved y, first_stale mask moved = Some y → y ≠ ReasonCode.None) as Hf.
  { intros mask moved y. unfold first_stale. destruct (List.find _ _) as [f|]; [|done].
    intros [= <-]. by destruct f. }
  unfold commit_staleness. destruct (find_set _ _); [|by intros [= <-]].
  destruct (_ || _); [by intros [= <-]|]. destruct (evidence_equal _ _); cbn [negb]; [apply Hf|].
  destruct (first_stale _ _) eqn:E; intros [= <-]; [by eapply Hf|done].
Qed.

Lemma current_of_set_app id l k :
  current_of_set id (l ++ k) = current_of_set id l ++ current_of_set id k.
Proof. apply List.filter_app. Qed.

Lemma superseded_of_set id batch l : current_of_set id (superseded_records id batch l) = [].
Proof.
  unfold current_of_set, superseded_records.
  induction (List.filter _ l) as [|r k IH]; [done|]. cbn [map List.filter].
  assert ((set_id (if (set_id r =? id) && negb (eeqb (state r) ResultState.StaleAtCommit)
      then with_state ResultState.Superseded r else r) =? id) &&
    is_current (if (set_id r =? id) && negb (eeqb (state r) ResultState.StaleAtCommit)
      then with_state ResultState.Superseded r else r) = false) as ->; [|exact IH].
  destruct (set_id r =? id) eqn:E1; cbn [andb]; [|by rewrite E1].
  destruct (eeqb (state r) ResultState.StaleAtCommit) eqn:E2; cbn [negb].
  - apply eeqb_eq in E2. unfold is_current. by rewrite E2, andb_false_r.
  - apply andb_false_r.
Qed.

Lemma committed_of_set id t batch :
  Forall (λ r, set_id r = id) batch →
  current_of_set id (map (committed_record t) batch) = map (committed_record t) batch.
Proof.
  unfold current_of_set. induction 1 as [|r l Hr Hl IH]; [done|]. cbn [map List.filter].
  change (set_id (committed_record t r)) with (set_id r). rewrite Hr, Z.eqb_refl.
  change (is_current (committed_record t r)) with true. cbn [andb]. by rewrite IH.
Qed.

(** The current results of the set after a commit, and of the others. *)
Lemma commit_state_set id candidates t g batch i :
  Forall (λ r, set_id r = id) batch →
  current_of_set id (ps_evaluations (commit_state id candidates t g batch i)) =
    map (committed_record t) batch.
Proof.
  intros Hb. unfold commit_state. cbn [ps_evaluations with_evaluations with_populations].
  by rewrite trim_history_current, current_of_set_app, superseded_of_set, committed_of_set.
Qed.

Lemma commit_state_others id other candidates t g batch i :
  Forall (λ r, set_id r = id) batch → other ≠ id →
  current_of_set other (ps_evaluations (commit_state id candidates t g batch i)) =
    List.filter (λ r, negb (existsb (λ c, rec_id c =? rec_id r) batch))
      (current_of_set other (im_evaluations i)).
Proof.
  intros Hb Hne. unfold commit_state. cbn [ps_evaluations with_evaluations with_populations to_state
    refresh_authority_projection].
  rewrite trim_history_current, current_of_set_app.
  assert (current_of_set other (map (committed_record t) batch) = []) as ->.
  { unfold current_of_set. induction Hb as [|r l Hr Hl IH]; [done|]. cbn [map List.filter].
    change (set_id (committed_record t r)) with (set_id r). rewrite Hr.
    assert ((id =? other) = false) as -> by lia. exact IH. }
  rewrite app_nil_r. unfold current_of_set, superseded_records.
  induction (im_evaluations i) as [|r l IH]; [done|]. cbn [List.filter].
  destruct (existsb _ batch) eqn:Ex; cbn [negb]; [|cbn [map List.filter]].
  - rewrite IH. destruct (_ && _); [|done]. cbn [List.filter]. by rewrite Ex.
  - destruct (set_id r =? id) eqn:Es; cbn [andb].
    + assert ((set_id r =? other) = false) as Ho by lia.
      replace (set_id (if negb (eeqb (state r) ResultState.StaleAtCommit)
        then with_state ResultState.Superseded r else r)) with (set_id r) by (by destruct (negb _)).
      rewrite Ho. cbn [andb]. exact IH.
    + destruct ((set_id r =? other) && is_current r); [|exact IH].
      cbn [List.filter]. rewrite Ex. cbn [negb]. by rewrite IH.
Qed.

(** ** Lemmas: what an operation changed *)

(** The published data of two states are the same. *)
Definition same_data (i i' : Impl) : Prop :=
  im_sets i' = im_sets i ∧ im_evaluations i' = im_evaluations i ∧
  im_populations i' = im_populations i ∧ im_evidence i' = im_evidence i ∧
  im_current i' = im_current i ∧ im_index i' = im_index i.

Lemma quiet_same_data i i' : quiet i i' → same_data i i'.
Proof. intros []. by split_and!. Qed.

Section changes.
Context {D : Type} `{FileSystemLaws D}.

(** A failure and a repeated attempt change no published data and leave the store file
    alone; any other success is in the store file before it is visible. *)
Definition all_or_nothing {A} (repeated : Prop) (m : op D A) (w : World D) : Prop :=
  ∀ r w', m w = (r, w') →
    (ok r = false ∨ repeated → same_data (impl w) (impl w') ∧ file w' = file w) ∧
    (ok r = true → ¬ repeated → ∃ next, saved next w' ∧ holds_data next (impl w')).

Lemma commits_all_or_nothing {A} R P (m : op D A) w :
  commits_from R P w m → all_or_nothing R m w.
Proof.
  intros Hm r w' E. destruct (Hm r w' E) as [(Hq & Hf & HR)|(Hok & HR & next & i1 & s & _ & _ & _ & Hi & Hs)].
  - apply quiet_same_data in Hq. split; [done|]. intros Hok Hn. by destruct (Hn (HR Hok)).
  - split; [intros [Hf|HR']; [congruence|done]|]. intros _ _. exists next. split; [done|].
    rewrite Hi. apply apply_state_holds_data.
Qed.

(** What a fresh attempt that succeeded published. *)
Lemma commits_success {A} R P (m : op D A) w r w' :
  commits_from R P w m → ¬ R → m w = (r, w') → ok r = true → published P (impl w) w'.
Proof.
  intros Hm HR E Hok. destruct (Hm r w' E) as [(_ & _ & Hn)|(_ & _ & Hp)]; [|done].
  by destruct (HR (Hn Hok)).
Qed.

(** In a durable coordinator every result has an identity of its own. *)
Lemma durable_ids w :
  durable w → im_store (impl w) ≠ None → NoDup (map rec_id (im_evaluations (impl w))).
Proof.
  unfold durable. destruct (im_store (impl w)) as [s|]; [|done].
  intros (st & Hok & Hd & _) _. rewrite <- (hd_evaluations _ _ Hd). apply Hok.
Qed.

(** The keys a current result is bound to: those of its set and its candidate; none when
    its identity is zero. *)
Definition bound_to (i : Impl) (r : EvaluationRecord) (k : InvalidationKey) : bool :=
  negb (rec_id r =? 0) &&
  bool_decide (k ∈ record_keys (im_limits i) (im_sets i) (im_populations i) r).

Lemma dependents_exact i r k :
  derived i → NoDup (map rec_id (im_evaluations i)) →
  r ∈ im_evaluations i → is_current r = true →
  rec_id r ∈ dependents k (im_index i) ↔ bound_to i r k = true.
Proof.
  intros Hd Hn Hr Hc. destruct (derived_index i Hd) as [_ ->]. unfold bound_to.
  rewrite andb_true_iff, negb_true_iff, Z.eqb_neq, bool_decide_eq_true. split.
  - intros (x & Hx & _ & Hid & Hz & Hk). split; [done|]. assert (x = r) as ->; [|done].
    apply list_elem_of_lookup in Hx as [a Ha], Hr as [b Hb].
    assert (a = b) as ->; [|congruence]. eapply (NoDup_lookup _ a b (rec_id r) Hn).
    + by rewrite <- Hid, list_lookup_fmap, Ha.
    + by rewrite list_lookup_fmap, Hb.
  - intros [Hz Hk]. exists r. by split_and!.
Qed.

Lemma dependents_of_elem ks index e : e ∈ dependents_of ks index ↔ ∃ k, k ∈ ks ∧ e ∈ dependents k index.
Proof.
  unfold dependents_of. rewrite elem_of_list_to_set, list_elem_of_In, in_concat. split.
  - intros (l & Hl & He). apply list_elem_of_In, list_elem_of_fmap in Hl as (k & -> & Hk).
    exists k. split; [done|]. by apply list_elem_of_In.
  - intros (k & Hk & He). exists (dependents k index).
    split; [by apply list_elem_of_In, (list_elem_of_fmap_2 (λ k, dependents k index))|by apply list_elem_of_In].
Qed.

Lemma require_revalidation_ext (p q : EvaluationRecord → bool) l :
  (∀ r, r ∈ l → is_current r = true → p r = q r) → require_revalidation p l = require_revalidation q l.
Proof.
  intros Hpq. unfold require_revalidation. apply map_ext_in. intros r Hr%list_elem_of_In.
  destruct (is_current r) eqn:E; [by rewrite Hpq|by rewrite !andb_false_r].
Qed.
End changes.

(** ** Properties of the mutations *)

Section mutations.
Context {D : Type} `{FileSystemLaws D}.

(** C3: A stale evaluation never commits. When anything a pending evaluation consulted
    moved since its snapshot — its set, the evidence generations, a watermark of a
    family it read — its commit changes nothing and reports every record stale, with a
    reason. When nothing moved, a commit that succeeds makes exactly the evaluated
    records the current results of the set; the current results of other sets stay
    (but for a record whose identity a new one repeats), and a commit that fails
    changes no published data. Without a store it cannot fail. *)
Theorem stale_evaluation_never_commits config t (d : D) requests s n p r w' :
  unsigned_config config → reaches config t d requests s → pending s !! n = Some p →
  commit_evaluation p (world s) = (r, w') →
  let i := impl (world s) in
  let evaluated := records (pd_batch p) in
  (¬ unmoved (pd_set p) (pd_snapshot p) i →
     w' = world s ∧ ∃ o, r = Success o ∧ co_committed o = false ∧
       co_rejection_reason o ≠ ReasonCode.None ∧
       records (co_batch o) = map (with_state ResultState.StaleAtCommit) evaluated) ∧
  (unmoved (pd_set p) (pd_snapshot p) i → ok r = true →
     (∃ o, r = Success o ∧ co_committed o = true ∧
        records (co_batch o) = map (committed_record (pd_tick p)) evaluated) ∧
     current_of_set (pd_set p) (im_evaluations (impl w')) = map (committed_record (pd_tick p)) evaluated ∧
     (∀ other, other ≠ pd_set p → current_of_set other (im_evaluations (impl w')) =
        List.filter (λ x, negb (existsb (λ c, rec_id c =? rec_id x) evaluated))
          (current_of_set other (im_evaluations i)))) ∧
  (unmoved (pd_set p) (pd_snapshot p) i → ok r = false → same_data i (impl w') ∧ file w' = file (world s)) ∧
  (unmoved (pd_set p) (pd_snapshot p) i → im_store i = None → ok r = true).
Proof.
  intros Hu Hr Hn E i evaluated. destruct (reaches_ok _ _ _ _ _ Hu Hr) as [Hok _ Hp].
  destruct (Forall_lookup_1 _ _ _ _ Hp Hn) as [Hid [Hb _]]. fold evaluated in Hb.
  setoid_rewrite <- commit_staleness_unmoved. unfold commit_evaluation in E.
  pose proof (commit_commits (pd_set p) (pd_candidates p) (pd_tick p) (pd_snapshot p) (pd_batch p)
    (world s)) as Hc. fold i in Hc.
  pose proof (commits_all_or_nothing _ _ _ _ Hc _ _ E) as [Hnone _]. split_and!.
  - intros Hs. unfold evaluate_commit, mbind, op_bind, get in E. fold i in E.
    destruct (commit_staleness (pd_set p) (pd_snapshot p) i) as [x|] eqn:Ex; [|done]. injection E as <- <-.
    split; [done|]. eexists. split_and!; [done|done| |done]. cbn [co_rejection_reason].
    by eapply staleness_named.
  - intros Hs Hrok. split.
    + unfold evaluate_commit, mbind, op_bind, get in E. fold i in E. rewrite Hs in E.
      destruct (persist_and_apply _ _) as [[[]|] w1]; injection E as <- _; [|done].
      eexists. by split_and!.
    + assert (¬ commit_staleness (pd_set p) (pd_snapshot p) i ≠ None) as Hns by (by intros []).
      destruct (commits_success _ _ _ _ _ _ Hc Hns E Hrok)
        as (next & i1 & st & Hq & [_ ->] & _ & -> & _).
      cbn [apply_state rebuild_derived im_evaluations with_store]. split.
      * apply commit_state_set. exact Hb.
      * intros other Ho. rewrite (commit_state_others (pd_set p)) by done.
        by rewrite (qt_evaluations _ _ Hq).
  - intros _ Hf. apply Hnone. by left.
  - intros Hs Hst. unfold evaluate_commit, mbind, op_bind, get in E. fold i in E. rewrite Hs in E.
    unfold persist_and_apply, mbind, op_bind, persist in E. fold i in E. rewrite Hst in E.
    by injection E as <- _.
Qed.

(** C9: Mutations are all or nothing. A publication, a lifecycle event, an advance of
    the evidence requirements or an invalidation that fails, or that repeats a
    recorded attempt, changes no published data and leaves the store file as it was;
    any other success is in the store file before it is visible. *)
Theorem mutations_all_or_nothing config t (d : D) requests s :
  unsigned_config config → reaches config t d requests s →
  let w := world s in
  (∀ context set t1 t2, all_or_nothing (replayed context (publish_payload set) (impl w))
     (publish_constraint_set context set t1 t2) w) ∧
  (∀ context id event t1, all_or_nothing (replayed context (lifecycle_payload id event) (impl w))
     (apply_lifecycle context id event t1) w) ∧
  (∀ context required t1, all_or_nothing (replayed context (evidence_payload required) (impl w))
     (set_evidence_requirements context required t1) w) ∧
  (∀ context key t1, all_or_nothing (replayed context (invalidation_payload key) (impl w))
     (invalidate_key context key t1) w).
Proof.
  intros Hu Hr w. destruct (reaches_ok _ _ _ _ _ Hu Hr) as [Hok _ _]. split_and!; intros.
  - eapply commits_all_or_nothing, publish_commits.
  - eapply commits_all_or_nothing, lifecycle_commits.
  - eapply commits_all_or_nothing, evidence_commits. apply Hok.
  - eapply commits_all_or_nothing, invalidate_commits.
Qed.

(** C18: Invalidation is precise. In a durable coordinator, a fresh invalidation that
    succeeds turns exactly the current results bound to the key to revalidation
    required, and changes nothing else that is published. *)
Theorem invalidation_precise config t (d : D) requests s context key tick w' :
  unsigned_config config → reaches config t d requests s → im_store (impl (world s)) ≠ None →
  let i := impl (world s) in
  ¬ replayed context (invalidation_payload key) i →
  invalidate_key context key tick (world s) = (success, w') →
  im_evaluations (impl w') =
    map (λ r, if is_current r && bound_to i r key then with_state ResultState.RevalidationRequired r else r)
      (im_evaluations i) ∧
  im_sets (impl w') = im_sets i ∧ im_populations (impl w') = im_populations i ∧
  im_evidence (impl w') = im_evidence i.
Proof.
  intros Hu Hr Hst i Hnr E. destruct (reaches_ok _ _ _ _ _ Hu Hr) as [Hok Hd _].
  destruct (commits_success _ _ _ _ _ _ (invalidate_commits context key tick (world s)) Hnr E eq_refl)
    as (next & i1 & st & Hq & -> & _ & -> & _).
  pose proof (durable_ids _ Hd Hst) as Hids. cbn [apply_state rebuild_derived im_evaluations
    im_sets im_populations im_evidence with_store with_evaluations to_state refresh_authority_projection
    ps_evaluations ps_sets ps_populations ps_evidence].
  split_and!; [|apply Hq..]. rewrite (qt_evaluations _ _ Hq), (qt_index _ _ Hq). unfold require_revalidation. apply map_ext_in.
  intros r Hin%list_elem_of_In. rewrite andb_comm. destruct (is_current r) eqn:Ec; [|done].
  assert (bool_decide (rec_id r ∈ dependents_of [key] (im_index (impl (world s)))) = bound_to i r key) as ->; [|done].
  apply eq_true_iff_eq. rewrite bool_decide_eq_true, dependents_of_elem.
  rewrite <- (dependents_exact i r key (co_derived _ Hok) Hids Hin Ec). split.
  - by intros (k & ->%list_elem_of_singleton & He).
  - intros He. exists key. split; [apply list_elem_of_here|done].
Qed.
End mutations.

(** ** Lemmas: sets and their results *)

Lemma require_revalidation_set other id l :
  current_of_set other (require_revalidation (λ r, set_id r =? id) l) =
  if other =? id then [] else current_of_set other l.
Proof.
  unfold current_of_set, require_revalidation. induction l as [|r l IH]; cbn [map List.filter].
  { by destruct (_ =? _). }
  rewrite IH. clear IH. destruct (set_id r =? id) eqn:E1; cbn [andb].
  - destruct (is_current r) eqn:E2.
    + change (is_current (with_state ResultState.RevalidationRequired r)) with false.
      rewrite !andb_false_r. destruct (other =? id) eqn:E3; [done|].
      assert ((set_id r =? other) = false) as -> by lia. done.
    + rewrite E2, !andb_false_r. by destruct (_ =? _).
  - destruct (other =? id) eqn:E3; [|done]. assert ((set_id r =? other) = false) as -> by lia. done.
Qed.

Lemma find_set_update id f l other :
  (∀ s, cs_id (f s) = cs_id s) →
  find_set other (update_first (λ s, cs_id s =? id) f l) =
  if other =? id then f <$> find_set other l else find_set other l.
Proof.
  intros Hf. unfold find_set. induction l as [|s l IH]; cbn [update_first List.find].
  { by destruct (_ =? _). }
  destruct (cs_id s =? id) eqn:E1; cbn [List.find].
  - rewrite Hf. destruct (cs_id s =? other) eqn:E2.
    + assert ((other =? id) = true) as -> by lia. done.
    + assert ((other =? id) = false) as -> by lia. done.
  - destruct (cs_id s =? other) eqn:E2; [|exact IH].
    assert ((other =? id) = false) as -> by lia. done.
Qed.

Lemma find_set_replace id x l other :
  cs_id x = id → find_set id l ≠ None →
  find_set other (update_first (λ s, cs_id s =? id) (λ _, x) l) =
  if other =? id then Some x else find_set other l.
Proof.
  intros Hx. unfold find_set. induction l as [|s l IH]; cbn [update_first List.find]; [done|].
  destruct (cs_id s =? id) eqn:E1; cbn [List.find]; intros Hn.
  - destruct (cs_id x =? other) eqn:E2.
    + assert ((other =? id) = true) as -> by lia. done.
    + assert ((other =? id) = false) as -> by lia.
      assert ((cs_id s =? other) = false) as -> by lia. done.
  - destruct (cs_id s =? other) eqn:E2; [|by apply IH].
    assert ((other =? id) = false) as -> by lia. done.
Qed.

Lemma find_set_app id l k :
  find_set id (l ++ k) = match find_set id l with Some s => Some s | None => find_set id k end.
Proof.
  unfold find_set. induction l as [|s l IH]; [done|]. cbn [app List.find]. by destruct (_ =? _).
Qed.

(** Where a published set goes, and what generation and state it gets. *)
Lemma place_set_spec limits finalized sets stored sets' :
  place_set limits finalized sets = Success (stored, sets') →
  (∀ id, find_set id sets' = if id =? cs_id finalized then Some stored else find_set id sets) ∧
  match find_set (cs_id finalized) sets with
  | None => size sets < max_constraint_sets limits ∧
      stored = republished 1 ConstraintSetState.Declared finalized
  | Some old =>
      if digest_eqb (cs_digest old) (cs_digest finalized) then
        stored = republished (cs_generation old) (cs_state old) finalized
      else cs_generation old < kMaxGeneration ∧
        stored = republished (cs_generation old + 1)
          (if eeqb (cs_state old) ConstraintSetState.Active then ConstraintSetState.Active
           else ConstraintSetState.RevalidationRequired) finalized
  end.
Proof.
  unfold place_set. destruct (find_set (cs_id finalized) sets) as [old|] eqn:E.
  - intros (x & Hx & [= <- <-])%rbind_Success.
    assert (cs_id x = cs_id finalized) as Hid.
    { destruct (digest_eqb _ _); [by injection Hx as <-|]. destruct (next _); [by injection Hx as <-|done]. }
    split.
    + intros id. rewrite Hid. apply find_set_replace; [done|by rewrite E].
    + destruct (digest_eqb _ _); [by injection Hx as <-|]. unfold next in Hx.
      destruct (_ <=? _) eqn:El; [done|]. injection Hx as <-. split; [lia|done].
  - destruct (_ <=? _) eqn:El; [done|]. intros [= <- <-]. split; [|split; [lia|done]].
    intros id. rewrite find_set_app. unfold find_set at 2. cbn [List.find].
    change (cs_id (republished 1 ConstraintSetState.Declared finalized)) with (cs_id finalized).
    destruct (id =? cs_id finalized) eqn:Ei.
    + assert (id = cs_id finalized) as -> by lia. by rewrite E, Z.eqb_refl.
    + assert ((cs_id finalized =? id) = false) as -> by lia. by destruct (find_set id sets).
Qed.

Lemma finalize_success s limits out :
  ok (fin_status (validate_and_finalize_constraint_set s limits out)) = true →
  fin_set (validate_and_finalize_constraint_set s limits out) = canonical_form s ∧ accepted limits s.
Proof.
  unfold validate_and_finalize_constraint_set.
  destruct (canonicalize_constraint_set s limits) as [[working d]|] eqn:E; [|done].
  apply canonicalize_accepted in E as [-> Hacc].
  destruct (detect_contradictions _ _) as [st o]. destruct (ok st) eqn:Es; cbn; [done|congruence].
Qed.

Section definitions.
Context {D : Type} `{FileSystemLaws D}.

(** A publication and a lifecycle event answer the set that is stored. *)
Lemma publish_answers context s t1 t2 (w w' : World D) a :
  publish_constraint_set context s t1 t2 w = (Success a, w') → find_set (cs_id s) (im_sets (impl w')) = Some a.
Proof.
  unfold publish_constraint_set, mbind, op_bind, get, lift.
  destruct (authorize _ _ w) as [[[]|] w1]; [|done].
  destruct (observe_replay _ _ _ w1) as [[[]|] w2]; [| |done].
  { destruct (find_set (cs_id s) _) as [x|] eqn:E; [|done]. by intros [= <- <-]. }
  destruct (fin_status _) as [[]|] eqn:Ev; [|done]. 
  destruct (finalize_success (with_declared_tick t2 s) (im_limits (impl w2)) []) as [Hfin _]; [by rewrite Ev|].
  rewrite Hfin. destruct (place_set _ _ _) as [[finalized sets]|] eqn:Ep; [|done].
  pose proof (place_set_ids _ _ _ _ _ Ep) as [Hid _]. apply place_set_spec in Ep as [Hf _].
  change (cs_id (canonical_form (with_declared_tick t2 s))) with (cs_id s) in *.
  unfold persist_and_apply, mbind, op_bind, modify.
  destruct (persist _ w2) as [[[]|] w3]; [|done]. intros [= <- <-]. cbn [impl apply_state rebuild_derived
    im_sets ps_sets with_evaluations with_sets]. by rewrite Hid, Hf, Z.eqb_refl.
Qed.

Lemma lifecycle_answers context id event t (w w' : World D) a :
  apply_lifecycle context id event t w = (Success a, w') → find_set id (im_sets (impl w')) = Some a.
Proof.
  unfold apply_lifecycle, mbind, op_bind, get.
  destruct (authorize _ _ w) as [[[]|] w1]; [|done].
  destruct (observe_replay _ _ _ w1) as [[b|] w2]; [|done]. cbv zeta.
  destruct (find_set id (ps_sets (to_state (impl w2)))) as [target|] eqn:E; [|done].
  destruct b; [by intros [= <- <-]|]. destruct (Lifecycle.accepted _); cbn [negb]; [|done].
  unfold persist_and_apply, mbind, op_bind, modify.
  destruct (persist _ w2) as [[[]|] w3]; [|done]. intros [= <- <-].
  cbn [impl apply_state rebuild_derived im_sets ps_sets with_evaluations with_sets].
  rewrite find_set_update, Z.eqb_refl by done. cbn [to_state refresh_authority_projection ps_sets] in *.
  by rewrite E.
Qed.
End definitions.

Section effects.
Context {D : Type} `{FileSystemLaws D}.

(** C23: What a publication does. A fresh publication that succeeds stores the
    canonical form of the declaration, accepted by the limits, and answers it: as the
    first generation, declared, when the identity is new; under the generation and
    state it had when the content is the same; under the next generation, active only
    if it was active, when the content changed. No other set changes, no result of the
    set stays current, and the results of the other sets are untouched. *)
Theorem publish_effect context s t1 t2 (w w' : World D) a :
  ¬ replayed context (publish_payload s) (impl w) →
  publish_constraint_set context s t1 t2 w = (Success a, w') →
  let i := impl w in let i' := impl w' in
  let canonical := canonical_form (with_declared_tick t2 s) in
  accepted (im_limits i) (with_declared_tick t2 s) ∧
  match find_set (cs_id s) (im_sets i) with
  | None => a = republished 1 ConstraintSetState.Declared canonical
  | Some old =>
      if digest_eqb (cs_digest old) (cs_digest canonical)
      then a = republished (cs_generation old) (cs_state old) canonical
      else a = republished (cs_generation old + 1)
        (if eeqb (cs_state old) ConstraintSetState.Active then ConstraintSetState.Active
         else ConstraintSetState.RevalidationRequired) canonical
  end ∧
  (∀ id, find_set id (im_sets i') = if id =? cs_id s then Some a else find_set id (im_sets i)) ∧
  (∀ id, current_of_set id (im_evaluations i') =
     if id =? cs_id s then [] else current_of_set id (im_evaluations i)) ∧
  im_populations i' = im_populations i ∧ im_evidence i' = im_evidence i.
Proof.
  intros Hnr E. cbv zeta.
  destruct (commits_success _ _ _ _ _ _ (publish_commits context s t1 t2 w) Hnr E eq_refl)
    as (next & i1 & st & Hq & [Hv (finalized & sets & Hp & ->)] & _ & Hi & _).
  pose proof (publish_answers _ _ _ _ _ _ _ E) as Ha.
  rewrite (quiet_limits _ _ Hq) in Hv, Hp.
  destruct (finalize_success _ _ _ Hv) as [Hfin Hacc]. rewrite Hfin in Hp. clear Hfin Hv.
  rewrite (qt_sets _ _ Hq) in Hp.
  destruct (place_set_ids _ _ _ _ _ Hp) as [Hid _]. apply place_set_spec in Hp as [Hf Hcase].
  change (cs_id (canonical_form (with_declared_tick t2 s))) with (cs_id s) in *.
  rewrite Hi in *. clear Hi.
  cbn [apply_state rebuild_derived im_sets im_evaluations im_populations im_evidence with_store
    ps_sets ps_evaluations ps_populations ps_evidence with_evaluations with_sets to_state
    refresh_authority_projection] in *.
  rewrite Hf, Z.eqb_refl in Ha. injection Ha as ->. split; [done|]. split.
  { destruct (find_set _ _) as [old|]; [|by destruct Hcase]. destruct (digest_eqb _ _); [done|by destruct Hcase]. }
  split; [done|]. split; [|by rewrite (qt_populations _ _ Hq), (qt_evidence _ _ Hq)].
  intros id. by rewrite Hid, require_revalidation_set, (qt_evaluations _ _ Hq).
Qed.

(** C24: What a lifecycle event does. A fresh event that succeeds is one the state
    machine accepts in the state of the set; the set moves to the state the machine
    answers and keeps everything else, the other sets stay, and unless the set is
    active afterwards none of its results stays current. *)
Theorem lifecycle_effect context id event t1 (w w' : World D) a :
  ¬ replayed context (lifecycle_payload id event) (impl w) →
  apply_lifecycle context id event t1 w = (Success a, w') →
  let i := impl w in let i' := impl w' in
  ∃ target, find_set id (im_sets i) = Some target ∧
  let answer := apply_lifecycle_event (cs_state target) event in
  Lifecycle.accepted answer = true ∧ a = with_set_state (next_state answer) target ∧
  (∀ other, find_set other (im_sets i') = if other =? id then Some a else find_set other (im_sets i)) ∧
  (∀ other, current_of_set other (im_evaluations i') =
     if (other =? id) && negb (eeqb (next_state answer) ConstraintSetState.Active) then []
     else current_of_set other (im_evaluations i)) ∧
  im_populations i' = im_populations i ∧ im_evidence i' = im_evidence i.
Proof.
  intros Hnr E. cbv zeta.
  destruct (commits_success _ _ _ _ _ _ (lifecycle_commits context id event t1 w) Hnr E eq_refl)
    as (next & i1 & st & Hq & (target & Ht & Hacc & ->) & _ & Hi & _).
  pose proof (lifecycle_answers _ _ _ _ _ _ _ E) as Ha. rewrite (qt_sets _ _ Hq) in Ht.
  rewrite Hi in *. clear Hi.
  cbn [apply_state rebuild_derived im_sets im_evaluations im_populations im_evidence with_store
    ps_sets ps_evaluations ps_populations ps_evidence with_evaluations with_sets to_state
    refresh_authority_projection] in *.
  rewrite (qt_sets _ _ Hq) in Ha |- *. rewrite find_set_update, Z.eqb_refl, Ht in Ha by done.
  injection Ha as <-. exists target. split_and!; try done; [| |apply Hq..].
  - intros other. rewrite find_set_update by done. destruct (other =? id) eqn:Eo; [|done].
    assert (other = id) as -> by lia. by rewrite Ht.
  - intros other. rewrite (qt_evaluations _ _ Hq).
    destruct (eeqb _ _); [by rewrite andb_false_r|]. rewrite require_revalidation_set.
    by rewrite andb_true_r.
Qed.

(** The result depends on a family whose generation advances. *)
Definition advanced_result (i : Impl) (required : EvidenceRequirements) (r : EvaluationRecord) : bool :=
  existsb (λ f, (generation_for (im_evidence i) f <? generation_for required f) &&
    existsb (λ k, bool_decide (key_kind k ∈ family_kinds f) && bound_to i r k)
      (record_keys (im_limits i) (im_sets i) (im_populations i) r)) kFamilies.

Lemma dependents_of_family_exact i r f :
  derived i → NoDup (map rec_id (im_evaluations i)) → r ∈ im_evaluations i → is_current r = true →
  rec_id r ∈ dependents_of_family f (im_index i) ↔
  ∃ k, k ∈ record_keys (im_limits i) (im_sets i) (im_populations i) r ∧
    key_kind k ∈ family_kinds f ∧ bound_to i r k = true.
Proof.
  intros Hd Hn Hr Hc. unfold dependents_of_family. rewrite dependents_of_elem.
  destruct (derived_index i Hd) as [Hok _].
  setoid_rewrite (dependents_exact i r _ Hd Hn Hr Hc).
  setoid_rewrite (keys_of_kinds_elem _ _ _ Hok). split.
  - intros (k & [Hk _] & Hb). exists k. split_and!; try done.
    unfold bound_to in Hb. apply andb_true_iff in Hb as [_ Hb]. by apply bool_decide_eq_true in Hb.
  - intros (k & _ & Hk & Hb). exists k. split_and!; try done. exists (rec_id r).
    apply dependents_elem. by apply dependents_exact.
Qed.

(** C19: What an advance of the evidence requirements does. In a durable coordinator a
    fresh advance that succeeds lowers no family, publishes exactly the generations
    required, raises the watermark of every family that advanced, and turns exactly
    the current results bound to a key of such a family to revalidation required. *)
Theorem evidence_advance_precise config t (d : D) requests s context required tick w' :
  unsigned_config config → reaches config t d requests s → im_store (impl (world s)) ≠ None →
  let i := impl (world s) in
  ¬ replayed context (evidence_payload required) i →
  set_evidence_requirements context required tick (world s) = (success, w') →
  (∀ f, generation_for (im_evidence i) f <= generation_for required f) ∧
  im_evidence (impl w') = required ∧
  (∀ f, generation_for (im_evidence i) f < generation_for required f →
     generation_for required f <= family_mark (im_watermarks (impl w')) f) ∧
  im_evaluations (impl w') =
    map (λ r, if is_current r && advanced_result i required r
              then with_state ResultState.RevalidationRequired r else r) (im_evaluations i) ∧
  im_sets (impl w') = im_sets i ∧ im_populations (impl w') = im_populations i.
Proof.
  intros Hu Hr Hst i Hnr E. destruct (reaches_ok _ _ _ _ _ Hu Hr) as [Hok Hd _].
  pose proof (evidence_commits context required tick (world s) (co_evidence _ Hok)) as Hc.
  destruct (commits_success _ _ _ _ _ _ Hc Hnr E eq_refl)
    as (next & i1 & st & Hq & (advanced & Ha & Hmarks & ->) & _ & -> & _).
  pose proof (durable_ids _ Hd Hst) as Hids.
  rewrite (qt_evidence _ _ Hq) in Ha. fold i in Ha.
  destruct (advanced_families_spec _ _ _ _ Ha) as [Hle Hadv]. rewrite Forall_forall in Hle.
  assert (∀ f, f ∈ kFamilies ∨ generation_for (im_evidence i) f = 0 ∧ generation_for required f = 0) as Hall.
  { intros []; try (right; done); left; unfold kFamilies; rewrite !elem_of_cons; auto 10. }
  cbn [apply_state rebuild_derived im_sets im_evaluations im_populations im_evidence im_watermarks with_store
    ps_sets ps_evaluations ps_populations ps_evidence ps_watermarks with_evaluations with_evidence to_state
    refresh_authority_projection]. split_and!.
  - intros f. destruct (Hall f) as [Hf|[-> ->]]; [by apply Hle|done].
  - done.
  - intros f Hf. apply Hmarks, Hadv. split; [|done]. destruct (Hall f) as [|[E1 E2]]; [done|lia].
  - rewrite (qt_evaluations _ _ Hq), (qt_index _ _ Hq). fold i. unfold require_revalidation.
    apply map_ext_in. intros r Hin%list_elem_of_In. rewrite andb_comm.
    destruct (is_current r) eqn:Ec; [|done]. cbn [andb].
    assert (bool_decide (rec_id r ∈ ⋃ map (λ f, dependents_of_family f (im_index i)) advanced) =
      advanced_result i required r) as ->; [|done].
    apply eq_true_iff_eq. rewrite bool_decide_eq_true, elem_of_union_list.
    unfold advanced_result. rewrite list_existsb_Exists. split.
    + intros (X & (f & -> & Hf)%list_elem_of_fmap & Hx). apply Hadv in Hf as [Hf Hlt].
      apply dependents_of_family_exact in Hx as (k & Hk & Hkind & Hb); [|by apply Hok|done..].
      exists f. split; [done|]. rewrite andb_true_iff. split; [lia|].
      apply list_existsb_Exists. exists k. split; [done|]. by rewrite bool_decide_true.
    + intros (f & Hf & [Hlt (k & Hk & [Hkind Hb]%andb_true_iff)%list_existsb_Exists]%andb_true_iff).
      exists (dependents_of_family f (im_index i)). split.
      * apply (list_elem_of_fmap_2 (λ f, dependents_of_family f (im_index i))). apply Hadv. split; [done|lia].
      * apply dependents_of_family_exact; [by apply Hok|done..|]. exists k.
        apply bool_decide_eq_true in Hkind. done.
  - apply Hq.
  - apply Hq.
Qed.
End effects.

(** ** Lemmas: queries *)

Definition handoff_cmp (a b : RouteFabricHandoff) : Z := ho_path a - ho_path b.

#[export] Instance handoff_cmp_order : CmpOrder handoff_cmp.
Proof. unfold handoff_cmp. split; intros; lia. Qed.

Lemma current_of_set_elem id l r :
  r ∈ current_of_set id l ↔ r ∈ l ∧ set_id r = id ∧ is_current r = true.
Proof.
  unfold current_of_set. rewrite list_elem_of_In, filter_In, andb_true_iff, Z.eqb_eq, <- list_elem_of_In.
  naive_solver.
Qed.

(** The current results of a set are of distinct paths. *)
Lemma current_of_set_paths id l :
  NoDup (current_keys l) → NoDup (map rec_path (current_of_set id l)).
Proof.
  unfold current_of_set, current_keys. induction l as [|r l IH]; cbn [omap list_omap List.filter map]; [constructor|].
  destruct (current_key r) as [k|] eqn:E.
  - intros [Hk Hn]%NoDup_cons. apply current_key_Some in E as [Hc ->]. rewrite Hc, andb_true_r.
    destruct (set_id r =? id) eqn:Es; [|by apply IH]. cbn [map]. apply NoDup_cons. split; [|by apply IH].
    intros (x & Ex & Hx)%list_elem_of_fmap. apply Hk. fold (current_keys l). apply current_keys_elem.
    apply (current_of_set_elem id) in Hx as (Hx & Hid & Hcx). exists x. split; [done|].
    apply current_key_Some. split; [done|]. f_equal; [lia|done].
  - intros Hn. assert (is_current r = false) as ->; [|rewrite andb_false_r; by apply IH].
    apply not_true_iff_false. intros Hc. rewrite (proj2 (current_key_Some r _) (conj Hc eq_refl)) in E. done.
Qed.

Lemma count_state_positive x l :
  (0 <? count_state x l) = true ↔ ∃ r, r ∈ l ∧ state r = x.
Proof.
  unfold count_state, size. rewrite Z.ltb_lt. split.
  - intros Hp. destruct (List.filter _ l) as [|r k] eqn:E; [simpl in Hp; lia|].
    assert (r ∈ r :: k) as Hr by apply list_elem_of_here. rewrite <- E in Hr.
    apply list_elem_of_In, filter_In in Hr as [Hr Hs]. apply list_elem_of_In in Hr.
    apply eeqb_eq in Hs. by exists r.
  - intros (r & Hr & Hs). assert (r ∈ List.filter (λ r, eeqb (state r) x) l) as Hf.
    { apply list_elem_of_In, filter_In. split; [by apply list_elem_of_In|]. by apply eeqb_eq. }
    destruct (List.filter _ l); [by apply elem_of_nil in Hf|]. simpl. lia.
Qed.

Lemma count_state_zero x l :
  (count_state x l =? 0) = true ↔ ∀ r, r ∈ l → state r ≠ x.
Proof.
  pose proof (count_state_positive x l) as Hp. assert (0 <= count_state x l) by (unfold count_state, size; lia).
  split.
  - intros Hz r Hr Hx. assert ((0 <? count_state x l) = true) by (apply Hp; eauto). lia.
  - intros Hall. destruct (count_state x l =? 0) eqn:E; [done|].
    destruct (proj1 Hp) as (r & Hr & Hx); [lia|]. by destruct (Hall r Hr).
Qed.

Lemma cause_if_elem b c x : c ∈ cause_if b x ↔ b = true ∧ c = x.
Proof. destruct b; cbn; rewrite ?list_elem_of_singleton, ?elem_of_nil; naive_solver. Qed.

(** When each cause holds. *)
Definition cause_holds (s : ConstraintSet) (i : Impl) (c : CurrentnessCause.t) : Prop :=
  let ahead f := generation_for (im_evidence i) f < family_mark (im_watermarks i) f in
  let some st := ∃ r, r ∈ im_evaluations i ∧ set_id r = cs_id s ∧ state r = st in
  match c with
  | CurrentnessCause.ConstraintSetStateChanged => cs_state s ≠ ConstraintSetState.Active
  | CurrentnessCause.EvidenceRequirementChanged => requirements s ≠ im_evidence i
  | CurrentnessCause.DependencyInvalidated => some ResultState.RevalidationRequired
  | CurrentnessCause.RecoveredUnproven => some ResultState.RecoveredUnproven
  | CurrentnessCause.NoCurrentResult => ¬ some ResultState.Current
  | CurrentnessCause.PathAuthorityAdvanced => ahead EvidenceFamily.PathAuthority
  | CurrentnessCause.TopologyAdvanced => ahead EvidenceFamily.Topology
  | CurrentnessCause.LinkStateAdvanced => ahead EvidenceFamily.LinkState
  | CurrentnessCause.CapabilityAdvanced => ahead EvidenceFamily.Capability
  | CurrentnessCause.FailureDomainAdvanced => ahead EvidenceFamily.FailureDomain
  | CurrentnessCause.PolicyAdvanced => ahead EvidenceFamily.Policy
  | CurrentnessCause.PlannerAdvanced => ahead EvidenceFamily.Planner
  | _ => False
  end.

Lemma family_causes_elem i c :
  c ∈ concat (map (λ f, if generation_for (im_evidence i) f <? family_mark (im_watermarks i) f
                    then family_cause f else []) kFamilies) ↔
  ∃ f, f ∈ kFamilies ∧ generation_for (im_evidence i) f < family_mark (im_watermarks i) f ∧
    c ∈ family_cause f.
Proof.
  rewrite list_elem_of_In, in_concat. split.
  - intros (l & Hl & Hc). apply list_elem_of_In, list_elem_of_fmap in Hl as (f & -> & Hf).
    apply list_elem_of_In in Hc. exists f. destruct (_ <? _) eqn:E; [|by apply elem_of_nil in Hc].
    split_and!; [done|lia|done].
  - intros (f & Hf & Hlt & Hc). exists (family_cause f). split; [|by apply list_elem_of_In].
    apply list_elem_of_In, list_elem_of_fmap. exists f. split; [|done].
    by assert ((generation_for (im_evidence i) f <? family_mark (im_watermarks i) f) = true) as -> by lia.
Qed.

Lemma currentness_causes_elem s i c :
  c ∈ currentness_causes s (List.filter (λ r, set_id r =? cs_id s) (im_evaluations i)) i ↔ cause_holds s i c.
Proof.
  unfold currentness_causes. rewrite !elem_of_app, !cause_if_elem, family_causes_elem.
  rewrite !count_state_positive, count_state_zero, !negb_true_iff.
  assert (∀ st, (∃ r, r ∈ List.filter (λ r, set_id r =? cs_id s) (im_evaluations i) ∧ state r = st) ↔
    ∃ r, r ∈ im_evaluations i ∧ set_id r = cs_id s ∧ state r = st) as Hsome.
  { intros st. setoid_rewrite list_elem_of_In. setoid_rewrite filter_In. setoid_rewrite Z.eqb_eq. naive_solver. }
  rewrite !Hsome.
  assert ((∀ r, r ∈ List.filter (λ r, set_id r =? cs_id s) (im_evaluations i) → state r ≠ ResultState.Current) ↔
    ¬ ∃ r, r ∈ im_evaluations i ∧ set_id r = cs_id s ∧ state r = ResultState.Current) as ->.
  { rewrite <- Hsome. naive_solver. }
  assert (eeqb (cs_state s) ConstraintSetState.Active = false ↔ cs_state s ≠ ConstraintSetState.Active) as ->
    by (rewrite <- eeqb_eq, not_true_iff_false; done).
  assert (evidence_equal (requirements s) (im_evidence i) = false ↔ requirements s ≠ im_evidence i) as ->
    by (rewrite <- evidence_equal_eq, not_true_iff_false; done).
  clear Hsome. unfold cause_holds. cbv zeta.
  assert (∀ x, (∃ f, f ∈ kFamilies ∧ generation_for (im_evidence i) f < family_mark (im_watermarks i) f ∧
      c ∈ family_cause f) ↔ x →
    (x ↔ ∃ f, generation_for (im_evidence i) f < family_mark (im_watermarks i) f ∧ c ∈ family_cause f)) as Hx.
  { intros x <-. split; [intros (f & _ & Hr); by exists f|]. intros (f & Hlt & Hc). exists f.
    split; [|done]. destruct f; try (by apply elem_of_nil in Hc);
      unfold kFamilies; rewrite !elem_of_cons; auto 10. }
  rewrite (Hx _ (reflexivity _)). clear Hx.
  assert (∀ f, c ∈ family_cause f ↔ match family_cause f with [x] => c = x | _ => False end) as Hf.
  { intros []; cbn; rewrite ?list_elem_of_singleton, ?elem_of_nil; done. }
  setoid_rewrite Hf. clear Hf.
  destruct c; split; intros Hc; destruct_or?; destruct_and?; try done; auto 10.
  all: try (destruct Hc as ([] & Hlt & Hc); cbn in Hc; done).
  all: try (right; right; right; right; right).
  - by exists EvidenceFamily.PathAuthority.
  - by exists EvidenceFamily.Topology.
  - by exists EvidenceFamily.LinkState.
  - by exists EvidenceFamily.Capability.
  - by exists EvidenceFamily.FailureDomain.
  - by exists EvidenceFamily.Policy.
  - by exists EvidenceFamily.Planner.
Qed.

Definition cause_cmp (a b : CurrentnessCause.t) : Z := code a - code b.
#[export] Instance cause_cmp_order : CmpOrder cause_cmp.
Proof. unfold cause_cmp. split; intros; lia. Qed.

Section queries.
Context {D : Type} `{FileSystemLaws D}.

(** C22: Only current results are handed over, and only to readers. Handing over the
    results of a set succeeds exactly for a complete context of the current epoch that
    speaks for a live registration with the right to read results; what it answers are
    the current results of the set, one for each path, in the order of the paths. *)
Theorem handoffs_exact config t (d : D) requests s context id :
  unsigned_config config → reaches config t d requests s →
  let i := impl (world s) in
  (ok (handoffs context id i) = true ↔
     ac_attempt context ≠ 0 ∧ ac_epoch context ≠ 0 ∧ ac_epoch context = reg_epoch (im_authority i) ∧
     ∃ r, r ∈ registrations (im_authority i) ∧ speaks_for context r ∧
       holds_scopes (rg_scopes r) (scope_bit AuthorityScope.ReadResults)) ∧
  ∀ l, handoffs context id i = Success l →
    StronglySorted (λ a b, ho_path a < ho_path b) l ∧
    ∀ h, h ∈ l ↔ ∃ r, r ∈ im_evaluations i ∧ is_current r = true ∧ set_id r = id ∧ h = handoff_of r.
Proof.
  intros Hu Hr i. destruct (reaches_ok _ _ _ _ _ Hu Hr) as [Hok _ _]. fold i in Hok.
  unfold handoffs. split.
  - rewrite <- (authorized_iff _ _ _ _ (proj1 (co_registry _ Hok))).
    by destruct (Authority.authorize _ _ _).
  - intros l. destruct (Authority.authorize _ _ _); [|done]. cbn [rbind]. intros [= <-]. split.
    + assert (NoDup (map ho_path (map handoff_of (current_of_set id (im_evaluations i))))) as Hn.
      { rewrite map_map. apply current_of_set_paths, Hok. }
      assert (∀ a b, (ho_path a <? ho_path b) = (handoff_cmp a b <? 0)) as Hless
        by (unfold handoff_cmp; intros; lia).
      pose proof (stable_sort_sorted _ _ Hless (map handoff_of (current_of_set id (im_evaluations i)))) as Hs.
      rewrite <- (Permutation_map ho_path (stable_sort_perm (λ a b, ho_path a <? ho_path b) _)) in Hn.
      revert Hn Hs. generalize (stable_sort (λ a b, ho_path a <? ho_path b)
        (map handoff_of (current_of_set id (im_evaluations i)))). clear.
      intros l Hn Hs. induction Hs as [|h l Hs IH Hh]; constructor; cbn [map] in Hn;
        apply NoDup_cons in Hn as [Hx Hn]; [by apply IH|].
      apply Forall_forall. intros x Hin. rewrite Forall_forall in Hh. specialize (Hh x Hin).
      unfold handoff_cmp in Hh. assert (ho_path h ≠ ho_path x); [|lia]. intros E. apply Hx. rewrite E.
      by apply (list_elem_of_fmap_2 ho_path).
    + intros h. rewrite stable_sort_elem, list_elem_of_fmap. setoid_rewrite current_of_set_elem. naive_solver.
Qed.

(** The current result of a set and path. In a durable coordinator the query
    answers exactly the record that is current for the set and path; when there is
    none it says so, and it never finds its index inconsistent. *)
Theorem current_result_exact config t (d : D) requests s id p :
  unsigned_config config → reaches config t d requests s → im_store (impl (world s)) ≠ None →
  let i := impl (world s) in
  (∀ r, current_result id p i = Success r ↔
     r ∈ im_evaluations i ∧ is_current r = true ∧ set_id r = id ∧ rec_path r = p) ∧
  (ok (current_result id p i) = false →
     current_result id p i = Failure ErrorCode.NotFound "no current result for this path").
Proof.
  intros Hu Hr Hst i. destruct (reaches_ok _ _ _ _ _ Hu Hr) as [Hok Hd _].
  pose proof (durable_ids _ Hd Hst) as Hids. fold i in Hok, Hids.
  assert (∀ r, r ∈ im_evaluations i →
    List.find (λ x, rec_id x =? rec_id r) (im_evaluations i) = Some r) as Hfind.
  { clear - Hids. induction (im_evaluations i) as [|x l IH]; intros r Hin; [by apply elem_of_nil in Hin|].
    cbn [map] in Hids. apply NoDup_cons in Hids as [Hx Hn]. cbn [List.find].
    apply elem_of_cons in Hin as [->|Hin]; [by rewrite Z.eqb_refl|].
    destruct (rec_id x =? rec_id r) eqn:E; [|by apply IH]. exfalso. apply Hx.
    assert (rec_id x = rec_id r) as -> by lia. by apply (list_elem_of_fmap_2 rec_id). }
  unfold current_result. destruct (im_current i !! (id, p)) as [e|] eqn:E.
  - pose proof E as E0. apply derived_current in E as (x & Hin & [Hc [= -> ->]]%current_key_Some & <-); [|apply Hok..].
    rewrite (Hfind x Hin). split; [|done]. intros r. split; [by intros [= <-]|].
    intros (Hr' & Hc' & Hs & Hp). f_equal.
    assert (im_current i !! (set_id r, rec_path r) = Some (rec_id r)) as E1.
    { apply derived_current; [apply Hok..|]. exists r. by rewrite current_key_Some. }
    assert (im_current i !! (set_id x, rec_path x) = Some (rec_id x)) as E2.
    { apply derived_current; [apply Hok..|]. exists x. by rewrite current_key_Some. }
    rewrite Hs, Hp, E2 in E1. injection E1 as E1. pose proof (Hfind r Hr') as F1. rewrite <- E1, (Hfind x Hin) in F1.
    by injection F1.
  - split; [|done]. intros r. split; [done|]. intros (Hr' & Hc & <- & <-).
    assert (im_current i !! (set_id r, rec_path r) = Some (rec_id r)) as E1.
    { apply derived_current; [apply Hok..|]. exists r. by rewrite current_key_Some. }
    congruence.
Qed.

(** The currentness report. It exists exactly for a known set, and lists, in
    order and once, exactly the causes that hold: the set is not active; its declared
    evidence is not the required one; a result waits for revalidation, or was
    recovered and is unproven; no result is current; a watermark is ahead of the
    evidence generation of its family. *)
Theorem currentness_exact id i :
  match find_set id (im_sets i) with
  | None => ok (currentness id i) = false
  | Some s => ∃ report, currentness id i = Success report ∧
      rp_set_generation report = cs_generation s ∧ rp_state report = cs_state s ∧
      (rp_publisher_authority_live report = true ↔ live_publishers (im_authority i) ≠ 0) ∧
      StronglySorted (λ a b, code a < code b) (rp_causes report) ∧
      ∀ c, c ∈ rp_causes report ↔ cause_holds s i c
  end.
Proof.
  unfold currentness. destruct (find_set id (im_sets i)) as [s|] eqn:E; [|done].
  apply find_set_Some in E as [_ <-]. eexists. split; [reflexivity|].
  cbn [rp_set_generation rp_state rp_publisher_authority_live rp_causes]. split_and!; [done|done| | |].
  - rewrite negb_true_iff. apply Z.eqb_neq.
  - set (l := currentness_causes _ _ _).
    assert (∀ a b, cause_less a b = (cause_cmp a b <? 0)) as Hless
      by (unfold cause_less, cause_cmp; intros; lia).
    assert (∀ a b, eeqb a b = true ↔ a = b) as Heq by (intros; apply eeqb_eq).
    assert (∀ a b, cause_cmp a b = 0 → a = b) as Hc.
    { intros a b. unfold cause_cmp. intros Hab. apply eeqb_eq. unfold eeqb. lia. }
    pose proof (unique_by_sorted cause_cmp _ Heq Hc _ (stable_sort_sorted _ _ Hless l)) as Hs.
    unfold ordered_causes. revert Hs. generalize (unique_by eeqb (stable_sort cause_less l)). clear.
    intros l Hs. induction Hs as [|x l Hs IH Hx]; constructor; [done|].
    eapply Forall_impl; [exact Hx|]. unfold cause_cmp. intros y Hy. lia.
  - intros c. unfold ordered_causes. rewrite (unique_by_elem _ (λ a b, eeqb_eq a b)), stable_sort_elem.
    apply currentness_causes_elem.
Qed.
End queries.

(** ** Recovery *)

Section recovery.
Context {D : Type} `{FileSystemLaws D}.

Lemma nobody_authorized context required g :
  registrations g = [] → ok (Authority.authorize context required g) = false.
Proof.
  intros Hr. unfold Authority.authorize. rewrite Hr.
  destruct (_ || _); [done|]. destruct (_ || _); [done|]. by destruct (is_boot_fenced _ _).
Qed.

(** Without a current result both derived maps are empty. *)
Lemma nothing_derived i :
  derived i → current_keys (im_evaluations i) = [] →
  (∀ k, im_current i !! k = None) ∧ ∀ k e, e ∉ dependents k (im_index i).
Proof.
  intros Hd Hn. assert (∀ r, r ∈ im_evaluations i → is_current r = false) as Hnone.
  { intros r Hr. apply not_true_iff_false. intros Hc.
    assert ((set_id r, rec_path r) ∈ current_keys (im_evaluations i)) as Hin.
    { apply current_keys_elem. exists r. by rewrite current_key_Some. }
    rewrite Hn in Hin. by apply elem_of_nil in Hin. }
  split.
  - intros k. apply eq_None_not_Some. intros [e He].
    apply (derived_current i k e Hd) in He as (r & Hr & [Hc _]%current_key_Some & _); [|rewrite Hn; constructor].
    by rewrite Hnone in Hc.
  - intros k e He. apply (derived_index i Hd) in He as (r & Hr & Hc & _). by rewrite Hnone in Hc.
Qed.

(** C6: Recovery. A coordinator that opens on a store it can load starts a new epoch. When
    the store has an epoch (one that is not 0, as after the first open), the new epoch
    follows it, and exactly the boots that were live or fenced are fenced. Nobody is
    authorized to do anything; the sets, populations, evidence generations, watermarks
    and the generation counter are those of the store; and no result is current any more
    — each is kept as recovered and unproven, and neither derived map binds anything. All
    of it is in the store file before the coordinator is handed out. *)
Theorem recovery config t (d d' : D) i :
  unsigned_config config → cf_store_path config ≠ "" →
  Coordinator.open config t d = (Success i, d') →
  let path := cf_store_path config in
  ∃ d1, (∀ q, q ≠ (path ++ ".lock")%string → contents d1 q = contents d q) ∧
  ∀ st, load (mkStore path (cf_limits config) 0 0) d1 = Success st →
    (ps_epoch st ≠ 0 →
       reg_epoch (im_authority i) = ps_epoch st + 1 ∧
       ∀ b, is_boot_fenced b (im_authority i) = true ↔
         b ∈ ps_live_boots st ∨ b ∈ map fb_boot (ps_fenced_boots st)) ∧
    (∀ context required, ok (Authority.authorize context required (im_authority i)) = false) ∧
    im_sets i = ps_sets st ∧ im_populations i = ps_populations st ∧ im_evidence i = ps_evidence st ∧
    im_watermarks i = ps_watermarks st ∧ im_last_generation i = ps_last_evaluation_generation st ∧
    im_evaluations i = map (with_state ResultState.RecoveredUnproven) (ps_evaluations st) ∧
    (∀ k, im_current i !! k = None) ∧ (∀ k e, e ∉ dependents k (im_index i)) ∧
    contents d' path = Some (encode_envelope (encode_persistent_state (to_state i) [])).
Proof.
  intros Hu Hpath Ho path. pose proof (open_ok _ _ _ _ _ Hu Ho) as [Hok _ _]. cbn [world impl] in Hok.
  apply open_started in Ho as (HL & store & restored & d2 & Hs & Hst).
  destruct store as [store|]; [|by destruct Hst].
  destruct Hst as (-> & Hopen & Hread). apply open_store in Hopen as (_ & d1 & Hd1 & Hload).
  exists d1. split; [done|]. intros st Hst. fold path in Hload, Hread. rewrite Hst in Hload. subst d2.
  assert (restored = Some st) as ->.
  { unfold read_store in Hread. assert (exists_ (mkStore path (cf_limits config) 0 0) d1 = true) as Hex.
    { apply load_envelope in Hst as (payload & Hc & _). apply law_exists. intros Hn.
      cbn [store_path] in Hc, Hn. congruence. }
    rewrite Hex, Hst in Hread. by injection Hread. }
  pose proof (load_restorable (mkStore path (cf_limits config) 0 0) _ _ HL Hst) as (Hsok & _ & _). cbn [store_limits] in Hsok.
  pose proof (start_registrations _ _ _ _ _ _ _ Hs) as Hreg.
  unfold start in Hs. destruct (next_authority (Some st) t) as [g|] eqn:Eg; [|done].
  destruct (persist _ _) as [[[]|] w] eqn:Ep; [|done]. injection Hs as <- <-.
  apply persist_spec in Ep as (s & Hsid & Hi & Hsaved & _). specialize (Hsaved eq_refl). cbn [impl] in Hi, Hsid.
  assert (im_store (initial_impl config (Some (mkStore path (cf_limits config) 0 0)) g (Some st)) =
    Some (mkStore path (cf_limits config) 0 0)) as Estore by done.
  fold path in Hi, Hsid. rewrite Estore in Hsid. destruct s as [s|]; [|done]. injection Hsid as Hsp Hsl.
  unfold saved in Hsaved. rewrite Hi in Hsaved. cbn [im_store with_store] in Hsaved. rewrite Hsp in Hsaved.
  assert (current_keys (im_evaluations (impl w)) = []) as Hnone.
  { rewrite Hi. apply (initial_current config _ g (Some st)). }
  destruct (nothing_derived (impl w) (co_derived _ Hok) Hnone) as [Hn1 Hn2].
  apply next_authority_spec in Eg as (_ & _ & Hauth).
  assert (im_authority (impl w) = g) as Eauth by (by rewrite Hi).
  split_and!; try done; try (by rewrite Hi).
  - intros He. assert (is_valid (ps_epoch st) = true) as Hv by (by apply is_valid_true).
    rewrite Hv in Hauth. destruct Hauth as [Hepoch Hfenced]. rewrite Eauth. split; [done|]. intros b.
    rewrite is_boot_fenced_true, Hfenced, <- is_boot_fenced_true, restore_fenced_spec, fence_live_boots_elem.
    rewrite list_elem_of_fmap.
    destruct (sk_live _ _ Hsok) as [Hl _]. destruct (sk_fenced _ _ Hsok) as [Hf _].
    rewrite Forall_forall in Hl. rewrite Forall_forall in Hf. split.
    + intros [_ [(r & Hr & <-)|Hb]]; [right; by exists r|by left].
    + intros [Hb|(r & -> & Hr)]; (split; [first [by apply Hl|by apply Hf]|]); [by right|left; by exists r].
  - intros context required. by apply nobody_authorized.
  - rewrite Hi. apply Hsaved.
Qed.
End recovery.

(** ** Witnesses *)

(** A durable coordinator on an empty disk, and the runs of one publisher that registers,
    declares the sample set, activates it, and evaluates two paths against it. *)
Definition sample_config : CoordinatorConfig :=
  mkConfig default_limits "store" [mkGrant 7 127] false sample_requirements 16.
Definition empty_disk : MemoryDisk := mkDisk ∅ 1000000 ∅.
Definition sample_opened : Result Impl * MemoryDisk := Coordinator.open sample_config 5 empty_disk.
Definition idle_impl : Impl := initial_impl sample_config None empty_registry None.
Definition sample_system (requests : list Request) : System MemoryDisk :=
  serve requests (mkSystem (mkWorld
    (match sample_opened.1 with Success i => i | Failure _ _ => idle_impl end) sample_opened.2) []).

Definition sample_caller (attempt : Z) : AuthorityContext := mkAuthority 1 7 20 attempt attempt 101 0.
Definition activated : list Request :=
  [Register (sample_caller 1) 7 20 127 101 6; Publish (sample_caller 2) sample_set 7 8;
   Lifecycle_ (sample_caller 4) 7 LifecycleEvent.Activate 10].
Definition begun : list Request :=
  activated ++ [Begin (sample_caller 5) 7 [sample_candidate 1 7; sample_candidate 2 7] 1 11 12].
Definition committed : list Request := begun ++ [Commit 0].

#[local] Opaque sample_system.

Lemma sample_unsigned : unsigned_config sample_config.
Proof. split; [apply (bool_decide_unpack _); vm_compute; exact I|]. by split_and!. Qed.

Lemma sample_reaches requests : reaches sample_config 5 empty_disk requests (sample_system requests).
Proof.
  assert (ok sample_opened.1 = true) as Hok by (vm_compute; reflexivity).
  Transparent sample_system. unfold reaches, sample_system, sample_opened in *. Opaque sample_system.
  destruct (Coordinator.open sample_config 5 empty_disk) as [[i|] d]; [|done]. by exists i, d.
Qed.

Lemma sample_ok requests : sys_ok (sample_system requests).
Proof. exact (reaches_ok _ _ _ _ _ sample_unsigned (sample_reaches requests)). Qed.

Lemma sample_system_app first second :
  sample_system (first ++ second) = serve second (sample_system first).
Proof. Transparent sample_system. unfold sample_system, serve. Opaque sample_system. apply fold_left_app. Qed.

(** The states of these runs, computed once. The two derived structures of a state are
    left to [rebuild_derived]. *)
Definition bare (i : Impl) : Impl :=
  mkImpl (im_config i) (im_store i) (im_authority i) (im_evidence i) (im_watermarks i) (im_sets i)
    (im_evaluations i) (im_populations i) ∅ empty_index (im_last_generation i) (im_invalidation_sequence i).

Lemma rebuild_bare i : derived i → rebuild_derived (bare i) = i.
Proof. intros <-. reflexivity. Qed.

Definition run_begin : Request :=
  Begin (sample_caller 5) 7 [sample_candidate 1 7; sample_candidate 2 7] 1 11 12.
Definition activated_system : System MemoryDisk := Eval vm_compute in sample_system activated.
Definition begun_system : System MemoryDisk := Eval vm_compute in handle run_begin activated_system.
Definition parts (s : System MemoryDisk) : Impl * MemoryDisk := (bare (impl (world s)), disk (world s)).
Definition committed_parts : Impl * MemoryDisk := Eval vm_compute in
  parts (handle (Commit 0) begun_system).
Definition committed_system : System MemoryDisk :=
  mkSystem (mkWorld (rebuild_derived committed_parts.1) committed_parts.2) [].

Lemma sample_activated : sample_system activated = activated_system.
Proof. vm_cast_no_check (eq_refl activated_system). Qed.

Lemma begun_activated : handle run_begin activated_system = begun_system.
Proof. vm_cast_no_check (eq_refl begun_system). Qed.

Lemma committed_begun : parts (handle (Commit 0) begun_system) = committed_parts.
Proof. vm_cast_no_check (eq_refl committed_parts). Qed.

Lemma committed_pending : pending (handle (Commit 0) begun_system) = [].
Proof. lazy. reflexivity. Qed.

#[local] Opaque activated_system begun_system committed_parts.

Lemma sample_begun : sample_system begun = begun_system.
Proof.
  unfold begun. rewrite sample_system_app, sample_activated. exact begun_activated.
Qed.

Lemma sample_committed : sample_system committed = committed_system.
Proof.
  unfold committed_system. rewrite <- committed_begun. cbn [parts fst snd].
  pose proof (sample_ok committed) as [Hok _ _]. revert Hok.
  assert (sample_system committed = handle (Commit 0) begun_system) as ->.
  { unfold committed. rewrite sample_system_app, sample_begun. reflexivity. }
  generalize committed_pending. generalize (handle (Commit 0) begun_system).
  intros [[i d] p] Hp Hok. cbn [pending] in Hp. rewrite Hp. cbn [world impl disk] in *.
  rewrite (rebuild_bare _ (co_derived _ Hok)). reflexivity.
Qed.

Definition sample_impl (requests : list Request) : Impl := impl (world (sample_system requests)).

Lemma committed_reaches : reaches sample_config 5 empty_disk committed committed_system.
Proof. rewrite <- sample_committed. apply sample_reaches. Qed.

Lemma sample_durable : im_store (impl (world committed_system)) ≠ None.
Proof. vm_compute. discriminate. Qed.

(** The run with both results current, and the invariant in it. *)
Lemma coordinator_invariant_witness :
  map (λ r, (rec_path r, state r)) (im_evaluations (sample_impl committed)) =
    [(1, ResultState.Current); (2, ResultState.Current)] ∧
  NoDup (current_keys (im_evaluations (sample_impl committed))) ∧
  registry_ok default_limits (im_authority (sample_impl committed)).
Proof.
  unfold sample_impl. rewrite sample_committed. split; [vm_compute; reflexivity|].
  destruct (coordinator_invariant sample_config 5 empty_disk committed _ sample_unsigned
    committed_reaches) as (Hreg & _ & _ & Hc & _).
  split; [exact Hc|]. assert (im_limits (impl (world committed_system)) = default_limits) as E by (vm_compute; reflexivity).
  rewrite <- E. exact Hreg.
Defined.

Lemma published_data_durable_witness :
  size (im_evaluations (impl (world (sample_system committed)))) = 2 ∧
  ∃ store st, contents (disk (world (sample_system committed))) (store_path store) =
    Some (encode_envelope (encode_persistent_state st [])) ∧
  ps_evaluations st = im_evaluations (impl (world (sample_system committed))).
Proof.
  rewrite sample_committed. split; [vm_compute; reflexivity|]. pose proof sample_durable as Hd.
  apply not_eq_None_Some in Hd as [store Es].
  destruct (published_data_durable sample_config 5 empty_disk committed _ store sample_unsigned
    committed_reaches Es) as (st & Hc & _ & Hh).
  exists store, st. split; [exact Hc|]. apply (hd_evaluations _ _ Hh).
Defined.

Lemma authority_within_grants_witness : ∃ r,
  r ∈ registrations (im_authority (sample_impl activated)) ∧ rg_live r = true ∧ granted sample_config r.
Proof.
  unfold sample_impl. rewrite sample_activated. pose proof (sample_reaches activated) as Hr0.
  rewrite sample_activated in Hr0.
  assert (∃ r, registrations (im_authority (impl (world activated_system))) = [r] ∧ rg_live r = true) as (r & Hr & Hl)
    by (eexists; split; vm_compute; reflexivity).
  exists r. assert (r ∈ registrations (im_authority (impl (world activated_system)))) as Hin
    by (rewrite Hr; apply list_elem_of_here).
  split; [exact Hin|]. split; [exact Hl|].
  apply (authority_within_grants sample_config 5 empty_disk activated _ r sample_unsigned
    Hr0 Hin Hl).
Defined.

(** A context of the next epoch is refused. *)
Lemma denied_request_inert_witness :
  let stranger := mkAuthority 2 7 20 9 9 101 0 in
  handle (Invalidate stranger (mkKey InvalidationKeyKind.Node 10) 13) (sample_system committed) =
    sample_system committed.
Proof.
  cbv zeta. rewrite sample_committed. apply (denied_request_inert _ (mkAuthority 2 7 20 9 9 101 0) AuthorityScope.PublishEvaluation);
    [reflexivity|vm_compute; reflexivity].
Defined.

Lemma generations_never_decrease_witness :
  let raise := [SetEvidence (sample_caller 6) (mkRequirements 1 1 4 1 1 1 1 1000) 13] in
  generation_for (im_evidence (sample_impl committed)) EvidenceFamily.Capability = 1 ∧
  generation_for (im_evidence (impl (world (serve raise (sample_system committed)))))
    EvidenceFamily.Capability = 4 ∧
  marks_le (im_watermarks (sample_impl committed))
    (im_watermarks (impl (world (serve raise (sample_system committed))))).
Proof.
  cbv zeta. unfold sample_impl. rewrite sample_committed.
  split; [vm_compute; reflexivity|]. split; [vm_compute; reflexivity|].
  destruct (generations_never_decrease sample_config 5 empty_disk committed
    [SetEvidence (sample_caller 6) (mkRequirements 1 1 4 1 1 1 1 1000) 13] committed_system
    sample_unsigned committed_reaches) as (_ & _ & Hw & _). exact Hw.
Defined.

Lemma trim_history_bounded_witness :
  size (trim_history 1 (im_evaluations (sample_impl committed))) = 2 ∧
  (size (trim_history 1 (im_evaluations (sample_impl committed))) <= 1 ∨
   Forall (λ r, is_current r = true) (trim_history 1 (im_evaluations (sample_impl committed)))).
Proof.
  unfold sample_impl. rewrite sample_committed. split; [vm_compute; reflexivity|].
  destruct (trim_history_bounded 1 (im_evaluations (impl (world committed_system)))) as (e & _ & _ & _ & _ & H & _);
    [lia|exact H].
Defined.

(** The evaluation that waits for its commit, when nothing happened and after the
    topology advanced. *)
Definition advance : Request := SetEvidence (sample_caller 6) (mkRequirements 2 1 1 1 1 1 1 1000) 13.
Definition overtaken : list Request := begun ++ [advance].
Definition sample_pending (requests : list Request) : Pending :=
  match pending (sample_system requests) with
  | p :: _ => p
  | [] => mkPending 0 [] 0 (mkSnapshot sample_set sample_requirements 0 0)
      (mkBatch 0 0 0 BatchOutcome.BatchRejected false [] [] ReasonCode.None)
  end.

Definition completed (requests : list Request) : Result CommitOutcome * World MemoryDisk :=
  commit_evaluation (sample_pending requests) (world (sample_system requests)).

Definition overtaken_system : System MemoryDisk := Eval vm_compute in handle advance begun_system.

Lemma overtaken_begun : handle advance begun_system = overtaken_system.
Proof. vm_cast_no_check (eq_refl overtaken_system). Qed.

Lemma sample_overtaken : sample_system overtaken = overtaken_system.
Proof. unfold overtaken. rewrite sample_system_app, sample_begun. exact overtaken_begun. Qed.

Lemma sample_pending_lookup requests s :
  sample_system requests = s → length (pending s) = 1%nat →
  pending s !! 0%nat = Some (sample_pending requests).
Proof. intros <-. unfold sample_pending. by destruct (pending _). Qed.

Lemma completed_begun : ok (completed begun).1 = true.
Proof. unfold completed, sample_pending. rewrite sample_begun. vm_compute. reflexivity. Qed.

Lemma stale_evaluation_never_commits_witness :
  (completed overtaken).2 = world (sample_system overtaken) ∧
  current_of_set (pd_set (sample_pending begun)) (im_evaluations (impl (completed begun).2)) =
    map (committed_record (pd_tick (sample_pending begun))) (records (pd_batch (sample_pending begun))) ∧
  length (records (pd_batch (sample_pending begun))) = 2%nat.
Proof.
  assert (length (pending overtaken_system) = 1%nat) as L1 by (vm_compute; reflexivity).
  assert (length (pending begun_system) = 1%nat) as L2 by (vm_compute; reflexivity).
  pose proof (sample_pending_lookup overtaken _ sample_overtaken L1) as P1.
  pose proof (sample_pending_lookup begun _ sample_begun L2) as P2.
  pose proof (sample_reaches overtaken) as R1. pose proof (sample_reaches begun) as R2.
  rewrite sample_overtaken in R1. rewrite sample_begun in R2.
  assert (commit_staleness (pd_set (sample_pending overtaken)) (pd_snapshot (sample_pending overtaken))
    (impl (world overtaken_system)) ≠ None) as Hmoved.
  { unfold sample_pending. rewrite sample_overtaken. vm_compute. discriminate. }
  assert (commit_staleness (pd_set (sample_pending begun)) (pd_snapshot (sample_pending begun))
    (impl (world begun_system)) = None) as Hstill.
  { unfold sample_pending. rewrite sample_begun. vm_compute. reflexivity. }
  assert (length (records (pd_batch (sample_pending begun))) = 2%nat) as Hlen.
  { unfold sample_pending. rewrite sample_begun. vm_compute. reflexivity. }
  pose proof completed_begun as Hok. unfold completed in *. rewrite sample_overtaken, sample_begun in *.
  rewrite commit_staleness_unmoved in Hmoved. rewrite commit_staleness_unmoved in Hstill.
  split; [|split; [|exact Hlen]].
  - destruct (stale_evaluation_never_commits sample_config 5 empty_disk overtaken _ 0 _ _ _
      sample_unsigned R1 P1 (surjective_pairing _)) as (H1 & _).
    destruct (H1 Hmoved) as [Hw _]. exact Hw.
  - destruct (stale_evaluation_never_commits sample_config 5 empty_disk begun _ 0 _ _ _
      sample_unsigned R2 P2 (surjective_pairing _)) as (_ & H2 & _).
    destruct (H2 Hstill Hok) as (_ & Hc & _). exact Hc.
Defined.

Lemma success_op {D} (m : op D ()) w : ok (m w).1 = true → m w = (success, (m w).2).
Proof. by destruct (m w) as [[[]|] w']. Qed.

(** A publication by an unknown caller fails and changes no published data. *)
Lemma mutations_all_or_nothing_witness :
  let attempt := publish_constraint_set (mkAuthority 1 8 20 9 9 101 0) sample_set 13 14
    (world (sample_system committed)) in
  ok attempt.1 = false ∧ file attempt.2 = file (world (sample_system committed)).
Proof.
  cbv zeta. rewrite sample_committed. assert (ok (publish_constraint_set (mkAuthority 1 8 20 9 9 101 0) sample_set 13 14
    (world committed_system)).1 = false) as Hf by (vm_compute; reflexivity).
  split; [exact Hf|].
  destruct (mutations_all_or_nothing sample_config 5 empty_disk committed _ sample_unsigned
    committed_reaches) as (Hp & _).
  destruct (Hp (mkAuthority 1 8 20 9 9 101 0) sample_set 13 14 _ _ (surjective_pairing _)) as [H1 _].
  destruct (H1 (or_introl Hf)) as [_ Hfile]. exact Hfile.
Defined.

Lemma fresh_attempt context payload i :
  find_attempt (ac_attempt context) (im_authority i) = None → ¬ replayed context payload i.
Proof. intros Hn (x & Hx & _). congruence. Qed.

#[local] Instance result_state_eq_dec : EqDecision ResultState.t.
Proof. solve_decision. Defined.

(** A change that succeeded and left the two results to be evaluated again. *)
Definition revalidated (r : Status * World MemoryDisk) : bool :=
  ok r.1 && bool_decide (map state (im_evaluations (impl r.2)) =
    [ResultState.RevalidationRequired; ResultState.RevalidationRequired]).

Lemma in_revalidation (r : Status * World MemoryDisk) :
  revalidated r = true →
  ok r.1 = true ∧ map state (im_evaluations (impl r.2)) =
    [ResultState.RevalidationRequired; ResultState.RevalidationRequired].
Proof. intros [H1 H2]%andb_true_iff. split; [exact H1|]. exact (bool_decide_eq_true_1 _ H2). Qed.

(** Both results depend on the node 10. *)
Definition invalidated : op MemoryDisk () :=
  invalidate_key (sample_caller 6) (mkKey InvalidationKeyKind.Node 10) 13.

Lemma invalidation_precise_witness :
  let w' := (invalidated (world (sample_system committed))).2 in
  map state (im_evaluations (impl w')) =
    [ResultState.RevalidationRequired; ResultState.RevalidationRequired] ∧
  im_sets (impl w') = im_sets (impl (world (sample_system committed))).
Proof.
  cbv zeta. rewrite sample_committed.
  destruct (in_revalidation (invalidated (world committed_system))) as [Hok Hst]; [vm_compute; reflexivity|].
  split; [exact Hst|].
  apply success_op in Hok. unfold invalidated in *.
  assert (find_attempt (ac_attempt (sample_caller 6)) (im_authority (impl (world committed_system)))
    = None) as Hn by (vm_compute; reflexivity).
  pose proof sample_durable as Hd.
  destruct (invalidation_precise sample_config 5 empty_disk committed _ _ _ _
    _ sample_unsigned committed_reaches Hd (fresh_attempt _ _ _ Hn) Hok) as (_ & Hs & _).
  exact Hs.
Defined.

Definition advanced : op MemoryDisk () :=
  set_evidence_requirements (sample_caller 6) (mkRequirements 2 1 1 1 1 1 1 1000) 13.

Lemma evidence_advance_precise_witness :
  let w' := (advanced (world (sample_system committed))).2 in
  map state (im_evaluations (impl w')) =
    [ResultState.RevalidationRequired; ResultState.RevalidationRequired] ∧
  im_evidence (impl w') = mkRequirements 2 1 1 1 1 1 1 1000.
Proof.
  cbv zeta. rewrite sample_committed.
  destruct (in_revalidation (advanced (world committed_system))) as [Hok Hst]; [vm_compute; reflexivity|].
  split; [exact Hst|].
  apply success_op in Hok. unfold advanced in *.
  assert (find_attempt (ac_attempt (sample_caller 6)) (im_authority (impl (world committed_system)))
    = None) as Hn by (vm_compute; reflexivity).
  pose proof sample_durable as Hd.
  destruct (evidence_advance_precise sample_config 5 empty_disk committed _ _ _ _
    _ sample_unsigned committed_reaches Hd (fresh_attempt _ _ _ Hn) Hok) as (_ & He & _).
  exact He.
Defined.

(** Publishing the sample set again, with a fourth constraint dropped from its name only:
    the content changes, so does the generation. *)
Definition renamed_set : ConstraintSet :=
  mkSet 7 2 ConstraintSetState.Declared "renamed" (constraints sample_set) sample_requirements
    default_ranking zero_digest 5.
Definition republish : op MemoryDisk ConstraintSet :=
  publish_constraint_set (sample_caller 6) renamed_set 13 14.

(** What a computed answer is. *)
Definition answers {A} (p : A → bool) (r : Result A) : bool :=
  match r with Success a => p a | Failure _ _ => false end.
Lemma answers_Success {A} (p : A → bool) r : answers p r = true → ∃ a, r = Success a ∧ p a = true.
Proof. destruct r as [a|]; [|done]. by exists a. Qed.
Lemma answers_op {A B} (p : A → bool) (r : Result A * B) :
  answers p r.1 = true → ∃ a b, r = (Success a, b) ∧ p a = true.
Proof. destruct r as [[a|] b]; [|done]. by exists a, b. Qed.

Lemma publish_effect_witness :
  ∃ a w', republish (world (sample_system committed)) = (Success a, w') ∧
    accepted default_limits (with_declared_tick 14 renamed_set) ∧
    current_of_set 7 (im_evaluations (impl w')) = [].
Proof.
  rewrite sample_committed.
  assert (answers (λ _, true) (republish (world committed_system)).1 = true) as Hok
    by (vm_compute; reflexivity).
  assert (find_attempt (ac_attempt (sample_caller 6)) (im_authority (impl (world committed_system)))
    = None) as Hn by (vm_compute; reflexivity).
  assert (im_limits (impl (world committed_system)) = default_limits) as El by (vm_compute; reflexivity).
  apply answers_op in Hok as (a & w' & E & _). exists a, w'. split; [exact E|]. unfold republish in E.
  destruct (publish_effect _ _ _ _ _ _ _ (fresh_attempt _ _ _ Hn) E) as (Hacc & _ & _ & Hcur & _).
  rewrite El in Hacc. split; [exact Hacc|]. exact (Hcur 7).
Defined.

Definition suspend : op MemoryDisk ConstraintSet :=
  apply_lifecycle (sample_caller 6) 7 LifecycleEvent.Suspend 13.

Lemma lifecycle_effect_witness :
  ∃ a w', suspend (world (sample_system committed)) = (Success a, w') ∧
    cs_state a = ConstraintSetState.Suspended ∧ find_set 7 (im_sets (impl w')) = Some a.
Proof.
  rewrite sample_committed.
  assert (answers (λ a, eeqb (cs_state a) ConstraintSetState.Suspended)
    (suspend (world committed_system)).1 = true) as Hok by (vm_compute; reflexivity).
  assert (find_attempt (ac_attempt (sample_caller 6)) (im_authority (impl (world committed_system)))
    = None) as Hn by (vm_compute; reflexivity).
  apply answers_op in Hok as (a & w' & E & Ha). exists a, w'. split; [exact E|].
  split; [apply eeqb_eq; exact Ha|]. unfold suspend in E.
  destruct (lifecycle_effect _ _ _ _ _ _ _ (fresh_attempt _ _ _ Hn) E) as (target & _ & _ & _ & Hf & _).
  exact (Hf 7).
Defined.

Lemma handoffs_exact_witness :
  ∃ l, handoffs (sample_caller 9) 7 (impl (world (sample_system committed))) = Success l ∧
    map ho_path l = [1; 2] ∧ StronglySorted (λ a b, ho_path a < ho_path b) l.
Proof.
  rewrite sample_committed.
  assert (answers (λ l, bool_decide (map ho_path l = [1; 2]))
    (handoffs (sample_caller 9) 7 (impl (world committed_system))) = true) as Hok
    by (vm_compute; reflexivity).
  apply answers_Success in Hok as (l & E & Hl). exists l. split; [exact E|].
  split; [apply (bool_decide_eq_true_1 _ Hl)|].
  destruct (handoffs_exact sample_config 5 empty_disk committed _ (sample_caller 9) 7 sample_unsigned
    committed_reaches) as [_ H].
  destruct (H l E) as [Hs _]. exact Hs.
Defined.

Lemma current_result_exact_witness :
  (∃ r, current_result 7 2 (impl (world (sample_system committed))) = Success r ∧
    is_current r = true ∧ rec_path r = 2) ∧
  current_result 7 3 (impl (world (sample_system committed))) =
    Failure ErrorCode.NotFound "no current result for this path".
Proof.
  rewrite sample_committed.
  pose proof sample_durable as Hd.
  assert (answers (λ _, true) (current_result 7 2 (impl (world committed_system))) = true) as H2
    by (vm_compute; reflexivity).
  assert (ok (current_result 7 3 (impl (world committed_system))) = false) as H3
    by (vm_compute; reflexivity).
  destruct (current_result_exact sample_config 5 empty_disk committed _ 7 2 sample_unsigned
    committed_reaches Hd) as [Hr _].
  destruct (current_result_exact sample_config 5 empty_disk committed _ 7 3 sample_unsigned
    committed_reaches Hd) as [_ Hn].
  apply answers_Success in H2 as (r & E & _). split; [|exact (Hn H3)].
  exists r. apply Hr in E as Hx. destruct Hx as (_ & Hc & _ & Hp). split; [exact E|]. split; [exact Hc|exact Hp].
Defined.

(** The disk the run left, its lock released, opened again. *)
Definition left_disk : MemoryDisk := release_store_lock "store" (disk (world committed_system)).

Lemma recovery_witness :
  ∃ i d', Coordinator.open sample_config 20 left_disk = (Success i, d') ∧
    map (λ r, code (state r)) (im_evaluations i) = [4; 4] ∧
    reg_epoch (im_authority i) = 2 ∧ is_boot_fenced 20 (im_authority i) = true ∧
    ∃ d1, ∀ q, q ≠ "store.lock" → contents d1 q = contents left_disk q.
Proof.
  assert (answers (λ i, bool_decide (map (λ r, code (state r)) (im_evaluations i) = [4; 4]) &&
      ((reg_epoch (im_authority i) =? 2) && is_boot_fenced 20 (im_authority i)))
    (Coordinator.open sample_config 20 left_disk).1 = true) as Hok by (vm_compute; reflexivity).
  assert (cf_store_path sample_config ≠ "") as Hp by discriminate.
  apply answers_op in Hok as (i & d' & E & Ha). exists i, d'. split; [exact E|].
  apply andb_true_iff in Ha as [Hs Ha]. apply andb_true_iff in Ha as [He Hf].
  split; [apply (bool_decide_eq_true_1 _ Hs)|]. split; [apply Z.eqb_eq; exact He|]. split; [exact Hf|].
  destruct (recovery sample_config 20 left_disk d' i sample_unsigned Hp E) as (d1 & Hd1 & _).
  exists d1. exact Hd1.
Defined.
