(* ===== verification/Exact.v ===== *)
(** Readers that accept only encodings.

    [reads] of [Codec.v] says that a reader returns what was written. Here is the
    converse: [accepts m Q] says that whenever [m] succeeds, the bytes it consumed and the
    value it returned are related by [Q]. A decoder with both is a bijection between its
    values and their encodings, so no two byte strings mean the same message. *)

From Stdlib Require Import ZArith Lia Bool Strings.Byte.
From stdpp Require Import base list numbers strings.
From S2P Require Import Prelude Base Codec Candidate Persistence.

Open Scope string_scope.
Open Scope list_scope.
Open Scope Z_scope.

Definition accepts {A} (m : reader A) (Q : list byte → A → Prop) : Prop :=
  ∀ pre rest a r', m (mkReader (pre ++ rest) (size pre) true) = (Some a, r') →
    ∃ bs post, rest = bs ++ post ∧ r' = mkReader (pre ++ rest) (size pre + size bs) true ∧ Q bs a.

Lemma accepts_ret {A} (a : A) Q : Q [] a → accepts (mret a) Q.
Proof.
  intros HQ pre rest b r'. unfold mret, reader_ret. intros [= <- <-].
  exists [], rest. split_and!; [done|by rewrite Z.add_0_r|done].
Qed.

(** A field [f a] and what follows it. *)
Lemma accepts_bind {A B} (m : reader A) (k : A → reader B) Q1 Q2 Q :
  accepts m Q1 → (∀ a bs, Q1 bs a → accepts (k a) (Q2 bs a)) →
  (∀ a b bs bs', Q1 bs a → Q2 bs a bs' b → Q (bs ++ bs') b) → accepts (m ≫= k) Q.
Proof.
  intros Hm Hk HQ pre rest b r'. unfold mbind, reader_bind.
  destruct (m _) as [[a|] r1] eqn:E; [|done]. intros E2.
  destruct (Hm _ _ _ _ E) as (bs & post & -> & -> & H1).
  pose proof (Hk a bs H1 (pre ++ bs) post b r') as H2.
  rewrite <- app_assoc, size_app in H2.
  destruct (H2 E2) as (bs' & post' & -> & -> & H3).
  exists (bs ++ bs'), post'. rewrite <- app_assoc, size_app.
  split_and!; [done|f_equal; lia|by eapply HQ].
Qed.

(** The statement form: the field read is the encoding [f a] of what was read. *)
Lemma accepts_field {A B} (m : reader A) (k : A → reader B) (f : A → list byte) (P : A → Prop) Q :
  accepts m (λ bs a, bs = f a ∧ P a) →
  (∀ a, P a → accepts (k a) (λ bs' b, Q (f a ++ bs') b)) → accepts (m ≫= k) Q.
Proof.
  intros Hm Hk. apply (accepts_bind _ _ _ (λ bs _ bs' b, Q (bs ++ bs') b) _ Hm); [|done].
  intros a bs [-> Ha]. exact (Hk a Ha).
Qed.

Lemma accepts_guard {B} (cond : bool) (k : () → reader B) Q :
  (cond = false → accepts (k ()) Q) → accepts (fail_if cond ≫= k) Q.
Proof.
  intros Hk pre rest b r'. unfold mbind, reader_bind, fail_if. destruct cond; [done|].
  by apply Hk.
Qed.

Lemma accepts_weaken {A} (m : reader A) (Q Q' : list byte → A → Prop) :
  accepts m Q → (∀ bs a, Q bs a → Q' bs a) → accepts m Q'.
Proof.
  intros Hm HQ pre rest a r' E. destruct (Hm _ _ _ _ E) as (bs & post & -> & -> & H).
  exists bs, post. auto.
Qed.

(** [n] bytes, whatever they are. *)
Lemma accepts_take {B} n (k : list byte → reader B) (Q : list byte → B → Prop) :
  0 <= n → (∀ bs, size bs = n → accepts (k bs) (λ bs', Q (bs ++ bs'))) →
  accepts (_ ← ensure n; take_bytes n ≫= k) Q.
Proof.
  intros Hn Hk pre rest b r'. unfold mbind, reader_bind, ensure, take_bytes.
  cbn [ok_ negb data position]. rewrite size_app. pose proof (size_nonneg rest).
  destruct (_ <? n) eqn:E; [done|]. cbn [data position ok_].
  assert (drop (Z.to_nat (size pre)) (pre ++ rest) = rest) as ->.
  { unfold size. by rewrite Nat2Z.id, drop_app_length. }
  set (bs := take (Z.to_nat n) rest). intros E2.
  assert (size bs = n) as Hs by (subst bs; unfold size in *; rewrite length_take; lia).
  assert (rest = bs ++ drop (Z.to_nat n) rest) as Hr by (symmetry; apply take_drop).
  pose proof (Hk bs Hs (pre ++ bs) (drop (Z.to_nat n) rest) b r') as H2.
  rewrite <- app_assoc, <- Hr, size_app, Hs in H2. destruct (H2 E2) as (bs' & post & Hd & -> & HQ).
  exists (bs ++ bs'), post. rewrite size_app, Hs. split_and!; [|f_equal; lia|done].
  by rewrite <- app_assoc, <- Hd.
Qed.

Lemma le_val_fits n bs : size bs = Z.of_nat n → fits (8 * Z.of_nat n) (le_val bs).
Proof.
  unfold size. intros Hs. apply Nat2Z.inj in Hs. subst n. unfold fits.
  split; [apply le_val_nonneg|]. induction bs as [|b bs IH]; [cbn; lia|].
  cbn [length le_val]. replace (8 * Z.of_nat (S (length bs))) with (8 + 8 * Z.of_nat (length bs)) by lia.
  rewrite Z.pow_add_r by lia. change (2 ^ 8) with 256. pose proof (to_integer_bound b). lia.
Qed.

Lemma accepts_fixed n :
  accepts (_ ← ensure (Z.of_nat n); bs ← take_bytes (Z.of_nat n); mret (assemble 0 0 bs))
    (λ bs v, bs = le_bytes n v ∧ fits (8 * Z.of_nat n) v).
Proof.
  apply (accepts_take (Z.of_nat n)); [lia|]. intros bs Hs. apply accepts_ret.
  rewrite app_nil_r, assemble_le_val. split; [|by apply le_val_fits].
  unfold size in Hs. apply Nat2Z.inj in Hs. rewrite <- Hs. symmetry. apply le_bytes_val.
Qed.

Lemma accepts_u8 : accepts u8 (λ bs v, bs = put_u8 v [] ∧ fits 8 v).
Proof. exact (accepts_fixed 1). Qed.
Lemma accepts_u16 : accepts u16 (λ bs v, bs = put_u16 v [] ∧ fits 16 v).
Proof. eapply accepts_weaken; [exact (accepts_fixed 2)|]. intros bs v. by rewrite put_u16_bytes. Qed.
Lemma accepts_u32 : accepts u32 (λ bs v, bs = put_u32 v [] ∧ fits 32 v).
Proof. eapply accepts_weaken; [exact (accepts_fixed 4)|]. intros bs v. by rewrite put_u32_bytes. Qed.
Lemma accepts_u64 : accepts u64 (λ bs v, bs = put_u64 v [] ∧ fits 64 v).
Proof. eapply accepts_weaken; [exact (accepts_fixed 8)|]. intros bs v. by rewrite put_u64_bytes. Qed.

Lemma accepts_boolean : accepts boolean (λ bs v, bs = put_bool v [] ∧ True).
Proof.
  unfold boolean. eapply accepts_field; [exact accepts_u8|]. intros v Hv. cbv beta.
  apply accepts_guard. intros Hg. apply accepts_ret. rewrite app_nil_r. split; [|done].
  unfold put_bool. destruct Hv. assert (v = 0 ∨ v = 1) as [-> | ->] by lia; done.
Qed.

Lemma accepts_raw n : 0 <= n → accepts (raw n) (λ bs v, bs = v ∧ size v = n).
Proof.
  intros Hn pre rest a r' E.
  apply (accepts_take n mret (λ bs v, bs = v ∧ size v = n) Hn); [|].
  - intros bs Hs. apply accepts_ret. by rewrite app_nil_r.
  - unfold raw in E. unfold mbind, reader_bind in *. by destruct (ensure n _) as [[|] ?].
Qed.

Lemma accepts_string :
  accepts read_string (λ bs s, bs = put_string s [] ∧ size (bytes_of_string s) < 2 ^ 32).
Proof.
  unfold read_string. eapply accepts_field; [exact accepts_u32|]. intros n Hn. cbv beta.
  apply accepts_take; [apply Hn|]. intros bs Hs. apply accepts_ret.
  rewrite app_nil_r, bytes_of_string_of_bytes, Hs. unfold put_string.
  rewrite seqw_nil by apply _. rewrite bytes_of_string_of_bytes, Hs, wrap_small by done.
  split; [done|apply Hn].
Qed.

(** [count] elements, and the counted sequence. *)
Lemma accepts_each {A} (f : A → writing) (m : reader A) (P : A → Prop) n `{!∀ x, Appends (f x)} :
  0 <= n → accepts m (λ bs a, bs = f a [] ∧ P a) →
  accepts (read_each m n) (λ bs l, bs = put_each f l [] ∧ Forall P l ∧ size l = n).
Proof.
  intros Hn Hm. unfold read_each. assert (n = Z.of_nat (Z.to_nat n)) as E by lia.
  revert E. generalize (Z.to_nat n). intros count ->. clear Hn.
  induction count as [|k IH]; [by apply accepts_ret|]. cbn [read_each_nat].
  eapply accepts_field; [exact Hm|]. intros a Ha. apply (accepts_bind _ _ _ (λ _ l bs' b, bs' = [] ∧ b = a :: l) _ IH).
  - intros l bs _. by apply accepts_ret.
  - intros l b bs bs' (-> & Hl & Hs) [-> ->]. rewrite app_nil_r, put_each_cons by done.
    split_and!; [done|by constructor|unfold size in *; cbn [length]; lia].
Qed.

Lemma accepts_counted {A} (f : A → writing) (m : reader A) (P : A → Prop) max `{!∀ x, Appends (f x)} :
  accepts m (λ bs a, bs = f a [] ∧ P a) →
  accepts (read_counted m max)
    (λ bs l, bs = write_counted f l [] ∧ Forall P l ∧ size l <= max ∧ fits 32 (size l)).
Proof.
  intros Hm. unfold read_counted, bounded_length.
  apply (accepts_bind _ _ (λ bs n, bs = put_u32 n [] ∧ fits 32 n ∧ n <= max)
    (λ _ n bs l, bs = put_each f l [] ∧ Forall P l ∧ size l = n)).
  - eapply accepts_field; [exact accepts_u32|]. intros n Hn. cbv beta. apply accepts_guard.
    intros Hg. apply accepts_ret. rewrite app_nil_r. split_and!; [done|apply Hn..|lia].
  - intros n bs (_ & Hn & _). apply accepts_each; [done|apply Hn|done].
  - intros n l bs bs' (-> & Hn & Hm') (-> & Hl & <-). unfold write_counted.
    rewrite seqw_nil by apply _. by rewrite (wrap_small 32).
Qed.

Lemma reads_open {A} (m : reader A) bs a post :
  reads m bs a → m (open_reader (bs ++ post)) = (Some a, mkReader (bs ++ post) (size bs) true).
Proof. intros H. exact (H [] post). Qed.

(** A decoder of a whole payload: it reads every encoding of a value it may return, and
    nothing else, with nothing left over. *)
Lemma exact_decoder {A} (m : reader A) (f : A → writing) (P : A → Prop) bs a :
  (∀ a, P a → reads m (f a []) a) → accepts m (λ bs a, bs = f a [] ∧ P a) →
  (∃ r, m (open_reader bs) = (Some a, r) ∧ at_end r = true) ↔ P a ∧ bs = f a [].
Proof.
  intros Hr Ha. split.
  - intros (r & E & Hend). destruct (Ha [] bs a r E) as (b & post & -> & -> & -> & HP).
    split; [done|]. unfold at_end in Hend. cbn [position data] in Hend. simpl in Hend.
    rewrite size_app in Hend. pose proof (size_nonneg post). destruct post; [by rewrite app_nil_r|].
    apply Z.eqb_eq in Hend. unfold size in Hend. cbn [length] in Hend. lia.
  - intros [HP ->]. eexists. split; [by apply reads_run, Hr|]. unfold at_end. cbn. apply Z.eqb_refl.
Qed.

(** The number fields of a header, whatever their widths. *)
Ltac reads_number :=
  lazymatch goal with
  | |- reads u8 _ _ => apply reads_u8
  | |- reads u16 _ _ => apply reads_u16
  | |- reads u32 _ _ => apply reads_u32
  | |- reads u64 _ _ => apply reads_u64
  | |- reads boolean _ _ => apply reads_bool
  end.
Ltac accepts_number :=
  lazymatch goal with
  | |- accepts (u8 ≫= _) _ => eapply accepts_field; [exact accepts_u8|]
  | |- accepts (u16 ≫= _) _ => eapply accepts_field; [exact accepts_u16|]
  | |- accepts (u32 ≫= _) _ => eapply accepts_field; [exact accepts_u32|]
  | |- accepts (u64 ≫= _) _ => eapply accepts_field; [exact accepts_u64|]
  | |- accepts (boolean ≫= _) _ => eapply accepts_field; [exact accepts_boolean|]
  end; intros ? ?; cbv beta.
