(* ===== verification/Protocol.v ===== *)
(** The wire protocol, [protocol.hpp] and [protocol.cpp]: the frame header, the frame
    with its integrity trailer, the reassembly of frames from arbitrary transport reads
    and the payload codecs of the handshake, publication, evaluation and error messages.

    A decoded payload is the value the code leaves in a fresh [out]: a field the decoder
    does not assign keeps its initial value. [decode_frame] and [FrameAssembler::pop]
    leave their output alone when they fail; the model returns nothing then. *)

From Stdlib Require Import ZArith Lia Bool Strings.Byte.
From stdpp Require Import base list numbers strings.
From S2P Require Import Prelude Base Codec Digest Candidate Evaluation ConstraintSet Authority.
From S2P Require Import Persistence.

Open Scope string_scope.
Open Scope list_scope.
Open Scope Z_scope.

(** ** Messages *)

Module MessageId.
Inductive t :=
  | Invalid | Hello | HelloAck | RegisterPublisher | RegisterPublisherAck | PublishConstraintSet
  | PublishConstraintSetAck | ApplyLifecycle | ApplyLifecycleAck | EvaluateCandidates
  | EvaluateCandidatesAck | QueryDefinitions | DefinitionsReport | QueryResults | ResultsReport
  | QueryCurrentness | CurrentnessReport | Heartbeat | SessionFenced | ErrorReport | Shutdown.

Definition to_code (x : t) : Z :=
  match x with
  | Invalid => 0 | Hello => 1 | HelloAck => 2 | RegisterPublisher => 3
  | RegisterPublisherAck => 4 | PublishConstraintSet => 5 | PublishConstraintSetAck => 6
  | ApplyLifecycle => 7 | ApplyLifecycleAck => 8 | EvaluateCandidates => 9
  | EvaluateCandidatesAck => 10 | QueryDefinitions => 11 | DefinitionsReport => 12
  | QueryResults => 13 | ResultsReport => 14 | QueryCurrentness => 15
  | CurrentnessReport => 16 | Heartbeat => 17 | SessionFenced => 18 | ErrorReport => 19
  | Shutdown => 20
  end.

Definition from_code (z : Z) : t :=
  match z with
  | 1 => Hello | 2 => HelloAck | 3 => RegisterPublisher | 4 => RegisterPublisherAck
  | 5 => PublishConstraintSet | 6 => PublishConstraintSetAck | 7 => ApplyLifecycle
  | 8 => ApplyLifecycleAck | 9 => EvaluateCandidates | 10 => EvaluateCandidatesAck
  | 11 => QueryDefinitions | 12 => DefinitionsReport | 13 => QueryResults
  | 14 => ResultsReport | 15 => QueryCurrentness | 16 => CurrentnessReport
  | 17 => Heartbeat | 18 => SessionFenced | 19 => ErrorReport | 20 => Shutdown
  | _ => Invalid
  end.

Definition to_string (x : t) : string :=
  match x with
  | Invalid => "Invalid" | Hello => "Hello" | HelloAck => "HelloAck"
  | RegisterPublisher => "RegisterPublisher" | RegisterPublisherAck => "RegisterPublisherAck"
  | PublishConstraintSet => "PublishConstraintSet"
  | PublishConstraintSetAck => "PublishConstraintSetAck"
  | ApplyLifecycle => "ApplyLifecycle" | ApplyLifecycleAck => "ApplyLifecycleAck"
  | EvaluateCandidates => "EvaluateCandidates"
  | EvaluateCandidatesAck => "EvaluateCandidatesAck"
  | QueryDefinitions => "QueryDefinitions" | DefinitionsReport => "DefinitionsReport"
  | QueryResults => "QueryResults" | ResultsReport => "ResultsReport"
  | QueryCurrentness => "QueryCurrentness" | CurrentnessReport => "CurrentnessReport"
  | Heartbeat => "Heartbeat" | SessionFenced => "SessionFenced"
  | ErrorReport => "ErrorReport" | Shutdown => "Shutdown"
  end.
End MessageId.

#[export] Instance MessageId_enum : Enum MessageId.t.
Proof.
  refine {| code := MessageId.to_code; of_code := MessageId.from_code |}.
  by intros [].
Defined.

Definition is_known_message (raw : Z) : bool :=
  (code MessageId.Hello <=? raw) && (raw <=? code MessageId.Shutdown).

Definition kProtocolVersionValue : Z := 1.

(** ** Frames *)

Record FrameHeader := mkHeader {
  protocol_version : Z;
  message : MessageId.t;
  flags : Z;
  payload_length : Z;
  fr_epoch : Z;
  fr_publisher : Z;
  fr_worker_boot : Z;
  fr_attempt : Z;
  fr_request : Z;
  fr_scopes : AuthorityScopeMask
}.

(** [FrameHeader{}]. *)
Definition empty_header : FrameHeader :=
  mkHeader kProtocolVersionValue MessageId.Invalid 0 0 0 0 0 0 0 0.

Record Frame := mkFrame { header : FrameHeader; payload : list byte }.

Definition kSemanticHeaderBytes : Z := 60.
Definition kTrailerBytes : Z := 4 + kSize.
Definition kHeaderBytes : Z := kSemanticHeaderBytes + kTrailerBytes.

Definition semantic_header (raw : list byte) : list byte := subspan_of 0 kSemanticHeaderBytes raw.

Definition integrity_digest (header payload : list byte) : Digest256 :=
  finish (update (update reset header) payload).

Definition integrity_crc (header payload : list byte) : Z := crc32c (header ++ payload).

Definition frame_size (payload_length : Z) : Z := kHeaderBytes + payload_length.

Definition encode_frame_header (h : FrameHeader) : writing :=
  put_u32 kWireMagic ;;> put_u16 (protocol_version h) ;;> put_u16 (code (message h)) ;;>
  put_u16 (flags h) ;;> put_u16 0 ;;> put_u32 (payload_length h) ;;> put_u64 (fr_epoch h) ;;>
  put_u64 (fr_publisher h) ;;> put_u64 (fr_worker_boot h) ;;> put_u64 (fr_attempt h) ;;>
  put_u64 (fr_request h) ;;> put_u32 (fr_scopes h).

Definition decode_frame_header : reader FrameHeader :=
  magic ← u32; version ← u16; message ← u16; flags ← u16; reserved ← u16; payload_length ← u32;
  epoch ← u64; publisher ← u64; boot ← u64; attempt ← u64; request ← u64; scopes ← u32;
  _ ← fail_if (negb (magic =? kWireMagic) || negb (reserved =? 0) ||
               negb (is_known_message message));
  _ ← fail_if (negb (epoch =? 0) && negb (is_representable epoch));
  mret (mkHeader version (of_code message) flags payload_length epoch publisher boot attempt
    request scopes).

Definition encode_frame (frame : Frame) (limits : Limits) : Result (list byte) :=
  if max_frame_bytes limits <? size (payload frame) then
    Failure ErrorCode.ResourceLimit "frame payload exceeds the configured limit"
  else
    let h := header frame in
    let h := mkHeader kProtocolVersionValue (message h) (flags h) (wrap 32 (size (payload frame)))
      (fr_epoch h) (fr_publisher h) (fr_worker_boot h) (fr_attempt h) (fr_request h) (fr_scopes h) in
    if eeqb (message h) MessageId.Invalid then
      Failure ErrorCode.InvalidArgument "frame message identifier is not set"
    else
      let header_bytes := encode_frame_header h [] in
      let semantic := subspan_of 0 kSemanticHeaderBytes header_bytes in
      let writer := put_raw (payload frame) header_bytes in
      let writer := put_u32 (integrity_crc semantic (payload frame)) writer in
      Success (put_raw (integrity_digest semantic (payload frame)) writer).

Definition decode_frame (raw : list byte) (limits : Limits) : Result Frame :=
  if size raw <? kHeaderBytes then
    Failure ErrorCode.Truncated "frame is shorter than its header"
  else
    match (decode_frame_header (open_reader raw)).1 with
    | None => Failure ErrorCode.Malformed "frame header is malformed"
    | Some header =>
        if negb (protocol_version header =? kProtocolVersionValue) then
          Failure ErrorCode.UnsupportedVersion "frame protocol version is not supported"
        else if max_frame_bytes limits <? payload_length header then
          Failure ErrorCode.ResourceLimit "frame declares an oversized payload"
        else if negb (size raw =? frame_size (payload_length header)) then
          Failure (if size raw <? frame_size (payload_length header) then ErrorCode.Truncated
                   else ErrorCode.TrailingBytes)
            "frame length does not match its declared payload length"
        else
          let semantic := semantic_header raw in
          let payload := subspan_of kSemanticHeaderBytes (payload_length header) raw in
          let trailer := subspan (kSemanticHeaderBytes + payload_length header) raw in
          if negb (integrity_crc semantic payload =? assemble 0 0 (take 4 trailer)) then
            Failure ErrorCode.IntegrityMismatch "frame checksum does not match"
          else if negb (same_bytes kSize (subspan 4 trailer) (integrity_digest semantic payload)) then
            Failure ErrorCode.IntegrityMismatch "frame digest does not match"
          else Success (mkFrame header payload)
    end.

(** ** [FrameAssembler] *)

Record FrameAssembler := mkAssembler {
  fa_limits : Limits;
  buffer : list byte;
  failed_ : bool
}.

Definition new_assembler (limits : Limits) : FrameAssembler := mkAssembler limits [] false.

Definition fail_assembler {A} (code : ErrorCode.t) (detail : string) (a : FrameAssembler)
    : Result A * FrameAssembler :=
  (Failure code detail, mkAssembler (fa_limits a) [] true).

Definition push (chunk : list byte) (a : FrameAssembler) : Status * FrameAssembler :=
  if failed_ a then
    (Failure ErrorCode.ProtocolViolation "frame assembler is in a failed state", a)
  else if max_frame_assembly_bytes (fa_limits a) <? size (buffer a) + size chunk then
    fail_assembler ErrorCode.ResourceLimit "frame assembly buffer exceeds the configured limit" a
  else (success, mkAssembler (fa_limits a) (buffer a ++ chunk) false).

(** One complete frame, or [None] when more bytes are needed ([produced] is false). *)
Definition pop (a : FrameAssembler) : Result (option Frame) * FrameAssembler :=
  if failed_ a then
    (Failure ErrorCode.ProtocolViolation "frame assembler is in a failed state", a)
  else if size (buffer a) <? kHeaderBytes then (Success None, a)
  else
    let header_bytes := take (Z.to_nat kHeaderBytes) (buffer a) in
    match (decode_frame_header (open_reader (subspan_of 0 kSemanticHeaderBytes header_bytes))).1 with
    | None => fail_assembler ErrorCode.Malformed "started frame header is malformed" a
    | Some header =>
        if negb (protocol_version header =? kProtocolVersionValue) then
          fail_assembler ErrorCode.UnsupportedVersion
            "started frame declares an unsupported protocol version" a
        else if max_frame_bytes (fa_limits a) <? payload_length header then
          fail_assembler ErrorCode.ResourceLimit "started frame declares an oversized payload" a
        else
          let total := frame_size (payload_length header) in
          if size (buffer a) <? total then (Success None, a)
          else
            let raw := take (Z.to_nat total) (buffer a) in
            let a := mkAssembler (fa_limits a) (drop (Z.to_nat total) (buffer a)) false in
            match decode_frame raw (fa_limits a) with
            | Failure code detail => fail_assembler code detail a
            | Success frame => (Success (Some frame), a)
            end
    end.

Definition buffered_bytes (a : FrameAssembler) : Z := size (buffer a).

Definition reset_assembler (a : FrameAssembler) : FrameAssembler :=
  mkAssembler (fa_limits a) [] false.
Definition reset_after_violation := reset_assembler.

(** ** Payload codecs *)

Record HelloPayload := mkHello {
  hello_publisher : Z;
  hello_worker_boot : Z;
  requested_scopes : AuthorityScopeMask;
  client_name : string
}.

Record HelloAckPayload := mkHelloAck {
  ack_epoch : Z;
  ack_session : Z;
  granted_scopes : AuthorityScopeMask;
  ack_protocol_version : Z;
  ack_accepted : bool
}.

Record PublishConstraintSetAckPayload := mkPublishAck {
  pa_set_id : Z;
  pa_generation : Z;
  pa_digest : Digest256
}.

Record EvaluateCandidatesPayload := mkEvaluateRequest {
  ev_set_id : Z;
  expected_generation : Z;
  candidates : list CandidatePath
}.

Record EvaluateCandidatesAckPayload := mkEvaluateAck { ack_batch : EvaluationBatch }.

Record ErrorReportPayload := mkErrorReport {
  er_code : ErrorCode.t;
  er_reason : ReasonCode.t;
  er_detail : string
}.

Definition encode_hello (p : HelloPayload) : writing :=
  put_u64 (hello_publisher p) ;;> put_u64 (hello_worker_boot p) ;;> put_u32 (requested_scopes p) ;;>
  put_string (client_name p).

(** [payload.size()] of a string. *)
Definition text_size (s : string) : Z := Z.of_nat (String.length s).

Definition decode_hello (limits : Limits) : reader HelloPayload :=
  publisher ← u64; boot ← u64; scopes ← u32;
  _ ← fail_if ((publisher =? 0) || (boot =? 0));
  client_name ← read_string; _ ← fail_if (max_name_bytes limits <? text_size client_name);
  mret (mkHello publisher boot scopes client_name).

Definition encode_hello_ack (p : HelloAckPayload) : writing :=
  put_u64 (ack_epoch p) ;;> put_u64 (ack_session p) ;;> put_u32 (granted_scopes p) ;;>
  put_u16 (ack_protocol_version p) ;;> put_bool (ack_accepted p) ;;> put_u8 0.

Definition decode_hello_ack : reader HelloAckPayload :=
  epoch ← u64; session ← u64; scopes ← u32; version ← u16; accepted ← boolean; padding ← u8;
  _ ← fail_if (negb (padding =? 0) || (negb (epoch =? 0) && negb (is_representable epoch)));
  mret (mkHelloAck epoch session scopes version accepted).

Definition encode_evaluate_request (p : EvaluateCandidatesPayload) : writing :=
  put_u64 (ev_set_id p) ;;> put_u64 (expected_generation p) ;;>
  write_counted encode_candidate (candidates p).

Definition decode_evaluate_request (limits : Limits) : reader EvaluateCandidatesPayload :=
  set_id ← u64; generation ← u64;
  _ ← fail_if ((set_id =? 0) || (negb (generation =? 0) && negb (is_representable generation)));
  candidates ← read_counted (decode_candidate limits) (max_candidates_per_evaluation limits);
  mret (mkEvaluateRequest set_id generation candidates).

Definition write_ranked (r : RankedCandidate) : writing :=
  put_u64 (ranked_path r) ;;> put_u32 (record_index r).

Definition read_ranked (records : list EvaluationRecord) : reader RankedCandidate :=
  path ← u64; record_index ← u32; _ ← fail_if (path =? 0);
  _ ← fail_if (size records <=? record_index);
  mret (mkRanked path record_index).

Definition encode_evaluation_batch (b : EvaluationBatch) : writing :=
  put_u64 (batch_set_id b) ;;> put_u64 (batch_set_generation b) ;;> put_u64 (batch_generation b) ;;>
  put_u16 (code (batch_outcome b)) ;;> put_u16 (ReasonCode.to_code (primary_batch_reason b)) ;;>
  put_bool (has_admissible b) ;;> put_u8 0 ;;> write_counted encode_evaluation (records b) ;;>
  write_counted write_ranked (admissible_order b).

(** [if (Generation::is_representable(raw)) out = from_value(raw);] *)
Definition representable_or_zero (raw : Z) : Z := if is_representable raw then raw else 0.

Definition decode_evaluation_batch (limits : Limits) : reader EvaluationBatch :=
  set_id ← u64; set_generation ← u64; generation ← u64; batch_outcome ← u16; primary ← u16;
  has_admissible ← boolean; padding ← u8;
  _ ← fail_if (negb (padding =? 0) || (2 <? batch_outcome));
  records ← read_counted (decode_evaluation limits) (max_candidates_per_evaluation limits);
  order ← read_counted (read_ranked records) (max_candidates_per_evaluation limits);
  mret (mkBatch set_id (representable_or_zero set_generation) (representable_or_zero generation)
    (of_code batch_outcome) has_admissible records order (ReasonCode.from_code primary)).

Definition encode_evaluate_response (p : EvaluateCandidatesAckPayload) : writing :=
  encode_evaluation_batch (ack_batch p).

Definition decode_evaluate_response (limits : Limits) : reader EvaluateCandidatesAckPayload :=
  batch ← decode_evaluation_batch limits; mret (mkEvaluateAck batch).

Definition encode_error_report (p : ErrorReportPayload) : writing :=
  put_u32 (code (er_code p)) ;;> put_u16 (ReasonCode.to_code (er_reason p)) ;;> put_u16 0 ;;>
  put_string (er_detail p).

Definition decode_error_report (limits : Limits) : reader ErrorReportPayload :=
  code_raw ← u32; reason ← u16; padding ← u16;
  _ ← fail_if ((code ErrorCode.Internal <? code_raw) || negb (padding =? 0));
  detail ← read_string; _ ← fail_if (max_detail_bytes limits <? text_size detail);
  mret (mkErrorReport (of_code code_raw) (ReasonCode.from_code reason) detail).

Definition encode_publish_ack (p : PublishConstraintSetAckPayload) : writing :=
  put_u64 (pa_set_id p) ;;> put_u64 (pa_generation p) ;;> put_raw (pa_digest p).

Definition decode_publish_ack : reader PublishConstraintSetAckPayload :=
  set_id ← u64; generation ← u64; digest ← raw kSize;
  _ ← fail_if ((set_id =? 0) || negb (is_representable generation));
  mret (mkPublishAck set_id generation digest).
