(* ===== verification/ProtocolCorrect.v ===== *)
(** Properties of the wire protocol of [Protocol.v]: the frame format is exact, the
    assembler recovers the frames of a byte stream however the transport cuts it, and the
    payload codecs are exact. *)

From Stdlib Require Import ZArith Lia Bool Strings.Byte.
From stdpp Require Import base list numbers strings.
From S2P Require Import Prelude Base Codec Digest Constraint Candidate Evaluation ConstraintSet.
From S2P Require Import Authority.
From S2P Require Import Persistence Exact Protocol.

Open Scope string_scope.
Open Scope list_scope.
Open Scope Z_scope.

(** ** Lemmas: the header *)

(** A header that fits its fields and names a message. *)
Record wire_header (h : FrameHeader) : Prop := {
  wh_version : fits 16 (protocol_version h);
  wh_message : message h ≠ MessageId.Invalid;
  wh_flags : fits 16 (flags h);
  wh_length : fits 32 (payload_length h);
  wh_epoch : generation_field (fr_epoch h);
  wh_ids : fits 64 (fr_publisher h) ∧ fits 64 (fr_worker_boot h) ∧ fits 64 (fr_attempt h) ∧
    fits 64 (fr_request h);
  wh_scopes : fits 32 (fr_scopes h)
}.

#[export] Instance appends_frame_header h : Appends (encode_frame_header h).
Proof. unfold encode_frame_header. apply _. Qed.

Lemma known_message z : is_known_message z = true ↔ ∃ m, m ≠ MessageId.Invalid ∧ z = code m.
Proof.
  unfold is_known_message. rewrite andb_true_iff, !Z.leb_le. cbn. split.
  - intros [H1 H2]. exists (MessageId.from_code z).
    assert (z = 1 ∨ z = 2 ∨ z = 3 ∨ z = 4 ∨ z = 5 ∨ z = 6 ∨ z = 7 ∨ z = 8 ∨ z = 9 ∨ z = 10 ∨
      z = 11 ∨ z = 12 ∨ z = 13 ∨ z = 14 ∨ z = 15 ∨ z = 16 ∨ z = 17 ∨ z = 18 ∨ z = 19 ∨ z = 20)
      as Hz by lia.
    repeat destruct Hz as [->|Hz]; [done..|]. by subst.
  - intros (m & Hm & ->). by destruct m.
Qed.

Lemma epoch_field e : fits 64 e →
  negb (e =? 0) && negb (is_representable e) = false ↔ generation_field e.
Proof.
  unfold generation_field. intros He. rewrite andb_false_iff, !negb_false_iff, Z.eqb_eq.
  rewrite is_representable_true by apply He. unfold fits in He. lia.
Qed.

Lemma reads_frame_header h :
  wire_header h → reads decode_frame_header (encode_frame_header h []) h.
Proof.
  intros [Hv Hm Hf Hl He (H1 & H2 & H3 & H4) Hs]. unfold decode_frame_header, encode_frame_header.
  assert (is_known_message (code (message h)) = true) as Hk by (apply known_message; eauto).
  assert (fits 16 (code (message h))) by (by destruct (message h)).
  pose proof (generation_field_fits _ He) as He'. pose proof (epoch_field _ He') as [_ Hg].
  specialize (Hg He).
  do 11 (read_field; [by reads_number|]).
  read_last; [by apply reads_u32|]. apply reads_guard; [by rewrite Hk|]. apply reads_guard; [done|].
  rewrite of_code_code. destruct h. apply reads_ret.
Qed.

Lemma accepts_frame_header :
  accepts decode_frame_header (λ bs h, bs = encode_frame_header h [] ∧ wire_header h).
Proof.
  unfold decode_frame_header.
  do 12 accepts_number.
  apply accepts_guard. rewrite !orb_false_iff, !negb_false_iff, !Z.eqb_eq.
  intros [[-> ->] (m & Hm & ->)%known_message]. apply accepts_guard. intros He%epoch_field; [|done].
  apply accepts_ret. rewrite of_code_code. split; [|by constructor].
  unfold encode_frame_header. rewrite !seqw_nil by apply _. by rewrite !app_nil_r.
Qed.

Lemma encode_frame_header_size h : size (encode_frame_header h []) = kSemanticHeaderBytes.
Proof.
  unfold encode_frame_header. rewrite !seqw_nil by apply _.
  by rewrite !put_u32_bytes, !put_u16_bytes, !put_u64_bytes, !size_app, !le_bytes_size.
Qed.

(** What a reader of a header finds at the front of a buffer: it looks at the first
    [kSemanticHeaderBytes] only. *)
Lemma header_at raw h :
  (decode_frame_header (open_reader raw)).1 = Some h ↔
  wire_header h ∧ ∃ post, raw = encode_frame_header h [] ++ post.
Proof.
  split.
  - intros E. destruct (decode_frame_header (open_reader raw)) as [o r] eqn:E'. cbn in E. subst o.
    destruct (accepts_frame_header [] raw h r E') as (bs & post & -> & _ & -> & Hw). eauto.
  - intros (Hw & post & ->). by rewrite (reads_open _ _ _ post (reads_frame_header h Hw)).
Qed.

Lemma header_of_prefix raw :
  kSemanticHeaderBytes <= size raw →
  (decode_frame_header (open_reader (subspan_of 0 kSemanticHeaderBytes raw))).1 =
  (decode_frame_header (open_reader raw)).1.
Proof.
  intros Hs. apply option_eq. intros h. rewrite !header_at.
  pose proof (encode_frame_header_size h) as Hh. unfold size in Hh.
  assert (length (encode_frame_header h []) = 60%nat) as Hh' by (unfold kSemanticHeaderBytes in Hh; lia).
  change (subspan_of 0 kSemanticHeaderBytes raw) with (take 60 raw). split; intros (Hw & post & E).
  - split; [done|]. exists (drop 60 raw). rewrite <- (take_drop 60 raw) at 1. f_equal.
    rewrite E. assert (length (take 60 raw) = 60%nat) as Hl.
    { rewrite length_take. unfold size, kSemanticHeaderBytes in Hs. lia. }
    rewrite E, length_app in Hl. destruct post; [by rewrite app_nil_r|cbn in Hl; lia].
  - split; [done|]. exists []. rewrite E, <- Hh', take_app_length. by rewrite app_nil_r.
Qed.

(** ** Lemmas: frames *)

(** The bytes of a frame: header, payload, checksum, digest. *)
Definition frame_bytes (f : Frame) : list byte :=
  let header_bytes := encode_frame_header (header f) [] in
  header_bytes ++ payload f ++ le_bytes 4 (integrity_crc header_bytes (payload f)) ++
  sha256 (header_bytes ++ payload f).

(** A frame as it travels: its header describes its payload. *)
Record wire_frame (limits : Limits) (f : Frame) : Prop := {
  wf_header : wire_header (header f);
  wf_version : protocol_version (header f) = kProtocolVersionValue;
  wf_length : payload_length (header f) = size (payload f);
  wf_bound : size (payload f) <= max_frame_bytes limits
}.

Lemma integrity_digest_sha h p : integrity_digest h p = sha256 (h ++ p).
Proof.
  unfold integrity_digest. apply finish_absorbed.
  pose proof (updates_absorbed [h; p] reset [] absorbed_reset) as H. cbn in H.
  by rewrite app_nil_r in H.
Qed.

Lemma frame_bytes_size f : size (frame_bytes f) = frame_size (size (payload f)).
Proof.
  unfold frame_bytes. rewrite !size_app, encode_frame_header_size, le_bytes_size, sha256_size.
  unfold frame_size, kHeaderBytes, kTrailerBytes. lia.
Qed.

Lemma subspan_front a b (l k : list byte) :
  size l = a → subspan_of a b (l ++ k) = take (Z.to_nat b) k.
Proof. intros <-. unfold subspan_of, size. by rewrite Nat2Z.id, drop_app_length. Qed.

Lemma subspan_skip a (l k : list byte) : size l = a → subspan a (l ++ k) = k.
Proof. intros <-. unfold subspan, size. by rewrite Nat2Z.id, drop_app_length. Qed.

Lemma take_size {A} n (l k : list A) : size l = n → take (Z.to_nat n) (l ++ k) = l.
Proof. intros <-. unfold size. by rewrite Nat2Z.id, take_app_length. Qed.

(** Four bytes and a digest, compared as the code compares them. *)
Lemma trailer_checks crc d trailer :
  fits 32 crc → size d = kSize → size trailer = 4 + kSize →
  (crc =? assemble 0 0 (take 4 trailer)) && same_bytes kSize (subspan 4 trailer) d = true ↔
  trailer = le_bytes 4 crc ++ d.
Proof.
  intros Hc Hd Ht. rewrite andb_true_iff, Z.eqb_eq, assemble_le_val.
  assert (size (take 4 trailer) = 4) as H4.
  { unfold size, kSize in *. rewrite length_take. lia. }
  assert (size (subspan 4 trailer) = kSize) as H32 by (rewrite size_subspan; unfold kSize in *; lia).
  rewrite same_bytes_spec by (unfold kSize in *; lia).
  rewrite (take_ge (subspan 4 trailer)), (take_ge d) by (unfold size, kSize in *; lia).
  split.
  - intros [-> <-]. assert (length (take 4 trailer) = 4%nat) as Hl by (unfold size in H4; lia).
    pose proof (le_bytes_val (take 4 trailer)) as E. rewrite Hl in E. rewrite E.
    symmetry. apply (take_drop 4).
  - intros ->. rewrite (subspan_skip 4) by apply le_bytes_size.
    assert (take 4 (le_bytes 4 crc ++ d) = le_bytes 4 crc) as -> by (apply (take_size 4), le_bytes_size).
    split; [|done]. symmetry. by apply (le_val_bytes 4).
Qed.

(** Decoding a frame succeeds on the bytes of a frame that travels, and on no others. *)
Lemma decode_frame_iff raw limits f :
  limits_ok limits = true →
  decode_frame raw limits = Success f ↔ wire_frame limits f ∧ raw = frame_bytes f.
Proof.
  intros HL. unfold decode_frame. split.
  - destruct (size raw <? kHeaderBytes) eqn:Es; [done|].
    destruct (decode_frame_header (open_reader raw)).1 as [h|] eqn:Eh; [|done].
    apply header_at in Eh as [Hw (post & ->)].
    destruct (protocol_version h =? _) eqn:Ev; cbn [negb]; [|done].
    destruct (_ <? payload_length h) eqn:El; [done|].
    destruct (size _ =? frame_size _) eqn:Et; cbn [negb]; [|done]. cbv zeta.
    pose proof (encode_frame_header_size h) as Hh. set (e := encode_frame_header h []) in *.
    pose proof (wh_length h Hw) as Hn. unfold fits in Hn.
    unfold semantic_header. rewrite (subspan_front _ _ e post Hh).
    assert (subspan_of 0 kSemanticHeaderBytes (e ++ post) = e) as -> by by apply take_size.
    set (n := payload_length h) in *. set (p := take (Z.to_nat n) post).
    assert (size post = n + kTrailerBytes) as Hpost.
    { rewrite size_app, Hh in Et. unfold frame_size, kHeaderBytes in Et. lia. }
    assert (size p = n) as Hp.
    { subst p. unfold size, kTrailerBytes, kSize in *. rewrite length_take. lia. }
    assert (subspan (kSemanticHeaderBytes + n) (e ++ post) = drop (Z.to_nat n) post) as ->.
    { unfold subspan. rewrite <- Hh. unfold size at 1. rewrite Z2Nat.inj_add, Nat2Z.id by lia.
      by rewrite <- drop_drop, drop_app_length. }
    rewrite integrity_digest_sha.
    pose proof (trailer_checks (integrity_crc e p) (sha256 (e ++ p)) (drop (Z.to_nat n) post)) as Hc.
    destruct (integrity_crc e p =? _) eqn:Ec; cbn [negb]; [|done].
    destruct (same_bytes _ _ _) eqn:Ed; cbn [negb]; [|done]. intros [= <-].
    assert (drop (Z.to_nat n) post = le_bytes 4 (integrity_crc e p) ++ sha256 (e ++ p)) as Hd.
    { apply Hc; [apply crc_fits|done| |done]. unfold size, kTrailerBytes, kSize in *. rewrite length_drop. lia. }
    split; [split; cbn [header payload]; [done|by apply Z.eqb_eq|by rewrite Hp|rewrite Hp; lia]|].
    unfold frame_bytes. cbn [header payload]. cbv zeta. fold e. rewrite <- Hd. subst p.
    by rewrite take_drop.
  - intros [[Hw Hv Hl Hb] ->]. rewrite frame_bytes_size. unfold frame_size at 1.
    pose proof (size_nonneg (payload f)). destruct (_ <? kHeaderBytes) eqn:Es; [lia|].
    assert ((decode_frame_header (open_reader (frame_bytes f))).1 = Some (header f)) as ->
      by (apply header_at; split; [done|]; unfold frame_bytes; eauto).
    rewrite Hv, Hl, Z.eqb_refl. cbn [negb]. destruct (_ <? size (payload f)) eqn:E1; [lia|].
    rewrite Z.eqb_refl. cbn [negb]. cbv zeta.
    pose proof (encode_frame_header_size (header f)) as Hh. unfold frame_bytes, semantic_header. cbv zeta.
    set (e := encode_frame_header (header f) []) in *. set (c := integrity_crc e (payload f)).
    rewrite (subspan_front _ _ e _ Hh), (take_size _ (payload f)) by done.
    assert (subspan_of 0 kSemanticHeaderBytes
      (e ++ payload f ++ le_bytes 4 c ++ sha256 (e ++ payload f)) = e) as -> by by apply take_size.
    rewrite app_assoc, subspan_skip by (rewrite size_app; lia). rewrite integrity_digest_sha. fold c.
    pose proof (trailer_checks c (sha256 (e ++ payload f)) (le_bytes 4 c ++ sha256 (e ++ payload f))
      (crc_fits _) (sha256_size _)) as [_ Hc].
    { rewrite size_app, le_bytes_size, sha256_size. done. }
    specialize (Hc eq_refl). apply andb_true_iff in Hc as [-> ->]. cbn [negb]. by destruct f.
Qed.

Lemma encode_frame_wire limits f :
  limits_ok limits = true → wire_frame limits f → encode_frame f limits = Success (frame_bytes f).
Proof.
  intros HL [Hw Hv Hl Hb]. unfold encode_frame. destruct (_ <? _) eqn:E1; [lia|]. cbv zeta.
  pose proof (limits_ok_entry limits 15 _ HL eq_refl) as Lf. cbn [snd] in Lf.
  pose proof (size_nonneg (payload f)).
  rewrite wrap_small, <- Hl, <- Hv by (unfold fits; lia).
  assert (mkHeader (protocol_version (header f)) (message (header f)) (flags (header f))
    (payload_length (header f)) (fr_epoch (header f)) (fr_publisher (header f))
    (fr_worker_boot (header f)) (fr_attempt (header f)) (fr_request (header f))
    (fr_scopes (header f)) = header f) as -> by (by destruct (header f)).
  rewrite (proj2 (eeqb_neq _ _) (wh_message _ Hw)). f_equal. unfold frame_bytes. cbv zeta.
  pose proof (encode_frame_header_size (header f)) as Hh. set (e := encode_frame_header (header f) []) in *.
  assert (subspan_of 0 kSemanticHeaderBytes e = e) as ->.
  { rewrite <- (app_nil_r e) at 1. by apply (take_size kSemanticHeaderBytes e []). }
  rewrite integrity_digest_sha, (appends (f := put_u32 _)), put_u32_bytes. unfold put_raw.
  by rewrite <- !app_assoc.
Qed.

(** ** Lemmas: one pop *)

Lemma frame_bytes_header f : ∃ post, frame_bytes f = encode_frame_header (header f) [] ++ post.
Proof. unfold frame_bytes. eauto. Qed.

(** A pop yields exactly a frame at the front of the buffer, and leaves what follows it. *)
Lemma pop_frame limits bs f rest :
  limits_ok limits = true →
  pop (mkAssembler limits bs false) = (Success (Some f), mkAssembler limits rest false) ↔
  wire_frame limits f ∧ bs = frame_bytes f ++ rest.
Proof.
  intros HL. unfold pop. cbn [failed_ buffer fa_limits]. split.
  - destruct (_ <? kHeaderBytes) eqn:Es; [done|]. destruct (decode_frame_header _).1 as [h|]; [|done].
    destruct (negb _); [done|]. destruct (_ <? payload_length h); [done|]. cbv zeta.
    destruct (_ <? frame_size _); [done|].
    destruct (decode_frame _ _) as [f'|] eqn:Ed; [|done]. intros [= -> <-].
    apply decode_frame_iff in Ed as [Hw E]; [|done]. split; [done|]. rewrite <- E.
    symmetry. apply take_drop.
  - intros [Hw ->]. pose proof (frame_bytes_size f) as Hs. pose proof (size_nonneg (payload f)).
    pose proof (size_nonneg rest).
    assert (kHeaderBytes <= size (frame_bytes f ++ rest)) as Hmin
      by (rewrite size_app, Hs; unfold frame_size; lia).
    destruct (_ <? kHeaderBytes) eqn:Es; [lia|].
    assert (subspan_of 0 kSemanticHeaderBytes (take (Z.to_nat kHeaderBytes) (frame_bytes f ++ rest))
      = subspan_of 0 kSemanticHeaderBytes (frame_bytes f ++ rest)) as ->.
    { unfold subspan_of. change (Z.to_nat 0) with 0%nat. rewrite !drop_0, take_take. done. }
    rewrite header_of_prefix by (unfold kHeaderBytes, kTrailerBytes, kSize in *; lia).
    assert ((decode_frame_header (open_reader (frame_bytes f ++ rest))).1 = Some (header f)) as ->.
    { apply header_at. split; [apply Hw|]. destruct (frame_bytes_header f) as [post ->].
      exists (post ++ rest). by rewrite app_assoc. }
    rewrite (wf_version _ _ Hw), (wf_length _ _ Hw), Z.eqb_refl. cbn [negb].
    pose proof (wf_bound _ _ Hw). destruct (_ <? size (payload f)) eqn:E1; [lia|]. cbv zeta.
    rewrite <- Hs. destruct (_ <? size (frame_bytes f)) eqn:E2; [rewrite size_app in E2; lia|].
    rewrite take_size by done. rewrite (proj2 (decode_frame_iff _ limits f HL)) by done.
    do 2 f_equal. apply (subspan_skip _ _ rest eq_refl).
Qed.

(** The other answers of a pop. *)
Lemma pop_answers limits bs :
  (∃ f rest, pop (mkAssembler limits bs false) = (Success (Some f), mkAssembler limits rest false)) ∨
  pop (mkAssembler limits bs false) = (Success None, mkAssembler limits bs false) ∨
  (∃ code detail, pop (mkAssembler limits bs false) = (Failure code detail, mkAssembler limits [] true)).
Proof.
  unfold pop, fail_assembler. cbn [failed_ buffer fa_limits].
  destruct (_ <? kHeaderBytes); [by auto|]. destruct (decode_frame_header _).1 as [h|]; [|eauto].
  destruct (negb _); [eauto|]. destruct (_ <? payload_length h); [eauto|]. cbv zeta.
  destruct (_ <? frame_size _); [by auto|]. destruct (decode_frame _ _); eauto.
Qed.

(** What a pop waits for is bounded: a started frame of an acceptable length. *)
Lemma pop_waits limits bs :
  0 <= max_frame_bytes limits →
  pop (mkAssembler limits bs false) = (Success None, mkAssembler limits bs false) →
  size bs < frame_size (max_frame_bytes limits).
Proof.
  intros HL. unfold pop, fail_assembler. cbn [failed_ buffer fa_limits].
  change (frame_size (max_frame_bytes limits)) with (kHeaderBytes + max_frame_bytes limits).
  destruct (_ <? kHeaderBytes) eqn:Es; [lia|]. destruct (decode_frame_header _).1 as [h|]; [|done].
  destruct (negb _); [done|]. destruct (_ <? payload_length h) eqn:El; [done|]. cbv zeta.
  destruct (_ <? frame_size _) eqn:Et; [unfold frame_size in Et; lia|]. by destruct (decode_frame _ _).
Qed.

(** A failure does not depend on what follows the started frame. *)
Lemma pop_failure_extends limits bs more code detail a :
  pop (mkAssembler limits bs false) = (Failure code detail, a) →
  pop (mkAssembler limits (bs ++ more) false) = (Failure code detail, a).
Proof.
  unfold pop, fail_assembler. cbn [failed_ buffer fa_limits]. pose proof (size_nonneg more).
  rewrite size_app. destruct (_ <? kHeaderBytes) eqn:Es; [done|].
  destruct (_ + _ <? kHeaderBytes) eqn:Es'; [lia|].
  assert (∀ n, n <= size bs → take (Z.to_nat n) (bs ++ more) = take (Z.to_nat n) bs) as Ht.
  { intros n Hn. apply take_app_le. unfold size in Hn. lia. }
  rewrite Ht by lia. destruct (decode_frame_header _).1 as [h|]; [|done].
  destruct (negb _); [done|]. destruct (_ <? payload_length h); [done|]. cbv zeta.
  destruct (size bs <? frame_size _) eqn:E1; [done|].
  destruct (size bs + _ <? frame_size _) eqn:E2; [lia|].
  rewrite Ht by lia. by destruct (decode_frame _ _).
Qed.

(** ** The loop that pops every complete frame *)

(** The loop of the server around [pop]: the frames it produced and the status that ended
    it. A frame removes at least [kHeaderBytes] bytes, so [drain] has fuel enough. *)
Fixpoint pop_loop (fuel : nat) (a : FrameAssembler) : list Frame * Status * FrameAssembler :=
  match fuel with
  | O => ([], success, a)
  | S fuel =>
      match pop a with
      | (Success (Some f), a) =>
          let '(fs, status, a) := pop_loop fuel a in (f :: fs, status, a)
      | (Success None, a) => ([], success, a)
      | (Failure code detail, a) => ([], Failure code detail, a)
      end
  end.
Definition drain (a : FrameAssembler) : list Frame * Status * FrameAssembler :=
  pop_loop (S (Z.to_nat (size (buffer a) / kHeaderBytes))) a.

(** Chunks as the transport delivers them, each followed by the loop. *)
Fixpoint receive (chunks : list (list byte)) (a : FrameAssembler)
    : list Frame * Status * FrameAssembler :=
  match chunks with
  | [] => ([], success, a)
  | chunk :: rest =>
      match push chunk a with
      | (Failure code detail, a) => ([], Failure code detail, a)
      | (Success _, a) =>
          match drain a with
          | (fs, Failure code detail, a) => (fs, Failure code detail, a)
          | (fs, Success _, a) =>
              let '(fs', status, a) := receive rest a in (fs ++ fs', status, a)
          end
      end
  end.

(** Waiting for more bytes. *)
Definition settled (a : FrameAssembler) : Prop := pop a = (Success None, a).

Lemma pop_loop_spec limits fuel : limits_ok limits = true → ∀ bs,
  size bs / kHeaderBytes < Z.of_nat fuel →
  let '(fs, status, a) := pop_loop fuel (mkAssembler limits bs false) in
  Forall (wire_frame limits) fs ∧ ∃ rest, bs = concat (map frame_bytes fs) ++ rest ∧
    ((status = success ∧ a = mkAssembler limits rest false ∧ settled a) ∨
     (ok status = false ∧ a = mkAssembler limits [] true ∧ pop (mkAssembler limits rest false) = (rbind status (λ _, Success None), a))).
Proof.
  intros HL. induction fuel as [|fuel IH]; intros bs Hf.
  { pose proof (Z.div_pos (size bs) kHeaderBytes (size_nonneg bs) eq_refl). lia. }
  cbn [pop_loop]. destruct (pop_answers limits bs) as [(f & rest & E)|[E|(code & detail & E)]]; rewrite E.
  - apply pop_frame in E as [Hw ->]; [|done]. specialize (IH rest).
    destruct (pop_loop fuel _) as [[fs status] a]. destruct IH as (Hfs & rest' & -> & Ha).
    { rewrite size_app, frame_bytes_size in Hf. unfold frame_size in Hf.
      pose proof (size_nonneg (payload f)).
      assert (size rest / kHeaderBytes + 1 <= (kHeaderBytes + size (payload f) + size rest) / kHeaderBytes); [|lia].
      rewrite <- (Z.div_add _ 1) by done. apply Z.div_le_mono; [done|]. lia. }
    split; [by constructor|]. exists rest'. cbn [map concat]. by rewrite app_assoc.
  - split; [constructor|]. exists bs. split; [done|]. by left.
  - split; [constructor|]. exists bs. split; [done|]. right. by rewrite E.
Qed.

(** ** Lemmas: streams *)

Section stream.
Context (limits : Limits) (HL : limits_ok limits = true).

Abbreviation wire := (wire_frame limits).
Abbreviation at_front bs := (mkAssembler limits bs false).

(** No frame stands at the front of the bytes. *)
Definition unframed (bs : list byte) : Prop := ∀ f rest, wire f → bs ≠ frame_bytes f ++ rest.

Lemma waits_unframed bs : settled (at_front bs) → unframed bs.
Proof. intros Hs f rest Hw E. pose proof (proj2 (pop_frame _ bs f rest HL) (conj Hw E)). congruence. Qed.

(** Frames are a prefix-free code. *)
Lemma frame_prefix_free f g x y :
  wire f → wire g → frame_bytes f ++ x = frame_bytes g ++ y → f = g ∧ x = y.
Proof.
  intros Hf Hg E. pose proof (proj2 (pop_frame limits _ f x HL) (conj Hf eq_refl)) as H1.
  pose proof (proj2 (pop_frame limits _ g y HL) (conj Hg eq_refl)) as H2. rewrite E in H1.
  rewrite H1 in H2. by injection H2.
Qed.

(** A parse that stops where no frame starts comes before every other one. *)
Lemma parse_prefix fs : ∀ gs x y,
  Forall wire fs → Forall wire gs → unframed y →
  concat (map frame_bytes fs) ++ x = concat (map frame_bytes gs) ++ y →
  ∃ hs, gs = fs ++ hs ∧ x = concat (map frame_bytes hs) ++ y.
Proof.
  induction fs as [|f fs IH]; intros gs x y Hf Hg Hy E; [by exists gs|].
  apply Forall_cons in Hf as [Hf Hfs]. cbn [map concat] in E. rewrite <- app_assoc in E.
  destruct gs as [|g gs]; [by destruct (Hy f (concat (map frame_bytes fs) ++ x))|].
  apply Forall_cons in Hg as [Hg Hgs]. cbn [map concat] in E. rewrite <- app_assoc in E.
  apply frame_prefix_free in E as [-> E]; [|done..].
  destruct (IH gs x y Hfs Hgs Hy E) as (hs & -> & ->). by exists hs.
Qed.

(** Where more bytes complete a frame, or wait, the bytes so far do not fail. *)
Lemma front_of_stream bs more fs tail :
  bs ++ more = concat (map frame_bytes fs) ++ tail → Forall wire fs → settled (at_front tail) →
  ∀ code detail a, pop (at_front bs) ≠ (Failure code detail, a).
Proof.
  intros E Hfs Ht code detail a Hp. apply (pop_failure_extends _ _ more) in Hp. rewrite E in Hp.
  destruct fs as [|f fs]; cbn [map concat] in Hp.
  { rewrite app_nil_l in Hp. unfold settled in Ht. congruence. }
  apply Forall_cons in Hfs as [Hf _]. rewrite <- app_assoc in Hp.
  rewrite (proj2 (pop_frame limits _ f _ HL) (conj Hf eq_refl)) in Hp. done.
Qed.

Lemma drain_spec bs :
  let '(fs, status, a) := drain (at_front bs) in
  Forall wire fs ∧ ∃ rest, bs = concat (map frame_bytes fs) ++ rest ∧
    ((status = success ∧ a = at_front rest ∧ settled a) ∨
     (ok status = false ∧ a = mkAssembler limits [] true ∧
        pop (at_front rest) = (rbind status (λ _, Success None), a))).
Proof.
  apply pop_loop_spec; [done|]. cbn [buffer].
  pose proof (Z.div_pos (size bs) kHeaderBytes (size_nonneg bs) eq_refl). lia.
Qed.

(** Part of a stream, drained: the frames it completes and the rest of the stream. *)
Lemma drain_stream bs more fs tail :
  bs ++ more = concat (map frame_bytes fs) ++ tail → Forall wire fs → settled (at_front tail) →
  ∃ fs1 fs2 rest, fs = fs1 ++ fs2 ∧ drain (at_front bs) = (fs1, success, at_front rest) ∧
    settled (at_front rest) ∧ rest ++ more = concat (map frame_bytes fs2) ++ tail.
Proof.
  intros E Hfs Ht. pose proof (drain_spec bs) as Hd. destruct (drain _) as [[fs1 status] a].
  destruct Hd as (Hf1 & rest & -> & Ha). rewrite <- app_assoc in E.
  destruct (parse_prefix _ _ _ _ Hf1 Hfs (waits_unframed _ Ht) E) as (fs2 & -> & Hr).
  exists fs1, fs2, rest. apply Forall_app in Hfs as [_ Hf2].
  destruct Ha as [(-> & -> & Hs)|(Hst & -> & Hp)]; [by split_and!|].
  destruct status as [|code detail]; [done|]. by destruct (front_of_stream _ _ _ _ Hr Hf2 Ht _ _ _ Hp).
Qed.
End stream.

Lemma receive_spec limits chunks : limits_ok limits = true → ∀ bs,
  let '(fs, status, a) := receive chunks (mkAssembler limits bs false) in
  Forall (wire_frame limits) fs ∧
  ∃ rest, bs ++ concat chunks = concat (map frame_bytes fs) ++ rest ∧
    (status = success → a = mkAssembler limits rest false) ∧
    (ok status = false → a = mkAssembler limits [] true).
Proof.
  intros HL. induction chunks as [|chunk chunks IH]; intros bs; cbn [receive concat].
  { split; [constructor|]. exists bs. by rewrite app_nil_r. }
  unfold push. cbn [failed_ buffer fa_limits]. destruct (_ <? _).
  { split; [constructor|]. exists (bs ++ chunk ++ concat chunks). by split_and!. }
  unfold success at 1. pose proof (drain_spec limits HL (bs ++ chunk)) as Hd.
  destruct (drain _) as [[fs status] a]. destruct Hd as (Hf & rest & E & Ha).
  destruct Ha as [(-> & -> & _)|(Hst & -> & _)].
  - cbn [success]. specialize (IH rest). destruct (receive chunks _) as [[gs status] a].
    destruct IH as (Hg & rest' & E' & Hs & Hn). split; [by apply Forall_app|].
    exists rest'. split; [|done].
    rewrite app_assoc, E, <- app_assoc, E', map_app, concat_app. by rewrite <- app_assoc.
  - destruct status as [|code detail]; [done|]. split; [done|].
    exists (rest ++ concat chunks). rewrite app_assoc, E, <- app_assoc. by split_and!.
Qed.

(** ** Lemmas: the states of an assembler *)

(** The calls of an assembler. *)
Inductive AssemblerOp := Push (chunk : list byte) | Pop | Reset_.

Definition run_assembler (o : AssemblerOp) (a : FrameAssembler) : FrameAssembler :=
  match o with
  | Push chunk => (push chunk a).2
  | Pop => (pop a).2
  | Reset_ => reset_assembler a
  end.

(** Within the bound; a failed assembler holds nothing. *)
Definition assembler_ok (a : FrameAssembler) : Prop :=
  size (buffer a) <= max_frame_assembly_bytes (fa_limits a) ∧ (failed_ a = true → buffer a = []).

Lemma run_assembler_ok o a :
  0 <= max_frame_assembly_bytes (fa_limits a) → assembler_ok a →
  assembler_ok (run_assembler o a) ∧ fa_limits (run_assembler o a) = fa_limits a.
Proof.
  unfold assembler_ok. intros HL [Hb Hf]. destruct a as [L bs fl]. cbn [fa_limits buffer failed_] in *.
  destruct o as [chunk| |]; cbn [run_assembler].
  - unfold push, fail_assembler. cbn [failed_ buffer fa_limits]. destruct fl; [done|].
    destruct (_ <? _) eqn:E; cbn [snd buffer failed_ fa_limits]; [done|]. rewrite size_app.
    split_and!; [lia|done|done].
  - destruct fl; [done|]. destruct (pop_answers L bs) as [(f & rest & E)|[E|(c & d & E)]];
      [| |]; rewrite E; cbn [snd buffer failed_ fa_limits]; split_and!; try done.
    unfold pop in E. cbn [failed_ buffer fa_limits] in E. destruct (_ <? kHeaderBytes); [done|].
    destruct (decode_frame_header _).1 as [h|]; [|done]. destruct (negb _); [done|].
    destruct (_ <? payload_length h); [done|]. cbv zeta in E. destruct (_ <? frame_size _); [done|].
    destruct (decode_frame _ _); [|done]. injection E as _ <-.
    unfold size in *. rewrite length_drop. lia.
  - by split_and!.
Qed.

(** ** Lemmas: payloads *)

#[export] Instance appends_hello p : Appends (encode_hello p).
Proof. unfold encode_hello. apply _. Qed.
#[export] Instance appends_hello_ack p : Appends (encode_hello_ack p).
Proof. unfold encode_hello_ack. apply _. Qed.
#[export] Instance appends_publish_ack p : Appends (encode_publish_ack p).
Proof. unfold encode_publish_ack. apply _. Qed.
#[export] Instance appends_error_report p : Appends (encode_error_report p).
Proof. unfold encode_error_report. apply _. Qed.
#[export] Instance appends_evaluate_request p : Appends (encode_evaluate_request p).
Proof. unfold encode_evaluate_request. apply _. Qed.
#[export] Instance appends_ranked r : Appends (write_ranked r).
Proof. unfold write_ranked. apply _. Qed.
#[export] Instance appends_batch b : Appends (encode_evaluation_batch b).
Proof. unfold encode_evaluation_batch. apply _. Qed.
#[export] Typeclasses Opaque encode_hello encode_hello_ack encode_publish_ack encode_error_report
  encode_evaluate_request write_ranked encode_evaluation_batch.

Record wire_hello (limits : Limits) (p : HelloPayload) : Prop := {
  who_publisher : 0 < hello_publisher p < 2 ^ 64;
  who_boot : 0 < hello_worker_boot p < 2 ^ 64;
  who_scopes : fits 32 (requested_scopes p);
  who_name : text_size (client_name p) <= max_name_bytes limits ∧ text_size (client_name p) < 2 ^ 32
}.

Record wire_hello_ack (p : HelloAckPayload) : Prop := {
  wha_epoch : generation_field (ack_epoch p);
  wha_session : fits 64 (ack_session p);
  wha_scopes : fits 32 (granted_scopes p);
  wha_version : fits 16 (ack_protocol_version p)
}.

Record wire_publish_ack (p : PublishConstraintSetAckPayload) : Prop := {
  wpa_set : 0 < pa_set_id p < 2 ^ 64;
  wpa_generation : 0 < pa_generation p < 2 ^ 63;
  wpa_digest : size (pa_digest p) = kSize
}.

Record wire_error (limits : Limits) (p : ErrorReportPayload) : Prop := {
  wer_reason : fits 16 (ReasonCode.to_code (er_reason p)) ∧ named (er_reason p);
  wer_detail : text_size (er_detail p) <= max_detail_bytes limits ∧ text_size (er_detail p) < 2 ^ 32
}.

Lemma text_bytes s : size (bytes_of_string s) = text_size s.
Proof. apply size_bytes_of_string. Qed.

Lemma from_code_named z : named (ReasonCode.from_code z).
Proof. unfold named. by rewrite from_code_to_code. Qed.

Lemma reads_hello limits p : wire_hello limits p → reads (decode_hello limits) (encode_hello p []) p.
Proof.
  intros [H1 H2 H3 [H4 H5]]. unfold decode_hello, encode_hello. rewrite <- text_bytes in *.
  do 3 (read_field; [by reads_number; try (unfold fits; lia)|]). apply reads_guard; [lia|].
  read_last; [by apply reads_string|]. apply reads_guard; [rewrite <- text_bytes; lia|].
  destruct p. apply reads_ret.
Qed.

Lemma accepts_hello limits :
  accepts (decode_hello limits) (λ bs p, bs = encode_hello p [] ∧ wire_hello limits p).
Proof.
  unfold decode_hello. do 3 accepts_number. apply accepts_guard. intros Hz.
  eapply accepts_field; [exact accepts_string|]. cbv beta. intros s Hs. apply accepts_guard. intros Hn.
  apply accepts_ret. split.
  - unfold encode_hello. rewrite !seqw_nil by apply _. by rewrite !app_nil_r.
  - rewrite text_bytes in Hs. unfold fits in *. split; cbn; [lia|lia|done|lia].
Qed.

Lemma reads_hello_ack p : wire_hello_ack p → reads decode_hello_ack (encode_hello_ack p []) p.
Proof.
  intros [H1 H2 H3 H4]. unfold decode_hello_ack, encode_hello_ack.
  pose proof (generation_field_fits _ H1) as H1'. pose proof (epoch_field _ H1') as [_ Hg].
  do 5 (read_field; [by reads_number|]). read_last; [by apply reads_u8|].
  apply reads_guard; [by rewrite (Hg H1)|]. destruct p. apply reads_ret.
Qed.

Lemma accepts_hello_ack :
  accepts decode_hello_ack (λ bs p, bs = encode_hello_ack p [] ∧ wire_hello_ack p).
Proof.
  unfold decode_hello_ack. do 6 accepts_number. apply accepts_guard.
  rewrite orb_false_iff, negb_false_iff, Z.eqb_eq. intros [-> He%epoch_field]; [|done].
  apply accepts_ret. split; [|by constructor].
  unfold encode_hello_ack. rewrite !seqw_nil by apply _. by rewrite !app_nil_r.
Qed.

Lemma reads_publish_ack p : wire_publish_ack p → reads decode_publish_ack (encode_publish_ack p []) p.
Proof.
  intros [H1 H2 H3]. unfold decode_publish_ack, encode_publish_ack.
  do 2 (read_field; [by reads_number; unfold fits; lia|]).
  read_last; [rewrite <- H3; apply reads_raw|].
  assert (is_representable (pa_generation p) = true) as Hg by (rewrite is_representable_true; lia).
  apply reads_guard; [rewrite Hg; lia|]. destruct p. apply reads_ret.
Qed.

Lemma accepts_publish_ack :
  accepts decode_publish_ack (λ bs p, bs = encode_publish_ack p [] ∧ wire_publish_ack p).
Proof.
  unfold decode_publish_ack. do 2 accepts_number. eapply accepts_field; [by apply accepts_raw|].
  cbv beta. intros d Hd. apply accepts_guard. rewrite orb_false_iff, negb_false_iff. intros [Hz Hg].
  apply accepts_ret. split.
  - unfold encode_publish_ack. rewrite !seqw_nil by apply _. by rewrite !app_nil_r.
  - unfold fits in *. rewrite is_representable_true in Hg by lia. by split; cbn; [lia|..].
Qed.

Lemma reads_error_report limits p :
  wire_error limits p → reads (decode_error_report limits) (encode_error_report p []) p.
Proof.
  intros [[H1 Hn] [H2 H3]]. unfold decode_error_report, encode_error_report. rewrite <- text_bytes in *.
  read_field; [apply reads_u32; by destruct (er_code p)|]. read_field; [by apply reads_u16|].
  read_field; [by apply reads_u16|]. apply reads_guard; [by destruct (er_code p)|].
  read_last; [by apply reads_string|]. apply reads_guard; [rewrite <- text_bytes; lia|].
  rewrite of_code_code, Hn. destruct p. apply reads_ret.
Qed.

Lemma error_code_known z : 0 <= z → code ErrorCode.Internal <? z = false → code (ErrorCode.from_code z) = z.
Proof.
  cbn. intros H0 H1.
  assert (z = 0 ∨ z = 1 ∨ z = 2 ∨ z = 3 ∨ z = 4 ∨ z = 5 ∨ z = 6 ∨ z = 7 ∨ z = 8 ∨ z = 9 ∨ z = 10 ∨
    z = 11 ∨ z = 12 ∨ z = 13 ∨ z = 14 ∨ z = 15 ∨ z = 16 ∨ z = 17 ∨ z = 18 ∨ z = 19 ∨ z = 20 ∨
    z = 21 ∨ z = 22 ∨ z = 23 ∨ z = 24 ∨ z = 25 ∨ z = 26) as Hz by lia.
  repeat destruct Hz as [->|Hz]; [done..|]. by subst.
Qed.

Lemma accepts_error_report limits :
  accepts (decode_error_report limits) (λ bs p, bs = encode_error_report p [] ∧ wire_error limits p).
Proof.
  unfold decode_error_report. do 3 accepts_number. apply accepts_guard.
  rewrite orb_false_iff, negb_false_iff, Z.eqb_eq. intros [Hc ->].
  eapply accepts_field; [exact accepts_string|]. cbv beta. intros s Hs. apply accepts_guard. intros Hn.
  rewrite text_bytes in Hs. apply accepts_ret. split.
  - unfold encode_error_report. rewrite !seqw_nil by apply _. cbn [er_code er_reason er_detail].
    change (of_code a) with (ErrorCode.from_code a). unfold fits in *.
    rewrite error_code_known, from_code_to_code by (lia || done). by rewrite !app_nil_r.
  - split; cbn [er_reason er_detail]; [|lia]. rewrite from_code_to_code. split; [done|apply from_code_named].
Qed.

(** An evaluation request and its answer. *)
Record wire_evaluate_request (limits : Limits) (p : EvaluateCandidatesPayload) : Prop := {
  weq_set : 0 < ev_set_id p < 2 ^ 64;
  weq_generation : generation_field (expected_generation p);
  weq_candidates : Forall (λ c, ok (validate_candidate c limits) = true ∧ wire_candidate limits c)
    (candidates p);
  weq_count : size (candidates p) <= max_candidates_per_evaluation limits
}.

Record wire_batch (limits : Limits) (b : EvaluationBatch) : Prop := {
  wb_set : fits 64 (batch_set_id b);
  wb_generations : generation_field (batch_set_generation b) ∧ generation_field (batch_generation b);
  wb_primary : fits 16 (ReasonCode.to_code (primary_batch_reason b)) ∧ named (primary_batch_reason b);
  wb_records : Forall (wire_evaluation limits) (records b);
  wb_count : size (records b) <= max_candidates_per_evaluation limits;
  wb_order : Forall (λ r, 0 < ranked_path r < 2 ^ 64 ∧ 0 <= record_index r < size (records b))
    (admissible_order b);
  wb_order_count : size (admissible_order b) <= max_candidates_per_evaluation limits
}.

Lemma reads_evaluate_request limits p :
  limits_ok limits = true → wire_evaluate_request limits p →
  reads (decode_evaluate_request limits) (encode_evaluate_request p []) p.
Proof.
  intros HL [H1 H2 H3 H4]. unfold decode_evaluate_request, encode_evaluate_request.
  pose proof (limits_ok_entry limits 4 _ HL eq_refl) as Lc. cbn [snd] in Lc.
  pose proof (generation_field_fits _ H2) as H2'. pose proof (epoch_field _ H2') as [_ Hg].
  read_field; [apply reads_u64; unfold fits; lia|]. read_field; [by apply reads_u64|].
  apply reads_guard; [rewrite (Hg H2); lia|].
  read_last; [apply reads_counted; [apply _|by eapply size_fits32|done|]|].
  { intros c Hc. rewrite Forall_forall in H3. destruct (H3 c Hc). by apply (reads_candidate limits HL). }
  destruct p. apply reads_ret.
Qed.

Lemma representable_field g : generation_field g → representable_or_zero g = g.
Proof.
  unfold generation_field, representable_or_zero. intros Hg. destruct (is_representable g) eqn:E; [done|].
  apply not_true_iff_false in E. rewrite is_representable_true in E by lia. lia.
Qed.

Lemma reads_batch limits b :
  limits_ok limits = true → wire_batch limits b →
  reads (decode_evaluation_batch limits) (encode_evaluation_batch b []) b.
Proof.
  intros HL [H1 [H2 H3] [H4 H4'] H5 H6 H7 H8]. unfold decode_evaluation_batch, encode_evaluation_batch.
  pose proof (limits_ok_entry limits 4 _ HL eq_refl) as Lc. cbn [snd] in Lc.
  rewrite Forall_forall in H5. rewrite Forall_forall in H7.
  read_field; [by apply reads_u64|]. do 2 (read_field; [by apply reads_u64, generation_field_fits|]).
  read_field; [apply reads_u16; by destruct (batch_outcome b)|]. read_field; [by apply reads_u16|].
  read_field; [by apply reads_bool|]. read_field; [by apply reads_u8|].
  apply reads_guard; [by destruct (batch_outcome b)|].
  read_field; [apply reads_counted; [apply _|by eapply size_fits32|done|]|].
  { intros r Hr. by apply reads_evaluation, H5. }
  read_last; [apply reads_counted; [apply _|by eapply size_fits32|done|]|].
  { intros r Hr. destruct (H7 r Hr) as [Hp Hi]. unfold read_ranked, write_ranked.
    read_field; [apply reads_u64; unfold fits; lia|].
    read_last; [apply reads_u32; unfold fits; lia|].
    apply reads_guard; [lia|]. apply reads_guard; [lia|]. destruct r. apply reads_ret. }
  rewrite !representable_field, of_code_code, H4' by done. destruct b. apply reads_ret.
Qed.

(** ** Properties *)

(** C26: The frame format is exact. Decoding returns a frame on the bytes encoding produces
    for it — a known message, fields of their widths, the supported version, the length of
    its payload, within the frame bound — and on no other bytes: a truncated, extended,
    re-versioned or altered frame is refused. *)
Theorem frame_exact limits raw f :
  limits_ok limits = true →
  decode_frame raw limits = Success f ↔ wire_frame limits f ∧ encode_frame f limits = Success raw.
Proof.
  intros HL. rewrite decode_frame_iff by done. split.
  - intros [Hw ->]. split; [done|]. by apply encode_frame_wire.
  - intros [Hw E]. split; [done|]. rewrite encode_frame_wire in E by done. congruence.
Qed.

(** C25: The assembler recovers a stream of frames however the transport cuts it. Any
    chunks whose concatenation is a sequence of frames and the beginning of another
    deliver exactly these frames, in order, and leave the beginning in the buffer, as long
    as each chunk fits beside one unfinished frame. *)
Theorem stream_reassembled limits chunks fs tail :
  limits_ok limits = true → 0 <= max_frame_bytes limits →
  Forall (λ chunk, size chunk + frame_size (max_frame_bytes limits) <=
                   max_frame_assembly_bytes limits + 1) chunks →
  Forall (wire_frame limits) fs → settled (mkAssembler limits tail false) →
  concat chunks = concat (map frame_bytes fs) ++ tail →
  receive chunks (new_assembler limits) = (fs, success, mkAssembler limits tail false).
Proof.
  intros HL H0 Hc Hfs Ht. unfold new_assembler.
  assert (settled (mkAssembler limits [] false)) as Hb by done.
  change (concat chunks) with ([] ++ concat chunks). revert fs Hfs Hb. generalize (@nil byte) as bs.
  induction Hc as [|chunk chunks Hsz Hc IH]; intros bs fs Hfs Hb; cbn [concat receive].
  { rewrite app_nil_r. intros E. destruct fs as [|f fs]; [by rewrite E|].
    apply Forall_cons in Hfs as [Hf _]. cbn [map concat] in E. rewrite <- app_assoc in E.
    by destruct (waits_unframed limits HL _ Hb f (concat (map frame_bytes fs) ++ tail) Hf). }
  rewrite app_assoc. intros E.
  destruct (drain_stream limits HL _ _ _ _ E Hfs Ht) as (fs1 & fs2 & rest & -> & Hd & Hr & E').
  apply Forall_app in Hfs as [_ Hf2]. pose proof (pop_waits limits bs H0 Hb) as Hw.
  unfold push. cbn [failed_ buffer fa_limits]. destruct (_ <? _) eqn:El; [lia|].
  unfold success at 1. rewrite Hd. unfold success at 1. by rewrite (IH rest fs2 Hf2 Hr E').
Qed.

(** Nothing is invented. Whatever bytes arrive in whatever chunks, the frames an
    assembler delivers before it stops are frames that stand in the stream, one after the
    other from its start; when it did not fail what follows them is in its buffer, and when
    it failed its buffer is gone. *)
Theorem frames_authentic limits chunks fs status a :
  limits_ok limits = true → receive chunks (new_assembler limits) = (fs, status, a) →
  Forall (λ f, decode_frame (frame_bytes f) limits = Success f) fs ∧
  ∃ rest, concat chunks = concat (map frame_bytes fs) ++ rest ∧
    (status = success → a = mkAssembler limits rest false) ∧
    (ok status = false → a = mkAssembler limits [] true).
Proof.
  intros HL E. pose proof (receive_spec limits chunks HL []) as H. unfold new_assembler in E.
  rewrite E in H. destruct H as [Hf Hr]. split; [|done].
  eapply Forall_impl; [exact Hf|]. intros f Hw. by apply decode_frame_iff.
Qed.

(** C27: Bounded memory and sticky failure. Through any sequence of pushes, pops and
    resets an assembler buffers no more than its limit, and from a failure until the next
    reset it buffers nothing and refuses everything. *)
Theorem assembler_bounded limits ops more :
  0 <= max_frame_assembly_bytes limits → Reset_ ∉ more →
  let a := fold_left (λ a o, run_assembler o a) ops (new_assembler limits) in
  let b := fold_left (λ a o, run_assembler o a) more a in
  buffered_bytes a <= max_frame_assembly_bytes limits ∧
  (failed_ a = true → buffer a = [] ∧ b = a ∧
     (∀ chunk, ok (push chunk a).1 = false) ∧ ok (pop a).1 = false).
Proof.
  intros HL Hm a b. assert (assembler_ok a ∧ fa_limits a = limits) as [[Hb Hf] Hl].
  { subst a. assert (assembler_ok (new_assembler limits) ∧ fa_limits (new_assembler limits) = limits) as H
      by (by split_and!). revert H. generalize (new_assembler limits) as a.
    induction ops as [|o ops IH]; intros a [Ha Hl]; [done|]. cbn [fold_left].
    apply IH. rewrite <- Hl in HL. destruct (run_assembler_ok o a HL Ha). split; [done|congruence]. }
  split; [by rewrite <- Hl|]. intros Hfail. split_and!; [by apply Hf| |intros chunk|].
  - subst b. clearbody a. induction more as [|o more IH]; [done|]. cbn [fold_left].
    apply not_elem_of_cons in Hm as [Ho Hm]. rewrite <- (IH Hm) at 2. f_equal.
    destruct o as [chunk| |]; [| |done]; cbn [run_assembler]; unfold push, pop; by rewrite Hfail.
  - unfold push. by rewrite Hfail.
  - unfold pop. by rewrite Hfail.
Qed.

(** The loop around [pop] ends. It pops a frame at most once per [kHeaderBytes]
    buffered bytes: [drain] stops because a pop produced nothing or failed, never because
    it ran out of fuel, and more fuel changes nothing. *)
Theorem drain_terminates limits bs fuel :
  limits_ok limits = true → size bs / kHeaderBytes < Z.of_nat fuel →
  let a := mkAssembler limits bs false in
  let '(fs, status, b) := drain a in
  pop_loop fuel a = drain a ∧ size fs * kHeaderBytes <= size bs ∧
  (status = success → settled b) ∧ (ok status = false → failed_ b = true).
Proof.
  intros HL Hf a. pose proof (drain_spec limits HL bs) as Hd. fold a in Hd.
  pose proof (pop_loop_spec limits fuel HL bs Hf) as Hp. fold a in Hp.
  destruct (drain a) as [[fs status] b], (pop_loop fuel a) as [[gs status'] c].
  destruct Hd as (H1 & r1 & -> & D), Hp as (H2 & r2 & E & P).
  assert (unframed limits r1 ∧ unframed limits r2) as [U1 U2].
  { assert (∀ r (st : Status) x, pop (mkAssembler limits r false) = (rbind st (λ _, Success None), x) → unframed limits r) as Hu.
    { intros r st x Hx f rest Hw ->. rewrite (proj2 (pop_frame limits _ f rest HL)) in Hx by done.
      by destruct st. }
    split; [destruct D as [(-> & -> & D)|(_ & _ & D)]|destruct P as [(-> & -> & P)|(_ & _ & P)]];
      first [by eapply waits_unframed|by eapply Hu]. }
  destruct (parse_prefix limits HL _ _ _ _ H1 H2 U2 E) as (hs & -> & Er).
  apply Forall_app in H2 as [_ H2]. destruct hs as [|h hs].
  2: { cbn [map concat] in Er. rewrite <- app_assoc in Er. apply Forall_cons in H2 as [H2 _].
       by destruct (U1 h (concat (map frame_bytes hs) ++ r2) H2). }
  rewrite app_nil_r. cbn in Er. subst r2. split_and!.
  - destruct D as [(-> & -> & D)|(S1 & -> & D)], P as [(-> & -> & P)|(S2 & -> & P)]; [done|..].
    + unfold settled in D. rewrite D in P. by destruct status'.
    + unfold settled in P. rewrite P in D. by destruct status.
    + rewrite D in P. destruct status, status'; try done. by injection P as -> ->.
  - rewrite size_app. pose proof (size_nonneg r1). clear - H1 H.
    enough (size fs * kHeaderBytes <= size (concat (map frame_bytes fs))) by lia.
    clear H. induction H1 as [|f fs _ _ IH]; [done|]. cbn [map concat].
    rewrite size_app, frame_bytes_size. unfold frame_size. pose proof (size_nonneg (payload f)).
    unfold size in *. cbn [length]. lia.
  - intros ->. destruct D as [(_ & _ & D)|(? & _)]; done.
  - intros S. destruct D as [(-> & _)|(_ & -> & _)]; done.
Qed.

(** The handshake and acknowledgement payloads are exact. Each decoder, run on a
    whole payload, accepts the encodings of the values it can mean and nothing else. *)
Theorem payloads_exact limits bs :
  (∀ p, (∃ r, decode_hello limits (open_reader bs) = (Some p, r) ∧ at_end r = true) ↔
     wire_hello limits p ∧ bs = encode_hello p []) ∧
  (∀ p, (∃ r, decode_hello_ack (open_reader bs) = (Some p, r) ∧ at_end r = true) ↔
     wire_hello_ack p ∧ bs = encode_hello_ack p []) ∧
  (∀ p, (∃ r, decode_publish_ack (open_reader bs) = (Some p, r) ∧ at_end r = true) ↔
     wire_publish_ack p ∧ bs = encode_publish_ack p []) ∧
  (∀ p, (∃ r, decode_error_report limits (open_reader bs) = (Some p, r) ∧ at_end r = true) ↔
     wire_error limits p ∧ bs = encode_error_report p []).
Proof.
  split_and!; intros p; apply exact_decoder.
  - apply reads_hello.
  - apply accepts_hello.
  - apply reads_hello_ack.
  - apply accepts_hello_ack.
  - apply reads_publish_ack.
  - apply accepts_publish_ack.
  - apply reads_error_report.
  - apply accepts_error_report.
Qed.

(** An evaluation request and an evaluated batch are read back from their encodings,
    whatever follows them. *)
Theorem evaluation_messages_roundtrip limits p b post :
  limits_ok limits = true → wire_evaluate_request limits p → wire_batch limits b →
  let request := encode_evaluate_request p [] in
  let response := encode_evaluate_response (mkEvaluateAck b) [] in
  decode_evaluate_request limits (open_reader (request ++ post)) =
    (Some p, mkReader (request ++ post) (size request) true) ∧
  decode_evaluate_response limits (open_reader (response ++ post)) =
    (Some (mkEvaluateAck b), mkReader (response ++ post) (size response) true).
Proof.
  intros HL Hp Hb. split.
  - by apply reads_open, reads_evaluate_request.
  - apply reads_open. unfold decode_evaluate_response, encode_evaluate_response. cbn [ack_batch].
    eapply reads_then_ret; [by apply reads_batch|apply reads_ret].
Qed.

(** ** Witnesses *)

Definition sample_frame (id : MessageId.t) (bytes : list byte) : Frame :=
  mkFrame (mkHeader kProtocolVersionValue id 0 (size bytes) 1 7 9 11 13 3) bytes.

Lemma sample_frame_wire id bytes :
  id ≠ MessageId.Invalid → size bytes <= max_frame_bytes default_limits →
  wire_frame default_limits (sample_frame id bytes).
Proof.
  intros Hi Hb. pose proof (size_nonneg bytes).
  assert (max_frame_bytes default_limits = 2 ^ 20) as Hm by done.
  split; [|done..]. split; try done; cbn; unfold fits; lia.
Qed.

(** Two frames and the beginning of a third. *)
Definition sample_frames : list Frame :=
  [sample_frame MessageId.Heartbeat []; sample_frame MessageId.QueryResults [x07; x00]].
Definition sample_tail : list byte := take 70 (frame_bytes (sample_frame MessageId.Shutdown [])).
Definition sample_stream : list byte := concat (map frame_bytes sample_frames) ++ sample_tail.

Lemma sample_frames_wire : Forall (wire_frame default_limits) sample_frames.
Proof. repeat constructor; try done. Qed.

Lemma frame_exact_witness :
  let f := sample_frame MessageId.QueryResults [x07; x00] in
  limits_ok default_limits = true ∧ decode_frame (frame_bytes f) default_limits = Success f.
Proof.
  intros f. split; [reflexivity|]. apply (frame_exact default_limits (frame_bytes f) f eq_refl).
  assert (wire_frame default_limits f) as Hw by (by apply sample_frame_wire).
  split; [exact Hw|]. by apply encode_frame_wire.
Defined.

Lemma stream_reassembled_witness :
  receive [take 10 sample_stream; []; subspan_of 10 200 sample_stream; subspan 210 sample_stream]
    (new_assembler default_limits) =
  (sample_frames, success, mkAssembler default_limits sample_tail false).
Proof.
  apply (stream_reassembled default_limits _ sample_frames sample_tail).
  - reflexivity.
  - vm_compute. discriminate.
  - repeat constructor; vm_compute; discriminate.
  - exact sample_frames_wire.
  - unfold settled. vm_compute. reflexivity.
  - vm_compute. reflexivity.
Defined.

Lemma frames_authentic_witness :
  ∃ rest, sample_stream ++ repeat x00 96 = concat (map frame_bytes sample_frames) ++ rest ∧
    ok (receive [sample_stream; repeat x00 96] (new_assembler default_limits)).1.2 = false.
Proof.
  assert (receive [sample_stream; repeat x00 96] (new_assembler default_limits) =
    (sample_frames, Failure ErrorCode.IntegrityMismatch "frame digest does not match",
     mkAssembler default_limits [] true)) as E by (vm_compute; reflexivity).
  destruct (frames_authentic default_limits _ _ _ _ eq_refl E) as (_ & rest & Hr & _).
  exists rest. rewrite E. split; [|reflexivity]. rewrite <- Hr. cbn [concat]. by rewrite app_nil_r.
Defined.

Lemma assembler_bounded_witness :
  let a := fold_left (λ a o, run_assembler o a) [Push (repeat x00 96); Pop] (new_assembler default_limits) in
  failed_ a = true ∧ ok (push [x01] a).1 = false ∧ run_assembler (Push [x01]) a = a.
Proof.
  assert (0 <= max_frame_assembly_bytes default_limits) as H0 by (vm_compute; discriminate).
  assert (Reset_ ∉ [Push [x01]]) as Hr by (intros [?|[]%elem_of_nil]%elem_of_cons; done).
  destruct (assembler_bounded default_limits [Push (repeat x00 96); Pop] [Push [x01]] H0 Hr) as [_ H].
  destruct (H eq_refl) as (_ & Hb & Hp & _). split; [reflexivity|]. split; [apply Hp|exact Hb].
Defined.

Lemma drain_terminates_witness :
  drain (mkAssembler default_limits sample_stream false) =
    pop_loop 100 (mkAssembler default_limits sample_stream false) ∧
  2 * kHeaderBytes <= size sample_stream.
Proof.
  assert (size sample_stream / kHeaderBytes < Z.of_nat 100) as Hf by (vm_compute; reflexivity).
  pose proof (drain_terminates default_limits sample_stream 100 eq_refl Hf) as H. cbv zeta in H.
  assert (drain (mkAssembler default_limits sample_stream false) =
    (sample_frames, success, mkAssembler default_limits sample_tail false)) as E
    by (vm_compute; reflexivity).
  rewrite E in H |- *. destruct H as (Hl & Hs & _). split; [symmetry; exact Hl|exact Hs].
Defined.

Definition sample_request : EvaluateCandidatesPayload := mkEvaluateRequest 7 0 [sample_candidate 1 7].

Definition sample_batch : EvaluationBatch :=
  mkBatch 7 1 4 BatchOutcome.AdmissibleCandidatesAvailable true
    [sample_record 1 Outcome.Admissible [] [mkSlot 3 ConstraintKind.MaxHopCount 1 1 10 true 2]]
    [mkRanked 1 0] ReasonCode.None.

Lemma sample_request_wire : wire_evaluate_request default_limits sample_request.
Proof.
  split; unfold generation_field; cbn [sample_request ev_set_id expected_generation candidates].
  - lia.
  - lia.
  - apply Forall_singleton. split; [vm_compute; reflexivity|].
    apply sample_candidate_wire. lia.
  - vm_compute. discriminate.
Qed.

Lemma sample_batch_wire : wire_batch default_limits sample_batch.
Proof.
  split; cbn; unfold generation_field, fits, size; cbn; try lia.
  - split; [lia|reflexivity].
  - repeat constructor; cbn; unfold fits, generation_field, fits_i64, size; cbn; try lia.
  - repeat constructor; cbn; lia.
Qed.

Lemma evaluation_messages_roundtrip_witness :
  let request := encode_evaluate_request sample_request [] in
  let response := encode_evaluate_response (mkEvaluateAck sample_batch) [] in
  decode_evaluate_request default_limits (open_reader (request ++ [x01])) =
    (Some sample_request, mkReader (request ++ [x01]) (size request) true) ∧
  decode_evaluate_response default_limits (open_reader (response ++ [x01])) =
    (Some (mkEvaluateAck sample_batch), mkReader (response ++ [x01]) (size response) true).
Proof.
  exact (evaluation_messages_roundtrip default_limits sample_request sample_batch [x01] eq_refl
    sample_request_wire sample_batch_wire).
Defined.
