(* ===== verification/Snapshot.v ===== *)
(** Immutable snapshots, their differences and their encoding: [snapshot.hpp],
    [snapshot.cpp], and the queries of [coordinator.cpp] that take them.

    A [std::map] keyed by path is a [gmap]; its iteration is [entries]. The pointers the
    maps hold are the views they point to, which nothing changes. *)

From Stdlib Require Import ZArith Lia Bool Strings.Byte.
From stdpp Require Import base list numbers strings gmap.
From S2P Require Import Prelude Containers Base Codec Digest Lifecycle Constraint Candidate.
From S2P Require Import Evaluation Ordering ConstraintSet Persistence Coordinator.

Open Scope string_scope.
Open Scope list_scope.
Open Scope Z_scope.

(** ** Snapshots *)

Record DefinitionsSnapshot := mkDefinitions {
  ds_id : Z;
  ds_set_id : Z;
  ds_generation : Z;
  ds_state : ConstraintSetState.t;
  ds_constraints : list Constraint;
  ds_evidence : EvidenceRequirements;
  ds_ranking : RankingPolicy;
  ds_digest : Digest256
}.

Record CandidateResultView := mkView {
  vw_path : Z;
  vw_authority_generation : Z;
  vw_outcome : Outcome.t;
  vw_primary_reason : ReasonCode.t;
  vw_state : ResultState.t;
  vw_evaluation_id : Z;
  vw_evaluation_generation : Z;
  vw_digest : Digest256
}.

Record ResultsSnapshot := mkResults {
  rs_id : Z;
  rs_set_id : Z;
  rs_set_generation : Z;
  rs_evaluation_generation : Z;
  rs_entries : list CandidateResultView;
  rs_digest : Digest256
}.

Definition feed_entry (e : CandidateResultView) : hashing :=
  hash_u64 (vw_path e) ++ hash_u64 (vw_authority_generation e) ++ hash_u16 (code (vw_outcome e)) ++
  hash_u16 (ReasonCode.to_code (vw_primary_reason e)) ++ hash_u8 (code (vw_state e)) ++
  hash_u64 (vw_evaluation_id e) ++ hash_u64 (vw_evaluation_generation e) ++ hash_digest (vw_digest e).

(** [SnapshotId::from_value(value == 0 ? 1u : value)]. *)
Definition snapshot_id_of (d : Digest256) : Z :=
  let value := leading_u64 d in if value =? 0 then 1 else value.

(** The identity reads the fields but [id]. *)
Definition definitions_snapshot_id (set_id generation : Z) (state : ConstraintSetState.t)
    (digest : Digest256) : Z :=
  snapshot_id_of (digest_of "crf.definitions-snapshot.v1"
    (hash_u64 set_id ++ hash_u64 generation ++ hash_u8 (code state) ++ hash_digest digest)).

Definition snapshot_definitions (s : ConstraintSet) : DefinitionsSnapshot :=
  mkDefinitions (definitions_snapshot_id (cs_id s) (cs_generation s) (cs_state s) (cs_digest s))
    (cs_id s) (cs_generation s) (cs_state s) (constraints s) (requirements s) (ranking s)
    (cs_digest s).

Definition view_less (a b : CandidateResultView) : bool :=
  if negb (vw_path a =? vw_path b) then vw_path a <? vw_path b
  else vw_evaluation_generation a <? vw_evaluation_generation b.

Definition results_digest (set_id set_generation generation : Z) (entries : list CandidateResultView)
    : Digest256 :=
  digest_of "crf.results-snapshot.v1"
    (hash_u64 set_id ++ hash_u64 set_generation ++ hash_u64 generation ++
     hash_u32 (wrap 32 (size entries)) ++ hash_each feed_entry entries).

Definition results_snapshot_id (digest : Digest256) : Z := snapshot_id_of digest.

Definition snapshot_results (set_id set_generation generation : Z) (entries : list CandidateResultView)
    : ResultsSnapshot :=
  let entries := stable_sort view_less entries in
  let digest := results_digest set_id set_generation generation entries in
  mkResults (results_snapshot_id digest) set_id set_generation generation entries digest.

(** ** Differences *)

Module ResultChangeKind.
Inductive t :=
  | Appeared | Disappeared | OutcomeChanged | ReasonChanged | CurrentnessChanged
  | AuthorityGenerationChanged | EvidenceDigestChanged.

Definition to_code (x : t) : Z :=
  match x with
  | Appeared => 1 | Disappeared => 2 | OutcomeChanged => 3 | ReasonChanged => 4
  | CurrentnessChanged => 5 | AuthorityGenerationChanged => 6 | EvidenceDigestChanged => 7
  end.

Definition from_code (z : Z) : t :=
  match z with
  | 2 => Disappeared | 3 => OutcomeChanged | 4 => ReasonChanged | 5 => CurrentnessChanged
  | 6 => AuthorityGenerationChanged | 7 => EvidenceDigestChanged | _ => Appeared
  end.

Definition to_string (x : t) : string :=
  match x with
  | Appeared => "Appeared" | Disappeared => "Disappeared" | OutcomeChanged => "OutcomeChanged"
  | ReasonChanged => "ReasonChanged" | CurrentnessChanged => "CurrentnessChanged"
  | AuthorityGenerationChanged => "AuthorityGenerationChanged"
  | EvidenceDigestChanged => "EvidenceDigestChanged"
  end.
End ResultChangeKind.

#[export] Instance ResultChangeKind_enum : Enum ResultChangeKind.t.
Proof.
  refine {| code := ResultChangeKind.to_code; of_code := ResultChangeKind.from_code |}.
  by intros [].
Defined.

Record ResultChange := mkResultChange {
  rc_kind : ResultChangeKind.t;
  rc_path : Z;
  from_outcome : Outcome.t;
  to_outcome : Outcome.t;
  from_reason : ReasonCode.t;
  to_reason : ReasonCode.t;
  rc_from_state : ResultState.t;
  rc_to_state : ResultState.t
}.

Record ResultsDiff := mkResultsDiff {
  from_snapshot : Z;
  to_snapshot : Z;
  rd_from_generation : Z;
  rd_to_generation : Z;
  from_evaluation_generation : Z;
  to_evaluation_generation : Z;
  result_changes : list ResultChange;
  rd_from_digest : Digest256;
  rd_to_digest : Digest256
}.

(** One round of the loops that keep the newest result of each path. *)
Definition keep_newest (m : gmap Z CandidateResultView) (e : CandidateResultView)
    : gmap Z CandidateResultView :=
  match m !! vw_path e with
  | None => <[vw_path e := e]> m
  | Some previous =>
      if vw_evaluation_generation previous <? vw_evaluation_generation e
      then <[vw_path e := e]> m else m
  end.
Definition newest_by_path (entries : list CandidateResultView) : gmap Z CandidateResultView :=
  fold_left keep_newest entries ∅.

Definition disappeared (before : CandidateResultView) : ResultChange :=
  mkResultChange ResultChangeKind.Disappeared (vw_path before) (vw_outcome before) Outcome.Malformed
    (vw_primary_reason before) ReasonCode.None (vw_state before) ResultState.Current.
Definition appeared (after : CandidateResultView) : ResultChange :=
  mkResultChange ResultChangeKind.Appeared (vw_path after) Outcome.Malformed (vw_outcome after)
    ReasonCode.None (vw_primary_reason after) ResultState.Current (vw_state after).
Definition judgement_changed (kind : ResultChangeKind.t) (before after : CandidateResultView)
    : ResultChange :=
  mkResultChange kind (vw_path before) (vw_outcome before) (vw_outcome after)
    (vw_primary_reason before) (vw_primary_reason after) (vw_state before) (vw_state after).
Definition binding_changed (kind : ResultChangeKind.t) (before after : CandidateResultView)
    : ResultChange :=
  mkResultChange kind (vw_path before) Outcome.Malformed Outcome.Malformed ReasonCode.None
    ReasonCode.None (vw_state before) (vw_state after).

(** The change between two results of one path, by the first field that differs. *)
Definition compare_views (before after : CandidateResultView) : list ResultChange :=
  if negb (eeqb (vw_outcome before) (vw_outcome after)) then
    [judgement_changed ResultChangeKind.OutcomeChanged before after]
  else if negb (reason_code_eqb (vw_primary_reason before) (vw_primary_reason after)) then
    [judgement_changed ResultChangeKind.ReasonChanged before after]
  else if negb (eeqb (vw_state before) (vw_state after)) then
    [binding_changed ResultChangeKind.CurrentnessChanged before after]
  else if negb (vw_authority_generation before =? vw_authority_generation after) then
    [binding_changed ResultChangeKind.AuthorityGenerationChanged before after]
  else if negb (digest_eqb (vw_digest before) (vw_digest after)) then
    [binding_changed ResultChangeKind.EvidenceDigestChanged before after]
  else [].

Definition left_changes (right : gmap Z CandidateResultView) (e : Z * CandidateResultView)
    : list ResultChange :=
  match right !! e.1 with
  | None => [disappeared e.2]
  | Some after => compare_views e.2 after
  end.
Definition right_changes (left : gmap Z CandidateResultView) (e : Z * CandidateResultView)
    : list ResultChange :=
  match left !! e.1 with
  | None => [appeared e.2]
  | Some _ => []
  end.

Definition result_change_less (a b : ResultChange) : bool :=
  if negb (rc_path a =? rc_path b) then rc_path a <? rc_path b
  else if negb (eeqb (rc_kind a) (rc_kind b)) then code (rc_kind a) <? code (rc_kind b)
  else ReasonCode.to_code (to_reason a) <? ReasonCode.to_code (to_reason b).

(** No two changes compare equal, so [std::sort] has one result. *)
Definition diff_results (from to : ResultsSnapshot) : ResultsDiff :=
  let left := newest_by_path (rs_entries from) in
  let right := newest_by_path (rs_entries to) in
  let found := concat (map (left_changes right) (entries Z.ltb left)) ++
               concat (map (right_changes left) (entries Z.ltb right)) in
  mkResultsDiff (rs_id from) (rs_id to) (rs_set_generation from) (rs_set_generation to)
    (rs_evaluation_generation from) (rs_evaluation_generation to)
    (stable_sort result_change_less found) (rs_digest from) (rs_digest to).

Record EvidenceGenerationChange := mkEvidenceChange {
  egc_family : EvidenceFamily.t;
  egc_from : Z;
  egc_to : Z
}.

(** [add]. *)
Definition evidence_change (family : EvidenceFamily.t) (before after : Z)
    : list EvidenceGenerationChange :=
  if negb (before =? after) then [mkEvidenceChange family before after] else [].

Definition diff_evidence_requirements (from to : EvidenceRequirements)
    : list EvidenceGenerationChange :=
  evidence_change EvidenceFamily.Topology (req_topology from) (req_topology to) ++
  evidence_change EvidenceFamily.LinkState (req_link_state from) (req_link_state to) ++
  evidence_change EvidenceFamily.Capability (req_capability from) (req_capability to) ++
  evidence_change EvidenceFamily.FailureDomain (req_failure_domain from) (req_failure_domain to) ++
  evidence_change EvidenceFamily.Policy (req_policy from) (req_policy to) ++
  evidence_change EvidenceFamily.Planner (req_planner from) (req_planner to) ++
  evidence_change EvidenceFamily.PathAuthority (req_path_authority from) (req_path_authority to).

(** ** Encoding *)

(** [write_evidence] and [read_evidence], which [messages.cpp] repeats. *)
Definition write_evidence_requirements (e : EvidenceRequirements) : writing :=
  put_u64 (req_topology e) ;;> put_u64 (req_link_state e) ;;> put_u64 (req_capability e) ;;>
  put_u64 (req_failure_domain e) ;;> put_u64 (req_policy e) ;;> put_u64 (req_planner e) ;;>
  put_u64 (req_path_authority e) ;;> put_u64 (max_evidence_age_ticks e).

Definition read_evidence_requirements : reader EvidenceRequirements :=
  topology ← read_generation_field; link_state ← read_generation_field;
  capability ← read_generation_field; failure_domain ← read_generation_field;
  policy ← read_generation_field; planner ← read_generation_field;
  path_authority ← read_generation_field; age ← u64;
  mret (mkRequirements topology link_state capability failure_domain policy planner
    path_authority age).

Definition encode_definitions_snapshot (d : DefinitionsSnapshot) : writing :=
  put_u64 (ds_id d) ;;> put_u64 (ds_set_id d) ;;> put_u64 (ds_generation d) ;;>
  put_u8 (code (ds_state d)) ;;> put_u8 0 ;;> put_u16 0 ;;> put_u32 0 ;;>
  write_counted encode_constraint (ds_constraints d) ;;>
  write_evidence_requirements (ds_evidence d) ;;> encode_ranking_policy (ds_ranking d) ;;>
  put_raw (ds_digest d).

(** [raw != 0] must be representable; zero keeps the invalid value. *)
Definition optional_generation (raw : Z) : reader Z :=
  _ ← fail_if (negb (raw =? 0) && negb (is_representable raw)); mret raw.

Definition decode_definitions_snapshot (limits : Limits) : reader DefinitionsSnapshot :=
  id ← u64; set_id ← u64; generation ← u64; state ← u8; padding8 ← u8; padding16 ← u16;
  padding32 ← u32;
  _ ← fail_if (negb (padding8 =? 0) || negb (padding16 =? 0) || negb (padding32 =? 0) ||
               (state =? 0) || (7 <? state));
  generation ← optional_generation generation;
  constraints ← read_counted (decode_constraint limits) (max_constraints_per_set limits);
  evidence ← read_evidence_requirements; ranking ← decode_ranking_policy; digest ← raw kSize;
  mret (mkDefinitions id set_id generation (of_code state) constraints evidence ranking digest).

Definition write_view (e : CandidateResultView) : writing :=
  put_u64 (vw_path e) ;;> put_u64 (vw_authority_generation e) ;;> put_u16 (code (vw_outcome e)) ;;>
  put_u16 (ReasonCode.to_code (vw_primary_reason e)) ;;> put_u8 (code (vw_state e)) ;;> put_u8 0 ;;>
  put_u16 0 ;;> put_u64 (vw_evaluation_id e) ;;> put_u64 (vw_evaluation_generation e) ;;>
  put_raw (vw_digest e).

Definition encode_results_snapshot (s : ResultsSnapshot) : writing :=
  put_u64 (rs_id s) ;;> put_u64 (rs_set_id s) ;;> put_u64 (rs_set_generation s) ;;>
  put_u64 (rs_evaluation_generation s) ;;> write_counted write_view (rs_entries s) ;;>
  put_raw (rs_digest s).

(** One round of the loop, given [previous]. *)
Definition read_view (previous : option CandidateResultView) : reader CandidateResultView :=
  path ← u64; authority ← u64; outcome ← u16; reason ← u16; state ← u8; padding8 ← u8;
  padding16 ← u16; evaluation_id ← u64; generation ← u64;
  _ ← fail_if (negb (padding8 =? 0) || negb (padding16 =? 0) || (10 <? outcome) || (state =? 0) ||
               (5 <? state) || (path =? 0));
  digest ← raw kSize; authority ← optional_generation authority;
  generation ← optional_generation generation;
  _ ← fail_if (match previous with Some p => negb (vw_path p <? path) | None => false end);
  mret (mkView path authority (of_code outcome) (ReasonCode.from_code reason) (of_code state)
    evaluation_id generation digest).

Fixpoint read_views (count : nat) (previous : option CandidateResultView)
    : reader (list CandidateResultView) :=
  match count with
  | O => mret []
  | S count' =>
      entry ← read_view previous; rest ← read_views count' (Some entry); mret (entry :: rest)
  end.

Definition decode_results_snapshot (limits : Limits) : reader ResultsSnapshot :=
  id ← u64; set_id ← u64; set_generation ← u64; generation ← u64;
  set_generation ← optional_generation set_generation; generation ← optional_generation generation;
  count ← bounded_length (max_evaluations_retained limits);
  entries ← read_views (Z.to_nat count) None; digest ← raw kSize;
  mret (mkResults id set_id set_generation generation entries digest).

(** ** The queries of the coordinator *)

Definition query_definitions (set_id_ : Z) (i : Impl) : Result DefinitionsSnapshot :=
  match find_set set_id_ (im_sets i) with
  | None => Failure ErrorCode.NotFound "constraint set is not known"
  | Some s => Success (snapshot_definitions s)
  end.

Definition view_of (r : EvaluationRecord) : CandidateResultView :=
  mkView (rec_path r) (rec_authority_generation r) (outcome r) (primary_reason r) (state r)
    (rec_id r) (rec_generation r) (digest r).

Definition query_results (set_id_ : Z) (i : Impl) : Result ResultsSnapshot :=
  match find_set set_id_ (im_sets i) with
  | None => Failure ErrorCode.NotFound "constraint set is not known"
  | Some s =>
      Success (snapshot_results set_id_ (cs_generation s) (im_last_generation i)
        (map view_of (List.filter (λ r, set_id r =? set_id_) (im_evaluations i))))
  end.
