(* ===== verification/SnapshotCorrect.v ===== *)
(** Properties of the snapshots of [Snapshot.v]: a difference describes exactly what
    changed, a snapshot does not depend on the order of the records it was taken from, and
    which snapshots survive their own encoding. *)

From Stdlib Require Import ZArith Lia Bool Strings.Byte.
From stdpp Require Import base list numbers strings gmap sorting.
From S2P Require Import Prelude Containers Base Codec Digest Lifecycle Constraint Candidate.
From S2P Require Import Evaluation Ordering ConstraintSet Authority Invalidation Persistence Coordinator.
From S2P Require Import Exact Snapshot.

Open Scope string_scope.
Open Scope list_scope.
Open Scope Z_scope.

(** ** Lemmas: the newest result of a path *)

Lemma keep_newest_lookup m e p :
  keep_newest m e !! p =
  if vw_path e =? p then
    match m !! p with
    | Some x => Some (if vw_evaluation_generation x <? vw_evaluation_generation e then e else x)
    | None => Some e
    end
  else m !! p.
Proof.
  unfold keep_newest. destruct (vw_path e =? p) eqn:E.
  - apply Z.eqb_eq in E as <-. destruct (m !! vw_path e) as [x|] eqn:Ex; [|by rewrite lookup_insert_eq].
    destruct (_ <? _); [by rewrite lookup_insert_eq|done].
  - apply Z.eqb_neq in E. destruct (m !! vw_path e); [destruct (_ <? _)|]; by rewrite ?lookup_insert_ne.
Qed.

(** The newest entry of a path: of the highest generation, and the first of these. *)
Definition newest_of (entries : list CandidateResultView) (p : Z) (e : CandidateResultView) : Prop :=
  vw_path e = p ∧ ∃ i, entries !! i = Some e ∧
  ∀ j x, entries !! j = Some x → vw_path x = p →
    vw_evaluation_generation x <= vw_evaluation_generation e ∧
    ((j < i)%nat → vw_evaluation_generation x < vw_evaluation_generation e).

Definition absent (entries : list CandidateResultView) (p : Z) : Prop :=
  ∀ x, x ∈ entries → vw_path x ≠ p.

Lemma newest_of_unique entries p e e' : newest_of entries p e → newest_of entries p e' → e = e'.
Proof.
  intros (Hp & i & Hi & H) (Hp' & j & Hj & H'). destruct (H j e' Hj Hp'), (H' i e Hi Hp).
  destruct (Nat.lt_trichotomy i j) as [?|[<-|?]]; [lia|congruence|lia].
Qed.

Lemma newest_of_present entries p e : newest_of entries p e → ¬ absent entries p.
Proof. intros (Hp & i & Hi & _) Ha. by apply (Ha e); [apply list_elem_of_lookup; exists i|]. Qed.

Lemma lookup_snoc_cases {A} (l : list A) x j y :
  (l ++ [x]) !! j = Some y → l !! j = Some y ∨ j = length l ∧ y = x.
Proof.
  intros [Hj|[Hl Hj]]%lookup_app_Some; [by left|right].
  apply list_lookup_singleton_Some in Hj as [Hj ->]. split; [lia|done].
Qed.

(** The newest entry after one more. *)
Lemma newest_of_snoc entries x p e :
  newest_of entries p e → vw_path x = p →
  newest_of (entries ++ [x]) p (if vw_evaluation_generation e <? vw_evaluation_generation x then x else e).
Proof.
  intros (Hp & i & Hi & H) Hx. pose proof (lookup_lt_Some _ _ _ Hi) as Hl. destruct (_ <? _) eqn:E.
  - split; [done|]. exists (length entries). split; [by rewrite list_lookup_middle|].
    intros j y [Hy|[-> ->]]%lookup_snoc_cases Hpy; [|split; lia].
    destruct (H j y Hy Hpy). split; lia.
  - split; [done|]. exists i. split; [by apply lookup_app_l_Some|].
    intros j y [Hy|[-> ->]]%lookup_snoc_cases Hpy; [by apply (H j)|split; lia].
Qed.

Lemma newest_of_other entries x p e :
  newest_of entries p e → vw_path x ≠ p → newest_of (entries ++ [x]) p e.
Proof.
  intros (Hp & i & Hi & H) Hx. split; [done|]. exists i. split; [by apply lookup_app_l_Some|].
  intros j y [Hy|[_ ->]]%lookup_snoc_cases Hpy; [by apply (H j)|done].
Qed.

Lemma newest_by_path_lookup entries p :
  match newest_by_path entries !! p with
  | Some e => newest_of entries p e
  | None => absent entries p
  end.
Proof.
  unfold newest_by_path. induction entries as [|x entries IH] using rev_ind.
  { cbn [fold_left]. rewrite lookup_empty. intros x Hx. by apply elem_of_nil in Hx. }
  rewrite fold_left_app. cbn [fold_left]. rewrite keep_newest_lookup.
  set (m := fold_left _ _ _) in *. destruct (vw_path x =? p) eqn:E.
  - apply Z.eqb_eq in E. destruct (m !! p) as [e|] eqn:Em.
    + by apply newest_of_snoc.
    + split; [done|]. exists (length entries). split; [by rewrite list_lookup_middle|].
      intros j y [Hy|[-> ->]]%lookup_snoc_cases Hpy; [|split; lia].
      by destruct (IH y (list_elem_of_lookup_2 _ _ _ Hy)).
  - apply Z.eqb_neq in E. destruct (m !! p) as [e|] eqn:Em.
    + by apply newest_of_other.
    + intros y [Hy|Hy]%elem_of_app; [by apply IH|]. by apply list_elem_of_singleton in Hy as ->.
Qed.

Lemma newest_by_path_iff entries p e : newest_by_path entries !! p = Some e ↔ newest_of entries p e.
Proof.
  pose proof (newest_by_path_lookup entries p) as H. destruct (newest_by_path entries !! p) as [x|].
  - split; [by intros [= <-]|]. intros He. f_equal. by apply (newest_of_unique entries p).
  - split; [done|]. intros He. by destruct (newest_of_present entries p e).
Qed.

Lemma newest_by_path_None entries p : newest_by_path entries !! p = None ↔ absent entries p.
Proof.
  pose proof (newest_by_path_lookup entries p) as H. destruct (newest_by_path entries !! p) as [x|]; [|done].
  split; [done|]. intros Ha. by destruct (newest_of_present entries p x).
Qed.

Lemma newest_path entries p e : newest_by_path entries !! p = Some e → vw_path e = p.
Proof. intros E%newest_by_path_iff. apply E. Qed.

(** ** Lemmas: changes *)

Lemma compare_views_path before after c :
  c ∈ compare_views before after → rc_path c = vw_path before.
Proof.
  unfold compare_views. repeat destruct (negb _); intros Hc;
    first [by apply elem_of_nil in Hc|apply list_elem_of_singleton in Hc; by subst c].
Qed.

Lemma compare_views_same before after :
  compare_views before after = [] ↔
  vw_outcome before = vw_outcome after ∧
  ReasonCode.to_code (vw_primary_reason before) = ReasonCode.to_code (vw_primary_reason after) ∧
  vw_state before = vw_state after ∧ vw_authority_generation before = vw_authority_generation after ∧
  vw_digest before = vw_digest after.
Proof.
  unfold compare_views, reason_code_eqb. rewrite <- !eeqb_eq, <- digest_eqb_eq, <- !Z.eqb_eq.
  destruct (eeqb (vw_outcome before) _), (_ =? ReasonCode.to_code _), (eeqb (vw_state before) _),
    (vw_authority_generation before =? _), (digest_eqb _ _); cbn [negb]; naive_solver.
Qed.

(** The change a diff reports for a path. *)
Definition change_of (before after : option CandidateResultView) : list ResultChange :=
  match before, after with
  | None, None => []
  | Some b, None => [disappeared b]
  | None, Some a => [appeared a]
  | Some b, Some a => compare_views b a
  end.

(** What a difference reports, rule by rule. *)
Inductive reported (before after : list CandidateResultView) : ResultChange → Prop :=
  | reported_disappeared p b : newest_of before p b → absent after p →
      reported before after (mkResultChange ResultChangeKind.Disappeared p
        (vw_outcome b) Outcome.Malformed (vw_primary_reason b) ReasonCode.None
        (vw_state b) ResultState.Current)
  | reported_appeared p a : absent before p → newest_of after p a →
      reported before after (mkResultChange ResultChangeKind.Appeared p
        Outcome.Malformed (vw_outcome a) ReasonCode.None (vw_primary_reason a)
        ResultState.Current (vw_state a))
  | reported_outcome p b a : newest_of before p b → newest_of after p a →
      vw_outcome b ≠ vw_outcome a →
      reported before after (mkResultChange ResultChangeKind.OutcomeChanged p
        (vw_outcome b) (vw_outcome a) (vw_primary_reason b) (vw_primary_reason a)
        (vw_state b) (vw_state a))
  | reported_reason p b a : newest_of before p b → newest_of after p a →
      vw_outcome b = vw_outcome a →
      ReasonCode.to_code (vw_primary_reason b) ≠ ReasonCode.to_code (vw_primary_reason a) →
      reported before after (mkResultChange ResultChangeKind.ReasonChanged p
        (vw_outcome b) (vw_outcome a) (vw_primary_reason b) (vw_primary_reason a)
        (vw_state b) (vw_state a))
  | reported_binding p b a kind : newest_of before p b → newest_of after p a →
      vw_outcome b = vw_outcome a →
      ReasonCode.to_code (vw_primary_reason b) = ReasonCode.to_code (vw_primary_reason a) →
      match kind with
      | ResultChangeKind.CurrentnessChanged => vw_state b ≠ vw_state a
      | ResultChangeKind.AuthorityGenerationChanged =>
          vw_state b = vw_state a ∧ vw_authority_generation b ≠ vw_authority_generation a
      | ResultChangeKind.EvidenceDigestChanged =>
          vw_state b = vw_state a ∧ vw_authority_generation b = vw_authority_generation a ∧
          vw_digest b ≠ vw_digest a
      | _ => False
      end →
      reported before after (mkResultChange kind p Outcome.Malformed Outcome.Malformed
        ReasonCode.None ReasonCode.None (vw_state b) (vw_state a)).

Lemma compare_views_reported before after p b a c :
  newest_of before p b → newest_of after p a → c ∈ compare_views b a → reported before after c.
Proof.
  intros Hb Ha. pose proof (proj1 Hb) as <-. unfold compare_views, reason_code_eqb.
  destruct (eeqb (vw_outcome b) _) eqn:E1; cbn [negb];
    [apply eeqb_eq in E1|intros Hc; apply list_elem_of_singleton in Hc as ->; apply (reported_outcome _ _ _ _ _ Hb Ha);
      by apply eeqb_neq].
  destruct (ReasonCode.to_code _ =? _) eqn:E2; cbn [negb];
    [apply Z.eqb_eq in E2|intros Hc; apply list_elem_of_singleton in Hc as ->; apply (reported_reason _ _ _ _ _ Hb Ha E1);
      by apply Z.eqb_neq].
  pose proof (reported_binding before after (vw_path b) b a) as Hk.
  destruct (eeqb (vw_state b) _) eqn:E3; cbn [negb];
    [apply eeqb_eq in E3|intros Hc; apply list_elem_of_singleton in Hc as ->; apply Hk; [done..|];
      by apply eeqb_neq].
  destruct (vw_authority_generation b =? _) eqn:E4; cbn [negb];
    [apply Z.eqb_eq in E4|intros Hc; apply list_elem_of_singleton in Hc as ->; apply Hk; [done..|]; split; [done|];
      by apply Z.eqb_neq].
  destruct (digest_eqb _ _) eqn:E5; cbn [negb]; [by intros ?%elem_of_nil|].
  intros Hc. apply list_elem_of_singleton in Hc as ->. apply Hk; [done..|]. split_and!; [done..|].
  intros E. by rewrite <- digest_eqb_eq, E5 in E.
Qed.

Lemma reported_change_of before after c :
  reported before after c →
  c ∈ change_of (newest_by_path before !! rc_path c) (newest_by_path after !! rc_path c).
Proof.
  intros Hc. assert (∀ p b, newest_of before p b → newest_by_path before !! p = Some b ∧ vw_path b = p) as Hl
    by (intros p b Hb; split; [by apply newest_by_path_iff|apply Hb]).
  assert (∀ p a, newest_of after p a → newest_by_path after !! p = Some a ∧ vw_path a = p) as Hr
    by (intros p a Ha; split; [by apply newest_by_path_iff|apply Ha]).
  destruct Hc as [p b Hb Ha|p a Hb Ha|p b a Hb Ha H1|p b a Hb Ha H1 H2|p b a kind Hb Ha H1 H2 H3];
    cbn [rc_path].
  - apply Hl in Hb as [-> <-]. apply newest_by_path_None in Ha as ->. by apply list_elem_of_singleton.
  - apply Hr in Ha as [-> <-]. apply newest_by_path_None in Hb as ->. by apply list_elem_of_singleton.
  - apply Hl in Hb as [-> <-]. apply Hr in Ha as [-> _].
    unfold change_of, compare_views. apply eeqb_neq in H1 as ->. by apply list_elem_of_singleton.
  - apply Hl in Hb as [-> <-]. apply Hr in Ha as [-> _].
    unfold change_of, compare_views, reason_code_eqb. rewrite H1, eeqb_refl. cbn [negb].
    apply Z.eqb_neq in H2 as ->. cbn [negb]. apply list_elem_of_singleton. unfold judgement_changed. by rewrite H1.
  - apply Hl in Hb as [-> <-]. apply Hr in Ha as [-> _].
    unfold change_of, compare_views, reason_code_eqb, binding_changed. rewrite H1, eeqb_refl, H2, Z.eqb_refl. cbn [negb].
    destruct kind; try done.
    + apply eeqb_neq in H3 as ->. by apply list_elem_of_singleton.
    + destruct H3 as [-> H3]. rewrite eeqb_refl. apply Z.eqb_neq in H3 as ->. cbn [negb]. by apply list_elem_of_singleton.
    + destruct H3 as (-> & -> & H3). rewrite eeqb_refl, Z.eqb_refl. cbn [negb].
      destruct (digest_eqb _ _) eqn:E; [by apply digest_eqb_eq in E|]. by apply list_elem_of_singleton.
Qed.

Lemma change_of_reported before after c :
  c ∈ change_of (newest_by_path before !! rc_path c) (newest_by_path after !! rc_path c) ↔
  reported before after c.
Proof.
  split; [|apply reported_change_of]. intros Hc.
  destruct (newest_by_path before !! rc_path c) as [b|] eqn:Eb, (newest_by_path after !! rc_path c) as [a|] eqn:Ea;
    cbn [change_of] in Hc; rewrite ?newest_by_path_iff, ?newest_by_path_None in Eb;
    rewrite ?newest_by_path_iff, ?newest_by_path_None in Ea.
  - by apply (compare_views_reported _ _ (rc_path c) b a).
  - apply list_elem_of_singleton in Hc as ->. cbn in Eb, Ea. by constructor.
  - apply list_elem_of_singleton in Hc as ->. cbn in Eb, Ea. by constructor.
  - by apply elem_of_nil in Hc.
Qed.

Definition found_result_changes (left right : gmap Z CandidateResultView) : list ResultChange :=
  concat (map (left_changes right) (entries Z.ltb left)) ++
  concat (map (right_changes left) (entries Z.ltb right)).

Lemma concat_map_elem {A B} (f : A → list B) l y :
  y ∈ concat (map f l) ↔ ∃ x, x ∈ l ∧ y ∈ f x.
Proof.
  rewrite list_elem_of_In, in_concat. split.
  - intros (k & Hk & Hy). apply list_elem_of_In, list_elem_of_fmap in Hk as (x & -> & Hx).
    exists x. split; [done|by apply list_elem_of_In].
  - intros (x & Hx & Hy). exists (f x). split; [|by apply list_elem_of_In].
    by apply list_elem_of_In, (list_elem_of_fmap_2 f).
Qed.

Section changes.
Context (left right : gmap Z CandidateResultView).
Context (Hleft : ∀ p e, left !! p = Some e → vw_path e = p).
Context (Hright : ∀ p e, right !! p = Some e → vw_path e = p).

Lemma change_of_path p c : c ∈ change_of (left !! p) (right !! p) → rc_path c = p.
Proof.
  destruct (left !! p) as [b|] eqn:Eb, (right !! p) as [a|] eqn:Ea; cbn [change_of]; intros Hc.
  - apply compare_views_path in Hc. by rewrite Hc, (Hleft p b).
  - apply list_elem_of_singleton in Hc as ->. by apply Hleft.
  - apply list_elem_of_singleton in Hc as ->. by apply Hright.
  - by apply elem_of_nil in Hc.
Qed.

Lemma found_changes_in c :
  c ∈ found_result_changes left right ↔ c ∈ change_of (left !! rc_path c) (right !! rc_path c).
Proof.
  unfold found_result_changes. rewrite elem_of_app, !concat_map_elem. split.
  - intros [([p b] & Hin%(entries_elem Z.ltb) & Hc)|([p a] & Hin%(entries_elem Z.ltb) & Hc)].
    + unfold left_changes in Hc. cbn [fst snd] in Hc.
      assert (c ∈ change_of (left !! p) (right !! p)) as H by (rewrite Hin; by destruct (right !! p)).
      by rewrite (change_of_path p c H).
    + unfold right_changes in Hc. cbn [fst snd] in Hc.
      destruct (left !! p) as [b|] eqn:Eb; [by apply elem_of_nil in Hc|].
      assert (c ∈ change_of (left !! p) (right !! p)) as H by (by rewrite Hin, Eb).
      by rewrite (change_of_path p c H).
  - destruct (left !! rc_path c) as [b|] eqn:Eb.
    + intros Hc. left. exists (rc_path c, b). split; [by apply (entries_elem Z.ltb)|].
      unfold left_changes. cbn [fst snd]. by destruct (right !! rc_path c).
    + destruct (right !! rc_path c) as [a|] eqn:Ea; [|intros Hc; by apply elem_of_nil in Hc].
      intros Hc. right. exists (rc_path c, a). split; [by apply (entries_elem Z.ltb)|].
      unfold right_changes. cbn [fst snd]. by rewrite Eb.
Qed.

Lemma one_change_each {A} (f : A → list ResultChange) (key : A → Z) l :
  NoDup (map key l) → (∀ x, x ∈ l → (length (f x) <= 1)%nat ∧ ∀ c, c ∈ f x → rc_path c = key x) →
  NoDup (map rc_path (concat (map f l))).
Proof.
  induction l as [|x l IH]; [constructor|]. cbn [map concat]. intros [Hnin Hnd]%NoDup_cons Hf.
  destruct (Hf x (list_elem_of_here _ _)) as [Hlen Hx].
  assert (NoDup (map rc_path (concat (map f l)))) as Hrest
    by (apply IH; [done|]; intros y Hy; by apply Hf, list_elem_of_further).
  destruct (f x) as [|c [|? ?]]; cbn [length app map] in *; [done| |lia].
  apply NoDup_cons. split; [|done]. intros (d & Hd & Hin)%list_elem_of_fmap.
  apply concat_map_elem in Hin as (y & Hy & Hdy).
  destruct (Hf y (list_elem_of_further _ _ _ Hy)) as [_ Hp]. apply Hp in Hdy.
  rewrite (Hx c (list_elem_of_here _ _)), Hdy in Hd. apply Hnin, list_elem_of_fmap. by exists y.
Qed.

Lemma compare_views_one b a : (length (compare_views b a) <= 1)%nat.
Proof. unfold compare_views. repeat destruct (negb _); cbn; lia. Qed.

Lemma found_changes_distinct : NoDup (map rc_path (found_result_changes left right)).
Proof.
  assert (∀ m : gmap Z CandidateResultView, NoDup (map fst (entries Z.ltb m))) as Hnd.
  { intros m. unfold entries. rewrite (Permutation_map fst (stable_sort_perm _ _)).
    apply NoDup_fst_map_to_list. }
  unfold found_result_changes. rewrite map_app. apply NoDup_app. split_and!.
  - apply (one_change_each _ fst); [apply Hnd|]. intros [p b] Hin%(entries_elem Z.ltb).
    unfold left_changes. cbn [fst snd]. destruct (right !! p) as [a|]; split.
    + apply compare_views_one.
    + intros c Hc%compare_views_path. by rewrite Hc, (Hleft p b).
    + cbn. lia.
    + intros c ->%list_elem_of_singleton. by apply Hleft.
  - intros q (c & -> & Hc)%list_elem_of_fmap (d & Hd & Hin)%list_elem_of_fmap.
    apply concat_map_elem in Hc as ([p b] & Hb%(entries_elem Z.ltb) & Hc).
    apply concat_map_elem in Hin as ([p' a] & Ha%(entries_elem Z.ltb) & Hin).
    unfold left_changes in Hc. unfold right_changes in Hin. cbn [fst snd] in Hc, Hin.
    assert (rc_path c = p) as Hp.
    { apply change_of_path. rewrite Hb. by destruct (right !! p). }
    destruct (left !! p') as [?|] eqn:El; [by apply elem_of_nil in Hin|].
    apply list_elem_of_singleton in Hin as ->. cbn [appeared rc_path] in Hd.
    rewrite (Hright p' a Ha), Hp in Hd. congruence.
  - apply (one_change_each _ fst); [apply Hnd|]. intros [p a] Hin%(entries_elem Z.ltb).
    unfold right_changes. cbn [fst snd]. destruct (left !! p) as [b|]; split; cbn; try lia.
    + intros c Hc. by apply elem_of_nil in Hc.
    + intros c ->%list_elem_of_singleton. by apply Hright.
Qed.
End changes.

(** The order of the changes. *)
Definition result_change_cmp (a b : ResultChange) : Z :=
  cmp_step (rc_path a) (rc_path b) (
  cmp_step (code (rc_kind a)) (code (rc_kind b)) (
  cmp_step (ReasonCode.to_code (to_reason a)) (ReasonCode.to_code (to_reason b)) 0)).

#[export] Instance result_change_order : CmpOrder result_change_cmp.
Proof. unfold result_change_cmp. apply _. Qed.

Lemma result_change_less_cmp a b : result_change_less a b = (result_change_cmp a b <? 0).
Proof. unfold result_change_less, result_change_cmp, cmp_step, eeqb. ifs_lia. Qed.

Lemma sorted_by_path l :
  NoDup (map rc_path l) → StronglySorted (λ a b, rc_path a < rc_path b) (stable_sort result_change_less l).
Proof.
  intros Hnd. assert (NoDup (map rc_path (stable_sort result_change_less l))) as Hnd'
    by (by rewrite (Permutation_map rc_path (stable_sort_perm _ _))).
  pose proof (stable_sort_sorted result_change_less result_change_cmp result_change_less_cmp l) as Hs.
  revert Hs Hnd'. generalize (stable_sort result_change_less l) as k. clear.
  induction k as [|c k IH]; [constructor|]. intros [Hs Hc]%StronglySorted_inv [Hnin Hnd]%NoDup_cons.
  constructor; [by apply IH|]. rewrite Forall_forall in Hc |- *. intros d Hd.
  specialize (Hc d Hd). unfold result_change_cmp, cmp_step in Hc.
  assert (rc_path c ≠ rc_path d); [|ifs_lia]. intros E. apply Hnin. rewrite E.
  by apply (list_elem_of_fmap_2 rc_path).
Qed.

(** ** Lemmas: encoding *)

#[export] Instance appends_evidence_requirements e : Appends (write_evidence_requirements e).
Proof. unfold write_evidence_requirements. apply _. Qed.
#[export] Instance appends_view e : Appends (write_view e).
Proof. unfold write_view. apply _. Qed.
#[export] Instance appends_definitions_snapshot d : Appends (encode_definitions_snapshot d).
Proof. unfold encode_definitions_snapshot. apply _. Qed.
#[export] Instance appends_results_snapshot s : Appends (encode_results_snapshot s).
Proof. unfold encode_results_snapshot. apply _. Qed.
#[export] Typeclasses Opaque write_evidence_requirements write_view encode_definitions_snapshot
  encode_results_snapshot.

Lemma reads_evidence_requirements e :
  wire_requirements e → reads read_evidence_requirements (write_evidence_requirements e []) e.
Proof.
  intros [Hg Ha]. rewrite !Forall_cons in Hg. destruct Hg as (H1 & H2 & H3 & H4 & H5 & H6 & H7 & _).
  unfold read_evidence_requirements, write_evidence_requirements.
  do 7 (read_field; [by apply reads_generation_field|]). read_last; [by apply reads_u64|].
  destruct e. apply reads_ret.
Qed.

Lemma generation_accepted g :
  generation_field g → negb (g =? 0) && negb (is_representable g) = false.
Proof.
  unfold generation_field. intros Hg. destruct (g =? 0) eqn:E; [done|].
  assert (is_representable g = true) as -> by (rewrite is_representable_true; lia). done.
Qed.

Lemma reads_optional_generation {B} g (k : Z → reader B) bs b :
  generation_field g → reads (k g) bs b → reads (optional_generation g ≫= k) bs b.
Proof.
  intros Hg Hk pre post. unfold optional_generation. rewrite (generation_accepted g Hg). apply Hk.
Qed.

(** A constraint as a definition stores it. *)
Definition wire_constraint (limits : Limits) (c : Constraint) : Prop :=
  machine_constraint c ∧ is_representable (generation c) = true ∧ canonical_lists c = true ∧
  valid limits c.

Record wire_definitions (limits : Limits) (d : DefinitionsSnapshot) : Prop := {
  wd_ids : fits 64 (ds_id d) ∧ fits 64 (ds_set_id d);
  wd_generation : generation_field (ds_generation d);
  wd_constraints : Forall (wire_constraint limits) (ds_constraints d);
  wd_count : size (ds_constraints d) <= max_constraints_per_set limits;
  wd_evidence : wire_requirements (ds_evidence d);
  wd_digest : size (ds_digest d) = kSize
}.

Lemma reads_definitions_snapshot limits d :
  limits_ok limits = true → wire_definitions limits d →
  reads (decode_definitions_snapshot limits) (encode_definitions_snapshot d []) d.
Proof.
  intros HL [[H1 H2] H3 H4 H5 H6 H7]. unfold decode_definitions_snapshot, encode_definitions_snapshot.
  pose proof (limits_ok_entry limits 1 _ HL eq_refl) as Lc. cbn [snd] in Lc.
  rewrite Forall_forall in H4.
  do 2 (read_field; [by apply reads_u64|]). read_field; [by apply reads_u64, generation_field_fits|].
  read_field; [apply reads_u8; by destruct (ds_state d)|]. read_field; [by apply reads_u8|].
  read_field; [by apply reads_u16|]. read_field; [by apply reads_u32|].
  apply reads_guard; [by destruct (ds_state d)|]. apply reads_optional_generation; [done|].
  read_field; [apply reads_counted; [apply _|by eapply size_fits32|done|]|].
  { intros c Hc. destruct (H4 c Hc) as (? & ? & ? & ?). by apply reads_constraint. }
  read_field; [by apply reads_evidence_requirements|]. read_field; [apply reads_ranking|].
  read_last; [rewrite <- H7; apply reads_raw|]. rewrite of_code_code. destruct d. apply reads_ret.
Qed.

Record wire_view (e : CandidateResultView) : Prop := {
  wvw_path : 0 < vw_path e < 2 ^ 64;
  wvw_id : fits 64 (vw_evaluation_id e);
  wvw_generations : generation_field (vw_authority_generation e) ∧
    generation_field (vw_evaluation_generation e);
  wvw_reason : fits 16 (ReasonCode.to_code (vw_primary_reason e)) ∧ named (vw_primary_reason e);
  wvw_digest : size (vw_digest e) = kSize
}.

(** A reader that refuses the bytes, wherever they stand. *)
Definition refuses {A} (m : reader A) (bs : list byte) : Prop :=
  ∀ pre post, (m (mkReader (pre ++ bs ++ post) (size pre) true)).1 = None.

Lemma refuses_after {A B} (m : reader A) (k : A → reader B) bs1 bs2 a :
  reads m bs1 a → refuses (k a) bs2 → refuses (m ≫= k) (bs1 ++ bs2).
Proof.
  intros Hm Hk pre post. unfold mbind, reader_bind. rewrite <- app_assoc, (Hm pre (bs2 ++ post)).
  pose proof (Hk (pre ++ bs1) post) as H. rewrite <- app_assoc, size_app in H. exact H.
Qed.

Lemma refuses_bind {A B} (m : reader A) (k : A → reader B) bs : refuses m bs → refuses (m ≫= k) bs.
Proof.
  intros Hm pre post. specialize (Hm pre post). unfold mbind, reader_bind.
  destruct (m _) as [[a|] r]; [done|]. done.
Qed.

(** The paths of the entries that follow, each greater than the one before. *)
Fixpoint paths_ascend (previous : option CandidateResultView) (l : list CandidateResultView) : bool :=
  match l with
  | [] => true
  | e :: rest =>
      match previous with Some p => vw_path p <? vw_path e | None => true end &&
      paths_ascend (Some e) rest
  end.

Lemma reads_first_view e : wire_view e → reads (read_view None) (write_view e []) e.
Proof.
  intros [H1 H2 [H3 H4] [H5 H6] H7]. unfold read_view, write_view.
  read_field; [apply reads_u64; unfold fits; lia|].
  read_field; [by apply reads_u64, generation_field_fits|].
  read_field; [apply reads_u16; by destruct (vw_outcome e)|]. read_field; [by apply reads_u16|].
  read_field; [apply reads_u8; by destruct (vw_state e)|]. read_field; [by apply reads_u8|].
  read_field; [by apply reads_u16|]. read_field; [by apply reads_u64|].
  read_field; [by apply reads_u64, generation_field_fits|].
  assert (vw_path e =? 0 = false) as Hz by lia.
  apply reads_guard; [rewrite Hz; by destruct (vw_outcome e), (vw_state e)|].
  read_last; [rewrite <- H7; apply reads_raw|].
  do 2 (apply reads_optional_generation; [done|]). apply reads_guard; [done|].
  rewrite !of_code_code, H6. destruct e. apply reads_ret.
Qed.

(** The comparison with the entry before is the last thing a round does. *)
Lemma read_view_split previous r :
  read_view previous r =
  (e ← read_view None;
   _ ← fail_if (match previous with Some p => negb (vw_path p <? vw_path e) | None => false end);
   mret e) r.
Proof.
  unfold read_view, mbind, reader_bind.
  repeat (match goal with |- context [match ?m ?s with _ => _ end] =>
    destruct (m s) as [[?|] ?]; [|reflexivity] end).
  reflexivity.
Qed.

Lemma reads_view previous e :
  wire_view e → match previous with Some p => vw_path p <? vw_path e | None => true end = true →
  reads (read_view previous) (write_view e []) e.
Proof.
  intros Hw Hp pre post. rewrite read_view_split. revert pre post.
  eapply reads_then_ret; [by apply reads_first_view|]. cbv beta.
  apply reads_guard; [destruct previous; [by rewrite Hp|done]|apply reads_ret].
Qed.

Lemma refuses_view previous e :
  wire_view e → match previous with Some p => vw_path p <? vw_path e | None => true end = false →
  refuses (read_view previous) (write_view e []).
Proof.
  intros Hw Hp pre post. rewrite read_view_split. revert pre post.
  rewrite <- (app_nil_r (write_view e [])). eapply refuses_after; [by apply reads_first_view|].
  intros pre post. destruct previous as [p|]; [|done]. cbv beta. by rewrite Hp.
Qed.

Lemma reads_views l : ∀ previous,
  Forall wire_view l → paths_ascend previous l = true →
  reads (read_views (length l) previous) (put_each write_view l []) l.
Proof.
  induction l as [|e l IH]; intros previous Hw; cbn [paths_ascend length read_views].
  { intros _. apply reads_ret. }
  apply Forall_cons in Hw as [He Hl]. intros [Hp Ha]%andb_true_iff.
  rewrite put_each_cons by apply _. eapply reads_bind; [by apply reads_view|].
  eapply reads_then_ret; [by apply IH|]. apply reads_ret.
Qed.

Lemma refuses_views l : ∀ previous,
  Forall wire_view l → paths_ascend previous l = false →
  refuses (read_views (length l) previous) (put_each write_view l []).
Proof.
  induction l as [|e l IH]; intros previous Hw; cbn [paths_ascend length read_views]; [done|].
  apply Forall_cons in Hw as [He Hl]. rewrite put_each_cons by apply _.
  destruct (match previous with Some p => vw_path p <? vw_path e | None => true end) eqn:Hp; intros Ha.
  - eapply refuses_after; [by apply reads_view|]. apply refuses_bind. by apply IH.
  - intros pre post. rewrite <- app_assoc. by apply refuses_bind, refuses_view.
Qed.

Record wire_results (limits : Limits) (s : ResultsSnapshot) : Prop := {
  wrs_ids : fits 64 (rs_id s) ∧ fits 64 (rs_set_id s);
  wrs_generations : generation_field (rs_set_generation s) ∧
    generation_field (rs_evaluation_generation s);
  wrs_entries : Forall wire_view (rs_entries s);
  wrs_count : size (rs_entries s) <= max_evaluations_retained limits;
  wrs_digest : size (rs_digest s) = kSize
}.

(** A snapshot is read back when its paths ascend and refused when they do not. *)
Lemma decode_results limits s :
  limits_ok limits = true → wire_results limits s →
  (paths_ascend None (rs_entries s) = true →
     reads (decode_results_snapshot limits) (encode_results_snapshot s []) s) ∧
  (paths_ascend None (rs_entries s) = false →
     refuses (decode_results_snapshot limits) (encode_results_snapshot s [])).
Proof.
  intros HL [[H1 H2] [H3 H4] H5 H6 H7].
  pose proof (limits_ok_entry limits 18 _ HL eq_refl) as Lr. cbn [snd] in Lr.
  assert (fits 32 (size (rs_entries s))) as Hf by by eapply size_fits32.
  assert (Z.to_nat (size (rs_entries s)) = length (rs_entries s)) as Hlen by (unfold size; lia).
  unfold decode_results_snapshot, encode_results_snapshot. split; intros Ha.
  - do 2 (read_field; [by apply reads_u64|]).
    do 2 (read_field; [by apply reads_u64, generation_field_fits|]).
    do 2 (apply reads_optional_generation; [done|]). unfold write_counted at 1.
    rewrite !seqw_nil by apply _. rewrite <- app_assoc, (wrap_small 32) by done.
    eapply reads_bind; [by apply reads_bounded_length|]. rewrite Hlen.
    eapply reads_bind; [by apply reads_views|].
    eapply reads_then_ret; [rewrite <- H7; apply reads_raw|]. destruct s. apply reads_ret.
  - rewrite !seqw_nil by apply _.
    do 2 (eapply refuses_after; [by apply reads_u64|]).
    do 2 (eapply refuses_after; [by apply reads_u64, generation_field_fits|]).
    unfold write_counted at 1. rewrite !seqw_nil by apply _. rewrite <- app_assoc, (wrap_small 32) by done.
    intros pre post. unfold optional_generation. rewrite !generation_accepted by done. revert pre post.
    change (refuses (count ← bounded_length (max_evaluations_retained limits);
      entries ← read_views (Z.to_nat count) None; digest ← raw kSize;
      mret (mkResults (rs_id s) (rs_set_id s) (rs_set_generation s) (rs_evaluation_generation s)
        entries digest))
      (put_u32 (size (rs_entries s)) [] ++ put_each write_view (rs_entries s) [] ++ put_raw (rs_digest s) [])).
    eapply refuses_after; [by apply reads_bounded_length|]. rewrite Hlen.
    intros pre post. rewrite <- app_assoc. by apply refuses_bind, refuses_views.
Qed.

(** ** Lemmas: the order of a snapshot *)

Definition view_cmp (a b : CandidateResultView) : Z :=
  cmp_step (vw_path a) (vw_path b) (
  cmp_step (vw_evaluation_generation a) (vw_evaluation_generation b) 0).

#[export] Instance view_order : CmpOrder view_cmp.
Proof. unfold view_cmp. apply _. Qed.

Lemma view_less_cmp a b : view_less a b = (view_cmp a b <? 0).
Proof. unfold view_less, view_cmp, cmp_step. ifs_lia. Qed.

(** In a sorted snapshot the paths ascend exactly when none repeats. *)
Lemma paths_ascend_sorted l : ∀ previous,
  StronglySorted (λ a b, view_cmp a b <= 0) l →
  (∀ p, previous = Some p → Forall (λ e, vw_path p <= vw_path e) l) →
  paths_ascend previous l = true ↔
  NoDup (map vw_path l) ∧ (∀ p, previous = Some p → vw_path p ∉ map vw_path l).
Proof.
  induction l as [|e l IH]; intros previous Hs Hp; cbn [paths_ascend map].
  { split; [|done]. intros _. split; [constructor|]. intros p _ Hn. by apply elem_of_nil in Hn. }
  apply StronglySorted_inv in Hs as [Hs He].
  assert (Forall (λ x, vw_path e <= vw_path x) l) as Hle.
  { eapply Forall_impl; [exact He|]. intros x. unfold view_cmp, cmp_step. ifs_lia. }
  rewrite andb_true_iff, IH, NoDup_cons by (try done; by intros p [= <-]). split.
  - intros (H1 & H2 & H3). split_and!; [by apply H3|done|]. intros p ->.
    rewrite not_elem_of_cons. specialize (Hp p eq_refl). apply Forall_cons in Hp as [_ Hp].
    split; [lia|]. intros (x & Hx & Hin)%list_elem_of_fmap. rewrite Forall_forall in Hle.
    specialize (Hle x Hin). lia.
  - intros ((H1 & H2) & H3). split_and!; [|done|by intros p [= <-]].
    destruct previous as [p|]; [|done]. specialize (H3 p eq_refl). specialize (Hp p eq_refl).
    apply not_elem_of_cons in H3 as [H3 _]. apply Forall_cons in Hp as [Hp _]. lia.
Qed.

(** ** Lemmas: identities *)

Lemma leading_u64_fits d : fits 64 (leading_u64 d).
Proof.
  unfold leading_u64. assert (∀ l v j, 0 <= j → fits (8 * j) v →
    fits (8 * (j + size l)) (fold_left (λ value b, Z.lor (Z.shiftl value 8) (to_integer b)) l v)) as Hf.
  { induction l as [|b l IH]; intros v j Hj Hv; cbn [fold_left].
    { by rewrite Z.add_0_r. }
    replace (j + size (b :: l)) with ((j + 1) + size l) by (unfold size; cbn [length]; lia).
    apply IH; [lia|]. pose proof (to_integer_bound b) as Hb. unfold fits in *.
    rewrite Z.lor_comm, lor_disjoint by lia. replace (8 * (j + 1)) with (8 * j + 8) by lia.
    rewrite Z.pow_add_r by lia. change (2 ^ 8) with 256. lia. }
  specialize (Hf (take 8 d) 0 0 ltac:(lia)). unfold fits in *. split; [apply Hf; done|].
  eapply Z.lt_le_trans; [apply Hf; done|]. apply Z.pow_le_mono_r; [lia|].
  unfold size. rewrite length_take. lia.
Qed.

Lemma snapshot_id_fits d : fits 64 (snapshot_id_of d).
Proof. unfold snapshot_id_of. cbv zeta. destruct (_ =? 0); [done|apply leading_u64_fits]. Qed.

(** ** Properties *)

(** C33: A difference of results describes exactly what changed. For every path it compares
    the newest result of each side — of the highest evaluation generation, and the first
    of these — and reports the rules of [reported], each with its literal fields: the path
    disappeared or appeared; or the first of outcome, reason, state, authority generation
    and digest that differs, the first two with both outcomes, reasons and states, the
    others with both states only. A path with a result on both sides is left out exactly
    when the five are the same. The changes come in strictly ascending order of their
    paths, so a path has one at most, and the difference names both snapshots by their
    identities, generations and digests. *)
Theorem diff_results_exact from to :
  let d := diff_results from to in
  (∀ c, c ∈ result_changes d ↔ reported (rs_entries from) (rs_entries to) c) ∧
  StronglySorted (λ a b, rc_path a < rc_path b) (result_changes d) ∧
  (∀ p b a, newest_of (rs_entries from) p b → newest_of (rs_entries to) p a →
     p ∉ map rc_path (result_changes d) ↔
       vw_outcome b = vw_outcome a ∧
       ReasonCode.to_code (vw_primary_reason b) = ReasonCode.to_code (vw_primary_reason a) ∧
       vw_state b = vw_state a ∧ vw_authority_generation b = vw_authority_generation a ∧
       vw_digest b = vw_digest a) ∧
  (from_snapshot d = rs_id from ∧ to_snapshot d = rs_id to) ∧
  (rd_from_generation d = rs_set_generation from ∧ rd_to_generation d = rs_set_generation to) ∧
  (from_evaluation_generation d = rs_evaluation_generation from ∧
   to_evaluation_generation d = rs_evaluation_generation to) ∧
  rd_from_digest d = rs_digest from ∧ rd_to_digest d = rs_digest to.
Proof.
  intros d.
  pose proof (newest_path (rs_entries from)) as Hl. pose proof (newest_path (rs_entries to)) as Hr.
  assert (∀ c, c ∈ result_changes d ↔ c ∈ change_of (newest_by_path (rs_entries from) !! rc_path c)
    (newest_by_path (rs_entries to) !! rc_path c)) as Hin.
  { intros c. unfold d, diff_results. cbn [result_changes]. rewrite stable_sort_elem.
    by apply found_changes_in. }
  split_and!; [|by apply sorted_by_path, found_changes_distinct| |done..].
  - intros c. rewrite Hin. apply change_of_reported.
  - intros p b a Eb%newest_by_path_iff Ea%newest_by_path_iff. rewrite <- compare_views_same. split.
    + intros Hn. destruct (compare_views b a) as [|c l] eqn:Ec; [done|]. destruct Hn.
      assert (c ∈ compare_views b a) as Hc by (rewrite Ec; apply list_elem_of_here).
      assert (rc_path c = p) as <-
        by (rewrite (compare_views_path _ _ _ Hc); by apply (newest_path (rs_entries from))).
      apply (list_elem_of_fmap_2 rc_path), Hin. by rewrite Eb, Ea.
    + intros Hc (c & -> & Hi)%list_elem_of_fmap. apply Hin in Hi. rewrite Eb, Ea in Hi.
      cbn [change_of] in Hi. rewrite Hc in Hi. by apply elem_of_nil in Hi.
Qed.

(** C34: Which answers to a results query can be read. The snapshot a query takes holds
    every retained result of the set, superseded ones included. Its encoding is read back
    when no path has two of them, and refused by the decoder when one has. *)
Theorem results_query_readable limits id i s post :
  limits_ok limits = true → query_results id i = Success s → wire_results limits s →
  let mine := List.filter (λ r, set_id r =? id) (im_evaluations i) in
  let bytes := encode_results_snapshot s [] in
  rs_entries s ≡ₚ map view_of mine ∧
  (NoDup (map rec_path mine) →
     decode_results_snapshot limits (open_reader (bytes ++ post)) =
       (Some s, mkReader (bytes ++ post) (size bytes) true)) ∧
  (¬ NoDup (map rec_path mine) →
     (decode_results_snapshot limits (open_reader (bytes ++ post))).1 = None).
Proof.
  intros HL E Hw mine bytes. destruct (decode_results limits s HL Hw) as [Hread Hrefuse].
  unfold query_results in E. destruct (find_set _ _) as [set|]; [|done]. injection E as E.
  assert (rs_entries s = stable_sort view_less (map view_of mine)) as Hs by (by rewrite <- E).
  assert (rs_entries s ≡ₚ map view_of mine) as Hperm by (rewrite Hs; apply stable_sort_perm).
  assert (paths_ascend None (rs_entries s) = true ↔ NoDup (map rec_path mine)) as Ha.
  { rewrite Hs, paths_ascend_sorted; [|apply (stable_sort_sorted _ view_cmp view_less_cmp)|done].
    rewrite (Permutation_map vw_path (stable_sort_perm _ _)), map_map. split; [by intros []|done]. }
  split_and!; [done| |].
  - intros Hn. by apply reads_open, Hread, Ha.
  - intros Hn. destruct (paths_ascend None (rs_entries s)) eqn:Ep; [by destruct Hn; apply Ha|].
    apply (Hrefuse eq_refl [] post).
Qed.

(** A snapshot depends on the results only, not on the order they are stored in: when
    no path has two results of one generation, any two orders give the same snapshot, with
    the same identity and digest. *)
Theorem snapshot_results_order id set_generation generation l k :
  l ≡ₚ k → NoDup (map (λ e, (vw_path e, vw_evaluation_generation e)) l) →
  snapshot_results id set_generation generation l = snapshot_results id set_generation generation k.
Proof.
  intros Hp Hn. unfold snapshot_results. cbv zeta.
  assert (stable_sort view_less l = stable_sort view_less k) as ->; [|done].
  apply (stable_sort_perm_eq view_less view_cmp view_less_cmp); [|done].
  intros a b Ha Hb Hc. apply list_elem_of_lookup in Ha as [x Hx], Hb as [y Hy].
  assert (x = y) as ->; [|congruence].
  apply (NoDup_lookup _ x y (vw_path a, vw_evaluation_generation a) Hn); rewrite list_lookup_fmap.
  - by rewrite Hx.
  - rewrite Hy. cbn. unfold view_cmp, cmp_step in Hc. do 2 f_equal; ifs_lia.
Qed.

(** The definitions snapshot of a finalized set can be encoded. *)
Lemma definitions_wire limits s :
  wire_set s → ok (verify_canonical_constraint_set s limits) = true →
  wire_definitions limits (snapshot_definitions s).
Proof.
  intros [W1 W2 W3 W4 W5 W6] Hv. destruct (verify_canonical_facts s limits Hv) as (_ & _ & H3 & H4 & _).
  split; cbn [snapshot_definitions ds_id ds_set_id ds_generation ds_constraints ds_evidence ds_digest];
    try done.
  - split; [apply snapshot_id_fits|done].
  - apply Forall_forall. intros c Hc. rewrite Forall_forall in W5, H4.
    destruct (W5 c Hc), (H4 c Hc). by split_and!.
Qed.

(** The definitions snapshot of a finalized set is read back from its encoding,
    whatever follows it. *)
Theorem definitions_query_roundtrip limits id i s d post :
  limits_ok limits = true → find_set id (im_sets i) = Some s → query_definitions id i = Success d →
  wire_set s → ok (verify_canonical_constraint_set s limits) = true →
  let bytes := encode_definitions_snapshot d [] in
  ds_constraints d = constraints s ∧ ds_digest d = cs_digest s ∧
  decode_definitions_snapshot limits (open_reader (bytes ++ post)) =
    (Some d, mkReader (bytes ++ post) (size bytes) true).
Proof.
  intros HL Hs E Hw Hv bytes. unfold query_definitions in E. rewrite Hs in E.
  injection E as <-. split_and!; [done..|]. apply reads_open, reads_definitions_snapshot; [done|].
  by apply definitions_wire.
Qed.

(** ** Witnesses *)

(** A coordinator that holds a set and some results. *)
Definition holding (sets : list ConstraintSet) (rs : list EvaluationRecord) : Impl :=
  mkImpl (mkConfig default_limits "" [] true sample_requirements 16) None empty_registry
    sample_requirements no_watermarks sets rs [] ∅ empty_index 1 0.

Definition sample_view (p g : Z) (o : Outcome.t) : CandidateResultView :=
  mkView p 1 o ReasonCode.None ResultState.Current p g zero_digest.

Lemma snapshot_results_order_witness :
  let a := sample_view 1 1 Outcome.Admissible in
  let b := sample_view 2 1 Outcome.HardConstraintFailed in
  let c := sample_view 2 2 Outcome.Admissible in
  snapshot_results 7 1 2 [c; a; b] = snapshot_results 7 1 2 [a; b; c].
Proof.
  apply snapshot_results_order.
  - etrans; [apply Permutation_swap|]. apply perm_skip. apply Permutation_swap.
  - apply (bool_decide_unpack _). vm_compute. exact I.
Defined.

(** Two results of one path, of two generations: the answer cannot be read. *)
Definition superseded_results : list EvaluationRecord :=
  [with_state ResultState.Superseded (sample_record 1 Outcome.Admissible [] []);
   sample_record 2 Outcome.Admissible [] []; sample_record 1 Outcome.Admissible [] []].

Definition answer (rs : list EvaluationRecord) : ResultsSnapshot :=
  match query_results 7 (holding [sample_set] rs) with
  | Success s => s
  | Failure _ _ => mkResults 0 0 0 0 [] []
  end.

Lemma answer_wire rs : rs ⊆ superseded_results → size rs <= 1024 → wire_results default_limits (answer rs).
Proof.
  intros Hr Hs. assert (List.filter (λ r, set_id r =? 7) rs ⊆ superseded_results) as Hf.
  { intros x Hx. apply list_elem_of_In, filter_In in Hx as [Hx _]. by apply Hr, list_elem_of_In. }
  split; cbn [answer query_results holding im_sets find_set sample_set List.find cs_id
    snapshot_results rs_id rs_set_id rs_set_generation rs_evaluation_generation rs_entries rs_digest].
  - split; [apply snapshot_id_fits|done].
  - by split.
  - apply Forall_forall. intros e He. apply stable_sort_elem, list_elem_of_fmap in He as (r & -> & Hin).
    apply Hf in Hin. revert r Hin. apply Forall_forall. unfold superseded_results.
    repeat constructor; try done; cbn; lia.
  - change (rs_entries (answer rs))
      with (stable_sort view_less (map view_of (List.filter (λ r, set_id r =? 7) rs))).
    unfold size in *. rewrite stable_sort_length, length_map. etrans; [|exact Hs].
    apply inj_le, filter_length_le.
  - match goal with |- size ?d = _ => change d with (results_digest 7 1 1 (rs_entries (answer rs))) end.
    unfold results_digest. rewrite digest_of_sha256. apply sha256_size.
Qed.

Lemma results_query_readable_witness :
  let fresh := [sample_record 1 Outcome.Admissible [] []; sample_record 2 Outcome.Admissible [] []] in
  let bytes rs := encode_results_snapshot (answer rs) [] in
  (decode_results_snapshot default_limits (open_reader (bytes fresh))).1 = Some (answer fresh) ∧
  (decode_results_snapshot default_limits (open_reader (bytes superseded_results))).1 = None.
Proof.
  intros fresh bytes.
  assert (wire_results default_limits (answer fresh)) as W1.
  { apply answer_wire; [|done]. intros r. unfold fresh, superseded_results. rewrite !elem_of_cons. tauto. }
  assert (wire_results default_limits (answer superseded_results)) as W2 by by apply answer_wire.
  destruct (results_query_readable default_limits 7 (holding [sample_set] fresh) (answer fresh) []
    eq_refl eq_refl W1) as (_ & Hread & _).
  destruct (results_query_readable default_limits 7 (holding [sample_set] superseded_results)
    (answer superseded_results) [] eq_refl eq_refl W2) as (_ & _ & Hrefuse).
  rewrite app_nil_r in Hread, Hrefuse. unfold bytes. split.
  - rewrite Hread; [reflexivity|]. apply (bool_decide_unpack _). vm_compute. exact I.
  - apply Hrefuse. intros Hn. apply (bool_decide_pack _) in Hn. vm_compute in Hn. exact Hn.
Defined.

Lemma definitions_query_roundtrip_witness :
  let s := canonical_form sample_set in
  let d := snapshot_definitions s in
  decode_definitions_snapshot default_limits (open_reader (encode_definitions_snapshot d [] ++ [])) =
    (Some d, mkReader (encode_definitions_snapshot d [] ++ []) (size (encode_definitions_snapshot d [])) true).
Proof.
  intros s d. assert (ok (verify_canonical_constraint_set s default_limits) = true) as Hv
    by (vm_compute; reflexivity).
  apply (definitions_query_roundtrip default_limits 7 (holding [s] []) s d [] eq_refl eq_refl eq_refl
    sample_form_wire Hv).
Defined.
