(* ===== verification/Messages.v ===== *)
(** The report payloads of [messages.hpp] and [messages.cpp].

    A report payload has a [found] flag and, when it is set, a body: it is an [option].
    [write_evidence] and [read_evidence] are those of [Snapshot.v]. *)

From Stdlib Require Import ZArith Lia Bool Strings.Byte.
From stdpp Require Import base list numbers strings.
From S2P Require Import Prelude Base Codec Digest Lifecycle Constraint Candidate Evaluation Ordering.
From S2P Require Import ConstraintSet Persistence Coordinator Exact Protocol ProtocolCorrect.
From S2P Require Import Snapshot SnapshotCorrect.

Open Scope string_scope.
Open Scope list_scope.
Open Scope Z_scope.

(** ** Payloads *)

Definition DefinitionsReportPayload : Type := option DefinitionsSnapshot.
Definition ResultsReportPayload : Type := option ResultsSnapshot.
Definition CurrentnessReportPayload : Type := option CurrentnessReport.

Record SessionFencedPayload := mkSessionFenced { sf_boot : Z; sf_epoch : Z }.

Record LifecycleRequestPayload := mkLifecycleRequest {
  lr_set_id : Z;
  lr_event : LifecycleEvent.t
}.

(** The three words of padding that follow an octet. *)
Definition write_padding : writing := put_u8 0 ;;> put_u16 0 ;;> put_u32 0.
Definition read_padding : reader (Z * Z * Z) :=
  padding8 ← u8; padding16 ← u16; padding32 ← u32; mret (padding8, padding16, padding32).
Definition bad_padding (p : Z * Z * Z) : bool :=
  negb (p.1.1 =? 0) || negb (p.1.2 =? 0) || negb (p.2 =? 0).

Definition is_found {A} (p : option A) : bool := match p with Some _ => true | None => false end.

Definition encode_definitions_report (p : DefinitionsReportPayload) : writing :=
  put_bool (is_found p) ;;> write_padding ;;>
  match p with Some snapshot => encode_definitions_snapshot snapshot | None => put_nothing end.

Definition decode_definitions_report (limits : Limits) : reader DefinitionsReportPayload :=
  found ← boolean; padding ← read_padding; _ ← fail_if (bad_padding padding);
  if (found : bool) then (snapshot ← decode_definitions_snapshot limits; mret (Some snapshot))
  else mret None.

Definition encode_results_report (p : ResultsReportPayload) : writing :=
  put_bool (is_found p) ;;> write_padding ;;>
  match p with Some snapshot => encode_results_snapshot snapshot | None => put_nothing end.

Definition decode_results_report (limits : Limits) : reader ResultsReportPayload :=
  found ← boolean; padding ← read_padding; _ ← fail_if (bad_padding padding);
  if (found : bool) then (snapshot ← decode_results_snapshot limits; mret (Some snapshot))
  else mret None.

Definition write_cause (c : CurrentnessCause.t) : writing := put_u8 (code c) ;;> write_padding.
Definition read_cause : reader CurrentnessCause.t :=
  cause ← u8; padding ← read_padding;
  _ ← fail_if ((cause =? 0) || (15 <? cause) || bad_padding padding); mret (of_code cause).

Definition write_report (r : CurrentnessReport) : writing :=
  put_u64 (rp_set_id r) ;;> put_u64 (rp_set_generation r) ;;> put_u8 (code (rp_state r)) ;;>
  write_padding ;;> put_u64 (rp_evaluation_generation r) ;;>
  write_evidence_requirements (rp_required_evidence r) ;;>
  write_evidence_requirements (rp_published_evidence r) ;;> put_u64 (rp_current_results r) ;;>
  put_u64 (rp_revalidation_required r) ;;> put_u64 (rp_recovered_unproven r) ;;>
  put_bool (rp_publisher_authority_live r) ;;> put_u8 0 ;;> put_u16 0 ;;>
  write_counted write_cause (rp_causes r).

Definition encode_currentness_report (p : CurrentnessReportPayload) : writing :=
  put_bool (is_found p) ;;> write_padding ;;>
  match p with Some report => write_report report | None => put_nothing end.

(** The two words of padding before the causes are read and not looked at. *)
Definition read_report : reader CurrentnessReport :=
  set_id ← u64; set_generation ← u64; state ← u8; padding ← read_padding;
  _ ← fail_if (bad_padding padding || (state =? 0) || (7 <? state));
  set_generation ← optional_generation set_generation;
  evaluation_generation ← read_generation_field;
  required_evidence ← read_evidence_requirements; published_evidence ← read_evidence_requirements;
  current_results ← u64; revalidation_required ← u64; recovered_unproven ← u64;
  publisher_authority_live ← boolean; padding8 ← u8; padding16 ← u16;
  causes ← read_counted read_cause 64;
  mret (mkReport set_id set_generation (of_code state) evaluation_generation required_evidence
    published_evidence current_results revalidation_required recovered_unproven
    publisher_authority_live causes).

Definition decode_currentness_report (limits : Limits) : reader CurrentnessReportPayload :=
  found ← boolean; padding ← read_padding; _ ← fail_if (bad_padding padding);
  if (found : bool) then (report ← read_report; mret (Some report)) else mret None.

Definition encode_lifecycle_request (p : LifecycleRequestPayload) : writing :=
  put_u64 (lr_set_id p) ;;> put_u8 (code (lr_event p)) ;;> write_padding.

Definition decode_lifecycle_request : reader LifecycleRequestPayload :=
  set_id ← u64; event ← u8; padding ← read_padding;
  _ ← fail_if ((set_id =? 0) || (event =? 0) || (9 <? event) || bad_padding padding);
  mret (mkLifecycleRequest set_id (of_code event)).

Definition encode_session_fenced (p : SessionFencedPayload) : writing :=
  put_u64 (sf_boot p) ;;> put_u64 (sf_epoch p).

Definition decode_session_fenced : reader SessionFencedPayload :=
  boot ← u64; epoch ← u64;
  _ ← fail_if ((boot =? 0) || (epoch =? 0) || negb (is_representable epoch));
  mret (mkSessionFenced boot epoch).

(** ** Lemmas: padding *)

#[export] Instance appends_padding : Appends write_padding.
Proof. unfold write_padding. apply _. Qed.
#[export] Typeclasses Opaque write_padding.

Lemma reads_padding : reads read_padding (write_padding []) (0, 0, 0).
Proof.
  unfold read_padding, write_padding. read_field; [by apply reads_u8|].
  read_field; [by apply reads_u16|]. read_last; [by apply reads_u32|]. apply reads_ret.
Qed.

(** What is read is kept, so that a check of the padding is a check of the bytes. *)
Lemma accepts_padding :
  accepts read_padding (λ bs p, bad_padding p = false → bs = write_padding []).
Proof.
  unfold read_padding. do 3 accepts_number. apply accepts_ret.
  unfold bad_padding, write_padding. cbn [fst snd].
  rewrite !orb_false_iff, !negb_false_iff, !Z.eqb_eq. intros [[-> ->] ->].
  rewrite !seqw_nil by apply _. by rewrite app_nil_r.
Qed.

(** Padding, checked in the guard that follows it. *)
Lemma accepts_padded {B} (cond : Z * Z * Z → bool) (k : () → reader B) Q :
  (∀ p, cond p = false → bad_padding p = false) →
  (∀ p, cond p = false → accepts (k ()) (λ bs b, Q (write_padding [] ++ bs) b)) →
  accepts (p ← read_padding; _ ← fail_if (cond p); k ()) Q.
Proof.
  intros Hc Hk. apply (accepts_bind _ _ _ (λ bs p bs' b, Q (bs ++ bs') b) _ accepts_padding); [|done].
  intros p bs Hbs. apply accepts_guard. intros Hp. rewrite (Hbs (Hc p Hp)). by apply (Hk p).
Qed.

(** ** Lemmas: requests *)

#[export] Instance appends_lifecycle_request p : Appends (encode_lifecycle_request p).
Proof. unfold encode_lifecycle_request. apply _. Qed.
#[export] Instance appends_session_fenced p : Appends (encode_session_fenced p).
Proof. unfold encode_session_fenced. apply _. Qed.
#[export] Instance appends_cause c : Appends (write_cause c).
Proof. unfold write_cause. apply _. Qed.
#[export] Instance appends_report r : Appends (write_report r).
Proof. unfold write_report. apply _. Qed.
#[export] Typeclasses Opaque encode_lifecycle_request encode_session_fenced write_cause write_report.

Lemma reads_lifecycle_request p :
  0 < lr_set_id p < 2 ^ 64 → reads decode_lifecycle_request (encode_lifecycle_request p []) p.
Proof.
  intros Hs. unfold decode_lifecycle_request, encode_lifecycle_request.
  read_field; [apply reads_u64; unfold fits; lia|].
  read_field; [apply reads_u8; by destruct (lr_event p)|]. read_last; [apply reads_padding|].
  assert (lr_set_id p =? 0 = false) as Hz by lia.
  apply reads_guard; [rewrite Hz; by destruct (lr_event p)|].
  rewrite of_code_code. destruct p. apply reads_ret.
Qed.

Lemma event_known z : 0 < z → z <= 9 → code (LifecycleEvent.from_code z) = z.
Proof.
  intros H0 H1. assert (z = 1 ∨ z = 2 ∨ z = 3 ∨ z = 4 ∨ z = 5 ∨ z = 6 ∨ z = 7 ∨ z = 8 ∨ z = 9) as Hz by lia.
  repeat destruct Hz as [->|Hz]; [done..|]. by subst.
Qed.

Lemma accepts_lifecycle_request :
  accepts decode_lifecycle_request
    (λ bs p, bs = encode_lifecycle_request p [] ∧ 0 < lr_set_id p < 2 ^ 64).
Proof.
  unfold decode_lifecycle_request. do 2 accepts_number.
  apply (accepts_padded (λ p, (a =? 0) || (a0 =? 0) || (9 <? a0) || bad_padding p)
    (λ _, mret (mkLifecycleRequest a (of_code a0)))).
  - intros p. by intros [_ ->]%orb_false_iff.
  - intros p Hc. rewrite !orb_false_iff in Hc. destruct Hc as [[[H1 H2] H3] _]. unfold fits in *.
    apply accepts_ret. cbn [lr_set_id]. split; [|lia].
    unfold encode_lifecycle_request. rewrite !seqw_nil by apply _. cbn [lr_set_id lr_event].
    change (of_code a0) with (LifecycleEvent.from_code a0).
    rewrite event_known by lia. by rewrite !app_nil_r.
Qed.

Lemma reads_session_fenced p :
  0 < sf_boot p < 2 ^ 64 → 0 < sf_epoch p < 2 ^ 63 →
  reads decode_session_fenced (encode_session_fenced p []) p.
Proof.
  intros Hb He. unfold decode_session_fenced, encode_session_fenced.
  read_field; [apply reads_u64; unfold fits; lia|]. read_last; [apply reads_u64; unfold fits; lia|].
  assert (is_representable (sf_epoch p) = true) as Hr by (rewrite is_representable_true; lia).
  apply reads_guard; [rewrite Hr; lia|]. destruct p. apply reads_ret.
Qed.

Lemma accepts_session_fenced :
  accepts decode_session_fenced
    (λ bs p, bs = encode_session_fenced p [] ∧ 0 < sf_boot p < 2 ^ 64 ∧ 0 < sf_epoch p < 2 ^ 63).
Proof.
  unfold decode_session_fenced. do 2 accepts_number. apply accepts_guard.
  rewrite !orb_false_iff, negb_false_iff. intros [[H1 H2] H3]. unfold fits in *.
  rewrite is_representable_true in H3 by lia. apply accepts_ret. cbn [sf_boot sf_epoch].
  split; [|lia]. unfold encode_session_fenced. rewrite !seqw_nil by apply _. by rewrite !app_nil_r.
Qed.

(** ** Lemmas: reports *)

Lemma reads_optional {A} (m : reader A) (f : A → writing) (p : option A) `{!∀ x, Appends (f x)} :
  (∀ x, p = Some x → reads m (f x []) x) →
  reads (found ← boolean; padding ← read_padding; _ ← fail_if (bad_padding padding);
         if (found : bool) then (x ← m; mret (Some x)) else mret None)
    ((put_bool (is_found p) ;;> write_padding ;;>
      match p with Some x => f x | None => put_nothing end) []) p.
Proof.
  intros Hm. destruct p as [x|]; cbn [is_found];
    (read_field; [apply reads_bool|]; read_field; [apply reads_padding|]; apply reads_guard; [done|]).
  - eapply reads_then_ret; [by apply Hm|apply reads_ret].
  - apply reads_ret.
Qed.

Record wire_report (r : CurrentnessReport) : Prop := {
  wcr_set : fits 64 (rp_set_id r);
  wcr_generations : generation_field (rp_set_generation r) ∧
    generation_field (rp_evaluation_generation r);
  wcr_evidence : wire_requirements (rp_required_evidence r) ∧
    wire_requirements (rp_published_evidence r);
  wcr_counts : fits 64 (rp_current_results r) ∧ fits 64 (rp_revalidation_required r) ∧
    fits 64 (rp_recovered_unproven r);
  wcr_causes : CurrentnessCause.None ∉ rp_causes r ∧ size (rp_causes r) <= 64
}.

Lemma reads_report r : wire_report r → reads read_report (write_report r []) r.
Proof.
  intros [H1 [H2 H3] [H4 H5] (H6 & H7 & H8) [H9 H10]]. unfold read_report, write_report.
  read_field; [by apply reads_u64|]. read_field; [by apply reads_u64, generation_field_fits|].
  read_field; [apply reads_u8; by destruct (rp_state r)|]. read_field; [apply reads_padding|].
  apply reads_guard; [by destruct (rp_state r)|]. apply reads_optional_generation; [done|].
  read_field; [by apply reads_generation_field|].
  do 2 (read_field; [by apply reads_evidence_requirements|]).
  do 3 (read_field; [by apply reads_u64|]). read_field; [apply reads_bool|].
  read_field; [by apply reads_u8|]. read_field; [by apply reads_u16|].
  read_last; [apply reads_counted; [apply _|split; [apply size_nonneg|lia]|done|]|].
  { intros c Hc. unfold read_cause, write_cause. assert (c ≠ CurrentnessCause.None) as Hn by congruence.
    read_field; [apply reads_u8; by destruct c|]. read_last; [apply reads_padding|].
    apply reads_guard; [by destruct c|]. rewrite of_code_code. apply reads_ret. }
  rewrite of_code_code. destruct r. apply reads_ret.
Qed.

(** ** Properties *)

(** The requests and reports survive the wire. A lifecycle request and a fencing
    notice are accepted exactly when their bytes are their encoding; a definitions,
    results or currentness report, found or not, is read back whatever follows it. *)
Theorem reports_exact limits bs post :
  limits_ok limits = true →
  (∀ p, (∃ r, decode_lifecycle_request (open_reader bs) = (Some p, r) ∧ at_end r = true) ↔
     0 < lr_set_id p < 2 ^ 64 ∧ bs = encode_lifecycle_request p []) ∧
  (∀ p, (∃ r, decode_session_fenced (open_reader bs) = (Some p, r) ∧ at_end r = true) ↔
     (0 < sf_boot p < 2 ^ 64 ∧ 0 < sf_epoch p < 2 ^ 63) ∧ bs = encode_session_fenced p []) ∧
  (∀ p, (∀ d, p = Some d → wire_definitions limits d) →
     let b := encode_definitions_report p [] in
     decode_definitions_report limits (open_reader (b ++ post)) = (Some p, mkReader (b ++ post) (size b) true)) ∧
  (∀ p, (∀ s, p = Some s → wire_results limits s ∧ paths_ascend None (rs_entries s) = true) →
     let b := encode_results_report p [] in
     decode_results_report limits (open_reader (b ++ post)) = (Some p, mkReader (b ++ post) (size b) true)) ∧
  (∀ p, (∀ r, p = Some r → wire_report r) →
     let b := encode_currentness_report p [] in
     decode_currentness_report limits (open_reader (b ++ post)) = (Some p, mkReader (b ++ post) (size b) true)).
Proof.
  intros HL. split_and!.
  - intros p. apply (exact_decoder _ _ (λ p, 0 < lr_set_id p < 2 ^ 64)).
    + apply reads_lifecycle_request.
    + apply accepts_lifecycle_request.
  - intros p. apply (exact_decoder _ _ (λ p, 0 < sf_boot p < 2 ^ 64 ∧ 0 < sf_epoch p < 2 ^ 63)).
    + intros q [H1 H2]. by apply reads_session_fenced.
    + apply accepts_session_fenced.
  - intros p Hp. apply reads_open, reads_optional; [apply _|].
    intros d Hd. by apply reads_definitions_snapshot, Hp.
  - intros p Hp. apply reads_open, reads_optional; [apply _|].
    intros s Hs. destruct (Hp s Hs) as [Hw Ha]. by apply (decode_results limits s HL Hw).
  - intros p Hp. apply reads_open, reads_optional; [apply _|].
    intros r Hr. by apply reads_report, Hp.
Qed.

(** ** Witnesses *)

Definition sample_report : CurrentnessReport :=
  mkReport 7 1 ConstraintSetState.Active 3 sample_requirements sample_requirements 1 2 0 true
    [CurrentnessCause.TopologyAdvanced; CurrentnessCause.DependencyInvalidated].

Lemma reports_exact_witness :
  let request := mkLifecycleRequest 7 LifecycleEvent.Suspend in
  (∃ r, decode_lifecycle_request (open_reader (encode_lifecycle_request request [])) = (Some request, r) ∧
     at_end r = true) ∧
  (decode_currentness_report default_limits
     (open_reader (encode_currentness_report (Some sample_report) [] ++ [x00]))).1 = Some (Some sample_report).
Proof.
  intros request.
  destruct (reports_exact default_limits (encode_lifecycle_request request []) [x00] eq_refl)
    as (Hreq & _ & _ & _ & Hrep). split.
  - apply (Hreq request). split; [split; reflexivity|reflexivity].
  - rewrite Hrep; [reflexivity|]. intros r [= <-].
    split; cbn; unfold fits, generation_field, wire_requirements; cbn; try lia.
    + unfold fits, generation_field. split; split; try (repeat constructor; lia); lia.
    + split; [|vm_compute; discriminate]. by rewrite !not_elem_of_cons; split_and!; try apply not_elem_of_nil.
Defined.
