(* ===== verification/Net.v ===== *)
(** The loopback transport, [net.hpp] and [net.cpp]: a socket that sends a whole buffer and
    receives what is there.

    The socket calls of the operating system are a parameter, [Sockets], with what their
    documentation promises in [SocketLaws]. A closed socket is [None]. Connecting, binding,
    accepting and moving are in [Loopback]. *)

From Stdlib Require Import ZArith Lia Bool Strings.Byte.
From stdpp Require Import base list numbers strings.
From S2P Require Import Prelude Base Codec Candidate Persistence.

Open Scope string_scope.
Open Scope list_scope.
Open Scope Z_scope.

(** [::send] answers how many bytes it took, or a number that is not positive; [::recv] the
    bytes it delivers, none when the peer closed its side, or nothing on an error;
    [::shutdown] closes the sending side of the connection, or both. *)
Class Sockets (S : Type) := {
  sys_send : list byte → S → Z * S;
  sys_recv : Z → S → option (list byte) * S;
  sys_shutdown : bool → S → S;
  last_error : S → Z
}.

(** [sent] is what the peer will receive; a receive does not touch it. *)
Class SocketLaws (S : Type) `{Sockets S} := {
  sent : S → list byte;
  send_law s data n s' : sys_send data s = (n, s') →
    n <= size data ∧ sent s' = sent s ++ take (Z.to_nat n) data;
  recv_law s n bytes s' :
    0 <= n → sys_recv n s = (Some bytes, s') → size bytes <= n ∧ sent s' = sent s;
  recv_error_law s n s' : sys_recv n s = (None, s') → sent s' = sent s;
  shutdown_law both s : sent (sys_shutdown both s) = sent s
}.

(** A connection that does not fail: some of the data are always taken. *)
Class ReliableSockets (S : Type) `{Sockets S} : Prop :=
  send_progress : ∀ (s : S) data, 0 < size data → 0 < (sys_send data s).1.

Section sockets.
Context {S : Type} `{Sockets S}.

Definition TcpSocket : Type := option S.

Definition valid_socket (socket : TcpSocket) : bool :=
  match socket with Some _ => true | None => false end.

Definition socket_error (what : string) (s : S) : string :=
  (what ++ " failed; socket error " ++ decimal (last_error s))%string.

(** The rounds of [send_all]: each sends at most 2^30 bytes of what is left. A round that
    does not end the loop sends a byte at least. *)
Fixpoint send_loop (fuel : nat) (data : list byte) (sent_ : Z) (s : S) : Status * S :=
  match fuel with
  | O => (success, s)
  | Datatypes.S fuel =>
      if negb (sent_ <? size data) then (success, s)
      else
        let chunk := if 0x40000000 <? size data - sent_ then 0x40000000 else size data - sent_ in
        let '(produced, s) := sys_send (subspan_of sent_ chunk data) s in
        if produced <=? 0 then (Failure ErrorCode.TransportFailure (socket_error "send" s), s)
        else send_loop fuel data (sent_ + produced) s
  end.

Definition send_all (data : list byte) (socket : TcpSocket) : Status * TcpSocket :=
  match socket with
  | None => (Failure ErrorCode.TransportFailure "socket is not open", None)
  | Some s =>
      let '(status, s) := send_loop (Datatypes.S (length data)) data 0 s in (status, Some s)
  end.

(** Up to [capacity] bytes; none on an orderly close. *)
Definition recv_some (capacity : Z) (socket : TcpSocket) : Result (list byte) * TcpSocket :=
  match socket with
  | None => (Failure ErrorCode.TransportFailure "socket is not open", None)
  | Some s =>
      if capacity =? 0 then (Success [], Some s)
      else
        let chunk := if 0x40000000 <? capacity then 0x40000000 else capacity in
        match sys_recv chunk s with
        | (None, s) => (Failure ErrorCode.TransportFailure (socket_error "receive" s), Some s)
        | (Some bytes, s) => (Success bytes, Some s)
        end
  end.

Definition close_socket (socket : TcpSocket) : TcpSocket := None.

(** [abort] and [shutdown_send]. *)
Definition abort (socket : TcpSocket) : TcpSocket := sys_shutdown true <$> socket.
Definition shutdown_send (socket : TcpSocket) : TcpSocket := sys_shutdown false <$> socket.
End sockets.

(** ** Lemmas *)

Section laws.
Context {S : Type} `{SocketLaws S}.

Lemma take_of_subspan data i n k :
  0 <= i → 0 <= k → k <= n → take (Z.to_nat k) (subspan_of i n data) = subspan_of i k data.
Proof.
  intros Hi Hk Hn. unfold subspan_of. rewrite take_take. do 2 f_equal. lia.
Qed.

Lemma take_then data i k :
  0 <= i → 0 <= k → take (Z.to_nat i) data ++ subspan_of i k data = take (Z.to_nat (i + k)) data.
Proof.
  intros Hi Hk. unfold subspan_of. rewrite Z2Nat.inj_add by done. by rewrite take_take_drop.
Qed.

(** What the loop has sent when it ends, whatever the fuel. *)
Lemma send_loop_spec fuel data : ∀ i s r s',
  0 <= i <= size data → send_loop fuel data i s = (r, s') →
  ∃ n, i <= n <= size data ∧ sent s' = sent s ++ subspan_of i (n - i) data ∧
    (size data - i < Z.of_nat fuel → r = success → n = size data) ∧
    (ok r = false → error_code r = ErrorCode.TransportFailure).
Proof.
  induction fuel as [|fuel IH]; intros i s r s' Hi; cbn [send_loop].
  { intros [= <- <-]. exists i. rewrite Z.sub_diag. split_and!; [lia..| |lia|done].
    unfold subspan_of. change (Z.to_nat 0) with 0%nat. by rewrite take_0, app_nil_r. }
  destruct (i <? size data) eqn:El; cbn [negb].
  2: { intros [= <- <-]. exists i. rewrite Z.sub_diag. split_and!; [lia..| |lia|done].
       unfold subspan_of. change (Z.to_nat 0) with 0%nat. by rewrite take_0, app_nil_r. }
  set (chunk := if _ <? _ then _ else _). assert (0 < chunk <= size data - i) as Hc.
  { subst chunk. destruct (0x40000000 <? size data - i) eqn:E; lia. }
  destruct (sys_send _ s) as [k s1] eqn:Es. apply send_law in Es as [Hk Hs1].
  rewrite (size_subspan_of i chunk) in Hk by lia.
  destruct (k <=? 0) eqn:Ek.
  { intros [= <- <-]. exists i. rewrite Z.sub_diag, Hs1. split_and!; [lia..| |done|done].
    unfold subspan_of. replace (Z.to_nat k) with 0%nat by lia. by rewrite !take_0. }
  intros E. apply IH in E as (n & Hn & Hs & Hall & Hcode); [|lia].
  exists n. split_and!; [lia|lia| | |done].
  - rewrite Hs, Hs1, <- app_assoc, take_of_subspan by lia. f_equal.
    unfold subspan_of. replace (Z.to_nat (n - i)) with (Z.to_nat k + Z.to_nat (n - (i + k)))%nat by lia.
    rewrite Z2Nat.inj_add by lia. by rewrite <- drop_drop, take_take_drop.
  - intros Hf. apply Hall. lia.
Qed.

(** ** Properties *)

(** Sending is whole. When [send_all] succeeds the peer will receive the whole buffer
    after what was sent before; when it fails, a prefix of it. The loop always ends within
    its fuel: it never succeeds with bytes left over. *)
Theorem send_all_whole data s r socket :
  send_all data (Some s) = (r, socket) →
  ∃ s', socket = Some s' ∧
    (r = success → sent s' = sent s ++ data) ∧
    (ok r = false → error_code r = ErrorCode.TransportFailure ∧
       ∃ n, 0 <= n <= size data ∧ sent s' = sent s ++ take (Z.to_nat n) data).
Proof.
  unfold send_all. destruct (send_loop _ data 0 s) as [r' s'] eqn:E. intros [= <- <-].
  exists s'. apply send_loop_spec in E as (n & Hn & Hs & Hall & Hcode); [|pose proof (size_nonneg data); lia].
  rewrite Z.sub_0_r in Hs. split_and!; [done| |].
  - intros Hr. rewrite Hs, (Hall ltac:(unfold size; lia) Hr). f_equal.
    unfold subspan_of, size. change (Z.to_nat 0) with 0%nat. rewrite drop_0. apply take_ge. lia.
  - intros Hf. split; [by apply Hcode|]. exists n. split; [lia|]. rewrite Hs. done.
Qed.

(** A loop that fails was refused by the system. *)
Lemma send_loop_reliable `{!ReliableSockets S} fuel data : ∀ i s r s',
  send_loop fuel data i s = (r, s') → 0 <= i → r = success.
Proof.
  induction fuel as [|fuel IH]; intros i s r s'; cbn [send_loop]; [by intros [= <- _]|].
  destruct (i <? size data) eqn:El; cbn [negb]; [|by intros [= <- _]].
  set (chunk := if _ <? _ then _ else _). assert (0 < chunk <= size data - i) as Hc.
  { subst chunk. destruct (0x40000000 <? size data - i) eqn:E; lia. }
  intros E Hi. pose proof (send_progress s (subspan_of i chunk data)) as Hp.
  rewrite size_subspan_of in Hp by lia. destruct (sys_send _ s) as [k s1]. cbn [fst] in Hp.
  destruct (k <=? 0) eqn:Ek; [lia|]. eapply IH; [exact E|lia].
Qed.

(** Over a connection that does not fail, sending succeeds. *)
Lemma send_all_reliable `{!ReliableSockets S} data s : ∃ s',
  send_all data (Some s) = (success, Some s') ∧ sent s' = sent s ++ data.
Proof.
  unfold send_all. destruct (send_loop _ data 0 s) as [r s'] eqn:E. exists s'.
  pose proof (send_loop_reliable _ _ _ _ _ _ E ltac:(lia)) as ->. split; [done|].
  apply send_loop_spec in E as (n & Hn & Hs & Hall & _); [|pose proof (size_nonneg data); lia].
  rewrite Hs, (Hall ltac:(unfold size; lia) eq_refl), Z.sub_0_r. f_equal.
  unfold subspan_of, size. change (Z.to_nat 0) with 0%nat. rewrite drop_0. apply take_ge. lia.
Qed.

Lemma recv_some_sent n s r socket :
  0 <= n → recv_some n (Some s) = (r, socket) → ∃ s', socket = Some s' ∧ sent s' = sent s.
Proof.
  intros Hn. unfold recv_some. destruct (n =? 0); [intros [= <- <-]; by exists s|].
  destruct (sys_recv _ s) as [[bytes|] s'] eqn:E; intros [= <- <-]; exists s'; split; try done.
  - apply recv_law in E as [_ ?]; [done|]. destruct (1073741824 <? n); lia.
  - by apply recv_error_law in E.
Qed.
End laws.

(** ** A socket in memory *)

(** What was sent, how many bytes it takes at a time, and the chunks that will arrive. *)
Record MemorySocket := mkMemorySocket {
  ms_sent : list byte;
  ms_window : Z;
  ms_inbox : list (list byte)
}.

#[export] Instance memory_sockets : Sockets MemorySocket := {
  sys_send data s :=
    let n := Z.min (size data) (Z.max 1 (ms_window s)) in
    (n, mkMemorySocket (ms_sent s ++ take (Z.to_nat n) data) (ms_window s) (ms_inbox s));
  sys_recv n s :=
    match ms_inbox s with
    | [] => (Some [], s)
    | chunk :: rest =>
        (Some (take (Z.to_nat n) chunk),
         mkMemorySocket (ms_sent s) (ms_window s)
           (if n <? size chunk then drop (Z.to_nat n) chunk :: rest else rest))
    end;
  sys_shutdown both s :=
    mkMemorySocket (ms_sent s) (ms_window s) (if both then [] else ms_inbox s);
  last_error _ := 32
}.

#[export] Instance memory_socket_laws : SocketLaws MemorySocket.
Proof.
  refine {| sent := ms_sent |}.
  - intros s data n s' [= <- <-]. cbn [ms_sent]. split; [|done].
    pose proof (size_nonneg data). lia.
  - intros s n bytes s' Hn. cbn. destruct (ms_inbox s) as [|chunk rest]; intros [= <- <-]; cbn [ms_sent].
    + split; [done|done].
    + split; [|done]. unfold size. rewrite length_take. lia.
  - intros s n s'. cbn. by destruct (ms_inbox s).
  - done.
Defined.

#[export] Instance memory_reliable : ReliableSockets MemorySocket.
Proof. intros s data Hd. cbn. lia. Qed.

(** Ten bytes, three at a time. *)
Lemma send_all_whole_witness :
  ∃ s', snd (send_all (bytes_of_string "constraint") (Some (mkMemorySocket [] 3 []))) = Some s' ∧
    ms_sent s' = bytes_of_string "constraint".
Proof.
  destruct (send_all_whole (bytes_of_string "constraint") (mkMemorySocket [] 3 [])
    _ _ (surjective_pairing _)) as (s' & Hs & Hok & _).
  exists s'. split; [exact Hs|]. exact (Hok ltac:(vm_compute; reflexivity)).
Defined.
