(* ===== verification/Loopback.v ===== *)
(** The set-up of sockets, [net.cpp]: the socket runtime, connecting, binding, accepting,
    moving and closing.

    The system calls are a parameter, [SocketCalls]; [HandleLaws] says which handles each of
    them opens and closes. A [TcpSocket] owns the handle in its [impl_], if it has one, and
    a listener the one in [handle_]. Sending and receiving are in [Net]. *)

From Stdlib Require Import ZArith Lia Bool.
From stdpp Require Import base list numbers strings gmap sets.
From S2P Require Import Prelude Containers Base.

Open Scope string_scope.
Open Scope list_scope.
Open Scope Z_scope.

(** [-1] is no handle. A call that answers a [bool] succeeded or not. *)
Class SocketCalls (O : Type) := {
  sys_socket : O → Z * O;
  sys_set_no_delay : Z → O → O;
  sys_set_reuse_address : Z → O → O;
  sys_connect : Z → Z → O → bool * O;
  sys_bind : Z → Z → O → bool * O;
  sys_listen : Z → Z → O → bool * O;
  sys_port_of : Z → O → option Z * O;
  sys_accept : Z → O → Z * O;
  sys_close : Z → O → O;
  sys_error : O → Z
}.

Definition kInvalidSocket : Z := -1.

(** The handles of the process. *)
Class HandleLaws (O : Type) `{SocketCalls O} := {
  open_handles : O → gset Z;
  socket_law o h o' : sys_socket o = (h, o') →
    (h = kInvalidSocket ∧ open_handles o' = open_handles o) ∨
    (h ≠ kInvalidSocket ∧ h ∉ open_handles o ∧ open_handles o' = {[h]} ∪ open_handles o);
  accept_law l o h o' : sys_accept l o = (h, o') →
    (h = kInvalidSocket ∧ open_handles o' = open_handles o) ∨
    (h ≠ kInvalidSocket ∧ h ∉ open_handles o ∧ open_handles o' = {[h]} ∪ open_handles o);
  close_law h o : open_handles (sys_close h o) = open_handles o ∖ {[h]};
  no_delay_law h o : open_handles (sys_set_no_delay h o) = open_handles o;
  reuse_law h o : open_handles (sys_set_reuse_address h o) = open_handles o;
  connect_law h p o : open_handles (sys_connect h p o).2 = open_handles o;
  bind_law h p o : open_handles (sys_bind h p o).2 = open_handles o;
  listen_law h n o : open_handles (sys_listen h n o).2 = open_handles o;
  port_law h o : open_handles (sys_port_of h o).2 = open_handles o
}.

(** [g_runtime_users] and [g_runtime_ready], which the whole process shares. *)
Record Runtime := mkRuntime { runtime_users : Z; runtime_ready : bool }.

(** [impl_] and its handle; [nullptr] is [None]. *)
Definition SocketImpl : Type := option Z.

Section loopback.
Context {O : Type} `{SocketCalls O}.

Record Net := mkNet { net_os : O; net_runtime : Runtime }.

Definition with_os (o : O) (n : Net) : Net := mkNet o (net_runtime n).

(** A listener: [handle_], absent when it is [~0], and [port_]. *)
Record TcpListener := mkListener { listener_handle : option Z; listener_port : Z }.

(** ** [SocketRuntime] *)

Definition initialize (n : Net) : Status * Net :=
  let r := net_runtime n in
  (success, mkNet (net_os n) (mkRuntime (runtime_users r + 1) true)).

Definition release_runtime (n : Net) : Net :=
  let r := net_runtime n in
  mkNet (net_os n) (mkRuntime (runtime_users r - 1)
    (if runtime_users r =? 1 then false else runtime_ready r)).

Definition initialized (n : Net) : bool := runtime_ready (net_runtime n).

(** [if (!SocketRuntime::initialized()) { ... }] *)
Definition ensure_runtime (n : Net) : Status * Net :=
  if initialized n then (success, n) else initialize n.

(** ** [TcpSocket] *)

(** [close_socket] *)
Definition close_handle (h : Z) (n : Net) : Net :=
  if h =? kInvalidSocket then n else with_os (sys_close h (net_os n)) n.

Definition set_no_delay (socket : SocketImpl) (n : Net) : Status * Net :=
  match socket with
  | None => (Failure ErrorCode.TransportFailure "socket is not open", n)
  | Some h => (success, with_os (sys_set_no_delay h (net_os n)) n)
  end.

Definition transport_failure (what : string) (n : Net) : Status :=
  Failure ErrorCode.TransportFailure (what ++ "; socket error " ++ decimal (sys_error (net_os n)))%string.

(** The socket that was there, if any, is overwritten and stays open. *)
Definition connect_loopback (port : Z) (socket : SocketImpl) (n : Net) : Status * SocketImpl * Net :=
  let '(started, n) := ensure_runtime n in
  if negb (ok started) then (started, socket, n)
  else
    let '(h, o) := sys_socket (net_os n) in
    let n := with_os o n in
    if h =? kInvalidSocket then
      (Failure ErrorCode.TransportFailure "cannot create a loopback socket", socket, n)
    else
      let '(connected, o) := sys_connect h port (net_os n) in
      let n := with_os o n in
      if negb connected then
        let n := close_handle h n in
        (transport_failure "cannot connect to loopback port" n, socket, n)
      else let '(r, n) := set_no_delay (Some h) n in (r, Some h, n).

Definition close_tcp (socket : SocketImpl) (n : Net) : Status * SocketImpl * Net :=
  match socket with
  | None => (success, None, n)
  | Some h => (success, None, close_handle h n)
  end.

(** [out = std::move(other)], where the two are not the same: the handle of [out] is closed. *)
Definition move_assign (out other : SocketImpl) (n : Net) : SocketImpl * SocketImpl * Net :=
  let '(_, _, n) := close_tcp out n in (other, None, n).

(** ** [TcpListener] *)

Definition close_listener (l : TcpListener) (n : Net) : Status * TcpListener * Net :=
  match listener_handle l with
  | None => (success, l, n)
  | Some h => (success, mkListener None (listener_port l), close_handle h n)
  end.

Definition bind_loopback (port : Z) (l : TcpListener) (n : Net) : Status * TcpListener * Net :=
  let '(started, n) := ensure_runtime n in
  if negb (ok started) then (started, l, n)
  else
    let '(_, l, n) := close_listener l n in
    let '(h, o) := sys_socket (net_os n) in
    let n := with_os o n in
    if h =? kInvalidSocket then
      (Failure ErrorCode.TransportFailure "cannot create a listener socket", l, n)
    else
      let n := with_os (sys_set_reuse_address h (net_os n)) n in
      let '(bound, o) := sys_bind h port (net_os n) in
      let n := with_os o n in
      if negb bound then
        let n := close_handle h n in (transport_failure "cannot bind loopback port" n, l, n)
      else
        let '(listens, o) := sys_listen h 16 (net_os n) in
        let n := with_os o n in
        if negb listens then
          (Failure ErrorCode.TransportFailure "cannot listen on the loopback port", l, close_handle h n)
        else
          let '(answer, o) := sys_port_of h (net_os n) in
          (success, mkListener (Some h) (default port answer), with_os o n).

Definition accept_connection (l : TcpListener) (out : SocketImpl) (n : Net)
    : Status * SocketImpl * Net :=
  match listener_handle l with
  | None => (Failure ErrorCode.TransportFailure "listener is not open", out, n)
  | Some listening =>
      let '(h, o) := sys_accept listening (net_os n) in
      let n := with_os o n in
      if h =? kInvalidSocket then (transport_failure "accept failed" n, out, n)
      else
        let '(out, _, n) := move_assign out (Some h) n in
        let '(r, n) := set_no_delay out n in (r, out, n)
  end.

(** ** A process with sockets *)

Record Endpoints := mkEndpoints {
  sockets : list SocketImpl;
  listener : TcpListener;
  net : Net
}.

Inductive SocketOp : Type :=
  | NewSocket
  | Connect (i : nat) (port : Z)
  | Close (i : nat)
  | Move (i j : nat)
  | Bind (port : Z)
  | Accept (i : nat)
  | CloseListener.

(** One call on the sockets of the process, and what it answers. *)
Definition perform (op : SocketOp) (e : Endpoints) : Status * Endpoints :=
  let on i f :=
    match sockets e !! i with
    | None => (success, e)
    | Some s => let '(r, s, n) := f s (net e) in (r, mkEndpoints (<[i:=s]> (sockets e)) (listener e) n)
    end in
  match op with
  | NewSocket => (success, mkEndpoints (sockets e ++ [None]) (listener e) (net e))
  | Connect i port => on i (connect_loopback port)
  | Close i => on i close_tcp
  | Accept i => on i (accept_connection (listener e))
  | Move i j =>
      if (i =? j)%nat then (success, e)
      else
        match sockets e !! i, sockets e !! j with
        | Some out, Some other =>
            let '(out, other, n) := move_assign out other (net e) in
            (success, mkEndpoints (<[j:=other]> (<[i:=out]> (sockets e))) (listener e) n)
        | _, _ => (success, e)
        end
  | Bind port => let '(r, l, n) := bind_loopback port (listener e) (net e) in (r, mkEndpoints (sockets e) l n)
  | CloseListener => let '(r, l, n) := close_listener (listener e) (net e) in (r, mkEndpoints (sockets e) l n)
  end.

(** A connect is made on a socket that is not open. *)
Definition connects_closed (op : SocketOp) (e : Endpoints) : Prop :=
  match op with Connect i _ => sockets e !! i = Some None | _ => True end.

(** What the sockets and the listener own. *)
Definition owned (e : Endpoints) : list Z :=
  option_list (listener_handle (listener e)) ++ somes (sockets e).
End loopback.
Arguments Net O : clear implicits.
Arguments Endpoints O : clear implicits.

(** ** Lemmas *)

Section handles.
Context {O : Type} `{HandleLaws O}.

Notation Net := (Net O).
Notation Endpoints := (Endpoints O).

Definition opened (n : Net) : gset Z := open_handles (net_os n).

(** The handles [base] and [l], and no others, are open, each of [l] owned once. *)
Record holds (base : gset Z) (l : list Z) (n : Net) : Prop := {
  ho_once : NoDup l;
  ho_valid : kInvalidSocket ∉ l;
  ho_apart : base ## list_to_set l;
  ho_open : opened n = base ∪ list_to_set l
}.

Lemma holds_perm base l l' n : l ≡ₚ l' → holds base l n → holds base l' n.
Proof.
  intros Hp [H1 H2 H3 H4]. split; [by rewrite <- Hp|by rewrite <- Hp| |];
    assert (list_to_set l = (list_to_set l' : gset Z)) as <- by (by apply list_to_set_perm_L); done.
Qed.

#[export] Instance holds_proper base : Proper ((≡ₚ) ==> (=) ==> iff) (holds base).
Proof. intros l l' Hp n ? <-. by split; apply holds_perm. Qed.

(** The handle of one socket stays, is closed, or is closed and replaced by a fresh one. *)
Definition changes (s : SocketImpl) (n : Net) (s' : SocketImpl) (n' : Net) : Prop :=
  (s' = s ∧ opened n' = opened n) ∨
  (s' = None ∧ opened n' = opened n ∖ list_to_set (option_list s)) ∨
  (∃ h, s' = Some h ∧ h ≠ kInvalidSocket ∧ h ∉ opened n ∖ list_to_set (option_list s) ∧
     opened n' = {[h]} ∪ (opened n ∖ list_to_set (option_list s))).

Lemma changes_holds base s n s' n' rest :
  changes s n s' n' → holds base (option_list s ++ rest) n → holds base (option_list s' ++ rest) n'.
Proof.
  intros Hc [H1 H2 H3 H4].
  assert (NoDup rest ∧ kInvalidSocket ∉ rest ∧
    (∀ x, s = Some x → x ∉ rest ∧ x ∉ base)) as (Hr & Hv & Hx).
  { destruct s as [x|]; cbn [option_list app] in *; [|by split_and!].
    apply NoDup_cons in H1 as [Hx H1]. split; [done|]. split; [set_solver|].
    intros y [= <-]. split; [done|]. set_solver. }
  destruct Hc as [[-> E]|[[-> E]|(h & -> & Hh & Hfresh & E)]].
  - split; [done|done|done|by rewrite E].
  - split; [done|done|destruct s; set_solver|]. cbn [option_list app]. rewrite E, H4.
    destruct s as [x|]; [destruct (Hx x eq_refl)|]; set_solver.
  - rewrite H4 in E, Hfresh. cbn [option_list app].
    assert (h ∉ base ∧ h ∉ rest) as [Hb Hn]
      by (destruct s as [x|]; [destruct (Hx x eq_refl)|]; set_solver).
    split; [by apply NoDup_cons|set_solver|destruct s; set_solver|]. rewrite E.
    destruct s as [x|]; [destruct (Hx x eq_refl)|]; set_solver.
Qed.

Lemma opened_close h n : h ≠ kInvalidSocket → opened (close_handle h n) = opened n ∖ {[h]}.
Proof.
  intros Hh. unfold close_handle. destruct (h =? kInvalidSocket) eqn:E; [lia|]. apply close_law.
Qed.

Lemma opened_runtime n : opened (ensure_runtime n).2 = opened n ∧ (ensure_runtime n).1 = success.
Proof. unfold ensure_runtime, initialize. by destruct (initialized n). Qed.

Lemma close_changes s n r s' n' :
  s ≠ Some kInvalidSocket → close_tcp s n = (r, s', n') → changes s n s' n' ∧ r = success.
Proof.
  intros Hs. destruct s as [h|]; cbn [close_tcp]; intros [= <- <- <-]; (split; [|done]).
  - right; left. split; [done|]. rewrite opened_close by congruence. cbn. set_solver.
  - by left.
Qed.

Lemma connect_changes port s n r s' n' :
  s = None → connect_loopback port s n = (r, s', n') →
  changes s n s' n' ∧ (ok r = false → s' = s ∧ opened n' = opened n).
Proof.
  intros ->. unfold connect_loopback. pose proof (opened_runtime n) as [Hn Hr].
  destruct (ensure_runtime n) as [started n1]. cbn [fst snd] in *. subst started. cbn [ok success negb].
  destruct (sys_socket (net_os n1)) as [h o] eqn:Es. cbv zeta.
  apply socket_law in Es as [[-> Ho]|(Hh & Hfresh & Ho)].
  { intros [= <- <- <-]. unfold changes, opened in *. cbn [net_os with_os].
    rewrite Ho, Hn. split; [by left|done]. }
  destruct (h =? kInvalidSocket) eqn:Eh; [lia|]. cbn [net_os with_os].
  pose proof (connect_law h port o) as Hc. destruct (sys_connect h port o) as [connected o2]. cbn [snd] in Hc.
  destruct connected; cbn [negb].
  - cbn [set_no_delay with_os]. intros [= <- <- <-]. split; [|done]. right; right. exists h.
    unfold opened in *. cbn [net_os with_os option_list list_to_set].
    rewrite no_delay_law, Hc, Ho, <- Hn. split_and!; [done|done|set_solver|]. cbn. set_solver.
  - intros [= <- <- <-].
    assert (opened (close_handle h (with_os o2 (with_os o n1))) = opened n) as E.
    { rewrite opened_close by done. unfold opened in *. cbn [net_os with_os]. rewrite Hc, Ho, <- Hn. set_solver. }
    split; [by left|done].
Qed.

Lemma accept_changes l s n r s' n' :
  (∀ x, s = Some x → x ≠ kInvalidSocket ∧ x ∈ opened n) → accept_connection l s n = (r, s', n') →
  changes s n s' n' ∧ (ok r = false → s' = s ∧ opened n' = opened n).
Proof.
  intros Hs. unfold accept_connection. destruct (listener_handle l) as [listening|].
  2: { intros [= <- <- <-]. split; [by left|done]. }
  destruct (sys_accept listening (net_os n)) as [h o] eqn:Ea. cbv zeta.
  apply accept_law in Ea as [[-> Ho]|(Hh & Hfresh & Ho)].
  { intros [= <- <- <-]. unfold changes, opened in *. cbn [net_os with_os]. rewrite Ho. split; [by left|done]. }
  destruct (h =? kInvalidSocket) eqn:Eh; [lia|]. unfold move_assign.
  destruct (close_tcp s (with_os o n)) as [[r1 s1] n1] eqn:Ec.
  cbn [set_no_delay]. intros [= <- <- <-]. split; [|done]. right; right. exists h.
  unfold opened. cbn [net_os with_os]. rewrite no_delay_law. split_and!; [done|done|set_solver|].
  destruct s as [x|]; cbn [close_tcp] in Ec; injection Ec as <- <- <-.
  - destruct (Hs x eq_refl) as [Hx Hin].
    pose proof (opened_close x (with_os o n) Hx) as E. unfold opened in *. rewrite E.
    cbn [net_os with_os option_list list_to_set]. rewrite Ho. cbn. set_solver.
  - cbn [net_os with_os option_list list_to_set]. rewrite Ho. cbn. set_solver.
Qed.

(** The same of the handle of the listener. *)
Lemma close_listener_changes l n r l' n' :
  listener_handle l ≠ Some kInvalidSocket → close_listener l n = (r, l', n') →
  changes (listener_handle l) n (listener_handle l') n' ∧ listener_handle l' = None ∧ r = success.
Proof.
  intros Hl. unfold close_listener. destruct (listener_handle l) as [h|] eqn:E; intros [= <- <- <-].
  - split; [|done]. right; left. split; [done|]. rewrite opened_close by congruence. cbn. set_solver.
  - rewrite E. split; [by left|done].
Qed.

(** A handle that was opened and closed again leaves the others. *)
Lemma reopened n o h n' :
  h ∉ opened n → open_handles o = {[h]} ∪ opened n → h ≠ kInvalidSocket → net_os n' = o →
  opened (close_handle h n') = opened n.
Proof. intros Hf Ho Hh <-. rewrite opened_close by done. unfold opened at 1. rewrite Ho. set_solver. Qed.

Lemma bind_changes port l n r l' n' :
  (∀ x, listener_handle l = Some x → x ≠ kInvalidSocket ∧ x ∈ opened n) →
  bind_loopback port l n = (r, l', n') →
  changes (listener_handle l) n (listener_handle l') n' ∧
  (ok r = false → listener_handle l' = None) ∧ (ok r = true → listener_handle l' ≠ None).
Proof.
  intros Hl. unfold bind_loopback. pose proof (opened_runtime n) as [Hn Hr].
  destruct (ensure_runtime n) as [started n1]. cbn [fst snd] in *. subst started. cbn [ok success negb].
  assert (listener_handle l ≠ Some kInvalidSocket) as Hl1 by (intros E; by destruct (Hl _ E)).
  destruct (close_listener l n1) as [[r1 l1] n2] eqn:Ec. pose proof (close_listener_changes _ _ _ _ _ Hl1 Ec)
    as (Hc & Hnone & _).
  assert (opened n2 = opened n ∖ list_to_set (option_list (listener_handle l))) as H2.
  { rewrite <- Hn. destruct Hc as [[E E2]|[[_ E2]|(h & E & _)]]; [|done|congruence].
    rewrite E2, <- E, Hnone. cbn. set_solver. }
  assert (∀ n', opened n' = opened n2 → changes (listener_handle l) n (listener_handle l1) n') as Hclosed.
  { intros n3 E3. right; left. by rewrite E3, Hnone. }
  destruct (sys_socket (net_os n2)) as [h o] eqn:Es. cbv zeta.
  apply socket_law in Es as [[-> Ho]|(Hh & Hfresh & Ho)].
  { intros [= <- <- <-]. split; [by apply Hclosed|done]. }
  destruct (h =? kInvalidSocket) eqn:Eh; [lia|]. cbn [net_os with_os].
  pose proof (reuse_law h o) as Hru. pose proof (bind_law h port (sys_set_reuse_address h o)) as Hb.
  destruct (sys_bind h port _) as [bound o2]. cbn [snd] in Hb. rewrite Hru, Ho in Hb.
  destruct bound; cbn [negb].
  2: { intros [= <- <- <-]. split; [|done]. apply Hclosed. by apply (reopened n2 o2). }
  pose proof (listen_law h 16 o2) as Hli. destruct (sys_listen h 16 o2) as [listens o3].
  cbn [snd] in Hli. rewrite Hb in Hli. destruct listens; cbn [negb].
  2: { intros [= <- <- <-]. split; [|done]. apply Hclosed. by apply (reopened n2 o3). }
  pose proof (port_law h o3) as Hp. destruct (sys_port_of h o3) as [answer o4]. cbn [snd] in Hp.
  intros [= <- <- <-]. split; [|done]. right; right. exists h. cbn [listener_handle].
  fold (opened n2) in Hfresh, Hli. unfold opened at 2. cbn [net_os with_os]. rewrite Hp, Hli, H2.
  split_and!; [done|done| |done]. by rewrite <- H2.
Qed.

Lemma somes_exchange {A} (l : list (option A)) i x y :
  l !! i = Some x → option_list x ++ somes (<[i:=y]> l) ≡ₚ option_list y ++ somes l.
Proof.
  intros Hi. rewrite somes_insert by (by eapply lookup_lt_Some). rewrite (somes_lookup l i x Hi).
  solve_Permutation.
Qed.

Lemma holds_owned base l rest n x :
  l ≡ₚ option_list (Some x) ++ rest → holds base l n → x ≠ kInvalidSocket ∧ x ∈ opened n.
Proof.
  intros Hp Hh. apply (holds_perm _ _ _ _ Hp) in Hh as [_ Hv _ Ho]. cbn [option_list app] in *.
  rewrite Ho. split; [intros ->; apply Hv, list_elem_of_here|set_solver].
Qed.

(** The handles of a process through one call. *)
Lemma perform_holds base op e :
  holds base (owned e) (net e) → connects_closed op e →
  holds base (owned (perform op e).2) (net (perform op e).2) ∧
  (ok (perform op e).1 = false → sockets (perform op e).2 = sockets e).
Proof.
  destruct e as [socks l n]. intros Hh Hc.
  assert (∀ i s (r : Status) s' n', socks !! i = Some s → changes s n s' n' ∧ (ok r = false → s' = s) →
    holds base (owned (mkEndpoints (<[i:=s']> socks) l n')) n' ∧
    (ok r = false → <[i:=s']> socks = socks)) as Hslot.
  { intros i s r s' n' Hi [Hch Hf]. split.
    - unfold owned in *. cbn [sockets listener net] in *. rewrite (somes_lookup _ _ _ Hi) in Hh.
      assert (i < length socks)%nat by (by eapply lookup_lt_Some).
      eapply holds_perm; [|eapply changes_holds, holds_perm, Hh; [exact Hch|]].
      + rewrite somes_insert by done. rewrite (Permutation_app_swap_app (option_list s')). reflexivity.
      + apply Permutation_app_swap_app.
    - intros E. rewrite (Hf E). by apply list_insert_id. }
  assert (∀ i s, socks !! i = Some s → ∀ x, s = Some x → x ≠ kInvalidSocket ∧ x ∈ opened n) as Hown.
  { intros i s Hi x ->. eapply (holds_owned base); [|exact Hh]. unfold owned. cbn [sockets listener].
    rewrite (somes_lookup _ _ _ Hi). apply Permutation_app_swap_app. }
  assert (∀ x, listener_handle l = Some x → x ≠ kInvalidSocket ∧ x ∈ opened n) as Hlown.
  { intros x Hx. eapply (holds_owned base); [|exact Hh]. unfold owned. cbn [sockets listener]. by rewrite Hx. }
  destruct op as [|i port|i|i j|port|i|]; cbn [perform sockets listener net connects_closed] in *; unfold SocketImpl in *.
  - split; [|done]. unfold owned in *. cbn [sockets listener net snd] in *. by rewrite somes_app, app_nil_r.
  - rewrite Hc. destruct (connect_loopback port None n) as [[r s'] n'] eqn:E. cbn [fst snd sockets net].
    apply (Hslot i None); [done|]. apply connect_changes in E as [H1 H2]; [|done].
    split; [done|]. intros Hf. by apply H2.
  - destruct (socks !! i) as [s|] eqn:Hi; [|by split].
    destruct (close_tcp s n) as [[r s'] n'] eqn:E. cbn [fst snd sockets net].
    apply (Hslot i s); [done|]. apply close_changes in E as [H1 ->]; [by split|].
    intros ->. by destruct (Hown i _ Hi kInvalidSocket eq_refl).
  - destruct (i =? j)%nat eqn:Eij; [by split|]. apply Nat.eqb_neq in Eij.
    destruct (socks !! i) as [out|] eqn:Hi; [|by split]. destruct (socks !! j) as [other|] eqn:Hj; [|by split].
    unfold move_assign. destruct (close_tcp out n) as [[r s'] n'] eqn:E. cbn [fst snd sockets net]. split; [|done].
    assert (s' = None) as Hs' by (destruct out; by injection E as _ <- _).
    apply close_changes in E as [Hch _]; [|intros ->; by destruct (Hown i _ Hi kInvalidSocket eq_refl)]. subst s'.
    apply (changes_holds base out n None n' _ Hch). unfold owned in *. cbn [sockets listener].
    eapply holds_perm; [|exact Hh]. cbn [sockets listener].
    assert (option_list out ++ somes (<[j:=None]> (<[i:=other]> socks)) ≡ₚ somes socks) as Hs.
    { apply (Permutation_app_inv_l (option_list other)). rewrite Permutation_app_swap_app.
      rewrite (somes_exchange (<[i:=other]> socks) j other None) by (by rewrite list_lookup_insert_ne).
      by apply somes_exchange. }
    rewrite <- Hs. apply Permutation_app_swap_app.
  - destruct (bind_loopback port l n) as [[r l'] n'] eqn:E. cbn [fst snd sockets net]. split; [|done].
    apply bind_changes in E as [Hch _]; [|done]. unfold owned in *. cbn [sockets listener] in *.
    by eapply changes_holds.
  - destruct (socks !! i) as [s|] eqn:Hi; [|by split].
    destruct (accept_connection l s n) as [[r s'] n'] eqn:E. cbn [fst snd sockets net].
    apply (Hslot i s); [done|]. apply accept_changes in E as [H1 H2]; [|by eapply Hown].
    split; [done|]. intros Hf. by apply H2.
  - destruct (close_listener l n) as [[r l'] n'] eqn:E. cbn [fst snd sockets net]. split; [|done].
    apply close_listener_changes in E as [Hch _]; [|intros Hx; by destruct (Hlown _ Hx)].
    unfold owned in *. cbn [sockets listener] in *. by eapply changes_holds.
Qed.

(** ** Properties *)

(** Calls one after the other, and that every connect among them is on a closed socket. *)
Fixpoint perform_all (ops : list SocketOp) (e : Endpoints) : Endpoints :=
  match ops with [] => e | op :: ops => perform_all ops (perform op e).2 end.
Fixpoint orderly (ops : list SocketOp) (e : Endpoints) : Prop :=
  match ops with [] => True | op :: ops => connects_closed op e ∧ orderly ops (perform op e).2 end.

(** C38: No handle is lost and none has two owners. Through any calls on the sockets and the
    listener of a process — connecting on sockets that are closed, binding again and again,
    accepting into sockets in use, moving and closing, with any of the system calls
    failing — the open handles are those that were open before and exactly the ones the
    sockets and the listener own, each owned once; a call that fails leaves every socket
    what it was. A process that has closed all has left nothing open. *)
Theorem handles_exact base ops (e : Endpoints) :
  holds base (owned e) (net e) → orderly ops e →
  holds base (owned (perform_all ops e)) (net (perform_all ops e)) ∧
  (∀ op, connects_closed op (perform_all ops e) →
     ok (perform op (perform_all ops e)).1 = false →
     sockets (perform op (perform_all ops e)).2 = sockets (perform_all ops e)) ∧
  (owned (perform_all ops e) = [] → opened (net (perform_all ops e)) = base).
Proof.
  intros Hh Ho. assert (holds base (owned (perform_all ops e)) (net (perform_all ops e))) as Hall.
  { revert e Hh Ho. induction ops as [|op ops IH]; intros e Hh Ho; [done|]. destruct Ho as [Hc Ho].
    apply IH; [|done]. by apply perform_holds. }
  split; [done|]. split.
  - intros op Hc. by apply (perform_holds base op).
  - intros E. rewrite (ho_open _ _ _ Hall), E. cbn. set_solver.
Qed.
End handles.

(** ** A system in memory *)

(** The open handles, and how many connections still wait. *)
Record Kernel := mkKernel { kn_open : gset Z; kn_waiting : nat }.

Definition kn_fresh (k : Kernel) : Z := fresh ({[kInvalidSocket]} ∪ kn_open k).
Definition kn_take (k : Kernel) : Z * Kernel :=
  (kn_fresh k, mkKernel ({[kn_fresh k]} ∪ kn_open k) (kn_waiting k)).

(** Ports below 1024 are refused. *)
#[export] Instance kernel_calls : SocketCalls Kernel := {
  sys_socket k := kn_take k;
  sys_set_no_delay _ k := k;
  sys_set_reuse_address _ k := k;
  sys_connect _ p k := (1024 <=? p, k);
  sys_bind _ p k := (1024 <=? p, k);
  sys_listen _ _ k := (true, k);
  sys_port_of _ k := (None, k);
  sys_accept _ k :=
    match kn_waiting k with
    | O => (kInvalidSocket, k)
    | S n => kn_take (mkKernel (kn_open k) n)
    end;
  sys_close h k := mkKernel (kn_open k ∖ {[h]}) (kn_waiting k);
  sys_error _ := 111
}.

Lemma kn_fresh_spec k : kn_fresh k ≠ kInvalidSocket ∧ kn_fresh k ∉ kn_open k.
Proof.
  pose proof (is_fresh ({[kInvalidSocket]} ∪ kn_open k)) as Hf. unfold kn_fresh. set_solver.
Qed.

#[export] Instance kernel_laws : HandleLaws Kernel.
Proof.
  refine {| open_handles := kn_open |}; try done.
  - intros k h k' [= <- <-]. right. pose proof (kn_fresh_spec k) as [H1 H2]. by split_and!.
  - intros l [o [|n]] h k'; cbn; [by intros [= <- <-]; left|]. intros [= <- <-]. right.
    pose proof (kn_fresh_spec (mkKernel o n)) as [H1 H2]. by split_and!.
Defined.

(** A refused bind and a refused connect among calls that succeed; the accepted connection
    is moved over a connected one. *)
Definition sample_calls : list SocketOp :=
  [NewSocket; NewSocket; NewSocket; Bind 80; Bind 4000; Connect 0 4000; Connect 1 22; Accept 1;
   Accept 2; Move 0 1; Bind 4001; Close 2].
Definition no_sockets : Endpoints Kernel :=
  mkEndpoints [] (mkListener None 0) (mkNet (mkKernel {[0; 1; 2]} 1) (mkRuntime 0 false)).

Lemma handles_exact_witness :
  length (owned (perform_all sample_calls no_sockets)) = 2%nat ∧
  length (somes (sockets (perform_all sample_calls no_sockets))) = 1%nat ∧
  opened (net (perform_all sample_calls no_sockets)) =
    {[0; 1; 2]} ∪ list_to_set (owned (perform_all sample_calls no_sockets)) ∧
  opened (net (perform_all (sample_calls ++ [Close 0; CloseListener]) no_sockets)) = {[0; 1; 2]}.
Proof.
  assert (holds {[0; 1; 2]} (owned no_sockets) (net no_sockets)) as Hh.
  { split; [constructor|apply not_elem_of_nil|cbn; set_solver|cbn; set_solver]. }
  split; [vm_compute; reflexivity|]. split; [vm_compute; reflexivity|]. split.
  - destruct (handles_exact {[0; 1; 2]} sample_calls no_sockets Hh) as [Hall _];
      [vm_compute; repeat split|].
    destruct Hall as [_ _ _ Ho]. exact Ho.
  - destruct (handles_exact {[0; 1; 2]} (sample_calls ++ [Close 0; CloseListener]) no_sockets Hh)
      as (_ & _ & Hnone); [vm_compute; repeat split|].
    apply Hnone. vm_compute. reflexivity.
Defined.
