(* ===== verification/Server.v ===== *)
(** The coordinator server, [server.cpp]: one connection from its first frame to the fence
    of its boot.

    A [Host] is what the thread of a connection sees: the coordinator, its socket, the
    counters it shares with the other connections and the session the peer registered.
    [handle_frame] answers one frame, [pump] the frames the assembler holds, [serve] the
    whole connection. Accepting connections and the threads are in [Threads].

    The theorems relate a connection to the system of [CoordinatorSystem]: whatever bytes a
    peer sends, the coordinator sees requests that carry the identity the session
    registered, or none at all, and the peer reads a whole frame per frame it sent. *)

From Stdlib Require Import ZArith Lia Bool Strings.Byte.
From stdpp Require Import base list numbers strings gmap sets.
From S2P Require Import Prelude Containers Base Codec Digest Lifecycle Constraint Candidate.
From S2P Require Import Evaluation ConstraintSet Evaluator Authority Persistence Store.
From S2P Require Import Coordinator CoordinatorInvariant CoordinatorSystem.
From S2P Require Import Exact Protocol ProtocolCorrect Snapshot Messages Net.

Open Scope string_scope.
Open Scope list_scope.
Open Scope Z_scope.

(** [SessionState], and [SessionState{}]. *)
Record SessionState := mkSession {
  ss_session : Z;
  ss_publisher : Z;
  ss_boot : Z;
  ss_scopes : AuthorityScopeMask;
  ss_registered : bool
}.

Definition new_session : SessionState := mkSession 0 0 0 0 false.

Record Host (D S : Type) := mkHost {
  coordinator : World D;
  socket : TcpSocket (S := S);
  next_session : Z;
  frames_handled : Z;
  session_state : SessionState;
  running : bool
}.
Arguments mkHost {D S} coordinator socket next_session frames_handled session_state running.
Arguments coordinator {D S} _.
Arguments socket {D S} _.
Arguments next_session {D S} _.
Arguments frames_handled {D S} _.
Arguments session_state {D S} _.
Arguments running {D S} _.

(** [!decode(reader, ...) || !reader.at_end()] is [None]. *)
Definition decode_all {A} (m : reader A) (bytes : list byte) : option A :=
  match m (open_reader bytes) with
  | (Some a, r) => if at_end r then Some a else None
  | (None, _) => None
  end.

(** The set a query names. *)
Definition read_set_id : reader Z := set_id ← u64; _ ← fail_if (set_id =? 0); mret set_id.

(** The detail of an error report. *)
Definition bounded_detail (limits : Limits) (detail : string) : string :=
  if max_detail_bytes limits <? text_size detail
  then String.substring 0 (Z.to_nat (max_detail_bytes limits)) detail
  else detail.

Definition identity_matches (state : SessionState) (h : FrameHeader) : bool :=
  (fr_publisher h =? ss_publisher state) && (fr_worker_boot h =? ss_boot state).

(** The reason a refused registration reports. *)
Definition refused_registration : ReasonCode.t :=
  if eeqb (reason_class_of ReasonCode.UnknownPublisher) ReasonClass.CallerIdentity
  then ReasonCode.UnknownPublisher else ReasonCode.ScopeNotAuthorized.

Section server.
Context {D S : Type} `{FileSystem D} `{Sockets S}.

(** [config.limits]. *)
Context (limits : Limits).

Definition step (A : Type) : Type := Host D S → A * Host D S.

Definition epoch (h : Host D S) : Z := reg_epoch (im_authority (impl (coordinator h))).

Definition with_socket (s : TcpSocket) (h : Host D S) : Host D S :=
  mkHost (coordinator h) s (next_session h) (frames_handled h) (session_state h) (running h).
Definition with_state (state : SessionState) (h : Host D S) : Host D S :=
  mkHost (coordinator h) (socket h) (next_session h) (frames_handled h) state (running h).
Definition stop_running (h : Host D S) : Host D S :=
  mkHost (coordinator h) (socket h) (next_session h) (frames_handled h) (session_state h) false.
Definition take_session (h : Host D S) : Host D S :=
  mkHost (coordinator h) (socket h) (wrap 64 (next_session h + 1)) (frames_handled h)
    (session_state h) (running h).
Definition count_frame (h : Host D S) : Host D S :=
  mkHost (coordinator h) (socket h) (next_session h) (wrap 64 (frames_handled h + 1))
    (session_state h) (running h).

(** A call on the coordinator. *)
Definition call {A} (m : op D A) : step (Result A) := λ h,
  let '(r, w) := m (coordinator h) in
  (r, mkHost w (socket h) (next_session h) (frames_handled h) (session_state h) (running h)).

(** ** Replies *)

Definition reply_frame (m : MessageId.t) (request : FrameHeader) (payload : list byte) (h : Host D S)
    : Frame :=
  mkFrame (mkHeader kProtocolVersionValue m 0 0 (epoch h) (ss_publisher (session_state h))
      (ss_boot (session_state h)) (fr_attempt request) (fr_request request)
      (ss_scopes (session_state h))) payload.

Definition send_frame (m : MessageId.t) (request : FrameHeader) (payload : list byte) : step Status :=
  λ h,
  match encode_frame (reply_frame m request payload h) limits with
  | Failure code detail => (Failure code detail, h)
  | Success encoded => let '(r, s) := send_all encoded (socket h) in (r, with_socket s h)
  end.

Definition send_error (request : FrameHeader) (code : ErrorCode.t) (reason : ReasonCode.t)
    (detail : string) : step Status :=
  send_frame MessageId.ErrorReport request
    (encode_error_report (mkErrorReport code reason (bounded_detail limits detail)) []).

Definition context_for (h : Host D S) (header : FrameHeader) : AuthorityContext :=
  mkAuthority (epoch h) (ss_publisher (session_state h)) (ss_boot (session_state h))
    (fr_attempt header) (fr_request header) (ss_session (session_state h))
    (ss_scopes (session_state h)).

(** [(void)send_...; return go;] *)
Definition answer (go : bool) (m : step Status) : step bool := λ h, (go, (m h).2).

(** ** One frame *)

Definition hello_context (hello : HelloPayload) (session : Z) (header : FrameHeader) (h : Host D S)
    : AuthorityContext :=
  mkAuthority (epoch h) (hello_publisher hello) (hello_worker_boot hello)
    (if is_valid (fr_attempt header) then fr_attempt header else 1) (fr_request header) session 0.

Definition handle_hello (tick : Z) (frame : Frame) : step bool := λ h,
  let request := header frame in
  match decode_all (decode_hello limits) (payload frame) with
  | None =>
      answer false (send_error request ErrorCode.Malformed ReasonCode.MalformedFrame
        "hello payload is malformed") h
  | Some hello =>
      let h := take_session h in
      let session := next_session h in
      let '(registration, h) := call (Coordinator.register_publisher
        (hello_context hello session request h) (hello_publisher hello) (hello_worker_boot hello)
        (requested_scopes hello) session tick) h in
      match registration with
      | Failure code detail =>
          let ack := mkHelloAck (epoch h) session 0 kProtocolVersionValue false in
          let h := (send_frame MessageId.HelloAck request (encode_hello_ack ack []) h).2 in
          answer false (send_error request code refused_registration detail) h
      | Success registered =>
          let h := with_state (mkSession session (hello_publisher hello) (hello_worker_boot hello)
            (rg_scopes registered) true) h in
          let ack := mkHelloAck (epoch h) session (rg_scopes registered) kProtocolVersionValue true in
          let '(sent, h) := send_frame MessageId.HelloAck request (encode_hello_ack ack []) h in
          (ok sent, h)
      end
  end.

Definition publish_ack (s : ConstraintSet) : list byte :=
  encode_publish_ack (mkPublishAck (cs_id s) (cs_generation s) (cs_digest s)) [].

Definition handle_publish (now : Z * Z) (frame : Frame) : step bool := λ h,
  match decode_all (decode_constraint_set limits) (payload frame) with
  | None =>
      answer true (send_error (header frame) ErrorCode.Malformed ReasonCode.MalformedConstraint
        "constraint set payload is malformed") h
  | Some set =>
      let context := context_for h (header frame) in
      let '(published, h) := call (publish_constraint_set context set now.1 now.2) h in
      match published with
      | Failure code detail =>
          answer true (send_error (header frame) code ReasonCode.MalformedConstraint detail) h
      | Success s =>
          answer true (send_frame MessageId.PublishConstraintSetAck (header frame) (publish_ack s)) h
      end
  end.

Definition handle_lifecycle (now : Z * Z) (frame : Frame) : step bool := λ h,
  match decode_all decode_lifecycle_request (payload frame) with
  | None =>
      answer true (send_error (header frame) ErrorCode.Malformed ReasonCode.MalformedFrame
        "lifecycle payload is malformed") h
  | Some request =>
      let context := context_for h (header frame) in
      let '(applied, h) := call (apply_lifecycle context (lr_set_id request) (lr_event request) now.1) h in
      match applied with
      | Failure code detail =>
          answer true (send_error (header frame) code ReasonCode.ConstraintSetNotActive detail) h
      | Success s =>
          answer true (send_frame MessageId.ApplyLifecycleAck (header frame) (publish_ack s)) h
      end
  end.

Definition handle_evaluate (now : Z * Z) (frame : Frame) : step bool := λ h,
  match decode_all (decode_evaluate_request limits) (payload frame) with
  | None =>
      answer true (send_error (header frame) ErrorCode.Malformed ReasonCode.MalformedCandidate
        "candidate payload is malformed") h
  | Some request =>
      let context := context_for h (header frame) in
      let '(outcome, h) := call (evaluate context (ev_set_id request) (candidates request)
        (expected_generation request) now.1 now.2) h in
      match outcome with
      | Failure code detail =>
          answer true (send_error (header frame) code ReasonCode.None detail) h
      | Success committed =>
          answer true (send_frame MessageId.EvaluateCandidatesAck (header frame)
            (encode_evaluate_response (mkEvaluateAck (co_batch committed)) [])) h
      end
  end.

(** The three queries: what the set has, or that it has none. *)
Definition found {A} (r : Result A) : option A :=
  match r with Success a => Some a | Failure _ _ => None end.

Definition handle_query (malformed : string) (m : MessageId.t) (report : Z → Impl → list byte)
    (frame : Frame) : step bool := λ h,
  match decode_all read_set_id (payload frame) with
  | None =>
      answer true (send_error (header frame) ErrorCode.Malformed ReasonCode.MalformedFrame malformed) h
  | Some set_id =>
      answer true (send_frame m (header frame) (report set_id (impl (coordinator h)))) h
  end.

Definition definitions_report (set_id : Z) (i : Impl) : list byte :=
  encode_definitions_report (found (query_definitions set_id i)) [].
Definition results_report (set_id : Z) (i : Impl) : list byte :=
  encode_results_report (found (query_results set_id i)) [].
Definition currentness_report (set_id : Z) (i : Impl) : list byte :=
  encode_currentness_report (found (currentness set_id i)) [].

(** The [switch]: a frame of a registered session, under its own identity. *)
Definition handle_registered (now : Z * Z) (frame : Frame) : step bool :=
  match message (header frame) with
  | MessageId.PublishConstraintSet => handle_publish now frame
  | MessageId.ApplyLifecycle => handle_lifecycle now frame
  | MessageId.EvaluateCandidates => handle_evaluate now frame
  | MessageId.QueryDefinitions =>
      handle_query "definitions query payload is malformed" MessageId.DefinitionsReport
        definitions_report frame
  | MessageId.QueryResults =>
      handle_query "results query payload is malformed" MessageId.ResultsReport results_report frame
  | MessageId.QueryCurrentness =>
      handle_query "currentness query payload is malformed" MessageId.CurrentnessReport
        currentness_report frame
  | MessageId.Heartbeat => answer true (send_frame MessageId.Heartbeat (header frame) [])
  | MessageId.Shutdown => λ h,
      (false, stop_running (send_frame MessageId.Shutdown (header frame) [] h).2)
  | _ =>
      answer false (send_error (header frame) ErrorCode.ProtocolViolation ReasonCode.UnknownMessageId
        "message identifier is not valid in the client-to-server direction")
  end.

(** [now] are the clock readings of the calls the frame leads to. *)
Definition handle_frame (now : Z * Z) (frame : Frame) : step bool := λ h,
  if eeqb (message (header frame)) MessageId.Hello then handle_hello now.1 frame h
  else if negb (ss_registered (session_state h)) then
    answer false (send_error (header frame) ErrorCode.Unauthorized
      ReasonCode.MissingAuthorityContext
      "default deny: the session has not registered a publisher") h
  else if negb (identity_matches (session_state h) (header frame)) then
    answer false (send_error (header frame) ErrorCode.Fenced ReasonCode.FencedWorkerBoot
      "frame identity does not match the registered session identity") h
  else handle_registered now frame h.

(** ** One connection *)

(** The clock, by the number of frames handled; and the reading of a lost session. *)
Context (clock : Z → Z * Z).

(** The frames the assembler holds. Every frame takes bytes from the buffer, so as many
    rounds as it has bytes, and one, end the loop. *)
Fixpoint pump_loop (fuel : nat) (a : FrameAssembler) (h : Host D S) : FrameAssembler * Host D S :=
  match fuel with
  | O => (a, h)
  | Datatypes.S fuel =>
      match pop a with
      | (Failure code detail, a) =>
          (a, stop_running (send_error empty_header code ReasonCode.MalformedFrame detail h).2)
      | (Success None, a) => (a, h)
      | (Success (Some frame), a) =>
          let h := count_frame h in
          let '(go, h) := handle_frame (clock (frames_handled h)) frame h in
          if go then pump_loop fuel a h else (a, h)
      end
  end.

Definition pump (a : FrameAssembler) : Host D S → FrameAssembler * Host D S :=
  pump_loop (Datatypes.S (length (buffer a))) a.

(** The size of [buffer]. *)
Definition receive_bytes : Z := 65536.

(** One round of the loop of [serve]; [None] leaves it. *)
Definition round (a : FrameAssembler) : step (option FrameAssembler) := λ h,
  let '(read, s) := recv_some receive_bytes (socket h) in
  let h := with_socket s h in
  match read with
  | Failure _ _ | Success [] => (None, h)
  | Success chunk =>
      match push chunk a with
      | (Failure code detail, _) =>
          (None, (send_error empty_header code ReasonCode.OversizedVector detail h).2)
      | (Success _, a) => let '(a, h) := pump a h in (Some a, h)
      end
  end.

(** The loop, one round per reading of [stopping]; whether it was left, or goes on. *)
Fixpoint rounds (stopping : list bool) (a : FrameAssembler) (h : Host D S) : bool * Host D S :=
  match stopping with
  | [] => (negb (running h), h)
  | stop :: stopping =>
      if negb (running h) || stop then (true, h)
      else
        match round a h with
        | (None, h) => (true, h)
        | (Some a, h) => rounds stopping a h
        end
  end.

(** What follows the loop. *)
Definition finish_connection (tick : Z) (h : Host D S) : Host D S :=
  let h := if ss_registered (session_state h)
    then (call (fence_on_session_loss (ss_session (session_state h)) tick) h).2 else h in
  with_socket (close_socket (socket h)) h.

Definition serve_connection (stopping : list bool) (tick : Z) (h : Host D S) : Host D S :=
  let '(over, h) := rounds stopping (new_assembler limits) h in
  if over then finish_connection tick h else h.

(** [serve] of an accepted socket. *)
Definition accepted (w : World D) (s : TcpSocket) (next_session frames_handled : Z) : Host D S :=
  mkHost w s next_session frames_handled new_session true.
End server.

(** The admission of [run]: the connection is closed when the sessions are as many as the
    limit. *)
Definition admits (limits : Limits) (active : Z) : bool := active <? max_sessions limits.
