(* ===== verification/ServerCorrect.v ===== *)
(** Properties of the coordinator server of [Server.v].

    A connection is a run of the system of [CoordinatorSystem]: its frames become requests
    under the identity its session registered, so what is proved of the coordinator holds
    whatever a peer sends. Frames outside a session change nothing, every frame is
    answered under its own request identity, and a lost session is revoked. *)

From Stdlib Require Import ZArith Lia Bool Strings.Byte.
From stdpp Require Import base list numbers strings gmap sets relations.
From S2P Require Import Prelude Containers Base Codec Digest Lifecycle Constraint Candidate.
From S2P Require Import Evaluation ConstraintSet Evaluator Authority Persistence Store.
From S2P Require Import Coordinator CoordinatorInvariant CoordinatorSystem CoordinatorCorrect.
From S2P Require Import Exact Protocol ProtocolCorrect Snapshot Messages Net Server.

Open Scope string_scope.
Open Scope list_scope.
Open Scope Z_scope.

(** ** Requests of a connection *)

(** A context of a registered session, for a frame that carries the same identity. *)
Record speaks_as (state : SessionState) (h : FrameHeader) (c : AuthorityContext) : Prop := {
  sa_registered : ss_registered state = true;
  sa_identity : fr_publisher h = ss_publisher state ∧ fr_worker_boot h = ss_boot state;
  sa_context : ac_publisher c = ss_publisher state ∧ ac_worker_boot c = ss_boot state ∧
    ac_session c = ss_session state ∧ ac_scopes c = ss_scopes state;
  sa_attempt : ac_attempt c = fr_attempt h ∧ ac_request c = fr_request h
}.

(** The requests a frame can lead to. *)
Definition issued (limits : Limits) (state : SessionState) (frame : Frame) (r : Request) : Prop :=
  match r with
  | Register c publisher boot scopes session _ =>
      message (header frame) = MessageId.Hello ∧ ac_publisher c = publisher ∧ ac_worker_boot c = boot ∧
      ac_session c = session ∧ ∃ name,
        decode_all (decode_hello limits) (payload frame) = Some (mkHello publisher boot scopes name)
  | Publish c s _ _ =>
      message (header frame) = MessageId.PublishConstraintSet ∧ speaks_as state (header frame) c ∧
      decode_all (decode_constraint_set limits) (payload frame) = Some s
  | Lifecycle_ c id event _ =>
      message (header frame) = MessageId.ApplyLifecycle ∧ speaks_as state (header frame) c ∧
      decode_all decode_lifecycle_request (payload frame) = Some (mkLifecycleRequest id event)
  | Begin c id paths expected _ _ =>
      message (header frame) = MessageId.EvaluateCandidates ∧ speaks_as state (header frame) c ∧
      decode_all (decode_evaluate_request limits) (payload frame) =
        Some (mkEvaluateRequest id expected paths)
  | Commit _ => message (header frame) = MessageId.EvaluateCandidates ∧ ss_registered state = true
  | _ => False
  end.

(** The requests of a whole connection. *)
Definition from_wire (limits : Limits) (r : Request) : Prop :=
  (∃ state frame, issued limits state frame r) ∨ (∃ session tick, r = SessionLoss session tick).

Section served.
Context {D : Type} `{FileSystem D}.

(** The coordinator went from [w] to [w'] by serving requests that satisfy [P], whatever
    evaluations of other connections were pending. *)
Definition served (P : Request → Prop) (w w' : World D) : Prop :=
  ∀ p, ∃ requests, Forall P requests ∧ serve requests (mkSystem w p) = mkSystem w' p.

#[export] Instance served_preorder P : PreOrder (served P).
Proof.
  split; [intros w p; by exists []|]. intros w1 w2 w3 H1 H2 p.
  destruct (H1 p) as (rs1 & F1 & E1), (H2 p) as (rs2 & F2 & E2).
  exists (rs1 ++ rs2). split; [by apply Forall_app|].
  unfold serve in *. by rewrite fold_left_app, E1, E2.
Qed.

Lemma served_mono (P Q : Request → Prop) w w' : (∀ r, P r → Q r) → served P w w' → served Q w w'.
Proof. intros HPQ Hs p. destruct (Hs p) as (rs & F & E). exists rs. split; [by eapply Forall_impl|done]. Qed.

Lemma served_one (P : Request → Prop) r w w' :
  P r → (∀ p, handle r (mkSystem w p) = mkSystem w' p) → served P w w'.
Proof. intros HP E p. exists [r]. split; [by constructor|]. cbn. apply E. Qed.

(** An evaluation is its two requests. *)
Lemma served_evaluate (P : Request → Prop) context id paths expected t1 t2 w :
  P (Begin context id paths expected t1 t2) → (∀ n, P (Commit n)) →
  served P w (evaluate context id paths expected t1 t2 w).2.
Proof.
  intros Hb Hc p.
  assert (∀ w', begin_evaluation context id paths expected t1 t2 (mkSystem w p) = mkSystem w' p →
    ∃ requests, Forall P requests ∧ serve requests (mkSystem w p) = mkSystem w' p) as Hone.
  { intros w' E. exists [Begin context id paths expected t1 t2]. split; [by constructor|done]. }
  unfold evaluate, mbind, op_bind. unfold begin_evaluation in Hone. cbn [world pending] in Hone.
  destruct (evaluate_begin context id paths expected t1 w) as [[[outcome|snapshot]|code text] w1] eqn:E;
    [by apply Hone| |by apply Hone].
  unfold get, lift. destruct (evaluate_batch _ _) as [batch|code text] eqn:Eb; [|by apply Hone].
  exists [Begin context id paths expected t1 t2; Commit (length p)].
  split; [by repeat constructor|]. cbn [serve fold_left handle].
  unfold begin_evaluation. cbn [world pending]. rewrite E, Eb. cbn [pending world].
  rewrite list_lookup_middle by done. f_equal. by rewrite delete_middle, app_nil_r.
Qed.
End served.

Section connection.
Context {D S : Type} `{FileSystemLaws D} `{Sockets S}.
Context (limits : Limits) (clock : Z → Z * Z).

Notation Host := (Host D S).

(** ** Lemmas: replies *)

(** A reply touches the socket only. *)
Lemma send_frame_socket m request bytes (h : Host) :
  ∃ s, (send_frame limits m request bytes h).2 = with_socket s h.
Proof.
  unfold send_frame. destruct (encode_frame _ _) as [encoded|].
  - destruct (send_all _ _) as [r s]. by exists s.
  - exists (socket h). by destruct h.
Qed.

Lemma send_frame_coordinator m request bytes (h : Host) :
  coordinator (send_frame limits m request bytes h).2 = coordinator h.
Proof. by destruct (send_frame_socket m request bytes h) as [s ->]. Qed.

Lemma send_frame_state m request bytes (h : Host) :
  session_state (send_frame limits m request bytes h).2 = session_state h.
Proof. by destruct (send_frame_socket m request bytes h) as [s ->]. Qed.

Lemma answer_coordinator go m request bytes (h h' : Host) b :
  answer go (send_frame limits m request bytes) h = (b, h') →
  coordinator h' = coordinator h ∧ session_state h' = session_state h ∧ b = go.
Proof.
  intros [= <- <-]. by rewrite send_frame_coordinator, send_frame_state.
Qed.

(** ** Lemmas: one frame *)

Lemma call_spec {A} (m : op D A) (h h' : Host) r :
  call m h = (r, h') →
  m (coordinator h) = (r, coordinator h') ∧ session_state h' = session_state h ∧
  socket h' = socket h ∧ running h' = running h.
Proof. unfold call. destruct (m (coordinator h)) as [r' w]. by intros [= -> <-]. Qed.

Lemma context_speaks (h : Host) f :
  ss_registered (session_state h) = true → identity_matches (session_state h) (header f) = true →
  speaks_as (session_state h) (header f) (context_for h (header f)).
Proof.
  unfold identity_matches. intros Hr [Hp Hb]%andb_true_iff.
  apply Z.eqb_eq in Hp, Hb. by split.
Qed.

(** After a call that is one request, and a reply. *)
Lemma served_call {A} (P : Request → Prop) r (m : op D A) (h h' : Host) answered :
  P r → (∀ w p, handle r (mkSystem w p) = mkSystem (m w).2 p) → call m h = (answered, h') →
  served P (coordinator h) (coordinator h').
Proof.
  intros HP Hr E. apply call_spec in E as (E & _). apply (served_one P r); [done|].
  intros p. by rewrite Hr, E.
Qed.

Ltac replied E :=
  apply answer_coordinator in E as (-> & -> & _).

(** What a frame of a registered session does to the coordinator. *)
Lemma handle_registered_served now f (h h' : Host) go :
  ss_registered (session_state h) = true → identity_matches (session_state h) (header f) = true →
  handle_registered limits now f h = (go, h') →
  served (issued limits (session_state h) f) (coordinator h) (coordinator h') ∧
  session_state h' = session_state h.
Proof.
  intros Hr Hid. pose proof (context_speaks h f Hr Hid) as Hc.
  unfold handle_registered, handle_query.
  destruct (message (header f)) eqn:Em;
    try (intros E; replied E; done);
    try (destruct (decode_all read_set_id _); intros E; replied E; done).
  - unfold handle_publish. destruct (decode_all _ _) as [s|] eqn:Ed; [|intros E; by replied E].
    destruct (call _ h) as [r g] eqn:E. pose proof (call_spec _ _ _ _ E) as (_ & Hg & _).
    intros E'. assert (coordinator h' = coordinator g ∧ session_state h' = session_state g) as [-> ->]
      by (by destruct r; replied E').
    split; [|done]. eapply (served_call _ (Publish _ _ _ _)); [| |exact E]; [|done]. done.
  - unfold handle_lifecycle. destruct (decode_all _ _) as [[id event]|] eqn:Ed; [|intros E; by replied E].
    cbv zeta. destruct (call _ h) as [r g] eqn:E. pose proof (call_spec _ _ _ _ E) as (_ & Hg & _).
    intros E'. assert (coordinator h' = coordinator g ∧ session_state h' = session_state g) as [-> ->]
      by (by destruct r; replied E').
    split; [|done]. eapply (served_call _ (Lifecycle_ _ _ _ _)); [| |exact E]; [|done]. done.
  - unfold handle_evaluate. destruct (decode_all _ _) as [[id expected paths]|] eqn:Ed; [|intros E; by replied E].
    cbv zeta. destruct (call _ h) as [r g] eqn:E. pose proof (call_spec _ _ _ _ E) as (Ew & Hg & _).
    intros E'. assert (coordinator h' = coordinator g ∧ session_state h' = session_state g) as [-> ->]
      by (by destruct r; replied E').
    split; [|done]. replace (coordinator g) with (evaluate (context_for h (header f)) id paths expected now.1 now.2 (coordinator h)).2
      by (cbn [ev_set_id candidates expected_generation] in Ew; by rewrite Ew). by apply served_evaluate.
  - intros [= _ <-]. cbn [coordinator session_state stop_running].
    by rewrite send_frame_coordinator, send_frame_state.
Qed.

(** The session a connection has after a frame is the one it had, or registered. *)
Lemma handle_frame_requests now f (h h' : Host) go :
  handle_frame limits now f h = (go, h') →
  served (issued limits (session_state h) f) (coordinator h) (coordinator h') ∧
  (session_state h' = session_state h ∨ ss_registered (session_state h') = true).
Proof.
  unfold handle_frame. destruct (eeqb _ _) eqn:Eh.
  { apply eeqb_eq in Eh. unfold handle_hello.
    destruct (decode_all _ _) as [[publisher boot scopes name]|] eqn:Ed; [|intros E; replied E; split; [done|by left]].
    cbv zeta. destruct (call _ _) as [r g] eqn:E. pose proof (call_spec _ _ _ _ E) as (_ & Hg & _).
    assert (served (issued limits (session_state h) f) (coordinator h) (coordinator g)) as Hs.
    { change (coordinator h) with (coordinator (take_session h)).
      eapply (served_call _ (Register _ _ _ _ _ _)); [| |exact E]; [|done]. naive_solver. }
    destruct r as [registered|code detail].
    - destruct (send_frame_socket MessageId.HelloAck (header f)
        (encode_hello_ack (mkHelloAck (epoch g) (next_session (take_session h)) (rg_scopes registered)
           kProtocolVersionValue true) [])
        (with_state (mkSession (next_session (take_session h)) publisher boot (rg_scopes registered) true) g))
        as [s Es]. cbn [hello_publisher hello_worker_boot] in *.
      destruct (send_frame _ _ _ _ _) as [sent_ g'] eqn:Eg. intros [= _ <-]. cbn [snd] in Es. subst g'.
      split; [exact Hs|by right].
    - intros E'. replied E'. rewrite send_frame_coordinator, send_frame_state.
      split; [exact Hs|]. left. by rewrite Hg. }
  destruct (ss_registered _) eqn:Er; cbn [negb]; [|intros E; replied E; split; [done|by left]].
  destruct (identity_matches _ _) eqn:Ei; cbn [negb]; [|intros E; replied E; split; [done|by left]].
  intros E. apply handle_registered_served in E as [Hs ->]; auto.
Qed.

(** ** Lemmas: a connection *)

Section steps.
(** What holds of every step of a connection holds of the connection. *)
Context (limits_valid : limits_ok limits = true).
Context (R : Host → Host → Prop) `{!PreOrder R}.
Context (socket_step : ∀ s h, R h (with_socket s h)).
Context (stop_step : ∀ h, R h (stop_running h)).
Context (frame_step : ∀ now f h go h', wire_frame limits f →
  handle_frame limits now f (count_frame h) = (go, h') → R h h').

Lemma reply_step m request bytes (h : Host) : R h (send_frame limits m request bytes h).2.
Proof. destruct (send_frame_socket m request bytes h) as [s ->]. apply socket_step. Qed.

Lemma pop_wire a a' f :
  fa_limits a = limits → pop a = (Success (Some f), a') → wire_frame limits f ∧ fa_limits a' = limits.
Proof.
  intros Ha E. destruct a as [l bs failed]. cbn [fa_limits] in Ha. subst l.
  destruct failed; [done|]. destruct (pop_answers limits bs) as [(g & rest & E')|[E'|(code & text & E')]];
    rewrite E' in E; [|done|done].
  injection E as -> <-. apply pop_frame in E' as [Hw _]; done.
Qed.

Lemma pop_limits a r a' : pop a = (r, a') → fa_limits a' = fa_limits a.
Proof.
  unfold pop, fail_assembler. destruct (failed_ a); [by intros [= _ <-]|].
  destruct (_ <? kHeaderBytes); [by intros [= _ <-]|].
  destruct (decode_frame_header _).1 as [h|]; [|by intros [= _ <-]].
  destruct (negb _); [by intros [= _ <-]|]. destruct (_ <? payload_length h); [by intros [= _ <-]|].
  cbv zeta. destruct (_ <? frame_size _); [by intros [= _ <-]|].
  by destruct (decode_frame _ _); intros [= _ <-].
Qed.

Lemma pump_steps fuel : ∀ a h a' h',
  fa_limits a = limits → pump_loop limits clock fuel a h = (a', h') → R h h' ∧ fa_limits a' = limits.
Proof.
  induction fuel as [|fuel IH]; intros a h a' h' Ha; cbn [pump_loop]; [by intros [= <- <-]|].
  destruct (pop a) as [[[f|]|code text] a1] eqn:Ep.
  - pose proof (pop_wire _ _ _ Ha Ep) as [Hw Ha1]. cbv zeta.
    destruct (handle_frame _ _ f _) as [go h1] eqn:Ef. pose proof (frame_step _ _ _ _ _ Hw Ef) as R1.
    destruct go; [|by intros [= <- <-]]. intros E. apply IH in E as [R2 Ha']; [|done].
    split; [by etrans|done].
  - intros [= <- <-]. split; [done|]. by rewrite (pop_limits _ _ _ Ep).
  - intros [= <- <-]. split; [|by rewrite (pop_limits _ _ _ Ep)].
    etrans; [apply reply_step|apply stop_step].
Qed.

Lemma round_steps a h a' h' :
  fa_limits a = limits → round limits clock a h = (a', h') →
  R h h' ∧ (∀ b, a' = Some b → fa_limits b = limits).
Proof.
  intros Ha. unfold round. destruct (recv_some _ _) as [read s].
  assert (R h (with_socket s h)) as Hs by apply socket_step.
  destruct read as [[|byte chunk]|code text]; try (intros [= <- <-]; done).
  destruct (push _ a) as [[u|code text] a1] eqn:Ep.
  - assert (fa_limits a1 = limits) as Ha1.
    { unfold push, fail_assembler in Ep. destruct (failed_ a); [done|].
      destruct (_ <? _); [done|]. by injection Ep as _ <-. }
    destruct (pump _ _ a1 _) as [a2 h2] eqn:E2. apply pump_steps in E2 as [R2 Ha2]; [|done].
    intros [= <- <-]. split; [by etrans|]. by intros b [= <-].
  - intros [= <- <-]. split; [|done]. etrans; [exact Hs|apply reply_step].
Qed.

Lemma rounds_steps stopping : ∀ a h over h',
  fa_limits a = limits → rounds limits clock stopping a h = (over, h') → R h h'.
Proof.
  induction stopping as [|stop stopping IH]; intros a h over h' Ha; cbn [rounds].
  - by intros [= _ <-].
  - destruct (_ || stop); [by intros [= _ <-]|].
    destruct (round _ _ a h) as [[a1|] h1] eqn:E; apply round_steps in E as [R1 Ha1]; try done.
    + intros E2. apply IH in E2; [by etrans|by apply Ha1].
    + by intros [= _ <-].
Qed.
End steps.

(** The end of a connection. *)
Lemma finish_served tick (h : Host) :
  served (from_wire limits) (coordinator h) (coordinator (finish_connection tick h)) ∧
  session_state (finish_connection tick h) = session_state h.
Proof.
  unfold finish_connection. destruct (ss_registered _) eqn:Er; [|done].
  destruct (call _ h) as [r g] eqn:E. pose proof (call_spec _ _ _ _ E) as (_ & Hg & _). split; [|done].
  assert (served (from_wire limits) (coordinator h) (coordinator g)); [|done].
  eapply (served_call _ (SessionLoss _ _)); [| |exact E]; [|done]. right. eauto.
Qed.

(** A host reached by serving requests of the wire. *)
Definition wire_run (h h' : Host) : Prop :=
  served (from_wire limits) (coordinator h) (coordinator h').

#[export] Instance wire_run_preorder : PreOrder wire_run.
Proof. split; [by intros h; unfold wire_run|]. intros h1 h2 h3 R1 R2. unfold wire_run in *. by etrans. Qed.

Lemma rounds_served stopping over (h h' : Host) :
  limits_ok limits = true → rounds limits clock stopping (new_assembler limits) h = (over, h') →
  wire_run h h'.
Proof.
  intros HL. apply (rounds_steps HL wire_run); [by intros; unfold wire_run..| |done].
  intros now f g go g' _ E. apply handle_frame_requests in E as [Hs _].
  eapply served_mono; [|exact Hs]. intros r Hr. left. eauto.
Qed.

(** Nothing is touched but the registry, and that only the way a registration may: every
    other field of the coordinator, the sequence and generation counters and the watermarks
    included, is what it was, and so is the file of the store. *)
Record untouched (w w' : World D) : Prop := {
  ut_impl : impl w' = with_authority (im_authority (impl w'))
    (with_store (im_store (impl w')) (impl w));
  ut_store : store_id (im_store (impl w')) = store_id (im_store (impl w));
  ut_authority : evolves (im_config (impl w)) (im_authority (impl w)) (im_authority (impl w'));
  ut_file : file w' = file w
}.

#[export] Instance untouched_preorder : PreOrder untouched.
Proof.
  split; [by intros [[] d]; split|]. intros w1 w2 w3 [A1 B1 C1 E1] [A2 B2 C2 E2]. split.
  - rewrite A2, A1. by destruct (impl w1).
  - congruence.
  - assert (im_config (impl w2) = im_config (impl w1)) as Hc by (rewrite A1; by destruct (impl w1)).
    rewrite Hc in C2. by etrans.
  - congruence.
Qed.

(** A registration that is refused leaves the rest of the coordinator and its file alone. *)
Lemma register_refused context publisher boot scopes session t (w w' : World D) code detail :
  Coordinator.register_publisher context publisher boot scopes session t w = (Failure code detail, w') →
  untouched w w'.
Proof.
  unfold Coordinator.register_publisher, get, mbind, op_bind. cbv beta iota.
  destruct (_ || _); [by intros [= _ _ <-]|].
  destruct (find_grant _ _) as [scopes0|] eqn:Eg; [|by intros [= _ _ <-]].
  cbv zeta. destruct (_ =? 0); [by intros [= _ _ <-]|]. set (r := mkRegistration _ _ _ _ _ _ _).
  assert (granted (im_config (impl w)) r) as Hgr.
  { exists scopes0. split; [done|]. intros n _. subst r. cbn. rewrite Z.land_spec.
    by intros [? _]%andb_true_iff. }
  pose proof (evolves_register _ r (im_authority (impl w)) Hgr) as Hstep. unfold im_limits.
  destruct (Authority.register_publisher _ _ _) as [registered g]. cbn [snd] in Hstep.
  set (w1 := mkWorld (with_authority g (impl w)) (disk w)).
  assert (untouched w w1) as Hw1 by (split; [by destruct (impl w)|done|exact Hstep|done]).
  unfold modify. fold w1. unfold lift, success. destruct registered as [[]|c1 d1]; [|by intros [= _ _ <-]].
  destruct (persist _ w1) as [status w2] eqn:Ep. apply persist_spec in Ep as (s & Hid & Hi & _ & Hf).
  destruct status as [[]|c2 d2]; [done|]. intros [= _ _ <-]. etrans; [exact Hw1|].
  split; [rewrite Hi; by destruct (impl w1)|by rewrite Hi|rewrite Hi; reflexivity|by apply Hf].
Qed.

(** A host whose session has not registered has touched nothing. *)
Definition inert_run (h h' : Host) : Prop :=
  (ss_registered (session_state h) = true → ss_registered (session_state h') = true) ∧
  (ss_registered (session_state h') = false → untouched (coordinator h) (coordinator h')).

#[export] Instance inert_run_preorder : PreOrder inert_run.
Proof.
  split; [by intros h|]. intros h1 h2 h3 [A1 B1] [A2 B2]. split; [auto|]. intros R3.
  assert (ss_registered (session_state h2) = false) as R2.
  { destruct (ss_registered (session_state h2)); [by rewrite A2 in R3|done]. }
  etrans; [by apply B1|by apply B2].
Qed.

Lemma handle_frame_inert now f (h h' : Host) go :
  handle_frame limits now f h = (go, h') → inert_run h h'.
Proof.
  intros E. pose proof (handle_frame_requests _ _ _ _ _ E) as [_ Hst]. split; [by destruct Hst as [E1|E1]; rewrite E1 |].
  intros Hn. destruct Hst as [Hst|?]; [|congruence]. rewrite Hst in Hn.
  revert E. unfold handle_frame. rewrite Hn. cbn [negb]. destruct (eeqb _ _); [|intros E; by apply answer_coordinator in E as (-> & _)].
  unfold handle_hello. destruct (decode_all _ _) as [hello|]; [|intros E; by apply answer_coordinator in E as (-> & _)].
  cbv zeta. destruct (call _ _) as [r g] eqn:E. apply call_spec in E as (E & _).
  destruct r as [registered|code detail].
  - set (g1 := with_state _ g). set (bytes := encode_hello_ack _ _).
    destruct (send_frame_socket MessageId.HelloAck (header f) bytes g1) as [s Es].
    destruct (send_frame _ _ _ _ _) as [sent_ g']. cbn [snd] in Es. intros [= _ <-].
    exfalso. rewrite Es in Hst. cbn in Hst. rewrite <- Hst in Hn. discriminate Hn.
  - intros E'. apply answer_coordinator in E' as (-> & _). rewrite send_frame_coordinator.
    by apply register_refused in E.
Qed.

Lemma rounds_inert stopping over (h h' : Host) :
  limits_ok limits = true → rounds limits clock stopping (new_assembler limits) h = (over, h') →
  inert_run h h'.
Proof.
  intros HL. apply (rounds_steps HL inert_run); [done..| |done].
  intros now f g go g' _ E. by apply handle_frame_inert in E.
Qed.
End connection.

(** ** Lemmas: the replies *)

Section replies.
Context {D S : Type} `{FileSystemLaws D} `{SocketLaws S} `{!ReliableSockets S}.
Context (limits : Limits) (limits_valid : limits_ok limits = true).

Notation Host := (Host D S).

(** A coordinator in a reachable state, and a session whose identity was on the wire. *)
Record host_ok (h : Host) : Prop := {
  ho_system : sys_ok (mkSystem (coordinator h) []);
  ho_epoch : generation_field (epoch h);
  ho_session : fits 64 (ss_publisher (session_state h)) ∧ fits 64 (ss_boot (session_state h)) ∧
    fits 32 (ss_scopes (session_state h))
}.

(** The frame that carries a reply. *)
Definition reply (m : MessageId.t) (request : FrameHeader) (bytes : list byte) (h : Host) : Frame :=
  mkFrame (mkHeader kProtocolVersionValue m 0 (size bytes) (epoch h) (ss_publisher (session_state h))
    (ss_boot (session_state h)) (fr_attempt request) (fr_request request)
    (ss_scopes (session_state h))) bytes.

(** What the peer gets of it: the whole frame, or nothing when it is too large. *)
Definition posted (request : FrameHeader) (h : Host) (r : MessageId.t * list byte) : list byte :=
  if size r.2 <=? max_frame_bytes limits then frame_bytes (reply r.1 request r.2 h) else [].

Lemma reply_wire m request bytes h :
  host_ok h → fits 64 (fr_attempt request) → fits 64 (fr_request request) → m ≠ MessageId.Invalid →
  size bytes <= max_frame_bytes limits → wire_frame limits (reply m request bytes h).
Proof.
  intros [_ He (Hp & Hb & Hs)] Ha Hr Hm Hsz. pose proof (size_nonneg bytes).
  pose proof (limits_ok_entry limits 15 _ limits_valid eq_refl) as Lf. cbn [snd] in Lf.
  split; [|done|done|done]. split; cbn; try done. unfold fits. lia.
Qed.

Lemma encode_reply m request bytes h :
  encode_frame (reply_frame m request bytes h) limits = encode_frame (reply m request bytes h) limits.
Proof. done. Qed.

Lemma send_frame_posts m request bytes (h : Host) s :
  host_ok h → fits 64 (fr_attempt request) → fits 64 (fr_request request) → m ≠ MessageId.Invalid →
  socket h = Some s →
  ∃ s', (send_frame limits m request bytes h).2 = with_socket (Some s') h ∧
    sent s' = sent s ++ posted request h (m, bytes).
Proof.
  intros Hh Ha Hr Hm Hs. unfold send_frame, posted. cbn [fst snd]. rewrite encode_reply.
  destruct (size bytes <=? max_frame_bytes limits) eqn:E.
  - rewrite encode_frame_wire by (try done; apply reply_wire; try done; lia).
    rewrite Hs. destruct (send_all_reliable (frame_bytes (reply m request bytes h)) s) as (s' & -> & Hsent).
    by exists s'.
  - exists s. rewrite app_nil_r. split; [|done]. unfold encode_frame. cbn [payload reply].
    destruct (_ <? _) eqn:E'; [|lia]. cbn [snd]. destruct h. cbn in Hs. by subst.
Qed.

(** The host after a reply is the host before, with another socket. *)
Lemma host_ok_socket s (h : Host) : host_ok h → host_ok (with_socket s h).
Proof. intros [? ? ?]. by split. Qed.

Definition post (request : FrameHeader) (h h' : Host) (replies : list (MessageId.t * list byte)) : Prop :=
  host_ok h' ∧ ∀ s, socket h = Some s → ∃ s', socket h' = Some s' ∧
    sent s' = sent s ++ concat (map (posted request h') replies).

Lemma post_reply go m request bytes (h h' : Host) b :
  host_ok h → fits 64 (fr_attempt request) → fits 64 (fr_request request) → m ≠ MessageId.Invalid →
  answer go (send_frame limits m request bytes) h = (b, h') → post request h h' [(m, bytes)].
Proof.
  intros Hh Ha Hr Hm [= _ <-]. destruct (send_frame_socket limits m request bytes h) as [s0 E0].
  split; [rewrite E0; by apply host_ok_socket|]. intros s Hs.
  destruct (send_frame_posts m request bytes h s Hh Ha Hr Hm Hs) as (s' & E & Hsent).
  exists s'. rewrite E. split; [done|]. cbn [map concat]. by rewrite app_nil_r.
Qed.

(** Requests keep the epoch, and the host as it should be. *)
Lemma served_epoch P (h g : Host) :
  host_ok h → served P (coordinator h) (coordinator g) → epoch g = epoch h.
Proof.
  intros [Hs _ _] Hserved. destruct (Hserved []) as (rs & _ & E).
  pose proof (serve_advances rs _ Hs) as [_ _ Hauth _ _]. rewrite E in Hauth.
  exact (ev_epoch _ _ _ Hauth).
Qed.

Lemma served_host_ok P (h g : Host) :
  host_ok h → served P (coordinator h) (coordinator g) → session_state g = session_state h → host_ok g.
Proof.
  intros Hh Hserved Hstate. pose proof (served_epoch P h g Hh Hserved) as He.
  destruct Hh as [Hs He' Hst]. destruct (Hserved []) as (rs & _ & E). pose proof (serve_ok rs _ Hs) as Hs'.
  rewrite E in Hs'. split; [done|by rewrite He|by rewrite Hstate].
Qed.

(** The message that acknowledges a message. *)
Definition acknowledgement (asked : MessageId.t) : MessageId.t :=
  match asked with
  | MessageId.Hello => MessageId.HelloAck
  | MessageId.PublishConstraintSet => MessageId.PublishConstraintSetAck
  | MessageId.ApplyLifecycle => MessageId.ApplyLifecycleAck
  | MessageId.EvaluateCandidates => MessageId.EvaluateCandidatesAck
  | MessageId.QueryDefinitions => MessageId.DefinitionsReport
  | MessageId.QueryResults => MessageId.ResultsReport
  | MessageId.QueryCurrentness => MessageId.CurrentnessReport
  | MessageId.Heartbeat => MessageId.Heartbeat
  | MessageId.Shutdown => MessageId.Shutdown
  | _ => MessageId.Invalid
  end.

(** What the coordinator of [h] says to the request of a frame: the bytes that acknowledge
    it, or its failure; [None] when the frame carries no request that can be read. *)
Definition verdict (now : Z * Z) (f : Frame) (h : Host) : option (Result (list byte)) :=
  let context := context_for h (header f) in
  let told {A} (body : A → list byte) (r : Result A) :=
    match r with Success a => Success (body a) | Failure code detail => Failure code detail end in
  match message (header f) with
  | MessageId.Hello =>
      hello ← decode_all (decode_hello limits) (payload f);
      let session := wrap 64 (next_session h + 1) in
      Some (told (λ r, encode_hello_ack
               (mkHelloAck (epoch h) session (rg_scopes r) kProtocolVersionValue true) [])
        (Coordinator.register_publisher (hello_context hello session (header f) h)
           (hello_publisher hello) (hello_worker_boot hello) (requested_scopes hello) session now.1
           (coordinator h)).1)
  | MessageId.PublishConstraintSet =>
      set ← decode_all (decode_constraint_set limits) (payload f);
      Some (told publish_ack (publish_constraint_set context set now.1 now.2 (coordinator h)).1)
  | MessageId.ApplyLifecycle =>
      request ← decode_all decode_lifecycle_request (payload f);
      Some (told publish_ack
        (apply_lifecycle context (lr_set_id request) (lr_event request) now.1 (coordinator h)).1)
  | MessageId.EvaluateCandidates =>
      request ← decode_all (decode_evaluate_request limits) (payload f);
      Some (told (λ outcome, encode_evaluate_response (mkEvaluateAck (co_batch outcome)) [])
        (evaluate context (ev_set_id request) (candidates request) (expected_generation request)
           now.1 now.2 (coordinator h)).1)
  | MessageId.QueryDefinitions =>
      id ← decode_all read_set_id (payload f);
      Some (Success (definitions_report id (impl (coordinator h))))
  | MessageId.QueryResults =>
      id ← decode_all read_set_id (payload f);
      Some (Success (results_report id (impl (coordinator h))))
  | MessageId.QueryCurrentness =>
      id ← decode_all read_set_id (payload f);
      Some (Success (currentness_report id (impl (coordinator h))))
  | MessageId.Heartbeat | MessageId.Shutdown => Some (Success [])
  | _ => None
  end.

(** The frame is listened to: a hello, or a frame under the registered identity. *)
Definition heard (f : Frame) (h : Host) : bool :=
  eeqb (message (header f)) MessageId.Hello ||
  ss_registered (session_state h) && identity_matches (session_state h) (header f).

Definition refusal_code (f : Frame) (h : Host) : ErrorCode.t :=
  if negb (heard f h) then
    if ss_registered (session_state h) then ErrorCode.Fenced else ErrorCode.Unauthorized
  else if eeqb (acknowledgement (message (header f))) MessageId.Invalid then ErrorCode.ProtocolViolation
  else ErrorCode.Malformed.

Definition error_reply (code : ErrorCode.t) (reason : ReasonCode.t) (detail : string)
    : MessageId.t * list byte :=
  (MessageId.ErrorReport, encode_error_report (mkErrorReport code reason (bounded_detail limits detail)) []).

(** The acknowledgement of a hello that is refused. *)
Definition refused_ack (h : Host) : MessageId.t * list byte :=
  (MessageId.HelloAck,
   encode_hello_ack (mkHelloAck (epoch h) (wrap 64 (next_session h + 1)) 0 kProtocolVersionValue false) []).

(** The replies to a frame, in order. *)
Inductive replies_to (now : Z * Z) (f : Frame) (h : Host) : list (MessageId.t * list byte) → Prop :=
  | replies_refusal reason detail :
      heard f h = false ∨ verdict now f h = None →
      replies_to now f h [error_reply (refusal_code f h) reason detail]
  | replies_answer body :
      heard f h = true → verdict now f h = Some (Success body) →
      replies_to now f h [(acknowledgement (message (header f)), body)]
  | replies_failure code reason detail :
      heard f h = true → verdict now f h = Some (Failure code detail) →
      replies_to now f h
        ((if eeqb (message (header f)) MessageId.Hello then [refused_ack h] else []) ++
         [error_reply code reason detail]).

Section frames.
Context (f : Frame) (f_wire : wire_frame limits f).

Lemma request_fits : fits 64 (fr_attempt (header f)) ∧ fits 64 (fr_request (header f)).
Proof. by destruct f_wire as [[_ _ _ _ _ (_ & _ & ? & ?) _] _ _ _]. Qed.

Lemma post_error go code reason detail (h h' : Host) b :
  host_ok h → answer go (send_error limits (header f) code reason detail) h = (b, h') →
  post (header f) h h' [error_reply code reason detail].
Proof. intros Hh. by apply post_reply; try apply request_fits. Qed.

Lemma post_answer go m bytes (h h' : Host) b :
  host_ok h → m ≠ MessageId.Invalid →
  answer go (send_frame limits m (header f) bytes) h = (b, h') → post (header f) h h' [(m, bytes)].
Proof. intros Hh. apply post_reply; try apply request_fits; done. Qed.

Lemma post_from (g h h' : Host) replies :
  socket g = socket h → post (header f) g h' replies → post (header f) h h' replies.
Proof. intros E [Hok Hp]. split; [done|]. by rewrite <- E. Qed.

(** The frame was answered as [replies_to] says. *)
Definition answered (now : Z * Z) (h h' : Host) : Prop :=
  ∃ replies, post (header f) h h' replies ∧ replies_to now f h replies.

(** A frame that is refused. *)
Lemma answered_refused now go code reason detail (h h' : Host) b :
  host_ok h → heard f h = false ∨ verdict now f h = None → code = refusal_code f h →
  answer go (send_error limits (header f) code reason detail) h = (b, h') → answered now h h'.
Proof.
  intros Hh Hr -> E. exists [error_reply (refusal_code f h) reason detail].
  split; [by eapply post_error|by constructor].
Qed.

(** A request without a call. *)
Lemma answered_at_once now go bytes (h h' : Host) b :
  host_ok h → heard f h = true → verdict now f h = Some (Success bytes) →
  acknowledgement (message (header f)) ≠ MessageId.Invalid →
  answer go (send_frame limits (acknowledgement (message (header f))) (header f) bytes) h = (b, h') →
  answered now h h'.
Proof.
  intros Hh Hr Hv Hm E. exists [(acknowledgement (message (header f)), bytes)].
  split; [by eapply post_answer|by constructor].
Qed.

(** A request, other than a hello, that is one call: its result is told. *)
Lemma answered_call {A} P now (m : op D A) (body : A → list byte) reason (h g h' : Host) r go b :
  host_ok h → heard f h = true → eeqb (message (header f)) MessageId.Hello = false →
  acknowledgement (message (header f)) ≠ MessageId.Invalid →
  verdict now f h = Some (match (m (coordinator h)).1 with
    | Success a => Success (body a) | Failure code detail => Failure code detail end) →
  call m h = (r, g) → served P (coordinator h) (coordinator g) →
  match r with
  | Failure code detail => answer go (send_error limits (header f) code reason detail) g
  | Success a => answer go (send_frame limits (acknowledgement (message (header f))) (header f) (body a)) g
  end = (b, h') → answered now h h'.
Proof.
  intros Hh Hd Hm Hv Ev E Hs E'. apply call_spec in E as (Ew & Hstate & Hsock & _). rewrite Ew in Ev.
  assert (host_ok g) as Hg by (by apply (served_host_ok P h)). destruct r as [a|code detail].
  - exists [(acknowledgement (message (header f)), body a)].
    split; [apply (post_from g); [done|]; by eapply post_answer|by constructor].
  - exists [error_reply code reason detail].
    split; [apply (post_from g); [done|]; by eapply post_error|].
    pose proof (replies_failure now f h code reason detail Hd Ev) as R. by rewrite Hm in R.
Qed.

Lemma handle_registered_answered now (h h' : Host) go :
  host_ok h → heard f h = true → message (header f) ≠ MessageId.Hello →
  handle_registered limits now f h = (go, h') → answered now h h'.
Proof.
  intros Hh Hd Hn. pose proof (eq_refl (verdict now f h)) as Ev. unfold verdict at 2 in Ev.
  cbv zeta in Ev. unfold handle_registered, handle_query, handle_publish, handle_lifecycle, handle_evaluate.
  assert (∀ go code reason detail g b, verdict now f h = None → code = refusal_code f h →
    answer go (send_error limits (header f) code reason detail) h = (b, g) → answered now h g)
    as Hrefused by (intros; eapply answered_refused; eauto).
  assert (heard f h = true → refusal_code f h = if eeqb (acknowledgement (message (header f)))
    MessageId.Invalid then ErrorCode.ProtocolViolation else ErrorCode.Malformed) as Hcode
    by (intros Hd'; unfold refusal_code; by rewrite Hd').
  specialize (Hcode Hd). pose proof (answered_at_once now) as Hnow.
  pose proof (λ A P m body reason g r go b, @answered_call A P now m body reason h g h' r go b Hh Hd) as Hcall.
  destruct (message (header f)) eqn:Em; try done;
    try (intros E'; exact (Hrefused _ _ _ _ _ _ Ev (eq_sym Hcode) E'));
    try (destruct (decode_all _ (payload f)) as [x|] eqn:Ed; cbn [option_bind mbind] in Ev;
         [|intros E'; exact (Hrefused _ _ _ _ _ _ Ev (eq_sym Hcode) E')]);
    try (intros E'; exact (Hnow _ _ _ _ _ Hh Hd Ev ltac:(discriminate) E')).
  - cbv zeta. destruct (call _ h) as [r g] eqn:E. intros E'.
    eapply (Hcall _ (λ _, True) _ publish_ack ReasonCode.MalformedConstraint g r true go); [done|discriminate|exact Ev|exact E| |].
    + by eapply (served_call _ (Publish _ _ _ _)); [| |exact E].
    + by destruct r.
  - cbv zeta. destruct (call _ h) as [r g] eqn:E. intros E'.
    eapply (Hcall _ (λ _, True) _ publish_ack ReasonCode.ConstraintSetNotActive g r true go); [done|discriminate|exact Ev|exact E| |].
    + by eapply (served_call _ (Lifecycle_ _ _ _ _)); [| |exact E].
    + by destruct r.
  - cbv zeta. destruct (call _ h) as [r g] eqn:E. intros E'.
    eapply (Hcall _ (λ _, True) _ (λ outcome, encode_evaluate_response (mkEvaluateAck (co_batch outcome)) [])
      ReasonCode.None g r true go); [done|discriminate|exact Ev|exact E| |].
    + pose proof (call_spec _ _ _ _ E) as (Ew & _). replace (coordinator g) with
        (evaluate (context_for h (header f)) (ev_set_id x) (candidates x) (expected_generation x)
           now.1 now.2 (coordinator h)).2 by (by rewrite Ew). by apply served_evaluate.
    + by destruct r.
  - intros [= _ <-]. exists [(MessageId.Shutdown, [])].
    assert (post (header f) h (send_frame limits MessageId.Shutdown (header f) [] h).2
      [(MessageId.Shutdown, [])]) as [[] Hp] by (by apply (post_answer false _ _ _ _ false Hh)).
    split; [by split; [split|]|]. pose proof (replies_answer now f h [] Hd Ev) as R. by rewrite Em in R.
Qed.

(** What a registration grants is within what was asked. *)
Lemma land_fits w a b : 0 <= w → fits w b → fits w (Z.land a b).
Proof.
  intros Hw Hb. rewrite <- (wrap_small w b Hb). unfold wrap. rewrite <- Z.land_ones by done.
  rewrite Z.land_assoc, Z.land_ones by done. by apply wrap_fits.
Qed.

Lemma registered_scopes c publisher boot scopes session t (w w' : World D) r :
  Coordinator.register_publisher c publisher boot scopes session t w = (Success r, w') →
  ∃ granted, rg_scopes r = Z.land granted scopes.
Proof.
  unfold Coordinator.register_publisher, mbind, op_bind, get.
  destruct (_ || _); [done|]. destruct (find_grant _ _) as [granted|]; [|done]. cbv zeta.
  destruct (_ =? 0); [done|]. set (r0 := mkRegistration _ _ _ _ _ _ _).
  destruct (Authority.register_publisher _ _ _) as [registered g]. unfold modify, lift.
  destruct registered; [|done]. destruct (persist _ _) as [[u|] w1]; [|done].
  intros [= <- _]. by exists granted.
Qed.

Lemma hello_fits bytes hello :
  decode_all (decode_hello limits) bytes = Some hello → wire_hello limits hello.
Proof.
  unfold decode_all. destruct (decode_hello limits (open_reader bytes)) as [[p|] r] eqn:E; [|done].
  destruct (at_end r); [|done]. intros [= ->].
  by destruct (accepts_hello limits [] bytes hello r E) as (bs & post & _ & _ & _ & Hw).
Qed.

Lemma handle_hello_answered now (h h' : Host) go :
  message (header f) = MessageId.Hello → host_ok h → handle_hello limits now.1 f h = (go, h') →
  answered now h h'.
Proof.
  intros Em Hh. destruct request_fits as [Ha Hr]. unfold handle_hello.
  assert (heard f h = true) as Hd by (unfold heard; by rewrite Em).
  pose proof (eq_refl (verdict now f h)) as Ev. unfold verdict at 2 in Ev. rewrite Em in Ev. cbv zeta in Ev.
  destruct (decode_all _ _) as [hello|] eqn:Ed; cbn [option_bind mbind] in Ev.
  2:{ intros E'. eapply answered_refused; [done|by right| |exact E']. unfold refusal_code. by rewrite Hd, Em. }
  apply hello_fits in Ed as [Hp Hb Hsc _]. cbv zeta.
  destruct (call _ _) as [r g] eqn:E. pose proof (call_spec _ _ _ _ E) as (Ew & Hst & Hsock & _).
  cbn [coordinator take_session next_session] in Ew.
  change (hello_context hello _ (header f) (take_session h)) with
    (hello_context hello (wrap 64 (next_session h + 1)) (header f) h) in Ew. rewrite Ew in Ev. cbn [fst] in Ev.
  assert (served (λ _, True) (coordinator h) (coordinator g)) as Hs.
  { change (coordinator h) with (coordinator (take_session h)).
    eapply (served_call _ (Register _ _ _ _ _ _)); [| |exact E]; done. }
  assert (host_ok g) as Hg by (by apply (served_host_ok (λ _, True) h); [| |rewrite Hst]).
  assert (epoch g = epoch h) as Hep by (by apply (served_epoch (λ _, True))).
  destruct r as [registered|code detail].
  - set (g1 := with_state _ g). set (bytes := encode_hello_ack _ _).
    assert (host_ok g1) as Hg1.
    { destruct Hg as [? ? _]. split; [done|done|]. cbn. apply registered_scopes in Ew as [granted ->].
      split_and!; [unfold fits; lia..|]. by apply land_fits. }
    destruct (send_frame limits MessageId.HelloAck (header f) bytes g1) as [sent_ g2] eqn:E2.
    intros [= _ <-]. exists [(MessageId.HelloAck, bytes)]. split.
    + apply (post_from g1); [done|]. apply (post_answer false MessageId.HelloAck bytes g1 g2 false Hg1); [done|].
      unfold answer. by rewrite E2.
    + change MessageId.HelloAck with (acknowledgement MessageId.Hello). rewrite <- Em. apply replies_answer; [done|].
      rewrite Ev. subst bytes. unfold g1. change (epoch (with_state _ g)) with (epoch g). by rewrite Hep.
  - set (bytes := encode_hello_ack _ _ : list byte). intros E'.
    destruct (send_frame_socket limits MessageId.HelloAck (header f) bytes g) as [s1 E1].
    rewrite E1 in E'. assert (host_ok (with_socket s1 g)) as Hg1 by (by apply host_ok_socket).
    pose proof (post_error _ _ _ _ _ _ _ Hg1 E') as [Hok Hpost].
    exists ([(MessageId.HelloAck, bytes)] ++ [error_reply code refused_registration detail]). split.
    + apply (post_from g); [done|]. split; [done|]. intros s Hsg.
      destruct (send_frame_posts MessageId.HelloAck (header f) bytes g s Hg Ha Hr) as (s2 & E2 & Hs2); [done|done|].
      rewrite E2 in E1. assert (s1 = Some s2) as -> by (by injection E1).
      destruct (Hpost s2 eq_refl) as (s' & Hs' & Hsent). exists s'. split; [done|].
      rewrite Hsent, Hs2, <- app_assoc. cbn [map concat app].
      apply answer_coordinator in E' as (Hc & Hst' & _). unfold posted, reply, epoch. by rewrite Hc, Hst'.
    + pose proof (replies_failure now f h code refused_registration detail Hd Ev) as R.
      rewrite Em in R. cbn [eeqb] in R. unfold refused_ack in R. subst bytes. by rewrite Hep.
Qed.

Lemma handle_frame_answered now (h h' : Host) go :
  host_ok h → handle_frame limits now f h = (go, h') → answered now h h'.
Proof.
  intros Hh. unfold handle_frame. destruct (eeqb _ _) eqn:Eh.
  { apply eeqb_eq in Eh. by apply handle_hello_answered. }
  destruct (ss_registered _) eqn:Er; cbn [negb].
  2:{ intros E'. eapply answered_refused; [done|left| |exact E']; unfold refusal_code, heard; by rewrite Eh, Er. }
  destruct (identity_matches _ _) eqn:Ei; cbn [negb].
  2:{ intros E'. eapply answered_refused; [done|left| |exact E']; unfold refusal_code, heard; by rewrite Eh, Er, Ei. }
  apply handle_registered_answered; [done|unfold heard; by rewrite Eh, Er, Ei|]. intros Em. by rewrite Em in Eh.
Qed.
End frames.

(** ** Lemmas: the sizes of the replies *)

Lemma substring_length n : ∀ text, (String.length (String.substring 0 n text) <= n)%nat.
Proof. induction n as [|n IH]; intros [|c text]; cbn; [lia..|]. specialize (IH text). lia. Qed.

Lemma bounded_detail_size detail :
  0 <= max_detail_bytes limits → text_size (bounded_detail limits detail) <= max_detail_bytes limits.
Proof.
  intros Hd0. unfold bounded_detail, text_size. destruct (_ <? _) eqn:E; [|lia].
  pose proof (substring_length (Z.to_nat (max_detail_bytes limits)) detail). lia.
Qed.

Lemma error_reply_size code reason detail :
  0 <= max_detail_bytes limits → size (error_reply code reason detail).2 <= 12 + max_detail_bytes limits.
Proof.
  intros Hd0. pose proof (bounded_detail_size detail Hd0). unfold error_reply, encode_error_report, put_string.
  cbn [snd er_detail er_code er_reason]. rewrite !seqw_nil by apply _. rewrite !size_app. unfold put_raw.
  rewrite size_app, text_bytes. cbn [size length Nat.add app]. unfold size. cbn. lia.
Qed.

Lemma hello_ack_size ack : size (encode_hello_ack ack []) = 24.
Proof. done. Qed.

(** Every reply is an error report or the acknowledgement of the message. *)
Lemma replies_answer_to now f h replies :
  replies_to now f h replies →
  Forall (λ r, (r.1 = MessageId.ErrorReport ∨ r.1 = acknowledgement (message (header f))) ∧
    r.1 ≠ MessageId.Invalid) replies.
Proof.
  intros [reason detail _|body _ Hv|code reason detail _ _].
  - apply Forall_singleton. split; [by left|done].
  - apply Forall_singleton. split; [by right|]. cbn. unfold verdict in Hv. by destruct (message (header f)).
  - apply Forall_app. split; [|apply Forall_singleton; split; [by left|done]].
    destruct (eeqb _ _) eqn:E; [|done]. apply eeqb_eq in E. rewrite E. apply Forall_singleton. split; [by right|done].
Qed.

(** What the peer gets of replies that fit. *)
Lemma posted_fit request h replies :
  Forall (λ r, size r.2 <= max_frame_bytes limits) replies →
  map (posted request h) replies = map (λ r, frame_bytes (reply r.1 request r.2 h)) replies.
Proof.
  intros Hf. apply map_ext_in. intros r Hin. rewrite Forall_forall in Hf. specialize (Hf r).
  rewrite list_elem_of_In in Hf. unfold posted. destruct (_ <=? _) eqn:E; [done|]. specialize (Hf Hin). lia.
Qed.

(** Only the answer of the coordinator can be too large for a frame. *)
Lemma replies_fit now f h replies :
  0 <= max_detail_bytes limits → 64 + max_detail_bytes limits <= max_frame_bytes limits →
  replies_to now f h replies →
  Forall (λ r, size r.2 <= max_frame_bytes limits) replies ∨
  ∃ body, replies = [(acknowledgement (message (header f)), body)] ∧ heard f h = true ∧
    verdict now f h = Some (Success body) ∧ max_frame_bytes limits < size body ∧
    message (header f) ∉ [MessageId.Hello; MessageId.Heartbeat; MessageId.Shutdown].
Proof.
  intros Hd0 Hf1. assert (∀ code reason detail, size (error_reply code reason detail).2 <= max_frame_bytes limits)
    as He by (intros code reason detail; pose proof (error_reply_size code reason detail Hd0); lia).
  intros [reason detail _|body Hh Hv|code reason detail _ _].
  - left. by apply Forall_singleton.
  - destruct (decide (size body <= max_frame_bytes limits)) as [Hf|Hf]; [left; by apply Forall_singleton|].
    right. exists body. split_and!; [done..|lia|]. intros Hm. apply Hf. unfold verdict in Hv.
    rewrite !elem_of_cons in Hm. destruct Hm as [Em|[Em|[Em|[]%elem_of_nil]]]; rewrite Em in Hv.
    + destruct (decode_all _ _) as [hello|]; [|done]. cbn in Hv. destruct (Coordinator.register_publisher _ _ _ _ _ _ _) as [[r|] w]; [|done].
      cbn [fst] in Hv. injection Hv as <-. unfold size. cbn. lia.
    + injection Hv as <-. unfold size. cbn. lia.
    + injection Hv as <-. unfold size. cbn. lia.
  - left. apply Forall_app. split; [|by apply Forall_singleton]. destruct (eeqb _ _); [|done].
    apply Forall_singleton. unfold refused_ack. cbn [snd]. rewrite hello_ack_size. lia.
Qed.
End replies.

(** ** Lemmas: a lost session *)

Section loss.
Context {D : Type} `{FileSystemLaws D}.

Lemma persist_authority st (w : World D) :
  im_authority (impl (persist st w).2) = im_authority (impl w).
Proof.
  destruct (persist st w) as [r w'] eqn:Ep. apply persist_spec in Ep as (s & _ & Hi & _).
  cbn [snd]. by rewrite Hi.
Qed.

(** Fencing the boot of the session, and no other, when the fenced boots have room, and
    forgetting it. *)
Lemma loss_registry session t (w : World D) b :
  boot_of_session session (im_authority (impl w)) = Some b → b ≠ 0 →
  Z.of_nat (base.size (fenced (im_authority (impl w)))) < max_fenced_boots (im_limits (impl w)) →
  ∃ g, (∀ b', is_boot_fenced b' g = true ↔ b' = b ∨ is_boot_fenced b' (im_authority (impl w)) = true) ∧
    im_authority (impl (fence_on_session_loss session t w).2) = (Authority.drop_session session g).2.
Proof.
  intros Hb Hnz Hroom. unfold fence_on_session_loss, mbind, op_bind, get, modify, fence. rewrite Hb.
  destruct (Authority.fence_boot _ _ _ _ _) as [st g] eqn:Ef. exists g. unfold Authority.fence_boot in Ef.
  destruct (is_valid b) eqn:Hv; [|by apply is_valid_false in Hv]. cbn [negb] in Ef.
  destruct (is_boot_fenced b _) eqn:Hbf.
  - injection Ef as <- <-. split; [|apply persist_authority]. intros b'. split; [auto|]. by intros [->|].
  - destruct (_ <=? _) eqn:El; [lia|]. injection Ef as <- <-. split; [|apply persist_authority].
    intros b'. rewrite !is_boot_fenced_true. cbn [fenced]. rewrite lookup_insert_is_Some'. naive_solver.
Qed.

Lemma drop_session_dead session g r :
  r ∈ registrations (Authority.drop_session session g).2 → rg_live r = true → rg_session r ≠ session.
Proof.
  assert (registrations (Authority.drop_session session g).2 =
    map (λ r, if rg_live r && (rg_session r =? session) then with_live false r else r) (registrations g)) as ->
    by (unfold Authority.drop_session; by destruct (existsb _ _)).
  intros (x & -> & _)%list_elem_of_fmap.
  destruct (rg_live x) eqn:El; cbn [andb]; [|congruence].
  destruct (rg_session x =? session) eqn:Es; [done|]. intros _. lia.
Qed.

Lemma drop_session_fenced session g b :
  is_boot_fenced b (Authority.drop_session session g).2 = is_boot_fenced b g.
Proof. unfold Authority.drop_session. by destruct (existsb _ _). Qed.

Lemma boot_of_session_spec session g :
  match boot_of_session session g with
  | Some b => ∃ r, r ∈ registrations g ∧ rg_live r = true ∧ rg_session r = session ∧ rg_boot r = b
  | None => ∀ r, r ∈ registrations g → rg_live r = true → rg_session r ≠ session
  end.
Proof.
  unfold boot_of_session. destruct (List.find _ _) as [r|] eqn:E; cbn [option_map].
  - apply List.find_some in E as [Hin [Hl Hs]%andb_true_iff]. exists r.
    split_and!; [by apply list_elem_of_In|done|lia|done].
  - intros r Hin Hl Hs. apply list_elem_of_In in Hin. pose proof (List.find_none _ _ E r Hin) as Hn.
    cbv beta in Hn. rewrite Hl in Hn. cbn [andb] in Hn. lia.
Qed.
(** What the loss of a session leaves: the boot the session is found under is fenced, no
    other boot is, and nothing speaks for the session. *)
Lemma session_lost session tick (w : World D) :
  sys_ok (mkSystem w []) →
  Z.of_nat (base.size (fenced (im_authority (impl w)))) < max_fenced_boots (im_limits (impl w)) →
  let g := im_authority (impl w) in
  let g' := im_authority (impl (fence_on_session_loss session tick w).2) in
  (∀ b, is_boot_fenced b g' = true ↔ boot_of_session session g = Some b ∨ is_boot_fenced b g = true) ∧
  (∀ context required, ac_session context = session → ok (Authority.authorize context required g') = false).
Proof.
  intros Hsys Hroom g g'.
  pose proof (handle_ok (SessionLoss session tick) _ Hsys) as [Hok _ _]. cbn [handle world] in Hok.
  pose proof (so_coordinator _ Hsys) as Hco. cbn [world] in Hco.
  assert ((∀ b, is_boot_fenced b g' = true ↔ boot_of_session session g = Some b ∨ is_boot_fenced b g = true) ∧
   (∀ r, r ∈ registrations g' → rg_live r = true → rg_session r ≠ session)) as [Hb Hd].
  { pose proof (boot_of_session_spec session g) as Hspec.
    destruct (boot_of_session session g) as [b|] eqn:Eb.
    - destruct Hspec as (r & Hin & Hl & _ & Hrb).
      destruct (ro_complete _ _ (proj1 (co_registry _ Hco)) r Hin Hl) as (_ & Hnz & _). rewrite Hrb in Hnz.
      destruct (loss_registry session tick w b Eb Hnz Hroom) as (g1 & Hg & E). unfold g'. rewrite E. split.
      + intros b'. rewrite drop_session_fenced, Hg. naive_solver.
      + intros x. apply drop_session_dead.
    - assert (g' = g) as -> by (unfold g', fence_on_session_loss, mbind, op_bind, get; unfold g in Eb; by rewrite Eb).
      split; [naive_solver|done]. }
  split; [done|]. intros context required Hc.
  destruct (ok _) eqn:Eok; [|done]. apply (authorized_iff _ _ _ _ (proj1 (co_registry _ Hok))) in Eok
    as (_ & _ & _ & r & Hin & (Hl & _ & Hs & _) & _).
  exfalso. apply (Hd r Hin Hl). congruence.
Qed.
End loss.

(** ** Lemmas: the frames of a stream *)

Section stream.
Context {D S : Type} `{FileSystem D} `{Sockets S}.
Context (limits : Limits) (limits_valid : limits_ok limits = true) (clock : Z → Z * Z).

Notation Host := (Host D S).

(** Frames handled one after the other until one of them stops the loop, and the frames
    after it. *)
Fixpoint handle_frames (fs : list Frame) (h : Host) : option (list Frame) * Host :=
  match fs with
  | [] => (None, h)
  | f :: fs =>
      let h := count_frame h in
      let '(go, h) := handle_frame limits (clock (frames_handled h)) f h in
      if go then handle_frames fs h else (Some fs, h)
  end.

(** What a failed pop does to the connection. *)
Definition report_status (status : Status) (h : Host) : Host :=
  match status with
  | Success _ => h
  | Failure code detail =>
      stop_running (send_error limits empty_header code ReasonCode.MalformedFrame detail h).2
  end.

Lemma pump_loop_spec m : ∀ n bs (h : Host),
  (length bs < m)%nat → size bs / kHeaderBytes < Z.of_nat n →
  let '(fs, status, b) := pop_loop n (mkAssembler limits bs false) in
  ∃ tail, bs = concat (map frame_bytes fs) ++ tail ∧
    pump_loop limits clock m (mkAssembler limits bs false) h =
    match handle_frames fs h with
    | (None, h') => (b, report_status status h')
    | (Some rest, h') => (mkAssembler limits (concat (map frame_bytes rest) ++ tail) false, h')
    end.
Proof.
  induction m as [|m IH]; intros n bs h Hm Hn; [lia|].
  assert (kHeaderBytes = 96) as Hk by done. pose proof (size_nonneg bs).
  destruct n as [|n]; [pose proof (Z.div_pos (size bs) kHeaderBytes); lia|]. cbn [pump_loop pop_loop].
  destruct (pop_answers limits bs) as [(f & rest & E)|[E|(code & text & E)]]; rewrite E.
  - apply pop_frame in E as [Hw ->]; [|done]. cbv zeta. rewrite size_app, frame_bytes_size in Hn, H1.
    pose proof (size_nonneg (payload f)). pose proof (size_nonneg rest).
    assert (size rest / kHeaderBytes < Z.of_nat n) as Hn'.
    { assert (size rest + 1 * kHeaderBytes <= frame_size (size (payload f)) + size rest) as Hle
        by (unfold frame_size; lia).
      apply (Z.div_le_mono _ _ kHeaderBytes) in Hle; [|lia]. rewrite Z.div_add in Hle by lia. lia. }
    assert (length rest < m)%nat as Hm'.
    { rewrite length_app in Hm. pose proof (frame_bytes_size f) as Hs. unfold size, frame_size in *. lia. }
    destruct (handle_frame _ _ f _) as [go h1] eqn:Ef. specialize (IH n rest h1 Hm' Hn').
    destruct (pop_loop n _) as [[fs status] b]. destruct IH as (tail & Et & IH).
    exists tail. cbn [map concat handle_frames]. cbv zeta. rewrite Ef. rewrite <- app_assoc, <- Et.
    split; [done|]. destruct go; [exact IH|]. by rewrite <- Et.
  - exists bs. done.
  - exists bs. done.
Qed.
End stream.

(** The answer to a frame that is turned away: one error report, and nothing else. *)
Definition refused {D S} `{FileSystem D} `{Sockets S} (limits : Limits) (f : Frame) (g : Host D S)
    (result : bool * Host D S) : Prop :=
  ∃ code reason detail, (code = ErrorCode.Unauthorized ∨ code = ErrorCode.Fenced) ∧
    result = (false, (send_error limits (header f) code reason detail g).2) ∧
    coordinator result.2 = coordinator g ∧ session_state result.2 = session_state g.

Lemma refused_by {D S} `{FileSystem D} `{Sockets S} limits f (g : Host D S) code reason detail :
  code = ErrorCode.Unauthorized ∨ code = ErrorCode.Fenced →
  refused limits f g (answer false (send_error limits (header f) code reason detail) g).
Proof.
  intros Hc. exists code, reason, detail. unfold answer, send_error. cbn [snd].
  by rewrite send_frame_coordinator, send_frame_state.
Qed.

(** ** Properties *)

Section properties.
Context {D S : Type} `{FileSystemLaws D} `{Sockets S}.

(** Frames act under the session's identity. Whatever frame arrives, the coordinator
    goes through the requests that [issued] allows: a registration of the identity the
    hello names, or a publication, a lifecycle event or an evaluation as the frame's bytes
    spell it, of a registered session, under the publisher, boot, session and scopes it
    registered with — the frame's own identity, when it is the same — and the frame's
    attempt. No frame reaches fencing, evidence, invalidation or the store. *)
Theorem frame_identity limits now f (h : Host D S) :
  served (issued limits (session_state h) f) (coordinator h)
    (coordinator (handle_frame limits now f h).2).
Proof.
  destruct (handle_frame limits now f h) as [go h'] eqn:E.
  by apply handle_frame_requests in E as [Hs _].
Qed.

(** C5: A connection is a run of the system. From any state a coordinator reaches, with
    any evaluations of other connections pending, a connection — any bytes, cut in any
    way, an end at any point — takes it to a state it reaches by serving requests of the
    wire. Every property of the runs of the coordinator holds of the server. *)
Theorem connection_refines_system limits clock stopping tick n k config t d before p
    (w : World D) (socket : TcpSocket (S := S)) :
  limits_ok limits = true → reaches config t d before (mkSystem w p) →
  ∃ requests, Forall (from_wire limits) requests ∧
    reaches config t d (before ++ requests) (mkSystem (coordinator
      (serve_connection limits clock stopping tick (accepted w socket n k))) p).
Proof.
  intros HL (i & d' & Ho & E).
  assert (served (from_wire limits) w (coordinator
    (serve_connection limits clock stopping tick (accepted w socket n k)))) as Hs.
  { unfold serve_connection. destruct (rounds _ _ _ _ _) as [over h] eqn:Er.
    apply rounds_served in Er; [|done]. change w with (coordinator (accepted w socket n k)) at 1.
    etrans; [exact Er|]. destruct over; [apply finish_served|done]. }
  destruct (Hs p) as (rs & F & Es). exists rs. split; [done|]. exists i, d'. split; [done|].
  unfold serve in *. by rewrite fold_left_app, <- E.
Qed.


(** C12: Every frame is answered, with what the coordinator says. Over a connection that
    does not fail, and with room in a frame for the longest error report, handling a frame
    sends the peer exactly the replies of [replies_to]: one error report, with its code,
    when the frame is not listened to or carries no request that can be read; the
    acknowledgement of its message, carrying what the coordinator's operation returned for
    that request in that state; or an error report with the code and the detail of the
    operation's failure, after a negative acknowledgement when the message is a hello.
    Every reply decodes and repeats the request and attempt of the frame it answers with
    the coordinator's epoch and the session's identity. The peer gets nothing only when
    what the coordinator answered is larger than a frame, which no answer to a hello, a
    heartbeat or a shutdown is. *)
Theorem every_frame_answered `{!SocketLaws S} `{!ReliableSockets S} limits now f (h h' : Host D S) go s :
  limits_ok limits = true → 0 <= max_detail_bytes limits →
  64 + max_detail_bytes limits <= max_frame_bytes limits →
  host_ok h → wire_frame limits f → socket h = Some s → handle_frame limits now f h = (go, h') →
  host_ok h' ∧ ∃ s', socket h' = Some s' ∧
    ((∃ replies, replies_to limits now f h replies ∧
       let frames := map (λ r, reply r.1 (header f) r.2 h') replies in
       sent s' = sent s ++ concat (map frame_bytes frames) ∧
       Forall (λ frame, decode_frame (frame_bytes frame) limits = Success frame) frames) ∨
     (∃ body, heard f h = true ∧ verdict limits now f h = Some (Success body) ∧
       max_frame_bytes limits < size body ∧
       message (header f) ∉ [MessageId.Hello; MessageId.Heartbeat; MessageId.Shutdown] ∧
       sent s' = sent s)).
Proof.
  intros HL Hd Hm Hh Hf Hs E.
  destruct (handle_frame_answered limits HL f Hf now h h' go Hh E) as (replies & [Hok Hp] & Hr).
  split; [done|]. destruct (Hp s Hs) as (s' & Hs' & Hsent). exists s'. split; [done|].
  destruct (replies_fit limits now f h replies Hd Hm Hr) as [Hfit|(body & -> & Hheard & Hv & Hsz & Hn)].
  - left. exists replies. split; [done|]. cbv zeta.
    rewrite Hsent, map_map. split; [by rewrite (posted_fit limits)|].
    apply Forall_map. pose proof (replies_answer_to limits now f h replies Hr) as Ha.
    rewrite Forall_forall in Hfit, Ha |- *. intros [m bytes] Hin. cbn [fst snd].
    destruct (Ha _ Hin) as [_ Hv]. specialize (Hfit _ Hin). apply decode_frame_iff; [done|].
    split; [|done]. destruct (request_fits limits f Hf). by apply reply_wire.
  - right. exists body. split_and!; [done..|]. rewrite Hsent. unfold posted. cbn [map concat fst snd].
    destruct (size body <=? max_frame_bytes limits) eqn:El; [lia|]. by rewrite !app_nil_r.
Qed.

(** C13: A lost session is revoked. When the loop of a registered session has ended and the
    fenced boots have room, the boot that was live under the session is fenced, nothing
    the coordinator authorizes speaks for the session any more, and the socket is closed;
    the published data are as they were. *)
Theorem session_loss_revokes tick (h : Host D S) :
  sys_ok (mkSystem (coordinator h) []) → ss_registered (session_state h) = true →
  Z.of_nat (base.size (fenced (im_authority (impl (coordinator h))))) <
    max_fenced_boots (im_limits (impl (coordinator h))) →
  let session := ss_session (session_state h) in
  let h' := finish_connection tick h in
  socket h' = None ∧ quiet (impl (coordinator h)) (impl (coordinator h')) ∧
  (∀ b, boot_of_session session (im_authority (impl (coordinator h))) = Some b →
     is_boot_fenced b (im_authority (impl (coordinator h'))) = true) ∧
  (∀ context required, ac_session context = session →
     ok (Authority.authorize context required (im_authority (impl (coordinator h')))) = false).
Proof.
  intros Hsys Hr Hroom. cbv zeta. set (session := ss_session (session_state h)).
  assert (coordinator (finish_connection tick h) =
    (fence_on_session_loss session tick (coordinator h)).2) as ->.
  { unfold finish_connection. rewrite Hr. unfold call. subst session. by destruct (fence_on_session_loss _ _ _). }
  pose proof (session_loss_kept session tick (coordinator h)) as [Hq _].
  destruct (session_lost session tick (coordinator h) Hsys Hroom) as [Hb Ha].
  split; [unfold finish_connection; by rewrite Hr|]. split; [done|]. split; [|exact Ha].
  intros b Eb. apply Hb. by left.
Qed.

(** The loop around [handle_frame] ends, whatever its fuel from the bytes buffered on,
    and handles exactly the frames of the buffer, in order, until one stops it. When none
    does, what is left is what the assembler leaves, and a malformed stream is reported
    and stops the connection; when one does, the frames behind it and the unfinished
    bytes stay buffered. *)
Theorem pump_handles_frames limits clock bs fuel (h : Host D S) :
  limits_ok limits = true → (length bs < fuel)%nat →
  let a := mkAssembler limits bs false in
  let '(fs, status, b) := drain a in
  pump_loop limits clock fuel a h = pump limits clock a h ∧
  ∃ tail, bs = concat (map frame_bytes fs) ++ tail ∧
    pump limits clock a h =
    match handle_frames limits clock fs h with
    | (None, h') => (b, report_status limits status h')
    | (Some rest, h') => (mkAssembler limits (concat (map frame_bytes rest) ++ tail) false, h')
    end.
Proof.
  intros HL Hf. cbv zeta. unfold pump, drain. cbn [buffer].
  set (n := Datatypes.S (Z.to_nat (size bs / kHeaderBytes))).
  assert (size bs / kHeaderBytes < Z.of_nat n) as Hn by (subst n; lia).
  pose proof (pump_loop_spec limits HL clock fuel n bs h Hf Hn) as E1.
  pose proof (pump_loop_spec limits HL clock (Datatypes.S (length bs)) n bs h ltac:(lia) Hn) as E2.
  destruct (pop_loop n _) as [[fs status] b].
  destruct E1 as (t1 & B1 & E1), E2 as (t2 & B2 & E2).
  assert (t1 = t2) as <- by (rewrite B1 in B2; by apply app_inv_head in B2).
  split; [by rewrite E1, E2|]. by exists t1.
Qed.
End properties.

(** ** Witnesses *)

(** A peer that says hello as publisher 7, publishes the sample set, asks for it and says
    goodbye; the whole stream in two pieces. *)
Definition peer_frame (m : MessageId.t) (bytes : list byte) : Frame :=
  mkFrame (mkHeader kProtocolVersionValue m 0 (size bytes) 0 7 20 9 9 127) bytes.
Definition hello_frame : Frame :=
  peer_frame MessageId.Hello (encode_hello (mkHello 7 20 127 "worker") []).
Definition publish_frame : Frame :=
  peer_frame MessageId.PublishConstraintSet 
    (encode_constraint_set (fin_set (validate_and_finalize_constraint_set sample_set default_limits [])) []).
Definition query_frame : Frame := peer_frame MessageId.QueryDefinitions (put_u64 7 []).
Definition peer_stream : list byte :=
  concat (map frame_bytes [hello_frame; publish_frame; query_frame; peer_frame MessageId.Shutdown []]).
Definition peer_socket : TcpSocket :=
  Some (mkMemorySocket [] 65536 [take 150 peer_stream; drop 150 peer_stream]).

Definition sample_world : World MemoryDisk := world (sample_system []).
Definition sample_clock (n : Z) : Z * Z := (10 + 2 * n, 11 + 2 * n).
Definition sample_connection (s : TcpSocket) : Host MemoryDisk MemorySocket :=
  serve_connection default_limits sample_clock [false; false; false; false] 90
    (accepted sample_world s 0 0).

Lemma peer_frame_wire m bytes :
  m ≠ MessageId.Invalid → size bytes <= 1000 → wire_frame default_limits (peer_frame m bytes).
Proof.
  intros Hm Hs. pose proof (size_nonneg bytes). split; [|done|done|cbn; lia].
  split; cbn; try done. unfold fits. lia.
Qed.

Lemma connection_refines_system_witness :
  map cs_id (im_sets (impl (coordinator (sample_connection peer_socket)))) = [7] ∧
  ∃ requests, Forall (from_wire default_limits) requests ∧
    reaches sample_config 5 empty_disk ([] ++ requests)
      (mkSystem (coordinator (sample_connection peer_socket)) []).
Proof.
  split; [vm_compute; reflexivity|].
  apply (connection_refines_system default_limits sample_clock [false; false; false; false] 90 0 0
    sample_config 5 empty_disk [] [] sample_world peer_socket); [vm_compute; reflexivity|].
  exact (sample_reaches []).
Defined.

Lemma sample_sys_ok : sys_ok (mkSystem sample_world []).
Proof. exact (reaches_ok _ _ _ _ _ sample_unsigned (sample_reaches [])). Qed.

Definition sample_host : Host MemoryDisk MemorySocket := accepted sample_world peer_socket 0 0.

Lemma sample_host_ok : host_ok sample_host.
Proof.
  split; [exact sample_sys_ok| |by split_and!].
  assert (epoch sample_host = 1) as -> by (vm_compute; reflexivity). done.
Qed.

(** A peer that publishes before it says hello, and then leaves. *)
Definition rude_socket : TcpSocket := Some (mkMemorySocket [] 7 [frame_bytes publish_frame]).


Lemma hello_frame_wire : wire_frame default_limits hello_frame.
Proof. apply peer_frame_wire; [discriminate|]. apply (bool_decide_unpack _). vm_compute. exact I. Qed.

Definition greeted : bool * Host MemoryDisk MemorySocket :=
  handle_frame default_limits (10, 11) hello_frame sample_host.

Lemma every_frame_answered_witness :
  greeted.1 = true ∧ host_ok greeted.2 ∧ ∃ s', socket greeted.2 = Some s' ∧ ∃ replies,
    replies_to default_limits (10, 11) hello_frame sample_host replies ∧
    sent s' = concat (map frame_bytes
      (map (λ r, reply r.1 (header hello_frame) r.2 greeted.2) replies)).
Proof.
  split; [vm_compute; reflexivity|].
  destruct (every_frame_answered default_limits (10, 11) hello_frame sample_host greeted.2 greeted.1
    (mkMemorySocket [] 65536 [take 150 peer_stream; drop 150 peer_stream]))
    as (Hok & s' & Hs & Hr).
  - vm_compute. reflexivity.
  - vm_compute. discriminate.
  - vm_compute. discriminate.
  - exact sample_host_ok.
  - exact hello_frame_wire.
  - reflexivity.
  - exact (surjective_pairing _).
  - split; [exact Hok|]. exists s'. split; [exact Hs|].
    destruct Hr as [(replies & Hr & Hsent & _)|(body & _ & _ & _ & Hn & _)].
    + exists replies. split; [exact Hr|exact Hsent].
    + destruct Hn. left.
Defined.

Lemma greeted_ok : sys_ok (mkSystem (coordinator greeted.2) []).
Proof.
  destruct (handle_frame_answered default_limits ltac:(vm_compute; reflexivity) hello_frame hello_frame_wire
    (10, 11) sample_host greeted.2 greeted.1 sample_host_ok (surjective_pairing _)) as (replies & [[Hs _ _] _] & _).
  exact Hs.
Qed.

Lemma session_loss_revokes_witness :
  boot_of_session 1 (im_authority (impl (coordinator greeted.2))) = Some 20 ∧
  is_boot_fenced 20 (im_authority (impl (coordinator (finish_connection 90 greeted.2)))) = true.
Proof.
  assert (boot_of_session 1 (im_authority (impl (coordinator greeted.2))) = Some 20) as Hb
    by (vm_compute; reflexivity).
  split; [exact Hb|].
  destruct (session_loss_revokes 90 greeted.2 greeted_ok) as (_ & _ & Hf & _).
  - vm_compute. reflexivity.
  - apply (bool_decide_unpack _). vm_compute. exact I.
  - apply Hf. assert (ss_session (session_state greeted.2) = 1) as -> by (vm_compute; reflexivity).
    exact Hb.
Defined.

(** Three frames and a half in the buffer. *)
Lemma pump_handles_frames_witness :
  let bs := take 400 peer_stream in
  let '(fs, status, b) := drain (mkAssembler default_limits bs false) in
  pump_loop default_limits sample_clock 401 (mkAssembler default_limits bs false) sample_host =
    pump default_limits sample_clock (mkAssembler default_limits bs false) sample_host.
Proof.
  cbv zeta.
  pose proof (pump_handles_frames default_limits sample_clock (take 400 peer_stream) 401 sample_host
    ltac:(vm_compute; reflexivity) ltac:(rewrite length_take; lia)) as Hp.
  cbv zeta in Hp. destruct (drain _) as [[fs status] b]. exact (proj1 Hp).
Defined.
