(* ===== verification/Threads.v ===== *)
(** The coordinator server as a process, [server.cpp]: the thread of each connection, the
    loop that accepts connections, and [stop].

    A thread is a [prog]: local computation between actions on what the threads share. An
    action is what the code does in one go — a call on the coordinator under its mutex, an
    atomic operation, a critical section of the server's own mutex. Threads are interleaved
    at their actions: [transition] runs one action of one thread, of [run] or of [stop].
    [Server] is the same code with nothing in between. *)

From Stdlib Require Import ZArith Lia Bool Strings.Byte.
From stdpp Require Import base list numbers strings gmap sets.
From S2P Require Import Prelude Containers Base Codec Digest Lifecycle Constraint Candidate.
From S2P Require Import Evaluation ConstraintSet Evaluator Authority Persistence Store.
From S2P Require Import Coordinator CoordinatorInvariant CoordinatorSystem.
From S2P Require Import Exact Protocol Snapshot Messages Net Server.
From S2P Require Loopback.

Open Scope string_scope.
Open Scope list_scope.
Open Scope Z_scope.

(** What the threads share: the coordinator, the counters, [sessions] and [stopping]. The
    socket of a handle was moved to its thread, so a handle holds none. *)
Record Shared (D S : Type) := mkShared {
  sh_coordinator : World D;
  sh_next_session : Z;
  sh_frames_handled : Z;
  sh_sessions_accepted : Z;
  sh_sessions : gmap Z (TcpSocket (S := S));
  sh_stopping : bool
}.
Arguments mkShared {D S} sh_coordinator sh_next_session sh_frames_handled sh_sessions_accepted
  sh_sessions sh_stopping.
Arguments sh_coordinator {D S} _.
Arguments sh_next_session {D S} _.
Arguments sh_frames_handled {D S} _.
Arguments sh_sessions_accepted {D S} _.
Arguments sh_sessions {D S} _.
Arguments sh_stopping {D S} _.

(** What belongs to one thread. *)
Record Local (S : Type) := mkLocal {
  lo_socket : TcpSocket (S := S);
  lo_state : SessionState;
  lo_running : bool
}.
Arguments mkLocal {S} lo_socket lo_state lo_running.
Arguments lo_socket {S} _.
Arguments lo_state {S} _.
Arguments lo_running {S} _.

(** ** Programs *)

(** An action, given the clock readings it makes. *)
Definition action (D S B : Type) : Type := Z * Z → Shared D S → B * Shared D S.

Inductive prog (D S A : Type) : Type :=
  | Ret (a : A)
  | Act (B : Type) (m : action D S B) (k : B → prog D S A).
Arguments Ret {D S A} a.
Arguments Act {D S A B} m k.

Fixpoint bind_prog {D S A B} (f : A → prog D S B) (p : prog D S A) : prog D S B :=
  match p with
  | Ret a => f a
  | Act m k => Act m (λ b, bind_prog f (k b))
  end.

#[export] Instance prog_ret {D S} : MRet (prog D S) := λ A a, Ret a.
#[export] Instance prog_bind {D S} : MBind (prog D S) := λ A B, bind_prog.

Definition act {D S B} (m : action D S B) : prog D S B := Act m Ret.

(** The program with nothing between its actions. *)
Fixpoint solo {D S A} (now : Shared D S → Z * Z) (p : prog D S A) (s : Shared D S) : A * Shared D S :=
  match p with
  | Ret a => (a, s)
  | Act m k => let '(b, s) := m (now s) s in solo now (k b) s
  end.

Section threads.
Context {D S : Type} `{FileSystem D} `{Sockets S}.

(** [config.limits]. *)
Context (limits : Limits).

Notation Shared := (Shared D S).
Notation Local := (Local S).
Notation prog := (prog D S).
Notation action := (action D S).

(** ** Actions *)

Definition with_coordinator (w : World D) (s : Shared) : Shared :=
  mkShared w (sh_next_session s) (sh_frames_handled s) (sh_sessions_accepted s) (sh_sessions s)
    (sh_stopping s).

(** A call on the coordinator, under its mutex. *)
Definition on_coordinator {B} (m : Z * Z → op D B) : action (Result B) := λ now s,
  let '(r, w) := m now (sh_coordinator s) in (r, with_coordinator w s).

(** A query. *)
Definition of_coordinator {B} (f : Impl → B) : action B := λ now s,
  (f (impl (sh_coordinator s)), s).

Definition current_epoch : action Z := of_coordinator (λ i, reg_epoch (im_authority i)).

(** [next_session.fetch_add(1)] and [next_session.load()]. *)
Definition fetch_add_session : action () := λ _ s,
  ((), mkShared (sh_coordinator s) (wrap 64 (sh_next_session s + 1)) (sh_frames_handled s)
         (sh_sessions_accepted s) (sh_sessions s) (sh_stopping s)).
Definition load_session : action Z := λ _ s, (sh_next_session s, s).

Definition fetch_add_frames : action () := λ _ s,
  ((), mkShared (sh_coordinator s) (sh_next_session s) (wrap 64 (sh_frames_handled s + 1))
         (sh_sessions_accepted s) (sh_sessions s) (sh_stopping s)).

(** [sessions.erase(...)], under the mutex of the server. *)
Definition erase_session (session : Z) : action () := λ _ s,
  ((), mkShared (sh_coordinator s) (sh_next_session s) (sh_frames_handled s) (sh_sessions_accepted s)
         (delete session (sh_sessions s)) (sh_stopping s)).

Definition with_lo_socket (socket : TcpSocket) (l : Local) : Local :=
  mkLocal socket (lo_state l) (lo_running l).
Definition with_lo_state (state : SessionState) (l : Local) : Local :=
  mkLocal (lo_socket l) state (lo_running l).
Definition stop_local (l : Local) : Local := mkLocal (lo_socket l) (lo_state l) false.

(** ** Replies *)

(** What [send_frame] does once it has read the epoch. *)
Definition transmit (m : MessageId.t) (request : FrameHeader) (payload : list byte) (epoch : Z)
    (l : Local) : Status * Local :=
  let state := lo_state l in
  match encode_frame (mkFrame (mkHeader kProtocolVersionValue m 0 0 epoch (ss_publisher state)
      (ss_boot state) (fr_attempt request) (fr_request request) (ss_scopes state)) payload) limits with
  | Failure code detail => (Failure code detail, l)
  | Success encoded => let '(r, socket) := send_all encoded (lo_socket l) in (r, with_lo_socket socket l)
  end.

Definition send_frame_prog (m : MessageId.t) (request : FrameHeader) (payload : list byte) (l : Local)
    : prog (Status * Local) :=
  epoch ← act current_epoch;
  mret (transmit m request payload epoch l).

Definition send_error_prog (request : FrameHeader) (code : ErrorCode.t) (reason : ReasonCode.t)
    (detail : string) : Local → prog (Status * Local) :=
  send_frame_prog MessageId.ErrorReport request
    (encode_error_report (mkErrorReport code reason (bounded_detail limits detail)) []).

(** [(void)send_...; return go;] *)
Definition answer_prog (go : bool) (m : Local → prog (Status * Local)) (l : Local)
    : prog (bool * Local) :=
  sent ← m l;
  mret (go, sent.2).

(** ** One frame *)

(** [context_for], which reads the epoch. *)
Definition context_prog (l : Local) (header : FrameHeader) : prog AuthorityContext :=
  epoch ← act current_epoch;
  mret (mkAuthority epoch (ss_publisher (lo_state l)) (ss_boot (lo_state l)) (fr_attempt header)
    (fr_request header) (ss_session (lo_state l)) (ss_scopes (lo_state l))).

(** What follows once the session identity has been read. *)
Definition register_prog (request : FrameHeader) (hello : HelloPayload) (session : Z) (l : Local)
    : prog (bool * Local) :=
  epoch ← act current_epoch;
  let context := mkAuthority epoch (hello_publisher hello) (hello_worker_boot hello)
    (if is_valid (fr_attempt request) then fr_attempt request else 1) (fr_request request)
    session 0 in
  registration ← act (on_coordinator (λ now, Coordinator.register_publisher context
    (hello_publisher hello) (hello_worker_boot hello) (requested_scopes hello) session now.1));
  epoch ← act current_epoch;
  match registration with
  | Failure code detail =>
      let ack := mkHelloAck epoch session 0 kProtocolVersionValue false in
      sent ← send_frame_prog MessageId.HelloAck request (encode_hello_ack ack []) l;
      answer_prog false (send_error_prog request code refused_registration detail) sent.2
  | Success registered =>
      let l := with_lo_state (mkSession session (hello_publisher hello) (hello_worker_boot hello)
        (rg_scopes registered) true) l in
      let ack := mkHelloAck epoch session (rg_scopes registered) kProtocolVersionValue true in
      sent ← send_frame_prog MessageId.HelloAck request (encode_hello_ack ack []) l;
      mret (ok sent.1, sent.2)
  end.

Definition hello_prog (frame : Frame) (l : Local) : prog (bool * Local) :=
  let request := header frame in
  match decode_all (decode_hello limits) (payload frame) with
  | None =>
      answer_prog false (send_error_prog request ErrorCode.Malformed ReasonCode.MalformedFrame
        "hello payload is malformed") l
  | Some hello =>
      _ ← act fetch_add_session;
      session ← act load_session;
      register_prog request hello session l
  end.

Definition publish_prog (context : AuthorityContext) (frame : Frame) (l : Local) : prog (bool * Local) :=
  match decode_all (decode_constraint_set limits) (payload frame) with
  | None =>
      answer_prog true (send_error_prog (header frame) ErrorCode.Malformed
        ReasonCode.MalformedConstraint "constraint set payload is malformed") l
  | Some set =>
      published ← act (on_coordinator (λ now, publish_constraint_set context set now.1 now.2));
      match published with
      | Failure code detail =>
          answer_prog true (send_error_prog (header frame) code ReasonCode.MalformedConstraint detail) l
      | Success s =>
          answer_prog true (send_frame_prog MessageId.PublishConstraintSetAck (header frame)
            (publish_ack s)) l
      end
  end.

Definition lifecycle_prog (context : AuthorityContext) (frame : Frame) (l : Local) : prog (bool * Local) :=
  match decode_all decode_lifecycle_request (payload frame) with
  | None =>
      answer_prog true (send_error_prog (header frame) ErrorCode.Malformed ReasonCode.MalformedFrame
        "lifecycle payload is malformed") l
  | Some request =>
      applied ← act (on_coordinator (λ now,
        apply_lifecycle context (lr_set_id request) (lr_event request) now.1));
      match applied with
      | Failure code detail =>
          answer_prog true (send_error_prog (header frame) code ReasonCode.ConstraintSetNotActive
            detail) l
      | Success s =>
          answer_prog true (send_frame_prog MessageId.ApplyLifecycleAck (header frame) (publish_ack s)) l
      end
  end.

(** [Coordinator::evaluate]: the two critical sections, and the evaluation between them.
    The limits never change, so the first section reads them along. *)
Definition begin_section (context : AuthorityContext) (id : Z) (paths : list CandidatePath)
    (expected : Z) : action (Result (CommitOutcome + Snapshot) * Limits * Z) := λ now s,
  let '(r, w) := evaluate_begin context id paths expected now.1 (sh_coordinator s) in
  (r, im_limits (impl w), now.2, with_coordinator w s).

Definition evaluate_prog (context : AuthorityContext) (id : Z) (paths : list CandidatePath)
    (expected : Z) : prog (Result CommitOutcome) :=
  begun ← act (begin_section context id paths expected);
  let '(r, coordinator_limits, tick) := begun in
  match r with
  | Failure code detail => mret (Failure code detail)
  | Success (inl outcome) => mret (Success outcome)
  | Success (inr snapshot) =>
      match evaluate_batch (evaluation_context coordinator_limits context expected tick snapshot)
        paths with
      | Failure code detail => mret (Failure code detail)
      | Success batch =>
          act (on_coordinator (λ _, evaluate_commit id paths tick snapshot batch))
      end
  end.

Definition evaluate_candidates_prog (context : AuthorityContext) (frame : Frame) (l : Local) : prog (bool * Local) :=
  match decode_all (decode_evaluate_request limits) (payload frame) with
  | None =>
      answer_prog true (send_error_prog (header frame) ErrorCode.Malformed
        ReasonCode.MalformedCandidate "candidate payload is malformed") l
  | Some request =>
      outcome ← evaluate_prog context (ev_set_id request) (candidates request)
        (expected_generation request);
      match outcome with
      | Failure code detail =>
          answer_prog true (send_error_prog (header frame) code ReasonCode.None detail) l
      | Success committed =>
          answer_prog true (send_frame_prog MessageId.EvaluateCandidatesAck (header frame)
            (encode_evaluate_response (mkEvaluateAck (co_batch committed)) [])) l
      end
  end.

Definition query_prog (malformed : string) (m : MessageId.t) (report : Z → Impl → list byte)
    (frame : Frame) (l : Local) : prog (bool * Local) :=
  match decode_all read_set_id (payload frame) with
  | None =>
      answer_prog true (send_error_prog (header frame) ErrorCode.Malformed ReasonCode.MalformedFrame
        malformed) l
  | Some set_id =>
      bytes ← act (of_coordinator (report set_id));
      answer_prog true (send_frame_prog m (header frame) bytes) l
  end.

(** The [switch]. *)
Definition registered_prog (context : AuthorityContext) (frame : Frame) (l : Local) : prog (bool * Local) :=
  match message (header frame) with
  | MessageId.PublishConstraintSet => publish_prog context frame l
  | MessageId.ApplyLifecycle => lifecycle_prog context frame l
  | MessageId.EvaluateCandidates => evaluate_candidates_prog context frame l
  | MessageId.QueryDefinitions =>
      query_prog "definitions query payload is malformed" MessageId.DefinitionsReport
        definitions_report frame l
  | MessageId.QueryResults =>
      query_prog "results query payload is malformed" MessageId.ResultsReport results_report frame l
  | MessageId.QueryCurrentness =>
      query_prog "currentness query payload is malformed" MessageId.CurrentnessReport
        currentness_report frame l
  | MessageId.Heartbeat => answer_prog true (send_frame_prog MessageId.Heartbeat (header frame) []) l
  | MessageId.Shutdown =>
      sent ← send_frame_prog MessageId.Shutdown (header frame) [] l;
      mret (false, stop_local sent.2)
  | _ =>
      answer_prog false (send_error_prog (header frame) ErrorCode.ProtocolViolation
        ReasonCode.UnknownMessageId
        "message identifier is not valid in the client-to-server direction") l
  end.

Definition frame_prog (frame : Frame) (l : Local) : prog (bool * Local) :=
  if eeqb (message (header frame)) MessageId.Hello then hello_prog frame l
  else if negb (ss_registered (lo_state l)) then
    answer_prog false (send_error_prog (header frame) ErrorCode.Unauthorized
      ReasonCode.MissingAuthorityContext
      "default deny: the session has not registered a publisher") l
  else if negb (identity_matches (lo_state l) (header frame)) then
    answer_prog false (send_error_prog (header frame) ErrorCode.Fenced ReasonCode.FencedWorkerBoot
      "frame identity does not match the registered session identity") l
  else context ← context_prog l (header frame); registered_prog context frame l.

(** ** One connection *)

(** The loop around [pop], with the fuel of [Server.pump_loop]. *)
Fixpoint pump_prog (fuel : nat) (a : FrameAssembler) (l : Local) : prog (FrameAssembler * Local) :=
  match fuel with
  | O => mret (a, l)
  | Datatypes.S fuel =>
      match pop a with
      | (Failure code detail, a) =>
          sent ← send_error_prog empty_header code ReasonCode.MalformedFrame detail l;
          mret (a, stop_local sent.2)
      | (Success None, a) => mret (a, l)
      | (Success (Some frame), a) =>
          _ ← act fetch_add_frames;
          handled ← frame_prog frame l;
          if handled.1 : bool then pump_prog fuel a handled.2 else mret (a, handled.2)
      end
  end.

(** One round of the loop of [serve]; [None] leaves it. *)
Definition round_prog (a : FrameAssembler) (l : Local) : prog (option FrameAssembler * Local) :=
  let '(read, socket) := recv_some receive_bytes (lo_socket l) in
  let l := with_lo_socket socket l in
  match read with
  | Failure _ _ | Success [] => mret (None, l)
  | Success chunk =>
      match push chunk a with
      | (Failure code detail, _) =>
          sent ← send_error_prog empty_header code ReasonCode.OversizedVector detail l;
          mret (None, sent.2)
      | (Success _, a) =>
          pumped ← pump_prog (Datatypes.S (length (buffer a))) a l;
          mret (Some pumped.1, pumped.2)
      end
  end.

(** What follows the loop. *)
Definition finish_prog (l : Local) : prog Local :=
  if ss_registered (lo_state l) then
    _ ← act (on_coordinator (λ now, fence_on_session_loss (ss_session (lo_state l)) now.1));
    _ ← act (erase_session (ss_session (lo_state l)));
    mret (with_lo_socket (close_socket (lo_socket l)) l)
  else mret (with_lo_socket (close_socket (lo_socket l)) l).

(** ** Threads *)

(** A thread before the test of its loop, in a round, after the loop, and ended. *)
Inductive Thread : Type :=
  | Looping (a : FrameAssembler) (l : Local)
  | Busy (p : prog (option FrameAssembler * Local))
  | Finishing (p : prog Local)
  | Ended (l : Local).

(** One step of a thread: an action, or [while (running && !stopping)]. *)
Definition thread_step (now : Z * Z) (t : Thread) (s : Shared) : Thread * Shared :=
  match t with
  | Looping a l =>
      if negb (lo_running l) || sh_stopping s then (Finishing (finish_prog l), s)
      else (Busy (round_prog a l), s)
  | Busy (Ret (Some a, l)) => (Looping a l, s)
  | Busy (Ret (None, l)) => (Finishing (finish_prog l), s)
  | Busy (Act m k) => let '(b, s) := m now s in (Busy (k b), s)
  | Finishing (Ret l) => (Ended l, s)
  | Finishing (Act m k) => let '(b, s) := m now s in (Finishing (k b), s)
  | Ended l => (Ended l, s)
  end.

Definition ended (t : Thread) : bool := match t with Ended _ => true | _ => false end.

(** The thread of an accepted socket. *)
Definition spawn (socket : TcpSocket) : Thread :=
  Looping (new_assembler limits) (mkLocal socket new_session true).

(** ** The process *)

(** Where [run] stands. *)
Inductive Main : Type :=
  | Testing
  | Accepting
  | Refused (code : ErrorCode.t) (detail : string)
  | Admitting (socket : TcpSocket (S := S))
  | Returned (status : Status).

(** Where [stop] stands. *)
Inductive Stop : Type := Idle | Closing | Aborting | Joining | Stopped.

Record Process := mkProcess {
  shared : Shared;
  threads : list Thread;
  listening : bool;
  main : Main;
  stop : Stop
}.

Definition with_threads (ts : list Thread) (p : Process) : Process :=
  mkProcess (shared p) ts (listening p) (main p) (stop p).
Definition with_main (m : Main) (p : Process) : Process :=
  mkProcess (shared p) (threads p) (listening p) m (stop p).

(** [active_session_count] *)
Definition active_session_count (s : Shared) : Z := Z.of_nat (base.size (sh_sessions s)).

(** The step of the main thread; [answer] is what [accept] answers. *)
Definition main_step (answer : Result S) (p : Process) : Process :=
  match main p with
  | Testing => with_main (if sh_stopping (shared p) then Returned success else Accepting) p
  | Accepting =>
      if listening p then
        match answer with
        | Failure code detail => with_main (Refused code detail) p
        | Success socket => with_main (Admitting (Some socket)) p
        end
      else with_main (Refused ErrorCode.TransportFailure "listener is not open") p
  | Refused code detail =>
      with_main (Returned (if sh_stopping (shared p) then success else Failure code detail)) p
  | Admitting socket =>
      if admits limits (active_session_count (shared p)) then
        let s := shared p in
        mkProcess (mkShared (sh_coordinator s) (sh_next_session s) (sh_frames_handled s)
            (wrap 64 (sh_sessions_accepted s + 1)) (sh_sessions s) (sh_stopping s))
          (threads p ++ [spawn socket]) (listening p) Testing (stop p)
      else with_main Testing p
  | Returned _ => p
  end.

(** [entry.second->abort()] of every handle, under the mutex of the server. *)
Definition abort_sessions (s : Shared) : Shared :=
  mkShared (sh_coordinator s) (sh_next_session s) (sh_frames_handled s) (sh_sessions_accepted s)
    (abort <$> sh_sessions s) (sh_stopping s).

(** The step of the thread that calls [stop], once or again. It joins when every thread has
    ended. *)
Definition stop_step (p : Process) : Process :=
  let s := shared p in
  match stop p with
  | Idle | Stopped =>
      mkProcess (mkShared (sh_coordinator s) (sh_next_session s) (sh_frames_handled s)
          (sh_sessions_accepted s) (sh_sessions s) true)
        (threads p) (listening p) (main p) Closing
  | Closing => mkProcess s (threads p) false (main p) Aborting
  | Aborting => mkProcess (abort_sessions s) (threads p) (listening p) (main p) Joining
  | Joining => if forallb ended (threads p) then mkProcess s [] (listening p) (main p) Stopped else p
  end.

Inductive Event : Type :=
  | RunMain (answer : Result S)
  | RunThread (i : nat) (now : Z * Z)
  | RunStop.

Definition transition (e : Event) (p : Process) : Process :=
  match e with
  | RunMain answer => main_step answer p
  | RunStop => stop_step p
  | RunThread i now =>
      match threads p !! i with
      | None => p
      | Some t =>
          let '(t, s) := thread_step now t (shared p) in
          mkProcess s (<[i:=t]> (threads p)) (listening p) (main p) (stop p)
      end
  end.

Definition run (events : list Event) (p : Process) : Process :=
  fold_left (λ p e, transition e p) events p.

(** The process [start] answers, around a coordinator. *)
Definition start_process (w : World D) : Process :=
  mkProcess (mkShared w 0 0 0 ∅ false) [] true Testing Idle.

(** [start], and the listener it binds. Where binding fails the new listener owns nothing
    that its destructor would have to close. *)
Definition start {O : Type} `{!Loopback.SocketCalls O} (port : Z) (w : World D) (n : Loopback.Net O)
    : Result (Loopback.TcpListener * Process) * Loopback.Net O :=
  match validate_limits limits with
  | Some why => (Failure ErrorCode.InvalidArgument why, n)
  | None =>
      match Loopback.initialize n with
      | (Failure code detail, n) => (Failure code detail, n)
      | (Success _, n) =>
          let '(bound, l, n) := Loopback.bind_loopback port (Loopback.mkListener None 0) n in
          (rbind bound (λ _, Success (l, start_process w)), n)
      end
  end.
End threads.
