(* ===== verification/ThreadsCorrect.v ===== *)
(** Properties of the server process of [Threads.v]: whatever the interleaving, the
    coordinator goes through requests of its peers; the threads alone are the connections of
    [Server]; [stop] completes; and what the session counter and the session map allow. *)

From Stdlib Require Import ZArith Lia Bool Strings.Byte Cantor.
From stdpp Require Import base list numbers strings gmap sets relations.
From S2P Require Import Prelude Containers Base Codec Digest Lifecycle Constraint Candidate.
From S2P Require Import Evaluation ConstraintSet Evaluator Authority Persistence Store.
From S2P Require Import Coordinator CoordinatorInvariant CoordinatorSystem CoordinatorCorrect.
From S2P Require Import Exact Protocol ProtocolCorrect Snapshot Messages Net Server ServerCorrect.
From S2P Require Import Threads.
From S2P Require Loopback.

Open Scope string_scope.
Open Scope list_scope.
Open Scope Z_scope.

(** ** Programs that follow requests *)

Section follows.
Context {D S : Type} `{FileSystem D}.

(** What one action does to the coordinator and to the evaluation its thread holds. *)
Inductive move (P : Request → Prop) : World D → option Pending → World D → option Pending → Prop :=
  | move_none w held : move P w held w held
  | move_request r w w' held :
      P r → (∀ p, handle r (mkSystem w p) = mkSystem w' p) → move P w held w' held
  | move_begin r w w' held q :
      P r → (∀ p, handle r (mkSystem w p) = mkSystem w' (p ++ [q])) → move P w held w' (Some q)
  | move_commit q w :
      (∀ n, P (Commit n)) → move P w (Some q) (commit_evaluation q w).2 None.

(** Every action of the program is a request that satisfies [P], or none, in whatever
    state the other threads left what they share. *)
Fixpoint follows (P : Request → Prop) {A} (held : option Pending) (p : prog D S A) : Prop :=
  match p with
  | Ret _ => True
  | Act m k => ∀ now s b s', m now s = (b, s') →
      ∃ held', move P (sh_coordinator s) held (sh_coordinator s') held' ∧ follows P held' (k b)
  end.

Lemma follows_weaken P {A} (p : prog D S A) : follows P None p → ∀ held, follows P held p.
Proof.
  induction p as [a|B m k IH]; [done|]. intros Hf held now s b s' E.
  destruct (Hf now s b s' E) as (held' & Hm & Hk). inversion Hm; subst.
  - exists held. split; [constructor|]. by apply IH.
  - exists held. split; [by eapply move_request|]. by apply IH.
  - exists (Some q). split; [by eapply move_begin|done].
Qed.

Lemma follows_bind P {A B} (f : A → prog D S B) (p : prog D S A) : ∀ held,
  follows P held p → (∀ a, follows P None (f a)) → follows P held (p ≫= f).
Proof.
  unfold mbind, prog_bind. induction p as [a|C m k IH]; intros held Hp Hf; cbn [bind_prog].
  - by apply follows_weaken.
  - intros now s b s' E. destruct (Hp now s b s' E) as (held' & Hm & Hk).
    exists held'. split; [done|]. by apply IH.
Qed.

Lemma follows_mono (P Q : Request → Prop) {A} (p : prog D S A) : ∀ held,
  (∀ r, P r → Q r) → follows P held p → follows Q held p.
Proof.
  induction p as [a|B m k IH]; [done|]. intros held HPQ Hf now s b s' E.
  destruct (Hf now s b s' E) as (held' & Hm & Hk). exists held'. split; [|by apply IH].
  inversion Hm; subst; [constructor|by eapply move_request; eauto|by eapply move_begin; eauto|].
  apply move_commit. auto.
Qed.

(** An action that leaves the coordinator alone. *)
Lemma follows_still P {A B} (m : action D S B) (k : B → prog D S A) :
  (∀ now s, sh_coordinator (m now s).2 = sh_coordinator s) → (∀ b, follows P None (k b)) →
  follows P None (Act m k).
Proof.
  intros Hm Hk now s b s' E. exists None. split; [|done].
  specialize (Hm now s). rewrite E in Hm. cbn [snd] in Hm. rewrite Hm. constructor.
Qed.

(** A call that is one request. *)
Lemma follows_call P {A B} (m : Z * Z → op D B) (k : Result B → prog D S A) (r : Z * Z → Request) :
  (∀ now, P (r now)) →
  (∀ now w p, handle (r now) (mkSystem w p) = mkSystem (m now w).2 p) →
  (∀ b, follows P None (k b)) → follows P None (Act (on_coordinator m) k).
Proof.
  intros HP Hr Hk now s b s' E. unfold on_coordinator in E.
  destruct (m now (sh_coordinator s)) as [a w] eqn:Em. injection E as <- <-.
  exists None. split; [|done]. eapply (move_request P (r now)); [done|]. intros p.
  by rewrite Hr, Em.
Qed.
End follows.
#[export] Hint Extern 1 (∀ now s, sh_coordinator (?m now s).2 = sh_coordinator s) =>
  (intros; reflexivity) : crf.

Section frames.
Context {D S : Type} `{FileSystem D} `{Sockets S}.
Context (limits : Limits).

Notation Local := (Local S).

Lemma send_follows P {A} m request bytes (l : Local) (k : Status * Local → prog D S A) :
  (∀ a, follows P None (k a)) →
  follows P None (send_frame_prog limits m request bytes l ≫= k).
Proof. intros Hk. apply follows_still; [done|]. intros epoch. apply Hk. Qed.

Lemma answer_follows P go m request bytes (l : Local) :
  follows P None (answer_prog (D := D) go (send_frame_prog limits m request bytes) l).
Proof. by apply send_follows. Qed.

Lemma context_follows P {A} (l : Local) header (k : AuthorityContext → prog D S A) :
  (∀ epoch, follows P None (k (mkAuthority epoch (ss_publisher (lo_state l)) (ss_boot (lo_state l))
    (fr_attempt header) (fr_request header) (ss_session (lo_state l)) (ss_scopes (lo_state l))))) →
  follows P None (context_prog l header ≫= k).
Proof. intros Hk. apply follows_still; [done|]. intros epoch. apply Hk. Qed.

(** The two sections of an evaluation: the request that begins it, and the commit of what
    the thread then holds. *)
Lemma evaluate_follows (P : Request → Prop) context id paths expected {A}
    (k : Result CommitOutcome → prog D S A) :
  (∀ t1 t2, P (Begin context id paths expected t1 t2)) → (∀ n, P (Commit n)) →
  (∀ a, follows P None (k a)) → follows P None (evaluate_prog context id paths expected ≫= k).
Proof.
  intros Hb Hc Hk now s b s' E. unfold begin_section in E.
  destruct (evaluate_begin context id paths expected now.1 (sh_coordinator s)) as [r w] eqn:Er.
  injection E as <- <-. cbn [sh_coordinator with_coordinator].
  assert (∀ w', (∀ p, begin_evaluation context id paths expected now.1 now.2
      (mkSystem (sh_coordinator s) p) = mkSystem w' p) →
    move P (sh_coordinator s) None w' None) as Hone.
  { intros w' E. by eapply (move_request P (Begin context id paths expected now.1 now.2)). }
  unfold begin_evaluation in Hone. cbn [world pending] in Hone.
  destruct r as [[outcome|snapshot]|code text].
  - exists None. split; [|exact (Hk _)]. apply Hone. intros p. by rewrite Er.
  - destruct (evaluate_batch (evaluation_context (im_limits (impl w)) context expected now.2 snapshot)
      paths) as [batch|code text] eqn:Eb.
    + exists (Some (mkPending id paths now.2 snapshot batch)). split.
      * eapply (move_begin P (Begin context id paths expected now.1 now.2)); [done|]. intros p.
        cbn [handle]. unfold begin_evaluation. cbn [world pending]. by rewrite Er, Eb.
      * unfold prog_bind. cbn [bind_prog]. rewrite Eb. intros now' t b t' E. unfold on_coordinator in E.
        destruct (evaluate_commit id paths now.2 snapshot batch (sh_coordinator t)) as [r w'] eqn:Ec.
        injection E as <- <-. exists None. split; [|apply Hk].
        pose proof (move_commit P (mkPending id paths now.2 snapshot batch) (sh_coordinator t) Hc) as Hm.
        unfold commit_evaluation in Hm. cbn [pd_set pd_candidates pd_tick pd_snapshot pd_batch] in Hm.
        by rewrite Ec in Hm.
    + exists None. split; [apply Hone; intros p; by rewrite Er, Eb|]. unfold prog_bind. cbn [bind_prog]. rewrite Eb.
      exact (Hk _).
  - exists None. split; [|exact (Hk _)]. apply Hone. intros p. by rewrite Er.
Qed.

Lemma speaks_local (l : Local) header epoch :
  ss_registered (lo_state l) = true → identity_matches (lo_state l) header = true →
  speaks_as (lo_state l) header (mkAuthority epoch (ss_publisher (lo_state l)) (ss_boot (lo_state l))
    (fr_attempt header) (fr_request header) (ss_session (lo_state l)) (ss_scopes (lo_state l))).
Proof.
  unfold identity_matches. intros Hr [Hp Hb]%andb_true_iff.
  apply Z.eqb_eq in Hp, Hb. by split.
Qed.

Lemma hello_follows f (l : Local) :
  message (header f) = MessageId.Hello →
  follows (D := D) (issued limits (lo_state l) f) None (hello_prog limits f l).
Proof.
  intros Em. unfold hello_prog, register_prog.
  destruct (decode_all _ _) as [[publisher boot scopes name]|] eqn:Ed; [|apply answer_follows].
  apply follows_still; [done|]. intros []. apply follows_still; [done|]. intros session.
  apply follows_still; [done|]. intros epoch.
  eapply (follows_call _ _ _ (λ now, Register _ publisher boot scopes session now.1)); [|done|].
  - intros now. split; [exact Em|]. split; [reflexivity|]. split; [reflexivity|].
    split; [reflexivity|]. exists name. exact Ed.
  - intros registration. apply follows_still; [done|]. intros epoch'.
    destruct registration as [registered|code detail].
    + by apply send_follows.
    + apply send_follows. intros sent_. apply answer_follows.
Qed.

Lemma registered_follows f (l : Local) epoch :
  ss_registered (lo_state l) = true → identity_matches (lo_state l) (header f) = true →
  follows (D := D) (issued limits (lo_state l) f) None
    (registered_prog limits (mkAuthority epoch (ss_publisher (lo_state l)) (ss_boot (lo_state l))
      (fr_attempt (header f)) (fr_request (header f)) (ss_session (lo_state l)) (ss_scopes (lo_state l))) f l).
Proof.
  intros Hr Hid. pose proof (speaks_local l (header f) epoch Hr Hid) as Hs.
  unfold registered_prog, query_prog. destruct (message (header f)) eqn:Em; try apply answer_follows;
    try (destruct (decode_all read_set_id _); [|apply answer_follows];
         apply follows_still; [done|]; intros bytes; apply answer_follows).
  - unfold publish_prog. destruct (decode_all _ _) as [s|] eqn:Ed; [|apply answer_follows].
    eapply (follows_call _ _ _ (λ now, Publish _ _ now.1 now.2)); [|done|].
    { intros now. split; [exact Em|]. split; [exact Hs|exact Ed]. }
    intros [a|code detail]; apply answer_follows.
  - unfold lifecycle_prog. destruct (decode_all _ _) as [[id event]|] eqn:Ed; [|apply answer_follows].
    eapply (follows_call _ _ _ (λ now, Lifecycle_ _ _ _ now.1)); [|done|].
    { intros now. split; [exact Em|]. split; [exact Hs|exact Ed]. }
    intros [a|code detail]; apply answer_follows.
  - unfold evaluate_candidates_prog.
    destruct (decode_all _ _) as [[id expected paths]|] eqn:Ed; [|apply answer_follows].
    apply evaluate_follows; [done..|].
    intros [a|code detail]; apply answer_follows.
  - by apply send_follows.
Qed.

Lemma frame_follows f (l : Local) :
  follows (D := D) (issued limits (lo_state l) f) None (frame_prog limits f l).
Proof.
  unfold frame_prog. destruct (eeqb _ _) eqn:Eh; [apply eeqb_eq in Eh; by apply hello_follows|].
  destruct (ss_registered _) eqn:Er; cbn [negb]; [|apply answer_follows].
  destruct (identity_matches _ _) eqn:Ei; cbn [negb]; [|apply answer_follows].
  apply context_follows. intros epoch. by apply registered_follows.
Qed.

Lemma frame_wire_follows f (l : Local) :
  follows (D := D) (from_wire limits) None (frame_prog limits f l).
Proof. eapply follows_mono; [|apply frame_follows]. intros r Hr. left. eauto. Qed.

Lemma pump_follows fuel : ∀ a (l : Local),
  follows (D := D) (from_wire limits) None (pump_prog limits fuel a l).
Proof.
  induction fuel as [|fuel IH]; intros a l; cbn [pump_prog]; [done|].
  destruct (pop a) as [[[f|]|code text] a1]; [|done|by apply send_follows].
  apply follows_still; [done|]. intros []. apply follows_bind; [apply frame_wire_follows|].
  intros [[] l1]; [apply IH|done].
Qed.

Lemma round_follows a (l : Local) : follows (D := D) (from_wire limits) None (round_prog limits a l).
Proof.
  unfold round_prog. destruct (recv_some _ _) as [[[|byte chunk]|code text] socket]; try done.
  destruct (push _ a) as [[u|code text] a1]; [|by apply send_follows].
  apply follows_bind; [apply pump_follows|done].
Qed.

Lemma finish_follows (l : Local) : follows (D := D) (from_wire limits) None (finish_prog l).
Proof.
  unfold finish_prog. destruct (ss_registered _); [|done].
  apply (follows_call _ _ _ (λ now, SessionLoss (ss_session (lo_state l)) now.1)).
  - intros now. right. eauto.
  - done.
  - intros _. apply follows_still; [done|]. done.
Qed.
End frames.

(** ** Interleavings *)

(** The evaluations the threads hold are pending in the system, among others. *)
Section interleaving.
Context {D S : Type} `{FileSystem D} `{Sockets S}.
Context (limits : Limits).

(** A move is a run of the system, whatever else is pending in it. *)
Lemma move_serve P (w w' : World D) held held' pend others :
  move P w held w' held' → pend ≡ₚ option_list held ++ others →
  ∃ requests pend' extra, Forall P requests ∧
    serve requests (mkSystem w pend) = mkSystem w' pend' ∧
    pend' ≡ₚ option_list held' ++ others ++ extra.
Proof.
  intros Hm Hp. inversion Hm as [|r ? ? ? HP Hr|r ? ? ? q HP Hr|q ? HP]; subst.
  - exists [], pend, []. split_and!; [constructor|done|by rewrite app_nil_r].
  - exists [r], pend, []. split_and!; [by constructor|apply Hr|by rewrite app_nil_r].
  - exists [r], (pend ++ [q]), (option_list held). split_and!; [by constructor|apply Hr|].
    rewrite Hp. cbn [option_list]. solve_Permutation.
  - cbn [option_list app] in Hp. assert (q ∈ pend) as [n Hn]%list_elem_of_lookup.
    { rewrite Hp. apply list_elem_of_here. }
    exists [Commit n], (delete n pend), []. split_and!; [by constructor| |].
    + cbn [serve fold_left handle world pending]. by rewrite Hn.
    + rewrite app_nil_r. cbn [option_list app]. apply (Permutation_cons_inv (a := q)).
      rewrite <- Hp. symmetry. by apply delete_Permutation.
Qed.

Definition thread_follows (held : option Pending) (t : Thread (D := D) (S := S)) : Prop :=
  match t with
  | Looping _ _ | Ended _ => True
  | Busy p => follows (from_wire limits) held p
  | Finishing p => follows (from_wire limits) held p
  end.

Lemma thread_step_follows now t s t' s' held :
  thread_follows held t → thread_step limits now t s = (t', s') →
  ∃ held', move (from_wire limits) (sh_coordinator s) held (sh_coordinator s') held' ∧
    thread_follows held' t'.
Proof.
  intros Ht. destruct t as [a l|[[[a|] l]|B m k]|[l|B m k]|l]; cbn [thread_step].
  - destruct (_ || _); intros [= <- <-]; exists held; (split; [constructor|]); apply follows_weaken.
    + apply finish_follows.
    + apply round_follows.
  - intros [= <- <-]. exists held. by split; [constructor|].
  - intros [= <- <-]. exists held. split; [constructor|]. apply follows_weaken, finish_follows.
  - destruct (m now s) as [b s1] eqn:E. intros [= <- <-]. exact (Ht now s b s1 E).
  - intros [= <- <-]. exists held. by split; [constructor|].
  - destruct (m now s) as [b s1] eqn:E. intros [= <- <-]. exact (Ht now s b s1 E).
  - intros [= <- <-]. exists held. by split; [constructor|].
Qed.

(** The process at [p], after the requests of the wire that lead to it from [s0]. *)
Definition follows_system (s0 : System D) (p : Process (D := D) (S := S)) : Prop :=
  ∃ requests pend helds others, Forall (from_wire limits) requests ∧
    serve requests s0 = mkSystem (sh_coordinator (shared p)) pend ∧
    Forall2 thread_follows helds (threads p) ∧ pend ≡ₚ somes helds ++ others.

Lemma follows_still_process s0 p p' :
  sh_coordinator (shared p') = sh_coordinator (shared p) →
  threads p' = threads p → follows_system s0 p → follows_system s0 p'.
Proof. intros Hw Ht (rs & pend & helds & others & H1 & H2 & H3 & H4). exists rs, pend, helds, others. by rewrite Hw, Ht. Qed.

Lemma transition_follows s0 e p : follows_system s0 p → follows_system s0 (transition limits e p).
Proof.
  intros Hp. destruct e as [answer|i now|]; cbn [transition].
  - destruct p as [s ts up m st]. unfold main_step. cbn [main shared threads listening stop].
    destruct m as [| |code text|socket|status]; try (by apply (follows_still_process s0 _ _ eq_refl eq_refl Hp)).
    + destruct up, answer; by apply (follows_still_process s0 _ _ eq_refl eq_refl Hp).
    + destruct (admits _ _); [|by apply (follows_still_process s0 _ _ eq_refl eq_refl Hp)].
      destruct Hp as (rs & pend & helds & others & H1 & H2 & H3 & H4).
      exists rs, pend, (helds ++ [None]), others. split_and!; [done|done| |].
      * cbn [threads]. apply Forall2_app; [done|]. by repeat constructor.
      * by rewrite somes_app, app_nil_r.
  - destruct (threads p !! i) as [t|] eqn:Ei; [|done].
    destruct (thread_step _ now t (shared p)) as [t' s'] eqn:E.
    destruct Hp as (rs & pend & helds & others & H1 & H2 & H3 & H4).
    destruct (Forall2_lookup_r _ _ _ _ _ H3 Ei) as (held & Hi & Ht).
    destruct (thread_step_follows _ _ _ _ _ _ Ht E) as (held' & Hm & Ht').
    rewrite (somes_lookup _ _ _ Hi), <- app_assoc in H4.
    destruct (move_serve _ _ _ _ _ _ _ Hm H4) as (rs' & pend' & extra & F & Es & Hp').
    exists (rs ++ rs'), pend', (<[i:=held']> helds), (others ++ extra). split_and!.
    + by apply Forall_app.
    + unfold serve in *. by rewrite fold_left_app, H2.
    + by apply Forall2_insert.
    + rewrite somes_insert by (by eapply lookup_lt_Some). rewrite Hp'. solve_Permutation.
  - unfold stop_step. destruct (stop p); try (by apply (follows_still_process s0 p _ eq_refl eq_refl Hp)).
    destruct (forallb _ _); [|done].
    destruct Hp as (rs & pend & helds & others & H1 & H2 & H3 & H4).
    exists rs, pend, [], (somes helds ++ others). by split_and!.
Qed.

Lemma run_follows s0 events : ∀ p, follows_system s0 p → follows_system s0 (run limits events p).
Proof.
  induction events as [|e es IH]; intros p Hp; [done|]. apply IH. by apply transition_follows.
Qed.
End interleaving.

(** ** A thread alone *)

Section alone.
Context {D S : Type} `{FileSystem D} `{Sockets S}.
Context (limits : Limits) (clock : Z → Z * Z).

Notation Shared := (Shared D S).
Notation Local := (Local S).

(** The host a thread makes with what it shares. *)
Definition host_of (s : Shared) (l : Local) : Host D S :=
  mkHost (sh_coordinator s) (lo_socket l) (sh_next_session s) (sh_frames_handled s) (lo_state l)
    (lo_running l).

(** The clock of [Server], by the frames handled. *)
Definition frame_clock (s : Shared) : Z * Z := clock (sh_frames_handled s).

Notation alone := (solo frame_clock).

Lemma solo_bind {A B} (f : A → prog D S B) (p : prog D S A) : ∀ s,
  alone (p ≫= f) s = let '(a, s) := alone p s in alone (f a) s.
Proof.
  unfold mbind, prog_bind. induction p as [a|C m k IH]; intros s; cbn [bind_prog solo]; [done|].
  destruct (m _ s) as [b s']. apply IH.
Qed.

Lemma solo_act {A B} (m : action D S B) (k : B → prog D S A) s :
  alone (act m ≫= k) s = let '(b, s) := m (frame_clock s) s in alone (k b) s.
Proof. done. Qed.

Lemma solo_epoch {A} (k : Z → prog D S A) s :
  alone (act current_epoch ≫= k) s = alone (k (reg_epoch (im_authority (impl (sh_coordinator s))))) s.
Proof. done. Qed.

Lemma solo_call {A B} (m : Z * Z → op D B) (k : Result B → prog D S A) s :
  alone (act (on_coordinator m) ≫= k) s =
    let '(r, w) := m (frame_clock s) (sh_coordinator s) in alone (k r) (with_coordinator w s).
Proof.
  unfold act, mbind, prog_bind, on_coordinator. cbn [bind_prog solo].
  by destruct (m (frame_clock s) (sh_coordinator s)).
Qed.

Lemma solo_context {A} (l : Local) header (k : AuthorityContext → prog D S A) s :
  alone (context_prog l header ≫= k) s = alone (k (context_for (host_of s l) header)) s.
Proof. done. Qed.

Lemma call_host {A} (m : op D A) s (l : Local) :
  call m (host_of s l) =
    let '(r, w) := m (sh_coordinator s) in (r, host_of (with_coordinator w s) l).
Proof. done. Qed.

(** The program and the step of [Server] answer the same and leave the same host. *)
Definition simulates {A} (p : prog D S (A * Local)) (m : Server.step A) (s : Shared) (l : Local) : Prop :=
  let '((a, l'), s') := alone p s in
  m (host_of s l) = (a, host_of s' l') ∧ sh_stopping s' = sh_stopping s.

Lemma solo_send m request bytes (l : Local) s : ∃ status l',
  alone (send_frame_prog limits m request bytes l) s = ((status, l'), s) ∧
  send_frame limits m request bytes (host_of s l) = (status, host_of s l').
Proof.
  exists (transmit limits m request bytes (epoch (host_of s l)) l).1,
    (transmit limits m request bytes (epoch (host_of s l)) l).2.
  unfold send_frame_prog, act, mbind, prog_bind, current_epoch, of_coordinator, mret, prog_ret.
  cbn [bind_prog solo]. rewrite <- surjective_pairing. split; [done|].
  unfold transmit, send_frame, reply_frame. change (session_state (host_of s l)) with (lo_state l).
  destruct (encode_frame _ limits) as [encoded|code text]; [|done].
  change (socket (host_of s l)) with (lo_socket l). by destruct (send_all encoded (lo_socket l)).
Qed.

Lemma solo_answer go m request bytes (l : Local) s :
  simulates (answer_prog go (send_frame_prog limits m request bytes) l)
    (answer go (send_frame limits m request bytes)) s l.
Proof.
  unfold simulates, answer_prog. rewrite solo_bind.
  destruct (solo_send m request bytes l s) as (status & l' & -> & E). cbn [solo mret prog_ret snd].
  unfold answer. by rewrite E.
Qed.

Lemma alone_evaluate context id paths expected s :
  alone (evaluate_prog context id paths expected) s =
    let '(r, w) := evaluate context id paths expected (frame_clock s).1 (frame_clock s).2
      (sh_coordinator s) in (r, with_coordinator w s).
Proof.
  unfold evaluate_prog, act, mbind, prog_bind, begin_section. cbn [bind_prog solo].
  unfold evaluate, mbind, op_bind.
  destruct (evaluate_begin context id paths expected (frame_clock s).1 (sh_coordinator s)) as [r w].
  destruct r as [[outcome|snapshot]|code text]; [done| |done]. unfold get, lift.
  destruct (evaluate_batch _ _) as [batch|code text]; [|done].
  unfold act, on_coordinator. cbn [solo sh_coordinator with_coordinator].
  by destruct (evaluate_commit _ _ _ _ _ w).
Qed.

Lemma alone_hello f (l : Local) s :
  simulates (hello_prog limits f l) (handle_hello limits (frame_clock s).1 f) s l.
Proof.
  unfold hello_prog, register_prog, handle_hello.
  destruct (decode_all _ _) as [hello|]; [|apply solo_answer]. unfold simulates. cbv zeta.
  set (s1 := (fetch_add_session (frame_clock s) s).2).
  change (take_session (host_of s l)) with (host_of s1 l).
  change (next_session (host_of s1 l)) with (sh_next_session s1).
  rewrite call_host.
  rewrite solo_act. change (fetch_add_session (frame_clock s) s) with ((), s1). cbv iota.
  rewrite solo_act. unfold load_session. cbv iota.
  rewrite solo_epoch, solo_call. change (frame_clock s1) with (frame_clock s).
  destruct (register_publisher _ _ _ _ _ _ (sh_coordinator s1)) as [r w]. cbv iota.
  rewrite solo_epoch.
  destruct r as [registered|code detail].
  - set (state := mkSession _ _ _ _ true). rewrite solo_bind.
    edestruct (solo_send MessageId.HelloAck (header f)) as (status & l' & E1 & E2).
    rewrite E1. cbn [solo mret prog_ret fst snd].
    change (with_state state (host_of (with_coordinator w s1) l)) with
      (host_of (with_coordinator w s1) (with_lo_state state l)).
    change (epoch (host_of _ (with_lo_state state l))) with
      (reg_epoch (im_authority (impl (sh_coordinator (with_coordinator w s1))))).
    rewrite E2. done.
  - rewrite solo_bind.
    edestruct (solo_send MessageId.HelloAck (header f)) as (status & l' & E1 & E2).
    rewrite E1. cbv iota. cbn [snd]. change (epoch (host_of (with_coordinator w s1) l)) with
      (reg_epoch (im_authority (impl (sh_coordinator (with_coordinator w s1))))).
    rewrite E2. exact (solo_answer false _ _ _ l' (with_coordinator w s1)).
Qed.

Lemma alone_registered f (l : Local) s :
  simulates (registered_prog limits (context_for (host_of s l) (header f)) f l)
    (handle_registered limits (frame_clock s) f) s l.
Proof.
  unfold registered_prog, handle_registered, query_prog, handle_query.
  destruct (message (header f)); try apply solo_answer;
    try (destruct (decode_all read_set_id _); [|apply solo_answer];
         unfold simulates; rewrite solo_act; apply solo_answer).
  - unfold publish_prog, handle_publish. destruct (decode_all _ _) as [set|]; [|apply solo_answer].
    unfold simulates. rewrite solo_call. cbv zeta. rewrite call_host.
    destruct (publish_constraint_set _ _ _ _ (sh_coordinator s)) as [[a|code text] w];
      exact (solo_answer true _ _ _ l (with_coordinator w s)).
  - unfold lifecycle_prog, handle_lifecycle.
    destruct (decode_all _ _) as [request|]; [|apply solo_answer].
    unfold simulates. rewrite solo_call. cbv zeta. rewrite call_host.
    destruct (apply_lifecycle _ _ _ _ (sh_coordinator s)) as [[a|code text] w];
      exact (solo_answer true _ _ _ l (with_coordinator w s)).
  - unfold evaluate_candidates_prog, handle_evaluate.
    destruct (decode_all _ _) as [request|]; [|apply solo_answer].
    unfold simulates. rewrite solo_bind, alone_evaluate. cbv zeta. rewrite call_host.
    destruct (evaluate _ _ _ _ _ _ (sh_coordinator s)) as [[a|code text] w];
      exact (solo_answer true _ _ _ l (with_coordinator w s)).
  - unfold simulates. rewrite solo_bind.
    destruct (solo_send MessageId.Shutdown (header f) [] l s) as (status & l' & -> & E).
    cbn [solo mret prog_ret snd]. by rewrite E.
Qed.

Lemma alone_frame f (l : Local) s :
  simulates (frame_prog limits f l) (handle_frame limits (frame_clock s) f) s l.
Proof.
  unfold frame_prog, handle_frame, simulates. change (session_state (host_of s l)) with (lo_state l).
  destruct (eeqb _ _); [apply alone_hello|]. destruct (negb (ss_registered _)); [apply solo_answer|].
  destruct (negb (identity_matches _ _)); [apply solo_answer|].
  rewrite solo_context. apply alone_registered.
Qed.

Lemma alone_pump fuel : ∀ a (l : Local) s,
  simulates (pump_prog limits fuel a l) (pump_loop limits clock fuel a) s l.
Proof.
  induction fuel as [|fuel IH]; intros a l s; cbn [pump_prog pump_loop]; [done|].
  unfold simulates. destruct (pop a) as [[[f|]|code text] a1]; [|done|].
  - rewrite solo_act. cbv iota zeta beta.
    set (s1 := (fetch_add_frames (frame_clock s) s).2).
    change (fetch_add_frames (frame_clock s) s) with ((), s1). cbv iota.
    change (count_frame (host_of s l)) with (host_of s1 l).
    change (clock (frames_handled (host_of s1 l))) with (frame_clock s1).
    rewrite solo_bind. pose proof (alone_frame f l s1) as Hf. unfold simulates in Hf.
    destruct (alone (frame_prog limits f l) s1) as [[go l2] s2]. destruct Hf as [-> Hs2].
    cbn [fst snd]. destruct go; [|by split]. specialize (IH a1 l2 s2). unfold simulates in IH.
    destruct (alone (pump_prog _ _ _ _) s2) as [[a3 l3] s3]. destruct IH as [-> ->]. by split.
  - rewrite solo_bind. unfold send_error, send_error_prog.
    destruct (solo_send MessageId.ErrorReport empty_header (encode_error_report
      (mkErrorReport code ReasonCode.MalformedFrame (bounded_detail limits text)) []) l s)
      as (status & l' & -> & ->). done.
Qed.

Lemma alone_round a (l : Local) s :
  simulates (round_prog limits a l) (round limits clock a) s l.
Proof.
  unfold round_prog, round, simulates. change (socket (host_of s l)) with (lo_socket l).
  destruct (recv_some _ _) as [[[|byte chunk]|code text] received]; [done| |done].
  destruct (push _ a) as [[u|code text] a1].
  - rewrite solo_bind. unfold pump. change (with_socket received (host_of s l)) with
      (host_of s (with_lo_socket received l)).
    pose proof (alone_pump (Datatypes.S (length (buffer a1))) a1 (with_lo_socket received l) s) as Hp.
    unfold simulates in Hp. destruct (alone (pump_prog _ _ _ _) s) as [[a2 l2] s2].
    destruct Hp as [-> Hs]. by split.
  - rewrite solo_bind. unfold send_error, send_error_prog.
    change (with_socket received (host_of s l)) with (host_of s (with_lo_socket received l)).
    destruct (solo_send MessageId.ErrorReport empty_header (encode_error_report
      (mkErrorReport code ReasonCode.OversizedVector (bounded_detail limits text)) [])
      (with_lo_socket received l) s) as (status & l' & -> & ->). done.
Qed.

(** The steps of a thread, with the clock readings it makes. *)
Fixpoint thread_steps (nows : list (Z * Z)) (t : Thread) (s : Shared) : Thread * Shared :=
  match nows with
  | [] => (t, s)
  | now :: nows => let '(t, s) := thread_step limits now t s in thread_steps nows t s
  end.

Lemma thread_steps_app nows1 nows2 t s :
  thread_steps (nows1 ++ nows2) t s = let '(t, s) := thread_steps nows1 t s in thread_steps nows2 t s.
Proof.
  revert t s. induction nows1 as [|now nows1 IH]; intros t s; [done|]. cbn [thread_steps app].
  destruct (thread_step _ now t s) as [t1 s1]. apply IH.
Qed.

Lemma steps_busy (p : prog D S (option FrameAssembler * Local)) : ∀ s, ∃ nows,
  thread_steps nows (Busy p) s = (Busy (Ret (alone p s).1), (alone p s).2).
Proof.
  induction p as [a|B m k IH]; intros s; [by exists []|]. cbn [solo].
  destruct (m (frame_clock s) s) as [b s'] eqn:E. destruct (IH b s') as [nows Hn].
  exists (frame_clock s :: nows). cbn [thread_steps thread_step]. by rewrite E.
Qed.

(** The loop of a connection whose server is not stopped. *)
Lemma steps_rounds n : ∀ a (l : Local) s h,
  sh_stopping s = false → rounds limits clock (repeat false n) a (host_of s l) = (true, h) →
  ∃ nows l' s', thread_steps nows (Looping a l) s = (Finishing (finish_prog l'), s') ∧
    h = host_of s' l'.
Proof.
  induction n as [|n IH]; intros a l s h Hs; cbn [repeat rounds];
    change (running (host_of s l)) with (lo_running l); destruct (lo_running l) eqn:Er; cbn [negb orb];
    try (intros [= <-]; exists [(0, 0)], l, s; cbn [thread_steps thread_step]; by rewrite Er);
    try done.
  pose proof (alone_round a l s) as Hr. unfold simulates in Hr.
  destruct (steps_busy (round_prog limits a l) s) as [nows Hn].
  destruct (alone (round_prog limits a l) s) as [[oa l1] s1]. destruct Hr as [-> Hs1].
  cbn [fst snd] in Hn.
  assert (thread_steps ((0, 0) :: nows) (Looping a l) s = (Busy (Ret (oa, l1)), s1)) as Hb.
  { cbn [thread_steps thread_step]. rewrite Er, Hs. exact Hn. }
  destruct oa as [a1|].
  - intros E. apply IH in E as (nows' & l' & s' & E & ->); [|congruence].
    exists (((0, 0) :: nows) ++ (0, 0) :: nows'), l', s'. split; [|done].
    rewrite thread_steps_app, Hb. exact E.
  - intros [= <-]. exists (((0, 0) :: nows) ++ [(0, 0)]), l1, s1. split; [|done].
    by rewrite thread_steps_app, Hb.
Qed.

Lemma steps_finish tick (l : Local) s : ∃ nows l' s',
  thread_steps nows (Finishing (finish_prog l)) s = (Ended l', s') ∧
  host_of s' l' = finish_connection tick (host_of s l).
Proof.
  unfold finish_prog, finish_connection. change (session_state (host_of s l)) with (lo_state l).
  destruct (ss_registered _); [|by exists [(0, 0)], (with_lo_socket (close_socket (lo_socket l)) l), s].
  rewrite call_host.
  exists [(tick, 0); (0, 0); (0, 0)], (with_lo_socket (close_socket (lo_socket l)) l).
  unfold act, mbind, prog_bind, on_coordinator. cbn [bind_prog thread_steps thread_step].
  destruct (fence_on_session_loss _ _ (sh_coordinator s)) as [r w].
  eexists. split; reflexivity.
Qed.

Lemma run_thread_steps nows : ∀ t s up m st,
  run limits (map (RunThread 0) nows) (mkProcess s [t] up m st) =
    mkProcess (thread_steps nows t s).2 [(thread_steps nows t s).1] up m st.
Proof.
  induction nows as [|now nows IH]; intros t s up m st; [done|].
  cbn [map run fold_left transition threads lookup list_lookup shared listening main stop thread_steps].
  destruct (thread_step _ now t s) as [t1 s1]. apply IH.
Qed.
End alone.

(** ** What no thread touches *)

Section mild.
Context {D S : Type} `{FileSystem D} `{Sockets S}.
Context (limits : Limits).

Notation Shared := (Shared D S).
Notation Local := (Local S).

(** [stopping] is set by [stop] alone, and nothing is ever put into [sessions]. *)
Definition mild_step (s s' : Shared) : Prop :=
  sh_stopping s' = sh_stopping s ∧ (sh_sessions s = ∅ → sh_sessions s' = ∅).

Fixpoint mild {A} (p : prog D S A) : Prop :=
  match p with
  | Ret _ => True
  | Act m k => (∀ now s, mild_step s (m now s).2) ∧ ∀ b, mild (k b)
  end.

Lemma mild_bind {A B} (f : A → prog D S B) (p : prog D S A) :
  mild p → (∀ a, mild (f a)) → mild (p ≫= f).
Proof.
  unfold mbind, prog_bind. induction p as [a|C m k IH]; cbn [bind_prog mild]; [auto|].
  intros [Hm Hk] Hf. split; [done|]. intros b. by apply IH.
Qed.

Lemma mild_act {A B} (m : action D S B) (k : B → prog D S A) :
  (∀ now s, mild_step s (m now s).2) → (∀ b, mild (k b)) → mild (act m ≫= k).
Proof. intros Hm Hk. by split. Qed.

Lemma on_coordinator_mild {B} (m : Z * Z → op D B) now s :
  mild_step s (on_coordinator (S := S) m now s).2.
Proof. unfold on_coordinator. by destruct (m now (sh_coordinator s)). Qed.

Lemma of_coordinator_mild {B} (f : Impl → B) now s : mild_step s (of_coordinator (S := S) f now s).2.
Proof. done. Qed.

Lemma begin_section_mild context id paths expected now s :
  mild_step s (begin_section (S := S) context id paths expected now s).2.
Proof. unfold begin_section. by destruct (evaluate_begin _ _ _ _ _ _). Qed.

Lemma send_mild m request bytes (l : Local) : mild (send_frame_prog (D := D) limits m request bytes l).
Proof. apply mild_act; [apply of_coordinator_mild|done]. Qed.

Lemma answer_mild go m request bytes (l : Local) :
  mild (answer_prog (D := D) go (send_frame_prog limits m request bytes) l).
Proof. apply mild_bind; [apply send_mild|done]. Qed.

Lemma context_mild (l : Local) header : mild (context_prog (D := D) l header).
Proof. apply mild_act; [apply of_coordinator_mild|done]. Qed.

Lemma evaluate_mild context id paths expected :
  mild (evaluate_prog (D := D) (S := S) context id paths expected).
Proof.
  apply mild_act; [apply begin_section_mild|]. intros [[[[outcome|snapshot]|code text] lim] tick]; [done| |done].
  destruct (evaluate_batch _ _); [|done]. split; [apply on_coordinator_mild|done].
Qed.

#[local] Hint Resolve on_coordinator_mild of_coordinator_mild send_mild answer_mild context_mild
  evaluate_mild : core.

Lemma hello_mild f (l : Local) : mild (hello_prog (D := D) limits f l).
Proof.
  unfold hello_prog, register_prog, send_error_prog. destruct (decode_all _ _); [|auto].
  do 3 (apply mild_act; [done|]; intros ?). apply mild_act; [apply on_coordinator_mild|]. intros r.
  apply mild_act; [done|]. intros epoch.
  destruct r; (apply mild_bind; [apply send_mild|]); intros sent_; [done|apply answer_mild].
Qed.

Lemma registered_mild ctx f (l : Local) : mild (registered_prog (D := D) limits ctx f l).
Proof.
  unfold registered_prog, query_prog, send_error_prog. destruct (message (header f)); auto;
    try (destruct (decode_all read_set_id _); [apply mild_act; [done|]|]; auto).
  - unfold publish_prog. destruct (decode_all _ _); [|apply answer_mild].
    apply mild_act; [auto|]. intros [?|? ?]; apply answer_mild.
  - unfold lifecycle_prog. destruct (decode_all _ _); [|apply answer_mild].
    apply mild_act; [auto|]. intros [?|? ?]; apply answer_mild.
  - unfold evaluate_candidates_prog. destruct (decode_all _ _); [|apply answer_mild].
    apply mild_bind; [auto|]. intros [?|? ?]; apply answer_mild.
  - apply mild_bind; [auto|done].
Qed.

Lemma frame_mild f (l : Local) : mild (frame_prog (D := D) limits f l).
Proof.
  unfold frame_prog. destruct (eeqb _ _); [apply hello_mild|].
  destruct (negb _); [apply answer_mild|]. destruct (negb _); [apply answer_mild|].
  apply mild_bind; [apply context_mild|]. intros ctx. apply registered_mild.
Qed.

Lemma pump_mild fuel : ∀ a (l : Local), mild (pump_prog (D := D) limits fuel a l).
Proof.
  induction fuel as [|fuel IH]; intros a l; cbn [pump_prog]; [done|].
  destruct (pop a) as [[[f|]|code text] a1]; [|done|].
  - apply mild_act; [done|]. intros []. apply mild_bind; [apply frame_mild|]. intros [[] l1]; [apply IH|done].
  - apply mild_bind; [apply send_mild|done].
Qed.

Lemma round_mild a (l : Local) : mild (round_prog (D := D) limits a l).
Proof.
  unfold round_prog. destruct (recv_some _ _) as [[[|byte chunk]|code text] received]; try done.
  destruct (push _ a) as [[u|code text] a1]; (apply mild_bind; [|done]).
  - apply pump_mild.
  - apply send_mild.
Qed.

Lemma finish_mild (l : Local) : mild (finish_prog (D := D) l).
Proof.
  unfold finish_prog. destruct (ss_registered _); [|done].
  apply mild_act; [auto|]. intros r. apply mild_act; [|done]. intros now s. split; [done|].
  intros E. cbn [sh_sessions]. unfold erase_session. cbn [snd sh_sessions]. rewrite E. apply fin_maps.delete_empty.
Qed.

Definition thread_mild (t : Thread (D := D) (S := S)) : Prop :=
  match t with Busy p => mild p | Finishing p => mild p | _ => True end.

Lemma thread_step_mild now t s :
  thread_mild t → thread_mild (thread_step limits now t s).1 ∧
    mild_step s (thread_step limits now t s).2.
Proof.
  intros Ht. destruct t as [a l|[[[a|] l]|B m k]|[l|B m k]|l]; cbn [thread_step];
    try (split; [done|by split]).
  - destruct (_ || _); (split; [|by split]); [apply finish_mild|apply round_mild].
  - split; [apply finish_mild|by split].
  - destruct Ht as [Hm Hk]. specialize (Hm now s). destruct (m now s) as [b s']. split; [apply Hk|exact Hm].
  - destruct Ht as [Hm Hk]. specialize (Hm now s). destruct (m now s) as [b s']. split; [apply Hk|exact Hm].
Qed.

(** A process that was started: its threads, and the empty map of the sessions. *)
Definition process_mild (p : Process (D := D) (S := S)) : Prop :=
  Forall thread_mild (threads p) ∧ sh_sessions (shared p) = ∅.

Lemma transition_mild e p :
  process_mild p → process_mild (transition limits e p) ∧
    (sh_stopping (shared p) = true → sh_stopping (shared (transition limits e p)) = true).
Proof.
  destruct p as [s ts up m st]. unfold process_mild. cbn [threads shared]. intros [Ht Hs].
  destruct e as [answer|i now|]; cbn [transition].
  - unfold main_step. cbn [main threads shared listening stop].
    destruct m as [| |code text|socket|status]; [by split| |by split| |by split].
    + by destruct up, answer.
    + destruct (admits _ _); cbn [threads shared]; [|by split]. split; [|done]. split; [|done].
      apply Forall_app. by repeat constructor.
  - cbn [threads shared listening main stop]. destruct (ts !! i) as [t|] eqn:Ei; [|by split].
    pose proof (Forall_lookup_1 _ _ _ _ Ht Ei) as Hi.
    destruct (thread_step_mild now t s Hi) as [Ht' [Hs1 Hs2]].
    destruct (thread_step _ now t s) as [t' s']. cbn [fst snd threads shared] in *.
    split; [|by rewrite Hs1]. split; [by apply Forall_insert|by apply Hs2].
  - unfold stop_step. cbn [threads shared listening main stop].
    assert (sh_sessions (abort_sessions s) = ∅) as Ha
      by (unfold abort_sessions; cbn [sh_sessions]; rewrite Hs; reflexivity).
    destruct st; cbn [threads shared]; try by repeat split.
    + destruct (forallb _ _); cbn [threads shared]; by repeat split.
Qed.

Lemma run_mild events : ∀ p, process_mild p → process_mild (run limits events p).
Proof.
  induction events as [|e es IH]; intros p Hp; [done|]. apply IH. by apply transition_mild.
Qed.

Lemma start_mild w : process_mild (start_process w).
Proof. by split; [constructor|]. Qed.
End mild.

(** ** Stopping *)

(** The processes of a run without end. *)
Fixpoint trace {D S} `{FileSystem D} `{Sockets S} (limits : Limits)
    (events : nat → Event (S := S)) (p : Process (D := D) (S := S)) (n : nat) : Process :=
  match n with
  | O => p
  | Datatypes.S n => transition limits (events n) (trace limits events p n)
  end.

(** Every thread gets its turn again and again: [run], [stop] and those of the connections.
    A call that blocks is a turn that does not come. *)
Definition fair {S} (events : nat → Event (S := S)) : Prop := ∀ n,
  (∃ m answer, (n <= m)%nat ∧ events m = RunMain answer) ∧
  (∃ m, (n <= m)%nat ∧ events m = RunStop) ∧
  ∀ i, ∃ m now, (n <= m)%nat ∧ events m = RunThread i now.

Section stopping.
Context {D S : Type} `{FileSystem D} `{Sockets S}.
Context (limits : Limits).

Notation Process := (Process (D := D) (S := S)).
Notation Thread := (Thread (D := D) (S := S)).

(** The rounds left to [run] and to [stop]. *)
Definition main_rank (p : Process) : nat :=
  match main p with
  | Returned _ => 0 | Testing | Refused _ _ => 1 | Admitting _ => 2 | Accepting => 3
  end.
Definition stop_rank (p : Process) : nat :=
  match stop p with Stopped => 0 | Joining => 1 | Aborting => 2 | Closing => 3 | Idle => 4 end.

Definition done_at (i : nat) (p : Process) : Prop := ∀ t, threads p !! i = Some t → ended t = true.

Lemma main_rank_step e p :
  sh_stopping (shared p) = true →
  (main_rank (transition limits e p) <= main_rank p)%nat ∧
  (∀ answer, e = RunMain answer → (main_rank p = 0 ∨ main_rank (transition limits e p) < main_rank p)%nat).
Proof.
  destruct p as [s ts up m st]. cbn [shared]. intros Hs. unfold main_rank.
  destruct e as [answer|i now|]; cbn [transition].
  - unfold main_step. cbn [main threads shared listening stop].
    destruct m as [| |code text|received|status]; cbn [main with_main]; rewrite ?Hs;
      try (split; [lia|intros; lia]).
    + destruct up, answer; cbn [main with_main]; (split; [lia|intros; lia]).
    + destruct (admits _ _); cbn [main with_main]; (split; [lia|intros; lia]).
  - cbn [threads shared listening main stop]. split; [|done].
    destruct (ts !! i); [|done]. by destruct (thread_step _ now _ s).
  - split; [|done]. unfold stop_step. cbn [stop threads shared listening main].
    destruct st; cbn [main]; try lia. by destruct (forallb _ _).
Qed.

Lemma stop_rank_step e p :
  forallb ended (threads p) = true → (0 < stop_rank p)%nat →
  (stop_rank (transition limits e p) <= stop_rank p)%nat ∧
  (e = RunStop → (stop_rank (transition limits e p) < stop_rank p)%nat).
Proof.
  destruct p as [s ts up m st]. cbn [threads]. unfold stop_rank at 1. cbn [stop]. intros Ht Hr.
  destruct e as [answer|i now|]; cbn [transition].
  - split; [|done]. unfold main_step. cbn [main threads shared listening stop].
    destruct m; cbn [stop with_main stop_rank]; try done.
    + by destruct up, answer.
    + by destruct (admits _ _).
  - cbn [threads shared listening main stop]. split; [|done].
    destruct (ts !! i); [|done]. by destruct (thread_step _ now _ s).
  - unfold stop_step, stop_rank. cbn [stop threads shared listening main].
    destruct st; cbn [stop] in *; rewrite ?Ht; cbn [stop]; lia.
Qed.

Lemma ended_step now t s : ended t = true → (thread_step limits now t s).1 = t.
Proof. by destruct t. Qed.

(** What a transition does to one thread once [run] has returned. *)
Lemma thread_transition e p i :
  main_rank p = 0%nat →
  threads (transition limits e p) !! i = None ∨
  (∃ now, e = RunThread i now ∧ ∃ t, threads p !! i = Some t ∧
     threads (transition limits e p) !! i = Some (thread_step limits now t (shared p)).1) ∨
  ((∀ now, e ≠ RunThread i now) ∧ threads (transition limits e p) !! i = threads p !! i).
Proof.
  destruct p as [s ts up m st]. unfold main_rank. cbn [main]. intros Hm.
  destruct e as [answer|j now|]; cbn [transition].
  - right; right. split; [done|]. unfold main_step. cbn [main]. by destruct m.
  - cbn [threads shared listening main stop]. destruct (decide (j = i)) as [->|Hj].
    + destruct (ts !! i) as [t|] eqn:Ei; [|by left]. right; left. exists now. split; [done|].
      exists t. split; [done|]. destruct (thread_step _ now t s) as [t' s']. cbn [threads fst].
      apply list_lookup_insert_eq. by eapply lookup_lt_Some.
    + right; right. split; [by intros now' [= ? ?]|]. destruct (ts !! j) as [t|]; [|done].
      destruct (thread_step _ now t s) as [t' s']. cbn [threads]. by rewrite list_lookup_insert_ne.
  - unfold stop_step. cbn [stop threads shared listening main].
    destruct st; cbn [threads]; try (right; right; by split).
    destruct (forallb _ _); cbn [threads]; [by left|by right; right].
Qed.

Lemma threads_transition_length e p :
  main_rank p = 0%nat → (length (threads (transition limits e p)) <= length (threads p))%nat.
Proof.
  intros Hm. apply Nat.nlt_ge. intros Hl.
  destruct (lookup_lt_is_Some_2 _ _ Hl) as [t Ht].
  destruct (thread_transition e p (length (threads p)) Hm) as [Hn|[(now & _ & t' & Ht' & _)|[_ Hs]]].
  - congruence.
  - apply lookup_lt_Some in Ht'. lia.
  - rewrite Ht in Hs. symmetry in Hs. apply lookup_lt_Some in Hs. lia.
Qed.

Section fairly.
Context (events : nat → Event (S := S)) (p0 : Process).
Context (events_fair : fair events).

Notation T := (trace limits events p0).

(** A measure that falls at events that come again and again reaches zero. *)
Lemma eventually_zero (f : Process → nat) (good : Event (S := S) → Prop) n0 :
  (∀ n, (n0 <= n)%nat → (0 < f (T n))%nat →
     (f (T (Datatypes.S n)) <= f (T n))%nat ∧
     (good (events n) → f (T (Datatypes.S n)) < f (T n))%nat) →
  (∀ n, ∃ m, (n <= m)%nat ∧ good (events m)) →
  ∃ n, (n0 <= n)%nat ∧ f (T n) = 0%nat.
Proof.
  intros Hf Hg.
  assert (∀ d n, (n0 <= n)%nat → ∃ j, (n <= j)%nat ∧ (f (T j) = 0%nat ∨
    (j = n + d)%nat ∧ (f (T j) <= f (T n))%nat)) as Hwalk.
  { induction d as [|d IH]; intros n Hn; [exists n; split; [lia|]; right; lia|].
    destruct (IH n Hn) as (j & Hj & [Hz|[-> Hle]]); [exists j; by split; [|left]|].
    destruct (decide (f (T (n + d)) = 0)%nat) as [Hz|Hz]; [exists (n + d)%nat; by split; [|left]|].
    destruct (Hf (n + d)%nat ltac:(lia) ltac:(lia)) as [Hs _].
    exists (Datatypes.S (n + d)). split; [lia|]. right. split; lia. }
  assert (∀ r n, (n0 <= n)%nat → (f (T n) <= r)%nat → ∃ m, (n0 <= m)%nat ∧ f (T m) = 0%nat) as Hmain.
  { induction r as [|r IH]; intros n Hn Hr; [exists n; split; lia|].
    destruct (Hg n) as (m & Hm & Hgood). destruct (Hwalk (m - n)%nat n Hn) as (j & Hj & [Hz|[-> Hle]]).
    - exists j. split; [lia|done].
    - replace (n + (m - n))%nat with m in Hle by lia.
      destruct (decide (f (T m) = 0)%nat) as [Hz|Hz]; [exists m; split; [lia|done]|].
      destruct (Hf m ltac:(lia) ltac:(lia)) as [_ Hs]. specialize (Hs Hgood).
      apply (IH (Datatypes.S m)); lia. }
  apply (Hmain (f (T n0)) n0); lia.
Qed.

Context (p0_mild : process_mild p0) (p0_stopping : sh_stopping (shared p0) = true).

Lemma trace_stopping n : process_mild (T n) ∧ sh_stopping (shared (T n)) = true.
Proof.
  induction n as [|n [IH1 IH2]]; [done|]. cbn [trace].
  destruct (transition_mild limits (events n) (T n) IH1) as [H1 H2]. auto.
Qed.

Lemma main_returns : ∃ n, ∀ m, (n <= m)%nat → main_rank (T m) = 0%nat.
Proof.
  destruct (eventually_zero main_rank (λ e, ∃ answer, e = RunMain answer) 0) as (n & _ & Hn).
  - intros n _ Hpos. destruct (main_rank_step (events n) (T n)) as [H1 H2];
      [apply trace_stopping|]. split; [done|]. intros [answer E].
    destruct (H2 answer E) as [H3|H3]; [|done]. rewrite H3 in Hpos. lia.
  - intros n. destruct (events_fair n) as ((m & answer & Hm & E) & _). exists m. eauto.
  - exists n. intros m Hm. induction Hm as [|m Hm IH]; [done|]. cbn [trace].
    destruct (main_rank_step (events m) (T m)) as [H1 _]; [apply trace_stopping|]. lia.
Qed.

Context (n1 : nat) (returned : ∀ m, (n1 <= m)%nat → main_rank (T m) = 0%nat).

Lemma done_step i n : (n1 <= n)%nat → done_at i (T n) → done_at i (T (Datatypes.S n)).
Proof.
  intros Hn Hd t Ht. cbn [trace] in Ht.
  destruct (thread_transition (events n) (T n) i (returned n Hn)) as
    [E|[(now & _ & t' & Et & E)|[_ E]]]; rewrite E in Ht; [done| |by apply Hd].
  injection Ht as <-. rewrite ended_step; by apply Hd.
Qed.

Lemma done_later i n m : (n1 <= n)%nat → (n <= m)%nat → done_at i (T n) → done_at i (T m).
Proof. intros Hn Hm Hd. induction Hm as [|m Hm IH]; [done|]. apply done_step; [lia|done]. Qed.

(** The next turn of a thread. *)
Lemma next_turn i n t :
  (n1 <= n)%nat → threads (T n) !! i = Some t → ∃ m, (n <= m)%nat ∧
    (threads (T m) !! i = None ∨
     ∃ now s, threads (T m) !! i = Some (thread_step limits now t s).1 ∧ sh_stopping s = true).
Proof.
  intros Hn Ht. destruct (events_fair n) as (_ & _ & Hi). destruct (Hi i) as (m & now & Hm & E).
  clear Hi. remember (m - n)%nat as d eqn:Ed. revert n Hn Ht Hm Ed.
  induction d as [|d IH]; intros n Hn Ht Hm Ed.
  - assert (m = n) as -> by lia. exists (Datatypes.S n). split; [lia|]. cbn [trace].
    destruct (thread_transition (events n) (T n) i (returned n Hn)) as
      [E'|[(now' & _ & t' & Et & E')|[Hne _]]]; [by left| |by destruct (Hne now)].
    right. exists now', (shared (T n)). rewrite Ht in Et. injection Et as <-.
    split; [done|apply trace_stopping].
  - destruct (thread_transition (events n) (T n) i (returned n Hn)) as
      [E'|[(now' & _ & t' & Et & E')|[_ E']]].
    + exists (Datatypes.S n). split; [lia|]. by left.
    + exists (Datatypes.S n). split; [lia|]. right. exists now', (shared (T n)).
      rewrite Ht in Et. injection Et as <-. split; [done|apply trace_stopping].
    + rewrite Ht in E'. destruct (IH (Datatypes.S n)) as (m' & Hm' & H'); [lia|done|lia|lia|].
      exists m'. split; [lia|done].
Qed.

Lemma finishing_ends i (p : prog D S (Local S)) : ∀ n,
  (n1 <= n)%nat → threads (T n) !! i = Some (Finishing p) → ∃ m, (n <= m)%nat ∧ done_at i (T m).
Proof.
  induction p as [l|B m k IH]; intros n Hn Ht;
    destruct (next_turn i n _ Hn Ht) as (n' & Hn' & [E|(now & s & E & _)]);
    try (exists n'; split; [done|]; intros t Et; congruence).
  - cbn [thread_step fst] in E. exists n'. split; [done|]. intros t Et. rewrite E in Et. by injection Et as <-.
  - cbn [thread_step] in E. destruct (m now s) as [b s'].
    destruct (IH b n' ltac:(lia) E) as (n2 & Hn2 & Hd). exists n2. split; [lia|done].
Qed.

Lemma looping_ends i a (l : Local S) n :
  (n1 <= n)%nat → threads (T n) !! i = Some (Looping a l) → ∃ m, (n <= m)%nat ∧ done_at i (T m).
Proof.
  intros Hn Ht. destruct (next_turn i n _ Hn Ht) as (n' & Hn' & [E|(now & s & E & Hs)]).
  { exists n'. split; [done|]. intros t Et. congruence. }
  cbn [thread_step] in E. rewrite Hs, orb_true_r in E.
  destruct (finishing_ends i _ n' ltac:(lia) E) as (m & Hm & Hd). exists m. split; [lia|done].
Qed.

Lemma busy_ends i (p : prog D S (option FrameAssembler * Local S)) : ∀ n,
  (n1 <= n)%nat → threads (T n) !! i = Some (Busy p) → ∃ m, (n <= m)%nat ∧ done_at i (T m).
Proof.
  induction p as [[[a|] l]|B m k IH]; intros n Hn Ht;
    destruct (next_turn i n _ Hn Ht) as (n' & Hn' & [E|(now & s & E & _)]);
    try (exists n'; split; [done|]; intros t Et; congruence); cbn [thread_step fst] in E.
  - destruct (looping_ends i a l n' ltac:(lia) E) as (m & Hm & Hd). exists m. split; [lia|done].
  - destruct (finishing_ends i _ n' ltac:(lia) E) as (m & Hm & Hd). exists m. split; [lia|done].
  - destruct (m now s) as [b s']. destruct (IH b n' ltac:(lia) E) as (n2 & Hn2 & Hd).
    exists n2. split; [lia|done].
Qed.

Lemma thread_ends i n : (n1 <= n)%nat → ∃ m, (n <= m)%nat ∧ done_at i (T m).
Proof.
  intros Hn. destruct (threads (T n) !! i) as [[a l|p|p|l]|] eqn:E.
  - by eapply looping_ends.
  - by eapply busy_ends.
  - by eapply finishing_ends.
  - exists n. split; [done|]. intros t Et. rewrite E in Et. by injection Et as <-.
  - exists n. split; [done|]. intros t Et. congruence.
Qed.

Lemma threads_length_later n : (n1 <= n)%nat → (length (threads (T n)) <= length (threads (T n1)))%nat.
Proof.
  intros Hn. induction Hn as [|n Hn IH]; [done|]. cbn [trace].
  pose proof (threads_transition_length (events n) (T n) (returned n Hn)). lia.
Qed.

Lemma all_end : ∃ n, (n1 <= n)%nat ∧ ∀ m, (n <= m)%nat → forallb ended (threads (T m)) = true.
Proof.
  assert (∀ k, ∃ n, (n1 <= n)%nat ∧ ∀ i, (i < k)%nat → done_at i (T n)) as Hk.
  { induction k as [|k (n & Hn & IH)]; [by exists n1; split; [|lia]|].
    destruct (thread_ends k n Hn) as (m & Hm & Hd). exists m. split; [lia|]. intros i Hi.
    destruct (decide (i = k)) as [->|Hne]; [done|]. apply (done_later i n); [done..|]. apply IH. lia. }
  destruct (Hk (length (threads (T n1)))) as (n & Hn & Hd). exists n. split; [done|]. intros m Hm.
  apply list_forallb_Forall, Forall_lookup. intros i t Ht.
  apply (done_later i n m Hn Hm); [|done]. apply Hd. apply lookup_lt_Some in Ht.
  pose proof (threads_length_later m). lia.
Qed.

Lemma stop_stops : ∃ n, stop (T n) = Stopped ∧ main_rank (T n) = 0%nat ∧
  forallb ended (threads (T n)) = true.
Proof.
  destruct all_end as (n2 & Hn2 & Hend).
  destruct (eventually_zero stop_rank (λ e, e = RunStop) n2) as (n & Hn & Hz).
  - intros n Hn Hpos. apply stop_rank_step; [by apply Hend|done].
  - intros n. destruct (events_fair n) as (_ & (m & Hm & E) & _). exists m. eauto.
  - exists n. split; [|split; [apply returned; lia|by apply Hend]].
    revert Hz. unfold stop_rank. by destruct (stop (T n)).
Qed.
End fairly.
End stopping.

(** ** Admission *)

Section admission.
Context {D S : Type} `{FileSystem D} `{Sockets S}.
Context (limits : Limits) (sessions_allowed : 1 <= max_sessions limits).

(** The three steps of [run] that accept a connection. *)
Definition accepts (s : S) : list (Event (S := S)) := repeat (RunMain (Success s)) 3.

(** A process that waits for connections. *)
Definition waiting (p : Process (D := D) (S := S)) : Prop :=
  process_mild p ∧ main p = Testing ∧ listening p = true ∧ sh_stopping (shared p) = false.

Lemma admit_one p s :
  waiting p → waiting (run limits (accepts s) p) ∧
    threads (run limits (accepts s) p) = threads p ++ [spawn limits (Some s)].
Proof.
  intros (Hp & Hm & Hu & Hs). pose proof (run_mild limits (accepts s) _ Hp) as Hp1. revert Hp1.
  destruct p as [sh ts up m st]. cbn [main listening shared] in *. subst m up.
  destruct Hp as [_ Hempty]. cbn [shared] in Hempty. unfold accepts, waiting.
  cbn [repeat run fold_left transition main_step main shared with_main listening]. rewrite Hs.
  cbn [main_step main listening with_main shared threads].
  assert (admits limits (active_session_count sh) = true) as ->.
  2: { intros Hp1. split; [split; [exact Hp1|]|reflexivity]. split; [reflexivity|]. by split. }
  unfold admits, active_session_count. rewrite Hempty, map_size_empty. apply Z.ltb_lt.
  change (Z.of_nat 0) with 0. lia.
Qed.

Lemma admit_all sockets : ∀ p, waiting p →
  threads (run limits (concat (map accepts sockets)) p) =
    threads p ++ map (λ s, spawn limits (Some s)) sockets.
Proof.
  induction sockets as [|s sockets IH]; intros p Hp; [cbn; by rewrite app_nil_r|].
  destruct (admit_one p s Hp) as [Hp1 Ht]. cbn [map concat]. unfold run in *.
  rewrite fold_left_app, (IH _ Hp1), Ht, <- app_assoc. reflexivity.
Qed.
End admission.

(** ** Two hellos at once *)

(** A coordinator in memory with grants for two publishers, and the hellos of both. *)
Definition race_config : CoordinatorConfig :=
  mkConfig default_limits "" [mkGrant 7 127; mkGrant 8 127] true sample_requirements 16.
Definition race_world : World MemoryDisk :=
  match Coordinator.open race_config 5 empty_disk with
  | (Success i, d) => mkWorld i d
  | (_, d) => mkWorld idle_impl d
  end.

Definition hello_as (publisher boot : Z) : Frame :=
  peer_frame MessageId.Hello (encode_hello (mkHello publisher boot 127 "worker") []).
Definition hello_socket (publisher boot : Z) : MemorySocket :=
  mkMemorySocket [] 65536 [frame_bytes (hello_as publisher boot)].
Definition turns (i : nat) (n : nat) : list (Event (S := MemorySocket)) := repeat (RunThread i (12, 13)) n.
Definition both_accepted : list (Event (S := MemorySocket)) :=
  accepts (hello_socket 7 20) ++ accepts (hello_socket 8 21).

(** A thread that handles a frame, in the loops that continue with [k] and [g]; a frame that
    is a hello; and a thread that has read the identity of its session. *)
Definition handling {D S} `{FileSystem D} `{Sockets S} limits (f : Frame) (l : Local S)
    (k : bool * Local S → prog D S (FrameAssembler * Local S))
    (g : FrameAssembler * Local S → prog D S (option FrameAssembler * Local S)) : Thread :=
  Busy (bind_prog g (bind_prog k (frame_prog limits f l))).
Definition greets (limits : Limits) (f : Frame) (hello : HelloPayload) : Prop :=
  message (header f) = MessageId.Hello ∧ decode_all (decode_hello limits) (payload f) = Some hello.
Definition registering {D S} `{FileSystem D} `{Sockets S} limits (f : Frame) (hello : HelloPayload)
    (session : Z) (l : Local S) (k : bool * Local S → prog D S (FrameAssembler * Local S))
    (g : FrameAssembler * Local S → prog D S (option FrameAssembler * Local S)) : Thread :=
  Busy (bind_prog g (bind_prog k (register_prog limits (header f) hello session l))).

Definition authority_of {D S} (s : Shared D S) : AuthorityRegistry := im_authority (impl (sh_coordinator s)).

(** Two live registrations of one session, the first of them that was made and another. *)
Definition share_session (g : AuthorityRegistry) (session : Z) (a b : PublisherRegistration) : Prop :=
  ∃ before after, registrations g = before ++ a :: after ∧ b ∈ after ∧
    (rg_live a = true ∧ rg_session a = session) ∧ (rg_live b = true ∧ rg_session b = session) ∧
    rg_boot a ≠ rg_boot b ∧ ∀ x, x ∈ before → rg_live x = true → rg_session x ≠ session.

Lemma share_session_boot g session a b :
  share_session g session a b → boot_of_session session g = Some (rg_boot a).
Proof.
  intros (before & after & E & _ & (Hl & Hs) & _ & _ & Hno). unfold boot_of_session. rewrite E. clear E.
  induction before as [|x before IH]; cbn [app List.find].
  - by rewrite Hl, Hs, Z.eqb_refl.
  - assert (rg_live x && (rg_session x =? session) = false) as ->.
    { destruct (rg_live x) eqn:Ex; [|done]. apply Z.eqb_neq, Hno; [apply list_elem_of_here|done]. }
    apply IH. intros y Hy. apply Hno. by apply list_elem_of_further.
Qed.

Lemma handling_hello {D S} `{FileSystem D} `{Sockets S} limits f hello (l : Local S) k g :
  greets limits f hello →
  handling (D := D) limits f l k g = Busy (Act fetch_add_session (λ _, Act load_session (λ session,
    bind_prog g (bind_prog k (register_prog limits (header f) hello session l))))).
Proof. intros [Em Ed]. unfold handling, frame_prog, hello_prog. by rewrite Em, Ed. Qed.

Lemma wrap_next n : wrap 64 n ≠ wrap 64 (wrap 64 n + 1).
Proof. unfold wrap. intros E. Z.to_euclidean_division_equations. lia. Qed.

(** The two steps of a session identity: the increment, and the reading. *)
Lemma take_session_step {D S} `{FileSystem D} `{Sockets S} limits now (p : Process (D := D) (S := S)) i k :
  threads p !! i = Some (Busy (Act fetch_add_session k)) →
  let q := transition limits (RunThread i now) p in
  threads q !! i = Some (Busy (k ())) ∧ (∀ j, j ≠ i → threads q !! j = threads p !! j) ∧
  sh_next_session (shared q) = wrap 64 (sh_next_session (shared p) + 1).
Proof.
  intros E. cbn [transition]. rewrite E. cbn. split; [|split; [|done]].
  - by apply list_lookup_insert_eq, (lookup_lt_Some _ _ _ E).
  - intros j Hj. by apply list_lookup_insert_ne.
Qed.

Lemma load_session_step {D S} `{FileSystem D} `{Sockets S} limits now (p : Process (D := D) (S := S)) i k :
  threads p !! i = Some (Busy (Act load_session k)) →
  let q := transition limits (RunThread i now) p in
  threads q !! i = Some (Busy (k (sh_next_session (shared p)))) ∧
  (∀ j, j ≠ i → threads q !! j = threads p !! j) ∧
  sh_next_session (shared q) = sh_next_session (shared p).
Proof.
  intros E. cbn [transition]. rewrite E. cbn. split; [|split; [|done]].
  - by apply list_lookup_insert_eq, (lookup_lt_Some _ _ _ E).
  - intros j Hj. by apply list_lookup_insert_ne.
Qed.

(** One hello after the other; and each thread at its [load] after both [fetch_add]s. Then
    the first peer leaves. *)
Definition in_turn : list (Event (S := MemorySocket)) :=
  both_accepted ++ turns 1 9 ++ turns 0 9 ++ turns 0 5.
Definition at_once : list (Event (S := MemorySocket)) :=
  both_accepted ++ turns 0 3 ++ turns 1 3 ++ turns 1 6 ++ turns 0 6 ++ turns 0 5.

(** The first connection has ended, the second one is in session; whether their sessions
    are the same, and which of the boots are fenced. *)
Definition after_hellos (same gone_fenced live_fenced : bool)
    (p : Process (D := MemoryDisk) (S := MemorySocket)) : bool :=
  let g := im_authority (impl (sh_coordinator (shared p))) in
  match threads p with
  | [Ended l0; Looping _ l1] =>
      (ss_boot (lo_state l0) =? 20) && (ss_boot (lo_state l1) =? 21) && lo_running l1 &&
      ss_registered (lo_state l1) &&
      Bool.eqb (ss_session (lo_state l0) =? ss_session (lo_state l1)) same &&
      Bool.eqb (is_boot_fenced 20 g) gone_fenced && Bool.eqb (is_boot_fenced 21 g) live_fenced
  | _ => false
  end.

(** ** Properties *)

(** A server that does not start leaves the open handles as they were, and one that starts
    owns one listener more. *)
Lemma start_handles {D S O} `{FileSystem D} `{Sockets S} `{Loopback.HandleLaws O} limits port
    (w : World D) (n : Loopback.Net O) r n' :
  Threads.start (S := S) limits port w n = (r, n') →
  match r with
  | Failure _ _ => Loopback.opened n' = Loopback.opened n
  | Success (l, p) => p = start_process w ∧ ∃ h, Loopback.listener_handle l = Some h ∧
      h ∉ Loopback.opened n ∧ Loopback.opened n' = {[h]} ∪ Loopback.opened n
  end.
Proof.
  unfold Threads.start. destruct (validate_limits limits); [by intros [= <- <-]|].
  destruct (Loopback.initialize n) as [started n1] eqn:Ei. injection Ei as <- <-. cbv iota.
  destruct (Loopback.bind_loopback port _ _) as [[bound l] n2] eqn:Eb.
  apply Loopback.bind_changes in Eb as (Hc & Hf & Hs); [|done].
  cbn [Loopback.listener_handle option_list list_to_set] in Hc.
  assert (∀ X : gset Z, X ∖ ∅ = X) as Hnone by set_solver.
  destruct bound as [u|code detail]; intros [= <- <-]; cbn [rbind].
  - destruct Hc as [[E _]|[[E _]|(h & E & _ & Hh & Ho)]]; [by destruct (Hs eq_refl)..|].
    split; [done|]. exists h. cbn in Ho, Hh. rewrite Hnone in Hh, Ho. by split_and!.
  - destruct Hc as [[_ E]|[[_ E]|(h & E & _)]].
    + exact E.
    + cbn in E. by rewrite Hnone in E.
    + specialize (Hf eq_refl). congruence.
Qed.

(** C4: The server is a run of the system, whatever the interleaving. From any state the
    coordinator reaches, with any evaluations pending in it, a server that is started on it
    and whose threads — [run], [stop] and one per connection — take their steps in any
    order, at any clock readings, whatever their peers send, takes the coordinator to states
    it reaches by serving requests of the wire. What a thread holds between the two sections
    of an evaluation is pending there. Every property of the runs of the coordinator holds
    of a server with any number of connections at once. *)
Theorem threads_refine_system {D S} `{FileSystemLaws D} `{Sockets S} limits config t d before pend
    (w : World D) (events : list (Event (S := S))) :
  reaches config t d before (mkSystem w pend) →
  ∃ requests pend', Forall (from_wire limits) requests ∧
    reaches config t d (before ++ requests) (mkSystem
      (sh_coordinator (shared (run limits events (start_process w)))) pend').
Proof.
  intros (i & d' & Ho & E).
  assert (follows_system limits (mkSystem w pend) (start_process (S := S) w)) as Hstart.
  { exists [], pend, [], pend. by split_and!. }
  apply (run_follows limits _ events) in Hstart as (rs & pend' & _ & _ & F & Es & _).
  exists rs, pend'. split; [done|]. exists i, d'. split; [done|].
  unfold serve in *. by rewrite fold_left_app, <- E.
Qed.

(** C14: Frames act under the session's identity, whatever happens meanwhile. In whatever
    state other threads leave the coordinator before each action of the frame, every
    action changes it by one request that [issued] allows, or not at all: a registration of
    the identity the hello names, or a publication, a lifecycle event or an evaluation as
    the frame's bytes spell it, of a registered session, under the publisher, boot, session
    and scopes it registered with. An evaluation commits what it began itself. No frame
    reaches fencing, evidence, invalidation or the store. *)
Theorem frame_identity_interleaved {D S} `{FileSystem D} `{Sockets S} limits f (l : Local S) :
  follows (D := D) (issued limits (lo_state l) f) None (frame_prog limits f l).
Proof. apply frame_follows. Qed.

(** C15: A thread alone is a connection of [Server]. With nothing between its actions, the
    program of a frame answers what [handle_frame] answers and leaves the coordinator, the
    counters, the socket and the session it leaves. A process with one thread, which takes
    all its steps, ends where [serve_connection] ends. *)
Theorem lone_thread_is_connection {D S} `{FileSystem D} `{Sockets S} limits :
  (∀ now f (l : Local S) (s : Shared D S),
     let '((go, l'), s') := solo (λ _, now) (frame_prog limits f l) s in
     handle_frame limits now f (host_of s l) = (go, host_of s' l')) ∧
  (∀ clock n tick (socket : TcpSocket) (s : Shared D S) up m st,
     let l := mkLocal socket new_session true in
     sh_stopping s = false →
     (rounds limits clock (repeat false n) (new_assembler limits) (host_of s l)).1 = true →
     ∃ nows l' s', run limits (map (RunThread 0) nows) (mkProcess s [spawn limits socket] up m st) =
         mkProcess s' [Ended l'] up m st ∧
       host_of s' l' = serve_connection limits clock (repeat false n) tick (host_of s l)).
Proof.
  split.
  - intros now f l s. pose proof (alone_frame limits (λ _, now) f l s) as Hf. unfold simulates in Hf.
    change (frame_clock (λ _, now)) with (λ _ : Shared D S, now) in Hf.
    destruct (solo _ _ s) as [[go l'] s']. apply Hf.
  - intros clock n tick received s up m st. cbv zeta. intros Hs Ho. unfold serve_connection.
    destruct (rounds _ _ _ _ _) as [over h] eqn:Er. cbn [fst] in Ho. subst over.
    destruct (steps_rounds limits clock n _ _ s h Hs Er) as (nows & l1 & s1 & E1 & ->).
    destruct (steps_finish limits tick l1 s1) as (nows' & l' & s' & E2 & E3).
    exists (nows ++ nows'), l', s'. split; [|done]. rewrite run_thread_steps, thread_steps_app.
    unfold spawn. by rewrite E1, E2.
Qed.

(** C16: Stopping completes. Once [stop] has set its flag in a server that was started, and
    whatever its threads were doing, every fair run gets to a point where [stop] has joined
    and returned, [run] has returned and every connection has ended. Fairness asks that
    every call of the operating system returns in the end: the socket a thread receives
    from is not woken, for the map of the sessions is empty. *)
Theorem stop_completes {D S} `{FileSystem D} `{Sockets S} limits (w : World D)
    (before : list (Event (S := S))) (events : nat → Event (S := S)) :
  let p := run limits before (start_process w) in
  sh_stopping (shared p) = true → fair events →
  ∃ n, let q := trace limits events p n in
    stop q = Stopped ∧ (∃ status, main q = Returned status) ∧ forallb ended (threads q) = true.
Proof.
  intros p Hs Hf. assert (process_mild p) as Hm by apply run_mild, start_mild.
  destruct (main_returns limits events p Hf Hm Hs) as (n1 & Hn1).
  destruct (stop_stops limits events p Hf Hm Hs n1 Hn1) as (n & H1 & H2 & H3).
  exists n. split; [done|]. split; [|done]. revert H2. unfold main_rank.
  destruct (main _); try done. by eexists.
Qed.

(** C39: Nothing bounds the connections. The map that [run] counts for the limit of the
    sessions, and that [stop] goes through to wake the connections, is empty in every run;
    so, whatever the limit is, any number of connections is admitted and served at once. *)
Theorem admission_unbounded {D S} `{FileSystem D} `{Sockets S} limits (w : World D) :
  1 <= max_sessions limits →
  (∀ events : list (Event (S := S)), sh_sessions (shared (run limits events (start_process w))) = ∅) ∧
  (∀ sockets : list S, ∃ events, threads (run limits events (start_process w)) =
     map (λ s, spawn limits (Some s)) sockets).
Proof.
  intros Hl. split.
  - intros events. by destruct (run_mild limits events _ (start_mild w)).
  - intros sockets. exists (concat (map accepts sockets)). by rewrite (admit_all limits Hl).
Qed.


(** ** Witnesses *)

(** Two peers of one server: the one of [ServerCorrect], and one that says hello as the
    publisher 8, which has no grant. *)

(** The turns of the two threads, one after the other. *)
Definition busy_hour : list (Event (S := MemorySocket)) :=
  accepts (mkMemorySocket [] 65536 [peer_stream]) ++ accepts (hello_socket 8 21) ++
  concat (repeat (turns 0 1 ++ turns 1 1) 25).

Notation busy_process := (run default_limits busy_hour (start_process sample_world)).

Definition served_set (p : Process (D := MemoryDisk) (S := MemorySocket)) : bool :=
  bool_decide (map cs_id (im_sets (impl (sh_coordinator (shared p)))) = [7]) &&
  forallb ended (threads p).

Lemma served_set_spec p : served_set p = true →
  map cs_id (im_sets (impl (sh_coordinator (shared p)))) = [7] ∧ forallb ended (threads p) = true.
Proof. intros [H1 H2]%andb_true_iff. split; [exact (bool_decide_eq_true_1 _ H1)|exact H2]. Qed.

Lemma busy_served : served_set busy_process = true.
Proof. vm_compute. reflexivity. Qed.

(** Two threads that handle the hellos of both publishers; and the coordinator when both
    have registered under the session 2, the publisher 8 first. *)
Definition greeting_thread (publisher boot : Z) : Thread (D := MemoryDisk) (S := MemorySocket) :=
  handling default_limits (hello_as publisher boot)
    (mkLocal (Some (mkMemorySocket [] 65536 [])) new_session true)
    (λ handled, mret (new_assembler default_limits, handled.2))
    (λ pumped, mret (Some pumped.1, pumped.2)).
Definition greeting_process : Process (D := MemoryDisk) (S := MemorySocket) :=
  mkProcess (mkShared race_world 0 0 0 ∅ false) [greeting_thread 7 20; greeting_thread 8 21] true
    Testing Idle.

Definition registers (publisher boot : Z) : Request :=
  Register (mkAuthority 1 publisher boot 9 9 2 0) publisher boot 127 2 12.
Definition raced_world : World MemoryDisk :=
  world (serve [registers 8 21; registers 7 20] (mkSystem race_world [])).

Definition raced_shared : Shared MemoryDisk MemorySocket := mkShared raced_world 2 2 2 ∅ false.
Definition raced_local : Local MemorySocket := mkLocal None (mkSession 2 7 20 127 true) true.

Lemma raced_ok : sys_ok (mkSystem raced_world []).
Proof.
  assert (sys_ok (mkSystem race_world [])) as Hr.
  { assert (ok (Coordinator.open race_config 5 empty_disk).1 = true) as Hok by (vm_compute; reflexivity).
    unfold race_world. destruct (Coordinator.open race_config 5 empty_disk) as [r d] eqn:Eo.
    destruct r as [i|code detail]; [refine (open_ok race_config 5 empty_disk d i _ Eo)|].
    { split; [apply (bool_decide_unpack _); vm_compute; exact I|]. by split_and!. }
    discriminate Hok. }
  apply (serve_ok [registers 8 21; registers 7 20]) in Hr. unfold raced_world.
  destruct (serve _ _) as [w pend]. destruct Hr as [H1 H2 _]. split; [exact H1|exact H2|constructor].
Qed.

Lemma hello_as_greets publisher boot :
  (publisher, boot) ∈ [(7, 20); (8, 21)] →
  greets default_limits (hello_as publisher boot) (mkHello publisher boot 127 "worker").
Proof.
  rewrite !elem_of_cons, elem_of_nil. intros [[= -> ->]|[[= -> ->]|[]]]; (split; [reflexivity|]);
    vm_compute; reflexivity.
Qed.


Lemma threads_refine_system_witness :
  map cs_id (im_sets (impl (sh_coordinator (shared busy_process)))) = [7] ∧
  forallb ended (threads busy_process) = true ∧
  ∃ requests pend, Forall (from_wire default_limits) requests ∧
    reaches sample_config 5 empty_disk ([] ++ requests)
      (mkSystem (sh_coordinator (shared busy_process)) pend).
Proof.
  destruct (served_set_spec _ busy_served) as [H1 H2]. split; [exact H1|]. split; [exact H2|].
  apply (threads_refine_system default_limits sample_config 5 empty_disk [] [] sample_world busy_hour).
  exact (sample_reaches []).
Defined.

(** A process with one thread that handles the frames of [ServerCorrect]'s peer. *)
Definition lone_shared : Shared MemoryDisk MemorySocket := mkShared sample_world 0 0 0 ∅ false.

Lemma lone_rounds :
  (rounds default_limits sample_clock (repeat false 4) (new_assembler default_limits)
    (host_of lone_shared (mkLocal peer_socket new_session true))).1 = true.
Proof. vm_compute. reflexivity. Qed.

Lemma lone_thread_is_connection_witness :
  ∃ nows l' s', run default_limits (map (RunThread 0) nows)
      (mkProcess lone_shared [spawn default_limits peer_socket] true Testing Idle) =
    mkProcess s' [Ended l'] true Testing Idle ∧
  host_of s' l' = sample_connection peer_socket.
Proof.
  destruct (lone_thread_is_connection (D := MemoryDisk) (S := MemorySocket) default_limits) as [_ Hc].
  exact (Hc sample_clock 4%nat 90 peer_socket lone_shared true Testing Idle eq_refl lone_rounds).
Defined.

(** A server that is stopped while a peer is silent and another one spells half a frame. *)
Definition every_turn (n : nat) : Event (S := MemorySocket) :=
  match (n mod 3)%nat with
  | 0%nat => RunMain (Failure ErrorCode.TransportFailure "accept failed")
  | 1%nat => RunStop
  | _ => RunThread (Cantor.of_nat (n / 3)).1 (14, 15)
  end.

Lemma every_turn_fair : fair every_turn.
Proof.
  assert (∀ n r, (r < 3)%nat → ((3 * n + r) mod 3 = r ∧ (3 * n + r) / 3 = n)%nat) as Hdiv.
  { intros n r Hr. rewrite (Nat.mul_comm 3). split.
    - rewrite Nat.add_comm, Nat.Div0.mod_add. by apply Nat.mod_small.
    - rewrite Nat.div_add_l by lia. rewrite Nat.div_small by done. lia. }
  intros n. split; [|split].
  - exists (3 * n + 0)%nat. eexists. split; [lia|]. unfold every_turn.
    by destruct (Hdiv n 0%nat ltac:(lia)) as [-> _].
  - exists (3 * n + 1)%nat. split; [lia|]. unfold every_turn.
    by destruct (Hdiv n 1%nat ltac:(lia)) as [-> _].
  - intros i. exists (3 * Cantor.to_nat (i, n) + 2)%nat, (14, 15).
    pose proof (Cantor.to_nat_non_decreasing i n). split; [lia|]. unfold every_turn.
    destruct (Hdiv (Cantor.to_nat (i, n)) 2%nat ltac:(lia)) as [-> ->]. by rewrite Cantor.cancel_of_to.
Qed.

Definition before_stop : list (Event (S := MemorySocket)) :=
  accepts (mkMemorySocket [] 65536 [take 50 peer_stream]) ++ accepts (hello_socket 7 20) ++
  turns 0 2 ++ turns 1 3 ++ [RunStop].

Lemma stop_completes_witness :
  map ended (threads (run default_limits before_stop (start_process sample_world))) = [false; false] ∧
  ∃ n, let q := trace default_limits every_turn
      (run default_limits before_stop (start_process sample_world)) n in
    stop q = Stopped ∧ (∃ status, main q = Returned status) ∧ forallb ended (threads q) = true.
Proof.
  split; [vm_compute; reflexivity|].
  apply (stop_completes default_limits sample_world before_stop every_turn); [vm_compute; reflexivity|].
  exact every_turn_fair.
Defined.

(** One connection above the limit. *)
Definition many_sockets : list MemorySocket :=
  repeat (mkMemorySocket [] 1 []) (Datatypes.S (Z.to_nat (max_sessions default_limits))).

Lemma admission_unbounded_witness :
  ∃ events, max_sessions default_limits <
    size (threads (run default_limits events (start_process (D := MemoryDisk) sample_world))) ∧
  sh_sessions (shared (run default_limits events (start_process sample_world))) = ∅.
Proof.
  destruct (admission_unbounded (D := MemoryDisk) default_limits sample_world) as [Hnone Hall];
    [vm_compute; discriminate|].
  destruct (Hall many_sockets) as [events E]. exists events. rewrite E. split; [|apply Hnone].
  unfold size. rewrite length_map. vm_compute. reflexivity.
Defined.
