(* ===== verification/Worker.v ===== *)
(** The worker client, [worker.hpp] and [worker.cpp]: one publisher process and its
    connection to the coordinator.

    [round_trip] sends one request frame and waits for one frame. Each operation is a round
    trip with its payload encoded and the answer decoded. The connected socket and the
    fresh boot are given: connecting is in [Loopback], and [AuthorityRegistry] draws the
    boot. *)

From Stdlib Require Import ZArith Lia Bool Strings.Byte.
From stdpp Require Import base list numbers strings.
From S2P Require Import Prelude Containers Base Codec Digest Lifecycle Constraint Candidate.
From S2P Require Import Evaluation Ordering ConstraintSet Authority Persistence Coordinator Protocol Snapshot Messages Net.

Open Scope string_scope.
Open Scope list_scope.
Open Scope Z_scope.

(** ** Attempt identities *)

Definition mix (value : Z) : Z :=
  let value := wrap 64 (value + 0x9e3779b97f4a7c15) in
  let value := wrap 64 (Z.lxor value (Z.shiftr value 30) * 0xbf58476d1ce4e5b9) in
  let value := wrap 64 (Z.lxor value (Z.shiftr value 27) * 0x94d049bb133111eb) in
  Z.lxor value (Z.shiftr value 31).

(** The identity of the [counter]-th attempt of a boot; never 0. *)
Definition attempt_id (boot counter : Z) : Z :=
  let value := mix (Z.lxor boot (wrap 64 (counter * golden))) in
  if value =? 0 then 1 else value.

(** ** [WorkerClient] *)

Record WorkerConfig := mkWorkerConfig {
  wc_publisher : Z;
  wc_requested_scopes : AuthorityScopeMask;
  wc_client_name : string;
  wc_boot : Z
}.

Record WorkerClient (S : Type) := mkWorker {
  wk_socket : TcpSocket (S := S);
  wk_limits : Limits;
  wk_boot : Z;
  wk_session : Z;
  wk_epoch : Z;
  wk_granted_scopes : AuthorityScopeMask;
  wk_publisher : Z;
  wk_attempt_counter : Z
}.
Arguments mkWorker {S} wk_socket wk_limits wk_boot wk_session wk_epoch wk_granted_scopes wk_publisher
  wk_attempt_counter.
Arguments wk_socket {S} _.
Arguments wk_limits {S} _.
Arguments wk_boot {S} _.
Arguments wk_session {S} _.
Arguments wk_epoch {S} _.
Arguments wk_granted_scopes {S} _.
Arguments wk_publisher {S} _.
Arguments wk_attempt_counter {S} _.

Definition rmap {A B} (f : A → B) (r : Result A) : Result B := rbind r (λ a, Success (f a)).

Section worker.
Context {S : Type} `{Sockets S}.

Notation Socket := (TcpSocket (S := S)).
Notation Client := (WorkerClient S).

Definition with_wire (s : Socket) (w : Client) : Client :=
  mkWorker s (wk_limits w) (wk_boot w) (wk_session w) (wk_epoch w) (wk_granted_scopes w)
    (wk_publisher w) (wk_attempt_counter w).
Definition next_attempt (w : Client) : Client :=
  mkWorker (wk_socket w) (wk_limits w) (wk_boot w) (wk_session w) (wk_epoch w) (wk_granted_scopes w)
    (wk_publisher w) (wrap 64 (wk_attempt_counter w + 1)).
Definition with_session (session : Z) (w : Client) : Client :=
  mkWorker (wk_socket w) (wk_limits w) (wk_boot w) session (wk_epoch w) (wk_granted_scopes w)
    (wk_publisher w) (wk_attempt_counter w).

Definition next_context (w : Client) : AuthorityContext * Client :=
  let w := next_attempt w in
  (mkAuthority (wk_epoch w) (wk_publisher w) (wk_boot w) (attempt_id (wk_boot w) (wk_attempt_counter w))
     (wk_attempt_counter w) (wk_session w) (wk_granted_scopes w), w).

(** ** Waiting for a frame *)

(** The size of [buffer]. *)
Definition response_bytes : Z := 65536.

(** The loop that reads until the assembler holds a frame; [closed] is the failure of a
    peer that closes. [None] is a loop that goes on. *)
Fixpoint await_loop (fuel : nat) (closed : string) (a : FrameAssembler) (s : Socket)
    : option (Result Frame) * Socket :=
  match fuel with
  | O => (None, s)
  | Datatypes.S fuel =>
      match pop a with
      | (Failure code detail, _) => (Some (Failure code detail), s)
      | (Success (Some frame), _) => (Some (Success frame), s)
      | (Success None, a) =>
          match recv_some response_bytes s with
          | (Failure code detail, s) => (Some (Failure code detail), s)
          | (Success [], s) => (Some (Failure ErrorCode.TransportFailure closed), s)
          | (Success chunk, s) =>
              match push chunk a with
              | (Failure code detail, _) => (Some (Failure code detail), s)
              | (Success _, a) => await_loop fuel closed a s
              end
          end
      end
  end.

(** A round either ends the loop or adds a byte at least to a buffer that is bounded. *)
Definition await_fuel (limits : Limits) : nat := Z.to_nat (max_frame_assembly_bytes limits + 2).

(** The [Internal] failure stands for a loop that does not end. *)
Definition await (closed : string) (limits : Limits) (s : Socket) : Result Frame * Socket :=
  match await_loop (await_fuel limits) closed (new_assembler limits) s with
  | (Some r, s) => (r, s)
  | (None, s) => (Failure ErrorCode.Internal "", s)
  end.

(** ** A round trip *)

Definition request_frame (m : MessageId.t) (payload : list byte) (w : Client) : Frame :=
  mkFrame (mkHeader kProtocolVersionValue m 0 0 (wk_epoch w) (wk_publisher w) (wk_boot w)
    (attempt_id (wk_boot w) (wk_attempt_counter w)) (wk_attempt_counter w) (wk_granted_scopes w)) payload.

(** What a response to the request [number] means. *)
Definition accept_response (limits : Limits) (number : Z) (response : Frame) : Result Frame :=
  if negb (fr_request (header response) =? number) then
    Failure ErrorCode.ProtocolViolation "response request identity does not match the request"
  else if eeqb (message (header response)) MessageId.ErrorReport then
    match (decode_error_report limits (open_reader (payload response))).1 with
    | None => Failure ErrorCode.Malformed "error report is malformed"
    | Some report => Failure (er_code report) (er_detail report)
    end
  else Success response.

Definition round_trip (m : MessageId.t) (payload : list byte) (w : Client) : Result Frame * Client :=
  if negb (is_valid (wk_session w)) then
    (Failure ErrorCode.Unauthorized "session is not established", w)
  else
    let w := next_attempt w in
    match encode_frame (request_frame m payload w) (wk_limits w) with
    | Failure code detail => (Failure code detail, w)
    | Success encoded =>
        match send_all encoded (wk_socket w) with
        | (Failure code detail, s) => (Failure code detail, with_wire s w)
        | (Success _, s) =>
            let '(response, s) := await "coordinator closed the connection" (wk_limits w) s in
            (rbind response (accept_response (wk_limits w) (wk_attempt_counter w)), with_wire s w)
        end
    end.

(** ** [connect] *)

Definition hello_request (config : WorkerConfig) (boot : Z) : Frame :=
  mkFrame (mkHeader kProtocolVersionValue MessageId.Hello 0 0 0 (wc_publisher config) boot 1 1
    (wc_requested_scopes config))
    (encode_hello (mkHello (wc_publisher config) boot (wc_requested_scopes config)
       (wc_client_name config)) []).

(** The session a hello acknowledgement opens. *)
Definition accept_hello (config : WorkerConfig) (limits : Limits) (boot : Z) (s : Socket)
    (response : Frame) : Result Client :=
  if negb (eeqb (message (header response)) MessageId.HelloAck) then
    Failure ErrorCode.ProtocolViolation
      "coordinator did not answer the handshake with a hello acknowledgement"
  else
    match (decode_hello_ack (open_reader (payload response))).1 with
    | None => Failure ErrorCode.Malformed "hello acknowledgement is malformed"
    | Some ack =>
        if negb (ack_accepted ack) then
          Failure ErrorCode.Unauthorized
            "default deny: the coordinator refused the publisher registration"
        else
          Success (mkWorker s limits boot (ack_session ack) (ack_epoch ack) (granted_scopes ack)
            (wc_publisher config) 0)
    end.

(** [fresh] is the boot [fresh_worker_boot] draws, [connected] the answer of
    [connect_loopback]. *)
Definition connect (config : WorkerConfig) (limits : Limits) (fresh : Z) (connected : Result S)
    : Result Client :=
  match validate_limits limits with
  | Some why => Failure ErrorCode.InvalidArgument why
  | None =>
    let boot := if is_valid (wc_boot config) then wc_boot config else fresh in
    let+ s := connected in
    let+ encoded := encode_frame (hello_request config boot) limits in
    match send_all encoded (Some s) with
    | (Failure code detail, _) => Failure code detail
    | (Success _, s) =>
        let '(response, s) :=
          await "coordinator closed the connection during the handshake" limits s in
        let+ frame := response in accept_hello config limits boot s frame
    end
  end.

(** ** The operations *)

(** A round trip, its answer decoded without regard to what follows. *)
Definition ask {A} (m : MessageId.t) (payload : list byte) (decode : reader A) (code : ErrorCode.t)
    (malformed : string) (w : Client) : Result A * Client :=
  let '(response, w) := round_trip m payload w in
  (let+ frame := response in
   match (decode (open_reader (Protocol.payload frame))).1 with
   | None => Failure code malformed
   | Some a => Success a
   end, w).

(** [ConstraintSet{}]. *)
Definition fresh_set : ConstraintSet :=
  mkSet 0 0 ConstraintSetState.Declared "" [] (mkRequirements 0 0 0 0 0 0 0 0)
    (mkRanking false false true PlannerCostModel.None CandidateTiebreak.PathIdAscending) zero_digest 0.

Definition with_ack (s : ConstraintSet) (ack : PublishConstraintSetAckPayload) : ConstraintSet :=
  mkSet (pa_set_id ack) (pa_generation ack) (cs_state s) (ConstraintSet.name s) (constraints s) (requirements s)
    (ranking s) (pa_digest ack) (declared_tick s).

Definition publish_constraint_set (s : ConstraintSet) (w : Client) : Result ConstraintSet * Client :=
  let '(ack, w) := ask MessageId.PublishConstraintSet (encode_constraint_set s []) decode_publish_ack
    ErrorCode.Malformed "publication acknowledgement is malformed" w in
  (rmap (with_ack s) ack, w).

Definition apply_lifecycle (set_id : Z) (event : LifecycleEvent.t) (w : Client)
    : Result ConstraintSet * Client :=
  let '(ack, w) := ask MessageId.ApplyLifecycle
    (encode_lifecycle_request (mkLifecycleRequest set_id event) []) decode_publish_ack
    ErrorCode.Malformed "lifecycle acknowledgement is malformed" w in
  (rmap (with_ack fresh_set) ack, w).

(** Whatever the coordinator did with the batch, [committed] is true here. *)
Definition evaluate (set_id : Z) (paths : list CandidatePath) (w : Client)
    : Result CommitOutcome * Client :=
  let '(ack, w) := ask MessageId.EvaluateCandidates
    (encode_evaluate_request (mkEvaluateRequest set_id 0 paths) [])
    (decode_evaluate_response (wk_limits w)) ErrorCode.Malformed "evaluation response is malformed" w in
  (rmap (λ ack, mkCommit (ack_batch ack) true ReasonCode.None 0 0) ack, w).

(** A report that names nothing is an answer of [NotFound], as a malformed one is. *)
Definition query {A} (m : MessageId.t) (set_id : Z) (decode : reader (option A)) (w : Client)
    : Result A * Client :=
  let '(report, w) := ask m (put_u64 set_id []) decode ErrorCode.NotFound
    "coordinator has no such constraint set" w in
  (let+ found := report in
   match found with
   | Some a => Success a
   | None => Failure ErrorCode.NotFound "coordinator has no such constraint set"
   end, w).

Definition query_definitions (set_id : Z) (w : Client) : Result DefinitionsSnapshot * Client :=
  query MessageId.QueryDefinitions set_id (decode_definitions_report (wk_limits w)) w.
Definition query_results (set_id : Z) (w : Client) : Result ResultsSnapshot * Client :=
  query MessageId.QueryResults set_id (decode_results_report (wk_limits w)) w.
Definition query_currentness (set_id : Z) (w : Client) : Result CurrentnessReport * Client :=
  query MessageId.QueryCurrentness set_id (decode_currentness_report (wk_limits w)) w.

Definition heartbeat (w : Client) : Status * Client :=
  let '(response, w) := round_trip MessageId.Heartbeat [] w in (rmap (λ _, ()) response, w).

Definition close (w : Client) : Client :=
  let w := if valid_socket (wk_socket w) then
      let w := (round_trip MessageId.Shutdown [] w).2 in with_wire (close_socket (wk_socket w)) w
    else w in
  with_session 0 w.
End worker.
