(* ===== verification/WorkerCorrect.v ===== *)
(** Properties of the worker client of [Worker.v]: attempts get identities of their own, a
    round trip ends whatever the peer sends and returns what the peer answered however the
    transport cuts it, a worker gets in exactly when the coordinator registers it, and a
    client and a server together answer a remote query as the coordinator answers it
    locally. *)

From Stdlib Require Import ZArith Lia Bool Strings.Byte.
From stdpp Require Import base list numbers strings gmap sets relations.
From S2P Require Import Prelude Containers Base Codec Digest Lifecycle Constraint Candidate.
From S2P Require Import Evaluation Ordering ConstraintSet Evaluator Authority Persistence Store.
From S2P Require Import Coordinator CoordinatorInvariant CoordinatorSystem CoordinatorCorrect.
From S2P Require Import Exact Protocol ProtocolCorrect Snapshot SnapshotCorrect Messages Net.
From S2P Require Import Server ServerCorrect Worker.

Open Scope string_scope.
Open Scope list_scope.
Open Scope Z_scope.

(** ** Lemmas: mixing *)

(** A number that is its own shift is 0. *)
Lemma shift_fixed k d : 0 <= d → 0 < k → Z.shiftr d k = d → d = 0.
Proof.
  intros Hd Hk E. rewrite Z.shiftr_div_pow2 in E by lia.
  assert (2 ^ 1 <= 2 ^ k) by (apply Z.pow_le_mono_r; lia).
  destruct (decide (d = 0)) as [->|Hn]; [done|]. pose proof (Z.div_lt d (2 ^ k)). lia.
Qed.

(** The xor of a number with its shift loses nothing. *)
Lemma xorshift_inj k a b :
  0 <= a → 0 <= b → 0 < k → Z.lxor a (Z.shiftr a k) = Z.lxor b (Z.shiftr b k) → a = b.
Proof.
  intros Ha Hb Hk E. apply Z.lxor_eq. apply (shift_fixed k); [by apply Z.lxor_nonneg|done|].
  apply Z.bits_inj'. intros n Hn. apply (f_equal (λ z, Z.testbit z n)) in E.
  rewrite !Z.lxor_spec, !Z.shiftr_spec in E by done. rewrite Z.shiftr_spec, !Z.lxor_spec by done.
  by destruct (Z.testbit a n), (Z.testbit b n), (Z.testbit a (n + k)), (Z.testbit b (n + k)).
Qed.

Lemma lxor_fits w a b : 0 <= w → fits w a → fits w b → fits w (Z.lxor a b).
Proof.
  intros Hw [Ha1 Ha2] [Hb1 Hb2]. assert (0 <= Z.lxor a b) as H0 by (by apply Z.lxor_nonneg).
  split; [done|]. destruct (decide (Z.lxor a b = 0)) as [->|Hn]; [by apply Z.pow_pos_nonneg|].
  apply Z.log2_lt_pow2; [lia|]. pose proof (Z.log2_lxor a b Ha1 Hb1).
  assert (0 < w) as Hpos.
  { destruct (decide (w = 0)) as [->|]; [|lia]. change (2 ^ 0) with 1 in *.
    assert (a = 0 ∧ b = 0) as [-> ->] by lia. done. }
  assert (∀ c, 0 <= c → c < 2 ^ w → Z.log2 c < w) as Hc.
  { intros c H1 H2. destruct (decide (c = 0)) as [->|]; [done|]. apply Z.log2_lt_pow2; lia. }
  pose proof (Hc a Ha1 Ha2). pose proof (Hc b Hb1 Hb2). lia.
Qed.

Lemma xorshift_fits w k a : 0 <= w → 0 <= k → fits w a → fits w (Z.lxor a (Z.shiftr a k)).
Proof.
  intros Hw Hk Ha. apply lxor_fits; [done|done|]. destruct Ha as [H1 H2]. split; [by apply Z.shiftr_nonneg|].
  rewrite Z.shiftr_div_pow2 by done. pose proof (Z.pow_pos_nonneg 2 k ltac:(lia) Hk).
  apply Z.le_lt_trans with a; [|done]. apply Z.div_le_upper_bound; [done|]. nia.
Qed.

(** Multiplication by a number with an inverse loses nothing of a word. *)
Lemma wrap_mul_inj w c inv a b :
  0 <= w → wrap w (c * inv) = wrap w 1 → fits w a → fits w b → wrap w (a * c) = wrap w (b * c) → a = b.
Proof.
  intros Hw Hc Ha Hb E. rewrite <- (wrap_small w a Ha), <- (wrap_small w b Hb).
  apply (f_equal (λ z, wrap w (z * inv))) in E. unfold wrap in *.
  assert (2 ^ w ≠ 0) as Hnz by (pose proof (Z.pow_pos_nonneg 2 w); lia).
  rewrite !Z.mul_mod_idemp_l, <- !Z.mul_assoc in E by done.
  rewrite <- (Z.mul_mod_idemp_r a), <- (Z.mul_mod_idemp_r b), Hc in E by done.
  by rewrite !Z.mul_mod_idemp_r, !Z.mul_1_r in E by done.
Qed.

Lemma wrap_add_inj w c a b : 0 <= w → fits w a → fits w b → wrap w (a + c) = wrap w (b + c) → a = b.
Proof.
  intros Hw Ha Hb E. rewrite <- (wrap_small w a Ha), <- (wrap_small w b Hb). unfold wrap in *.
  apply (f_equal (λ z, (z - c) mod 2 ^ w)) in E. rewrite !Zminus_mod_idemp_l in E.
  by rewrite !Z.add_simpl_r in E.
Qed.

Lemma mix_inj a b : fits 64 a → fits 64 b → mix a = mix b → a = b.
Proof.
  intros Ha Hb E. unfold mix in E. cbv zeta in E.
  assert (∀ z, fits 64 (wrap 64 z)) as Hw by (intros; by apply wrap_fits).
  apply xorshift_inj in E; [|apply Hw..|done].
  apply (wrap_mul_inj 64 _ 0x319642b2d24d8ec3) in E; [|done|done|by apply xorshift_fits..].
  apply xorshift_inj in E; [|apply Hw..|done].
  apply (wrap_mul_inj 64 _ 0x96de1b173f119089) in E; [|done|done|by apply xorshift_fits..].
  apply xorshift_inj in E; [|apply Hw..|done]. by apply wrap_add_inj in E.
Qed.

Lemma mix_fits a : fits 64 (mix a).
Proof. unfold mix. cbv zeta. apply xorshift_fits; [done|done|]. by apply wrap_fits. Qed.

Lemma lxor_inj_l a b c : Z.lxor a b = Z.lxor a c → b = c.
Proof.
  intros E. apply (f_equal (Z.lxor a)) in E.
  by rewrite <- !Z.lxor_assoc, Z.lxor_nilpotent, !Z.lxor_0_l in E.
Qed.

(** ** Lemmas: waiting for a frame *)

Section await.
Context {S : Type} `{Sockets S}.
Context (limits : Limits).

(** A loop that has ended does not depend on its fuel. *)
Lemma await_loop_more closed more fuel : ∀ a s r s',
  await_loop fuel closed a s = (Some r, s') → await_loop (fuel + more) closed a s = (Some r, s').
Proof.
  induction fuel as [|fuel IH]; intros a s r s'; cbn [await_loop Nat.add]; [done|].
  destruct (pop a) as [[[f|]|code text] a1]; [done| |done].
  destruct (recv_some _ s) as [[[|byte chunk]|code text] s1]; [done| |done].
  destruct (push _ a1) as [[u|code text] a2]; [by apply IH|done].
Qed.

(** The rounds that a buffer leaves. *)
Lemma await_loop_returns closed fuel : ∀ bs s,
  0 <= max_frame_assembly_bytes limits → size bs <= max_frame_assembly_bytes limits →
  max_frame_assembly_bytes limits - size bs + 1 < Z.of_nat fuel →
  ∃ r s', await_loop fuel closed (mkAssembler limits bs false) s = (Some r, s').
Proof.
  induction fuel as [|fuel IH]; intros bs s HM Hb Hf; [lia|]. cbn [await_loop].
  destruct (pop_answers limits bs) as [(f & rest & E)|[E|(code & text & E)]]; rewrite E; [by eauto| |by eauto].
  destruct (recv_some _ s) as [[[|byte chunk]|code text] s1]; [by eauto| |by eauto].
  unfold push. cbn [failed_ fa_limits buffer].
  destruct (_ <? _) eqn:El; [unfold fail_assembler; by eauto|].
  assert (0 < size (byte :: chunk)) by (unfold size; cbn [length]; lia).
  apply IH; [done| |]; rewrite size_app; lia.
Qed.

Lemma await_Some closed s :
  0 <= max_frame_assembly_bytes limits →
  ∃ r s', await_loop (await_fuel limits) closed (new_assembler limits) s = (Some r, s') ∧
    await closed limits s = (r, s').
Proof.
  intros HM. destruct (await_loop_returns closed (await_fuel limits) [] s HM) as (r & s' & E).
  - done.
  - unfold await_fuel. change (size []) with 0. lia.
  - exists r, s'. split; [exact E|]. unfold await, new_assembler. by rewrite E.
Qed.

(** Any fuel that ends the loop gives what [await] gives. *)
Lemma await_eq closed fuel s r s' :
  0 <= max_frame_assembly_bytes limits →
  await_loop fuel closed (new_assembler limits) s = (Some r, s') → await closed limits s = (r, s').
Proof.
  intros HM E. destruct (await_Some closed s HM) as (r1 & s1 & E1 & ->).
  apply (await_loop_more _ fuel) in E1. apply (await_loop_more _ (await_fuel limits)) in E.
  rewrite Nat.add_comm in E. congruence.
Qed.

(** What a socket delivers: the chunks of its next receives. *)
Fixpoint delivers (chunks : list (list byte)) (s : S) : Prop :=
  match chunks with
  | [] => True
  | chunk :: chunks =>
      chunk ≠ [] ∧ ∃ s', sys_recv response_bytes s = (Some chunk, s') ∧ delivers chunks s'
  end.

(** A chunk that fits beside one unfinished frame. *)
Definition chunk_fits (chunk : list byte) : Prop :=
  size chunk + frame_size (max_frame_bytes limits) <= max_frame_assembly_bytes limits + 1.

Lemma await_loop_frame (HL : limits_ok limits = true) closed chunks : ∀ bs s f rest fuel,
  0 <= max_frame_bytes limits → Forall chunk_fits chunks → delivers chunks s → wire_frame limits f →
  bs ++ concat chunks = frame_bytes f ++ rest → (length chunks < fuel)%nat →
  ∃ s', await_loop fuel closed (mkAssembler limits bs false) (Some s) = (Some (Success f), Some s').
Proof.
  induction chunks as [|chunk chunks IH]; intros bs s f rest fuel H0 Hc Hd Hw E Hfuel;
    (destruct fuel as [|fuel]; [cbn in Hfuel; lia|]); cbn [await_loop concat] in *.
  { rewrite app_nil_r in E. rewrite (proj2 (pop_frame limits bs f rest HL)) by done. by exists s. }
  destruct (pop_answers limits bs) as [(g & left_ & Ep)|[Ep|(code & text & Ep)]]; rewrite Ep.
  - apply pop_frame in Ep as [Hg ->]; [|done]. rewrite <- app_assoc in E.
    destruct (frame_prefix_free limits HL g f _ _ Hg Hw E : g = f ∧ _) as [-> _]. by exists s.
  - pose proof (pop_waits limits bs H0 Ep) as Hwait.
    destruct Hd as [Hne (s1 & Er & Hd)]. apply Forall_cons in Hc as [Hc1 Hc]. unfold chunk_fits in Hc1.
    unfold recv_some. change (response_bytes =? 0) with false.
    change (if 0x40000000 <? response_bytes then 0x40000000 else response_bytes) with response_bytes.
    cbv iota. rewrite Er. destruct chunk as [|byte chunk]; [done|].
    unfold push. cbn [failed_ fa_limits buffer]. destruct (_ <? _) eqn:El; [lia|].
    apply (IH _ _ f rest); try done; [by rewrite <- app_assoc|]. cbn in Hfuel. lia.
  - apply (pop_failure_extends _ _ (chunk ++ concat chunks)) in Ep.
    rewrite E, (proj2 (pop_frame limits _ f rest HL)) in Ep by done. done.
Qed.

Lemma await_frame (HL : limits_ok limits = true) closed chunks s f rest :
  0 <= max_frame_bytes limits → Forall chunk_fits chunks → delivers chunks s → wire_frame limits f →
  concat chunks = frame_bytes f ++ rest →
  ∃ s', await closed limits (Some s) = (Success f, Some s').
Proof.
  intros H0 Hc Hd Hw E.
  destruct (await_loop_frame HL closed chunks [] s f rest (Datatypes.S (length chunks)) H0 Hc Hd Hw E
    ltac:(lia)) as (s' & Ea).
  apply await_eq in Ea; [by exists s'|]. destruct (limits_ok_facts limits HL) as (_ & _ & _ & _ & ?). lia.
Qed.
End await.

(** ** Lemmas: a client and a server *)

Lemma reads_whole {A} (m : reader A) bs a : reads m bs a → (m (open_reader bs)).1 = Some a.
Proof. intros Hr. pose proof (reads_open _ _ _ [] Hr) as E. rewrite app_nil_r in E. by rewrite E. Qed.

Section linked.
Context {S D T : Type} `{Sockets S} `{FileSystemLaws D} `{SocketLaws T} `{!ReliableSockets T}.
Context (limits : Limits) (limits_valid : limits_ok limits = true) (bound : 0 <= max_frame_bytes limits).

(** A client whose identity, epoch and scopes fit the wire. *)
Record client_ok (w : WorkerClient S) : Prop := {
  cl_limits : wk_limits w = limits;
  cl_session : is_valid (wk_session w) = true;
  cl_epoch : generation_field (wk_epoch w);
  cl_ids : fits 64 (wk_publisher w) ∧ fits 64 (wk_boot w);
  cl_scopes : fits 32 (wk_granted_scopes w)
}.

(** The next request of a client, as it travels. *)
Definition wire_request (m : MessageId.t) (bytes : list byte) (w : WorkerClient S) : Frame :=
  let w := next_attempt w in
  mkFrame (mkHeader kProtocolVersionValue m 0 (size bytes) (wk_epoch w) (wk_publisher w) (wk_boot w)
    (attempt_id (wk_boot w) (wk_attempt_counter w)) (wk_attempt_counter w) (wk_granted_scopes w)) bytes.

(** The request reached the server, which handled it, and what the server sent for it
    comes back in [chunks]. *)
Record transported (now : Z * Z) (m : MessageId.t) (bytes : list byte) (w : WorkerClient S)
    (h h' : Host D T) (chunks : list (list byte)) : Prop := {
  tr_sent : ∃ s s1, wk_socket w = Some s ∧
    send_all (frame_bytes (wire_request m bytes w)) (Some s) = (success, Some s1) ∧ delivers chunks s1;
  tr_chunks : Forall (chunk_fits limits) chunks;
  tr_handled : (handle_frame limits now (wire_request m bytes w) h).2 = h';
  tr_replied : ∃ t t', socket h = Some t ∧ socket h' = Some t' ∧ sent t' = sent t ++ concat chunks
}.

Lemma request_wire m bytes w :
  client_ok w → m ≠ MessageId.Invalid → size bytes <= max_frame_bytes limits →
  wire_frame limits (wire_request m bytes w).
Proof.
  intros [_ _ He [Hp Hb] Hs] Hm Hsz. pose proof (size_nonneg bytes).
  pose proof (limits_ok_entry limits 15 _ limits_valid eq_refl) as Lf. cbn [snd] in Lf.
  assert (fits 64 (wrap 64 (wk_attempt_counter w + 1))) as Hc by (by apply wrap_fits).
  assert (∀ b c, fits 64 (attempt_id b c)) as Ha.
  { intros b c. unfold attempt_id. cbv zeta. pose proof (mix_fits (Z.lxor b (wrap 64 (c * golden)))).
    by destruct (_ =? 0). }
  split; [|done|done|done]. split; cbn; try done. unfold fits. lia.
Qed.

(** The version and the length of a header are set when the frame is encoded. *)
Lemma encode_stamped v v' l l' m fl e p b a r sc bytes L :
  encode_frame (mkFrame (mkHeader v m fl l e p b a r sc) bytes) L =
  encode_frame (mkFrame (mkHeader v' m fl l' e p b a r sc) bytes) L.
Proof. reflexivity. Qed.

(** The round trip takes the first frame that came back. *)
Lemma transported_round_trip now m bytes w h h' chunks f rest :
  client_ok w → m ≠ MessageId.Invalid → size bytes <= max_frame_bytes limits →
  transported now m bytes w h h' chunks → wire_frame limits f → concat chunks = frame_bytes f ++ rest →
  ∃ w', round_trip m bytes w = (accept_response limits (wk_attempt_counter (next_attempt w)) f, w') ∧
    wk_limits w' = limits.
Proof.
  intros Hw Hm Hsz [(s & s1 & Hs & Hsend & Hd) Hc _ _] Hf E. pose proof (request_wire m bytes w Hw Hm Hsz) as Hq.
  pose proof (encode_frame_wire limits _ limits_valid Hq) as He.
  assert (encode_frame (request_frame m bytes (next_attempt w)) (wk_limits w) =
    Success (frame_bytes (wire_request m bytes w))) as He'.
  { rewrite (cl_limits _ Hw), <- He. apply encode_stamped. }
  unfold round_trip. rewrite (cl_session _ Hw). cbn [negb]. cbv zeta.
  change (wk_limits (next_attempt w)) with (wk_limits w). rewrite He'.
  change (wk_socket (next_attempt w)) with (wk_socket w). rewrite Hs, Hsend, (cl_limits _ Hw).
  destruct (await_frame limits limits_valid "coordinator closed the connection" chunks s1 f rest)
    as (s' & Ea); [done..|].
  rewrite Ea. eexists. split; [done|]. apply Hw.
Qed.

(** The first reply that was not left out stands at the front of the bytes. *)
Lemma first_posted request (h : Host D T) replies :
  concat (map (posted limits request h) replies) ≠ [] →
  ∃ r rest, r ∈ replies ∧ size r.2 <= max_frame_bytes limits ∧
    concat (map (posted limits request h) replies) = frame_bytes (reply r.1 request r.2 h) ++ rest.
Proof.
  induction replies as [|r replies IH]; [done|]. cbn [map concat]. unfold posted at 1 3.
  destruct (size r.2 <=? _) eqn:E.
  - intros _. exists r, (concat (map (posted limits request h) replies)).
    split; [apply list_elem_of_here|]. split; [lia|done].
  - rewrite app_nil_l. intros Hne. destruct (IH Hne) as (r' & rest & Hin & Hsz & Er).
    exists r', rest. split; [by apply list_elem_of_further|done].
Qed.

(** *** Queries *)

(** The session the client believes in is the one of the connection. *)
Definition in_session (w : WorkerClient S) (h : Host D T) : Prop :=
  ss_registered (session_state h) = true ∧ ss_publisher (session_state h) = wk_publisher w ∧
  ss_boot (session_state h) = wk_boot w.

Lemma session_request now m bytes w h :
  in_session w h → m ≠ MessageId.Hello →
  handle_frame limits now (wire_request m bytes w) h =
    handle_registered limits now (wire_request m bytes w) h.
Proof.
  intros (Hr & Hp & Hb) Hm. unfold handle_frame. apply eeqb_neq in Hm.
  change (message (header (wire_request m bytes w))) with m. rewrite Hm, Hr. cbn [negb].
  unfold identity_matches. rewrite Hp, Hb. cbn [wire_request header fr_publisher fr_worker_boot].
  cbn [next_attempt wk_publisher wk_boot]. by rewrite !Z.eqb_refl.
Qed.

Lemma decode_set_id id : 0 < id < 2 ^ 64 → decode_all read_set_id (put_u64 id []) = Some id.
Proof.
  intros Hid. unfold decode_all.
  assert (reads read_set_id (put_u64 id []) id) as Hr.
  { unfold read_set_id. read_last; [apply reads_u64; unfold fits; lia|]. apply reads_guard; [lia|].
    apply reads_ret. }
  pose proof (reads_open _ _ _ [] Hr) as E. rewrite app_nil_r in E. rewrite E.
  unfold at_end. cbn [position data]. by rewrite Z.eqb_refl.
Qed.

(** A query is answered by its report. *)
Lemma transported_query now id answer malformed report w h h' chunks m :
  client_ok w → host_ok h → 0 < id < 2 ^ 64 → 8 <= max_frame_bytes limits → answer ≠ MessageId.Invalid →
  answer ≠ MessageId.ErrorReport → m ≠ MessageId.Invalid →
  handle_frame limits now (wire_request m (put_u64 id []) w) h =
    handle_query limits malformed answer report (wire_request m (put_u64 id []) w) h →
  size (report id (impl (coordinator h))) <= max_frame_bytes limits →
  transported now m (put_u64 id []) w h h' chunks →
  ∃ w' f, round_trip m (put_u64 id []) w = (Success f, w') ∧ payload f = report id (impl (coordinator h)).
Proof.
  intros Hw Hh Hid H8 Ha He Hm Hhandle Hsz Ht. set (q := wire_request m (put_u64 id []) w) in *.
  assert (size (put_u64 id []) <= max_frame_bytes limits) as Hsz8 by (by rewrite put_u64_bytes, le_bytes_size).
  pose proof (request_wire m (put_u64 id []) w Hw Hm Hsz8) as Hq. fold q in Hq.
  destruct (request_fits limits q Hq) as [Hattempt Hrequest].
  pose proof (tr_handled _ _ _ _ _ _ _ Ht) as Eh. fold q in Eh. rewrite Hhandle in Eh.
  unfold handle_query in Eh. change (payload q) with (put_u64 id []) in Eh.
  rewrite decode_set_id in Eh by done. unfold Server.answer in Eh. cbn [snd] in Eh.
  destruct (tr_replied _ _ _ _ _ _ _ Ht) as (t & t' & Hsock & Hsock' & Hsent).
  set (r := report id (impl (coordinator h))) in *.
  destruct (send_frame_posts limits limits_valid answer (header q) r h t Hh Hattempt Hrequest Ha Hsock)
    as (t2 & E2 & Hs2).
  rewrite E2 in Eh. subst h'. cbn [with_socket socket] in Hsock'. injection Hsock' as <-.
  rewrite Hs2 in Hsent. apply app_inv_head in Hsent. unfold posted in Hsent. cbn [fst snd] in Hsent.
  destruct (size r <=? _) eqn:El; [|lia].
  pose proof (reply_wire limits limits_valid answer (header q) r h Hh Hattempt Hrequest Ha Hsz) as Hreply.
  destruct (transported_round_trip now m _ w h _ chunks (reply answer (header q) r h) [] Hw Hm Hsz8 Ht Hreply)
    as (w' & Ert & _); [by rewrite app_nil_r|].
  exists w', (reply answer (header q) r h). split; [|done]. rewrite Ert. unfold accept_response.
  change (fr_request (header (reply answer (header q) r h))) with (wk_attempt_counter (next_attempt w)).
  rewrite Z.eqb_refl. cbn [negb]. change (message (header (reply answer (header q) r h))) with answer.
  apply eeqb_neq in He. by rewrite He.
Qed.

(** *** The handshake *)

(** The hello of a worker, as it travels. *)
Definition hello_of (config : WorkerConfig) (boot : Z) : HelloPayload :=
  mkHello (wc_publisher config) boot (wc_requested_scopes config) (wc_client_name config).
Definition hello_on_wire (config : WorkerConfig) (boot : Z) : Frame :=
  let bytes := encode_hello (hello_of config boot) [] in
  mkFrame (mkHeader kProtocolVersionValue MessageId.Hello 0 (size bytes) 0 (wc_publisher config) boot
    1 1 (wc_requested_scopes config)) bytes.

(** The hello of a worker on the socket [s] reached the server, which handled it, and what
    the server sent for it comes back in [chunks]. *)
Record introduced (now : Z * Z) (config : WorkerConfig) (boot : Z) (s : S) (h h' : Host D T)
    (chunks : list (list byte)) : Prop := {
  in_hello : wire_hello limits (hello_of config boot) ∧
    size (encode_hello (hello_of config boot) []) <= max_frame_bytes limits;
  in_sent : ∃ s1, send_all (frame_bytes (hello_on_wire config boot)) (Some s) = (success, Some s1) ∧
    delivers chunks s1;
  in_chunks : Forall (chunk_fits limits) chunks;
  in_handled : (handle_frame limits now (hello_on_wire config boot) h).2 = h';
  in_replied : ∃ t t', socket h = Some t ∧ socket h' = Some t' ∧ sent t' = sent t ++ concat chunks
}.

(** What the coordinator answers to the registration of a hello. *)
Definition registration_of (now : Z * Z) (config : WorkerConfig) (boot : Z) (h : Host D T)
    : Result PublisherRegistration * World D :=
  let session := wrap 64 (next_session h + 1) in
  Coordinator.register_publisher (mkAuthority (epoch h) (wc_publisher config) boot 1 1 session 0)
    (wc_publisher config) boot (wc_requested_scopes config) session now.1 (coordinator h).

Lemma hello_on_wire_wire config boot :
  wire_hello limits (hello_of config boot) →
  size (encode_hello (hello_of config boot) []) <= max_frame_bytes limits →
  wire_frame limits (hello_on_wire config boot).
Proof.
  intros [Hp Hb Hs _]. unfold hello_on_wire. cbn [hello_of hello_publisher hello_worker_boot requested_scopes] in *.
  generalize (encode_hello (hello_of config boot) []). intros bytes Hsz. pose proof (size_nonneg bytes).
  pose proof (limits_ok_entry limits 15 _ limits_valid eq_refl) as Lf. cbn [snd] in Lf.
  split; [|done|done|done]. split; cbn; try done; [unfold fits; lia|]. split_and!; unfold fits; lia.
Qed.

Lemma hello_read config boot :
  wire_hello limits (hello_of config boot) →
  decode_all (decode_hello limits) (encode_hello (hello_of config boot) []) = Some (hello_of config boot).
Proof.
  intros Hw. unfold decode_all. pose proof (reads_open _ _ _ [] (reads_hello limits _ Hw)) as E.
  rewrite app_nil_r in E. rewrite E. unfold at_end. cbn [position data]. by rewrite Z.eqb_refl.
Qed.

(** The server's side: the coordinator's answer, and the session it opens. *)
Lemma hello_effect now config boot h :
  wire_hello limits (hello_of config boot) →
  let h' := (handle_frame limits now (hello_on_wire config boot) h).2 in
  let answer := registration_of now config boot h in
  coordinator h' = answer.2 ∧
  session_state h' =
    match answer.1 with
    | Success r => mkSession (wrap 64 (next_session h + 1)) (wc_publisher config) boot (rg_scopes r) true
    | Failure _ _ => session_state h
    end.
Proof.
  intros Hw. unfold handle_frame. change (eeqb (message (header (hello_on_wire config boot))) MessageId.Hello)
    with true. cbv iota. unfold handle_hello. change (payload (hello_on_wire config boot)) with
    (encode_hello (hello_of config boot) []). rewrite (hello_read config boot Hw). cbv zeta.
  destruct (call _ _) as [r g] eqn:E. apply call_spec in E as (Ew & Hst & _).
  unfold registration_of. cbv zeta. change (coordinator (take_session h)) with (coordinator h) in Ew.
  match type of Ew with ?x = _ => match goal with |- context [Coordinator.register_publisher ?a ?b ?c ?d ?e ?f ?g] =>
    change (Coordinator.register_publisher a b c d e f g) with x end end.
  rewrite Ew. cbn [fst snd]. destruct r as [registered|code detail].
  - destruct (send_frame limits MessageId.HelloAck _ _ _) as [x g2] eqn:E2. cbn [snd].
    match type of E2 with send_frame ?l ?m ?q ?b ?g1 = _ =>
      pose proof (send_frame_coordinator l m q b g1) as Hc; pose proof (send_frame_state l m q b g1) as Hs end.
    rewrite E2 in Hc, Hs. cbn [snd] in Hc, Hs. by rewrite Hc, Hs.
  - unfold Server.answer, send_error. cbn [snd]. by rewrite !send_frame_coordinator, !send_frame_state, Hst.
Qed.

(** The replies to a request that is heard follow the coordinator's verdict. *)
Lemma replies_success now f (h : Host D T) replies body :
  replies_to limits now f h replies → heard f h = true → verdict limits now f h = Some (Success body) →
  replies = [(acknowledgement (message (header f)), body)].
Proof.
  intros [reason detail [Hx|Hx]|body' _ Hx|code reason detail _ Hx] Hd Hv; rewrite ?Hd in Hx; rewrite ?Hv in Hx;
    try done. by injection Hx as <-.
Qed.

Lemma replies_refused now f (h : Host D T) replies code detail :
  replies_to limits now f h replies → heard f h = true → verdict limits now f h = Some (Failure code detail) →
  ∃ reason, replies = (if eeqb (message (header f)) MessageId.Hello then [refused_ack h] else []) ++
    [error_reply limits code reason detail].
Proof.
  intros [reason text [Hx|Hx]|body' _ Hx|code' reason text _ Hx] Hd Hv; rewrite ?Hd in Hx; rewrite ?Hv in Hx;
    try done. injection Hx as <- <-. by exists reason.
Qed.

(** The server's side: the acknowledgement stands at the front of the bytes. *)
Lemma hello_acknowledged now config boot s h h' chunks :
  host_ok h → 24 <= max_frame_bytes limits → introduced now config boot s h h' chunks →
  ∃ rest,
    let ack := match (registration_of now config boot h).1 with
      | Success r => mkHelloAck (epoch h) (wrap 64 (next_session h + 1)) (rg_scopes r) kProtocolVersionValue true
      | Failure _ _ => mkHelloAck (epoch h) (wrap 64 (next_session h + 1)) 0 kProtocolVersionValue false
      end in
    let f := reply MessageId.HelloAck (header (hello_on_wire config boot)) (encode_hello_ack ack []) h' in
    wire_frame limits f ∧ concat chunks = frame_bytes f ++ rest.
Proof.
  intros Hh Hm [[Hw Hsz] _ _ Hhandle (t & t' & Hs & Hs' & Hsent)].
  pose proof (hello_on_wire_wire config boot Hw Hsz) as Hf. destruct (request_fits limits _ Hf) as [Ha Hr].
  destruct (handle_frame limits now (hello_on_wire config boot) h) as [go h1] eqn:E. cbn [snd] in Hhandle. subst h1.
  destruct (handle_frame_answered limits limits_valid _ Hf now h h' go Hh E) as (replies & [Hok Hp] & Hre).
  destruct (Hp t Hs) as (t2 & E2 & Hsent2). rewrite Hs' in E2. injection E2 as <-.
  rewrite Hsent2 in Hsent. apply app_inv_head in Hsent. rewrite <- Hsent.
  assert (heard (hello_on_wire config boot) h = true) as Hd by done.
  assert (verdict limits now (hello_on_wire config boot) h = Some
    match (registration_of now config boot h).1 with
    | Success r => Success (encode_hello_ack (mkHelloAck (epoch h) (wrap 64 (next_session h + 1)) (rg_scopes r)
        kProtocolVersionValue true) [])
    | Failure code detail => Failure code detail
    end) as Hv.
  { unfold verdict. change (message (header (hello_on_wire config boot))) with MessageId.Hello. cbv zeta iota.
    change (payload (hello_on_wire config boot)) with (encode_hello (hello_of config boot) []).
    by rewrite (hello_read config boot Hw). }
  assert (∀ ack, wire_frame limits (reply MessageId.HelloAck (header (hello_on_wire config boot))
    (encode_hello_ack ack []) h')) as Hwire by (intros ack; by apply reply_wire; rewrite ?hello_ack_size).
  destruct (registration_of now config boot h).1 as [r|code detail]; cbv zeta.
  - eexists. split; [by apply Hwire|]. rewrite (replies_success _ _ _ _ _ Hre Hd Hv). cbn [map concat]. unfold posted. cbn [fst snd].
    rewrite hello_ack_size. destruct (24 <=? _) eqn:El; [reflexivity|lia].
  - destruct (replies_refused _ _ _ _ _ _ Hre Hd Hv) as [reason ->].
    eexists. split; [by apply Hwire|].
    change (eeqb (message (header (hello_on_wire config boot))) MessageId.Hello) with true.
    cbv iota. cbn [app map concat]. unfold posted at 1. unfold refused_ack. cbn [fst snd].
    rewrite hello_ack_size. destruct (24 <=? _) eqn:El; [reflexivity|lia].
Qed.

Lemma hello_ack_wire epoch_ session scopes accepted :
  generation_field epoch_ → fits 32 scopes →
  wire_hello_ack (mkHelloAck epoch_ (wrap 64 session) scopes kProtocolVersionValue accepted).
Proof. intros He Hs. split; [done|by apply wrap_fits|done|done]. Qed.

(** A worker gets in exactly when the coordinator registers its publisher. *)
Lemma handshake now config fresh s h h' chunks :
  let boot := if is_valid (wc_boot config) then wc_boot config else fresh in
  host_ok h → 24 <= max_frame_bytes limits → introduced now config boot s h h' chunks →
  match (registration_of now config boot h).1 with
  | Failure _ _ => connect config limits fresh (Success s) = Failure ErrorCode.Unauthorized
      "default deny: the coordinator refused the publisher registration"
  | Success r => ∃ s', connect config limits fresh (Success s) = Success (mkWorker (Some s') limits boot
      (wrap 64 (next_session h + 1)) (epoch h) (rg_scopes r) (wc_publisher config) 0)
  end.
Proof.
  intros boot Hh Hm Hi. destruct (hello_acknowledged now config boot s h h' chunks Hh Hm Hi) as (rest & Hf & Ec).
  destruct Hi as [[Hw Hsz] (s1 & Hsend & Hd) Hc _ _].
  unfold connect. pose proof limits_valid as HL. unfold limits_ok in HL.
  destruct (validate_limits limits) as [why|]; [done|]. fold boot. cbn [rbind].
  assert (encode_frame (hello_request config boot) limits = Success (frame_bytes (hello_on_wire config boot))) as ->.
  { rewrite <- (encode_frame_wire limits _ limits_valid (hello_on_wire_wire config boot Hw Hsz)).
    apply encode_stamped. }
  cbn [rbind]. rewrite Hsend.
  destruct (await_frame limits limits_valid
    "coordinator closed the connection during the handshake" chunks s1 _ rest ltac:(lia) Hc Hd Hf Ec) as (s' & ->).
  cbn [rbind]. unfold accept_hello. cbn [reply header message payload eeqb].
  destruct Hh as [_ He _].
  destruct (registration_of now config boot h) as [[r|code detail] w] eqn:Er; cbn [fst].
  - pose proof (registered_scopes _ _ _ _ _ _ _ _ _ Er) as [granted Hg].
    rewrite (reads_whole _ _ _ (reads_hello_ack _ (hello_ack_wire _ _ (rg_scopes r) true He ltac:(rewrite Hg;
      by apply land_fits, Hw)))). by exists s'.
  - by rewrite (reads_whole _ _ _ (reads_hello_ack _ (hello_ack_wire _ _ 0 false He ltac:(done)))).
Qed.

(** A fenced boot is not registered. *)
Lemma fenced_not_registered now config boot (h : Host D T) :
  is_boot_fenced boot (im_authority (impl (coordinator h))) = true →
  ok (registration_of now config boot h).1 = false.
Proof.
  intros Hf. unfold registration_of, Coordinator.register_publisher, get, mbind, op_bind. cbv beta iota zeta.
  destruct (_ || _); [done|]. destruct (find_grant _ _) as [granted|]; [|done]. destruct (_ =? 0); [done|].
  unfold Authority.register_publisher. cbn [rg_publisher rg_boot rg_session rg_registered_at rg_scopes].
  rewrite Hf. by repeat destruct (negb _ || _) || destruct (negb _).
Qed.
End linked.

(** ** Properties *)

(** Attempts have identities of their own. The attempt identities of a boot are never 0
    and fit a word; two attempts of one boot have the same identity only when they are the
    same attempt, or when both got the identity 1, which stands for 0 as well. *)
Theorem attempts_distinct boot c d :
  fits 64 boot → fits 64 c → fits 64 d →
  attempt_id boot c ≠ 0 ∧ fits 64 (attempt_id boot c) ∧
  (attempt_id boot c = attempt_id boot d → c = d ∨ attempt_id boot c = 1).
Proof.
  intros Hb Hc Hd. unfold attempt_id. cbv zeta.
  assert (∀ x, fits 64 (Z.lxor boot (wrap 64 (x * golden)))) as Hf
    by (intros x; apply lxor_fits; [done|done|by apply wrap_fits]).
  pose proof (mix_fits (Z.lxor boot (wrap 64 (c * golden)))) as Hm.
  split_and!; [destruct (_ =? 0) eqn:E; lia|by destruct (_ =? 0)|].
  destruct (mix (Z.lxor boot (wrap 64 (c * golden))) =? 0) eqn:E1; [by right|].
  destruct (mix (Z.lxor boot (wrap 64 (d * golden))) =? 0) eqn:E2; [by right|].
  intros E%mix_inj; [|apply Hf..]. left. apply lxor_inj_l in E.
  by apply (wrap_mul_inj 64 _ 0xf1de83e19937733d) in E.
Qed.

(** C28: Waiting ends. Whatever bytes the peer sends and however the transport cuts them,
    the loop that waits for a frame ends within [max_frame_assembly_bytes + 2] rounds, and
    more rounds would not change its answer: a frame, or a failure. *)
Theorem await_terminates {S} `{Sockets S} limits closed (s : TcpSocket (S := S)) more :
  0 <= max_frame_assembly_bytes limits →
  ∃ r s', await closed limits s = (r, s') ∧
    await_loop (await_fuel limits + more) closed (new_assembler limits) s = (Some r, s').
Proof.
  intros HM. destruct (await_Some limits closed s HM) as (r & s' & E & Ea). exists r, s'.
  split; [done|]. by apply await_loop_more.
Qed.

(** A round trip returns what the peer answered. When the request was sent and the
    bytes the socket delivers begin with a frame, in any chunks that fit beside one
    unfinished frame, the round trip takes that frame: an error report becomes its
    failure, a frame for another request a protocol violation, and any other frame is
    returned. *)
Theorem round_trip_answer {S} `{Sockets S} (w : WorkerClient S) m bytes encoded s s1 chunks f rest :
  let limits := wk_limits w in
  limits_ok limits = true → 0 <= max_frame_bytes limits → is_valid (wk_session w) = true →
  wk_socket w = Some s → encode_frame (request_frame m bytes (next_attempt w)) limits = Success encoded →
  send_all encoded (Some s) = (success, Some s1) → delivers chunks s1 →
  Forall (chunk_fits limits) chunks → wire_frame limits f → concat chunks = frame_bytes f ++ rest →
  ∃ s', round_trip m bytes w =
    (accept_response limits (wk_attempt_counter (next_attempt w)) f, with_wire (Some s') (next_attempt w)).
Proof.
  intros limits HL H0 Hs Hsock He Hsend Hd Hc Hw E. unfold round_trip. rewrite Hs. cbn [negb]. cbv zeta.
  change (wk_limits (next_attempt w)) with limits. rewrite He.
  change (wk_socket (next_attempt w)) with (wk_socket w). rewrite Hsock, Hsend.
  destruct (await_frame limits HL "coordinator closed the connection" chunks s1 f rest)
    as (s' & Ea); [done..|].
  exists s'. by rewrite Ea.
Qed.

(** A client hears the server. When the server's reply bytes for a client's request
    come back, in any chunks, the round trip is over with one of the server's replies to
    that request: it fails with the code and the detail of the error report, or returns
    the acknowledgement of its message. It is never taken for the answer to another
    request. *)
Theorem request_answered {S D T : Type} `{Sockets S} `{FileSystemLaws D} `{SocketLaws T}
    `{!ReliableSockets T} limits now m bytes (w : WorkerClient S) (h h' : Host D T) chunks :
  limits_ok limits = true → 0 <= max_frame_bytes limits → client_ok limits w → host_ok h →
  m ≠ MessageId.Invalid → size bytes <= max_frame_bytes limits →
  transported limits now m bytes w h h' chunks → concat chunks ≠ [] →
  ∃ w' answered body, (answered = MessageId.ErrorReport ∨ answered = acknowledgement m) ∧
    round_trip m bytes w =
      (if eeqb answered MessageId.ErrorReport then
         match (decode_error_report limits (open_reader body)).1 with
         | None => Failure ErrorCode.Malformed "error report is malformed"
         | Some report => Failure (er_code report) (er_detail report)
         end
       else Success (reply answered (header (wire_request m bytes w)) body h'), w').
Proof.
  intros HL H0' Hw Hh Hm Hsz Ht Hne. pose proof (request_wire limits HL m bytes w Hw Hm Hsz) as Hq.
  destruct (handle_frame limits now (wire_request m bytes w) h) as [go h1] eqn:E.
  destruct (handle_frame_answered limits HL _ Hq now h h1 go Hh E) as (replies & [Hok Hp] & Hk%replies_answer_to).
  pose proof (tr_handled _ _ _ _ _ _ _ _ Ht) as Eh. rewrite E in Eh. cbn [snd] in Eh. subst h1.
  destruct (tr_replied _ _ _ _ _ _ _ _ Ht) as (t & t' & Hs & Hs' & Hsent).
  destruct (Hp t Hs) as (t2 & Et & Hsent2). rewrite Hs' in Et. injection Et as <-.
  rewrite Hsent2 in Hsent. apply app_inv_head in Hsent. rewrite <- Hsent in Hne.
  destruct (first_posted limits _ _ _ Hne) as ([m' body] & rest & Hin & Hbody & Er). cbn [fst snd] in *.
  rewrite Forall_forall in Hk. destruct (Hk _ Hin) as [Hans Hv]. cbn [fst] in Hans, Hv.
  destruct (request_fits limits _ Hq) as [Ha Hr].
  pose proof (reply_wire limits HL m' _ body h' Hok Ha Hr Hv Hbody) as Hf. rewrite Hsent in Er.
  destruct (transported_round_trip limits HL H0' now m bytes w h h' chunks _ rest Hw Hm Hsz Ht Hf Er)
    as (w' & Ert & _).
  exists w', m', body. split; [done|]. rewrite Ert. unfold accept_response.
  change (fr_request (header (reply m' (header (wire_request m bytes w)) body h')))
    with (wk_attempt_counter (next_attempt w)). by rewrite Z.eqb_refl.
Qed.

(** The failure of a query that names nothing. *)
Definition found_or_not {A} (r : Result A) : Result A :=
  match r with
  | Success a => Success a
  | Failure _ _ => Failure ErrorCode.NotFound "coordinator has no such constraint set"
  end.

(** C10: Remote queries agree with local ones. A client in session that asks for the
    definitions, the results or the currentness of a set gets exactly the answer the
    coordinator gives locally at that moment, and [NotFound] when the coordinator has no
    such set. The client and the server work under the same limits, whose frame bound is 8
    bytes or more; the request reaches the server, and the reply comes back in chunks of
    any sizes that leave room in the client's assembler. An answer is within the widths of
    its wire format and its report within the frame bound, and no path has two results in
    a results answer. *)
Theorem remote_queries_agree {S D T : Type} `{Sockets S} `{FileSystemLaws D} `{SocketLaws T}
    `{!ReliableSockets T} limits now id (w : WorkerClient S) (h h' : Host D T) chunks :
  limits_ok limits = true → 8 <= max_frame_bytes limits → client_ok limits w → host_ok h →
  in_session w h → 0 < id < 2 ^ 64 →
  let i := impl (coordinator h) in
  (transported limits now MessageId.QueryDefinitions (put_u64 id []) w h h' chunks →
   (∀ d, Snapshot.query_definitions id i = Success d → wire_definitions limits d) →
   size (definitions_report id i) <= max_frame_bytes limits →
   (Worker.query_definitions id w).1 = found_or_not (Snapshot.query_definitions id i)) ∧
  (transported limits now MessageId.QueryResults (put_u64 id []) w h h' chunks →
   (∀ s, Snapshot.query_results id i = Success s →
      wire_results limits s ∧ paths_ascend None (rs_entries s) = true) →
   size (results_report id i) <= max_frame_bytes limits →
   (Worker.query_results id w).1 = found_or_not (Snapshot.query_results id i)) ∧
  (transported limits now MessageId.QueryCurrentness (put_u64 id []) w h h' chunks →
   (∀ r, currentness id i = Success r → wire_report r) →
   size (currentness_report id i) <= max_frame_bytes limits →
   (Worker.query_currentness id w).1 = found_or_not (currentness id i)).
Proof.
  intros HL H8 Hw Hh Hin Hid i.
  assert (∀ {A} m answer malformed (r : Result A) (report : Z → Impl → list byte) (decode : reader (option A)),
    answer ≠ MessageId.Invalid → answer ≠ MessageId.ErrorReport → m ≠ MessageId.Invalid → m ≠ MessageId.Hello →
    handle_registered limits now (wire_request m (put_u64 id []) w) h =
      handle_query limits malformed answer report (wire_request m (put_u64 id []) w) h →
    transported limits now m (put_u64 id []) w h h' chunks →
    size (report id i) <= max_frame_bytes limits →
    (decode (open_reader (report id i))).1 = Some (found r) →
    (Worker.query m id decode w).1 = found_or_not r) as Hquery.
  { intros A m answer malformed r report decode Ha He Hm Hm' Hhandle Ht Hsz Hdec.
    rewrite <- (session_request limits now m _ w h Hin Hm') in Hhandle.
    destruct (transported_query limits HL ltac:(lia) now id answer malformed report w h h' chunks m)
      as (w' & f & Ert & Ef); try done.
    unfold Worker.query, ask. rewrite Ert. cbn [rbind]. rewrite Ef. subst i. rewrite Hdec.
    by destruct r. }
  split_and!; intros Ht Hwire Hsz.
  - apply (Hquery _ _ MessageId.DefinitionsReport "definitions query payload is malformed" _
      definitions_report); try done.
    rewrite (cl_limits _ _ Hw). apply reads_whole, reads_optional; [apply _|]. intros d Hd. apply reads_definitions_snapshot; [done|].
    apply Hwire. destruct (Snapshot.query_definitions _ _); [|done]. by injection Hd as ->.
  - apply (Hquery _ _ MessageId.ResultsReport "results query payload is malformed" _ results_report);
      try done.
    rewrite (cl_limits _ _ Hw). apply reads_whole, reads_optional; [apply _|]. intros s Hs. destruct (Hwire s) as [W1 W2].
    { destruct (Snapshot.query_results _ _); [|done]. by injection Hs as ->. }
    by apply (decode_results limits s HL W1).
  - apply (Hquery _ _ MessageId.CurrentnessReport "currentness query payload is malformed" _
      currentness_report); try done.
    apply reads_whole, reads_optional; [apply _|]. intros r Hr. apply reads_report, Hwire.
    destruct (currentness _ _); [|done]. by injection Hr as ->.
Qed.

(** ** Witnesses *)

Lemma attempts_distinct_witness : attempt_id 20 1 ≠ 0 ∧ attempt_id 20 1 ≠ attempt_id 20 2.
Proof.
  destruct (attempts_distinct 20 1 2) as (H1 & _ & H3);
    [apply (bool_decide_unpack _); vm_compute; exact I..|].
  split; [exact H1|]. intros E. destruct (H3 E) as [E'|E']; revert E'; vm_compute; discriminate.
Defined.

(** A peer that sends something else than frames. *)
Definition noise : TcpSocket := Some (mkMemorySocket [] 9 [repeat x07 60; repeat x07 200]).

Lemma await_terminates_witness :
  ok (await "closed" default_limits noise).1 = false ∧
  ∃ r s', await "closed" default_limits noise = (r, s') ∧
    await_loop (await_fuel default_limits + 5) "closed" (new_assembler default_limits) noise = (Some r, s').
Proof.
  split; [vm_compute; reflexivity|].
  apply (await_terminates default_limits "closed" noise 5). vm_compute. discriminate.
Defined.

(** A coordinator that holds the sample set, the session of publisher 7, and its client. *)
Definition session_host : Host MemoryDisk MemorySocket :=
  mkHost (world activated_system) (Some (mkMemorySocket [] 1000 [])) 101 1
    (mkSession 101 7 20 127 true) true.

Definition sample_client (chunks : list (list byte)) : WorkerClient MemorySocket :=
  mkWorker (Some (mkMemorySocket [] 65536 chunks)) default_limits 20 101 1 127 7 0.

Definition sample_query : Frame :=
  wire_request MessageId.QueryDefinitions (put_u64 7 []) (sample_client []).
Definition queried_host : Host MemoryDisk MemorySocket := Eval vm_compute in
  (handle_frame default_limits (50, 51) sample_query session_host).2.
Definition received (s : TcpSocket) : list byte :=
  match s with Some s => ms_sent s | None => [] end.
Definition sample_answer : list byte := Eval vm_compute in received (socket queried_host).
Definition sample_chunks : list (list byte) := [take 30 sample_answer; drop 30 sample_answer].

Lemma sample_query_any chunks :
  wire_request MessageId.QueryDefinitions (put_u64 7 []) (sample_client chunks) = sample_query.
Proof. reflexivity. Qed.

Lemma session_host_ok : host_ok session_host.
Proof.
  split.
  - pose proof (sample_ok activated) as Hok. rewrite sample_activated in Hok. destruct Hok as [H1 H2 _].
    split; [exact H1|exact H2|constructor].
  - assert (epoch session_host = 1) as -> by (vm_compute; reflexivity). done.
  - by split_and!.
Qed.

(** The call that answers the query, computed once. *)
Lemma queried_answer : (handle_frame default_limits (50, 51) sample_query session_host).2 = queried_host.
Proof. vm_cast_no_check (eq_refl queried_host). Qed.

#[local] Opaque queried_host sample_answer.

Lemma sample_client_ok chunks : client_ok default_limits (sample_client chunks).
Proof. split; [reflexivity|reflexivity| |split|]; (split; [discriminate|reflexivity]). Qed.

Lemma sample_transported :
  transported default_limits (50, 51) MessageId.QueryDefinitions (put_u64 7 []) (sample_client sample_chunks)
    session_host queried_host sample_chunks.
Proof.
  split; try rewrite sample_query_any.
  - exists (mkMemorySocket [] 65536 sample_chunks),
      (mkMemorySocket (frame_bytes sample_query) 65536 sample_chunks).
    split; [reflexivity|]. split; [vm_compute; reflexivity|]. cbn [delivers sample_chunks].
    split; [vm_compute; discriminate|]. eexists. split; [vm_compute; reflexivity|].
    split; [vm_compute; discriminate|]. eexists. split; [vm_compute; reflexivity|]. exact I.
  - repeat constructor; unfold chunk_fits; vm_compute; discriminate.
  - exact queried_answer.
  - exists (mkMemorySocket [] 1000 []), (mkMemorySocket sample_answer 1000 []).
    split; [reflexivity|]. split; vm_compute; reflexivity.
Qed.

(** The set the client asks for, as the coordinator holds it. *)
Definition active_set : ConstraintSet :=
  let s := canonical_form sample_set in
  mkSet 7 1 ConstraintSetState.Active (ConstraintSet.name s) (constraints s) (requirements s) (ranking s)
    (cs_digest s) 8.

Lemma active_set_wire : wire_set active_set.
Proof. pose proof sample_form_wire as [H1 H2 H3 H4 H5 H6]. by split. Qed.

Lemma session_host_set : find_set 7 (im_sets (impl (coordinator session_host))) = Some active_set.
Proof. vm_compute. reflexivity. Qed.

Definition sample_reply : Frame := Eval vm_compute in
  reply MessageId.DefinitionsReport (header sample_query)
    (definitions_report 7 (impl (coordinator session_host))) queried_host.

Lemma round_trip_answer_witness :
  ∃ s', round_trip MessageId.QueryDefinitions (put_u64 7 []) (sample_client sample_chunks) =
    (accept_response default_limits 1 sample_reply,
     with_wire (Some s') (next_attempt (sample_client sample_chunks))).
Proof.
  apply (round_trip_answer (sample_client sample_chunks) MessageId.QueryDefinitions (put_u64 7 [])
    (frame_bytes sample_query) (mkMemorySocket [] 65536 sample_chunks)
    (mkMemorySocket (frame_bytes sample_query) 65536 sample_chunks) sample_chunks sample_reply []).
  - vm_compute. reflexivity.
  - vm_compute. discriminate.
  - reflexivity.
  - reflexivity.
  - vm_compute. reflexivity.
  - vm_compute. reflexivity.
  - split; [vm_compute; discriminate|]. eexists. split; [vm_compute; reflexivity|].
    split; [vm_compute; discriminate|]. eexists. split; [vm_compute; reflexivity|]. exact I.
  - repeat constructor; unfold chunk_fits; vm_compute; discriminate.
  - split; [|vm_compute; reflexivity..|vm_compute; discriminate].
    split; [apply (bool_decide_unpack _); vm_compute; exact I|discriminate| | | | |];
      try (apply (bool_decide_unpack _); vm_compute; exact I).
  - vm_compute. reflexivity.
Defined.

Lemma request_answered_witness :
  ∃ w' answered body,
    (answered = MessageId.ErrorReport ∨ answered = acknowledgement MessageId.QueryDefinitions) ∧
    round_trip MessageId.QueryDefinitions (put_u64 7 []) (sample_client sample_chunks) =
      (if eeqb answered MessageId.ErrorReport then
         match (decode_error_report default_limits (open_reader body)).1 with
         | None => Failure ErrorCode.Malformed "error report is malformed"
         | Some report => Failure (er_code report) (er_detail report)
         end
       else Success (reply answered (header (wire_request MessageId.QueryDefinitions (put_u64 7 [])
         (sample_client sample_chunks))) body queried_host), w').
Proof.
  apply (request_answered default_limits (50, 51) MessageId.QueryDefinitions (put_u64 7 [])
    (sample_client sample_chunks) session_host queried_host sample_chunks).
  - vm_compute. reflexivity.
  - vm_compute. discriminate.
  - apply sample_client_ok.
  - exact session_host_ok.
  - discriminate.
  - vm_compute. discriminate.
  - exact sample_transported.
  - vm_compute. discriminate.
Defined.

(** The client reads the definitions that the coordinator holds. *)
Lemma remote_queries_agree_witness :
  (Worker.query_definitions 7 (sample_client sample_chunks)).1 = Success (snapshot_definitions active_set).
Proof.
  assert (Snapshot.query_definitions 7 (impl (coordinator session_host)) =
    Success (snapshot_definitions active_set)) as E.
  { unfold Snapshot.query_definitions. by rewrite session_host_set. }
  destruct (remote_queries_agree default_limits (50, 51) 7 (sample_client sample_chunks) session_host
    queried_host sample_chunks) as (Hd & _).
  - vm_compute. reflexivity.
  - vm_compute. discriminate.
  - apply sample_client_ok.
  - exact session_host_ok.
  - split; [|split]; vm_compute; reflexivity.
  - lia.
  - rewrite E in Hd. cbn [found_or_not] in Hd. apply Hd.
    + exact sample_transported.
    + intros d [= <-]. apply definitions_wire; [exact active_set_wire|]. vm_compute. reflexivity.
    + vm_compute. discriminate.
Defined.
