(* ===== verification/HostProcess.v ===== *)
(** The process host, [crf_host.cpp]: the command line, the coordinator process and the
    worker process, with the constraint set and the candidates of [crf_fixture.hpp].

    A process is what it prints, line by line, and how it exits. The answers of the system —
    a fresh boot, the connected socket, the lines of the standard input — are arguments. *)

From Stdlib Require Import ZArith Lia Bool Ascii.
From stdpp Require Import base list numbers strings gmap sets.
From S2P Require Import Prelude Containers Base Codec Fabric Digest Lifecycle Constraint Candidate.
From S2P Require Import Evaluation Ordering ConstraintSet Evaluator Authority Persistence Store.
From S2P Require Import Coordinator Exact Protocol Snapshot Messages Net Server Threads Worker.
From S2P Require Loopback.

Open Scope string_scope.
Open Scope list_scope.
Open Scope Z_scope.

(** ** The command line *)

Record Options := mkOptions {
  op_mode : string;
  op_store : string;
  op_port : Z;
  op_publisher : Z;
  op_scenario : string;
  op_hold : bool;
  op_boot : Z
}.

Definition new_options : Options := mkOptions "" "" 0 1 "publish" false 0.

Definition with_mode (m : string) (o : Options) : Options :=
  mkOptions m (op_store o) (op_port o) (op_publisher o) (op_scenario o) (op_hold o) (op_boot o).
Definition with_store (s : string) (o : Options) : Options :=
  mkOptions (op_mode o) s (op_port o) (op_publisher o) (op_scenario o) (op_hold o) (op_boot o).
Definition with_port (p : Z) (o : Options) : Options :=
  mkOptions (op_mode o) (op_store o) p (op_publisher o) (op_scenario o) (op_hold o) (op_boot o).
Definition with_publisher (p : Z) (o : Options) : Options :=
  mkOptions (op_mode o) (op_store o) (op_port o) p (op_scenario o) (op_hold o) (op_boot o).
Definition with_scenario (s : string) (o : Options) : Options :=
  mkOptions (op_mode o) (op_store o) (op_port o) (op_publisher o) s (op_hold o) (op_boot o).
Definition with_hold (o : Options) : Options :=
  mkOptions (op_mode o) (op_store o) (op_port o) (op_publisher o) (op_scenario o) true (op_boot o).
Definition with_boot (b : Z) (o : Options) : Options :=
  mkOptions (op_mode o) (op_store o) (op_port o) (op_publisher o) (op_scenario o) (op_hold o) b.

(** [std::stoul] and [std::stoull], of a type of [width] bits: white space and a sign are
    taken, digits are read to the first character that is none, a negative number wraps
    around. [None] is an exception: no digit, or a number that does not fit. *)
Definition ascii_code (c : ascii) : Z := Z.of_N (N_of_ascii c).
Definition is_space (c : ascii) : bool :=
  (ascii_code c =? 32) || ((9 <=? ascii_code c) && (ascii_code c <=? 13)).
Definition digit_value (c : ascii) : option Z :=
  if (48 <=? ascii_code c) && (ascii_code c <=? 57) then Some (ascii_code c - 48) else None.

Fixpoint skip_space (s : string) : string :=
  match s with
  | String c rest => if is_space c then skip_space rest else s
  | EmptyString => s
  end.

(** The number the leading digits make; [read] is what was read before. *)
Fixpoint read_digits (s : string) (read : option Z) : option Z :=
  match s with
  | String c rest =>
      match digit_value c with
      | Some d => read_digits rest (Some (10 * default 0 read + d))
      | None => read
      end
  | EmptyString => read
  end.

Definition stoul (width : Z) (text : string) : option Z :=
  let '(negative, digits) :=
    match skip_space text with
    | String "-"%char rest => (true, rest)
    | String "+"%char rest => (false, rest)
    | s => (false, s)
    end in
  match read_digits digits None with
  | None => None
  | Some value =>
      if 2 ^ width <=? value then None else Some (if negative : bool then wrap width (- value) else value)
  end.

(** [value_of]. *)
Fixpoint substr (n : nat) (s : string) : string :=
  match n, s with
  | Datatypes.S n, String _ rest => substr n rest
  | _, _ => s
  end.

(** The text after a prefix, if the argument has it. *)
Definition after (prefix argument : string) : option string :=
  if String.prefix prefix argument then Some (substr (String.length prefix) argument) else None.

(** A command line that is read, one with an argument that is unknown, one without a mode,
    and one that throws. *)
Inductive Parsed :=
  | Parse (o : Options)
  | Unknown (argument : string)
  | Missing
  | Threw.

(** One argument. *)
Definition parse_argument (long_bits : Z) (argument : string) (o : Options) : Parsed :=
  let number width text (k : Z → Options) :=
    match stoul width text with None => Threw | Some value => Parse (k value) end in
  match after "--store=" argument with Some text => Parse (with_store text o) | None =>
  match after "--port=" argument with
  | Some text => number long_bits text (λ value, with_port (wrap 16 value) o) | None =>
  match after "--publisher=" argument with
  | Some text => number 64 text (λ value, with_publisher value o) | None =>
  match after "--scenario=" argument with Some text => Parse (with_scenario text o) | None =>
  match after "--boot=" argument with
  | Some text => number 64 text (λ value, with_boot value o) | None =>
  if String.eqb argument "--hold" then Parse (with_hold o) else Unknown argument
  end end end end end.

Fixpoint parse_loop (long_bits : Z) (arguments : list string) (o : Options) : Parsed :=
  match arguments with
  | [] => Parse o
  | argument :: rest =>
      match parse_argument long_bits argument o with
      | Parse o => parse_loop long_bits rest o
      | other => other
      end
  end.

(** [parse]; [long_bits] is the width of [unsigned long]. *)
Definition parse (long_bits : Z) (argv : list string) : Parsed :=
  match argv with
  | _ :: mode :: arguments => parse_loop long_bits arguments (with_mode mode new_options)
  | _ => Missing
  end.

(** ** The fixtures *)

Definition standard_evidence : EvidenceRequirements := mkRequirements 3 4 5 6 7 8 9 0.

Definition evidence_binding (e : EvidenceRequirements) : EvidenceGenerationSet :=
  mkEvidence (req_topology e) (req_link_state e) (req_capability e) (req_failure_domain e)
    (req_policy e) (req_planner e) (req_path_authority e) 0 100.

Definition base_constraint (id : Z) (kind : ConstraintKind.t) : Constraint :=
  mkConstraint id 1 kind ConstraintScope.Mandatory UnknownPolicy.FailClosed 0 LatencySource.Unset
    DomainKind.Unset DomainRelation.Unset 0 0 [] [] [] [] [] [] 0 0.

Definition max_latency (id : Z) (source : LatencySource.t) (micros : Z) : Constraint :=
  mkConstraint id 1 ConstraintKind.MaxLatency ConstraintScope.Mandatory UnknownPolicy.FailClosed micros
    source DomainKind.Unset DomainRelation.Unset 0 0 [] [] [] [] [] [] 0 0.

Definition max_hops (id hops : Z) : Constraint :=
  mkConstraint id 1 ConstraintKind.MaxHopCount ConstraintScope.Mandatory UnknownPolicy.FailClosed hops
    LatencySource.Unset DomainKind.Unset DomainRelation.Unset 0 0 [] [] [] [] [] [] 0 0.

Definition with_nodes (id : Z) (kind : ConstraintKind.t) (nodes : list Z) : Constraint :=
  mkConstraint id 1 kind ConstraintScope.Mandatory UnknownPolicy.FailClosed 0
    LatencySource.Unset DomainKind.Unset DomainRelation.Unset 0 0 nodes [] [] [] [] [] 0 0.

Definition as_preference (c : Constraint) (rank weight : Z) : Constraint :=
  mkConstraint (Constraint.id c) (generation c) (kind c) ConstraintScope.Preference (unknown_policy c)
    (bound c) (latency_source c) (domain_kind c) (domain_relation c) (locality_domain c)
    (isolation_class c) (nodes c) (links c) (tiers c) (sites c) (Constraint.capabilities c) (policies c)
    rank weight.

(** [PathSpec], without the fields the host leaves as they are. *)
Record PathSpec := mkSpec {
  sp_path : Z;
  sp_nodes : list Z;
  sp_first_link : Z;
  sp_planner_latency_micros : Z;
  sp_bandwidth_bits_per_second : Z;
  sp_planner_rank : Z
}.

Definition spec_node (n : Z) : NodeFact := mkNode n 0 0 [] [] [] [].

Definition spec_bandwidth (spec : PathSpec) (e : EvidenceRequirements) : BandwidthCapabilityEvidence :=
  if sp_bandwidth_bits_per_second spec =? 0 then
    mkBandwidth CapabilityModel.None EvidenceProvenance.None 0 0 0
  else
    mkBandwidth CapabilityModel.DeclaredCapabilityRegistry EvidenceProvenance.FabricCapabilityRegistry
      (sp_bandwidth_bits_per_second spec) (req_capability e) 100.

(** The links between the consecutive nodes. *)
Fixpoint spec_links (b : BandwidthCapabilityEvidence) (first_link : Z) (ns : list Z) : list LinkFact :=
  match ns with
  | n1 :: ((n2 :: _) as rest) => mkLink first_link n1 n2 b [] [] [] :: spec_links b (first_link + 1) rest
  | _ => []
  end.

Definition spec_latency (spec : PathSpec) (e : EvidenceRequirements) : LatencyEvidence :=
  if sp_planner_latency_micros spec =? 0 then
    mkLatency LatencySource.Unset EvidenceProvenance.None 0 0 0 0
  else
    mkLatency LatencySource.PlannerCost EvidenceProvenance.PlannerModel (sp_planner_latency_micros spec)
      (req_planner e) 0 0.

Definition build_candidate (spec : PathSpec) (e : EvidenceRequirements) : CandidatePath :=
  let found := spec_links (spec_bandwidth spec e) (sp_first_link spec) (sp_nodes spec) in
  mkCandidate (sp_path spec) (req_path_authority e) PathAuthorityVerdict.Legal (req_planner e) true
    (sp_planner_rank spec) false 0 PlannerCostModel.None (wrap 32 (size found))
    (map spec_node (sp_nodes spec)) found (spec_latency spec e) [] (evidence_binding e).

Definition make_set (set_id : Z) (cs : list Constraint) (e : EvidenceRequirements) : ConstraintSet :=
  let finalized := validate_and_finalize_constraint_set
    (mkSet set_id 1 ConstraintSetState.Active "" cs e default_ranking zero_digest 0) default_limits [] in
  let s := fin_set finalized in
  match fin_status finalized with
  | Success _ => s
  | Failure code _ =>
      mkSet (cs_id s) (cs_generation s) (cs_state s) ("INVALID FIXTURE: " ++ error_name code)%string
        (constraints s) (requirements s) (ranking s) (cs_digest s) (declared_tick s)
  end.

(** ** What the host publishes *)

Definition host_limits : Limits :=
  mkLimits 64 256 16 256 64 64 64 32 16 8 32 64 64 32 32 (2 ^ 20) (2 ^ 22)
    (2 ^ 24) 64 256 256 128 512 (2 ^ 24).

Definition host_set : ConstraintSet :=
  let s := make_set 100
    [max_hops 1 4; with_nodes 2 ConstraintKind.ForbiddenNode [77];
     max_latency 3 LatencySource.PlannerCost 9000;
     as_preference (max_latency 4 LatencySource.PlannerCost 5000) 1 5] standard_evidence in
  mkSet (cs_id s) (cs_generation s) (cs_state s) "host" (constraints s) (requirements s) (ranking s)
    (cs_digest s) (declared_tick s).

Definition host_candidates : list CandidatePath :=
  map (λ spec, build_candidate spec standard_evidence)
    [mkSpec 201 [10; 11; 12] 1101 4000 10000000000 1;
     mkSpec 202 [10; 77; 12] 1201 3000 10000000000 0;
     mkSpec 203 [20; 21; 22] 1301 12000 10000000000 2].

(** ** Output *)

(** What a process printed, and the status it exits with. *)
Record Ran := mkRan { printed : list string; exit_status : Z }.

Definition newline : string := String (Ascii.ascii_of_nat 10) "".

(** [printf("%s", text.c_str())] stops at the first null character. *)
Fixpoint c_str (text : string) : string :=
  match text with
  | EmptyString => ""
  | String c rest => if ascii_code c =? 0 then "" else String c (c_str rest)
  end.

Definition error_line (what : string) (code : ErrorCode.t) (detail : string) : string :=
  ("ERROR " ++ what ++ " " ++ error_name code ++ " " ++ c_str detail ++ newline)%string.

Definition failed (what : string) (code : ErrorCode.t) (detail : string) : Ran :=
  mkRan [error_line what code detail] 1.

(** ** The coordinator process *)

(** The scopes every publisher of the host is granted, and those a worker asks for. *)
Definition worker_scopes : AuthorityScopeMask :=
  fold_left Z.lor (map scope_bit [AuthorityScope.PublishEvaluation; AuthorityScope.ApplyLifecycle;
    AuthorityScope.ReadDefinitions; AuthorityScope.ReadResults])
    (scope_bit AuthorityScope.PublishConstraintSet).
Definition granted_scopes_of_host : AuthorityScopeMask :=
  fold_left Z.lor (map scope_bit [AuthorityScope.RegisterPublisher; AuthorityScope.AdministerFencing])
    worker_scopes.

Definition coordinator_config (o : Options) : CoordinatorConfig :=
  mkConfig host_limits (op_store o)
    (map (λ publisher, mkGrant (Z.of_nat publisher) granted_scopes_of_host) (seq 1 8)) true standard_evidence 16.

Definition ready_line (port epoch : Z) : string :=
  ("READY PORT=" ++ decimal port ++ " EPOCH=" ++ decimal epoch ++ newline)%string.

(** [run_coordinator] up to [run]: a process that is ready, or one that has exited and
    destroyed its coordinator, which releases the lock of its store. *)
Definition coordinator_ready {D S O : Type} `{FileSystem D} `{Sockets S} `{!Loopback.SocketCalls O}
    (o : Options) (tick : Z) (d : D) (n : Loopback.Net O)
    : (Ran + string * Loopback.TcpListener * Process (D := D) (S := S)) * D * Loopback.Net O :=
  match Coordinator.open (coordinator_config o) tick d with
  | (Failure code detail, d) => (inl (failed "open" code detail), d, n)
  | (Success i, d) =>
      match Threads.start host_limits (op_port o) (mkWorld i d) n with
      | (Failure code detail, n) =>
          let d := match im_store i with Some _ => release_store_lock (op_store o) d | None => d end in
          (inl (failed "listen" code detail), d, n)
      | (Success (l, p), n) =>
          (inr (ready_line (Loopback.listener_port l) (reg_epoch (im_authority i)), l, p), d, n)
      end
  end.

(** What follows [run] and [stop]. *)
Definition coordinator_served (served : Status) : Ran :=
  match served with
  | Failure code detail => failed "serve" code detail
  | Success _ => mkRan [] 0
  end.

(** ** The worker process *)

Definition worker_config (o : Options) : WorkerConfig :=
  mkWorkerConfig (op_publisher o) worker_scopes "crf_host" (op_boot o).

Definition counts_line (what : string) (r : CurrentnessReport) : string :=
  (what ++ " CURRENT=" ++ decimal (rp_current_results r) ++ " REVALIDATION=" ++
   decimal (rp_revalidation_required r) ++ " RECOVERED=" ++ decimal (rp_recovered_unproven r) ++
   newline)%string.

Definition result_line (r : EvaluationRecord) : string :=
  ("RESULT PATH=" ++ decimal (rec_path r) ++ " OUTCOME=" ++ Outcome.to_string (Evaluation.outcome r) ++
   " PRIMARY=" ++ ReasonCode.to_string (primary_reason r) ++ newline)%string.

Definition definitions_line (s : DefinitionsSnapshot) : string :=
  ("DEFINITIONS SET=" ++ decimal (ds_set_id s) ++ " STATE=" ++ ConstraintSetState.to_string (ds_state s) ++
   " DIGEST=" ++ to_hex (ds_digest s) ++ newline)%string.

Definition published_line (s : ConstraintSet) : string :=
  ("PUBLISHED SET=" ++ decimal (cs_id s) ++ " GEN=" ++ decimal (cs_generation s) ++ " DIGEST=" ++
   to_hex (cs_digest s) ++ newline)%string.

Definition rank_line (order : list RankedCandidate) : string :=
  ("RANK=" ++ fold_left (λ text entry,
     ((if String.eqb text "" then "" else text ++ ",") ++ decimal (ranked_path entry))%string) order "" ++
   newline)%string.

(** The lines before what follows. *)
Definition say_all (lines : list string) (r : Ran) : Ran := mkRan (lines ++ printed r) (exit_status r).

Section worker_process.
Context {S : Type} `{Sockets S}.

Notation Client := (WorkerClient S).

(** A process that returns [code]: what it prints last, and its client, which is closed next,
    by a call of [close] or by the destructor. *)
Definition leave (lines : list string) (code : Z) (w : Client) : Ran * Client :=
  (mkRan lines code, w).
Definition leave_failed (what : string) (code : ErrorCode.t) (detail : string) (w : Client)
    : Ran * Client :=
  leave [error_line what code detail] 1 w.

(** Lines printed before the rest. *)
Definition saying (lines : list string) (r : Ran * Client) : Ran * Client := (say_all lines r.1, r.2).

(** The reports that are printed when the query succeeds. *)
Definition report_currentness (what : string) (set_id : Z) (w : Client) : list string * Client :=
  match query_currentness set_id w with
  | (Success r, w) => ([counts_line what r], w)
  | (Failure _ _, w) => ([], w)
  end.

Definition revalidate_scenario (w : Client) : Ran * Client :=
  match query_definitions 100 w with
  | (Failure code detail, w) => leave_failed "definitions" code detail w
  | (Success definitions, w) =>
      saying [definitions_line definitions]
        (let '(counts, w) := report_currentness "RECOVERED" 100 w in
         saying counts
           match Worker.evaluate 100 host_candidates w with
           | (Failure code detail, w) => leave_failed "evaluate" code detail w
           | (Success outcome, w) =>
               leave (map result_line (records (co_batch outcome)) ++ [("SCENARIO_OK" ++ newline)%string]) 0 w
           end)
  end.

(** The lines read while holding; the process leaves at [quit] or at the end of the input. *)
Fixpoint hold (input : list string) (w : Client) : Ran * Client :=
  match input with
  | [] => leave [] 0 w
  | line :: rest =>
      if String.eqb line "quit" then leave [] 0 w
      else if String.eqb line "heartbeat" then
        let '(beat, w) := heartbeat w in
        saying [("HEARTBEAT " ++ (if ok beat then "ok" else "failed") ++ newline)%string] (hold rest w)
      else hold rest w
  end.

Definition publish_scenario (held : bool) (input : list string) (w : Client) : Ran * Client :=
  match Worker.publish_constraint_set host_set w with
  | (Failure code detail, w) => leave_failed "publish" code detail w
  | (Success published, w) =>
      saying [published_line published]
        match Worker.apply_lifecycle (cs_id published) LifecycleEvent.Activate w with
        | (Failure code detail, w) => leave_failed "activate" code detail w
        | (Success _, w) =>
            match Worker.evaluate (cs_id published) host_candidates w with
            | (Failure code detail, w) => leave_failed "evaluate" code detail w
            | (Success outcome, w) =>
                saying (map result_line (records (co_batch outcome)) ++
                        [rank_line (admissible_order (co_batch outcome));
                         ("COMMITTED=" ++ (if co_committed outcome then "1" else "0") ++ newline)%string])
                  (let '(counts, w) := report_currentness "CURRENTNESS" (cs_id published) w in
                   saying (counts ++ [("SCENARIO_OK" ++ newline)%string])
                     (if held then saying [("HOLDING" ++ newline)%string] (hold input w) else leave [] 0 w))
            end
        end
  end.

(** [run_worker] until it returns, with its client unless it could not connect. *)
Definition worker_session (o : Options) (fresh : Z) (connected : Result S) (input : list string)
    : Ran * option Client :=
  match Worker.connect (worker_config o) host_limits fresh connected with
  | Failure code detail => (failed "connect" code detail, None)
  | Success w =>
      let '(r, w) := saying
        [("BOOT=" ++ decimal (wk_boot w) ++ newline)%string;
         ("SESSION=" ++ decimal (wk_session w) ++ newline)%string;
         ("EPOCH=" ++ decimal (wk_epoch w) ++ newline)%string]
        (if String.eqb (op_scenario o) "probe" then leave [("PROBE_OK" ++ newline)%string] 0 w
         else if String.eqb (op_scenario o) "revalidate" then revalidate_scenario w
         else publish_scenario (op_hold o) input w) in
      (r, Some w)
  end.

(** [run_worker]: the client is closed before the process ends. *)
Definition run_worker (o : Options) (fresh : Z) (connected : Result S) (input : list string)
    : Ran * option Client :=
  let '(r, w) := worker_session o fresh connected input in (r, Worker.close <$> w).
End worker_process.

(** ** [main] *)

(** What a command line comes to. *)
Inductive Command :=
  | RunCoordinator (o : Options)
  | RunWorker (o : Options)
  | Exits (diagnostics : list string) (status : Z)
  | Terminates.

Definition usage : list string :=
  [("usage: crf_host coordinator --store=<path> [--port=<n>]" ++ newline)%string;
   ("       crf_host worker --port=<n> --publisher=<id> [--hold]" ++ newline)%string].

Definition main_command (long_bits : Z) (argv : list string) : Command :=
  match parse long_bits argv with
  | Threw => Terminates
  | Missing => Exits usage 2
  | Unknown argument => Exits (("unknown argument: " ++ argument ++ newline)%string :: usage) 2
  | Parse o =>
      if String.eqb (op_mode o) "coordinator" then RunCoordinator o
      else if String.eqb (op_mode o) "worker" then RunWorker o
      else Exits [("unknown mode: " ++ op_mode o ++ newline)%string] 2
  end.
