(* ===== verification/HostCorrect.v ===== *)
(** Properties of the processes of [HostProcess.v]: the numbers of a command line are read
    back, a worker process ends with exactly one verdict whatever the coordinator answers,
    and it gets in exactly when the coordinator registers its publisher. *)

From Stdlib Require Import ZArith Lia Bool Ascii Strings.Byte.
From stdpp Require Import base list numbers strings pretty gmap sets.
From S2P Require Import Prelude Containers Base Codec Fabric Digest Lifecycle Constraint Candidate.
From S2P Require Import Evaluation Ordering ConstraintSet Evaluator Authority Persistence Store.
From S2P Require Import Coordinator CoordinatorSystem CoordinatorCorrect Exact Protocol ProtocolCorrect.
From S2P Require Import Snapshot Messages Net Server ServerCorrect Threads Worker WorkerCorrect HostProcess.

Open Scope string_scope.
Open Scope list_scope.
Open Scope Z_scope.

(** ** Lemmas: numbers *)

Lemma digit_value_pretty d : (d < 10)%N → digit_value (pretty_N_char d) = Some (Z.of_N d).
Proof.
  intros Hd. assert (d = 0 ∨ d = 1 ∨ d = 2 ∨ d = 3 ∨ d = 4 ∨ d = 5 ∨ d = 6 ∨ d = 7 ∨ d = 8 ∨ d = 9)%N
    as Hc by lia. by repeat (destruct Hc as [->|Hc]; [reflexivity|]); subst.
Qed.


(** The digits of a number that is not 0, before a text. *)
Lemma read_digits_go x : ∀ s, (0 < x)%N → read_digits (pretty_N_go x s) None = read_digits s (Some (Z.of_N x)).
Proof.
  induction (N.lt_wf_0 x) as [x _ IH]. intros s Hx. rewrite pretty_N_go_step by done.
  pose proof (N.div_mod x 10 ltac:(done)) as Hd. pose proof (N.mod_lt x 10 ltac:(done)) as Hm.
  destruct (N.eq_0_gt_0_cases (x `div` 10)) as [E|Hp].
  - rewrite E, pretty_N_go_0. cbn [read_digits]. rewrite digit_value_pretty by done. cbn [default].
    f_equal. f_equal. unfold id. lia.
  - rewrite IH by (done || (apply N.div_lt; lia)). cbn [read_digits]. rewrite digit_value_pretty by done.
    f_equal. f_equal. cbn. lia.
Qed.

Lemma read_digits_decimal n : 0 <= n → read_digits (decimal n) None = Some n.
Proof.
  intros Hn. unfold decimal, pretty, pretty_N. destruct (decide (Z.to_N n = 0%N)) as [E|E];
    [assert (n = 0) as -> by lia; reflexivity|].
  rewrite read_digits_go by lia. cbn. f_equal. lia.
Qed.

Lemma pretty_head x : ∀ s, (0 < x)%N →
  ∃ c rest, pretty_N_go x s = String c rest ∧ digit_value c ≠ None.
Proof.
  induction (N.lt_wf_0 x) as [x _ IH]. intros s Hx. rewrite pretty_N_go_step by done.
  pose proof (N.mod_lt x 10 ltac:(done)) as Hm.
  destruct (N.eq_0_gt_0_cases (x `div` 10)) as [E|Hp].
  - rewrite E, pretty_N_go_0. eexists _, _. split; [done|]. by rewrite digit_value_pretty.
  - apply IH; [|done]. apply N.div_lt; lia.
Qed.

Lemma decimal_head n : ∃ c rest, decimal n = String c rest ∧ digit_value c ≠ None.
Proof.
  unfold decimal, pretty, pretty_N. destruct (decide (Z.to_N n = 0%N)) as [E|E]; [by eexists _, _|]. apply pretty_head. lia.
Qed.

(** A text that begins with a digit has neither space nor sign. *)
Lemma stoul_digit width c rest : digit_value c ≠ None →
  stoul width (String c rest) =
    match read_digits (String c rest) None with
    | None => None
    | Some value => if 2 ^ width <=? value then None else Some value
    end.
Proof.
  intros Hc. unfold stoul. cbn [skip_space].
  assert (is_space c = false ∧ c ≠ "-"%char ∧ c ≠ "+"%char) as (-> & Hm & Hp).
  { revert Hc. unfold digit_value, is_space.
    destruct ((48 <=? ascii_code c) && (ascii_code c <=? 57)) eqn:E; [|done]. intros _. split; [lia|].
    split; intros ->; revert E; vm_compute; discriminate. }
  destruct c as [[] [] [] [] [] [] [] []]; done.
Qed.

Lemma stoul_decimal width n : fits width n → stoul width (decimal n) = Some n.
Proof.
  intros [H0 H1]. pose proof (decimal_head n) as (c & rest & E & Hc). rewrite E, stoul_digit by done.
  rewrite <- E, read_digits_decimal by done. destruct (2 ^ width <=? n) eqn:El; [lia|done].
Qed.

Lemma prefix_own p text : String.prefix p (p ++ text) = true.
Proof. induction p as [|c p IH]; [by destruct text|].
  change (String.prefix (String c p) (String c (p ++ text)) = true). cbn. by destruct (ascii_dec c c).
Qed.
Lemma substr_own p text : substr (String.length p) (p ++ text) = text.
Proof. induction p as [|c p IH]; [done|exact IH]. Qed.
Lemma after_prefix p text : after p (p ++ text)%string = Some text.
Proof. unfold after. by rewrite prefix_own, substr_own. Qed.

(** The arguments, whatever text follows the name. *)
Ltac argument name :=
  unfold parse_argument;
  repeat match goal with
    | |- context [after ?p (name ++ ?text)%string] =>
        first [rewrite (after_prefix name text) | rewrite (eq_refl : after p (name ++ text)%string = None)]
    end; try reflexivity.

Lemma parse_port lb text o : parse_argument lb ("--port=" ++ text)%string o =
  match stoul lb text with None => Threw | Some value => Parse (with_port (wrap 16 value) o) end.
Proof. argument "--port=". Qed.
Lemma parse_publisher lb text o : parse_argument lb ("--publisher=" ++ text)%string o =
  match stoul 64 text with None => Threw | Some value => Parse (HostProcess.with_publisher value o) end.
Proof. argument "--publisher=". Qed.
Lemma parse_boot lb text o : parse_argument lb ("--boot=" ++ text)%string o =
  match stoul 64 text with None => Threw | Some value => Parse (with_boot value o) end.
Proof. argument "--boot=". Qed.
Lemma parse_scenario lb text o :
  parse_argument lb ("--scenario=" ++ text)%string o = Parse (with_scenario text o).
Proof. argument "--scenario=". Qed.

(** The numbers of a command line are the ones written on it, the port in its 16 low bits:
    a port that no socket has is taken for another one. *)
Theorem command_line long_bits port publisher boot scenario :
  fits long_bits port → fits 64 publisher → fits 64 boot →
  main_command long_bits ["crf_host"; "worker"; "--port=" ++ decimal port;
    "--publisher=" ++ decimal publisher; "--boot=" ++ decimal boot; "--scenario=" ++ scenario; "--hold"]%string =
  RunWorker (mkOptions "worker" "" (wrap 16 port) publisher scenario true boot).
Proof.
  intros Hp Hq Hb. unfold main_command, parse. cbn [parse_loop].
  by rewrite parse_port, stoul_decimal, parse_publisher, stoul_decimal, parse_boot, stoul_decimal,
    parse_scenario.
Qed.

(** ** Lemmas: verdicts *)

Definition verdicts : list string := [("PROBE_OK" ++ newline)%string; ("SCENARIO_OK" ++ newline)%string].

(** A line that reports no error, and one that is no verdict either. *)
Definition no_error (line : string) : Prop := String.prefix "ERROR " line = false.
Definition plain (line : string) : Prop := no_error line ∧ line ∉ verdicts.

(** A process that succeeded said so and reported no error; one that failed reported one
    error, last, and gave no verdict. *)
Definition concluded (r : Ran) : Prop :=
  (exit_status r = 0 ∧ (∃ v, v ∈ verdicts ∧ v ∈ printed r) ∧ Forall no_error (printed r)) ∨
  (exit_status r = 1 ∧ ∃ before what code detail,
     printed r = before ++ [error_line what code detail] ∧ Forall plain before).

Lemma plain_no_error lines : Forall plain lines → Forall no_error lines.
Proof. intros Hl. eapply Forall_impl; [exact Hl|]. by intros x []. Qed.

Lemma concluded_say lines r : Forall plain lines → concluded r → concluded (say_all lines r).
Proof.
  intros Hl [(E & (v & Hv & Hin) & Hr)|(E & before & what & code & detail & Hr & Hb)]; [left|right].
  - split; [done|]. split; [exists v; split; [done|]; cbn; apply elem_of_app; by right|].
    cbn. apply Forall_app. split; [|done]. by apply plain_no_error.
  - split; [done|]. exists (lines ++ before), what, code, detail. cbn. rewrite Hr, <- app_assoc.
    split; [done|]. by apply Forall_app.
Qed.

Lemma concluded_failed what code detail : concluded (failed what code detail).
Proof. right. split; [done|]. by exists [], what, code, detail. Qed.

(** Lines that begin with a word of their own. *)
Ltac plain_line :=
  split; [reflexivity|unfold verdicts; rewrite !not_elem_of_cons; repeat split; [discriminate..|apply not_elem_of_nil]].

Lemma result_plain rs : Forall plain (map result_line rs).
Proof. induction rs as [|r rs IH]; constructor; [plain_line|done]. Qed.

Section verdict.
Context {S : Type} `{Sockets S}.

Lemma report_plain what set_id (w : WorkerClient S) :
  what ∈ ["RECOVERED"; "CURRENTNESS"] → Forall plain (report_currentness what set_id w).1.
Proof.
  intros Hw. unfold report_currentness. destruct (query_currentness set_id w) as [[r|code detail] w']; [|done].
  cbn. constructor; [|done]. apply elem_of_cons in Hw as [->|Hw]; [plain_line|].
  apply list_elem_of_singleton in Hw as ->. plain_line.
Qed.

Lemma hold_ok input : ∀ w : WorkerClient S,
  exit_status (hold input w).1 = 0 ∧ Forall no_error (printed (hold input w).1).
Proof.
  induction input as [|line rest IH]; intros w; cbn [hold]; [done|].
  destruct (String.eqb line "quit"); [done|]. destruct (String.eqb line "heartbeat"); [|done].
  destruct (heartbeat w) as [beat w']. cbn. destruct (IH w') as [H1 H2]. split; [done|].
  constructor; [by destruct (ok beat)|done].
Qed.

(** A worker process ends with one verdict, whatever its peer sends: it exits with 0 exactly
    when it printed a verdict, and with 1 when the last thing it printed is an error. *)
Theorem worker_concludes o fresh (connected : Result S) input :
  concluded (HostProcess.run_worker o fresh connected input).1.
Proof.
  unfold HostProcess.run_worker, worker_session.
  destruct (Worker.connect _ _ _ _) as [w|code detail]; [|apply concluded_failed].
  set (rest := if String.eqb _ "probe" then _ else _). assert (concluded rest.1) as Hr.
  2: { destruct rest as [r w']. cbn. apply concluded_say; [|done].
    do 3 (constructor; [plain_line|]). constructor. }
  subst rest. destruct (String.eqb _ "probe").
  { left. split; [done|]. split; [|by repeat constructor]. exists ("PROBE_OK" ++ newline)%string.
    split; apply list_elem_of_here. }
  destruct (String.eqb _ "revalidate").
  - unfold revalidate_scenario. destruct (query_definitions 100 w) as [[s|code detail] w1];
      [|apply concluded_failed]. cbn [saying fst].
    apply concluded_say; [constructor; [plain_line|done]|].
    pose proof (report_plain "RECOVERED" 100 w1 ltac:(apply list_elem_of_here)) as Hp.
    destruct (report_currentness _ _ _) as [counts w2]. cbn [saying fst] in *. apply concluded_say; [done|].
    destruct (Worker.evaluate _ _ _) as [[out|code detail] w3]; [|apply concluded_failed].
    left. split; [done|]. cbn. split.
    + exists ("SCENARIO_OK" ++ newline)%string. split; [apply list_elem_of_further, list_elem_of_here|].
      apply elem_of_app. right. apply list_elem_of_here.
    + apply Forall_app. split; [|by repeat constructor]. apply plain_no_error, result_plain.
  - unfold publish_scenario. destruct (Worker.publish_constraint_set _ _) as [[s|code detail] w1];
      [|apply concluded_failed]. cbn [saying fst]. apply concluded_say; [constructor; [plain_line|done]|].
    destruct (Worker.apply_lifecycle _ _ _) as [[x|code detail] w2]; [|apply concluded_failed].
    destruct (Worker.evaluate _ _ _) as [[out|code detail] w3]; [|apply concluded_failed].
    cbn [saying fst]. apply concluded_say.
    { apply Forall_app. split; [apply result_plain|]. constructor; [plain_line|].
      constructor; [|constructor]. destruct (co_committed out); plain_line. }
    pose proof (report_plain "CURRENTNESS" (cs_id s) w3 ltac:(apply list_elem_of_further, list_elem_of_here)) as Hp.
    destruct (report_currentness _ _ _) as [counts w4]. cbn [saying fst] in *.
    left. destruct (op_hold o); cbn [saying fst say_all exit_status printed leave].
    + pose proof (hold_ok input w4) as [He Hn]. split; [done|]. split.
      * exists ("SCENARIO_OK" ++ newline)%string. split; [apply list_elem_of_further, list_elem_of_here|].
        rewrite <- app_assoc. apply elem_of_app. right. apply list_elem_of_here.
      * rewrite <- app_assoc. apply Forall_app. split; [|by repeat constructor].
        by apply plain_no_error.
    + split; [done|]. rewrite app_nil_r. split.
      * exists ("SCENARIO_OK" ++ newline)%string. split; [apply list_elem_of_further, list_elem_of_here|].
        apply elem_of_app. right. apply list_elem_of_here.
      * apply Forall_app. split; [|by repeat constructor].
        by apply plain_no_error.
Qed.
End verdict.

(** ** A worker process and a coordinator *)

Section admission.
Context {S D T : Type} `{Sockets S} `{FileSystemLaws D} `{SocketLaws T} `{!ReliableSockets T}.

(** What is registered has a session and no scope that was not asked for. *)
Lemma registered_client now config boot (h : Host D T) r w :
  fits 32 (wc_requested_scopes config) → registration_of now config boot h = (Success r, w) →
  is_valid (wrap 64 (next_session h + 1)) = true ∧ fits 32 (rg_scopes r).
Proof.
  intros Hf E. pose proof (registered_scopes _ _ _ _ _ _ _ _ _ E) as [granted Hg].
  split; [|rewrite Hg; by apply land_fits].
  revert E. unfold registration_of, Coordinator.register_publisher, get, mbind, op_bind. cbv beta iota zeta.
  destruct (_ || _); [done|]. destruct (find_grant _ _) as [scopes|]; [|done]. destruct (_ =? 0); [done|].
  unfold Authority.register_publisher. cbn [rg_publisher rg_boot rg_session].
  destruct (negb (is_valid (wc_publisher config))); [done|]. destruct (negb (is_valid boot)); [done|].
  by destruct (is_valid _).
Qed.

(** C17: A worker process gets in exactly when the coordinator registers its publisher. Its
    hello reaches the server under the limits of the host, and what the server sends for it
    comes back in chunks. When the coordinator registers the publisher under a new session,
    the process connects as that boot in that session and epoch with the scopes that were
    granted, prints the three, and goes on in a session the server takes its requests in.
    When the coordinator refuses it, the process prints the default-deny error and nothing
    else, fails, and has no client. A fenced boot is always refused, whoever uses it; and in
    each case the process ends with one verdict. *)
Theorem worker_admission o fresh input now (s : S) (h h' : Host D T) chunks :
  let boot := if is_valid (op_boot o) then op_boot o else fresh in
  host_ok h → introduced host_limits now (worker_config o) boot s h h' chunks →
  let session := wrap 64 (next_session h + 1) in
  let '(registration, w') := Coordinator.register_publisher
    (mkAuthority (epoch h) (op_publisher o) boot 1 1 session 0) (op_publisher o) boot worker_scopes
    session now.1 (coordinator h) in
  let ran := run_worker o fresh (Success s) input in
  coordinator h' = w' ∧ concluded ran.1 ∧
  (is_boot_fenced boot (im_authority (impl (coordinator h))) = true → ok registration = false) ∧
  match registration with
  | Failure _ _ =>
      ran = (mkRan [error_line "connect" ErrorCode.Unauthorized
        "default deny: the coordinator refused the publisher registration"] 1, None)
  | Success r => ∃ client rest,
      Worker.connect (worker_config o) host_limits fresh (Success s) = Success client ∧
      (wk_boot client = boot ∧ wk_session client = session ∧ wk_epoch client = epoch h ∧
       wk_granted_scopes client = rg_scopes r) ∧
      client_ok host_limits client ∧ in_session client h' ∧
      ran.1 = say_all [("BOOT=" ++ decimal boot ++ newline)%string;
        ("SESSION=" ++ decimal session ++ newline)%string;
        ("EPOCH=" ++ decimal (epoch h) ++ newline)%string] rest
  end.
Proof.
  intros boot Hh Hi session.
  destruct (hello_effect host_limits now (worker_config o) boot h (proj1 (in_hello _ _ _ _ _ _ _ _ Hi))) as [Hc Hst].
  rewrite (in_handled _ _ _ _ _ _ _ _ Hi) in Hc, Hst.
  assert (limits_ok host_limits = true ∧ 0 <= max_frame_bytes host_limits ∧ 24 <= max_frame_bytes host_limits)
    as (HL & H0' & Hm) by done.
  pose proof (handshake host_limits HL H0' now
    (worker_config o) fresh s h h' chunks Hh Hm Hi) as Hshake.
  change (if is_valid (wc_boot (worker_config o)) then _ else fresh) with boot in Hshake.
  pose proof (fenced_not_registered now (worker_config o) boot h) as Hfenced.
  pose proof (registered_client now (worker_config o) boot h) as Hclient.
  change (Coordinator.register_publisher _ _ _ _ _ _ _) with (registration_of now (worker_config o) boot h).
  destruct (registration_of now (worker_config o) boot h) as [registration w'] eqn:Er. cbn [fst snd] in *.
  split; [done|]. split; [apply worker_concludes|]. split; [exact Hfenced|].
  unfold run_worker, worker_session. destruct registration as [r|code detail]; cbv beta iota in Hshake; [|by rewrite Hshake].
  destruct Hshake as [s' E]. rewrite E. destruct (Hclient r w' ltac:(done) eq_refl) as [Hv Hs].
  destruct (in_hello _ _ _ _ _ _ _ _ Hi) as [[Hp Hb _ _] _]. cbn in Hp, Hb. destruct Hh as [_ He _].
  set (client := mkWorker _ _ _ _ _ _ _ _). set (go := if String.eqb _ "probe" then _ else _).
  exists client, go.1. split_and!; [done..| | |by destruct go as [r' w]].
  - split; [done|done|done| |done]. split; unfold fits; cbn; lia.
  - unfold in_session. rewrite Hst. done.
Qed.
End admission.

(** ** Witnesses *)

Definition probing : Options := mkOptions "worker" "" 4000 7 "probe" false 20.
Definition probe_hello : Frame := hello_on_wire (worker_config probing) 20.
Definition probed_host : Host MemoryDisk MemorySocket := Eval vm_compute in
  (handle_frame host_limits (10, 11) probe_hello sample_host).2.
Definition probe_answer : list byte := Eval vm_compute in received (socket probed_host).
Definition probe_socket : MemorySocket := mkMemorySocket [] 65536 [probe_answer].

Lemma probed : (handle_frame host_limits (10, 11) probe_hello sample_host).2 = probed_host.
Proof. vm_cast_no_check (eq_refl probed_host). Qed.

#[local] Opaque probed_host probe_answer.

Lemma probe_introduced :
  introduced host_limits (10, 11) (worker_config probing) 20 probe_socket sample_host probed_host [probe_answer].
Proof.
  split.
  - split; [|vm_compute; discriminate]. split; cbn; [lia|lia|done|]. split; vm_compute; [discriminate|reflexivity].
  - exists (mkMemorySocket (frame_bytes probe_hello) 65536 [probe_answer]).
    split; [vm_compute; reflexivity|]. cbn [delivers]. split; [vm_compute; discriminate|].
    eexists. split; [vm_compute; reflexivity|exact I].
  - repeat constructor; unfold chunk_fits; vm_compute; discriminate.
  - exact probed.
  - exists (mkMemorySocket [] 65536 [take 150 peer_stream; drop 150 peer_stream]),
      (mkMemorySocket probe_answer 65536 [take 150 peer_stream; drop 150 peer_stream]).
    split; [reflexivity|]. split; vm_compute; reflexivity.
Qed.

(** A worker that probes is let in, as boot 20 in session 1 and epoch 1. *)
Lemma worker_admission_witness :
  ∃ rest, (run_worker probing 5 (Success probe_socket) []).1 =
    say_all [("BOOT=20" ++ newline)%string; ("SESSION=1" ++ newline)%string; ("EPOCH=1" ++ newline)%string] rest.
Proof.
  pose proof (worker_admission probing 5 [] (10, 11) probe_socket sample_host probed_host [probe_answer]
    sample_host_ok probe_introduced) as H.
  cbv zeta in H. destruct (Coordinator.register_publisher _ _ _ _ _ _ _) as [registration w'] eqn:E.
  assert (ok registration = true) as Hok.
  { change registration with (registration, w').1. rewrite <- E. vm_compute. reflexivity. }
  destruct registration as [r|code detail]; [|discriminate].
  destruct H as (_ & _ & _ & client & rest & _ & _ & _ & _ & Hran). exists rest.
  rewrite Hran. assert (epoch sample_host = 1) as -> by (vm_compute; reflexivity). reflexivity.
Defined.
